(* ===== verification/_CoqProject ===== *)
-Q . S2P
Prelude.v
Bytes.v
Fair.v
WeakMem.v
Ring.v
CircularQueue.v
IpcQueue.v
IpcQueueProps.v
RingBuffer.v
RingBufferProps.v
RingWeak.v
RingWeakProps.v
IpcWeak.v
RingBench.v
UnidBlock.v
FlatBuffers.v
FlatVerify.v
Crc32.v
Chrono.v
Config.v
ConfigProps.v
EventEmitter.v
Format.v
Utility.v
CMem.v
Libpool.v
LibpoolLemmas.v
LibpoolDec.v
LibpoolSpec.v
LibpoolLife.v
LibpoolClient.v
LibpoolProps.v
LibpoolExpand.v
LibpoolRace.v
LibpoolLocked.v
BufferPool.v
Mempool.v
MempoolProps.v
UdpServer.v
UdpServerSpec.v
UdpServerProps.v
UdpClient.v
UdpClientProps.v
AsyncEcho.v
AsyncEchoProps.v
IoContext.v
Shutdown.v
EchoNet.v
Daytime.v
SharedMemory.v
Main.v
ServerLife.v
ClientLife.v
UdpNet.v
RingMain.v
Callbacks.v
RawUdp.v
Drivers.v
Logging.v
Conformance.v
