(* ===== verification/Prelude.v ===== *)
(** * A verification of Unid

    Unid hands out unique identifiers: a client and a server exchange blocks of them over UDP,
    and an application takes them from the client through shared memory.  At this commit the
    repository (https://github.com/unidly/unid) has the common library (configuration, memory
    pool, utilities), the UDP classes of the client and the server with their main programs, and
    a directory of experiments (src/spike) with the queues, the serializer, the checksum and the
    network loops the programs are to be built from.  The other directories of src/client and
    src/server are empty or hold stubs that print their name.

    ** How code is modelled

    A piece of C or C++ code is a function in the monad [M S A] (below): run on a state it returns
    a value and a new state, throws an exception (keeping the state reached), has undefined
    behaviour (with its reason), or is a loop whose fuel ran out.  [wp m Q s] is total
    correctness: [m] returns, and [Q] holds; a theorem with [wp] therefore excludes exceptions,
    undefined behaviour and non-termination.  Integers are [Z] with the conversions of the
    source's types written out ([u64], [s32], ...); signed overflow is undefined, unsigned
    arithmetic wraps.  Classes are records, member functions act on them.  Threads are step
    functions, and their theorems quantify over schedules.  In libpool, the queues and the ring
    buffers a step is one access to memory or one operation on a mutex or an allocator; in the
    shared memory programs it is one call or one access to the shared object; in the programs on
    an io_context it is one handler or one statement of main.

    ** Files

    - [Prelude]: machine integers, outcomes, the monad, the rules of [wp], automation.
    - [Bytes]: little-endian words and their round trip.
    - [CMem]: the C heap.  Memory is a finite map of bytes, a byte never written has no value, and
      every access must lie inside a live block.  The allocator is the class [Allocator] (an
      address or NULL for each request) with the laws of malloc in [AllocatorLaws]; [bump] is
      an instance.
    - [Libpool]: src/common/src/libpool.c, function by function, with the abstract pool [apool]
      and the representation [pool_rep].  [LibpoolLemmas], [LibpoolDec] (a concrete pool),
      [LibpoolSpec] (each operation refines the abstract one), [LibpoolLife] (creation,
      expansion, destruction), [LibpoolClient] (sequences of operations by a client),
      [LibpoolProps] (the properties), [LibpoolExpand] (pool_expand access by access, which alone
      is pool_expand, and what holds in the middle of it), [LibpoolRace] (pool_alloc access by
      access, two threads inside it, and pool_available beside other threads), [LibpoolLocked]
      (the build with LIBPOOL_THREAD_SAFE: any number of threads in pool_alloc, pool_free and
      pool_expand, and the mutex).
    - [Fair]: schedules in which no thread is left out for ever, and why a measure that the
      awaited turn lowers makes them end.
    - [WeakMem]: the part of the C++ memory model that the lock-free queues use: relaxed, acquire
      and release accesses to atomics with one writer each, loads that may return old values,
      and data races on plain objects, which are undefined.
    - [BufferPool]: what the network code asks of a pool, as a class with its laws.
    - [Mempool], [MempoolProps]: class Mempool (src/common/include/common/mempool.hpp,
      src/common/src/mempool.cpp) over libpool; it is an instance of [BufferPool].
    - [UdpServer], [UdpServerSpec], [UdpServerProps]: class Udp_server (src/server/network).  The
      handlers run on events: a datagram arrives, an operation completes or fails, the
      application sends.  [UdpServerSpec] has the abstract server, without a pool and addresses
      of buffers, and the relation between the two.  Proved against [BufferPool], with witnesses
      over [Mempool].
    - [UdpClient], [UdpClientProps]: class Udp_client (src/client/network), and the simulation
      that carries the server's lemmas over to it.
    - [UdpNet]: a Udp_server and any number of Udp_clients, joined by a network that loses, delays,
      reorders and duplicates, and brings datagrams from elsewhere.
    - [Main]: src/server/main.cpp up to the point where it waits.
    - [IoContext]: a program of main and one thread in io_context::run(), over an application given
      by the class [AsioApp] (its handlers, and whether operations are pending): the work guard,
      stop(), join, and std::terminate for an exception that leaves a running thread behind.
    - [ServerLife], [ClientLife]: the server program and the client program (src/client/main.cpp)
      from the configuration to the end of main, on [IoContext].
    - [Chrono], [Config], [ConfigProps]: the date arithmetic of <chrono> that class Config uses,
      class Config (src/common/include/common/config.hpp, src/common/src/config.cpp); toml++
      is the class [Toml].
    - [Format], [Utility]: number formatting, class Utility (utility.hpp).
    - [EventEmitter]: src/client/network/event_emitter.hpp (the server has an identical copy).
    - [Ring], [CircularQueue], [IpcQueue], [IpcQueueProps], [RingBuffer], [RingBufferProps]: the
      bounded FIFO as a specification, with a ring of slots refining it, and the three queues
      of src/spike (circular_queue.cpp, ipc_circular_queue.cpp and .hpp, ipc_ringbuffer.cpp),
      the last two also with a producer and a consumer thread interleaved.  [RingWeak],
      [RingWeakProps], [IpcWeak]: the same two threads on [WeakMem].  [RingBench]: the benchmark
      of the ring buffer, both threads up to the end of main; [RingMain]: its main function, with
      the command line and pinThread.
    - [UnidBlock]: the serializer of src/spike/benchmark/serializers/unidserial.cpp and
      concatenate_arrays.cpp.  [FlatBuffers]: the benchmark of flatbuffers.cpp and the generated
      unid_block_generated.h over the class [FlatBufferLib]; [FlatVerify]: the rest of the
      generated code.  [Crc32]: crc32.cpp.
    - [AsyncEcho], [AsyncEchoProps]: the echo server and client with queues of outgoing datagrams
      (src/spike/asio_async_udp and the two files asio_async_udp_client.cpp and _server.cpp, which
      have the same code).  [Shutdown]: their four mains, on [IoContext].  [EchoNet]: the server
      and any number of clients, joined by a network that loses, reorders and duplicates.
    - [Daytime]: the synchronous daytime server and client (asio_udp_server.cpp, asio_udp_client.cpp).
    - [SharedMemory]: the shared memory handoff (src/spike/ipc_shared_memory.hpp and its two programs).
    - [Callbacks], [RawUdp], [Drivers]: the callback classes, the blocking UDP programs, and the
      main functions of the experiments.
    - [Logging]: setup_quill (src/common/src/quill.cpp) and the class Quill_logger
      (src/spike/quill_class.cpp) over the class [Quill].
    - [Conformance]: the cases of src/test, evaluated on the model.

    ** What the theorems show

    libpool and Mempool (C1-C10): each operation does what the abstract pool does, the free list
    stays well formed, distinct chunks never share bytes, what a client wrote is what it reads,
    and a pool gives back all its memory; with the mutex this holds for any number of threads in
    every interleaving of their accesses, and no thread waits for ever; also what a failed
    Mempool::expand does.  (Without the mutex two threads can be given one chunk: [LibpoolRace].)
    Network (C11-C16): the classes refine an abstract server that keeps account of its buffers,
    and what that means for a server and its clients on a bad network.  Udp_client reads its
    member chunk_size_ without having set it, so the theorems on its objects are for storage that
    holds a value there, and say that without one the constructor is undefined; the client
    program as written ends so, or is terminated.  The server program returns and leaks nothing,
    or is terminated when its service or port cannot be used.  Queues (C17-C23): FIFO refinement,
    answer by answer, safety of the lock-free ones in every interleaving and, with the memory
    orders of the source, in every execution of the C++ memory model (where the member size of
    one of them is a data race, and the orders of the other are the weakest that do), termination
    of the benchmark.  Serializer and checksum (C24-C28): byte layout, round trip, agreement with
    the FlatBuffers benchmark, equivalence of the table with the bitwise definition, error
    detection.  Configuration, events and utilities (C29-C32).  Experiments (C33-C39): order,
    termination and liveness of the echo programs, soundness of what clients print over a bad
    network, the shared memory handoff, the daytime server, bounds of the blocking programs.
    Logging (C40).

    ** Fuel and bounds

    The traversals of pool_available and pool_destroy and Mempool's functions over them take fuel;
    the theorems ask for more fuel than there are free chunks, or arrays, and then the result is
    a normal return, so the loops terminate.  On the cyclic list that a
    double free makes every fuel runs out.  The programs with threads run on a schedule; a schedule
    of rounds, each of which gives every thread a turn, is long enough when it has more rounds
    than the measure of the first state (16 for the server programs, 22 for the client program, 6 n + 4 for n values through
    the ring buffer), and shorter ones are covered by the safety parts of the theorems.  The owner of
    a pool's mutex has at most 3 m + 10 steps to its release, m being the largest expansion asked for.
    [digits] has fuel 32, enough for every 64-bit number in base 10 or 16.  All other loops are
    structural, over the elements or up to a bound of the source.

    ** Parameters

    Code outside the repository is a parameter with named laws: the allocator ([AllocatorLaws]),
    toml++ ([TomlLaws]), FlatBuffers ([FlatBufferLaws], [FlatVerifierLaws]), quill ([QuillLaws]),
    asio (the events, the functions [resolve] and [bind_ok], and whether a socket can be
    opened), the results of the pthread and semaphore functions, the clock and [ctime], the file system
    ([exists_]) and the environment ([env]).  In the interleavings of [IpcQueue], [RingBuffer] and
    [RingBench] a load returns the last value stored; [WeakMem] has no such assumption, and there
    a parameter of each load chooses among the values allowed.

    ** What is not modelled

    The LOG statements inside the components (they have no effect on the state modelled there),
    the one call of src/spike/spdlog.cpp, the stubs in src/client/{consensus, database, ipc, unid,
    util} and the empty files of src/server, the empty quic files, the encrypter stubs, the
    times the benchmarks measure, libpool's valgrind annotations, and src/common/src/get_xdg_dir.cpp (it does not compile; the same function is in [Drivers]).
    The rest of what src/ holds in C++ is documentation, declarations and includes. *)

From stdpp Require Export base list gmap strings numbers relations.

(* stdpp's [naive_solver] and [set_solver] clear hypotheses that may be gone. *)
#[export] Set Warnings "-clear-no-such-hyp".

(** ** Machine integers

    Integers of the source are kept as [Z] and every place where the source's
    type wraps or overflows writes the operation out.  [uwrap w] is the
    conversion to an unsigned [w]-bit type, [swrap w] the (two's complement)
    conversion to a signed one. *)

Declare Scope machine_scope.
Delimit Scope machine_scope with machine.

Definition uwrap (w z : Z) : Z := (z `mod` 2 ^ w)%Z.

Definition swrap (w z : Z) : Z :=
  (let u := uwrap w z in if u <? 2 ^ (w - 1) then u else u - 2 ^ w)%Z.

Abbreviation u8 := (uwrap 8).
Abbreviation u16 := (uwrap 16).
Abbreviation u32 := (uwrap 32).
Abbreviation u64 := (uwrap 64).
Abbreviation s8 := (swrap 8).
Abbreviation s16 := (swrap 16).
Abbreviation s32 := (swrap 32).
Abbreviation s64 := (swrap 64).

(** Representable values of an [w]-bit unsigned, or signed, type. *)
Definition in_u (w z : Z) : bool := ((0 <=? z) && (z <? 2 ^ w))%Z.
Definition in_s (w z : Z) : bool :=
  ((- 2 ^ (w - 1) <=? z) && (z <? 2 ^ (w - 1)))%Z.

Definition INT_MAX : Z := 2147483647%Z.

Notation "x ⊕64 y" := (u64 (x + y)%Z) (at level 50, left associativity) : machine_scope.
Notation "x ⊗64 y" := (u64 (x * y)%Z) (at level 40, left associativity) : machine_scope.

(** ** Outcomes of C++ code

    A piece of code, run on a state, returns a value, throws an exception (the
    state up to the throw is kept: a handler or a destructor sees it), has
    undefined behaviour, or is a loop whose fuel was used up before it
    finished.  The reasons are kept as data so that a theorem can say which
    error occurs. *)

Inductive exn : Type :=
| runtime_error (what : string)
| logic_error (what : string)
| invalid_argument (what : string)
| out_of_range (what : string)
| bad_optional_access
| bad_function_call
| bad_array_new_length
| bad_alloc
| system_error (what : string)
| parse_error.

Inductive ub : Type :=
| ub_access (addr : Z)          (* load or store outside every live block *)
| ub_indeterminate (addr : Z)   (* read of a byte that was never written *)
| ub_uninitialised              (* read of an object with no value *)
| ub_free (addr : Z)            (* free of a pointer malloc did not return *)
| ub_null_deref
| ub_signed_overflow
| ub_div_zero
| ub_index (i : Z)              (* subscript outside an array *)
| ub_iterator_invalidated
| ub_data_race (addr : Z).       (* two accesses to an object, unordered, one a write *)

#[global] Instance exn_eq_dec : EqDecision exn.
Proof. solve_decision. Defined.
#[global] Instance ub_eq_dec : EqDecision ub.
Proof. solve_decision. Defined.

Inductive outcome (S A : Type) : Type :=
| Ok (a : A) (s : S)
| Throw (e : exn) (s : S)
| UB (u : ub)
| OutOfFuel.
Arguments Ok {S A} a s.
Arguments Throw {S A} e s.
Arguments UB {S A} u.
Arguments OutOfFuel {S A}.

(** The state-and-outcome monad, through stdpp's [MRet] and [MBind], so that
    programs are written with [x ← c; k] and [c;; k]. *)
Definition M (S A : Type) : Type := S → outcome S A.

#[global] Instance M_ret S : MRet (M S) := λ A a s, Ok a s.
#[global] Instance M_bind S : MBind (M S) := λ A B f m s,
  match m s with
  | Ok a s' => f a s'
  | Throw e s' => Throw e s'
  | UB u => UB u
  | OutOfFuel => OutOfFuel
  end.

Definition throw {S A} (e : exn) : M S A := λ s, Throw e s.
Definition undefined {S A} (u : ub) : M S A := λ s, UB u.
Definition get {S} : M S S := λ s, Ok s s.
Definition put {S} (s' : S) : M S unit := λ _, Ok tt s'.
Definition modify {S} (f : S → S) : M S unit := λ s, Ok tt (f s).

(** [int] arithmetic: overflow and division by zero are undefined. *)
Definition add_int {S} (a b : Z) : M S Z :=
  if in_s 32 (a + b) then mret (a + b)%Z else undefined ub_signed_overflow.

Definition rem_int {S} (a b : Z) : M S Z :=
  if (b =? 0)%Z then undefined ub_div_zero else mret (Z.rem a b).

(** Subscripting an array held as a list. *)
Definition array_get {S A} (l : list A) (i : Z) : M S A :=
  match (if (0 <=? i)%Z then l !! Z.to_nat i else None) with
  | Some x => mret x
  | None => undefined (ub_index i)
  end.

Definition array_set {S A} (l : list A) (i : Z) (x : A) : M S (list A) :=
  if ((0 <=? i) && (i <? Z.of_nat (length l)))%Z then mret (<[Z.to_nat i:=x]> l)
  else undefined (ub_index i).

(** [for (i = 0; i < n; i++) body(i)] with an unsigned index that cannot wrap
    (it stays below [n]). *)
Fixpoint for_from {S} (n : nat) (i : Z) (body : Z → M S unit) : M S unit :=
  match n with
  | O => mret tt
  | Datatypes.S n' => body i;; for_from n' (i + 1)%Z body
  end.

Definition for_below {S} (n : Z) (body : Z → M S unit) : M S unit :=
  for_from (Z.to_nat n) 0 body.

(** ** Weakest preconditions

    [wp m Q s]: run on [s], the program [m] returns normally and [Q] holds of
    the value and the state it returns.  It is total: an exception, undefined
    behaviour and a loop out of fuel all falsify it. *)
Definition wp {S A} (m : M S A) (Q : A → S → Prop) (s : S) : Prop :=
  match m s with
  | Ok a s' => Q a s'
  | _ => False
  end.

Section wp.
Context {S A : Type}.
Implicit Types (m : M S A) (Q : A → S → Prop) (s : S).

Lemma wp_run m Q s : wp m Q s ↔ ∃ a s', m s = Ok a s' ∧ Q a s'.
Proof.
  unfold wp; split.
  - destruct (m s) as [a s'| | |]; naive_solver.
  - by intros (a & s' & -> & HQ).
Qed.

Lemma wp_Ok m Q s a s' : m s = Ok a s' → wp m Q s ↔ Q a s'.
Proof. unfold wp. by intros ->. Qed.

Lemma wp_ret (a : A) Q s : Q a s → wp (mret a) Q s.
Proof. done. Qed.

Lemma wp_bind {B} m (f : A → M S B) (Q : B → S → Prop) s :
  wp m (λ a s', wp (f a) Q s') s → wp (m ≫= f) Q s.
Proof. unfold wp, mbind, M_bind. by destruct (m s). Qed.

Lemma wp_mono m Q Q' s :
  wp m Q s → (∀ a s', Q a s' → Q' a s') → wp m Q' s.
Proof. unfold wp. destruct (m s); naive_solver. Qed.

Lemma bind_run {B} m (f : A → M S B) s :
  (m ≫= f) s = match m s with
               | Ok a s' => f a s'
               | Throw e s' => Throw e s'
               | UB u => UB u
               | OutOfFuel => OutOfFuel
               end.
Proof. done. Qed.

Lemma bind_Ok {B} m (f : A → M S B) s a s' :
  m s = Ok a s' → (m ≫= f) s = f a s'.
Proof. intros H. by rewrite bind_run, H. Qed.

Lemma bind_UB {B} m (f : A → M S B) s u :
  m s = UB u → (m ≫= f) s = UB u.
Proof. intros H. by rewrite bind_run, H. Qed.

Lemma bind_Throw {B} m (f : A → M S B) s e s' :
  m s = Throw e s' → (m ≫= f) s = Throw e s'.
Proof. intros H. by rewrite bind_run, H. Qed.
End wp.

Lemma ret_run {S A} (a : A) (s : S) : (mret a : M S A) s = Ok a s.
Proof. done. Qed.

Lemma wp_put {S} (s s' : S) (Q : unit → S → Prop) : Q tt s' → wp (put s') Q s.
Proof. done. Qed.

Lemma wp_modify {S} (f : S → S) s (Q : unit → S → Prop) : Q tt (f s) → wp (modify f) Q s.
Proof. done. Qed.

Lemma wp_get_bind {S A} (f : S → M S A) s (Q : A → S → Prop) : wp (f s) Q s → wp (get ≫= f) Q s.
Proof. done. Qed.

Lemma get_bind {S A} (f : S → M S A) (s : S) : (get ≫= f) s = f s s.
Proof. done. Qed.

Lemma wp_for_from {S} (I : Z → S → Prop) (body : Z → M S unit) (n : nat) (i : Z) (s : S) :
  I i s →
  (∀ j s', (i ≤ j < i + Z.of_nat n)%Z → I j s' → wp (body j) (λ _ s'', I (j + 1)%Z s'') s') →
  wp (for_from n i body) (λ _ s', I (i + Z.of_nat n)%Z s') s.
Proof.
  revert i s. induction n as [|n IH]; intros i s HI Hstep; cbn [for_from].
  - replace (i + Z.of_nat 0)%Z with i by lia. by apply wp_ret.
  - apply wp_bind. eapply wp_mono; [apply Hstep; [lia|done]|].
    intros [] s' HI'. cbn. eapply wp_mono.
    + apply (IH (i + 1)%Z); [done|]. intros j s'' Hj. apply Hstep. lia.
    + cbn. intros [] s''. by replace (i + 1 + Z.of_nat n)%Z with (i + Z.of_nat (Datatypes.S n))%Z by lia.
Qed.

(** The loop rule for [for_below]: an invariant indexed by the loop counter. *)
Lemma wp_for_below {S} (I : Z → S → Prop) (body : Z → M S unit) (n : Z) (s : S) :
  (0 ≤ n)%Z →
  I 0%Z s →
  (∀ j s', (0 ≤ j < n)%Z → I j s' → wp (body j) (λ _ s'', I (j + 1)%Z s'') s') →
  wp (for_below n body) (λ _ s', I n s') s.
Proof.
  intros Hn HI Hstep. eapply wp_mono.
  - apply (wp_for_from I _ (Z.to_nat n) 0 s HI).
    intros j s' Hj. apply Hstep. lia.
  - cbn. intros [] s'. by replace (0 + Z.of_nat (Z.to_nat n))%Z with n by lia.
Qed.

Lemma add_int_run {S} a b (s : S) : in_s 32 (a + b) = true → add_int a b s = Ok (a + b)%Z s.
Proof. intros H. unfold add_int. by rewrite H. Qed.

Lemma rem_int_run {S} a b (s : S) :
  (0 ≤ a → 0 < b → rem_int a b s = Ok (a `mod` b) s)%Z.
Proof.
  intros Ha Hb. unfold rem_int. rewrite (proj2 (Z.eqb_neq b 0)) by lia.
  by rewrite Z.rem_mod_nonneg by lia.
Qed.

Lemma array_get_run {S A} (l : list A) i x (s : S) :
  (0 ≤ i)%Z → l !! Z.to_nat i = Some x → array_get l i s = Ok x s.
Proof. intros Hi Hx. unfold array_get. rewrite (proj2 (Z.leb_le 0 i)) by lia. by rewrite Hx. Qed.

Lemma array_set_run {S A} (l : list A) i x (s : S) :
  (0 ≤ i < Z.of_nat (length l))%Z → array_set l i x s = Ok (<[Z.to_nat i:=x]> l) s.
Proof.
  intros Hi. unfold array_set.
  by rewrite (proj2 (Z.leb_le 0 i)), (proj2 (Z.ltb_lt i _)) by lia.
Qed.

Lemma in_s_true w z : (- 2 ^ (w - 1) ≤ z < 2 ^ (w - 1))%Z → in_s w z = true.
Proof.
  intros Hz. unfold in_s. by rewrite (proj2 (Z.leb_le _ _)), (proj2 (Z.ltb_lt _ _)) by lia.
Qed.

Lemma wp_add_int {S} a b (Q : Z → S → Prop) s :
  (- 2 ^ 31 ≤ a + b < 2 ^ 31)%Z → Q (a + b)%Z s → wp (add_int a b) Q s.
Proof. intros H HQ. by rewrite (wp_Ok _ _ _ _ _ (add_int_run a b s (in_s_true 32 _ H))). Qed.

Lemma wp_rem_int {S} a b (Q : Z → S → Prop) s :
  (0 ≤ a)%Z → (0 < b)%Z → Q (a `mod` b)%Z s → wp (rem_int a b) Q s.
Proof. intros Ha Hb HQ. by rewrite (wp_Ok _ _ _ _ _ (rem_int_run a b s Ha Hb)). Qed.

Lemma wp_array_get {S A} (l : list A) i x (Q : A → S → Prop) s :
  (0 ≤ i)%Z → l !! Z.to_nat i = Some x → Q x s → wp (array_get l i) Q s.
Proof. intros Hi Hx HQ. by rewrite (wp_Ok _ _ _ _ _ (array_get_run l i x s Hi Hx)). Qed.

Lemma wp_array_set {S A} (l : list A) i x (Q : list A → S → Prop) s :
  (0 ≤ i < Z.of_nat (length l))%Z → Q (<[Z.to_nat i:=x]> l) s → wp (array_set l i x) Q s.
Proof. intros Hi HQ. by rewrite (wp_Ok _ _ _ _ _ (array_set_run l i x s Hi)). Qed.

Lemma Z_eqb_decide (a b : Z) : (a =? b)%Z = bool_decide (a = b).
Proof. case_bool_decide as H; [by apply Z.eqb_eq|by apply Z.eqb_neq]. Qed.

(** ** Lists *)

Lemma delete_insert_list {X} (l : list X) i x : delete i (<[i:=x]> l) = delete i l.
Proof. revert i. induction l as [|y l IH]; intros [|i]; cbn; [done..|]. by rewrite IH. Qed.

Lemma fmap_delete {X Y} (f : X → Y) (l : list X) i : f <$> delete i l = delete i (f <$> l).
Proof. revert i. induction l as [|y l IH]; intros [|i]; cbn; [done..|]. by f_equal. Qed.

(** ** Automation *)

Create HintDb unid discriminated.
#[export] Hint Resolve wp_ret : unid.

(** Run one monadic step whose result an equation of the context gives. *)
Ltac run_step :=
  match goal with
  | H : ?m ?s = Ok _ _ |- context [(?m ≫= ?f) ?s] => rewrite (bind_Ok m f s _ _ H)
  | H : ?m ?s = UB _ |- context [(?m ≫= ?f) ?s] => rewrite (bind_UB m f s _ H)
  | H : ?m ?s = Throw _ _ |- context [(?m ≫= ?f) ?s] => rewrite (bind_Throw m f s _ _ H)
  end; cbn beta iota zeta.

(** Turn boolean comparisons of the code into propositions and finish with
    linear arithmetic. *)
Ltac bool_to_prop :=
  repeat match goal with
  | H : (_ && _)%bool = true |- _ => apply andb_prop in H as [? ?]
  | H : (_ =? _)%Z = true |- _ => apply Z.eqb_eq in H
  | H : (_ =? _)%Z = false |- _ => apply Z.eqb_neq in H
  | H : (_ <? _)%Z = true |- _ => apply Z.ltb_lt in H
  | H : (_ <? _)%Z = false |- _ => apply Z.ltb_ge in H
  | H : (_ <=? _)%Z = true |- _ => apply Z.leb_le in H
  | H : (_ <=? _)%Z = false |- _ => apply Z.leb_gt in H
  end.

Ltac case_if :=
  match goal with
  | |- context [if ?b then _ else _] => destruct b eqn:?; bool_to_prop
  end.

(** ** Shared lemmas on machine integers *)

Section machine.
Local Open Scope Z_scope.

Lemma uwrap_small w z : 0 ≤ z < 2 ^ w → uwrap w z = z.
Proof. intros. unfold uwrap. by apply Z.mod_small. Qed.

Lemma uwrap_range w z : 0 ≤ w → 0 ≤ uwrap w z < 2 ^ w.
Proof. intros. unfold uwrap. apply Z.mod_pos_bound. by apply Z.pow_pos_nonneg. Qed.

Lemma uwrap_idemp w z : 0 ≤ w → uwrap w (uwrap w z) = uwrap w z.
Proof. intros. apply uwrap_small. by apply uwrap_range. Qed.

Lemma pow2_half w : 0 < w → 2 ^ w = 2 * 2 ^ (w - 1).
Proof. intros. rewrite <- Z.pow_succ_r by lia. f_equal. lia. Qed.

Lemma swrap_range w z : 0 < w → - 2 ^ (w - 1) ≤ swrap w z < 2 ^ (w - 1).
Proof.
  intros Hw. pose proof (pow2_half w Hw). pose proof (uwrap_range w z ltac:(lia)).
  unfold swrap. case_if; lia.
Qed.

Lemma swrap_small w z : 0 < w → - 2 ^ (w - 1) ≤ z < 2 ^ (w - 1) → swrap w z = z.
Proof.
  intros Hw Hz. pose proof (pow2_half w Hw) as Hp. unfold swrap, uwrap.
  destruct (Z.le_gt_cases 0 z).
  - rewrite Z.mod_small by lia. case_if; lia.
  - assert (z `mod` 2 ^ w = z + 2 ^ w) as ->.
    { symmetry. apply Z.mod_unique with (-1); lia. }
    case_if; lia.
Qed.

Lemma uwrap_swrap w z : 0 < w → uwrap w (swrap w z) = uwrap w z.
Proof.
  intros Hw. unfold swrap. case_if; [apply uwrap_idemp; lia|].
  unfold uwrap. rewrite <- (Z.mod_add (_ `mod` _ - _) 1) by lia.
  rewrite Z.mul_1_l, Z.sub_add. apply Z.mod_mod. lia.
Qed.
End machine.
#[export] Hint Resolve uwrap_range : unid.
