(* ===== verification/Fair.v ===== *)
(** Termination of programs with several threads under fair schedules.

    A schedule is cut into rounds; a round is fair when every thread that may be needed gets a
    turn in it.  A measure goes down, or nothing the argument depends on changes, at every turn;
    and in every state there is a turn that is sure to bring it down. *)

From S2P Require Import Prelude.

Section fair.
Context {St Turn : Type} (step : Turn → St → St).
Context (done : St → Prop) (Hdone : ∀ s t, done s → done (step t s)).
Context (G : St → Prop) (μ : St → nat) (helpful : St → Turn).

Definition advances (s : St) (t : Turn) (s' : St) : Prop :=
  done s' ∨
  (G s' ∧ ((μ s' < μ s)%nat ∨ (t ≠ helpful s ∧ μ s' = μ s ∧ helpful s' = helpful s))).

Context (Hstep : ∀ s t, G s → advances s t (step t s)).

Definition steps (ts : list Turn) (s : St) : St := foldl (λ s t, step t s) s ts.

Lemma steps_cons t ts s : steps (t :: ts) s = steps ts (step t s).
Proof. done. Qed.

Lemma steps_app ts ts' s : steps (ts ++ ts') s = steps ts' (steps ts s).
Proof. apply foldl_app. Qed.

Lemma steps_done ts s : done s → done (steps ts s).
Proof. revert s. induction ts as [|t ts IH]; intros s Hs; [done|]. apply IH. by apply Hdone. Qed.

(** A round: it ends the program, or brings the measure down, or lacks the helpful turn. *)
Lemma round_decreases ts : ∀ s,
  G s →
  done (steps ts s) ∨
  (G (steps ts s) ∧
   ((μ (steps ts s) < μ s)%nat ∨
    ((helpful s ∉ ts) ∧ μ (steps ts s) = μ s ∧ helpful (steps ts s) = helpful s))).
Proof.
  induction ts as [|t ts IH]; intros s HG.
  - right. split; [done|right]. split_and!; [by apply not_elem_of_nil|done|done].
  - rewrite steps_cons. destruct (Hstep s t HG) as [Hr|(HG' & Hμ)].
    { left. by apply steps_done. }
    destruct (IH _ HG') as [?|(? & Hμ')]; [by left|right]. split; [done|].
    destruct Hμ as [?|(Hne & Heq & Hh)].
    + left. destruct Hμ' as [?|(_ & ? & _)]; lia.
    + destruct Hμ' as [?|(Hn & ? & ?)]; [left; lia|right]. rewrite Hh in *.
      split_and!; [|lia|congruence]. rewrite not_elem_of_cons. split; [congruence|done].
Qed.

(** Enough fair rounds end the program. *)
Lemma rounds_end rounds : ∀ s,
  G s → (μ s < length rounds)%nat →
  Forall (λ ts, ∀ s', G s' → helpful s' ∈ ts) rounds →
  done (steps (concat rounds) s).
Proof.
  induction rounds as [|ts rounds IH]; intros s HG Hμ Hf; [cbn in Hμ; lia|].
  apply Forall_cons in Hf as [Hts Hf]. cbn [concat length] in *. rewrite steps_app.
  destruct (round_decreases ts s HG) as [Hr|(HG' & [?|(Hn & _)])].
  - by apply steps_done.
  - apply IH; [done|lia|done].
  - by destruct (Hn (Hts s HG)).
Qed.
End fair.
