(* ===== verification/WeakMem.v ===== *)
(** The memory model of C++ for the atomics the lock-free queues use: relaxed, acquire and release
    accesses to atomic objects that one thread writes, and plain accesses to other objects.

    An atomic object has the list of all values stored to it, each with the view of the thread at
    the store.  A load may return any value that is not older than what its thread has seen:
    the schedule chooses which.  A view says how far each object has been seen and, for each
    thread, which of its accesses happened before.  A load with acquire order takes over the view
    of a store with release order; nothing else synchronises.  Plain accesses to one object that
    are not ordered by happens-before, one of them a write, are a data race, and undefined.

    A store is added at the end of the list: that is the only place in the modification order for
    an object with one writer. *)

From stdpp Require Export finite functions.
From S2P Require Import Prelude.

Inductive memory_order : Type := relaxed | acquire | release.

Section machine.
Context {T A : Type} `{Finite T, EqDecision A}.

(** [clock V t = n]: the accesses of thread [t] up to its [n]-th epoch happened before; a thread's
    epoch ends with each of its stores. *)
Record view := View { seen : A → nat; clock : T → nat }.

Definition view_join (V W : view) : view :=
  View (λ x, seen V x `max` seen W x) (λ t, clock V t `max` clock W t).

Definition no_view : view := View (λ _, 0%nat) (λ _, 0%nat).

Definition see (x : A) (i : nat) (V : view) : view := View (<[x:=i]> (seen V)) (clock V).
Definition tick (t : T) (V : view) : view := View (seen V) (<[t:=S (clock V t)]> (clock V)).

Record msg := Msg { m_val : Z; m_view : view }.

(** A plain object: its value, if it has one, and the epochs of the last write and read of each
    thread. *)
Record cell := Cell { c_val : option Z; c_writes : T → nat; c_reads : T → nat }.

Record wmem := WMem { hist : A → list msg; cells : Z → cell; views : T → view }.

Definition set_view (t : T) (V : view) (m : wmem) : wmem :=
  WMem (hist m) (cells m) (<[t:=V]> (views m)).

(** *** Atomic accesses *)

(** The message a load reads: the [k]-th, if it is not too old and exists. *)
Definition pick (V : view) (x : A) (h : list msg) (k : nat) : nat :=
  pred (length h) `min` (seen V x `max` k).

Definition load (t : T) (x : A) (o : memory_order) (k : nat) : M wmem Z :=
  m ← get;
  let V := views m t in
  let i := pick V x (hist m x) k in
  match hist m x !! i with
  | Some msg =>
      let V' := see x i V in
      put (set_view t (if o is acquire then view_join V' (m_view msg) else V') m);;
      mret (m_val msg)
  | None => undefined ub_uninitialised
  end.

Definition store (t : T) (x : A) (o : memory_order) (v : Z) : M wmem unit :=
  m ← get;
  let V := see x (length (hist m x)) (views m t) in
  let Vm := if o is release then V else see x (length (hist m x)) no_view in
  put (WMem (<[x:=hist m x ++ [Msg v Vm]]> (hist m)) (cells m) (<[t:=tick t V]> (views m))).

(** *** Plain accesses *)

Definition happened (es V : T → nat) : bool := forallb (λ t, es t <=? V t)%nat (enum T).

Definition plain_read (t : T) (n : Z) : M wmem Z :=
  m ← get;
  let c := cells m n in
  let V := clock (views m t) in
  if negb (happened (c_writes c) V) then undefined (ub_data_race n) else
  match c_val c with
  | Some v =>
      put (WMem (hist m) (<[n:=Cell (c_val c) (c_writes c) (<[t:=V t]> (c_reads c))]> (cells m)) (views m));;
      mret v
  | None => undefined (ub_indeterminate n)
  end.

Definition plain_write (t : T) (n : Z) (v : Z) : M wmem unit :=
  m ← get;
  let c := cells m n in
  let V := clock (views m t) in
  if negb (happened (c_writes c) V && happened (c_reads c) V) then undefined (ub_data_race n) else
  put (WMem (hist m) (<[n:=Cell (Some v) (<[t:=V t]> (c_writes c)) (c_reads c)]> (cells m)) (views m)).

(** The state after the objects were made by a thread that all others were started by: one
    value each, known to all, and every thread in its first epoch. *)
Definition wmem_init (vals : A → Z) (objs : Z → option Z) : wmem :=
  WMem (λ x, [Msg (vals x) no_view]) (λ n, Cell (objs n) (λ _, 0%nat) (λ _, 0%nat))
       (λ t, tick t no_view).

(** ** Rules *)

Lemma happened_true es V : happened es V = true ↔ ∀ t, (es t ≤ V t)%nat.
Proof.
  unfold happened. rewrite forallb_forall. split.
  - intros Hall t. apply Nat.leb_le, Hall, list_elem_of_In, elem_of_enum.
  - intros Hall t _. apply Nat.leb_le, Hall.
Qed.

Lemma pick_range V x (h : list msg) k :
  (seen V x < length h)%nat → (seen V x ≤ pick V x h k < length h)%nat.
Proof. unfold pick. lia. Qed.

(** A load returns one of the messages not older than what its thread has seen. *)
Lemma wp_load t x o k m (Q : Z → wmem → Prop) :
  (seen (views m t) x < length (hist m x))%nat →
  (∀ i mg, (seen (views m t) x ≤ i)%nat → hist m x !! i = Some mg →
     let V' := see x i (views m t) in
     Q (m_val mg) (set_view t (if o is acquire then view_join V' (m_view mg) else V') m)) →
  wp (load t x o k) Q m.
Proof.
  intros Hs HQ. unfold load. apply wp_get_bind. cbn zeta.
  destruct (pick_range _ _ _ k Hs) as [Hlo Hhi].
  destruct (hist m x !! pick (views m t) x (hist m x) k) as [mg|] eqn:Hmg.
  - apply wp_bind, wp_put, wp_ret. by apply HQ.
  - apply lookup_ge_None in Hmg. lia.
Qed.

Lemma wp_store t x o v m (Q : unit → wmem → Prop) :
  (let V := see x (length (hist m x)) (views m t) in
   let Vm := if o is release then V else see x (length (hist m x)) no_view in
   Q tt (WMem (<[x:=hist m x ++ [Msg v Vm]]> (hist m)) (cells m) (<[t:=tick t V]> (views m)))) →
  wp (store t x o v) Q m.
Proof. intros HQ. apply wp_get_bind, wp_put, HQ. Qed.

Lemma wp_plain_read t n v m (Q : Z → wmem → Prop) :
  (∀ u, (c_writes (cells m n) u ≤ clock (views m t) u)%nat) → c_val (cells m n) = Some v →
  Q v (WMem (hist m) (<[n:=Cell (Some v) (c_writes (cells m n))
         (<[t:=clock (views m t) t]> (c_reads (cells m n)))]> (cells m)) (views m)) →
  wp (plain_read t n) Q m.
Proof.
  intros Hw Hv HQ. unfold plain_read. apply wp_get_bind. cbn zeta.
  rewrite (proj2 (happened_true _ _) Hw), Hv. by apply wp_bind, wp_put, wp_ret.
Qed.

Lemma wp_plain_write t n v m (Q : unit → wmem → Prop) :
  (∀ u, (c_writes (cells m n) u ≤ clock (views m t) u)%nat) →
  (∀ u, (c_reads (cells m n) u ≤ clock (views m t) u)%nat) →
  Q tt (WMem (hist m) (<[n:=Cell (Some v) (<[t:=clock (views m t) t]> (c_writes (cells m n)))
         (c_reads (cells m n))]> (cells m)) (views m)) →
  wp (plain_write t n v) Q m.
Proof.
  intros Hw Hr HQ. unfold plain_write. apply wp_get_bind. cbn zeta.
  rewrite (proj2 (happened_true _ _) Hw), (proj2 (happened_true _ _) Hr). by apply wp_put.
Qed.
End machine.

Arguments view : clear implicits.
Arguments msg : clear implicits.
Arguments cell : clear implicits.
Arguments wmem : clear implicits.
