(* ===== verification/Ring.v ===== *)
(** What the circular queues share: the abstract bounded FIFO they implement, and
    the geometry of a ring.

    A queue's life is described by the list [hist] of every value ever put in and
    the number [nr] of values taken out; the queue holds [drop nr hist].  The
    value with number [k] lives in slot [k mod cap]. *)

From S2P Require Import Prelude.
Local Open Scope Z_scope.

(** ** The bounded FIFO *)

Definition fifo_put (cap : nat) (v : Z) (q : list Z) : option (list Z) :=
  if decide (length q < cap)%nat then Some (q ++ [v]) else None.

Definition fifo_take (q : list Z) : option (Z * list Z) :=
  match q with [] => None | v :: q' => Some (v, q') end.

(** The operations of a queue, and what the FIFO answers to a sequence of them:
    [put] tells whether there was room, [take] gives the value taken. *)
Inductive qop : Type := OpPut (v : Z) | OpTake.
Inductive qans : Type := AnsPut (ok : bool) | AnsTake (v : option Z).

Definition fifo_step (cap : nat) (o : qop) (q : list Z) : qans * list Z :=
  match o with
  | OpPut v =>
      match fifo_put cap v q with
      | Some q' => (AnsPut true, q')
      | None => (AnsPut false, q)
      end
  | OpTake =>
      match fifo_take q with
      | Some (v, q') => (AnsTake (Some v), q')
      | None => (AnsTake None, q)
      end
  end.

Fixpoint fifo_run (cap : nat) (os : list qop) (q : list Z) : list qans * list Z :=
  match os with
  | [] => ([], q)
  | o :: os' =>
      let (a, q') := fifo_step cap o q in
      let (l, q'') := fifo_run cap os' q' in (a :: l, q'')
  end.

Definition contents (hist : list Z) (nr : nat) : list Z := drop nr hist.

Lemma length_contents hist nr : length (contents hist nr) = (length hist - nr)%nat.
Proof. apply length_drop. Qed.

Lemma contents_put hist nr v :
  (nr ≤ length hist)%nat → contents (hist ++ [v]) nr = contents hist nr ++ [v].
Proof. intros. unfold contents. by rewrite drop_app_le. Qed.

Lemma contents_take hist nr v :
  hist !! nr = Some v → contents hist nr = v :: contents hist (S nr).
Proof. intros. unfold contents. by erewrite drop_S. Qed.

Lemma contents_nil hist nr : (nr ≤ length hist)%nat → contents hist nr = [] ↔ nr = length hist.
Proof.
  intros. rewrite <- length_zero_iff_nil, length_contents. lia.
Qed.

(** ** Slots *)

Section slots.
Context (cap : Z) (Hcap : 0 < cap).

Definition slot (k : nat) : Z := Z.of_nat k `mod` cap.

Lemma slot_range k : 0 ≤ slot k < cap.
Proof. by apply Z.mod_pos_bound. Qed.

Lemma slot_S k : slot (S k) = (slot k + 1) `mod` cap.
Proof. unfold slot. rewrite Zplus_mod_idemp_l. f_equal. lia. Qed.

(** [idx + 1 == cap ? 0 : idx + 1] is the next slot. *)
Lemma slot_S_branch k : slot (S k) = if slot k + 1 =? cap then 0 else slot k + 1.
Proof.
  rewrite slot_S. pose proof (slot_range k). case_if.
  - rewrite Heqb. by apply Z.mod_same; lia.
  - apply Z.mod_small. lia.
Qed.

Lemma slot_eq k j : slot k = slot j → Z.of_nat (k - j) < cap → (j ≤ k)%nat → k = j.
Proof.
  unfold slot. intros Heq Hlt Hle.
  pose proof (Z.div_mod (Z.of_nat k) cap ltac:(lia)).
  pose proof (Z.div_mod (Z.of_nat j) cap ltac:(lia)).
  assert (Z.of_nat k - Z.of_nat j = cap * (Z.of_nat k `div` cap - Z.of_nat j `div` cap)) by lia.
  assert (Z.of_nat k `div` cap - Z.of_nat j `div` cap = 0) by nia. lia.
Qed.

(** Two numbers less than [cap] apart share a slot only when they are equal. *)
Lemma slot_inj k j : slot k = slot j → Z.abs (Z.of_nat k - Z.of_nat j) < cap → k = j.
Proof.
  intros Heq Hlt. destruct (Nat.le_ge_cases j k).
  - apply slot_eq; [done|lia|done].
  - symmetry. apply slot_eq; [done|lia|done].
Qed.

(** The next slot of the producer meets the consumer exactly when the ring
    holds [cap - 1] values. *)
Lemma slot_meets np nr :
  (nr ≤ np)%nat → Z.of_nat (np - nr) ≤ cap - 1 →
  slot (S np) = slot nr ↔ Z.of_nat (np - nr) = cap - 1.
Proof.
  intros Hle Hbd. split.
  - intros Heq. destruct (Z.eq_dec (Z.of_nat (np - nr)) (cap - 1)) as [|Hne]; [done|].
    apply slot_eq in Heq; lia.
  - intros Heq. unfold slot. replace (Z.of_nat (S np)) with (Z.of_nat nr + 1 * cap) by lia.
    by rewrite Z.mod_add by lia.
Qed.

Lemma slot_same np nr :
  (nr ≤ np)%nat → Z.of_nat (np - nr) ≤ cap - 1 → slot np = slot nr ↔ np = nr.
Proof.
  intros Hle Hbd. split; [|by intros ->]. intros Heq. apply slot_eq in Heq; lia.
Qed.

(** *** The live window *)

(** The values not yet taken are in their slots ([cells] reads one slot). *)
Definition window (cells : Z → option Z) (hist : list Z) (nr : nat) : Prop :=
  ∀ k v, (nr ≤ k)%nat → hist !! k = Some v → cells (slot k) = Some v.

Lemma window_put cells cells' hist nr v :
  window cells hist nr → Z.of_nat (length hist - nr) < cap → (nr ≤ length hist)%nat →
  cells' (slot (length hist)) = Some v →
  (∀ i, 0 ≤ i → i ≠ slot (length hist) → cells' i = cells i) →
  window cells' (hist ++ [v]) nr.
Proof.
  intros Hw Hlt Hle Hv Hother k u Hk [Hu|[-> [= <-]]]%lookup_snoc_Some; [|done].
  destruct Hu as [Hkl Hu]. rewrite Hother; [by apply Hw|apply slot_range|].
  intros Heq. apply slot_inj in Heq; lia.
Qed.

Lemma window_take cells hist nr : window cells hist nr → window cells hist (S nr).
Proof. intros Hw k v Hk. apply Hw. lia. Qed.

(** Writing the next value's slot does not disturb the window. *)
Lemma window_write cells cells' hist nr :
  window cells hist nr → Z.of_nat (length hist - nr) < cap → (nr ≤ length hist)%nat →
  (∀ i, 0 ≤ i → i ≠ slot (length hist) → cells' i = cells i) →
  window cells' hist nr.
Proof.
  intros Hw Hlt Hle Hother k u Hk Hu. pose proof (lookup_lt_Some _ _ _ Hu).
  rewrite Hother; [by apply Hw|apply slot_range|]. intros Heq. apply slot_inj in Heq; lia.
Qed.
End slots.
#[export] Hint Resolve slot_range : unid.

(** ** Running a sequence of operations *)

Section runs.
Context {S A : Type} (step : qop → M S A) (rep : S → list Z → Prop) (cap : nat).

Fixpoint run_ops (os : list qop) : M S (list A) :=
  match os with
  | [] => mret []
  | o :: os' => a ← step o; l ← run_ops os'; mret (a :: l)
  end.

(** [answer]: what the queue says where the FIFO gives an answer. *)
Context (answer : qans → A).
Context (Hstep : ∀ o s q, rep s q →
  wp (step o) (λ a s', a = answer (fifo_step cap o q).1 ∧ rep s' (fifo_step cap o q).2) s).

(** One step at a time is enough. *)
Lemma run_ops_refines os : ∀ s q, rep s q →
  wp (run_ops os) (λ l s', l = answer <$> (fifo_run cap os q).1 ∧ rep s' (fifo_run cap os q).2) s.
Proof.
  induction os as [|o os IH]; intros s q Hr; cbn [run_ops fifo_run].
  - by apply wp_ret.
  - apply wp_bind. eapply wp_mono; [by apply Hstep|].
    intros a s' [-> Hr']. cbn beta. destruct (fifo_step cap o q) as [b q']. cbn [fst snd] in Hr'.
    apply wp_bind. eapply wp_mono; [by apply IH|].
    intros l s'' [-> Hr'']. destruct (fifo_run cap os q') as [l q'']. by apply wp_ret.
Qed.
End runs.

(** A queue whose answers are those of the FIFO. *)
Lemma run_ops_refines_fifo {S} (step : qop → M S qans) (rep : S → list Z → Prop) cap :
  (∀ o s q, rep s q → wp (step o) (λ a s', ∃ q', fifo_step cap o q = (a, q') ∧ rep s' q') s) →
  ∀ os s q, rep s q →
  wp (run_ops step os) (λ l s', ∃ q', fifo_run cap os q = (l, q') ∧ rep s' q') s.
Proof.
  intros Hstep os s q Hr. eapply wp_mono.
  - apply (run_ops_refines step rep cap id); [|exact Hr]. intros o s' q' Hr'.
    eapply wp_mono; [by apply Hstep|]. intros a s'' (q'' & -> & Hr''). done.
  - intros l s' [-> Hr']. exists (fifo_run cap os q).2. rewrite list_fmap_id. by destruct (fifo_run cap os q).
Qed.

Lemma fifo_put_room cap v q : (length q < cap)%nat → fifo_put cap v q = Some (q ++ [v]).
Proof. intros. unfold fifo_put. by rewrite decide_True. Qed.

Lemma fifo_put_full cap v q : (cap ≤ length q)%nat → fifo_put cap v q = None.
Proof. intros. unfold fifo_put. by rewrite decide_False by lia. Qed.

Lemma prefix_snoc_lookup (l k : list Z) v :
  l `prefix_of` k → k !! length l = Some v → l ++ [v] `prefix_of` k.
Proof.
  intros [k' ->] Hv. rewrite lookup_app_r, Nat.sub_diag in Hv by lia.
  destruct k' as [|u k']; [done|]. injection Hv as ->. exists k'. by rewrite <- app_assoc.
Qed.
