(* ===== verification/CircularQueue.v ===== *)
(** class Circular_queue of src/spike/circular_queue.cpp: a circular queue with a
    size counter, so that all [capacity] slots are usable.

    The fields are [std::int32_t]; the elements are [std::uint64_t], and a slot
    that was never written has no value.  [dequeue] drops the front element without
    returning it. *)

From S2P Require Import Prelude Ring.
Local Open Scope Z_scope.

Record t := Mk {
  front : Z;
  rear : Z;
  capacity : Z;
  size : Z;
  arr : list (option Z)
}.

(** The constructor: [k] is converted from [std::uint32_t] to [std::int32_t];
    [new] refuses a negative length ([mem_ok]: the allocation succeeds). *)
Definition ctor (mem_ok : bool) (k : Z) : M unit t :=
  let capacity := s32 k in
  if capacity <? 0 then throw bad_array_new_length
  else if negb mem_ok then throw bad_alloc
  else mret (Mk 0 (-1) capacity 0 (replicate (Z.to_nat capacity) None)).

Definition is_empty (q : t) : bool := size q =? 0.
Definition is_full (q : t) : bool := size q =? capacity q.

Definition enqueue (value : Z) : M t bool :=
  q ← get;
  if is_full q then mret false else
  r1 ← add_int (rear q) 1;
  rear' ← rem_int r1 (capacity q);
  arr' ← array_set (arr q) rear' (Some value);
  size' ← add_int (size q) 1;
  put (Mk (front q) rear' (capacity q) size' arr');;
  mret true.

Definition dequeue : M t bool :=
  q ← get;
  if is_empty q then mret false else
  f1 ← add_int (front q) 1;
  front' ← rem_int f1 (capacity q);
  size' ← add_int (size q) (-1);
  put (Mk front' (rear q) (capacity q) size' (arr q));;
  mret true.

(** What [report] prints of the state. *)
Definition report (q : t) : Z * Z * bool * bool :=
  (capacity q, size q, is_empty q, is_full q).

(** A client's operations, each with the bool it returns. *)
Definition step (o : qop) : M t bool :=
  match o with
  | OpPut v => enqueue v
  | OpTake => dequeue
  end.

(** The bool for an answer of the FIFO: there was room, or there was a value to drop. *)
Definition succeeded (a : qans) : bool :=
  match a with
  | AnsPut ok => ok
  | AnsTake v => bool_decide (is_Some v)
  end.

Definition cells (q : t) (i : Z) : option Z := mjoin (arr q !! Z.to_nat i).

(** The queue stands for the values put in and not yet taken. *)
Record rep_at (q : t) (cap : Z) (hist : list Z) (nr : nat) : Prop := {
  cq_cap : capacity q = cap ∧ 0 < cap < 2 ^ 31;
  cq_len : Z.of_nat (length (arr q)) = cap;
  cq_count : (nr ≤ length hist)%nat ∧ Z.of_nat (length hist - nr) ≤ cap;
  cq_size : size q = Z.of_nat (length hist - nr);
  cq_front : front q = slot cap nr;
  cq_rear : 0 ≤ rear q + 1 ≤ cap ∧ (rear q + 1) `mod` cap = slot cap (length hist);
  cq_window : window cap (cells q) hist nr
}.

Definition rep (cap : Z) (q : t) (l : list Z) : Prop :=
  ∃ hist nr, rep_at q cap hist nr ∧ l = contents hist nr.

(** ** The operations refine the FIFO *)

Lemma cq_enqueue_room q cap hist nr v :
  rep_at q cap hist nr → Z.of_nat (length hist - nr) < cap →
  wp (enqueue v) (λ ok q', ok = true ∧ rep_at q' cap (hist ++ [v]) nr) q.
Proof.
  intros Hr Hroom. pose proof Hr as [[Hc Hcap] Hlen [Hle Hct] Hsize Hfront [Hr1 Hrear] Hw].
  pose proof (slot_range cap ltac:(lia) (length hist)) as Hsl.
  unfold enqueue. apply wp_bind, wp_ret. unfold is_full.
  rewrite (proj2 (Z.eqb_neq _ _)) by lia.
  apply wp_bind, wp_add_int; [lia|]. apply wp_bind, wp_rem_int; [lia|lia|]. rewrite Hc, Hrear.
  apply wp_bind, wp_array_set; [lia|]. apply wp_bind, wp_add_int; [lia|].
  apply wp_bind, wp_ret, wp_ret. split; [done|].
  split; cbn [front rear capacity size arr]; rewrite ?length_app, ?length_insert; cbn [length];
    try (done || lia).
  - split; [lia|]. rewrite <- slot_S by lia. f_equal. lia.
  - apply (window_put cap ltac:(lia) (cells q)); try done; unfold cells; cbn [arr].
    + by rewrite list_lookup_insert_eq by lia.
    + intros i Hi Hne. by rewrite list_lookup_insert_ne by lia.
Qed.

Lemma cq_enqueue_full q cap hist nr v :
  rep_at q cap hist nr → Z.of_nat (length hist - nr) = cap → enqueue v q = Ok false q.
Proof.
  intros [[Hc Hcap] Hlen Hct Hsize _ _ _] Hfull. unfold enqueue, is_full.
  rewrite get_bind. by rewrite (proj2 (Z.eqb_eq _ _)) by lia.
Qed.

Lemma cq_dequeue_some q cap hist nr :
  rep_at q cap hist nr → (nr < length hist)%nat →
  wp dequeue (λ ok q', ok = true ∧ rep_at q' cap hist (S nr)) q.
Proof.
  intros Hr Hlt. pose proof Hr as [[Hc Hcap] Hlen [Hle Hct] Hsize Hfront Hrear Hw].
  pose proof (slot_range cap ltac:(lia) nr) as Hsl.
  unfold dequeue. apply wp_bind, wp_ret. unfold is_empty.
  rewrite (proj2 (Z.eqb_neq _ _)) by lia.
  apply wp_bind, wp_add_int; [lia|]. apply wp_bind, wp_rem_int; [lia|lia|].
  apply wp_bind, wp_add_int; [lia|]. apply wp_bind, wp_ret, wp_ret. split; [done|].
  split; cbn [front rear capacity size arr]; try (done || lia).
  - rewrite Hfront, Hc. symmetry. by apply slot_S; lia.
  - intros k u Hk. apply Hw. lia.
Qed.

Lemma cq_dequeue_none q cap hist :
  rep_at q cap hist (length hist) → is_empty q = true ∧ dequeue q = Ok false q.
Proof.
  intros [_ _ _ Hsize _ _ _]. assert (is_empty q = true) as He.
  { apply Z.eqb_eq. lia. }
  split; [done|]. unfold dequeue. by rewrite get_bind, He.
Qed.

(** The values the queue stands for are in the array, from the front on. *)
Lemma cq_stored cap q l j v :
  rep cap q l → l !! j = Some v →
  arr q !! Z.to_nat ((front q + Z.of_nat j) `mod` cap) = Some (Some v).
Proof.
  intros (hist & nr & [[Hc Hcap] _ _ _ Hfront _ Hw] & ->) Hj.
  unfold contents in Hj. rewrite lookup_drop in Hj.
  specialize (Hw (nr + j)%nat v ltac:(lia) Hj). unfold cells, slot in Hw.
  rewrite Hfront. unfold slot. rewrite Zplus_mod_idemp_l, <- Nat2Z.inj_add.
  destruct (arr q !! Z.to_nat (Z.of_nat (nr + j) `mod` cap)) as [[u|]|]; naive_solver.
Qed.

Lemma cq_step_refines cap o q l :
  rep cap q l →
  wp (step o) (λ a q', a = succeeded (fifo_step (Z.to_nat cap) o l).1 ∧
                       rep cap q' (fifo_step (Z.to_nat cap) o l).2) q.
Proof.
  intros (hist & nr & Hr & ->). pose proof Hr as [[Hc Hcap] _ [Hle Hct] _ _ _ _].
  destruct o as [v|]; cbn [step fifo_step].
  - destruct (decide (Z.of_nat (length hist - nr) < cap)) as [Hroom|Hfull].
    + eapply wp_mono; [by apply (cq_enqueue_room q cap hist nr v)|]. intros ok q' [-> Hr'].
      rewrite fifo_put_room by (rewrite length_contents; lia).
      split; [done|]. exists (hist ++ [v]), nr. by rewrite contents_put.
    + apply (wp_Ok _ _ _ _ _ (cq_enqueue_full q cap hist nr v Hr ltac:(lia))).
      rewrite fifo_put_full by (rewrite length_contents; lia). split; [done|]. by exists hist, nr.
  - destruct (hist !! nr) as [v|] eqn:Hv.
    + rewrite (contents_take _ _ _ Hv). cbn [fifo_take].
      eapply wp_mono; [apply (cq_dequeue_some q cap hist nr Hr); by eapply lookup_lt_Some|].
      intros ok q' [-> Hr']. split; [done|]. by exists hist, (S nr).
    + apply lookup_ge_None in Hv. assert (nr = length hist) as -> by lia.
      destruct (cq_dequeue_none q cap hist Hr) as [_ Hd].
      rewrite (proj2 (contents_nil hist (length hist) ltac:(lia)) eq_refl). cbn [fifo_take].
      apply (wp_Ok _ _ _ _ _ Hd). split; [done|].
      exists hist, (length hist). split; [done|]. symmetry. by apply contents_nil.
Qed.

Lemma cq_ctor_rep k q :
  0 < k < 2 ^ 31 → ctor true k tt = Ok q tt → rep k q [].
Proof.
  intros Hk. unfold ctor. rewrite swrap_small by lia.
  rewrite (proj2 (Z.ltb_ge k 0)) by lia. cbn [negb]. intros [= <-].
  exists [], 0%nat. split; [|done].
  split; cbn [front rear capacity size arr length]; try (done || lia).
  - rewrite length_replicate. lia.
  - split; [lia|done].
Qed.

(** C23: a queue constructed with any capacity from 1 to 2^31 - 1 behaves, on every
    sequence of operations, like the FIFO that holds up to [k] values: [enqueue]
    returns true when there is room and false when it is full, [dequeue] returns true
    when there is a value to drop and false when there is none, after every sequence
    the array holds from the front on the values put in and not yet dropped, oldest
    first, size is their number, is_empty and is_full say whether there are none or
    [k], and no access leaves the array and no [int] computation overflows. *)
Theorem circular_queue_refines_fifo k os :
  0 < k < 2 ^ 31 →
  ∃ q, ctor true k tt = Ok q tt ∧
    wp (run_ops step os) (λ l q', ∃ ans c, fifo_run (Z.to_nat k) os [] = (ans, c) ∧
      l = succeeded <$> ans ∧
      (∀ j v, c !! j = Some v → arr q' !! Z.to_nat ((front q' + Z.of_nat j) `mod` k) = Some (Some v)) ∧
      size q' = Z.of_nat (length c) ∧ is_empty q' = bool_decide (c = []) ∧
      is_full q' = (Z.of_nat (length c) =? k)) q.
Proof.
  intros Hk. assert (∃ q, ctor true k tt = Ok q tt) as [q Hq].
  { unfold ctor. rewrite swrap_small by lia. rewrite (proj2 (Z.ltb_ge k 0)) by lia.
    by eexists. }
  exists q. split; [done|]. eapply wp_mono.
  - apply (run_ops_refines step (rep k) (Z.to_nat k) succeeded (cq_step_refines k) os q []).
    by apply cq_ctor_rep.
  - intros l q' [-> Hr]. destruct (fifo_run (Z.to_nat k) os []) as [ans c]. cbn [fst snd] in *.
    exists ans, c. split; [done|]. split; [done|]. split; [intros j v; by apply cq_stored|].
    destruct Hr as (hist & nr & [[Hc _] _ [Hle _] Hsize _ _ _] & ->).
    rewrite length_contents. unfold is_empty, is_full. rewrite Hc, Hsize. split_and!; [done| |done].
    rewrite Z_eqb_decide. apply bool_decide_ext. rewrite contents_nil by done. lia.
Qed.

Lemma circular_queue_refines_fifo_witness :
  ∃ q, ctor true 2 tt = Ok q tt ∧
    wp (run_ops step [OpPut 7; OpPut 8; OpPut 9; OpTake; OpPut 5; OpTake; OpTake; OpTake])
       (λ l _, l = [true; true; false; true; true; true; true; false]) q.
Proof.
  destruct (circular_queue_refines_fifo 2
    [OpPut 7; OpPut 8; OpPut 9; OpTake; OpPut 5; OpTake; OpTake; OpTake]) as (q & Hq & Hwp);
    [lia|].
  exists q. split; [exact Hq|]. eapply wp_mono; [exact Hwp|].
  intros l q' (ans & c & Hrun & -> & _). vm_compute in Hrun. injection Hrun as <- <-. reflexivity.
Defined.
