(* ===== verification/IpcQueue.v ===== *)
(** class Circular_queue of src/spike/ipc_circular_queue.hpp and
    src/spike/ipc_circular_queue.cpp: the single-producer single-consumer queue for
    shared memory.

    First the member functions run one at a time, then the two threads interleaved:
    each thread advances by one access to the shared members at a time ([sched_step]).
    Here a load of [front] or [rear] returns the last value stored; [IpcWeak] has the
    same threads on the C++ memory model.  [size] is a plain member, and [size++] is a
    read followed by a write. *)

From S2P Require Import Prelude Ring.
Local Open Scope Z_scope.

(** [queue]: a slot without a value has never been written completely. *)
Record t := Mk {
  queue : list (option Z);
  front : Z;
  rear : Z;
  capacity : Z;
  size : Z
}.

(** The constructor.  [memset(queue, 0, capacity)] clears [capacity] bytes, that is
    the first [capacity / 8] elements. *)
Definition ctor (mem_ok : bool) (cap : Z) : M unit t :=
  if cap =? 0 then throw (invalid_argument "Circular_queue: Capacity must be > 0")
  else if negb mem_ok then throw bad_alloc
  else
    let cleared := Z.to_nat (cap `div` 8) in
    mret (Mk (replicate cleared (Some 0) ++ replicate (Z.to_nat cap - cleared) None)
             0 0 cap 0).

(** [(index + 1) % capacity] in [std::uint32_t]. *)
Definition increment (index : Z) : M t Z :=
  q ← get;
  if capacity q =? 0 then undefined ub_div_zero else mret (u32 (index + 1) `mod` capacity q).

Definition overflow_error : exn := logic_error "enqueue(): Queue overflow".

Definition enqueue (unid : Z) : M t bool :=
  q ← get;
  let current_rear := rear q in
  next_rear ← increment current_rear;
  if negb (next_rear =? front q) then
    queue' ← array_set (queue q) current_rear (Some unid);
    put (Mk queue' (front q) next_rear (capacity q) (u32 (size q + 1)));;
    mret true
  else throw overflow_error.

(** Read an element: undefined when it has no value. *)
Definition read_slot (l : list (option Z)) (i : Z) : M t Z :=
  x ← array_get l i;
  match x with
  | Some v => mret v
  | None => undefined (ub_indeterminate i)
  end.

(** [dequeue(unid)]: the value written to [unid], or [None] for the result false. *)
Definition dequeue : M t (option Z) :=
  q ← get;
  let current_front := front q in
  if current_front =? rear q then mret None else
  unid ← read_slot (queue q) current_front;
  next_front ← increment current_front;
  put (Mk (queue q) next_front (rear q) (capacity q) (u32 (size q - 1)));;
  mret (Some unid).

Definition was_empty (q : t) : bool := front q =? rear q.

Definition was_full : M t bool :=
  q ← get; next_rear ← increment (rear q); mret (next_rear =? front q).

(** The mark after an element in the listing of print_queue_state. *)
Inductive mark : Type := FrontRear | Front | Rear | NoMark.

Definition mark_of (q : t) (i : Z) : mark :=
  if (i =? front q) && (i =? rear q) then FrontRear
  else if i =? front q then Front
  else if i =? rear q then Rear
  else NoMark.

(** The lines [value[i]: ...] printed for the elements from [i] on. *)
Fixpoint print_values (n : nat) (i : Z) : M t (list (Z * mark)) :=
  match n with
  | O => mret []
  | S n' =>
      q ← get;
      v ← read_slot (queue q) i;
      rest ← print_values n' (i + 1);
      mret ((v, mark_of q i) :: rest)
  end.

Definition print_queue_state : M t (list Z * list (Z * mark)) :=
  q ← get;
  lines ← print_values (Z.to_nat (capacity q)) 0;
  mret ([front q; rear q; capacity q; size q], lines).

(** What a call came to: the bool that [enqueue] returned, the result of [dequeue], or the
    exception that left the call. *)
Inductive answer : Type :=
| Enqueued (ok : bool)
| Dequeued (v : option Z)
| Threw (e : exn).

(** A client's operations; the client goes on after an exception. *)
Definition step (o : qop) : M t answer := λ q,
  match (match o with
         | OpPut v => ok ← enqueue v; mret (Enqueued ok)
         | OpTake => v ← dequeue; mret (Dequeued v)
         end) q with
  | Throw e q' => Ok (Threw e) q'
  | r => r
  end.

(** The answers of the FIFO, as this class gives them. *)
Definition fifo_answer (a : qans) : answer :=
  match a with
  | AnsPut true => Enqueued true
  | AnsPut false => Threw overflow_error
  | AnsTake v => Dequeued v
  end.

(** ** The interleaved threads *)

(** Where a thread is: the local values it has computed, between two accesses to
    the shared members. *)
Inductive ppc : Type :=
| PIdle
| PRear (v w : Z)          (* rear loaded: w *)
| PWrite (v w : Z)         (* front loaded, the queue is not full *)
| PPublish (v w : Z)       (* queue[w] written *)
| PSize                    (* rear stored; size++ to do *)
| PSizeRead (s : Z).       (* size read: s *)

Inductive cpc : Type :=
| CIdle
| CFront (f : Z)           (* front loaded: f *)
| CRead (f : Z)            (* rear loaded, the queue is not empty *)
| CRelease (f v : Z)       (* queue[f] read: v *)
| CSize (v : Z)
| CSizeRead (v s : Z).

Record cstate := CState {
  sh : t;
  prod : ppc;
  cons : cpc;
  sent : list Z;           (* every value published *)
  recd : list Z            (* every value the consumer has released *)
}.

Inductive label : Type := Producer (v : Z) | Consumer.

Definition next_index (q : t) (i : Z) : Z := u32 (i + 1) `mod` capacity q.

Definition set_queue (q : t) l := Mk l (front q) (rear q) (capacity q) (size q).
Definition set_front (q : t) f := Mk (queue q) f (rear q) (capacity q) (size q).
Definition set_rear (q : t) r := Mk (queue q) (front q) r (capacity q) (size q).
Definition set_size (q : t) s := Mk (queue q) (front q) (rear q) (capacity q) s.

(** One access of the producer's [enqueue(v)]; [None] when it is undefined. *)
Definition producer_step (v : Z) (s : cstate) : option cstate :=
  let q := sh s in
  let go p q' hist := Some (CState q' p (cons s) hist (recd s)) in
  match prod s with
  | PIdle => go (PRear v (rear q)) q (sent s)
  | PRear v w =>
      if capacity q =? 0 then None else
      if next_index q w =? front q then go PIdle q (sent s)        (* throws *)
      else go (PWrite v w) q (sent s)
  | PWrite v w =>
      if (0 <=? w) && (w <? Z.of_nat (length (queue q)))
      then go (PPublish v w) (set_queue q (<[Z.to_nat w:=Some v]> (queue q))) (sent s)
      else None
  | PPublish v w => go PSize (set_rear q (next_index q w)) (sent s ++ [v])
  | PSize => go (PSizeRead (size q)) q (sent s)
  | PSizeRead z => go PIdle (set_size q (u32 (z + 1))) (sent s)
  end.

Definition consumer_step (s : cstate) : option cstate :=
  let q := sh s in
  let go c q' out := Some (CState q' (prod s) c (sent s) out) in
  match cons s with
  | CIdle => go (CFront (front q)) q (recd s)
  | CFront f =>
      if f =? rear q then go CIdle q (recd s)                      (* returns false *)
      else go (CRead f) q (recd s)
  | CRead f =>
      match mjoin (queue q !! Z.to_nat f) with
      | Some v => go (CRelease f v) q (recd s)
      | None => None
      end
  | CRelease f v =>
      if capacity q =? 0 then None
      else go (CSize v) (set_front q (next_index q f)) (recd s ++ [v])
  | CSize v => go (CSizeRead v (size q)) q (recd s)
  | CSizeRead v z => go CIdle (set_size q (u32 (z - 1))) (recd s)
  end.

Definition sched_step (l : label) (s : cstate) : option cstate :=
  match l with
  | Producer v => producer_step v s
  | Consumer => consumer_step s
  end.

Definition cstep (s s' : cstate) : Prop := ∃ l, sched_step l s = Some s'.

Definition start (q : t) : cstate := CState q PIdle CIdle [] [].

Fixpoint sched_run (ls : list label) (s : cstate) : option cstate :=
  match ls with
  | [] => Some s
  | l :: ls' => s' ← sched_step l s; sched_run ls' s'
  end.
