(* ===== verification/IpcQueueProps.v ===== *)
(** Properties of the shared-memory queue: one call at a time it is a FIFO of
    [capacity - 1] values; with the two threads interleaved it still is, but its
    [size] member is not the number of values it holds. *)

From S2P Require Import Prelude Ring IpcQueue.
Local Open Scope Z_scope.

Definition cells (q : t) (i : Z) : option Z := mjoin (queue q !! Z.to_nat i).

Record ring_rep (q : t) (cap : Z) (hist : list Z) (nr : nat) : Prop := {
  rr_cap : capacity q = cap ∧ 0 < cap < 2 ^ 32;
  rr_len : Z.of_nat (length (queue q)) = cap;
  rr_count : (nr ≤ length hist)%nat ∧ Z.of_nat (length hist - nr) ≤ cap - 1;
  rr_front : front q = slot cap nr;
  rr_rear : rear q = slot cap (length hist);
  rr_window : window cap (cells q) hist nr
}.

Lemma next_slot cap k : 0 < cap < 2 ^ 32 → u32 (slot cap k + 1) `mod` cap = slot cap (S k).
Proof.
  intros Hcap. pose proof (slot_range cap ltac:(lia) k).
  rewrite uwrap_small by lia. symmetry. apply slot_S.
Qed.

(** ** Effects on the ring, shared by the sequential and the concurrent proofs *)

Section ring.
Context (q : t) (cap : Z) (hist : list Z) (nr : nat) (Hr : ring_rep q cap hist nr).

Lemma rr_bounds : 0 < cap < 2 ^ 32 ∧ 0 ≤ rear q < Z.of_nat (length (queue q)) ∧ 0 ≤ front q.
Proof.
  destruct Hr as [[_ Hcap] Hlen _ Hf Hre _]. rewrite Hlen, Hf, Hre.
  pose proof (slot_range cap ltac:(lia) nr).
  pose proof (slot_range cap ltac:(lia) (length hist)). lia.
Qed.

Lemma rr_next_rear : next_index q (rear q) = slot cap (S (length hist)).
Proof. unfold next_index. destruct Hr as [[-> Hcap] _ _ _ -> _]. by apply next_slot. Qed.

Lemma rr_next_front : next_index q (front q) = slot cap (S nr).
Proof. unfold next_index. destruct Hr as [[-> Hcap] _ _ -> _ _]. by apply next_slot. Qed.

Lemma rr_full : next_index q (rear q) = front q ↔ Z.of_nat (length hist - nr) = cap - 1.
Proof.
  rewrite rr_next_rear, (rr_front _ _ _ _ Hr).
  destruct Hr as [[_ Hcap] _ [? ?] _ _ _]. apply slot_meets; lia.
Qed.

Lemma rr_empty : front q = rear q ↔ nr = length hist.
Proof.
  rewrite (rr_front _ _ _ _ Hr), (rr_rear _ _ _ _ Hr).
  destruct Hr as [[_ Hcap] _ [? ?] _ _ _].
  split; [|by intros ->]. intros Heq. symmetry in Heq. apply slot_same in Heq; lia.
Qed.

Lemma rr_cells_write v i :
  0 ≤ i → cells (set_queue q (<[Z.to_nat (rear q):=Some v]> (queue q))) i =
          if decide (i = rear q) then Some v else cells q i.
Proof.
  intros Hi. destruct rr_bounds as (_ & ? & _). unfold cells. cbn [queue set_queue].
  case_decide; subst.
  - by rewrite list_lookup_insert_eq by lia.
  - by rewrite list_lookup_insert_ne by lia.
Qed.

(** Writing the rear slot before publishing it. *)
Lemma rr_write v :
  ring_rep (set_queue q (<[Z.to_nat (rear q):=Some v]> (queue q))) cap hist nr.
Proof.
  destruct Hr as [Hc Hlen Hct Hf Hre Hw].
  split; cbn [capacity queue front rear set_queue]; try done; [by rewrite length_insert|].
  apply (window_write cap ltac:(lia) (cells q)); [done|lia|lia|].
  intros i Hi Hne. rewrite rr_cells_write by done. by rewrite decide_False by congruence.
Qed.

(** Publishing a slot that holds [v]. *)
Lemma rr_publish v :
  cells q (rear q) = Some v → Z.of_nat (length hist - nr) < cap - 1 →
  ring_rep (set_rear q (slot cap (S (length hist)))) cap (hist ++ [v]) nr.
Proof.
  intros Hv Hroom. destruct Hr as [Hc Hlen Hct Hf Hre Hw].
  split; cbn [capacity queue front rear set_rear]; rewrite ?length_app; cbn [length];
    try (done || lia).
  - f_equal. lia.
  - apply (window_put cap ltac:(lia) (cells q)); [done|lia|lia| |done]. by rewrite <- Hre.
Qed.

Lemma rr_front_value v : hist !! nr = Some v → queue q !! Z.to_nat (front q) = Some (Some v).
Proof.
  intros Hv. pose proof (rr_window _ _ _ _ Hr nr v ltac:(lia) Hv) as Hw.
  rewrite <- (rr_front _ _ _ _ Hr) in Hw. unfold cells in Hw.
  destruct (queue q !! Z.to_nat (front q)) as [[u|]|]; naive_solver.
Qed.

Lemma rr_release :
  (nr < length hist)%nat → ring_rep (set_front q (slot cap (S nr))) cap hist (S nr).
Proof.
  intros Hlt. destruct Hr as [Hc Hlen Hct Hf Hre Hw].
  split; cbn [capacity queue front rear set_front]; try (done || lia).
  by apply window_take.
Qed.

Lemma rr_set_size z : ring_rep (set_size q z) cap hist nr.
Proof. by destruct Hr. Qed.
End ring.

Lemma new_ring cap q :
  0 < cap < 2 ^ 32 → ctor true cap tt = Ok q tt → ring_rep q cap [] 0 ∧ size q = 0.
Proof.
  intros Hcap. unfold ctor. rewrite (proj2 (Z.eqb_neq cap 0)) by lia. cbn [negb].
  intros [= <-]. split; [|done].
  assert (cap `div` 8 ≤ cap) by (apply Z.div_le_upper_bound; lia).
  split; cbn [capacity queue front rear length]; try (done || lia).
  rewrite length_app, !length_replicate. lia.
Qed.

(** ** One call at a time *)

Definition seq_rep (cap : Z) (q : t) (l : list Z) : Prop :=
  ∃ hist nr, ring_rep q cap hist nr ∧ l = contents hist nr ∧
             size q = Z.of_nat (length hist - nr).

Lemma increment_run q i :
  0 < capacity q → increment i q = Ok (next_index q i) q.
Proof.
  intros Hc. unfold increment. rewrite get_bind. by rewrite (proj2 (Z.eqb_neq _ 0)) by lia.
Qed.

Lemma ipc_enqueue_room q cap hist nr v :
  ring_rep q cap hist nr → Z.of_nat (length hist - nr) < cap - 1 →
  size q = Z.of_nat (length hist - nr) →
  ∃ q', enqueue v q = Ok true q' ∧ ring_rep q' cap (hist ++ [v]) nr ∧
        size q' = Z.of_nat (length hist - nr) + 1.
Proof.
  intros Hr Hroom Hsize. destruct (rr_bounds _ _ _ _ Hr) as (Hcap & Hre & _).
  pose proof (rr_cap _ _ _ _ Hr) as [Hc _]. pose proof (rr_full _ _ _ _ Hr) as Hfull.
  pose proof (rr_write q cap hist nr Hr v) as Hr1.
  unfold enqueue. rewrite get_bind, (bind_Ok _ _ _ _ _ (increment_run q (rear q) ltac:(lia))).
  rewrite (proj2 (Z.eqb_neq _ _)) by (rewrite Hfull; lia). cbn [negb].
  rewrite (bind_Ok _ _ _ _ _ (array_set_run (queue q) (rear q) (Some v) q Hre)).
  eexists. split; [reflexivity|].
  rewrite (rr_next_rear _ _ _ _ Hr), uwrap_small by lia. split; [|cbn; lia].
  apply (rr_set_size (set_rear (set_queue q _) _)).
  apply (rr_publish _ cap hist nr Hr1); [|done].
  by rewrite (rr_cells_write _ _ _ _ Hr), decide_True by (cbn; done || lia).
Qed.

Lemma ipc_enqueue_full q cap hist nr v :
  ring_rep q cap hist nr → Z.of_nat (length hist - nr) = cap - 1 →
  enqueue v q = Throw overflow_error q.
Proof.
  intros Hr Hfull. destruct (rr_bounds _ _ _ _ Hr) as (Hcap & _).
  pose proof (rr_cap _ _ _ _ Hr) as [Hc _].
  unfold enqueue. rewrite get_bind, (bind_Ok _ _ _ _ _ (increment_run q (rear q) ltac:(lia))).
  by rewrite (proj2 (Z.eqb_eq _ _) (proj2 (rr_full _ _ _ _ Hr) Hfull)).
Qed.

Lemma ipc_dequeue_some q cap hist nr v :
  ring_rep q cap hist nr → hist !! nr = Some v → size q = Z.of_nat (length hist - nr) →
  ∃ q', dequeue q = Ok (Some v) q' ∧ ring_rep q' cap hist (S nr) ∧
        size q' = Z.of_nat (length hist - S nr).
Proof.
  intros Hr Hv Hsize. destruct (rr_bounds _ _ _ _ Hr) as (Hcap & Hre & Hfr).
  pose proof (rr_cap _ _ _ _ Hr) as [Hc _]. pose proof (rr_count _ _ _ _ Hr).
  pose proof (lookup_lt_Some _ _ _ Hv) as Hlt.
  unfold dequeue. rewrite get_bind.
  rewrite (proj2 (Z.eqb_neq _ _)) by (rewrite (rr_empty _ _ _ _ Hr); lia).
  assert (read_slot (queue q) (front q) q = Ok v q) as Hread.
  { unfold read_slot.
    by rewrite (bind_Ok _ _ _ _ _ (array_get_run _ _ _ q Hfr (rr_front_value _ _ _ _ Hr v Hv))). }
  rewrite (bind_Ok _ _ _ _ _ Hread), (bind_Ok _ _ _ _ _ (increment_run q (front q) ltac:(lia))).
  eexists. split; [reflexivity|]. rewrite (rr_next_front _ _ _ _ Hr), uwrap_small by lia.
  split; [|cbn; lia]. by apply (rr_set_size (set_front q _)), rr_release.
Qed.

Lemma ipc_dequeue_none q cap hist :
  ring_rep q cap hist (length hist) → dequeue q = Ok None q.
Proof.
  intros Hr. unfold dequeue. rewrite get_bind.
  by rewrite (proj2 (Z.eqb_eq _ _) (proj2 (rr_empty _ _ _ _ Hr) eq_refl)).
Qed.

Lemma ipc_step_refines cap o q l :
  seq_rep cap q l →
  wp (step o) (λ a q', a = fifo_answer (fifo_step (Z.to_nat (cap - 1)) o l).1 ∧
                       seq_rep cap q' (fifo_step (Z.to_nat (cap - 1)) o l).2) q.
Proof.
  intros (hist & nr & Hr & -> & Hsize). pose proof (rr_count _ _ _ _ Hr) as [Hle Hct].
  destruct (rr_cap _ _ _ _ Hr) as [_ Hcap]. unfold wp, step.
  destruct o as [v|]; cbn [fifo_step]; rewrite bind_run.
  - destruct (decide (Z.of_nat (length hist - nr) < cap - 1)) as [Hroom|Hfull].
    + destruct (ipc_enqueue_room q cap hist nr v Hr Hroom Hsize) as (q' & -> & Hr' & Hs').
      rewrite fifo_put_room by (rewrite length_contents; lia).
      split; [done|]. exists (hist ++ [v]), nr.
      rewrite contents_put, length_app by done. cbn. split_and!; [done|done|lia].
    + rewrite (ipc_enqueue_full q cap hist nr v Hr) by lia.
      rewrite fifo_put_full by (rewrite length_contents; lia). split; [done|]. by exists hist, nr.
  - destruct (hist !! nr) as [v|] eqn:Hv.
    + destruct (ipc_dequeue_some q cap hist nr v Hr Hv Hsize) as (q' & -> & Hr' & Hs').
      rewrite (contents_take _ _ _ Hv). split; [done|]. by exists hist, (S nr).
    + apply lookup_ge_None in Hv. assert (nr = length hist) as -> by lia.
      rewrite (ipc_dequeue_none q cap hist Hr).
      rewrite (proj2 (contents_nil hist (length hist) ltac:(lia)) eq_refl).
      split; [done|]. exists hist, (length hist). split_and!; [done| |lia].
      symmetry. by apply contents_nil.
Qed.

(** C19: called from one thread, the queue of capacity [cap] behaves on every
    sequence of operations like the FIFO of [cap - 1] values, with [size] equal to
    the number of values it holds: [enqueue] returns true while there is room, and
    into a full queue it throws std::logic_error and changes nothing; [dequeue] gives
    the oldest value, and returns false when there is none; no access leaves the
    array and no element is read that was not written. *)
Theorem ipc_queue_refines_fifo cap os :
  0 < cap < 2 ^ 32 →
  ∃ q, ctor true cap tt = Ok q tt ∧
    wp (run_ops step os) (λ l q', ∃ ans c, fifo_run (Z.to_nat (cap - 1)) os [] = (ans, c) ∧
      l = fifo_answer <$> ans ∧ size q' = Z.of_nat (length c) ∧
      was_empty q' = bool_decide (c = []) ∧
      was_full q' = Ok (bool_decide (Z.of_nat (length c) = cap - 1)) q') q.
Proof.
  intros Hcap. assert (∃ q, ctor true cap tt = Ok q tt) as [q Hq].
  { unfold ctor. rewrite (proj2 (Z.eqb_neq cap 0)) by lia. by eexists. }
  exists q. split; [done|]. destruct (new_ring cap q Hcap Hq) as [Hr0 Hs0].
  eapply wp_mono.
  - apply (run_ops_refines step (seq_rep cap) _ fifo_answer (ipc_step_refines cap) os q []).
    by exists [], 0%nat.
  - intros l q' [-> Hr]. destruct (fifo_run _ os []) as [ans c]. cbn [fst snd] in *.
    exists ans, c. split; [done|]. split; [done|]. destruct Hr as (hist & nr & Hr & -> & Hsize). pose proof (rr_count _ _ _ _ Hr).
    pose proof (rr_cap _ _ _ _ Hr) as [Hc _].
    rewrite length_contents. split_and!; [done| |].
    + unfold was_empty. rewrite Z_eqb_decide. apply bool_decide_ext.
      rewrite contents_nil by lia. apply (rr_empty _ _ _ _ Hr).
    + unfold was_full. rewrite get_bind, (bind_Ok _ _ _ _ _ (increment_run q' _ ltac:(lia))).
      rewrite ret_run, Z_eqb_decide. f_equal. apply bool_decide_ext, (rr_full _ _ _ _ Hr).
Qed.

Lemma ipc_queue_refines_fifo_witness :
  ∃ q, ctor true 3 tt = Ok q tt ∧
    wp (run_ops step [OpPut 7; OpPut 8; OpPut 9; OpTake; OpPut 5; OpTake; OpTake; OpTake])
       (λ l q', l = [Enqueued true; Enqueued true; Threw overflow_error; Dequeued (Some 7); Enqueued true;
                     Dequeued (Some 8); Dequeued (Some 5); Dequeued None] ∧ size q' = 0) q.
Proof.
  destruct (ipc_queue_refines_fifo 3
    [OpPut 7; OpPut 8; OpPut 9; OpTake; OpPut 5; OpTake; OpTake; OpTake]) as (q & Hq & Hwp);
    [lia|].
  exists q. split; [exact Hq|]. eapply wp_mono; [exact Hwp|].
  intros l q' (ans & c & Hrun & -> & Hsize & _). vm_compute in Hrun. injection Hrun as <- <-.
  split; [reflexivity|exact Hsize].
Defined.

(** Printing stops at the first element without a value. *)
Lemma print_values_indeterminate q j : ∀ n i,
  0 ≤ i → (j < n)%nat →
  (∀ k, (k < j)%nat → ∃ v, queue q !! Z.to_nat (i + Z.of_nat k) = Some (Some v)) →
  queue q !! Z.to_nat (i + Z.of_nat j) = Some None →
  print_values n i q = UB (ub_indeterminate (i + Z.of_nat j)).
Proof.
  induction j as [|j IH]; intros n i Hi Hn Hlow Hhole; (destruct n as [|n]; [lia|]);
    cbn [print_values]; rewrite get_bind.
  - rewrite Z.add_0_r in *. apply bind_UB. unfold read_slot.
    by rewrite (bind_Ok _ _ _ _ _ (array_get_run _ _ _ q Hi Hhole)).
  - destruct (Hlow 0%nat ltac:(lia)) as [v Hv]. rewrite Z.add_0_r in Hv.
    assert (read_slot (queue q) i q = Ok v q) as Hread.
    { unfold read_slot. by rewrite (bind_Ok _ _ _ _ _ (array_get_run _ _ _ q Hi Hv)). }
    rewrite (bind_Ok _ _ _ _ _ Hread). apply bind_UB.
    replace (i + Z.of_nat (S j)) with (i + 1 + Z.of_nat j) in * by lia.
    apply IH; [lia|lia| |done]. intros k Hk. destruct (Hlow (S k) ltac:(lia)) as [u Hu].
    exists u. rewrite <- Hu. f_equal. lia.
Qed.

(** [print_queue_state] on a queue that has just been constructed reads an
    element that has no value, for every capacity: the constructor's [memset] clears
    [capacity] bytes, an eighth of the array. *)
Theorem print_fresh_queue_indeterminate cap :
  0 < cap < 2 ^ 32 →
  ∃ q, ctor true cap tt = Ok q tt ∧
       print_queue_state q = UB (ub_indeterminate (cap `div` 8)).
Proof.
  intros Hcap. set (c := Z.to_nat (cap `div` 8)).
  assert (0 ≤ cap `div` 8 < cap) as Hdiv
    by (split; [apply Z.div_pos; lia|apply Z.div_lt; lia]).
  eexists. split.
  { unfold ctor. rewrite (proj2 (Z.eqb_neq cap 0)) by lia. reflexivity. }
  unfold print_queue_state. rewrite get_bind. apply bind_UB.
  assert (ub_indeterminate (cap `div` 8) = ub_indeterminate (0 + Z.of_nat c)) as ->
    by (f_equal; lia).
  apply print_values_indeterminate; [lia|cbn; lia|..]; cbn [queue]; fold c.
  - intros k Hk. exists 0. rewrite lookup_app_l by (rewrite length_replicate; lia).
    apply lookup_replicate. split; [done|lia].
  - rewrite lookup_app_r by (rewrite length_replicate; lia).
    apply lookup_replicate. split; [done|]. rewrite length_replicate. lia.
Qed.

Lemma print_fresh_queue_indeterminate_witness :
  ∃ q, ctor true 20 tt = Ok q tt ∧ print_queue_state q = UB (ub_indeterminate 2).
Proof. apply (print_fresh_queue_indeterminate 20). lia. Defined.

(** ** The two threads *)

(** What a thread knows at each point of its call. *)
Definition prod_ok (cap : Z) (s : cstate) : Prop :=
  let room := Z.of_nat (length (sent s) - length (recd s)) < cap - 1 in
  match prod s with
  | PRear _ w => w = rear (sh s)
  | PWrite _ w => w = rear (sh s) ∧ room
  | PPublish v w => w = rear (sh s) ∧ room ∧ cells (sh s) w = Some v
  | _ => True
  end.

Definition cons_ok (s : cstate) : Prop :=
  match cons s with
  | CFront f => f = front (sh s)
  | CRead f => f = front (sh s) ∧ (length (recd s) < length (sent s))%nat
  | CRelease f v => f = front (sh s) ∧ sent s !! length (recd s) = Some v
  | _ => True
  end.

Record cinv (cap : Z) (s : cstate) : Prop := {
  ci_rep : ring_rep (sh s) cap (sent s) (length (recd s));
  ci_fifo : recd s `prefix_of` sent s;
  ci_prod : prod_ok cap s;
  ci_cons : cons_ok s
}.

Lemma ipc_producer_ok cap v s :
  cinv cap s → ∃ s', producer_step v s = Some s' ∧ cinv cap s'.
Proof.
  intros [Hr Hfifo Hp Hc]. destruct s as [q pp cc hist out]. cbn [sh prod cons sent recd] in *.
  destruct (rr_bounds _ _ _ _ Hr) as (Hcap & Hre & Hfr).
  pose proof (rr_cap _ _ _ _ Hr) as [Hcq _]. pose proof (rr_count _ _ _ _ Hr) as [Hle Hct].
  unfold prod_ok in Hp. cbn [sh prod cons sent recd] in Hp.
  unfold producer_step; cbn [sh prod cons sent recd]. destruct pp as [|u w|u w|u w| |z].
  - eexists. split; [done|]. by split.
  - subst w. rewrite (proj2 (Z.eqb_neq (capacity q) 0)) by lia.
    pose proof (rr_full _ _ _ _ Hr) as Hfull. case_if.
    + eexists. split; [done|]. by split.
    + eexists. split; [done|]. split; try done. split; [done|]. cbn [sent recd].
      rewrite Hfull in Heqb. lia.
  - destruct Hp as [-> Hroom].
    rewrite (proj2 (Z.leb_le 0 (rear q))), (proj2 (Z.ltb_lt (rear q) _)) by lia. cbn [andb].
    eexists. split; [done|]. split; cbn [sh sent recd]; [by apply rr_write|done| |done].
    split_and!; [done|done|]. cbn [sh].
    by rewrite (rr_cells_write _ _ _ _ Hr), decide_True by (done || lia).
  - destruct Hp as (-> & Hroom & Hcell).
    rewrite (rr_next_rear _ _ _ _ Hr). eexists. split; [done|].
    split; cbn [sh sent recd]; [by apply rr_publish|by apply prefix_app_r|done|].
    unfold cons_ok in *. cbn [sh cons sent recd front set_rear] in *.
    destruct cc; try done.
    + rewrite length_app. cbn. split; [apply Hc|lia].
    + destruct Hc as [-> Hv]. split; [done|]. by apply lookup_app_l_Some.
  - eexists. split; [done|]. by split.
  - eexists. split; [done|]. by split; [apply rr_set_size|..].
Qed.

Lemma ipc_consumer_ok cap s :
  cinv cap s → ∃ s', consumer_step s = Some s' ∧ cinv cap s'.
Proof.
  intros [Hr Hfifo Hp Hc]. destruct s as [q pp cc hist out]. cbn [sh prod cons sent recd] in *.
  destruct (rr_bounds _ _ _ _ Hr) as (Hcap & Hre & Hfr).
  pose proof (rr_cap _ _ _ _ Hr) as [Hcq _]. pose proof (rr_count _ _ _ _ Hr) as [Hle Hct].
  unfold cons_ok in Hc. cbn [sh prod cons sent recd] in Hc.
  unfold consumer_step; cbn [sh prod cons sent recd]. destruct cc as [|f|f|f v|v|v z].
  - eexists. split; [done|]. by split.
  - subst f. pose proof (rr_empty _ _ _ _ Hr) as Hempty. case_if.
    + eexists. split; [done|]. by split.
    + eexists. split; [done|]. split; try done. split; [done|]. cbn [sent recd].
      rewrite Hempty in Heqb. lia.
  - destruct Hc as [-> Hlt]. destruct (lookup_lt_is_Some_2 _ _ Hlt) as [v Hv].
    rewrite (rr_front_value _ _ _ _ Hr v Hv). cbn [mjoin option_join].
    eexists. split; [done|]. by split.
  - destruct Hc as [-> Hv]. pose proof (lookup_lt_Some _ _ _ Hv) as Hlt.
    rewrite (proj2 (Z.eqb_neq (capacity q) 0)), (rr_next_front _ _ _ _ Hr) by lia.
    eexists. split; [done|]. split; cbn [sh sent recd].
    + rewrite length_app, Nat.add_1_r. by apply rr_release.
    + by apply prefix_snoc_lookup.
    + unfold prod_ok in *. cbn [sh prod sent recd rear set_front cells] in *.
      rewrite length_app. cbn [length].
      destruct pp; try done; [split; [apply Hp|lia]|split_and!; [apply Hp|lia|apply Hp]].
    + done.
  - eexists. split; [done|]. by split.
  - eexists. split; [done|]. by split; [apply rr_set_size|..].
Qed.

Lemma ipc_start_inv cap q : 0 < cap < 2 ^ 32 → ctor true cap tt = Ok q tt → cinv cap (start q).
Proof. intros Hcap Hq. split; [by apply new_ring|done..]. Qed.

Lemma ipc_cstep_inv cap s s' : cstep s s' → cinv cap s → cinv cap s'.
Proof.
  intros [[v|] Hs] Hi; cbn [sched_step] in Hs.
  - destruct (ipc_producer_ok cap v s Hi) as (s'' & Hs'' & ?). naive_solver.
  - destruct (ipc_consumer_ok cap s Hi) as (s'' & Hs'' & ?). naive_solver.
Qed.

Lemma ipc_reachable_inv cap s s' : rtc cstep s s' → cinv cap s → cinv cap s'.
Proof. induction 1; [done|]. intros. eauto using ipc_cstep_inv. Qed.

(** C17: with one producer and one consumer, whatever the interleaving of their
    accesses: no step is undefined, the values received are, in order, a prefix of
    the values sent (nothing lost, duplicated or reordered), at most [cap - 1] are in
    flight, and the producer never writes the slot the consumer is reading. *)
Theorem ipc_queue_spsc_safe cap q s :
  0 < cap < 2 ^ 32 → ctor true cap tt = Ok q tt → rtc cstep (start q) s →
  (∀ l, is_Some (sched_step l s)) ∧
  recd s `prefix_of` sent s ∧
  Z.of_nat (length (sent s) - length (recd s)) ≤ cap - 1 ∧
  (∀ v w f, prod s = PWrite v w → cons s = CRead f → w ≠ f).
Proof.
  intros Hcap Hq Hreach.
  pose proof (ipc_reachable_inv cap _ _ Hreach (ipc_start_inv cap q Hcap Hq)) as Hi.
  pose proof Hi as [Hr Hfifo Hp Hc]. split_and!; [|done|apply Hr|].
  - intros [v|]; cbn [sched_step].
    + destruct (ipc_producer_ok cap v s Hi) as (s' & -> & _). by eexists.
    + destruct (ipc_consumer_ok cap s Hi) as (s' & -> & _). by eexists.
  - intros v w f Hpw Hcr. unfold prod_ok in Hp. unfold cons_ok in Hc.
    rewrite Hpw in Hp. rewrite Hcr in Hc. destruct Hp as [-> Hroom]. destruct Hc as [-> Hlt].
    intros Heq. symmetry in Heq. apply (rr_empty _ _ _ _ Hr) in Heq. lia.
Qed.

(** Two calls of each thread, run to the end. *)
Definition demo_sched : list label :=
  replicate 6 (Producer 10) ++ replicate 4 (Producer 20) ++ replicate 6 Consumer ++
  replicate 2 (Producer 20).

Lemma ipc_sched_run_reachable ls : ∀ s s', sched_run ls s = Some s' → rtc cstep s s'.
Proof.
  induction ls as [|l ls IH]; intros s s'; cbn [sched_run].
  - by intros [= ->].
  - intros (s1 & Hs & Hrun)%bind_Some. eapply rtc_l; [by exists l|by apply IH].
Qed.

Lemma ipc_queue_spsc_safe_witness :
  ∃ q s, ctor true 3 tt = Ok q tt ∧ sched_run demo_sched (start q) = Some s ∧
         sent s = [10; 20] ∧ recd s = [10] ∧ recd s `prefix_of` sent s.
Proof.
  assert (∃ q, ctor true 3 tt = Ok q tt) as [q Hq] by (eexists; reflexivity).
  assert (∃ s, sched_run demo_sched (start q) = Some s ∧ sent s = [10; 20] ∧ recd s = [10])
    as (s & Hrun & Hs & Hr) by (injection Hq as <-; eexists; split; vm_compute; auto).
  exists q, s. split; [exact Hq|]. split; [exact Hrun|]. split; [exact Hs|]. split; [exact Hr|].
  apply (ipc_queue_spsc_safe 3 q s); [lia|exact Hq|by apply (ipc_sched_run_reachable demo_sched)].
Defined.

(** [size] is incremented by one thread and decremented by the other without
    synchronisation.  An interleaving in which every call returns normally leaves a
    queue that holds one value and whose [size] is 2. *)
Theorem ipc_queue_size_race :
  ∃ q s, ctor true 4 tt = Ok q tt ∧ rtc cstep (start q) s ∧
    prod s = PIdle ∧ cons s = CIdle ∧ sent s = [10; 20] ∧ recd s = [10] ∧ size (sh s) = 2.
Proof.
  set (ls := replicate 6 (Producer 10) ++ replicate 5 (Producer 20) ++ replicate 6 Consumer ++
             [Producer 20]).
  assert (∃ q, ctor true 4 tt = Ok q tt) as [q Hq] by (eexists; reflexivity).
  assert (∃ s, sched_run ls (start q) = Some s ∧ prod s = PIdle ∧ cons s = CIdle ∧
    sent s = [10; 20] ∧ recd s = [10] ∧ size (sh s) = 2) as (s & Hrun & Hs)
    by (injection Hq as <-; eexists; split; vm_compute; auto 10).
  exists q, s. split; [done|]. split; [by apply (ipc_sched_run_reachable ls)|done].
Qed.
