(* ===== verification/RingBuffer.v ===== *)
(** src/spike/ipc_ringbuffer.cpp: the single-producer single-consumer ring buffers
    [ringbuffer] and [ringbuffer2].  The second keeps, on each side, a cached copy
    of the other side's index and reads the shared one only when the cached one says
    full (or empty).

    [push] and [pop] are written as the code has them, run by one thread; then the
    two threads of [ringbuffer2] are interleaved, one access to a shared member at a
    time.  The cached indices are each used by one thread only. *)

From S2P Require Import Prelude Ring.
Local Open Scope Z_scope.

(** [idx + 1], and back to 0 at the end of the buffer, in [size_t]. *)
Definition nextIdx (data_ : list Z) (idx : Z) : Z :=
  let next := u64 (idx + 1) in
  if next =? Z.of_nat (length data_) then 0 else next.

(** ** struct ringbuffer *)

Record ringbuffer := RB {
  rb_data_ : list Z;
  rb_readIdx_ : Z;
  rb_writeIdx_ : Z
}.

Definition rb_ctor (capacity : Z) : ringbuffer := RB (replicate (Z.to_nat capacity) 0) 0 0.

Definition rb_push (val : Z) : M ringbuffer bool :=
  b ← get;
  let writeIdx := rb_writeIdx_ b in
  let nextWriteIdx := nextIdx (rb_data_ b) writeIdx in
  if nextWriteIdx =? rb_readIdx_ b then mret false else
  data' ← array_set (rb_data_ b) writeIdx val;
  put (RB data' (rb_readIdx_ b) nextWriteIdx);;
  mret true.

Definition rb_pop : M ringbuffer (option Z) :=
  b ← get;
  let readIdx := rb_readIdx_ b in
  if readIdx =? rb_writeIdx_ b then mret None else
  val ← array_get (rb_data_ b) readIdx;
  put (RB (rb_data_ b) (nextIdx (rb_data_ b) readIdx) (rb_writeIdx_ b));;
  mret (Some val).

Definition rb_step (o : qop) : M ringbuffer qans :=
  match o with
  | OpPut v => ok ← rb_push v; mret (AnsPut ok)
  | OpTake => v ← rb_pop; mret (AnsTake v)
  end.

(** ** struct ringbuffer2 *)

Record ringbuffer2 := RB2 {
  data_ : list Z;
  readIdx_ : Z;
  writeIdxCached_ : Z;
  writeIdx_ : Z;
  readIdxCached_ : Z
}.

Definition rb2_ctor (capacity : Z) : ringbuffer2 :=
  RB2 (replicate (Z.to_nat capacity) 0) 0 0 0 0.

Definition set_data (b : ringbuffer2) d :=
  RB2 d (readIdx_ b) (writeIdxCached_ b) (writeIdx_ b) (readIdxCached_ b).
Definition set_read (b : ringbuffer2) r :=
  RB2 (data_ b) r (writeIdxCached_ b) (writeIdx_ b) (readIdxCached_ b).
Definition set_writeCached (b : ringbuffer2) w :=
  RB2 (data_ b) (readIdx_ b) w (writeIdx_ b) (readIdxCached_ b).
Definition set_write (b : ringbuffer2) w :=
  RB2 (data_ b) (readIdx_ b) (writeIdxCached_ b) w (readIdxCached_ b).
Definition set_readCached (b : ringbuffer2) r :=
  RB2 (data_ b) (readIdx_ b) (writeIdxCached_ b) (writeIdx_ b) r.

(** The end of push, once there is room. *)
Definition rb2_write (val writeIdx nextWriteIdx : Z) : M ringbuffer2 bool :=
  b ← get;
  data' ← array_set (data_ b) writeIdx val;
  put (set_write (set_data b data') nextWriteIdx);;
  mret true.

Definition rb2_push (val : Z) : M ringbuffer2 bool :=
  b ← get;
  let writeIdx := writeIdx_ b in
  let nextWriteIdx := nextIdx (data_ b) writeIdx in
  if nextWriteIdx =? readIdxCached_ b then
    put (set_readCached b (readIdx_ b));;
    b ← get;
    if nextWriteIdx =? readIdxCached_ b then mret false
    else rb2_write val writeIdx nextWriteIdx
  else rb2_write val writeIdx nextWriteIdx.

(** The end of pop, once there is a value. *)
Definition rb2_read (readIdx : Z) : M ringbuffer2 (option Z) :=
  b ← get;
  val ← array_get (data_ b) readIdx;
  put (set_read b (nextIdx (data_ b) readIdx));;
  mret (Some val).

Definition rb2_pop : M ringbuffer2 (option Z) :=
  b ← get;
  let readIdx := readIdx_ b in
  if readIdx =? writeIdxCached_ b then
    put (set_writeCached b (writeIdx_ b));;
    b ← get;
    if readIdx =? writeIdxCached_ b then mret None
    else rb2_read readIdx
  else rb2_read readIdx.

Definition rb2_step (o : qop) : M ringbuffer2 qans :=
  match o with
  | OpPut v => ok ← rb2_push v; mret (AnsPut ok)
  | OpTake => v ← rb2_pop; mret (AnsTake v)
  end.

(** ** The two threads of ringbuffer2 *)

Inductive ppc : Type :=
| PIdle
| PReload (v w : Z)        (* the cached read index says full *)
| PWrite (v w : Z)         (* there is room: write the slot *)
| PPublish (v w : Z).      (* slot written: store writeIdx_ *)

Inductive cpc : Type :=
| CIdle
| CReload (r : Z)          (* the cached write index says empty *)
| CRead (r : Z)
| CRelease (r v : Z).      (* slot read: store readIdx_ *)

Record cstate := CState {
  sh : ringbuffer2;
  prod : ppc;
  cons : cpc;
  sent : list Z;
  recd : list Z
}.

Inductive label : Type := Producer (v : Z) | Consumer.

Definition producer_step (v : Z) (s : cstate) : option cstate :=
  let b := sh s in
  let go p b' hist := Some (CState b' p (cons s) hist (recd s)) in
  match prod s with
  | PIdle =>
      if nextIdx (data_ b) (writeIdx_ b) =? readIdxCached_ b
      then go (PReload v (writeIdx_ b)) b (sent s)
      else go (PWrite v (writeIdx_ b)) b (sent s)
  | PReload v w =>
      let r := readIdx_ b in
      if nextIdx (data_ b) w =? r
      then go PIdle (set_readCached b r) (sent s)                (* returns false *)
      else go (PWrite v w) (set_readCached b r) (sent s)
  | PWrite v w =>
      if (0 <=? w) && (w <? Z.of_nat (length (data_ b)))
      then go (PPublish v w) (set_data b (<[Z.to_nat w:=v]> (data_ b))) (sent s)
      else None
  | PPublish v w => go PIdle (set_write b (nextIdx (data_ b) w)) (sent s ++ [v])
  end.

Definition consumer_step (s : cstate) : option cstate :=
  let b := sh s in
  let go c b' out := Some (CState b' (prod s) c (sent s) out) in
  match cons s with
  | CIdle =>
      if readIdx_ b =? writeIdxCached_ b
      then go (CReload (readIdx_ b)) b (recd s)
      else go (CRead (readIdx_ b)) b (recd s)
  | CReload r =>
      let w := writeIdx_ b in
      if r =? w
      then go CIdle (set_writeCached b w) (recd s)               (* returns false *)
      else go (CRead r) (set_writeCached b w) (recd s)
  | CRead r =>
      match data_ b !! Z.to_nat r with
      | Some v => go (CRelease r v) b (recd s)
      | None => None
      end
  | CRelease r v => go CIdle (set_read b (nextIdx (data_ b) r)) (recd s ++ [v])
  end.

Definition sched_step (l : label) (s : cstate) : option cstate :=
  match l with
  | Producer v => producer_step v s
  | Consumer => consumer_step s
  end.

Definition cstep (s s' : cstate) : Prop := ∃ l, sched_step l s = Some s'.

Definition start (b : ringbuffer2) : cstate := CState b PIdle CIdle [] [].

Fixpoint sched_run (ls : list label) (s : cstate) : option cstate :=
  match ls with
  | [] => Some s
  | l :: ls' => s' ← sched_step l s; sched_run ls' s'
  end.

(** The threads of [bench]: the producer pushes 0, 1, 2, ... (retrying until it
    succeeds), and the consumer compares what it pops with 0, 1, 2, ... *)
Definition bench_values (n : nat) : list Z := seqZ 0 (Z.of_nat n).
