(* ===== verification/RingBufferProps.v ===== *)
(** Properties of the ring buffers: [ringbuffer] and [ringbuffer2] are the same FIFO
    of [capacity - 1] values, and [ringbuffer2] keeps it under every interleaving of
    its two threads. *)

From S2P Require Import Prelude Ring RingBuffer.
Local Open Scope Z_scope.

Definition cells (d : list Z) (i : Z) : option Z := d !! Z.to_nat i.

Lemma nextIdx_slot d k :
  0 < Z.of_nat (length d) < 2 ^ 64 →
  nextIdx d (slot (Z.of_nat (length d)) k) = slot (Z.of_nat (length d)) (S k).
Proof.
  intros Hd. pose proof (slot_range (Z.of_nat (length d)) ltac:(lia) k).
  unfold nextIdx. rewrite uwrap_small by lia. symmetry. apply slot_S_branch. lia.
Qed.

Lemma nextIdx_same d d' i : length d' = length d → nextIdx d' i = nextIdx d i.
Proof. intros Hl. unfold nextIdx. by rewrite Hl. Qed.

(** The indices of both sides, as numbers of values: [cr] and [cw] are the numbers
    that the cached indices stand for. *)
Record ring2 (b : ringbuffer2) (cap : Z) (hist : list Z) (nr cr cw : nat) : Prop := {
  r2_cap : Z.of_nat (length (data_ b)) = cap ∧ 0 < cap < 2 ^ 64;
  r2_order : (cr ≤ nr ≤ cw)%nat ∧ (cw ≤ length hist)%nat;
  r2_count : Z.of_nat (length hist - cr) ≤ cap - 1;
  r2_read : readIdx_ b = slot cap nr;
  r2_write : writeIdx_ b = slot cap (length hist);
  r2_readc : readIdxCached_ b = slot cap cr;
  r2_writec : writeIdxCached_ b = slot cap cw;
  r2_window : window cap (cells (data_ b)) hist nr
}.

Section ring.
Context (b : ringbuffer2) (cap : Z) (hist : list Z) (nr cr cw : nat)
  (Hr : ring2 b cap hist nr cr cw).

Lemma r2_bounds : 0 ≤ writeIdx_ b < Z.of_nat (length (data_ b)) ∧ 0 ≤ readIdx_ b.
Proof.
  destruct Hr as [[Hl Hcap] _ _ Hre Hwr _ _ _]. rewrite Hl, Hre, Hwr.
  pose proof (slot_range cap ltac:(lia) nr).
  pose proof (slot_range cap ltac:(lia) (length hist)). lia.
Qed.

Lemma r2_next_write : nextIdx (data_ b) (writeIdx_ b) = slot cap (S (length hist)).
Proof. destruct Hr as [[<- Hcap] _ _ _ -> _ _ _]. by apply nextIdx_slot. Qed.

Lemma r2_next_read : nextIdx (data_ b) (readIdx_ b) = slot cap (S nr).
Proof. destruct Hr as [[<- Hcap] _ _ -> _ _ _ _]. by apply nextIdx_slot. Qed.

Lemma r2_full_cached :
  nextIdx (data_ b) (writeIdx_ b) = readIdxCached_ b ↔ Z.of_nat (length hist - cr) = cap - 1.
Proof.
  rewrite r2_next_write, (r2_readc _ _ _ _ _ _ Hr).
  destruct Hr as [[_ Hcap] Ho Hct _ _ _ _ _]. apply slot_meets; lia.
Qed.

Lemma r2_full :
  nextIdx (data_ b) (writeIdx_ b) = readIdx_ b ↔ Z.of_nat (length hist - nr) = cap - 1.
Proof.
  rewrite r2_next_write, (r2_read _ _ _ _ _ _ Hr).
  destruct Hr as [[_ Hcap] Ho Hct _ _ _ _ _]. apply slot_meets; lia.
Qed.

Lemma r2_empty_cached : readIdx_ b = writeIdxCached_ b ↔ nr = cw.
Proof.
  rewrite (r2_read _ _ _ _ _ _ Hr), (r2_writec _ _ _ _ _ _ Hr).
  destruct Hr as [[_ Hcap] Ho Hct _ _ _ _ _]. split; [|by intros ->].
  intros Heq. symmetry in Heq. apply slot_same in Heq; lia.
Qed.

Lemma r2_empty : readIdx_ b = writeIdx_ b ↔ nr = length hist.
Proof.
  rewrite (r2_read _ _ _ _ _ _ Hr), (r2_write _ _ _ _ _ _ Hr).
  destruct Hr as [[_ Hcap] Ho Hct _ _ _ _ _]. split; [|by intros ->].
  intros Heq. symmetry in Heq. apply slot_same in Heq; lia.
Qed.

(** The accesses of the producer. *)
Lemma r2_reload_read : ring2 (set_readCached b (readIdx_ b)) cap hist nr nr cw.
Proof. destruct Hr. split; cbn; try (done || lia). Qed.

Lemma r2_write_slot v :
  ring2 (set_data b (<[Z.to_nat (writeIdx_ b):=v]> (data_ b))) cap hist nr cr cw ∧
  cells (<[Z.to_nat (writeIdx_ b):=v]> (data_ b)) (writeIdx_ b) = Some v.
Proof.
  destruct r2_bounds as [Hw _]. destruct Hr as [Hc Ho Hct Hre Hwr Hrc Hwc Hwin].
  unfold cells. split; [|by rewrite list_lookup_insert_eq by lia].
  split; cbn; try (done || lia); [by rewrite length_insert|].
  apply (window_write cap ltac:(lia) (cells (data_ b))); [done|lia|lia|].
  intros i Hi Hne. unfold cells. by rewrite list_lookup_insert_ne by lia.
Qed.

Lemma r2_publish v :
  cells (data_ b) (writeIdx_ b) = Some v → Z.of_nat (length hist - cr) < cap - 1 →
  ring2 (set_write b (slot cap (S (length hist)))) cap (hist ++ [v]) nr cr cw.
Proof.
  intros Hv Hroom. destruct Hr as [Hc Ho Hct Hre Hwr Hrc Hwc Hwin].
  split; cbn [set_write data_ readIdx_ writeIdx_ readIdxCached_ writeIdxCached_];
    rewrite ?length_app; cbn [length]; try (done || lia).
  - f_equal. lia.
  - apply (window_put cap ltac:(lia) (cells (data_ b))); [done|lia|lia| |done].
    by rewrite <- Hwr.
Qed.

(** The accesses of the consumer. *)
Lemma r2_reload_write : ring2 (set_writeCached b (writeIdx_ b)) cap hist nr cr (length hist).
Proof. destruct Hr. split; cbn; try (done || lia). Qed.

Lemma r2_value v : hist !! nr = Some v → data_ b !! Z.to_nat (readIdx_ b) = Some v.
Proof.
  intros Hv. rewrite (r2_read _ _ _ _ _ _ Hr). by apply (r2_window _ _ _ _ _ _ Hr).
Qed.

Lemma r2_release :
  (nr < cw)%nat → ring2 (set_read b (slot cap (S nr))) cap hist (S nr) cr cw.
Proof.
  intros Hlt. destruct Hr as [Hc Ho Hct Hre Hwr Hrc Hwc Hwin].
  split; cbn; try (done || lia). by apply window_take.
Qed.
End ring.

Lemma rb2_new cap : 0 < cap < 2 ^ 64 → ring2 (rb2_ctor cap) cap [] 0 0 0.
Proof.
  intros Hcap. split; cbn [rb2_ctor data_ readIdx_ writeIdx_ readIdxCached_ writeIdxCached_ length];
    try (done || lia).
  rewrite length_replicate. lia.
Qed.

(** ** The two threads *)

Definition prod_ok (cap : Z) (cr : nat) (s : cstate) : Prop :=
  let room := Z.of_nat (length (sent s) - cr) < cap - 1 in
  match prod s with
  | PIdle => True
  | PReload _ w => w = writeIdx_ (sh s)
  | PWrite _ w => w = writeIdx_ (sh s) ∧ room
  | PPublish v w => w = writeIdx_ (sh s) ∧ room ∧ cells (data_ (sh s)) w = Some v
  end.

Definition cons_ok (cw : nat) (s : cstate) : Prop :=
  match cons s with
  | CIdle => True
  | CReload r => r = readIdx_ (sh s)
  | CRead r => r = readIdx_ (sh s) ∧ (length (recd s) < cw)%nat
  | CRelease r v =>
      r = readIdx_ (sh s) ∧ (length (recd s) < cw)%nat ∧ sent s !! length (recd s) = Some v
  end.

Record inv2 (cap : Z) (s : cstate) (cr cw : nat) : Prop := {
  i2_ring : ring2 (sh s) cap (sent s) (length (recd s)) cr cw;
  i2_fifo : recd s `prefix_of` sent s;
  i2_prod : prod_ok cap cr s;
  i2_cons : cons_ok cw s
}.

Definition inv (cap : Z) (s : cstate) : Prop := ∃ cr cw, inv2 cap s cr cw.

Lemma rb_producer_ok cap v s :
  inv cap s → ∃ s', producer_step v s = Some s' ∧ inv cap s'.
Proof.
  intros (cr & cw & [Hr Hfifo Hp Hc]). destruct s as [b pp cc hist out].
  cbn [sh prod cons sent recd] in *.
  destruct (r2_bounds _ _ _ _ _ _ Hr) as [Hw _].
  pose proof (r2_count _ _ _ _ _ _ Hr) as Hct. pose proof (r2_order _ _ _ _ _ _ Hr) as Hord.
  unfold prod_ok in Hp; cbn [sh prod cons sent recd] in Hp.
  unfold producer_step; cbn [sh prod cons sent recd]. destruct pp as [|u w|u w|u w].
  - pose proof (r2_full_cached _ _ _ _ _ _ Hr) as Hfull. case_if.
    + eexists. split; [done|]. by exists cr, cw.
    + eexists. split; [done|]. exists cr, cw. split; try done. split; [done|]. cbn [sent].
      rewrite Hfull in Heqb0. lia.
  - subst w. pose proof (r2_reload_read _ _ _ _ _ _ Hr) as Hr'.
    pose proof (r2_full _ _ _ _ _ _ Hr) as Hfull. case_if.
    + eexists. split; [done|]. exists (length out), cw. by split.
    + eexists. split; [done|]. exists (length out), cw. split; try done. split; [done|].
      cbn [sent]. rewrite Hfull in Heqb0. lia.
  - destruct Hp as [-> Hroom].
    rewrite (proj2 (Z.leb_le 0 (writeIdx_ b))), (proj2 (Z.ltb_lt (writeIdx_ b) _)) by lia.
    cbn [andb]. destruct (r2_write_slot _ _ _ _ _ _ Hr u) as [Hr' Hcell].
    eexists. split; [done|]. exists cr, cw. by split.
  - destruct Hp as (-> & Hroom & Hcell). rewrite (r2_next_write _ _ _ _ _ _ Hr).
    eexists. split; [done|]. exists cr, cw.
    split; cbn [sh sent recd]; [by apply r2_publish|by apply prefix_app_r|done|].
    unfold cons_ok in *. cbn [sh cons sent recd readIdx_ set_write] in *.
    destruct cc; try done. destruct Hc as (-> & Hlt & Hv). split_and!; [done|done|].
    by apply lookup_app_l_Some.
Qed.

Lemma rb_consumer_ok cap s :
  inv cap s → ∃ s', consumer_step s = Some s' ∧ inv cap s'.
Proof.
  intros (cr & cw & [Hr Hfifo Hp Hc]). destruct s as [b pp cc hist out].
  cbn [sh prod cons sent recd] in *.
  pose proof (r2_count _ _ _ _ _ _ Hr) as Hct. pose proof (r2_order _ _ _ _ _ _ Hr) as Hord.
  unfold cons_ok in Hc; cbn [sh prod cons sent recd] in Hc.
  unfold consumer_step; cbn [sh prod cons sent recd]. destruct cc as [|r|r|r v].
  - pose proof (r2_empty_cached _ _ _ _ _ _ Hr) as Hempty. case_if.
    + eexists. split; [done|]. by exists cr, cw.
    + eexists. split; [done|]. exists cr, cw. split; try done. split; [done|]. cbn [recd].
      rewrite Hempty in Heqb0. lia.
  - subst r. pose proof (r2_reload_write _ _ _ _ _ _ Hr) as Hr'.
    pose proof (r2_empty _ _ _ _ _ _ Hr) as Hempty. case_if.
    + eexists. split; [done|]. exists cr, (length hist). by split.
    + eexists. split; [done|]. exists cr, (length hist). split; try done. split; [done|].
      cbn [recd]. rewrite Hempty in Heqb0. lia.
  - destruct Hc as [-> Hlt]. destruct (lookup_lt_is_Some_2 hist (length out) ltac:(lia)) as [v Hv].
    rewrite (r2_value _ _ _ _ _ _ Hr v Hv). eexists. split; [done|]. exists cr, cw. by split.
  - destruct Hc as (-> & Hlt & Hv). rewrite (r2_next_read _ _ _ _ _ _ Hr).
    eexists. split; [done|]. exists cr, cw. split; cbn [sh sent recd].
    + rewrite length_app, Nat.add_1_r. by apply r2_release.
    + by apply prefix_snoc_lookup.
    + unfold prod_ok in *. by destruct pp.
    + done.
Qed.

Lemma rb_cstep_inv cap s s' : cstep s s' → inv cap s → inv cap s'.
Proof.
  intros [[v|] Hs] Hi; cbn [sched_step] in Hs.
  - destruct (rb_producer_ok cap v s Hi) as (s'' & Hs'' & ?). naive_solver.
  - destruct (rb_consumer_ok cap s Hi) as (s'' & Hs'' & ?). naive_solver.
Qed.

Lemma rb_reachable_inv cap s s' : rtc cstep s s' → inv cap s → inv cap s'.
Proof. induction 1; [done|]. intros. eauto using rb_cstep_inv. Qed.

(** The ring buffer with cached indices, under every interleaving of one
    producer and one consumer: no access is undefined, the values received are in
    order a prefix of the values sent, at most [cap - 1] are in flight, and the
    producer never writes the slot that the consumer is reading. *)
Theorem ringbuffer2_spsc_safe cap s :
  0 < cap < 2 ^ 64 → rtc cstep (start (rb2_ctor cap)) s →
  (∀ l, is_Some (sched_step l s)) ∧
  recd s `prefix_of` sent s ∧
  Z.of_nat (length (sent s) - length (recd s)) ≤ cap - 1 ∧
  (∀ v w r, prod s = PWrite v w → cons s = CRead r → w ≠ r).
Proof.
  intros Hcap Hreach. assert (inv cap s) as Hi.
  { apply (rb_reachable_inv cap _ _ Hreach). exists 0%nat, 0%nat.
    split; [by apply rb2_new|done..]. }
  pose proof Hi as (cr & cw & [Hr Hfifo Hp Hc]).
  pose proof (r2_order _ _ _ _ _ _ Hr). pose proof (r2_count _ _ _ _ _ _ Hr).
  split_and!; [|done|lia|].
  - intros [v|]; cbn [sched_step].
    + destruct (rb_producer_ok cap v s Hi) as (s' & -> & _). by eexists.
    + destruct (rb_consumer_ok cap s Hi) as (s' & -> & _). by eexists.
  - intros v w r Hpw Hcr. unfold prod_ok in Hp. unfold cons_ok in Hc.
    rewrite Hpw in Hp. rewrite Hcr in Hc. destruct Hp as [-> Hroom]. destruct Hc as [-> Hlt].
    intros Heq. symmetry in Heq. apply (r2_empty _ _ _ _ _ _ Hr) in Heq. lia.
Qed.

Lemma rb_sched_run_reachable ls : ∀ s s', sched_run ls s = Some s' → rtc cstep s s'.
Proof.
  induction ls as [|l ls IH]; intros s s'; cbn [sched_run].
  - by intros [= ->].
  - intros (s1 & Hs & Hrun)%bind_Some. eapply rtc_l; [by exists l|by apply IH].
Qed.

Lemma ringbuffer2_spsc_safe_witness :
  ∃ s, sched_run (replicate 7 (Producer 5) ++ replicate 5 Consumer) (start (rb2_ctor 3)) = Some s ∧
       sent s = [5; 5] ∧ recd s = [5] ∧ recd s `prefix_of` sent s.
Proof.
  assert (∃ s, sched_run (replicate 7 (Producer 5) ++ replicate 5 Consumer) (start (rb2_ctor 3))
               = Some s ∧ sent s = [5; 5] ∧ recd s = [5]) as (s & Hrun & Hs & Hr)
    by (eexists; split; vm_compute; auto).
  exists s. split; [exact Hrun|]. split; [exact Hs|]. split; [exact Hr|].
  apply (ringbuffer2_spsc_safe 3 s); [lia|by eapply rb_sched_run_reachable].
Defined.

(** ** One call at a time *)

Definition rb2_rep (cap : Z) (b : ringbuffer2) (l : list Z) : Prop :=
  ∃ hist nr cr cw, ring2 b cap hist nr cr cw ∧ l = contents hist nr.

Lemma rb2_write_ok b cap hist nr cr cw v :
  ring2 b cap hist nr cr cw → Z.of_nat (length hist - cr) < cap - 1 →
  wp (rb2_write v (writeIdx_ b) (nextIdx (data_ b) (writeIdx_ b)))
     (λ r b', r = true ∧ ring2 b' cap (hist ++ [v]) nr cr cw) b.
Proof.
  intros Hr Hroom. destruct (r2_bounds _ _ _ _ _ _ Hr) as [Hw _].
  destruct (r2_write_slot _ _ _ _ _ _ Hr v) as [Hr' Hcell].
  unfold rb2_write. apply wp_bind, wp_ret. apply wp_bind, wp_array_set; [done|].
  apply wp_bind, wp_ret, wp_ret. split; [done|]. rewrite (r2_next_write _ _ _ _ _ _ Hr).
  by apply (r2_publish _ _ _ _ _ _ Hr').
Qed.

Lemma rb2_push_refines b cap hist nr cr cw v :
  ring2 b cap hist nr cr cw →
  wp (rb2_push v) (λ r b', ∃ cr',
    if decide (Z.of_nat (length hist - nr) < cap - 1)
    then r = true ∧ ring2 b' cap (hist ++ [v]) nr cr' cw
    else r = false ∧ ring2 b' cap hist nr cr' cw) b.
Proof.
  intros Hr. pose proof (r2_full_cached _ _ _ _ _ _ Hr) as Hfc.
  pose proof (r2_full _ _ _ _ _ _ Hr) as Hf. pose proof (r2_order _ _ _ _ _ _ Hr).
  pose proof (r2_count _ _ _ _ _ _ Hr).
  unfold rb2_push. apply wp_bind, wp_ret. case_if.
  - pose proof (r2_reload_read _ _ _ _ _ _ Hr) as Hr'.
    apply wp_bind, wp_ret, wp_bind, wp_ret. cbn [readIdxCached_ set_readCached]. case_if.
    + apply wp_ret. exists nr. rewrite decide_False by (rewrite Hf in *; lia). done.
    + assert (Z.of_nat (length hist - nr) < cap - 1) by (rewrite Hf in *; lia).
      eapply wp_mono; [by apply (rb2_write_ok _ cap hist nr nr cw v Hr')|].
      intros r b' ?. exists nr. by rewrite decide_True.
  - assert (Z.of_nat (length hist - cr) < cap - 1) by (rewrite Hfc in *; lia).
    eapply wp_mono; [by apply (rb2_write_ok _ cap hist nr cr cw v Hr)|].
    intros r b' ?. exists cr. by rewrite decide_True by lia.
Qed.

Lemma rb2_read_ok b cap hist nr cr cw :
  ring2 b cap hist nr cr cw → (nr < cw)%nat →
  wp (rb2_read (readIdx_ b))
     (λ r b', r = hist !! nr ∧ ring2 b' cap hist (S nr) cr cw) b.
Proof.
  intros Hr Hlt. pose proof (r2_order _ _ _ _ _ _ Hr). destruct (r2_bounds _ _ _ _ _ _ Hr).
  destruct (lookup_lt_is_Some_2 hist nr ltac:(lia)) as [v Hv].
  unfold rb2_read. apply wp_bind, wp_ret.
  apply wp_bind, (wp_array_get _ _ v); [done|by apply (r2_value _ _ _ _ _ _ Hr)|].
  apply wp_bind, wp_ret, wp_ret. split; [done|]. rewrite (r2_next_read _ _ _ _ _ _ Hr).
  by apply (r2_release _ _ _ _ _ _ Hr).
Qed.

Lemma rb2_pop_refines b cap hist nr cr cw :
  ring2 b cap hist nr cr cw →
  wp rb2_pop (λ r b', ∃ nr' cw',
    ring2 b' cap hist nr' cr cw' ∧ r = hist !! nr ∧
    nr' = if decide (nr < length hist)%nat then S nr else nr) b.
Proof.
  intros Hr. pose proof (r2_empty_cached _ _ _ _ _ _ Hr) as Hec.
  pose proof (r2_empty _ _ _ _ _ _ Hr) as He. pose proof (r2_order _ _ _ _ _ _ Hr).
  unfold rb2_pop. apply wp_bind, wp_ret. case_if.
  - pose proof (r2_reload_write _ _ _ _ _ _ Hr) as Hr'.
    apply wp_bind, wp_ret, wp_bind, wp_ret. cbn [writeIdxCached_ set_writeCached]. case_if.
    + apply wp_ret. exists nr, (length hist). split; [done|].
      assert (nr = length hist) as -> by (by apply He).
      rewrite decide_False by lia. split; [|done]. symmetry. by apply lookup_ge_None.
    + assert (nr < length hist)%nat by (rewrite He in *; lia).
      eapply wp_mono; [by apply (rb2_read_ok _ _ _ _ _ _ Hr')|].
      intros r b' [-> ?]. exists (S nr), (length hist). by rewrite decide_True.
  - assert (nr < cw)%nat by (rewrite Hec in *; lia).
    eapply wp_mono; [by apply (rb2_read_ok _ _ _ _ _ _ Hr)|].
    intros r b' [-> ?]. exists (S nr), cw. by rewrite decide_True by lia.
Qed.

Lemma rb2_step_refines cap o b l :
  rb2_rep cap b l →
  wp (rb2_step o) (λ a b', ∃ l', fifo_step (Z.to_nat (cap - 1)) o l = (a, l') ∧ rb2_rep cap b' l') b.
Proof.
  intros (hist & nr & cr & cw & Hr & ->). pose proof (r2_order _ _ _ _ _ _ Hr).
  pose proof (r2_count _ _ _ _ _ _ Hr). pose proof (proj2 (r2_cap _ _ _ _ _ _ Hr)).
  destruct o as [v|]; cbn [rb2_step fifo_step]; apply wp_bind.
  - eapply wp_mono; [by eapply rb2_push_refines|]. intros r b' [cr' Hpost]. cbn beta in Hpost.
    case_decide; destruct Hpost as [-> Hr']; apply wp_ret.
    + rewrite fifo_put_room by (rewrite length_contents; lia). eexists. split; [done|].
      exists (hist ++ [v]), nr, cr', cw. by rewrite contents_put by lia.
    + rewrite fifo_put_full by (rewrite length_contents; lia). eexists. split; [done|].
      by exists hist, nr, cr', cw.
  - eapply wp_mono; [by eapply rb2_pop_refines|]. intros r b' (nr' & cw' & Hr' & -> & ->).
    apply wp_ret. destruct (hist !! nr) as [v|] eqn:Hv.
    + pose proof (lookup_lt_Some _ _ _ Hv). rewrite decide_True in Hr' by done.
      rewrite (contents_take _ _ _ Hv). eexists. split; [done|]. by exists hist, (S nr), cr, cw'.
    + apply lookup_ge_None in Hv. assert (nr = length hist) as -> by lia.
      rewrite decide_False in Hr' by lia.
      rewrite (proj2 (contents_nil hist (length hist) ltac:(lia)) eq_refl).
      eexists. split; [done|]. exists hist, (length hist), cr, cw'. split; [done|].
      symmetry. by apply contents_nil.
Qed.

(** [ringbuffer] is the buffer whose cached indices are always up to date. *)
Definition uncached (b : ringbuffer) : ringbuffer2 :=
  RB2 (rb_data_ b) (rb_readIdx_ b) (rb_writeIdx_ b) (rb_writeIdx_ b) (rb_readIdx_ b).

Definition rb_rep (cap : Z) (b : ringbuffer) (l : list Z) : Prop :=
  ∃ hist nr, ring2 (uncached b) cap hist nr nr (length hist) ∧ l = contents hist nr.

Lemma rb_push_refines b cap hist nr v :
  ring2 (uncached b) cap hist nr nr (length hist) →
  wp (rb_push v) (λ r b',
    if decide (Z.of_nat (length hist - nr) < cap - 1)
    then r = true ∧ ring2 (uncached b') cap (hist ++ [v]) nr nr (length (hist ++ [v]))
    else r = false ∧ b' = b) b.
Proof.
  intros Hr. pose proof (r2_full _ _ _ _ _ _ Hr) as Hf. cbn [uncached data_ writeIdx_ readIdx_] in Hf.
  pose proof (r2_order _ _ _ _ _ _ Hr). pose proof (r2_count _ _ _ _ _ _ Hr).
  destruct (r2_bounds _ _ _ _ _ _ Hr) as [Hw _].
  unfold rb_push. apply wp_bind, wp_ret. case_if.
  - apply wp_ret. rewrite decide_False by (rewrite Hf in *; lia). done.
  - assert (Z.of_nat (length hist - nr) < cap - 1) by (rewrite Hf in *; lia).
    apply wp_bind, wp_array_set; [done|]. apply wp_bind, wp_put. apply wp_ret.
    rewrite decide_True by done. split; [done|].
    destruct (r2_write_slot _ _ _ _ _ _ Hr v) as [Hr' Hcell].
    pose proof (r2_next_write _ _ _ _ _ _ Hr) as Hn. cbn [uncached data_ writeIdx_] in Hn.
    rewrite Hn.
    exact (r2_reload_write _ _ _ _ _ _ (r2_publish _ _ _ _ _ _ Hr' v Hcell ltac:(done))).
Qed.

Lemma rb_pop_refines b cap hist nr :
  ring2 (uncached b) cap hist nr nr (length hist) →
  wp rb_pop (λ r b', r = hist !! nr ∧
    if decide (nr < length hist)%nat
    then ring2 (uncached b') cap hist (S nr) (S nr) (length hist) else b' = b) b.
Proof.
  intros Hr. pose proof (r2_empty _ _ _ _ _ _ Hr) as He. cbn [uncached writeIdx_ readIdx_] in He.
  pose proof (r2_order _ _ _ _ _ _ Hr). destruct (r2_bounds _ _ _ _ _ _ Hr) as [_ Hre].
  unfold rb_pop. apply wp_bind, wp_ret. case_if.
  - apply wp_ret. assert (nr = length hist) as -> by (by apply He).
    rewrite decide_False by lia. split; [|done]. symmetry. by apply lookup_ge_None.
  - assert (nr < length hist)%nat as Hlt by (rewrite He in *; lia).
    destruct (lookup_lt_is_Some_2 hist nr Hlt) as [v Hv].
    apply wp_bind, (wp_array_get _ _ v); [done|by apply (r2_value _ _ _ _ _ _ Hr)|].
    apply wp_bind, wp_put. apply wp_ret. rewrite decide_True by done. split; [done|].
    pose proof (r2_next_read _ _ _ _ _ _ Hr) as Hn. cbn [uncached data_ readIdx_] in Hn. rewrite Hn.
    exact (r2_reload_read _ _ _ _ _ _ (r2_release _ _ _ _ _ _ Hr Hlt)).
Qed.

Lemma rb_step_refines cap o b l :
  rb_rep cap b l →
  wp (rb_step o) (λ a b', ∃ l', fifo_step (Z.to_nat (cap - 1)) o l = (a, l') ∧ rb_rep cap b' l') b.
Proof.
  intros (hist & nr & Hr & ->). pose proof (r2_order _ _ _ _ _ _ Hr).
  pose proof (r2_count _ _ _ _ _ _ Hr). pose proof (proj2 (r2_cap _ _ _ _ _ _ Hr)).
  destruct o as [v|]; cbn [rb_step fifo_step]; apply wp_bind.
  - eapply wp_mono; [by eapply rb_push_refines|]. intros r b' Hpost. cbn beta in Hpost.
    case_decide; destruct Hpost as [-> Hr']; apply wp_ret.
    + rewrite fifo_put_room by (rewrite length_contents; lia). eexists. split; [done|].
      exists (hist ++ [v]), nr. by rewrite contents_put by lia.
    + rewrite fifo_put_full by (rewrite length_contents; lia). subst b'. eexists. split; [done|].
      by exists hist, nr.
  - eapply wp_mono; [by eapply rb_pop_refines|]. intros r b' [-> Hr']. apply wp_ret.
    destruct (hist !! nr) as [v|] eqn:Hv.
    + pose proof (lookup_lt_Some _ _ _ Hv). rewrite decide_True in Hr' by done.
      rewrite (contents_take _ _ _ Hv). eexists. split; [done|]. by exists hist, (S nr).
    + apply lookup_ge_None in Hv. assert (nr = length hist) as -> by lia.
      rewrite decide_False in Hr' by lia. subst b'.
      rewrite (proj2 (contents_nil hist (length hist) ltac:(lia)) eq_refl).
      eexists. split; [done|]. exists hist, (length hist). split; [done|].
      symmetry. by apply contents_nil.
Qed.

(** C21: the buffer with cached indices answers every sequence of calls exactly as
    the plain one, and both answer as the FIFO of [cap - 1] values; neither has
    undefined behaviour. *)
Theorem ringbuffers_equivalent cap os :
  0 < cap < 2 ^ 64 →
  ∃ l c b b2,
    run_ops rb_step os (rb_ctor cap) = Ok l b ∧
    run_ops rb2_step os (rb2_ctor cap) = Ok l b2 ∧
    fifo_run (Z.to_nat (cap - 1)) os [] = (l, c) ∧ rb_rep cap b c ∧ rb2_rep cap b2 c.
Proof.
  intros Hcap. pose proof (rb2_new cap Hcap) as Hnew.
  assert (rb_rep cap (rb_ctor cap) []) as Hr1 by (by exists [], 0%nat).
  assert (rb2_rep cap (rb2_ctor cap) []) as Hr2 by (by exists [], 0%nat, 0%nat, 0%nat).
  destruct (proj1 (wp_run _ _ _) (run_ops_refines_fifo rb_step _ _ (rb_step_refines cap) os _ _ Hr1))
    as (l & b & Hrun & c & Hf & Hr).
  destruct (proj1 (wp_run _ _ _) (run_ops_refines_fifo rb2_step _ _ (rb2_step_refines cap) os _ _ Hr2))
    as (l2 & b2 & Hrun2 & c2 & Hf2 & Hr2').
  rewrite Hf in Hf2. injection Hf2 as <- <-. by exists l, c, b, b2.
Qed.

Lemma ringbuffers_equivalent_witness :
  ∃ b b2 l, run_ops rb_step [OpPut 1; OpPut 2; OpPut 3; OpTake] (rb_ctor 3) = Ok l b ∧
    run_ops rb2_step [OpPut 1; OpPut 2; OpPut 3; OpTake] (rb2_ctor 3) = Ok l b2 ∧
    l = [AnsPut true; AnsPut true; AnsPut false; AnsTake (Some 1)].
Proof.
  destruct (ringbuffers_equivalent 3 [OpPut 1; OpPut 2; OpPut 3; OpTake])
    as (l & c & b & b2 & H1 & H2 & Hf & _); [lia|].
  exists b, b2, l. split; [exact H1|]. split; [exact H2|].
  vm_compute in Hf. by injection Hf as <- _.
Defined.

(** A buffer of capacity 0 is not refused: its first push writes outside the
    empty vector. *)
Theorem ringbuffer_zero_capacity v :
  rb_push v (rb_ctor 0) = UB (ub_index 0) ∧ rb2_push v (rb2_ctor 0) = UB (ub_index 0).
Proof. split; vm_compute; reflexivity. Qed.
