(* ===== verification/RingWeak.v ===== *)
(** The ring buffers of src/spike/ipc_ringbuffer.cpp on the memory model of C++ ([WeakMem]): the
    indices are atomics whose loads may be stale, the slots are plain objects on which a data race
    is undefined.  The orders of the accesses are those of the source, and the proof needs them:
    with any one of them relaxed the slots race.

    [Plain] is [ringbuffer], [Cached] is [ringbuffer2] with its cached indices.  Both follow one
    protocol, [wring]. *)

From S2P Require Import Prelude Ring WeakMem.
Local Open Scope Z_scope.

(** The two threads, and the two atomic indices. *)
Inductive side : Type := Pusher | Popper.
Inductive index : Type := readIdx | writeIdx.

#[global] Instance side_eq_dec : EqDecision side.
Proof. solve_decision. Defined.
#[global] Instance index_eq_dec : EqDecision index.
Proof. solve_decision. Defined.
#[global] Program Instance side_finite : Finite side := {| enum := [Pusher; Popper] |}.
Next Obligation. repeat constructor; set_solver. Qed.
Next Obligation. intros []; set_solver. Qed.

Abbreviation mem := (wmem side index).
Abbreviation vw := (view side index).

(** ** The protocol *)

(** [np] values have been published and [nr] taken.  Value number [k] is in slot [k]; the [k]-th
    store of an index stores slot [k], and its view includes the first [k] epochs of its thread. *)
Definition own_stores (cap : Z) (t : side) (h : list (msg side index)) (n : nat) : Prop :=
  length h = S n ∧
  ∀ k mg, h !! k = Some mg → m_val mg = slot cap k ∧ (k ≤ clock (m_view mg) t)%nat.

(** What any view knows has happened. *)
Definition vbound (np nr : nat) (V : vw) : Prop :=
  (seen V writeIdx ≤ np ∧ seen V readIdx ≤ nr)%nat ∧
  (clock V Pusher ≤ S np ∧ clock V Popper ≤ S nr)%nat.

(** The producer relies on [cr] values having been taken, the consumer on [cw] being there. *)
Record wring (cap : Z) (m : mem) (sent : list Z) (nr cr cw : nat) : Prop := {
  wr_cap : 0 < cap;
  wr_order : (cr ≤ nr ≤ cw ∧ cw ≤ length sent)%nat;
  wr_count : Z.of_nat (length sent - cr) ≤ cap - 1;
  wr_whist : own_stores cap Pusher (hist m writeIdx) (length sent);
  wr_rhist : own_stores cap Popper (hist m readIdx) nr;
  wr_bound : ∀ t, vbound (length sent) nr (views m t);
  wr_msgs : ∀ x k mg, hist m x !! k = Some mg → vbound (length sent) nr (m_view mg);
  wr_push : (seen (views m Pusher) writeIdx = length sent ∧ cr ≤ seen (views m Pusher) readIdx ∧
             clock (views m Pusher) Pusher = S (length sent) ∧ cr ≤ clock (views m Pusher) Popper)%nat;
  wr_pop : (seen (views m Popper) readIdx = nr ∧ cw ≤ seen (views m Popper) writeIdx ∧
            clock (views m Popper) Popper = S nr ∧ cw ≤ clock (views m Popper) Pusher)%nat;
  wr_window : ∀ k v, (nr ≤ k)%nat → sent !! k = Some v →
    c_val (cells m (slot cap k)) = Some v ∧ (c_writes (cells m (slot cap k)) Pusher ≤ S k)%nat;
  wr_cells : ∀ i, 0 ≤ i < cap →
    c_writes (cells m i) Popper = 0%nat ∧ (c_writes (cells m i) Pusher ≤ S (length sent))%nat ∧
    c_reads (cells m i) Pusher = 0%nat ∧
    (c_reads (cells m i) Popper = 0%nat ∨
     ∃ j, c_reads (cells m i) Popper = S j ∧ slot cap j = i ∧ (j < cw ∧ j ≤ nr)%nat)
}.

(** The slot of the next value has been written, with [v]. *)
Definition staged (cap : Z) (m : mem) (np : nat) (v : Z) : Prop :=
  c_val (cells m (slot cap np)) = Some v.

Lemma vbound_join np nr V W : vbound np nr V → vbound np nr W → vbound np nr (view_join V W).
Proof. unfold vbound. cbn. lia. Qed.

Lemma vbound_mono np nr np' nr' V :
  vbound np nr V → (np ≤ np')%nat → (nr ≤ nr')%nat → vbound np' nr' V.
Proof. unfold vbound. lia. Qed.

(** What a view is after the accesses of the protocol. *)
Ltac view_simpl :=
  repeat (progress cbn [set_view see tick view_join no_view seen clock views hist cells
                        c_val c_writes c_reads m_val m_view] in * ||
          rewrite fn_lookup_insert in * || rewrite fn_lookup_insert_ne in * by done).

(** A claim about the views of both threads: one of them is as before. *)
Ltac each_view := let t := fresh in intros t; destruct t; view_simpl; try done.

Section protocol.
Context (cap : Z) (m : mem) (sent : list Z) (nr cr cw : nat) (Hw : wring cap m sent nr cr cw).

(** *** The indices a thread loads *)

Lemma own_write_load k :
  wp (load Pusher writeIdx relaxed k) (λ w m', w = slot cap (length sent) ∧ wring cap m' sent nr cr cw ∧
    cells m' = cells m) m.
Proof.
  destruct Hw. destruct wr_whist0 as [Hl Hh]. apply wp_load; [lia|].
  intros i mg Hi Hmg. pose proof (lookup_lt_Some _ _ _ Hmg).
  assert (i = length sent) as -> by lia. destruct (Hh _ _ Hmg) as [-> _].
  split_and!; [done| |done]. split; try done; view_simpl; try lia.
  each_view. pose proof (wr_bound0 Pusher). unfold vbound in *. view_simpl. lia.
Qed.

Lemma own_read_load k :
  wp (load Popper readIdx relaxed k) (λ r m', r = slot cap nr ∧ wring cap m' sent nr cr cw ∧
    cells m' = cells m) m.
Proof.
  destruct Hw. destruct wr_rhist0 as [Hl Hh]. apply wp_load; [lia|].
  intros i mg Hi Hmg. pose proof (lookup_lt_Some _ _ _ Hmg).
  assert (i = nr) as -> by lia. destruct (Hh _ _ Hmg) as [-> _].
  split_and!; [done| |done]. split; try done; view_simpl; try lia.
  each_view. pose proof (wr_bound0 Popper). unfold vbound in *. view_simpl. lia.
Qed.

(** The index of the other side may be stale, but what it says is safe to rely on. *)
Lemma other_read_load k :
  wp (load Pusher readIdx acquire k) (λ r m', ∃ c, r = slot cap c ∧ (cr ≤ c ≤ nr)%nat ∧
    wring cap m' sent nr c cw ∧ cells m' = cells m) m.
Proof.
  destruct Hw. destruct wr_rhist0 as [Hl Hh]. pose proof (wr_bound0 Pusher) as Hb.
  apply wp_load; [unfold vbound in Hb; lia|].
  intros i mg Hi Hmg. pose proof (lookup_lt_Some _ _ _ Hmg). destruct (Hh _ _ Hmg) as [-> Hck].
  pose proof (wr_msgs0 _ _ _ Hmg) as Hm. exists i. split_and!; [done|lia|lia| |done].
  unfold vbound in Hb, Hm. split; try done; view_simpl; try lia.
  each_view. apply vbound_join; unfold vbound; view_simpl; lia.
Qed.

Lemma other_write_load k :
  wp (load Popper writeIdx acquire k) (λ w m', ∃ c, w = slot cap c ∧ (cw ≤ c ≤ length sent)%nat ∧
    wring cap m' sent nr cr c ∧ cells m' = cells m) m.
Proof.
  destruct Hw. destruct wr_whist0 as [Hl Hh]. pose proof (wr_bound0 Popper) as Hb.
  apply wp_load; [unfold vbound in Hb; lia|].
  intros i mg Hi Hmg. pose proof (lookup_lt_Some _ _ _ Hmg). destruct (Hh _ _ Hmg) as [-> Hck].
  pose proof (wr_msgs0 _ _ _ Hmg) as Hm. exists i. split_and!; [done|lia|lia| |done].
  unfold vbound in Hb, Hm. split; try done; view_simpl; try lia.
  - each_view. apply vbound_join; unfold vbound; view_simpl; lia.
  - intros n Hn. destruct (wr_cells0 n Hn) as (? & ? & ? & [?|(j & ? & ? & ?)]); [by auto|].
    split_and!; try done. right. exists j. split_and!; try done; lia.
Qed.

(** *** The slots *)

(** The slot of the next value was last read long ago, and the producer knows. *)
Lemma write_slot v :
  Z.of_nat (length sent - cr) < cap - 1 →
  wp (plain_write Pusher (slot cap (length sent)) v) (λ _ m', wring cap m' sent nr cr cw ∧
    staged cap m' (length sent) v ∧ ∀ i, i ≠ slot cap (length sent) → cells m' i = cells m i) m.
Proof.
  intros Hroom. destruct Hw. pose proof (slot_range cap wr_cap0 (length sent)) as Hs.
  destruct (wr_cells0 _ Hs) as (HwC & HwP & HrP & HrC). apply wp_plain_write.
  - intros []; lia.
  - intros []; [lia|]. destruct HrC as [?|(j & -> & Hj & ? & ?)]; [lia|].
    destruct (decide (j < cr)%nat); [lia|]. apply slot_inj in Hj; lia.
  - split_and!; [|unfold staged; by view_simpl|intros i Hi; cbn [cells]; by rewrite fn_lookup_insert_ne].
    split; try done; cbn [hist views cells].
    + intros k u Hk Hu. pose proof (lookup_lt_Some _ _ _ Hu).
      rewrite fn_lookup_insert_ne; [by apply wr_window0|].
      intros Heq. apply slot_inj in Heq; lia.
    + intros n Hn. destruct (decide (slot cap (length sent) = n)) as [<-|Hne].
      * view_simpl. split_and!; [done|lia|done|]. by apply wr_cells0.
      * rewrite fn_lookup_insert_ne by done. by apply wr_cells0.
Qed.

(** The value the consumer reads is there, and its write happened before. *)
Lemma read_slot :
  (nr < cw)%nat → ∃ v, sent !! nr = Some v ∧
  wp (plain_read Popper (slot cap nr)) (λ u m', u = v ∧ wring cap m' sent nr cr cw ∧
    ∀ i, c_val (cells m' i) = c_val (cells m i)) m.
Proof.
  intros Hlt. destruct Hw. destruct (lookup_lt_is_Some_2 sent nr ltac:(lia)) as [v Hv].
  exists v. split; [done|]. pose proof (slot_range cap wr_cap0 nr) as Hs.
  destruct (wr_cells0 _ Hs) as (HwC & HwP & HrP & HrC).
  destruct (wr_window0 nr v ltac:(lia) Hv) as [Hval Hep]. eapply wp_plain_read; [|done|].
  - intros []; lia.
  - split_and!; [done| |].
    + split; try done; cbn [hist views cells].
      * intros k u Hk Hu. destruct (decide (slot cap nr = slot cap k)) as [Heq|Hne].
        -- rewrite <- Heq. view_simpl. rewrite <- Hval, Heq. by apply wr_window0.
        -- rewrite fn_lookup_insert_ne by done. by apply wr_window0.
      * intros n Hn. destruct (decide (slot cap nr = n)) as [<-|Hne].
        -- view_simpl. split_and!; [done|done|done|]. right. exists nr. split_and!; [lia|done|lia|lia].
        -- rewrite fn_lookup_insert_ne by done. by apply wr_cells0.
    + intros i. cbn [cells]. destruct (decide (slot cap nr = i)) as [<-|Hne].
      * by view_simpl.
      * by rewrite fn_lookup_insert_ne.
Qed.

(** *** The indices a thread stores *)

Lemma own_stores_snoc t h n V :
  own_stores cap t h n → (S n ≤ clock V t)%nat → own_stores cap t (h ++ [Msg (slot cap (S n)) V]) (S n).
Proof.
  intros [Hl Hh] HV. split; [rewrite length_app; cbn; lia|].
  intros k mg [[_ Hmg]|[-> <-]]%lookup_snoc_Some; [by apply Hh|]. rewrite Hl. by split.
Qed.

Lemma publish v :
  Z.of_nat (length sent - cr) < cap - 1 → staged cap m (length sent) v →
  wp (store Pusher writeIdx release (slot cap (S (length sent)))) (λ _ m',
    wring cap m' (sent ++ [v]) nr cr cw ∧ cells m' = cells m) m.
Proof.
  intros Hroom Hst. destruct Hw. apply wp_store. pose proof (wr_bound0 Pusher) as Hb.
  assert (length (sent ++ [v]) = S (length sent)) as Hl by (rewrite length_app; cbn; lia).
  unfold vbound in Hb. split; [|done]. split; rewrite ?Hl; try done; view_simpl; try lia.
  - apply own_stores_snoc; [done|]. view_simpl. lia.
  - each_view; [unfold vbound; view_simpl; destruct wr_whist0; lia|].
    eapply vbound_mono; [apply wr_bound0|lia..].
  - intros [] k mg Hmg; view_simpl.
    + eapply vbound_mono; [by eapply wr_msgs0|lia..].
    + apply lookup_snoc_Some in Hmg as [[_ Hmg]|[-> <-]].
      * eapply vbound_mono; [by eapply wr_msgs0|lia..].
      * unfold vbound. view_simpl. destruct wr_whist0. lia.
  - destruct wr_whist0. lia.
  - intros k u Hk [[_ Hu]|[-> ->]]%lookup_snoc_Some; [by apply wr_window0|].
    split; [done|]. apply (wr_cells0 _ (slot_range cap wr_cap0 (length sent))).
  - intros n Hn. destruct (wr_cells0 n Hn) as (? & ? & ? & ?). split_and!; [done|lia|done|done].
Qed.

Lemma give_back :
  (nr < cw)%nat →
  wp (store Popper readIdx release (slot cap (S nr))) (λ _ m',
    wring cap m' sent (S nr) cr cw ∧ cells m' = cells m) m.
Proof.
  intros Hlt. destruct Hw. apply wp_store. pose proof (wr_bound0 Popper) as Hb.
  unfold vbound in Hb. split; [|done]. split; try done; view_simpl; try lia.
  - apply own_stores_snoc; [done|]. view_simpl. lia.
  - each_view; [eapply vbound_mono; [apply wr_bound0|lia..]|].
    unfold vbound; view_simpl; destruct wr_rhist0; lia.
  - intros [] k mg Hmg; view_simpl.
    + apply lookup_snoc_Some in Hmg as [[_ Hmg]|[-> <-]].
      * eapply vbound_mono; [by eapply wr_msgs0|lia..].
      * unfold vbound. view_simpl. destruct wr_rhist0. lia.
    + eapply vbound_mono; [by eapply wr_msgs0|lia..].
  - destruct wr_rhist0. lia.
  - intros k u Hk Hu. apply wr_window0; [lia|done].
  - intros n Hn. destruct (wr_cells0 n Hn) as (? & ? & ? & [?|(j & ? & ? & ? & ?)]); [by auto|].
    split_and!; try done. right. exists j. split_and!; try done; lia.
Qed.
End protocol.

(** Other objects may change. *)
Lemma wring_other cap m m' sent nr cr cw :
  wring cap m sent nr cr cw → hist m' = hist m → views m' = views m →
  (∀ i, 0 ≤ i < cap → cells m' i = cells m i) → wring cap m' sent nr cr cw.
Proof.
  intros [] Hh Hv Hc. split; rewrite ?Hh, ?Hv; try done.
  - intros k v Hk Hs. rewrite Hc by (by apply slot_range). by apply wr_window0.
  - intros i Hi. rewrite Hc by done. by apply wr_cells0.
Qed.

Lemma wring_init cap objs :
  0 < cap → wring cap (wmem_init (λ _, 0) objs) [] 0 0 0.
Proof.
  intros Hcap. split; try done; cbn; try lia.
  - split; [done|]. intros [|k] mg [= <-]. by split; [|lia].
  - split; [done|]. intros [|k] mg [= <-]. by split; [|lia].
  - intros []; unfold vbound; view_simpl; lia.
  - intros x [|k] mg [= <-]. unfold vbound. cbn. lia.
Qed.

(** ** The programs *)

(** Where a thread is inside push or pop, between two accesses to shared memory. *)
Inductive push_pc : Type :=
| PuIdle
| PuLoad (val writeIdx : Z)          (* to load readIdx_ *)
| PuWrite (val writeIdx : Z)         (* there is room *)
| PuPublish (val writeIdx : Z).      (* the slot is written *)

Inductive pop_pc : Type :=
| PoIdle
| PoLoad (readIdx : Z)               (* to load writeIdx_ *)
| PoRead (readIdx : Z)               (* there is a value *)
| PoRelease (readIdx val : Z).       (* the slot is read *)

Record sys := Sys {
  wm : mem;
  pushing : push_pc;
  popping : pop_pc;
  readIdxCached_ : Z;                (* used by push of ringbuffer2 only *)
  writeIdxCached_ : Z;               (* used by pop of ringbuffer2 only *)
  sent : list Z;                     (* the values of the calls of push that returned true *)
  recd : list Z                      (* the values popped *)
}.

Definition on_mem {B} (c : M mem B) : M sys B := λ s,
  match c (wm s) with
  | Ok b m => Ok b (Sys m (pushing s) (popping s) (readIdxCached_ s) (writeIdxCached_ s) (sent s) (recd s))
  | Throw e m => Throw e (Sys m (pushing s) (popping s) (readIdxCached_ s) (writeIdxCached_ s) (sent s) (recd s))
  | UB u => UB u
  | OutOfFuel => OutOfFuel
  end.

Definition goto_push (p : push_pc) : M sys unit := modify (λ s,
  Sys (wm s) p (popping s) (readIdxCached_ s) (writeIdxCached_ s) (sent s) (recd s)).
Definition goto_pop (p : pop_pc) : M sys unit := modify (λ s,
  Sys (wm s) (pushing s) p (readIdxCached_ s) (writeIdxCached_ s) (sent s) (recd s)).
Definition cache_read (r : Z) : M sys unit := modify (λ s,
  Sys (wm s) (pushing s) (popping s) r (writeIdxCached_ s) (sent s) (recd s)).
Definition cache_write (w : Z) : M sys unit := modify (λ s,
  Sys (wm s) (pushing s) (popping s) (readIdxCached_ s) w (sent s) (recd s)).
Definition pushed (v : Z) : M sys unit := modify (λ s,
  Sys (wm s) (pushing s) (popping s) (readIdxCached_ s) (writeIdxCached_ s) (sent s ++ [v]) (recd s)).
Definition popped (v : Z) : M sys unit := modify (λ s,
  Sys (wm s) (pushing s) (popping s) (readIdxCached_ s) (writeIdxCached_ s) (sent s) (recd s ++ [v])).

(** The orders of the four accesses that synchronise. *)
Record orders := Orders {
  push_load : memory_order;          (* readIdx_.load in push *)
  push_store : memory_order;         (* writeIdx_.store in push *)
  pop_load : memory_order;           (* writeIdx_.load in pop *)
  pop_store : memory_order           (* readIdx_.store in pop *)
}.

Definition source_orders : orders := Orders acquire release acquire release.

Section programs.
Context (size : Z) (o : orders).     (* data_.size() *)

Definition next_index (idx : Z) : Z :=
  let next := u64 (idx + 1) in if next =? size then 0 else next.

Definition in_data (i : Z) : bool := (0 <=? i) && (i <? size).

(** The end of push and of pop, the same in both buffers. *)
Definition push_end (p : push_pc) : M sys unit :=
  match p with
  | PuWrite val w =>
      if negb (in_data w) then undefined (ub_index w) else
      on_mem (plain_write Pusher w val);; goto_push (PuPublish val w)
  | PuPublish val w =>
      on_mem (store Pusher writeIdx (push_store o) (next_index w));;
      pushed val;; goto_push PuIdle
  | _ => mret tt
  end.

Definition pop_end (p : pop_pc) : M sys unit :=
  match p with
  | PoRead r =>
      if negb (in_data r) then undefined (ub_index r) else
      val ← on_mem (plain_read Popper r); goto_pop (PoRelease r val)
  | PoRelease r val =>
      on_mem (store Popper readIdx (pop_store o) (next_index r));;
      popped val;; goto_pop PoIdle
  | _ => mret tt
  end.

(** One access of ringbuffer::push, and of ringbuffer::pop; [k] chooses among the values that a
    load may return. *)
Definition rb_push_step (val : Z) (k : nat) : M sys unit :=
  s ← get;
  match pushing s with
  | PuIdle => w ← on_mem (load Pusher writeIdx relaxed k); goto_push (PuLoad val w)
  | PuLoad val w =>
      r ← on_mem (load Pusher readIdx (push_load o) k);
      if next_index w =? r then goto_push PuIdle               (* return false *)
      else goto_push (PuWrite val w)
  | p => push_end p
  end.

Definition rb_pop_step (k : nat) : M sys unit :=
  s ← get;
  match popping s with
  | PoIdle => r ← on_mem (load Popper readIdx relaxed k); goto_pop (PoLoad r)
  | PoLoad r =>
      w ← on_mem (load Popper writeIdx (pop_load o) k);
      if r =? w then goto_pop PoIdle                           (* return false *)
      else goto_pop (PoRead r)
  | p => pop_end p
  end.

(** ringbuffer2: the other side's index is loaded only when the cached one says full, or empty. *)
Definition rb2_push_step (val : Z) (k : nat) : M sys unit :=
  s ← get;
  match pushing s with
  | PuIdle =>
      w ← on_mem (load Pusher writeIdx relaxed k);
      if next_index w =? readIdxCached_ s then goto_push (PuLoad val w)
      else goto_push (PuWrite val w)
  | PuLoad val w =>
      r ← on_mem (load Pusher readIdx (push_load o) k);
      cache_read r;;
      if next_index w =? r then goto_push PuIdle
      else goto_push (PuWrite val w)
  | p => push_end p
  end.

Definition rb2_pop_step (k : nat) : M sys unit :=
  s ← get;
  match popping s with
  | PoIdle =>
      r ← on_mem (load Popper readIdx relaxed k);
      if r =? writeIdxCached_ s then goto_pop (PoLoad r)
      else goto_pop (PoRead r)
  | PoLoad r =>
      w ← on_mem (load Popper writeIdx (pop_load o) k);
      cache_write w;;
      if r =? w then goto_pop PoIdle
      else goto_pop (PoRead r)
  | p => pop_end p
  end.

(** A schedule: whose turn it is, which value a load returns, and what is pushed next. *)
Inductive label : Type := Push (val : Z) (k : nat) | Pop (k : nat).

Definition wstep (cached : bool) (l : label) : M sys unit :=
  match l with
  | Push val k => if cached then rb2_push_step val k else rb_push_step val k
  | Pop k => if cached then rb2_pop_step k else rb_pop_step k
  end.

Fixpoint wrun (cached : bool) (ls : list label) : M sys unit :=
  match ls with
  | [] => mret tt
  | l :: ls' => wstep cached l;; wrun cached ls'
  end.
End programs.

(** data_(capacity, 0), both indices 0. *)
Definition wstart (capacity : Z) : sys :=
  Sys (wmem_init (λ _, 0) (λ n, if in_data capacity n then Some 0 else None)) PuIdle PoIdle 0 0 [] [].
