(* ===== verification/RingWeakProps.v ===== *)
(** The ring buffers are correct on the memory model of C++ ([RingWeak]): no data race, no access
    outside the buffer, and the values arrive in order, whatever the interleaving and whichever
    values the loads return.  And the orders of the source are needed. *)

From S2P Require Import Prelude Ring WeakMem RingWeak.
Local Open Scope Z_scope.

Section safety.
Context (cap : Z) (Hcap : 0 < cap < 2 ^ 64).

Lemma next_index_slot k : next_index cap (slot cap k) = slot cap (S k).
Proof.
  pose proof (slot_range cap ltac:(lia) k). unfold next_index. rewrite uwrap_small by lia.
  symmetry. apply slot_S_branch. lia.
Qed.

Lemma in_data_slot k : in_data cap (slot cap k) = true.
Proof.
  pose proof (slot_range cap ltac:(lia) k). unfold in_data.
  by rewrite (proj2 (Z.leb_le _ _)), (proj2 (Z.ltb_lt _ _)) by lia.
Qed.

(** ** The invariant *)

Definition push_ok (m : mem) (np cr : nat) (p : push_pc) : Prop :=
  let room := Z.of_nat (np - cr) < cap - 1 in
  match p with
  | PuIdle => True
  | PuLoad _ w => w = slot cap np
  | PuWrite _ w => w = slot cap np ∧ room
  | PuPublish v w => w = slot cap np ∧ room ∧ staged cap m np v
  end.

Definition pop_ok (sent : list Z) (nr cw : nat) (p : pop_pc) : Prop :=
  match p with
  | PoIdle => True
  | PoLoad r => r = slot cap nr
  | PoRead r => r = slot cap nr ∧ (nr < cw)%nat
  | PoRelease r v => r = slot cap nr ∧ (nr < cw)%nat ∧ sent !! nr = Some v
  end.

(** In ringbuffer2 the cached indices are what each side relies on. *)
Record winv (cached : bool) (s : sys) (cr cw : nat) : Prop := {
  wi_ring : wring cap (wm s) (sent s) (length (recd s)) cr cw;
  wi_fifo : recd s `prefix_of` sent s;
  wi_push : push_ok (wm s) (length (sent s)) cr (pushing s);
  wi_pop : pop_ok (sent s) (length (recd s)) cw (popping s);
  wi_cached : cached = true → readIdxCached_ s = slot cap cr ∧ writeIdxCached_ s = slot cap cw
}.

Definition wsafe (cached : bool) (s : sys) : Prop := ∃ cr cw, winv cached s cr cw.

Lemma wp_on_mem {B} (c : M mem B) Q s :
  wp c (λ b m, Q b (Sys m (pushing s) (popping s) (readIdxCached_ s) (writeIdxCached_ s) (sent s) (recd s))) (wm s) →
  wp (on_mem c) Q s.
Proof. unfold wp, on_mem. by destruct (c (wm s)). Qed.

Lemma push_ok_frame m m' np cr cr' p :
  push_ok m np cr p → cells m' = cells m → (cr ≤ cr')%nat → push_ok m' np cr' p.
Proof.
  intros Hp Hm Hle. destruct p; cbn in *; unfold staged in *; rewrite ?Hm; naive_solver lia.
Qed.

(** ** Both buffers *)

Lemma push_end_ok c s cr cw :
  winv c s cr cw → wp (push_end cap source_orders (pushing s)) (λ _ s', wsafe c s') s.
Proof.
  intros [Hr Hf Hp Hc Hca]. destruct s as [m pp qq rc wc hs out].
  cbn [wm pushing popping readIdxCached_ writeIdxCached_ sent recd] in *.
  destruct pp as [|v w|v w|v w]; cbn [push_end push_ok] in *.
  - apply wp_ret. by exists cr, cw.
  - apply wp_ret. by exists cr, cw.
  - destruct Hp as [-> Hroom]. rewrite in_data_slot. cbn [negb].
    apply wp_bind, wp_on_mem. eapply wp_mono; [by apply (write_slot cap m hs _ cr cw Hr)|].
    intros [] m' (Hr' & Hst & _). apply wp_modify. by exists cr, cw.
  - destruct Hp as (-> & Hroom & Hst). rewrite next_index_slot.
    apply wp_bind, wp_on_mem. eapply wp_mono; [by apply (publish cap m hs _ cr cw Hr v)|].
    intros [] m' [Hr' _]. apply wp_bind, wp_modify, wp_modify. exists cr, cw.
    split; cbn; [done|by apply prefix_app_r|done| |done].
    destruct qq; cbn in *; naive_solver eauto using lookup_app_l_Some.
Qed.

Lemma pop_end_ok c s cr cw :
  winv c s cr cw → wp (pop_end cap source_orders (popping s)) (λ _ s', wsafe c s') s.
Proof.
  intros [Hr Hf Hp Hc Hca]. destruct s as [m pp qq rc wc hs out].
  cbn [wm pushing popping readIdxCached_ writeIdxCached_ sent recd] in *.
  destruct qq as [|r|r|r v]; cbn [pop_end pop_ok] in *.
  - apply wp_ret. by exists cr, cw.
  - apply wp_ret. by exists cr, cw.
  - destruct Hc as [-> Hlt]. rewrite in_data_slot. cbn [negb].
    destruct (read_slot cap m hs _ cr cw Hr Hlt) as (v & Hv & Hread).
    apply wp_bind, wp_on_mem. eapply wp_mono; [exact Hread|].
    intros u m' (-> & Hr' & Hst). apply wp_modify. exists cr, cw. split; cbn; try done.
    destruct pp; cbn in *; unfold staged in *; rewrite ?Hst; naive_solver.
  - destruct Hc as (-> & Hlt & Hv). rewrite next_index_slot.
    apply wp_bind, wp_on_mem. eapply wp_mono; [by apply (give_back cap m hs _ cr cw Hr)|].
    intros [] m' [Hr' Hm]. apply wp_bind, wp_modify, wp_modify. exists cr, cw.
    split; cbn; rewrite ?length_app, ?Nat.add_1_r; [done| | |done|done].
    + by apply prefix_snoc_lookup.
    + by eapply push_ok_frame.
Qed.

(** The tests for full and empty, on what a load returned. *)
Lemma full_test m hs nr cr cw :
  wring cap m hs nr cr cw → slot cap (S (length hs)) ≠ slot cap cr → Z.of_nat (length hs - cr) < cap - 1.
Proof.
  intros Hr Hne. pose proof (wr_order _ _ _ _ _ _ Hr). pose proof (wr_count _ _ _ _ _ _ Hr).
  rewrite slot_meets in Hne; lia.
Qed.

Lemma empty_test m hs nr cr cw :
  wring cap m hs nr cr cw → slot cap nr ≠ slot cap cw → (nr < cw)%nat.
Proof.
  intros Hr Hne. pose proof (wr_order _ _ _ _ _ _ Hr).
  destruct (decide (nr = cw)) as [->|]; [done|lia].
Qed.

(** The first accesses.  A side that goes on with the index [c] it has loaded, or had cached. *)
Lemma push_checked c s cr cw v w r (cached : bool) :
  winv c s cr cw → w = slot cap (length (sent s)) → r = slot cap cr →
  wp (if next_index cap w =? r then goto_push (if cached then PuLoad v w else PuIdle)
      else goto_push (PuWrite v w)) (λ _ s', wsafe c s') s.
Proof.
  intros [Hr Hf Hp Hc Hca] -> ->. rewrite next_index_slot.
  destruct (Z.eqb_spec (slot cap (S (length (sent s)))) (slot cap cr)) as [Heq|Hne];
    apply wp_modify; exists cr, cw; (split; cbn; [done|done| |done|done]).
  - by destruct cached.
  - split; [done|]. by eapply full_test.
Qed.

Lemma pop_checked c s cr cw r w (cached : bool) :
  winv c s cr cw → r = slot cap (length (recd s)) → w = slot cap cw →
  wp (if r =? w then goto_pop (if cached then PoLoad r else PoIdle)
      else goto_pop (PoRead r)) (λ _ s', wsafe c s') s.
Proof.
  intros [Hr Hf Hp Hc Hca] -> ->.
  destruct (Z.eqb_spec (slot cap (length (recd s))) (slot cap cw)) as [Heq|Hne];
    apply wp_modify; exists cr, cw; (split; cbn; [done|done|done| |done]).
  - by destruct cached.
  - split; [done|]. by eapply empty_test.
Qed.

Lemma push_loads c s cr cw k (Q : Z → sys → Prop) :
  winv c s cr cw →
  (∀ m', let s' := Sys m' (pushing s) (popping s) (readIdxCached_ s) (writeIdxCached_ s) (sent s) (recd s) in
     winv c s' cr cw → Q (slot cap (length (sent s))) s') →
  wp (on_mem (load Pusher writeIdx relaxed k)) Q s.
Proof.
  intros [Hr Hf Hp Hc Hca] HQ. apply wp_on_mem. eapply wp_mono; [by apply (own_write_load _ _ _ _ _ _ Hr)|].
  intros w m' (-> & Hr' & Hm). apply HQ. split; cbn; try done. by eapply push_ok_frame.
Qed.

Lemma pop_loads c s cr cw k (Q : Z → sys → Prop) :
  winv c s cr cw →
  (∀ m', let s' := Sys m' (pushing s) (popping s) (readIdxCached_ s) (writeIdxCached_ s) (sent s) (recd s) in
     winv c s' cr cw → Q (slot cap (length (recd s))) s') →
  wp (on_mem (load Popper readIdx relaxed k)) Q s.
Proof.
  intros [Hr Hf Hp Hc Hca] HQ. apply wp_on_mem. eapply wp_mono; [by apply (own_read_load _ _ _ _ _ _ Hr)|].
  intros w m' (-> & Hr' & Hm). apply HQ. split; cbn; try done. by eapply push_ok_frame.
Qed.

(** The load of the other index, followed by its caching in ringbuffer2. *)
Lemma push_reloads c s cr cw k (Q : Z → sys → Prop) :
  winv c s cr cw →
  (∀ m' cr', let s' r := Sys m' (pushing s) (popping s) r (writeIdxCached_ s) (sent s) (recd s) in
     winv c (s' (if c then slot cap cr' else readIdxCached_ s)) cr' cw →
     Q (slot cap cr') (s' (readIdxCached_ s))) →
  wp (on_mem (load Pusher readIdx acquire k)) Q s.
Proof.
  intros [Hr Hf Hp Hc Hca] HQ. apply wp_on_mem. eapply wp_mono; [by apply (other_read_load _ _ _ _ _ _ Hr)|].
  intros w m' (cr' & -> & Hle & Hr' & Hm). apply HQ. split; cbn; try done.
  - eapply push_ok_frame; [done|done|lia].
  - intros ->. split; [done|by apply Hca].
Qed.

Lemma pop_reloads c s cr cw k (Q : Z → sys → Prop) :
  winv c s cr cw →
  (∀ m' cw', let s' w := Sys m' (pushing s) (popping s) (readIdxCached_ s) w (sent s) (recd s) in
     winv c (s' (if c then slot cap cw' else writeIdxCached_ s)) cr cw' →
     Q (slot cap cw') (s' (writeIdxCached_ s))) →
  wp (on_mem (load Popper writeIdx acquire k)) Q s.
Proof.
  intros [Hr Hf Hp Hc Hca] HQ. apply wp_on_mem. eapply wp_mono; [by apply (other_write_load _ _ _ _ _ _ Hr)|].
  intros w m' (cw' & -> & Hle & Hr' & Hm). apply HQ. split; cbn; try done.
  - by eapply push_ok_frame.
  - destruct (popping s); cbn in *; naive_solver lia.
  - intros ->. split; [by apply Hca|done].
Qed.

Lemma rb_push_ok s val k :
  wsafe false s → wp (rb_push_step cap source_orders val k) (λ _ s', wsafe false s') s.
Proof.
  intros (cr & cw & Hi). apply wp_get_bind. pose proof (wi_push _ _ _ _ Hi) as Hp.
  pose proof (push_end_ok _ _ _ _ Hi) as Hend.
  destruct (pushing s) as [|v w|v w|v w] eqn:Hpp; try exact Hend; apply wp_bind.
  - eapply push_loads; [done|]. intros m' s' [Hr Hf _ Hc Hca]. apply wp_modify. by exists cr, cw.
  - eapply push_reloads; [done|]. intros m' cr' s' Hi'. cbn in Hi'.
    by apply (push_checked false _ cr' cw v w _ false).
Qed.

Lemma rb_pop_ok s k :
  wsafe false s → wp (rb_pop_step cap source_orders k) (λ _ s', wsafe false s') s.
Proof.
  intros (cr & cw & Hi). apply wp_get_bind. pose proof (wi_pop _ _ _ _ Hi) as Hp.
  pose proof (pop_end_ok _ _ _ _ Hi) as Hend.
  destruct (popping s) as [|r|r|r v] eqn:Hpp; try exact Hend; apply wp_bind.
  - eapply pop_loads; [done|]. intros m' s' [Hr Hf Hp' _ Hca]. apply wp_modify. by exists cr, cw.
  - eapply pop_reloads; [done|]. intros m' cw' s' Hi'. cbn in Hi'.
    by apply (pop_checked false _ cr cw' r _ false).
Qed.

Lemma rb2_push_ok s val k :
  wsafe true s → wp (rb2_push_step cap source_orders val k) (λ _ s', wsafe true s') s.
Proof.
  intros (cr & cw & Hi). apply wp_get_bind. pose proof (wi_push _ _ _ _ Hi) as Hp.
  pose proof (push_end_ok _ _ _ _ Hi) as Hend. destruct (wi_cached _ _ _ _ Hi eq_refl) as [Hrc _].
  destruct (pushing s) as [|v w|v w|v w] eqn:Hpp; try exact Hend; apply wp_bind.
  - eapply push_loads; [done|]. intros m' s' Hi'. by apply (push_checked true s' cr cw val _ _ true).
  - eapply push_reloads; [done|]. intros m' cr' s' Hi'. apply wp_bind, wp_modify.
    by apply (push_checked true (s' _) cr' cw v w _ false).
Qed.

Lemma rb2_pop_ok s k :
  wsafe true s → wp (rb2_pop_step cap source_orders k) (λ _ s', wsafe true s') s.
Proof.
  intros (cr & cw & Hi). apply wp_get_bind. pose proof (wi_pop _ _ _ _ Hi) as Hp.
  pose proof (pop_end_ok _ _ _ _ Hi) as Hend. destruct (wi_cached _ _ _ _ Hi eq_refl) as [_ Hwc].
  destruct (popping s) as [|r|r|r v] eqn:Hpp; try exact Hend; apply wp_bind.
  - eapply pop_loads; [done|]. intros m' s' Hi'. by apply (pop_checked true s' cr cw _ _ true).
  - eapply pop_reloads; [done|]. intros m' cw' s' Hi'. apply wp_bind, wp_modify.
    by apply (pop_checked true (s' _) cr cw' r _ false).
Qed.

Lemma wrun_ok c ls : ∀ s, wsafe c s → wp (wrun cap source_orders c ls) (λ _ s', wsafe c s') s.
Proof.
  induction ls as [|l ls IH]; intros s Hs; cbn [wrun]; [by apply wp_ret|].
  apply wp_bind. apply (wp_mono _ (λ _ s', wsafe c s')); [|intros [] s'; apply IH].
  destruct l, c; cbn [wstep];
    auto using rb_push_ok, rb_pop_ok, rb2_push_ok, rb2_pop_ok.
Qed.

Lemma wstart_safe c : wsafe c (wstart cap).
Proof. exists 0%nat, 0%nat. split; cbn; try done. apply wring_init. lia. Qed.
End safety.

(** ** Properties *)

(** C20: both ring buffers, under the memory model of C++ and the orders of the source: in every
    interleaving of one producer and one consumer, and whichever of the values allowed the loads
    return, there is no data race, no access leaves the buffer, what has been popped is in order
    a prefix of what has been pushed, and at most [cap - 1] values are in flight. *)
Theorem ringbuffers_weak_memory_safe cap cached sched :
  0 < cap < 2 ^ 64 →
  ∃ s, wrun cap source_orders cached sched (wstart cap) = Ok tt s ∧
    recd s `prefix_of` sent s ∧ Z.of_nat (length (sent s) - length (recd s)) ≤ cap - 1.
Proof.
  intros Hcap. destruct (proj1 (wp_run _ _ _) (wrun_ok cap Hcap cached sched _ (wstart_safe cap Hcap cached)))
    as ([] & s & Hrun & cr & cw & Hi).
  exists s. split; [done|]. split; [apply Hi|].
  pose proof (wr_order _ _ _ _ _ _ (wi_ring _ _ _ _ _ Hi)).
  pose proof (wr_count _ _ _ _ _ _ (wi_ring _ _ _ _ _ Hi)). lia.
Qed.

(** Values go through a buffer of two slots, one call after the other, each load up to date. *)
Definition three_values : list label :=
  let push v := replicate 4 (Push v 9) in let pop := replicate 4 (Pop 9) in
  push 5 ++ pop ++ push 6 ++ pop ++ push 7 ++ pop.

(** None of the four orders may be weakened: with any of them relaxed, this run has a data race on
    a slot. *)
Lemma orders_needed cached (pl ps ql qs : bool) :
  let o := Orders (if pl then acquire else relaxed) (if ps then release else relaxed)
                  (if ql then acquire else relaxed) (if qs then release else relaxed) in
  wrun 2 o cached three_values (wstart 2) = UB (ub_data_race 0) ↔ pl && ps && ql && qs = false.
Proof. split; destruct cached, pl, ps, ql, qs; vm_compute; done. Qed.

(** ** Witnesses *)

(** The same run with the orders of the source, and one in which the loads are stale. *)
Definition stale_loads : list label :=
  let push v k := replicate 4 (Push v k) in let pop k := replicate 4 (Pop k) in
  push 5 0%nat ++ push 6 0%nat ++ pop 0%nat ++ pop 2%nat ++ pop 0%nat ++ push 7 0%nat ++ push 8 1%nat ++
  pop 1%nat.

Lemma ringbuffers_weak_memory_safe_witness :
  (∃ s, wrun 2 source_orders true three_values (wstart 2) = Ok tt s ∧
     recd s `prefix_of` sent s ∧ Z.of_nat (length (sent s) - length (recd s)) ≤ 1) ∧
  (∃ s, wrun 3 source_orders false stale_loads (wstart 3) = Ok tt s ∧
     recd s `prefix_of` sent s ∧ Z.of_nat (length (sent s) - length (recd s)) ≤ 2).
Proof. split; apply ringbuffers_weak_memory_safe; lia. Defined.
