(* ===== verification/IpcWeak.v ===== *)
(** class Circular_queue of src/spike/ipc_circular_queue.cpp on the memory model of C++: [front] and
    [rear] follow the protocol of the ring buffers ([RingWeak.wring]), but [size], which both
    enqueue and dequeue change, is a plain member without any ordering of its own.  The slots are
    safe; the counter is a data race as soon as both threads are at work. *)

From S2P Require Import Prelude Ring WeakMem RingWeak RingWeakProps.
Local Open Scope Z_scope.

(** ** The two threads *)

Inductive enqueue_pc : Type :=
| EIdle
| EFront (unid current_rear : Z)     (* rear loaded; to load front *)
| EWrite (unid current_rear : Z)     (* not full *)
| EPublish (unid current_rear : Z)   (* the slot is written *)
| ESize                              (* size++: to read it *)
| ESizeSet (size : Z).               (* and to write it *)

Inductive dequeue_pc : Type :=
| DIdle
| DRear (current_front : Z)          (* front loaded; to load rear *)
| DRead (current_front : Z)          (* not empty *)
| DRelease (current_front unid : Z)
| DSize
| DSizeSet (size : Z).

Record qsys := QSys {
  qm : mem;
  enq : enqueue_pc;
  deq : dequeue_pc;
  enqueued : list Z;
  dequeued : list Z
}.

Definition on_qmem {B} (c : M mem B) : M qsys B := λ s,
  match c (qm s) with
  | Ok b m => Ok b (QSys m (enq s) (deq s) (enqueued s) (dequeued s))
  | Throw e m => Throw e (QSys m (enq s) (deq s) (enqueued s) (dequeued s))
  | UB u => UB u
  | OutOfFuel => OutOfFuel
  end.

Definition goto_enq (p : enqueue_pc) : M qsys unit :=
  modify (λ s, QSys (qm s) p (deq s) (enqueued s) (dequeued s)).
Definition goto_deq (p : dequeue_pc) : M qsys unit :=
  modify (λ s, QSys (qm s) (enq s) p (enqueued s) (dequeued s)).
Definition add_enqueued (v : Z) : M qsys unit :=
  modify (λ s, QSys (qm s) (enq s) (deq s) (enqueued s ++ [v]) (dequeued s)).
Definition add_dequeued (v : Z) : M qsys unit :=
  modify (λ s, QSys (qm s) (enq s) (deq s) (enqueued s) (dequeued s ++ [v])).

(** The slots are the objects 0, 1, ...; [size] is another one. *)
Definition size_loc : Z := -1.

Section threads.
Context (capacity : Z).

(** increment(index), in std::uint32_t. *)
Definition wincrement (index : Z) : Z := u32 (index + 1) `mod` capacity.

Definition enqueue_step (unid : Z) (k : nat) : M qsys unit :=
  s ← get;
  match enq s with
  | EIdle => w ← on_qmem (load Pusher writeIdx relaxed k); goto_enq (EFront unid w)
  | EFront unid w =>
      f ← on_qmem (load Pusher readIdx acquire k);
      if negb (wincrement w =? f) then goto_enq (EWrite unid w)
      else goto_enq EIdle                                       (* throws overflow *)
  | EWrite unid w =>
      if negb (in_data capacity w) then undefined (ub_index w) else
      on_qmem (plain_write Pusher w unid);; goto_enq (EPublish unid w)
  | EPublish unid w =>
      on_qmem (store Pusher writeIdx release (wincrement w));;
      add_enqueued unid;; goto_enq ESize
  | ESize => n ← on_qmem (plain_read Pusher size_loc); goto_enq (ESizeSet n)
  | ESizeSet n => on_qmem (plain_write Pusher size_loc (u32 (n + 1)));; goto_enq EIdle
  end.

Definition dequeue_step (k : nat) : M qsys unit :=
  s ← get;
  match deq s with
  | DIdle => f ← on_qmem (load Popper readIdx relaxed k); goto_deq (DRear f)
  | DRear f =>
      w ← on_qmem (load Popper writeIdx acquire k);
      if f =? w then goto_deq DIdle                             (* returns false *)
      else goto_deq (DRead f)
  | DRead f =>
      if negb (in_data capacity f) then undefined (ub_index f) else
      unid ← on_qmem (plain_read Popper f); goto_deq (DRelease f unid)
  | DRelease f unid =>
      on_qmem (store Popper readIdx release (wincrement f));;
      add_dequeued unid;; goto_deq DSize
  | DSize => n ← on_qmem (plain_read Popper size_loc); goto_deq (DSizeSet n)
  | DSizeSet n => on_qmem (plain_write Popper size_loc (u32 (n - 1)));; goto_deq DIdle
  end.

Definition qstep (l : label) : M qsys unit :=
  match l with Push unid k => enqueue_step unid k | Pop k => dequeue_step k end.

Fixpoint qrun (ls : list label) : M qsys unit :=
  match ls with
  | [] => mret tt
  | l :: ls' => qstep l;; qrun ls'
  end.
End threads.

(** The constructed queue: memset has cleared [capacity] bytes of the slots. *)
Definition qstart (capacity : Z) : qsys :=
  QSys (wmem_init (λ _, 0) (λ n, if n =? size_loc then Some 0
                                 else if in_data (capacity `div` 8) n then Some 0 else None))
       EIdle DIdle [] [].

(** ** Safe, or a race on the counter *)

Definition or_race {A} (c : M qsys A) (Q : A → qsys → Prop) (s : qsys) : Prop :=
  match c s with
  | Ok a s' => Q a s'
  | UB (ub_data_race n) => n = size_loc
  | _ => False
  end.

Lemma or_race_wp {A} (c : M qsys A) Q s : wp c Q s → or_race c Q s.
Proof. unfold wp, or_race. by destruct (c s). Qed.

Lemma or_race_bind {A B} (c : M qsys A) (f : A → M qsys B) Q s :
  or_race c (λ a, or_race (f a) Q) s → or_race (c ≫= f) Q s.
Proof. unfold or_race at 1 3, mbind, M_bind. by destruct (c s). Qed.

Lemma or_race_mono {A} (c : M qsys A) (Q Q' : A → qsys → Prop) s :
  or_race c Q s → (∀ a s', Q a s' → Q' a s') → or_race c Q' s.
Proof. unfold or_race. destruct (c s) as [| |[]|]; auto. Qed.

Lemma or_race_get {A} (f : qsys → M qsys A) Q s : or_race (f s) Q s → or_race (get ≫= f) Q s.
Proof. done. Qed.

Lemma wp_on_qmem {B} (c : M mem B) Q s :
  wp c (λ b m, Q b (QSys m (enq s) (deq s) (enqueued s) (dequeued s))) (qm s) → wp (on_qmem c) Q s.
Proof. unfold wp, on_qmem. by destruct (c (qm s)). Qed.

(** What an access to the counter does, when it does not race. *)
Definition counter_step (m m' : mem) : Prop :=
  hist m' = hist m ∧ views m' = views m ∧
  (∀ i, i ≠ size_loc → cells m' i = cells m i) ∧ is_Some (c_val (cells m' size_loc)).

Lemma counter_read t s (Q : Z → qsys → Prop) :
  is_Some (c_val (cells (qm s) size_loc)) →
  (∀ n m', counter_step (qm s) m' → Q n (QSys m' (enq s) (deq s) (enqueued s) (dequeued s))) →
  or_race (on_qmem (plain_read t size_loc)) Q s.
Proof.
  intros [n Hn] HQ. unfold or_race, on_qmem, plain_read. rewrite get_bind.
  destruct (happened _ _); [|done]. cbn [negb]. rewrite Hn, bind_run. apply HQ.
  split_and!; [done|done| |]; cbn [cells].
  - intros i Hi. by rewrite fn_lookup_insert_ne.
  - by rewrite fn_lookup_insert.
Qed.

Lemma counter_write t z s (Q : unit → qsys → Prop) :
  (∀ m', counter_step (qm s) m' → Q tt (QSys m' (enq s) (deq s) (enqueued s) (dequeued s))) →
  or_race (on_qmem (plain_write t size_loc z)) Q s.
Proof.
  intros HQ. unfold or_race, on_qmem, plain_write. rewrite get_bind.
  destruct (happened _ _ && happened _ _); [|done]. apply HQ.
  split_and!; [done|done| |]; cbn [cells].
  - intros i Hi. by rewrite fn_lookup_insert_ne.
  - by rewrite fn_lookup_insert.
Qed.

Section safety.
Context (cap : Z) (Hcap : 0 < cap < 2 ^ 32).

Lemma wincrement_slot k : wincrement cap (slot cap k) = slot cap (S k).
Proof.
  pose proof (slot_range cap ltac:(lia) k). unfold wincrement. rewrite uwrap_small by lia.
  by rewrite slot_S.
Qed.

Definition enq_ok (m : mem) (np cr : nat) (p : enqueue_pc) : Prop :=
  let room := Z.of_nat (np - cr) < cap - 1 in
  match p with
  | EFront _ w => w = slot cap np
  | EWrite _ w => w = slot cap np ∧ room
  | EPublish v w => w = slot cap np ∧ room ∧ staged cap m np v
  | _ => True
  end.

Definition deq_ok (sent : list Z) (nr cw : nat) (p : dequeue_pc) : Prop :=
  match p with
  | DRear f => f = slot cap nr
  | DRead f => f = slot cap nr ∧ (nr < cw)%nat
  | DRelease f v => f = slot cap nr ∧ (nr < cw)%nat ∧ sent !! nr = Some v
  | _ => True
  end.

Record qinv (s : qsys) (cr cw : nat) : Prop := {
  qi_ring : wring cap (qm s) (enqueued s) (length (dequeued s)) cr cw;
  qi_fifo : dequeued s `prefix_of` enqueued s;
  qi_enq : enq_ok (qm s) (length (enqueued s)) cr (enq s);
  qi_deq : deq_ok (enqueued s) (length (dequeued s)) cw (deq s);
  qi_size : is_Some (c_val (cells (qm s) size_loc))
}.

Definition qsafe (s : qsys) : Prop := ∃ cr cw, qinv s cr cw.

Lemma enq_ok_frame m m' np cr cr' p :
  enq_ok m np cr p → (∀ i, 0 ≤ i < cap → c_val (cells m' i) = c_val (cells m i)) →
  (cr ≤ cr')%nat → enq_ok m' np cr' p.
Proof.
  intros Hp Hm Hle. pose proof (slot_range cap ltac:(lia) np).
  destruct p; cbn in *; unfold staged in *; rewrite ?Hm by done; naive_solver lia.
Qed.

Lemma slot_not_size k : size_loc ≠ slot cap k.
Proof. pose proof (slot_range cap ltac:(lia) k). unfold size_loc. lia. Qed.

Lemma wcounter m m' sent nr cr cw p :
  counter_step m m' → wring cap m sent nr cr cw → enq_ok m (length sent) cr p →
  wring cap m' sent nr cr cw ∧ enq_ok m' (length sent) cr p.
Proof.
  intros (Hh & Hv & Hc & _) Hr Hp. assert (∀ i, 0 ≤ i < cap → cells m' i = cells m i) as Hc'.
  { intros i Hi. apply Hc. unfold size_loc. lia. }
  split; [by eapply wring_other|]. eapply enq_ok_frame; [done| |done].
  intros i Hi. by rewrite Hc'.
Qed.

Lemma enqueue_ok s unid k :
  qsafe s → or_race (enqueue_step cap unid k) (λ _ s', qsafe s') s.
Proof.
  intros (cr & cw & [Hr Hf Hp Hc Hz]). destruct s as [m pp qq hs out].
  cbn [qm enq deq enqueued dequeued] in *. apply or_race_get.
  destruct pp as [|v w|v w|v w| |n]; cbn [enq enq_ok] in *.
  - apply or_race_wp, wp_bind, wp_on_qmem. eapply wp_mono; [by apply (own_write_load _ _ _ _ _ _ Hr)|].
    intros w m' (-> & Hr' & Hm). apply wp_modify. exists cr, cw. split; cbn; rewrite ?Hm; done.
  - subst w. apply or_race_wp, wp_bind, wp_on_qmem.
    eapply wp_mono; [by apply (other_read_load _ _ _ _ _ _ Hr)|].
    intros f m' (cr' & -> & Hle & Hr' & Hm). rewrite wincrement_slot.
    destruct (Z.eqb_spec (slot cap (S (length hs))) (slot cap cr')) as [Heq|Hne]; cbn [negb];
      apply wp_modify; exists cr', cw; (split; cbn; rewrite ?Hm; try done).
    split; [done|]. eapply full_test; [lia|done|done].
  - destruct Hp as [-> Hroom]. rewrite in_data_slot by lia. apply or_race_wp, wp_bind, wp_on_qmem.
    eapply wp_mono; [by apply (write_slot cap m hs _ cr cw Hr)|].
    intros [] m' (Hr' & Hst & Hm). apply wp_modify. exists cr, cw. split; cbn; try done.
    rewrite Hm; [done|apply slot_not_size].
  - destruct Hp as (-> & Hroom & Hst). rewrite wincrement_slot. apply or_race_wp, wp_bind, wp_on_qmem.
    eapply wp_mono; [by apply (publish cap m hs _ cr cw Hr v)|].
    intros [] m' [Hr' Hm]. apply wp_bind, wp_modify, wp_modify. exists cr, cw.
    split; cbn; [done|by apply prefix_app_r|done| |by rewrite Hm].
    destruct qq; cbn in *; naive_solver eauto using lookup_app_l_Some.
  - apply or_race_bind, counter_read; [done|]. intros n m' Hst. apply or_race_wp, wp_modify.
    destruct (wcounter _ _ _ _ _ _ ESize Hst Hr) as [Hr' _]; [done|].
    exists cr, cw. split; cbn; try done. apply Hst.
  - apply or_race_bind, counter_write. intros m' Hst. apply or_race_wp, wp_modify.
    destruct (wcounter _ _ _ _ _ _ ESize Hst Hr) as [Hr' _]; [done|].
    exists cr, cw. split; cbn; try done. apply Hst.
Qed.

Lemma dequeue_ok s k :
  qsafe s → or_race (dequeue_step cap k) (λ _ s', qsafe s') s.
Proof.
  intros (cr & cw & [Hr Hf Hp Hc Hz]). destruct s as [m pp qq hs out].
  cbn [qm enq deq enqueued dequeued] in *. apply or_race_get.
  destruct qq as [|f|f|f v| |n]; cbn [deq deq_ok] in *.
  - apply or_race_wp, wp_bind, wp_on_qmem. eapply wp_mono; [by apply (own_read_load _ _ _ _ _ _ Hr)|].
    intros f m' (-> & Hr' & Hm). apply wp_modify. exists cr, cw. split; cbn; rewrite ?Hm; try done.
    eapply enq_ok_frame; [done|by rewrite Hm|done].
  - subst f. apply or_race_wp, wp_bind, wp_on_qmem.
    eapply wp_mono; [by apply (other_write_load _ _ _ _ _ _ Hr)|].
    intros w m' (cw' & -> & Hle & Hr' & Hm).
    assert (enq_ok m' (length hs) cr pp) by (eapply enq_ok_frame; [done|by rewrite Hm|done]).
    destruct (Z.eqb_spec (slot cap (length out)) (slot cap cw')) as [Heq|Hne];
      apply wp_modify; exists cr, cw'; (split; cbn; rewrite ?Hm; try done).
    split; [done|]. by eapply empty_test.
  - destruct Hc as [-> Hlt]. rewrite in_data_slot by lia.
    destruct (RingWeak.read_slot cap m hs _ cr cw Hr Hlt) as (v & Hv & Hread).
    apply or_race_wp, wp_bind, wp_on_qmem. eapply wp_mono; [exact Hread|].
    intros u m' (-> & Hr' & Hm). apply wp_modify. exists cr, cw. split; cbn; rewrite ?Hm; try done.
    by eapply enq_ok_frame; [|intros; apply Hm|].
  - destruct Hc as (-> & Hlt & Hv). rewrite wincrement_slot. apply or_race_wp, wp_bind, wp_on_qmem.
    eapply wp_mono; [by apply (give_back cap m hs _ cr cw Hr)|].
    intros [] m' [Hr' Hm]. apply wp_bind, wp_modify, wp_modify. exists cr, cw.
    split; cbn; rewrite ?length_app, ?Nat.add_1_r, ?Hm; [done| | |done|done].
    + by apply prefix_snoc_lookup.
    + eapply enq_ok_frame; [done|by rewrite Hm|done].
  - apply or_race_bind, counter_read; [done|]. intros n m' Hst. apply or_race_wp, wp_modify.
    destruct (wcounter _ _ _ _ _ _ pp Hst Hr) as [Hr' Hp']; [done|].
    exists cr, cw. split; cbn; try done. apply Hst.
  - apply or_race_bind, counter_write. intros m' Hst. apply or_race_wp, wp_modify.
    destruct (wcounter _ _ _ _ _ _ pp Hst Hr) as [Hr' Hp']; [done|].
    exists cr, cw. split; cbn; try done. apply Hst.
Qed.

Lemma qrun_ok ls : ∀ s, qsafe s → or_race (qrun cap ls) (λ _ s', qsafe s') s.
Proof.
  induction ls as [|l ls IH]; intros s Hs; cbn [qrun]; [by apply or_race_wp, wp_ret|].
  apply or_race_bind. apply (or_race_mono _ (λ _ s', qsafe s')); [|intros [] s'; apply IH].
  destruct l; [by apply enqueue_ok|by apply dequeue_ok].
Qed.

Lemma qstart_safe : qsafe (qstart cap).
Proof. exists 0%nat, 0%nat. split; cbn; try done. apply wring_init. lia. Qed.
End safety.

(** ** Properties *)

(** C18: on the memory model of C++, whatever the interleaving of one producer and one consumer and
    whichever of the allowed values the loads return, the only undefined behaviour of the queue
    is the data race on its member size: until then the values taken are in order a prefix of
    the values put in, at most [cap - 1] are in flight, and no slot is read before it is written
    or races. *)
Theorem ipc_queue_weak_memory cap sched :
  0 < cap < 2 ^ 32 →
  match qrun cap sched (qstart cap) with
  | Ok _ s => dequeued s `prefix_of` enqueued s ∧
              Z.of_nat (length (enqueued s) - length (dequeued s)) ≤ cap - 1
  | UB u => u = ub_data_race size_loc
  | _ => False
  end.
Proof.
  intros Hcap. pose proof (qrun_ok cap Hcap sched _ (qstart_safe cap Hcap)) as Hrun.
  unfold or_race in Hrun. destruct (qrun cap sched (qstart cap)) as [a s| |u|]; [|done| |done].
  - destruct Hrun as (cr & cw & Hi). split; [apply Hi|].
    pose proof (wr_order _ _ _ _ _ _ (qi_ring _ _ _ _ Hi)).
    pose proof (wr_count _ _ _ _ _ _ (qi_ring _ _ _ _ Hi)). lia.
  - by destruct u; subst.
Qed.

(** The race is there as soon as both threads have done one operation: the consumer's size-- is
    not ordered after the producer's size++, which follows the store of rear. *)
Lemma ipc_queue_size_data_race unid :
  qrun 2 (replicate 6 (Push unid 0) ++ replicate 5 (Pop 1)) (qstart 2) = UB (ub_data_race size_loc).
Proof. vm_compute. done. Qed.

(** ** Witness *)

(** The producer alone, and a consumer that has not yet reached the counter. *)
Definition one_value : list label := replicate 6 (Push 7 0) ++ replicate 4 (Pop 1).

Lemma ipc_queue_weak_memory_witness :
  (if qrun 2 one_value (qstart 2) is Ok _ s then (enqueued s, dequeued s) else ([], [])) = ([7], [7]) ∧
  match qrun 2 one_value (qstart 2) with
  | Ok _ s => dequeued s `prefix_of` enqueued s ∧
              Z.of_nat (length (enqueued s) - length (dequeued s)) ≤ 1
  | UB u => u = ub_data_race size_loc
  | _ => False
  end.
Proof. split; [vm_compute; reflexivity|apply (ipc_queue_weak_memory 2 one_value); lia]. Defined.
