(* ===== verification/RingBench.v ===== *)
(** The benchmark of src/spike/ipc_ringbuffer.cpp: [bench<ringbuffer>], a producer (main's thread)
    that pushes 0, 1, 2, ... and then waits until the buffer is empty, and a consumer that pops
    and compares.  Both retry a call that returns false.  The threads are interleaved by their
    accesses to the members of the buffer; an exception that leaves the consumer's thread ends
    the program.  Pinning the threads and the clock have no effect on this state. *)

From S2P Require Import Prelude Fair Ring RingBuffer RingBufferProps.
Local Open Scope Z_scope.

(** ** The two threads *)

Inductive producer_pc : Type :=
| BPush                      (* calls push(i) *)
| BWrite (w : Z)             (* there is room: write the slot *)
| BPublish (w : Z)           (* store writeIdx_ *)
| BDrain                     (* while (readIdx_ != writeIdx_) *)
| BJoin.

Inductive consumer_pc : Type :=
| BPop
| BRead (r : Z)
| BRelease (r val : Z)       (* store readIdx_, then compare *)
| BExit.

Inductive bstatus : Type := BRunning | BReturned | BTerminated | BUndefined.

Record bsys := BSys {
  q : ringbuffer;
  pi : Z;                    (* the producer's i *)
  ppc : producer_pc;
  ci : Z;                    (* the consumer's i *)
  cpc : consumer_pc;
  bstat : bstatus
}.

Inductive who : Type := Main | Thread.

Section bench.
Context (iters : Z).

(** The test of the for loops. *)
Definition producer_at (i : Z) : producer_pc := if i <? iters then BPush else BDrain.
Definition consumer_at (i : Z) : consumer_pc := if i <? iters then BPop else BExit.

Definition main_turn (s : bsys) : bsys :=
  let b := q s in
  match ppc s with
  | BPush =>
      if nextIdx (rb_data_ b) (rb_writeIdx_ b) =? rb_readIdx_ b
      then s                                                           (* push returns false *)
      else BSys b (pi s) (BWrite (rb_writeIdx_ b)) (ci s) (cpc s) BRunning
  | BWrite w =>
      if (0 <=? w) && (w <? Z.of_nat (length (rb_data_ b)))
      then BSys (RB (<[Z.to_nat w:=pi s]> (rb_data_ b)) (rb_readIdx_ b) (rb_writeIdx_ b))
                (pi s) (BPublish w) (ci s) (cpc s) BRunning
      else BSys b (pi s) (ppc s) (ci s) (cpc s) BUndefined
  | BPublish w =>
      BSys (RB (rb_data_ b) (rb_readIdx_ b) (nextIdx (rb_data_ b) w))
           (pi s + 1) (producer_at (pi s + 1)) (ci s) (cpc s) BRunning
  | BDrain =>
      if rb_readIdx_ b =? rb_writeIdx_ b
      then BSys b (pi s) BJoin (ci s) (cpc s) BRunning
      else s
  | BJoin =>
      match cpc s with
      | BExit => BSys b (pi s) BJoin (ci s) (cpc s) BReturned
      | _ => s
      end
  end.

Definition thread_turn (s : bsys) : bsys :=
  let b := q s in
  match cpc s with
  | BPop =>
      if rb_readIdx_ b =? rb_writeIdx_ b
      then s                                                           (* pop returns false *)
      else BSys b (pi s) (ppc s) (ci s) (BRead (rb_readIdx_ b)) BRunning
  | BRead r =>
      match rb_data_ b !! Z.to_nat r with
      | Some v => BSys b (pi s) (ppc s) (ci s) (BRelease r v) BRunning
      | None => BSys b (pi s) (ppc s) (ci s) (cpc s) BUndefined
      end
  | BRelease r val =>
      let b' := RB (rb_data_ b) (nextIdx (rb_data_ b) r) (rb_writeIdx_ b) in
      if val =? ci s
      then BSys b' (pi s) (ppc s) (ci s + 1) (consumer_at (ci s + 1)) BRunning
      else BSys b' (pi s) (ppc s) (ci s) (cpc s) BTerminated           (* throw *)
  | BExit => s
  end.

Definition bench_step (t : who) (s : bsys) : bsys :=
  match bstat s with
  | BRunning => match t with Main => main_turn s | Thread => thread_turn s end
  | _ => s
  end.

Definition bench_run (ts : list who) (s : bsys) : bsys := foldl (λ s t, bench_step t s) s ts.

Definition bench (queueSize : Z) : bsys :=
  BSys (rb_ctor queueSize) 0 (producer_at 0) 0 (consumer_at 0) BRunning.
End bench.

(** The constants of the source. *)
Definition bench_queueSize : Z := 100000.
Definition bench_iters : Z := 100000000.

(** ** The invariant *)

Section inv.
Context (cap : Z) (n : nat) (Hcap : 2 ≤ cap < 2 ^ 64).
Abbreviation iters := (Z.of_nat n).

(** [k] values pushed and [j] popped, of 0, 1, 2, ... *)
Definition producer_ok (s : bsys) (k j : nat) : Prop :=
  let room := Z.of_nat (k - j) < cap - 1 in
  match ppc s with
  | BPush => (k < n)%nat
  | BWrite w => (k < n)%nat ∧ w = rb_writeIdx_ (q s) ∧ room
  | BPublish w => (k < n)%nat ∧ w = rb_writeIdx_ (q s) ∧ room ∧
                  cells (rb_data_ (q s)) w = Some (Z.of_nat k)
  | BDrain | BJoin => k = n
  end.

Definition consumer_ok (s : bsys) (k j : nat) : Prop :=
  match cpc s with
  | BPop => (j < n)%nat
  | BRead r => (j < k)%nat ∧ r = rb_readIdx_ (q s)
  | BRelease r v => (j < k)%nat ∧ r = rb_readIdx_ (q s) ∧ v = Z.of_nat j
  | BExit => j = n
  end.

Record binv (s : bsys) (k j : nat) : Prop := {
  bi_stat : bstat s = BRunning;
  bi_pi : pi s = Z.of_nat k ∧ (k ≤ n)%nat;
  bi_ci : ci s = Z.of_nat j;
  bi_ring : ring2 (uncached (q s)) cap (seqZ 0 (Z.of_nat k)) j j k;
  bi_prod : producer_ok s k j;
  bi_cons : consumer_ok s k j
}.

Lemma length_values k : length (seqZ 0 (Z.of_nat k)) = k.
Proof. rewrite length_seqZ. lia. Qed.

(** What is still to be done, in successful accesses. *)
Definition producer_left (s : bsys) (k : nat) : nat :=
  match ppc s with
  | BPush => 3 * (n - k) + 3
  | BWrite _ => 3 * (n - k) + 2
  | BPublish _ => 3 * (n - k) + 1
  | BDrain => 2
  | BJoin => 1
  end.

Definition consumer_left (s : bsys) (j : nat) : nat :=
  match cpc s with
  | BPop => 3 * (n - j)
  | BRead _ => 3 * (n - j) - 1
  | BRelease _ _ => 3 * (n - j) - 2
  | BExit => 0
  end.

Definition bench_left (s : bsys) : nat :=
  producer_left s (Z.to_nat (pi s)) + consumer_left s (Z.to_nat (ci s)).

(** The consumer, unless it waits for a value or has finished. *)
Definition needed (s : bsys) : who :=
  match cpc s with
  | BExit => Main
  | BPop => if rb_readIdx_ (q s) =? rb_writeIdx_ (q s) then Main else Thread
  | _ => Thread
  end.

Definition running (s : bsys) : Prop := ∃ k j, binv s k j.
Definition returned (s : bsys) : Prop := bstat s = BReturned ∧ pi s = iters ∧ ci s = iters.
Abbreviation bench_advances := (advances returned running bench_left needed).

Lemma left_eq s k j : binv s k j → bench_left s = (producer_left s k + consumer_left s j)%nat.
Proof. intros [_ [Hp _] Hc _ _ _]. unfold bench_left. by rewrite Hp, Hc, !Nat2Z.id. Qed.

Lemma advance_to s t s' k j k' j' :
  binv s k j → binv s' k' j' →
  (producer_left s' k' + consumer_left s' j' < producer_left s k + consumer_left s j)%nat →
  bench_advances s t s'.
Proof.
  intros Hi Hi' Hlt. right. split; [by exists k', j'|left].
  by rewrite (left_eq _ _ _ Hi), (left_eq _ _ _ Hi').
Qed.

Lemma stay s t : running s → t ≠ needed s → bench_advances s t s.
Proof. intros Hs Ht. right. split; [done|by right]. Qed.

Lemma buffer_empty s k j : binv s k j → (rb_readIdx_ (q s) =? rb_writeIdx_ (q s)) = bool_decide (j = k).
Proof.
  intros Hi. pose proof (r2_empty _ _ _ _ _ _ (bi_ring _ _ _ Hi)) as He. rewrite length_values in He.
  cbn [uncached readIdx_ writeIdx_] in He. rewrite Z_eqb_decide. by apply bool_decide_ext.
Qed.

Lemma buffer_full s k j :
  binv s k j →
  (nextIdx (rb_data_ (q s)) (rb_writeIdx_ (q s)) =? rb_readIdx_ (q s)) =
    bool_decide (Z.of_nat (k - j) = cap - 1).
Proof.
  intros Hi. pose proof (r2_full _ _ _ _ _ _ (bi_ring _ _ _ Hi)) as He. rewrite length_values in He.
  cbn [uncached data_ readIdx_ writeIdx_] in He. rewrite Z_eqb_decide. by apply bool_decide_ext.
Qed.

Lemma counts s k j : binv s k j → (j ≤ k ≤ n)%nat ∧ Z.of_nat (k - j) ≤ cap - 1.
Proof.
  intros Hi. pose proof (r2_order _ _ _ _ _ _ (bi_ring _ _ _ Hi)).
  pose proof (r2_count _ _ _ _ _ _ (bi_ring _ _ _ Hi)) as Hc. rewrite length_values in *.
  pose proof (bi_pi _ _ _ Hi). lia.
Qed.

(** While a value is in the buffer, it is the consumer's turn that is needed. *)
Lemma needed_thread s k j : binv s k j → (j < k)%nat → needed s = Thread.
Proof.
  intros Hi Hlt. pose proof (counts _ _ _ Hi). pose proof (bi_cons _ _ _ Hi) as Hc.
  unfold needed, consumer_ok in *. destruct (cpc s); try done; [|lia].
  rewrite (buffer_empty _ _ _ Hi), bool_decide_false by lia. done.
Qed.

Lemma main_ok s k j : binv s k j → bench_advances s Main (main_turn iters s).
Proof.
  intros Hi. pose proof (counts _ _ _ Hi) as [Hord Hcount].
  assert (running s) as Hrun by (by exists k, j).
  pose proof Hi as [Hst [Hp Hkn] Hc Hr Hprod Hcons].
  pose proof (r2_bounds _ _ _ _ _ _ Hr) as [Hw _]. cbn [uncached data_ writeIdx_] in Hw.
  unfold main_turn. unfold producer_ok in Hprod. destruct (ppc s) as [|w|w| |] eqn:Hpc.
  - rewrite (buffer_full _ _ _ Hi). case_bool_decide as Hf.
    + apply stay; [done|]. rewrite (needed_thread _ _ _ Hi); [done|lia].
    + eapply (advance_to s Main _ k j k j Hi).
      * split; try done. cbn. split_and!; [done|done|lia].
      * unfold producer_left, consumer_left. rewrite Hpc. cbn -[Nat.mul]. lia.
  - destruct Hprod as (Hlt & -> & Hroom).
    rewrite (proj2 (Z.leb_le 0 _)), (proj2 (Z.ltb_lt _ _)) by lia. cbn [andb].
    destruct (r2_write_slot _ _ _ _ _ _ Hr (pi s)) as [Hr' Hcell].
    eapply (advance_to s Main _ k j k j Hi).
    + split; try done. cbn. split_and!; [done|done|done|]. rewrite <- Hp. exact Hcell.
    + unfold producer_left, consumer_left. rewrite Hpc. cbn -[Nat.mul]. lia.
  - destruct Hprod as (Hlt & -> & Hroom & Hcell).
    pose proof (r2_publish _ _ _ _ _ _ Hr (Z.of_nat k) Hcell) as Hr'.
    rewrite length_values in Hr'. specialize (Hr' Hroom).
    pose proof (r2_reload_write _ _ _ _ _ _ Hr') as Hr2. rewrite length_app, length_values in Hr2.
    pose proof (r2_next_write _ _ _ _ _ _ Hr) as Hn. rewrite length_values in Hn.
    cbn [uncached data_ writeIdx_] in Hn.
    assert (seqZ 0 (Z.of_nat k) ++ [Z.of_nat k] = seqZ 0 (Z.of_nat (S k))) as Hseq
      by (by rewrite seqZ_S).
    rewrite Hseq in Hr2. cbn in Hr2. rewrite Nat.add_1_r in Hr2. rewrite Hn.
    unfold producer_at. case_if; eapply (advance_to s Main _ k j (S k) j Hi).
    + split; try (done || (cbn; lia)). cbn. unfold consumer_ok in *. cbn. by destruct (cpc s); naive_solver lia.
    + unfold producer_left, consumer_left. rewrite Hpc. cbn -[Nat.mul]. lia.
    + split; try (done || (cbn; lia)). cbn. unfold consumer_ok in *. cbn. by destruct (cpc s); naive_solver lia.
    + unfold producer_left, consumer_left. rewrite Hpc. cbn -[Nat.mul]. lia.
  - rewrite (buffer_empty _ _ _ Hi). case_bool_decide as He.
    + eapply (advance_to s Main _ k j k j Hi); [by split|].
      unfold producer_left, consumer_left. rewrite Hpc. cbn -[Nat.mul]. lia.
    + apply stay; [done|]. rewrite (needed_thread _ _ _ Hi); [done|lia].
  - unfold consumer_ok in Hcons. destruct (cpc s) eqn:Hcp.
    1-3: apply stay; [done|]; rewrite (needed_thread _ _ _ Hi); [done|lia].
    left. split_and!; cbn; [done|lia|lia].
Qed.

Lemma thread_ok s k j : binv s k j → bench_advances s Thread (thread_turn iters s).
Proof.
  intros Hi. pose proof (counts _ _ _ Hi) as [Hord Hcount].
  assert (running s) as Hrun by (by exists k, j).
  pose proof Hi as [Hst [Hp Hkn] Hc Hr Hprod Hcons].
  unfold thread_turn. unfold consumer_ok in Hcons. destruct (cpc s) as [|r|r v|] eqn:Hpc.
  - rewrite (buffer_empty _ _ _ Hi). case_bool_decide as He.
    + apply stay; [done|]. unfold needed.
      by rewrite Hpc, (buffer_empty _ _ _ Hi), bool_decide_true.
    + eapply (advance_to s Thread _ k j k j Hi).
      * split; try done. cbn. split; [lia|done].
      * unfold producer_left, consumer_left. rewrite Hpc. cbn -[Nat.mul]. lia.
  - destruct Hcons as [Hlt ->].
    assert (rb_data_ (q s) !! Z.to_nat (rb_readIdx_ (q s)) = Some (Z.of_nat j)) as Hv.
    { apply (r2_value _ _ _ _ _ _ Hr). apply lookup_seqZ. lia. }
    rewrite Hv. eapply (advance_to s Thread _ k j k j Hi); [by split|].
    unfold producer_left, consumer_left. rewrite Hpc. cbn -[Nat.mul]. lia.
  - destruct Hcons as (Hlt & -> & ->). rewrite Hc, Z.eqb_refl.
    pose proof (r2_next_read _ _ _ _ _ _ Hr) as Hn. cbn [uncached data_ readIdx_] in Hn. rewrite Hn.
    pose proof (r2_reload_read _ _ _ _ _ _ (r2_release _ _ _ _ _ _ Hr Hlt)) as Hr'.
    unfold consumer_at. case_if; eapply (advance_to s Thread _ k j k (S j) Hi).
    + split; try (done || (cbn; lia)). unfold producer_ok in *. cbn. destruct (ppc s); naive_solver lia.
    + unfold producer_left, consumer_left. rewrite Hpc. cbn -[Nat.mul]. lia.
    + split; try (done || (cbn; lia)). unfold producer_ok in *. cbn. destruct (ppc s); naive_solver lia.
    + unfold producer_left, consumer_left. rewrite Hpc. cbn -[Nat.mul]. lia.
  - apply stay; [done|]. unfold needed. by rewrite Hpc.
Qed.

Lemma bench_advance s t : running s → bench_advances s t (bench_step iters t s).
Proof.
  intros (k & j & Hi). unfold bench_step. rewrite (bi_stat _ _ _ Hi).
  destruct t; [by eapply main_ok|by eapply thread_ok].
Qed.

Lemma returned_stable s t : returned s → returned (bench_step iters t s).
Proof. intros (Hs & ?). unfold bench_step. by rewrite Hs. Qed.

Lemma bench_start : running (bench iters cap).
Proof.
  exists 0%nat, 0%nat. split; try (done || (cbn; lia)).
  - apply rb2_new. lia.
  - unfold producer_ok. cbn [ppc bench]. unfold producer_at. destruct (Z.ltb_spec 0 iters); cbn; lia.
  - unfold consumer_ok. cbn [cpc bench]. unfold consumer_at. destruct (Z.ltb_spec 0 iters); cbn; lia.
Qed.

Lemma bench_start_left : (bench_left (bench iters cap) ≤ 6 * n + 3)%nat.
Proof.
  unfold bench_left, producer_left, consumer_left, bench, producer_at, consumer_at. cbn [pi ci ppc cpc].
  destruct (Z.ltb_spec 0 iters); cbn -[Nat.mul]; lia.
Qed.
End inv.

Lemma bench_safe cap n ts :
  2 ≤ cap < 2 ^ 64 →
  let s := bench_run (Z.of_nat n) ts (bench (Z.of_nat n) cap) in bstat s = BRunning ∨ returned n s.
Proof.
  intros Hcap. destruct (round_decreases (bench_step (Z.of_nat n)) (returned n) (returned_stable n)
    (running cap n) (bench_left n) needed (bench_advance cap n Hcap) ts _ (bench_start cap n Hcap))
    as [?|((k & j & Hi) & _)]; [by right|left]. apply Hi.
Qed.

(** ** Properties *)

(** C22: the benchmark of the ring buffer, with a queue of at least two slots: in no schedule of its
    two threads does the consumer see a value other than the next one (so it never throws), or
    does an access leave the buffer; and in every schedule that gives both threads turns, main
    returns, with all the values pushed and popped.  Each round of turns, one of each thread at
    least, completes an access of one of them; the buffer is never full for the one and empty for
    the other. *)
Theorem bench_terminates cap n :
  2 ≤ cap < 2 ^ 64 →
  (∀ ts, let s := bench_run (Z.of_nat n) ts (bench (Z.of_nat n) cap) in
     bstat s = BRunning ∨ (bstat s = BReturned ∧ pi s = Z.of_nat n ∧ ci s = Z.of_nat n)) ∧
  (∀ rounds, Forall (λ ts, Main ∈ ts ∧ Thread ∈ ts) rounds → (6 * n + 3 < length rounds)%nat →
     let s := bench_run (Z.of_nat n) (concat rounds) (bench (Z.of_nat n) cap) in
     bstat s = BReturned ∧ pi s = Z.of_nat n ∧ ci s = Z.of_nat n).
Proof.
  intros Hcap. split.
  - intros ts. by apply bench_safe.
  - intros rounds Hf Hlen. apply (rounds_end (bench_step (Z.of_nat n)) (returned n) (returned_stable n)
      (running cap n) (bench_left n) needed (bench_advance cap n Hcap)).
    + by apply bench_start.
    + pose proof (bench_start_left cap n). lia.
    + eapply Forall_impl; [exact Hf|]. intros ts [? ?] s' _. by destruct (needed s').
Qed.

(** With a single slot the buffer is full and empty at once, and neither thread ever moves. *)
Lemma bench_one_slot n ts :
  (0 < n)%nat → bench_run (Z.of_nat n) ts (bench (Z.of_nat n) 1) = bench (Z.of_nat n) 1.
Proof.
  intros Hn. induction ts as [|t ts IH]; [done|]. cbn [bench_run foldl].
  enough (bench_step (Z.of_nat n) t (bench (Z.of_nat n) 1) = bench (Z.of_nat n) 1) as -> by exact IH.
  unfold bench, producer_at, consumer_at. rewrite (proj2 (Z.ltb_lt _ _)) by lia. by destruct t.
Qed.

(** ** Witness *)

Lemma bench_terminates_witness :
  let s := bench_run 5 (concat (replicate 34 [Thread; Main; Main])) (bench 5 3) in
  bstat s = BReturned ∧ pi s = 5 ∧ ci s = 5.
Proof.
  apply (proj2 (bench_terminates 3 5 ltac:(lia))).
  - apply Forall_replicate. split; apply list_elem_of_In; cbn; auto.
  - rewrite length_replicate. lia.
Defined.
