(* ===== verification/UnidBlock.v ===== *)
(** The wire format of a block of unids: struct Unid_block with serialize() and
    deserialize() (src/spike/benchmark/serializers/unidserial.cpp), and the variadic
    concatenate_byte_arrays (src/spike/concatenate_arrays.cpp), which joins byte
    arrays the same way.

    The host is little-endian, as the source assumes: the bytes of an object are
    [le_bytes], and [std::byteswap] reverses them. *)

From S2P Require Import Prelude Bytes.
Local Open Scope Z_scope.

(** ** Standard library *)

(** [std::byteswap] of an unsigned integer of [n] bytes. *)
Definition byteswap (n : nat) (v : Z) : Z := le_value (rev (le_bytes n v)).

(** [std::bit_cast] of an unsigned integer to an array of its bytes. *)
Definition bit_cast (n : nat) (v : Z) : list Z := le_bytes n v.

(** [std::copy] into an array whose elements may have no value yet: the new position
    of the output iterator. *)
Fixpoint copy (src : list Z) (it : Z) : M (list (option Z)) Z :=
  match src with
  | [] => mret it
  | b :: src' =>
      r ← get;
      r' ← array_set r it (Some b);
      put r';;
      copy src' (it + 1)
  end.

(** [std::memcpy] of [n] bytes at [buf.data() + offset] into an unsigned object. *)
Definition memcpy_from (buf : list Z) (offset n : nat) : Z := le_value (take n (drop offset buf)).

(** ** struct Unid_block *)

Record Unid_block := UnidBlock {
  ip : Z;          (* uint32_t *)
  port : Z;        (* uint16_t *)
  seq : Z;         (* uint32_t *)
  node : Z;        (* uint32_t *)
  first_unid : Z;  (* uint64_t *)
  block_size : Z   (* uint32_t *)
}.

Definition ip_offset : nat := 0.
Definition port_offset : nat := 4.
Definition seq_offset : nat := port_offset + 2.
Definition node_offset : nat := seq_offset + 4.
Definition first_unid_offset : nat := node_offset + 4.
Definition block_size_offset : nat := first_unid_offset + 8.
Definition buf_size : nat := block_size_offset + 4.

(** The members in their types. *)
Definition block_ok (b : Unid_block) : Prop :=
  0 ≤ ip b < 2 ^ 32 ∧ 0 ≤ port b < 2 ^ 16 ∧ 0 ≤ seq b < 2 ^ 32 ∧
  0 ≤ node b < 2 ^ 32 ∧ 0 ≤ first_unid b < 2 ^ 64 ∧ 0 ≤ block_size b < 2 ^ 32.

(** The copies of serialize() into [result]. *)
Definition serialize_into (b : Unid_block) : M (list (option Z)) unit :=
  let ip_no := byteswap 4 (ip b) in
  let port_no := byteswap 2 (port b) in
  let seq_no := byteswap 4 (seq b) in
  let node_no := byteswap 4 (node b) in
  let first_unid_no := byteswap 8 (first_unid b) in
  let block_size_no := byteswap 4 (block_size b) in
  it ← copy (bit_cast 4 ip_no) 0;
  it ← copy (bit_cast 2 port_no) it;
  it ← copy (bit_cast 4 seq_no) it;
  it ← copy (bit_cast 4 node_no) it;
  it ← copy (bit_cast 8 first_unid_no) it;
  _ ← copy (bit_cast 4 block_size_no) it;
  mret tt.

Definition serialize (b : Unid_block) : outcome (list (option Z)) unit :=
  serialize_into b (replicate buf_size None).

Definition size_error : exn :=
  invalid_argument "deserialize() buf_size incorrect for struct Unid_block".

Definition deserialize (buf : list Z) : M Unid_block unit :=
  if negb (Nat.eqb (length buf) buf_size) then throw size_error else
  put (UnidBlock (memcpy_from buf ip_offset 4) (memcpy_from buf port_offset 2)
                 (memcpy_from buf seq_offset 4) (memcpy_from buf node_offset 4)
                 (memcpy_from buf first_unid_offset 8) (memcpy_from buf block_size_offset 4));;
  b ← get;
  put (UnidBlock (byteswap 4 (ip b)) (byteswap 2 (port b)) (byteswap 4 (seq b))
                 (byteswap 4 (node b)) (byteswap 8 (first_unid b)) (byteswap 4 (block_size b))).

(** One round of the benchmark loop: [buf = ub1.serialize(); ub2.deserialize(buf);] *)
Definition round (ub1 : Unid_block) : M Unid_block unit := λ ub2,
  match serialize ub1 with
  | Ok _ r => match mapM id r with
              | Some buf => deserialize buf ub2
              | None => UB (ub_indeterminate 0)
              end
  | Throw e _ => Throw e ub2
  | UB u => UB u
  | OutOfFuel => OutOfFuel
  end.

(** ** concatenate_byte_arrays *)

Definition sum_sizes (arrs : list (list Z)) : nat := foldr (λ a n, length a + n)%nat 0%nat arrs.

(** The fold over the comma operator: copy each array at the running offset. *)
Fixpoint copy_all (arrs : list (list Z)) (offset : Z) : M (list (option Z)) unit :=
  match arrs with
  | [] => mret tt
  | a :: arrs' => _ ← copy a offset; copy_all arrs' (offset + Z.of_nat (length a))
  end.

Definition concatenate_byte_arrays (arrs : list (list Z)) : outcome (list (option Z)) unit :=
  copy_all arrs 0 (replicate (sum_sizes arrs) None).

(** ** Lemmas *)

(** The bytes of an unsigned integer, most significant first. *)
Definition be_bytes (n : nat) (v : Z) : list Z := rev (le_bytes n v).

Lemma be_bytes_length n v : length (be_bytes n v) = n.
Proof. unfold be_bytes. by rewrite length_rev, le_bytes_length. Qed.

Lemma be_bytes_ok n v : Forall byte_ok (be_bytes n v).
Proof. apply Forall_rev, le_bytes_ok. Qed.

Lemma bit_cast_byteswap n v : bit_cast n (byteswap n v) = be_bytes n v.
Proof.
  unfold bit_cast, byteswap. fold (be_bytes n v).
  rewrite <- (be_bytes_length n v) at 1. apply le_bytes_value, be_bytes_ok.
Qed.

Lemma byteswap_be n v : 0 ≤ v < 256 ^ Z.of_nat n → byteswap n (le_value (be_bytes n v)) = v.
Proof.
  intros Hv. unfold byteswap.
  rewrite <- (be_bytes_length n v) at 1. rewrite le_bytes_value by apply be_bytes_ok.
  unfold be_bytes. rewrite rev_involutive. by apply le_value_bytes.
Qed.

(** Big-endian bytes of a swapped load give the bytes loaded. *)
Lemma be_byteswap bs :
  Forall byte_ok bs → be_bytes (length bs) (byteswap (length bs) (le_value bs)) = bs.
Proof.
  intros Hbs. unfold byteswap. rewrite le_bytes_value by done.
  unfold be_bytes. rewrite <- (length_rev bs) at 1.
  rewrite le_bytes_value by (by apply Forall_rev). apply rev_involutive.
Qed.

Lemma copy_run src : ∀ pre mid post it,
  length mid = length src → it = Z.of_nat (length pre) →
  copy src it (pre ++ mid ++ post) =
    Ok (it + Z.of_nat (length src)) (pre ++ (Some <$> src) ++ post).
Proof.
  induction src as [|b src IH]; intros pre mid post it Hlen ->; cbn [copy].
  - destruct mid; [|done]. cbn. by rewrite Z.add_0_r.
  - destruct mid as [|m mid]; [done|]. injection Hlen as Hlen. rewrite get_bind.
    erewrite bind_Ok by (apply array_set_run; rewrite length_app; cbn; lia).
    rewrite Nat2Z.id, insert_app_r_alt, Nat.sub_diag by lia. rewrite bind_run.
    change (put _ _) with (Ok (S := list (option Z)) tt (pre ++ Some b :: mid ++ post)). cbn match.
    rewrite (cons_middle (Some b)), app_assoc, (IH (pre ++ [Some b]) mid post) by
      (rewrite ?length_app; cbn; lia).
    rewrite <- app_assoc. f_equal. cbn [length]. lia.
Qed.

(** Writing the next array of a prefix already written. *)
Lemma copy_next (done src : list Z) n :
  (length src ≤ n)%nat →
  copy src (Z.of_nat (length done)) ((Some <$> done) ++ replicate n None) =
    Ok (Z.of_nat (length (done ++ src)))
       ((Some <$> (done ++ src)) ++ replicate (n - length src) None).
Proof.
  intros Hn. replace n with (length src + (n - length src))%nat at 1 by lia.
  rewrite replicate_add, (copy_run src (Some <$> done)) by
    (rewrite ?length_replicate, ?length_fmap; done).
  rewrite fmap_app, length_app, app_assoc. f_equal. lia.
Qed.

(** The bytes on the wire: every member in network (big-endian) order. *)
Definition wire (b : Unid_block) : list Z :=
  be_bytes 4 (ip b) ++ be_bytes 2 (port b) ++ be_bytes 4 (seq b) ++ be_bytes 4 (node b) ++
  be_bytes 8 (first_unid b) ++ be_bytes 4 (block_size b).

Lemma wire_length b : length (wire b) = buf_size.
Proof. unfold wire. rewrite !length_app, !be_bytes_length. done. Qed.

(** The step of [serialize_into] that appends one member. *)
Lemma copy_member {B} (done : list Z) n k v (f : Z → M (list (option Z)) B) :
  (k ≤ n)%nat →
  (copy (bit_cast k (byteswap k v)) (Z.of_nat (length done)) ≫= f)
    ((Some <$> done) ++ replicate n None) =
  f (Z.of_nat (length (done ++ be_bytes k v)))
    ((Some <$> (done ++ be_bytes k v)) ++ replicate (n - k) None).
Proof.
  intros Hk. apply bind_Ok. pose proof (be_bytes_length k v) as Hl.
  rewrite bit_cast_byteswap. rewrite copy_next by lia. by rewrite Hl.
Qed.

Lemma serialize_wire b : serialize b = Ok tt (Some <$> wire b).
Proof.
  unfold serialize, serialize_into.
  change (replicate buf_size None) with ((Some <$> ([] : list Z)) ++ replicate 26 None).
  change 0 with (Z.of_nat (length ([] : list Z))).
  rewrite copy_member by lia.
  do 5 rewrite copy_member by lia.
  by rewrite ret_run.
Qed.

Lemma slice_middle (pre mid post : list Z) :
  take (length mid) (drop (length pre) (pre ++ mid ++ post)) = mid.
Proof. by rewrite drop_app_length, take_app_length. Qed.

(** Loading a member from the wire and swapping it. *)
Lemma load_member pre post n v :
  0 ≤ v < 256 ^ Z.of_nat n →
  byteswap n (memcpy_from (pre ++ be_bytes n v ++ post) (length pre) n) = v.
Proof.
  intros Hv. unfold memcpy_from.
  rewrite <- (be_bytes_length n v) at 2. rewrite slice_middle. by apply byteswap_be.
Qed.

Lemma deserialize_run buf b0 :
  length buf = buf_size →
  deserialize buf b0 = Ok tt (UnidBlock
    (byteswap 4 (memcpy_from buf 0 4)) (byteswap 2 (memcpy_from buf 4 2))
    (byteswap 4 (memcpy_from buf 6 4)) (byteswap 4 (memcpy_from buf 10 4))
    (byteswap 8 (memcpy_from buf 14 8)) (byteswap 4 (memcpy_from buf 22 4))).
Proof. intros Hl. unfold deserialize. rewrite Hl. done. Qed.

Lemma deserialize_wire b b0 : block_ok b → deserialize (wire b) b0 = Ok tt b.
Proof.
  intros (Hip & Hport & Hseq & Hnode & Hfu & Hbs). rewrite deserialize_run by apply wire_length.
  unfold wire. destruct b as [i p s n f z]. cbn [ip port seq node first_unid block_size] in *.
  pose proof (be_bytes_length 4 i) as L1. pose proof (be_bytes_length 2 p) as L2.
  pose proof (be_bytes_length 4 s) as L3. pose proof (be_bytes_length 4 n) as L4.
  pose proof (be_bytes_length 8 f) as L5.
  set (I := be_bytes 4 i) in *. set (P := be_bytes 2 p) in *. set (Q := be_bytes 4 s) in *.
  set (N := be_bytes 4 n) in *. set (F := be_bytes 8 f) in *.
  f_equal. f_equal.
  - exact (load_member [] _ 4 i Hip).
  - rewrite <- L1. exact (load_member I _ 2 p Hport).
  - replace 6%nat with (length (I ++ P)) by (rewrite length_app; lia).
    rewrite (app_assoc I P). exact (load_member (I ++ P) _ 4 s Hseq).
  - replace 10%nat with (length ((I ++ P) ++ Q)) by (rewrite !length_app; lia).
    rewrite (app_assoc I P), (app_assoc (I ++ P) Q). exact (load_member _ _ 4 n Hnode).
  - replace 14%nat with (length (((I ++ P) ++ Q) ++ N)) by (rewrite !length_app; lia).
    rewrite (app_assoc I P), (app_assoc (I ++ P) Q), (app_assoc ((I ++ P) ++ Q) N).
    exact (load_member _ _ 8 f Hfu).
  - replace 22%nat with (length ((((I ++ P) ++ Q) ++ N) ++ F)) by (rewrite !length_app; lia).
    rewrite (app_assoc I P), (app_assoc (I ++ P) Q), (app_assoc ((I ++ P) ++ Q) N),
      (app_assoc (((I ++ P) ++ Q) ++ N) F).
    rewrite <- (app_nil_r (be_bytes 4 z)). exact (load_member _ [] 4 z Hbs).
Qed.

(** Every buffer of the right size is the wire form of the block read from it. *)
Lemma wire_deserialized buf :
  Forall byte_ok buf → length buf = buf_size →
  wire (UnidBlock
    (byteswap 4 (memcpy_from buf 0 4)) (byteswap 2 (memcpy_from buf 4 2))
    (byteswap 4 (memcpy_from buf 6 4)) (byteswap 4 (memcpy_from buf 10 4))
    (byteswap 8 (memcpy_from buf 14 8)) (byteswap 4 (memcpy_from buf 22 4))) = buf.
Proof.
  intros Hok Hlen. unfold buf_size in Hlen. cbn in Hlen.
  do 26 (destruct buf as [|? buf]; [done|]). destruct buf; [|done].
  repeat (apply Forall_cons in Hok as [? Hok]). unfold wire, memcpy_from.
  cbn [ip port seq node first_unid block_size take drop].
  repeat match goal with
  | |- context [be_bytes ?n (byteswap ?n (le_value ?l))] =>
      let E := fresh in
      assert (be_bytes n (byteswap n (le_value l)) = l) as E
        by (apply (be_byteswap l); repeat (apply Forall_cons_2; [assumption|]);
            apply Forall_nil_2);
      rewrite E; clear E
  end. done.
Qed.

Lemma byteswap_range n v : 0 ≤ byteswap n v < 256 ^ Z.of_nat n.
Proof.
  unfold byteswap. pose proof (le_value_range (rev (le_bytes n v)) ltac:(apply Forall_rev, le_bytes_ok)) as Hr.
  by rewrite length_rev, le_bytes_length in Hr.
Qed.

Lemma round_run b b0 : block_ok b → round b b0 = Ok tt b.
Proof.
  intros Hb. unfold round. rewrite serialize_wire.
  assert (mapM id (Some <$> wire b) = Some (wire b)) as ->.
  { apply mapM_Some. induction (wire b); constructor; done. }
  by apply deserialize_wire.
Qed.

(** ** Properties *)

(** C25: [serialize] writes every byte of its 26-byte result, and the result is the
    six members one after the other without padding, each in network order: the most
    significant byte first (the comment above the function calls that order
    little-endian). *)
Theorem serialize_network_order b :
  serialize b = Ok tt (Some <$>
    (be_bytes 4 (ip b) ++ be_bytes 2 (port b) ++ be_bytes 4 (seq b) ++ be_bytes 4 (node b) ++
     be_bytes 8 (first_unid b) ++ be_bytes 4 (block_size b))) ∧
  length (be_bytes 4 (ip b) ++ be_bytes 2 (port b) ++ be_bytes 4 (seq b) ++ be_bytes 4 (node b) ++
     be_bytes 8 (first_unid b) ++ be_bytes 4 (block_size b)) = 26%nat.
Proof. split; [apply serialize_wire|apply (wire_length b)]. Qed.

(** C24: a block that is serialized and read back into any block gives the same
    block, and every 26-byte buffer is the serialization of the block read from it;
    a buffer of any other length is refused and leaves the block as it was. *)
Theorem serialize_deserialize_roundtrip :
  (∀ b b0, block_ok b →
     ∃ buf, serialize b = Ok tt (Some <$> buf) ∧ deserialize buf b0 = Ok tt b ∧
            round b b0 = Ok tt b) ∧
  (∀ buf b0, Forall byte_ok buf → length buf = buf_size →
     ∃ b, deserialize buf b0 = Ok tt b ∧ serialize b = Ok tt (Some <$> buf)) ∧
  (∀ buf b0, length buf ≠ buf_size → deserialize buf b0 = Throw size_error b0).
Proof.
  split_and!.
  - intros b b0 Hb. exists (wire b). rewrite serialize_wire, deserialize_wire by done.
    split_and!; [done|done|by apply round_run].
  - intros buf b0 Hok Hlen. eexists. split; [by apply deserialize_run|].
    rewrite serialize_wire. f_equal. f_equal. by apply wire_deserialized.
  - intros buf b0 Hlen. unfold deserialize.
    by rewrite (proj2 (Nat.eqb_neq _ _) Hlen).
Qed.

(** [concatenate_byte_arrays] fills its result completely with its arguments, in
    order: every copy stays inside the result. *)
Theorem concatenate_byte_arrays_correct arrs :
  concatenate_byte_arrays arrs = Ok tt (Some <$> concat arrs).
Proof.
  unfold concatenate_byte_arrays.
  assert (∀ done, copy_all arrs (Z.of_nat (length done))
            ((Some <$> done) ++ replicate (sum_sizes arrs) None) =
          Ok tt (Some <$> (done ++ concat arrs))) as Hall.
  { induction arrs as [|a arrs IH]; intros done; cbn [copy_all sum_sizes foldr concat].
    - by rewrite app_nil_r, app_nil_r.
    - fold (sum_sizes arrs). erewrite bind_Ok by (apply copy_next; lia).
      replace (length a + sum_sizes arrs - length a)%nat with (sum_sizes arrs) by lia.
      rewrite <- Nat2Z.inj_add, <- length_app, IH. by rewrite <- app_assoc. }
  exact (Hall []).
Qed.

(** The block of the benchmark's main(). *)
Definition ub1 : Unid_block := UnidBlock 3232235521 44444 1234 4321 9876 6789.

Lemma serialize_deserialize_roundtrip_witness :
  ∃ buf, serialize ub1 = Ok tt (Some <$> buf) ∧
         deserialize buf (UnidBlock 0 0 0 0 0 0) = Ok tt ub1.
Proof.
  destruct serialize_deserialize_roundtrip as [Hrt _].
  destruct (Hrt ub1 (UnidBlock 0 0 0 0 0 0)) as (buf & Hs & Hd & _).
  - unfold block_ok. cbn. lia.
  - exists buf. split; [exact Hs|exact Hd].
Defined.

