(* ===== verification/FlatBuffers.v ===== *)
(** The FlatBuffers benchmark (src/spike/benchmark/serializers/flatbuffers.cpp) with the code the
    FlatBuffers compiler generated for a block (unid_block_generated.h): a block is written as a
    table, and read back through the table's accessors.

    The FlatBuffers library is a parameter: the class [FlatBufferLib] has the functions the code
    calls, and [FlatBufferLaws] what the library documents of them: a table that is started on
    an empty builder, given each field at most once, and finished, has those values in its
    fields; a field that was left out (a value equal to its default is) reads as the default;
    Release() gives the buffer away and leaves the builder empty. *)

From S2P Require Import Prelude Bytes UnidBlock.
Local Open Scope Z_scope.

(** An element of a table: its size in bytes, its slot, its value and the slot's default. *)
Record element := Element { el_size : nat; el_slot : Z; el_value : Z; el_default : Z }.

Class FlatBufferLib := {
  builder : Type;
  buffer : Type;
  table : Type;
  new_builder : builder;
  StartTable : builder → Z * builder;
  AddElement : element → builder → builder;
  EndTable : Z → builder → Z * builder;
  Finish : Z → builder → builder;
  GetBufferPointer : builder → buffer;
  Release : builder → builder;
  GetRoot : buffer → table;
  GetField : nat → table → Z → Z → Z;        (* size, table, slot, default *)
  empty_builder : builder → Prop             (* no buffer is being built or finished in it *)
}.

Definition add_elements `{FlatBufferLib} (els : list element) (b : builder) : builder :=
  foldl (λ b e, AddElement e b) b els.

Class FlatBufferLaws `{FlatBufferLib} := {
  new_builder_empty : empty_builder new_builder;
  release_empty b : empty_builder (Release b);
  get_added b start b1 els tab b2 e :
    empty_builder b → StartTable b = (start, b1) → NoDup (el_slot <$> els) →
    EndTable start (add_elements els b1) = (tab, b2) →
    e ∈ els → 0 ≤ el_value e < 256 ^ Z.of_nat (el_size e) →
    GetField (el_size e) (GetRoot (GetBufferPointer (Finish tab b2))) (el_slot e) (el_default e)
      = el_value e
}.

(** ** unid_block_generated.h *)

Module Generated.
Definition VT_IP : Z := 4.
Definition VT_PORT : Z := 6.
Definition VT_SEQ : Z := 8.
Definition VT_NODE : Z := 10.
Definition VT_FIRST_UNID : Z := 12.
Definition VT_BLOCK_SIZE : Z := 14.

Section generated.
Context `{FlatBufferLib}.

(** struct Unid_block_t: the accessors. *)
Definition get_ip (t : table) : Z := GetField 4 t VT_IP 0.
Definition get_port (t : table) : Z := GetField 2 t VT_PORT 0.
Definition get_seq (t : table) : Z := GetField 4 t VT_SEQ 0.
Definition get_node (t : table) : Z := GetField 4 t VT_NODE 0.
Definition get_first_unid (t : table) : Z := GetField 8 t VT_FIRST_UNID 0.
Definition get_block_size (t : table) : Z := GetField 4 t VT_BLOCK_SIZE 0.

(** struct Unid_block_tBuilder *)
Record Unid_block_tBuilder := TBuilder { fbb_ : builder; start_ : Z }.

Definition Unid_block_tBuilder_ctor (fbb : builder) : Unid_block_tBuilder :=
  let '(start, fbb') := StartTable fbb in TBuilder fbb' start.

Definition add (e : element) (b : Unid_block_tBuilder) : Unid_block_tBuilder :=
  TBuilder (AddElement e (fbb_ b)) (start_ b).

Definition add_ip (v : Z) := add (Element 4 VT_IP v 0).
Definition add_port (v : Z) := add (Element 2 VT_PORT v 0).
Definition add_seq (v : Z) := add (Element 4 VT_SEQ v 0).
Definition add_node (v : Z) := add (Element 4 VT_NODE v 0).
Definition add_first_unid (v : Z) := add (Element 8 VT_FIRST_UNID v 0).
Definition add_block_size (v : Z) := add (Element 4 VT_BLOCK_SIZE v 0).

(** Finish(): the offset of the table. *)
Definition Unid_block_tBuilder_Finish (b : Unid_block_tBuilder) : Z * builder :=
  EndTable (start_ b) (fbb_ b).

Definition CreateUnid_block_t (fbb : builder) (ip port seq node first_unid block_size : Z) :
    Z * builder :=
  let b := Unid_block_tBuilder_ctor fbb in
  let b := add_first_unid first_unid b in
  let b := add_block_size block_size b in
  let b := add_node node b in
  let b := add_seq seq b in
  let b := add_ip ip b in
  let b := add_port port b in
  Unid_block_tBuilder_Finish b.

Definition GetUnid_block_t (buf : buffer) : table := GetRoot buf.
End generated.
End Generated.

(** ** The benchmark *)

Module Flat.
Import Generated.
Section bench.
Context `{FlatBufferLib}.

(** The body of the loop. *)
Definition flat_round (ub1 : Unid_block) (st : builder * Unid_block) : builder * Unid_block :=
  let '(fbb, ub2) := st in
  let '(ub1_t, fbb) := CreateUnid_block_t fbb (ip ub1) (port ub1) (seq ub1) (node ub1)
                         (first_unid ub1) (block_size ub1) in
  let fbb := Finish ub1_t fbb in
  let flatbuffer := GetBufferPointer fbb in
  let ub := GetUnid_block_t flatbuffer in
  let ub2 := UnidBlock (get_ip ub) (get_port ub) (get_seq ub) (get_node ub) (get_first_unid ub)
                       (get_block_size ub) in
  (Release fbb, ub2).

(** for (auto _ : state): the library chooses the number of iterations. *)
Definition BM_MyFunction (iterations : nat) (ub1 ub2 : Unid_block) : builder * Unid_block :=
  Nat.iter iterations (flat_round ub1) (new_builder, ub2).
End bench.
End Flat.

(** The other benchmark (unidserial.cpp), for the same number of iterations. *)
Fixpoint serial_rounds (iterations : nat) (b : Unid_block) : M Unid_block unit :=
  match iterations with
  | O => mret tt
  | S n => round b;; serial_rounds n b
  end.

(** ** Lemmas *)

Import Generated Flat.

(** The elements of a block, in the order CreateUnid_block_t adds them. *)
Definition block_elements (b : Unid_block) : list element :=
  [Element 8 VT_FIRST_UNID (first_unid b) 0; Element 4 VT_BLOCK_SIZE (block_size b) 0;
   Element 4 VT_NODE (node b) 0; Element 4 VT_SEQ (seq b) 0; Element 4 VT_IP (ip b) 0;
   Element 2 VT_PORT (port b) 0].

Lemma block_slots_NoDup b : NoDup (el_slot <$> block_elements b).
Proof. apply (bool_decide_unpack _). vm_compute. exact I. Qed.

(** The block that the accessors read from a table. *)
Definition read_block `{FlatBufferLib} (t : table) : Unid_block :=
  UnidBlock (get_ip t) (get_port t) (get_seq t) (get_node t) (get_first_unid t) (get_block_size t).

Lemma read_block_correct `{FlatBufferLib} t b :
  block_ok b →
  (∀ e, e ∈ block_elements b → 0 ≤ el_value e < 256 ^ Z.of_nat (el_size e) →
        GetField (el_size e) t (el_slot e) (el_default e) = el_value e) →
  read_block t = b.
Proof.
  intros (Hip & Hport & Hseq & Hnode & Hfu & Hbs) Hget.
  pose proof (proj2 (Forall_forall _ _) Hget) as HF. unfold block_elements in HF.
  rewrite !Forall_cons in HF. cbn in HF. destruct HF as (Hf & Hb & Hn & Hs & Hi & Hp & _).
  unfold read_block, get_ip, get_port, get_seq, get_node, get_first_unid, get_block_size.
  rewrite Hf, Hb, Hn, Hs, Hi, Hp by assumption. by destruct b.
Qed.

Lemma flat_round_reads `{FlatBufferLaws} ub1 fbb ub2 :
  block_ok ub1 → empty_builder fbb →
  ∃ fbb', flat_round ub1 (fbb, ub2) = (fbb', ub1) ∧ empty_builder fbb'.
Proof.
  intros Hok He. unfold flat_round, CreateUnid_block_t, Unid_block_tBuilder_Finish,
    Unid_block_tBuilder_ctor.
  destruct (StartTable fbb) as [start b1] eqn:Hst.
  destruct (EndTable _ _) as [tab b2] eqn:Hend. cbn in Hend.
  eexists. split; [|apply release_empty]. f_equal.
  apply (read_block_correct _ ub1 Hok). intros e He1 He2.
  eapply (get_added fbb start b1 (block_elements ub1)); eauto using block_slots_NoDup.
Qed.

Lemma serial_rounds_run n b b0 :
  block_ok b → serial_rounds n b b0 = Ok tt (if n is O then b0 else b).
Proof.
  intros Hb. revert b0. induction n as [|n IH]; intros b0; [done|]. cbn [serial_rounds].
  rewrite (bind_Ok _ _ _ _ _ (round_run b b0 Hb)), IH. by destruct n.
Qed.

Lemma BM_MyFunction_run `{FlatBufferLaws} n ub1 ub2 :
  block_ok ub1 →
  ∃ fbb, BM_MyFunction n ub1 ub2 = (fbb, if n is O then ub2 else ub1) ∧ empty_builder fbb.
Proof.
  intros Hok. unfold BM_MyFunction. induction n as [|n (fbb & IH & He)].
  - exists new_builder. split; [done|apply new_builder_empty].
  - cbn [Nat.iter nat_rect]. unfold Nat.iter in IH. rewrite IH. by apply flat_round_reads.
Qed.

(** C26: the two serializer benchmarks compute the same thing: after any number of iterations the
    FlatBuffers loop has left in ub2 what the hand-written serializer's loop leaves there, the
    block ub1, and its builder is ready for the next iteration; so a comparison of their times
    compares equal work. *)
Theorem benchmarks_agree `{FlatBufferLaws} n ub1 ub2 :
  block_ok ub1 →
  ∃ fbb b, BM_MyFunction n ub1 ub2 = (fbb, b) ∧ empty_builder fbb ∧
           serial_rounds n ub1 ub2 = Ok tt b ∧ (n ≠ 0%nat → b = ub1).
Proof.
  intros Hok. destruct (BM_MyFunction_run n ub1 ub2 Hok) as (fbb & Hbm & He).
  exists fbb, (if n is O then ub2 else ub1). split; [done|]. split; [done|].
  split; [by apply serial_rounds_run|]. by destruct n.
Qed.

(** ** The two mains *)

(** Unid_block ub2{0, 0, 0, 0, 0} *)
Definition ub2 : Unid_block := UnidBlock 0 0 0 0 0 0.

(** The benchmark library runs the function it was given any number of times, each time with its
    own copies of the blocks and a number of iterations of its choice. *)
Definition serial_main (runs : list nat) : list (outcome Unid_block unit) :=
  (λ iterations, serial_rounds iterations ub1 ub2) <$> runs.

Definition flat_main `{FlatBufferLib} (runs : list nat) : list Unid_block :=
  (λ iterations, (BM_MyFunction iterations ub1 ub2).2) <$> runs.

Lemma mains_agree `{FlatBufferLaws} runs :
  Forall2 (λ o b, o = Ok tt b) (serial_main runs) (flat_main runs).
Proof.
  assert (block_ok ub1) as Hok by (unfold block_ok; cbn; lia).
  apply Forall2_fmap, Forall_Forall2_diag, Forall_forall. intros n _.
  destruct (BM_MyFunction_run n ub1 ub2 Hok) as (fbb & -> & _). by apply serial_rounds_run.
Qed.

(** ** A library that keeps its laws *)

(** A builder is the elements added so far, and a buffer is those of its finished table;
    as in the library, a value equal to its default is not stored. *)
Definition list_lib : FlatBufferLib := {|
  builder := list element;
  buffer := list element;
  table := list element;
  new_builder := [];
  StartTable b := (0, b);
  AddElement e b := if el_value e =? el_default e then b else e :: b;
  EndTable _ b := (0, b);
  Finish _ b := b;
  GetBufferPointer b := b;
  Release _ := [];
  GetRoot b := b;
  GetField n t slot d := from_option el_value d (List.find (λ e, el_slot e =? slot) t);
  empty_builder b := b = []
|}.

Lemma find_added_other els : ∀ b slot,
  slot ∉ el_slot <$> els →
  List.find (λ e, el_slot e =? slot) (@add_elements list_lib els b) =
  List.find (λ e, el_slot e =? slot) b.
Proof.
  induction els as [|e els IH]; intros b slot Hn; [done|].
  rewrite fmap_cons, not_elem_of_cons in Hn. destruct Hn as [Hne Hn].
  change (@add_elements list_lib (e :: els) b) with
    (@add_elements list_lib els (if el_value e =? el_default e then b else e :: b)).
  rewrite IH by done. case_if; [done|]. cbn. by rewrite (proj2 (Z.eqb_neq _ _)) by congruence.
Qed.

Lemma find_added els : ∀ b e,
  NoDup (el_slot <$> els) → e ∈ els → List.find (λ e', el_slot e' =? el_slot e) b = None →
  from_option el_value (el_default e)
    (List.find (λ e', el_slot e' =? el_slot e) (@add_elements list_lib els b)) = el_value e.
Proof.
  induction els as [|e0 els IH]; intros b e Hnd He Hb; [by apply elem_of_nil in He|].
  rewrite fmap_cons in Hnd. apply NoDup_cons in Hnd as [Hn Hnd].
  change (@add_elements list_lib (e0 :: els) b) with
    (@add_elements list_lib els (if el_value e0 =? el_default e0 then b else e0 :: b)).
  apply elem_of_cons in He as [->|He].
  - rewrite find_added_other by done. case_if; [by rewrite Hb|]. cbn. by rewrite Z.eqb_refl.
  - apply IH; [done|done|]. case_if; [done|]. cbn.
    rewrite (proj2 (Z.eqb_neq _ _)); [done|]. intros Heq. apply Hn. rewrite Heq.
    by apply list_elem_of_fmap_2.
Qed.

#[global] Instance list_lib_laws : @FlatBufferLaws list_lib.
Proof.
  split; [done|done|]. intros b start b1 els tab b2 e -> [= _ <-] Hnd [= _ <-] He _.
  by apply find_added.
Qed.

(** ** Witness *)

Lemma benchmarks_agree_witness :
  ∃ fbb, @BM_MyFunction list_lib 3 ub1 (UnidBlock 0 0 0 0 0 0) = (fbb, ub1).
Proof.
  destruct (@benchmarks_agree list_lib list_lib_laws 3 ub1 (UnidBlock 0 0 0 0 0 0))
    as (fbb & b & Hrun & _ & _ & Hb).
  - unfold block_ok. cbn. lia.
  - exists fbb. rewrite Hrun, Hb; [reflexivity|discriminate].
Defined.
