(* ===== verification/FlatVerify.v ===== *)
(** The rest of the code the FlatBuffers compiler generated for a block (unid_block_generated.h):
    Verify and the functions that finish, read and verify a buffer, with and without a size prefix.

    The verifier of the library is a parameter: [FlatVerifierLib] has its functions, and
    [FlatVerifierLaws] what is documented of them for a buffer that was built in the proper way
    ([built]): the checks of the root and of the table succeed, and so does the check of a field
    that was left out or has the size and alignment it is checked for. *)

From S2P Require Import Prelude Bytes UnidBlock FlatBuffers.
Import Generated.
Local Open Scope Z_scope.

Class FlatVerifierLib `{FlatBufferLib} := {
  verifier : Type;
  Verifier : buffer → verifier;
  VerifyTableStart : table → verifier → bool * verifier;
  VerifyField : nat → table → Z → Z → verifier → bool;       (* size, table, slot, alignment *)
  VerifierEndTable : verifier → bool * verifier;
  VerifyBuffer : (table → verifier → bool * verifier) → verifier → bool * verifier;
  FinishSizePrefixed : Z → builder → builder;
  GetSizePrefixedRoot : buffer → table;
  VerifySizePrefixedBuffer : (table → verifier → bool * verifier) → verifier → bool * verifier;
  verifies : buffer → verifier → Prop                        (* the verifier is for this buffer *)
}.

Section generated.
Context `{FlatVerifierLib}.

(** The && of the source: the second operand runs, on the verifier the first one leaves, only
    when the first is true. *)
Definition and_then (r : bool * verifier) (k : verifier → bool * verifier) : bool * verifier :=
  if r.1 then k r.2 else r.

Definition check (f : verifier → bool) (v : verifier) : bool * verifier := (f v, v).

Definition Verify (t : table) (v : verifier) : bool * verifier :=
  and_then (VerifyTableStart t v) (λ v,
  and_then (check (VerifyField 4 t VT_IP 4) v) (λ v,
  and_then (check (VerifyField 2 t VT_PORT 2) v) (λ v,
  and_then (check (VerifyField 4 t VT_SEQ 4) v) (λ v,
  and_then (check (VerifyField 4 t VT_NODE 4) v) (λ v,
  and_then (check (VerifyField 8 t VT_FIRST_UNID 8) v) (λ v,
  and_then (check (VerifyField 4 t VT_BLOCK_SIZE 4) v) (λ v,
  VerifierEndTable v))))))).

Definition GetSizePrefixedUnid_block_t (buf : buffer) : table := GetSizePrefixedRoot buf.
Definition VerifyUnid_block_tBuffer (v : verifier) : bool * verifier := VerifyBuffer Verify v.
Definition VerifySizePrefixedUnid_block_tBuffer (v : verifier) : bool * verifier :=
  VerifySizePrefixedBuffer Verify v.
Definition FinishUnid_block_tBuffer (fbb : builder) (root : Z) : builder := Finish root fbb.
Definition FinishSizePrefixedUnid_block_tBuffer (fbb : builder) (root : Z) : builder :=
  FinishSizePrefixed root fbb.

(** ** The laws *)

(** A buffer with one table of the given elements, finished by [fin]. *)
Definition built (fin : Z → builder → builder) (els : list element) (buf : buffer) : Prop :=
  ∃ b start b1 tab b2,
    empty_builder b ∧ StartTable b = (start, b1) ∧ NoDup (el_slot <$> els) ∧
    EndTable start (add_elements els b1) = (tab, b2) ∧ buf = GetBufferPointer (fin tab b2).

(** The checks of a table of such a buffer. *)
Definition table_checks (t : table) (els : list element) (buf : buffer) : Prop :=
  (∀ v, verifies buf v → ∃ v', VerifyTableStart t v = (true, v') ∧ verifies buf v') ∧
  (∀ v e, verifies buf v → e ∈ els →
     VerifyField (el_size e) t (el_slot e) (Z.of_nat (el_size e)) v = true) ∧
  (∀ v, verifies buf v → ∃ v', VerifierEndTable v = (true, v') ∧ verifies buf v').
End generated.

Class FlatVerifierLaws `{FlatVerifierLib} := {
  verifier_for buf : verifies buf (Verifier buf);
  built_checks els buf : built Finish els buf → table_checks (GetRoot buf) els buf;
  built_sp_checks els buf :
    built FinishSizePrefixed els buf → table_checks (GetSizePrefixedRoot buf) els buf;
  built_root els buf V v : built Finish els buf → verifies buf v →
    VerifyBuffer V v = V (GetRoot buf) v;
  built_sp_root els buf V v : built FinishSizePrefixed els buf → verifies buf v →
    VerifySizePrefixedBuffer V v = V (GetSizePrefixedRoot buf) v;
  get_added_sp els buf e :
    built FinishSizePrefixed els buf → e ∈ els → 0 ≤ el_value e < 256 ^ Z.of_nat (el_size e) →
    GetField (el_size e) (GetSizePrefixedRoot buf) (el_slot e) (el_default e) = el_value e
}.

(** ** Properties *)

Section properties.
Context `{FlatVerifierLaws} `{!FlatBufferLaws}.

(** The buffer that CreateUnid_block_t and one of the two ways to finish make. *)
Definition finished (fin : builder → Z → builder) (b : Unid_block) (fbb : builder) : buffer :=
  let '(root, fbb) := CreateUnid_block_t fbb (ip b) (port b) (seq b) (node b) (first_unid b)
                        (block_size b) in
  GetBufferPointer (fin fbb root).

Lemma created_built fin b fbb :
  empty_builder fbb → built fin (block_elements b) (finished (λ fbb root, fin root fbb) b fbb).
Proof.
  intros He. unfold finished, CreateUnid_block_t, Unid_block_tBuilder_Finish,
    Unid_block_tBuilder_ctor.
  destruct (StartTable fbb) as [start b1] eqn:Hst.
  destruct (EndTable _ _) as [tab b2] eqn:Hend. exists fbb, start, b1, tab, b2.
  split_and!; [done|done|apply block_slots_NoDup|exact Hend|done].
Qed.

Lemma Verify_accepts t b buf v :
  table_checks t (block_elements b) buf → verifies buf v → ∃ v', Verify t v = (true, v').
Proof.
  intros (Hs & Hf & He) Hv. unfold Verify. destruct (Hs v Hv) as (v1 & -> & Hv1).
  assert (Forall (λ e, VerifyField (el_size e) t (el_slot e) (Z.of_nat (el_size e)) v1 = true)
            (block_elements b)) as HF by (apply Forall_forall; auto).
  unfold block_elements in HF. rewrite !Forall_cons in HF. cbn in HF.
  change (Z.of_nat 8) with 8 in HF. change (Z.of_nat 4) with 4 in HF. change (Z.of_nat 2) with 2 in HF.
  destruct HF as (Hf1 & Hb1 & Hn1 & Hs1 & Hi1 & Hp1 & _). unfold and_then, check. cbn [fst snd].
  rewrite Hi1, Hp1, Hs1, Hn1, Hf1, Hb1.
  destruct (He v1 Hv1) as (v2 & -> & _). eauto.
Qed.

(** The generated code agrees with itself: a block that CreateUnid_block_t and
    FinishUnid_block_tBuffer put into an empty builder is accepted by VerifyUnid_block_tBuffer
    and read back by the accessors, and the same holds of the three functions for buffers with a
    size prefix. *)
Theorem generated_verify_roundtrip b fbb :
  block_ok b → empty_builder fbb →
  (let buf := finished FinishUnid_block_tBuffer b fbb in
   (VerifyUnid_block_tBuffer (Verifier buf)).1 = true ∧ read_block (GetUnid_block_t buf) = b) ∧
  (let buf := finished FinishSizePrefixedUnid_block_tBuffer b fbb in
   (VerifySizePrefixedUnid_block_tBuffer (Verifier buf)).1 = true ∧
   read_block (GetSizePrefixedUnid_block_t buf) = b).
Proof.
  intros Hb He. split; cbn zeta.
  - pose proof (created_built Finish b fbb He) as Hbuilt.
    change (λ fbb root, Finish root fbb) with FinishUnid_block_tBuffer in Hbuilt. split.
    + unfold VerifyUnid_block_tBuffer. rewrite (built_root _ _ _ _ Hbuilt (verifier_for _)).
      by destruct (Verify_accepts _ _ _ _ (built_checks _ _ Hbuilt) (verifier_for _)) as [? ->].
    + apply read_block_correct; [done|]. destruct Hbuilt as (b0 & st & b1 & tab & b2 & Hb0 & Hst & Hnd & Hend & ->).
      intros e Hin Hr. by eapply get_added.
  - pose proof (created_built FinishSizePrefixed b fbb He) as Hbuilt.
    change (λ fbb root, FinishSizePrefixed root fbb) with FinishSizePrefixedUnid_block_tBuffer in Hbuilt.
    split.
    + unfold VerifySizePrefixedUnid_block_tBuffer.
      rewrite (built_sp_root _ _ _ _ Hbuilt (verifier_for _)).
      by destruct (Verify_accepts _ _ _ _ (built_sp_checks _ _ Hbuilt) (verifier_for _)) as [? ->].
    + apply read_block_correct; [done|]. intros e Hin Hr. by apply (get_added_sp _ _ _ Hbuilt).
Qed.
End properties.

(** ** A verifier that keeps its laws *)

(** Over [list_lib]; the verifier counts the tables it is inside of, and checks that a stored
    field has the size and alignment asked for. *)
#[global] Instance list_verifier : @FlatVerifierLib list_lib := {|
  verifier := @buffer list_lib * nat;
  Verifier buf := (buf, 0%nat);
  VerifyTableStart _ v := (true, (v.1, S v.2));
  VerifyField n t slot align v :=
    match List.find (λ e, el_slot e =? slot) (t : list element) with
    | Some e => bool_decide (el_size e = n) && (align =? Z.of_nat n)
    | None => true
    end;
  VerifierEndTable v := (true, (v.1, pred v.2));
  VerifyBuffer V v := V v.1 v;
  FinishSizePrefixed _ b := b;
  GetSizePrefixedRoot buf := buf;
  VerifySizePrefixedBuffer V v := V v.1 v;
  verifies buf v := v.1 = buf
|}.

Lemma add_elements_sub els : ∀ b x, x ∈ @add_elements list_lib els b → x ∈ els ∨ x ∈ b.
Proof.
  induction els as [|e els IH]; intros b x Hx; [by right|].
  change (@add_elements list_lib (e :: els) b) with
    (@add_elements list_lib els (if el_value e =? el_default e then b else e :: b)) in Hx.
  rewrite elem_of_cons. apply IH in Hx as [Hx|Hx]; [auto|].
  destruct (_ =? _); [auto|]. apply elem_of_cons in Hx. naive_solver.
Qed.

Lemma same_slot els (e e' : element) :
  NoDup (el_slot <$> els) → e ∈ els → e' ∈ els → el_slot e = el_slot e' → e = e'.
Proof.
  intros Hnd [i Hi]%list_elem_of_lookup [j Hj]%list_elem_of_lookup Heq.
  assert (i = j) as <-; [|congruence].
  eapply (NoDup_lookup (el_slot <$> els)); [done| |];
    rewrite list_lookup_fmap; [by rewrite Hi|by rewrite Hj, Heq].
Qed.

Lemma list_built_checks fin els buf :
  (∀ tab b, fin tab b = b) → @built list_lib fin els buf → @table_checks list_lib _ buf els buf.
Proof.
  intros Hfin (b & start & b1 & tab & b2 & -> & [= _ <-] & Hnd & [= _ <-] & ->). cbn in fin |- *.
  rewrite Hfin. unfold table_checks, VerifyTableStart, VerifyField, VerifierEndTable. cbn. split_and!.
  - intros v <-. eauto.
  - intros v e _ He. destruct (List.find _ _) as [e'|] eqn:Hf; [|done].
    apply List.find_some in Hf as [Hin Hs]. apply Z.eqb_eq in Hs.
    apply list_elem_of_In, add_elements_sub in Hin as [Hin|Hin]; [|by apply elem_of_nil in Hin].
    rewrite (same_slot els e' e) by done. by rewrite bool_decide_true, Z.eqb_refl by done.
  - intros v <-. eauto.
Qed.

#[global] Instance list_verifier_laws : @FlatVerifierLaws list_lib list_verifier.
Proof.
  split; try done.
  - intros. by apply (list_built_checks (λ _ b, b)).
  - intros. by apply (list_built_checks (λ _ b, b)).
  - intros els buf V v _ <-. done.
  - intros els buf V v _ <-. done.
  - intros els buf e (b & start & b1 & tab & b2 & -> & [= _ <-] & Hnd & [= _ <-] & ->) He _.
    by apply find_added.
Qed.

(** ** Witness *)

Lemma generated_verify_roundtrip_witness :
  let buf := finished (H := list_lib) FinishSizePrefixedUnid_block_tBuffer ub1 [] in
  (VerifySizePrefixedUnid_block_tBuffer (Verifier buf)).1 = true ∧
  read_block (GetSizePrefixedUnid_block_t buf) = ub1.
Proof.
  apply (@generated_verify_roundtrip list_lib list_verifier list_verifier_laws list_lib_laws ub1 []).
  - unfold block_ok. cbn. lia.
  - reflexivity.
Defined.
