(* ===== verification/Crc32.v ===== *)
(** The CRC-32 of src/spike/crc32.cpp: the table for the reflected polynomial
    0xEDB88320 and the byte-at-a-time computation with it.  The function's static
    variables (the table and the flag that it has been generated) are the state. *)

From S2P Require Import Prelude Bytes.
Local Open Scope Z_scope.

Definition polynomial : Z := 3988292384.   (* 0xEDB88320 *)
Definition MASK32 : Z := 4294967295.       (* 0xFFFFFFFF *)

(** One round of the inner loop: if (c & 1) c = polynomial ^ (c >> 1); else c >>= 1; *)
Definition crc_round (c : Z) : Z :=
  if negb (Z.land c 1 =? 0) then Z.lxor polynomial (Z.shiftr c 1) else Z.shiftr c 1.

(** for (j = 0; j < 8; j++) ... *)
Definition crc_rounds (c : Z) : Z := Nat.iter 8 crc_round c.

Record crc_state := CrcState { table : list Z; table_generated : bool }.

(** Static storage is zero-initialised. *)
Definition crc_init : crc_state := CrcState (replicate 256 0) false.

Definition generate_crc32_table : M (list Z) unit :=
  for_below 256 (λ i,
    t ← get;
    t' ← array_set t i (crc_rounds i);
    put t').

(** for (i = 0; i < len; ++i) crc = table[(crc ^ u[i]) & 0xFF] ^ (crc >> 8); *)
Fixpoint crc_loop (t : list Z) (u : list Z) (crc : Z) : M crc_state Z :=
  match u with
  | [] => mret crc
  | b :: u' =>
      x ← array_get t (Z.land (Z.lxor crc b) 255);
      crc_loop t u' (Z.lxor x (Z.shiftr crc 8))
  end.

(** Fill the table on the first call. *)
Definition ensure_table : M crc_state unit := λ s,
  if table_generated s then Ok tt s
  else match generate_crc32_table (table s) with
       | Ok _ t => Ok tt (CrcState t true)
       | Throw e t => Throw e (CrcState t false)
       | UB u => UB u
       | OutOfFuel => OutOfFuel
       end.

Definition compute_crc32 (buf : list Z) (initial : Z) : M crc_state Z :=
  ensure_table;;
  s ← get;
  crc ← crc_loop (table s) buf (Z.lxor initial MASK32);
  mret (Z.lxor crc MASK32).

(** ** The reference: one bit at a time, no table *)

Fixpoint crc_bitwise (u : list Z) (crc : Z) : Z :=
  match u with
  | [] => crc
  | b :: u' => crc_bitwise u' (crc_rounds (Z.lxor crc b))
  end.

Definition crc32 (buf : list Z) (initial : Z) : Z :=
  Z.lxor (crc_bitwise buf (Z.lxor initial MASK32)) MASK32.

Definition full_table : list Z := crc_rounds <$> seqZ 0 256.

(** ** The table *)

Lemma full_table_lookup i : 0 ≤ i < 256 → full_table !! Z.to_nat i = Some (crc_rounds i).
Proof.
  intros Hi. unfold full_table. rewrite list_lookup_fmap, lookup_seqZ_lt by lia.
  by rewrite Z.add_0_l, Z2Nat.id by lia.
Qed.

Lemma generate_table_run t :
  length t = 256%nat → generate_crc32_table t = Ok tt full_table.
Proof.
  intros Hlen.
  assert (wp generate_crc32_table (λ _ t', length t' = 256%nat ∧
    ∀ i, 0 ≤ i < 256 → t' !! Z.to_nat i = Some (crc_rounds i)) t) as Hwp.
  { eapply wp_mono.
    - apply (wp_for_below (λ j t', length t' = 256%nat ∧
        ∀ i, 0 ≤ i < j → t' !! Z.to_nat i = Some (crc_rounds i))); [lia|split; [done|lia]|].
      intros j t' Hj [Hl Hi]. apply wp_bind, wp_ret. apply wp_bind, wp_array_set; [lia|].
      apply wp_put. rewrite length_insert. split; [done|]. intros i Hij.
      destruct (decide (i = j)) as [->|Hne].
      + by rewrite list_lookup_insert_eq by lia.
      + rewrite list_lookup_insert_ne by lia. apply Hi. lia.
    - by intros []. }
  apply wp_run in Hwp as ([] & t' & -> & Hl & Hi). f_equal.
  apply list_eq_same_length with 256%nat; [by unfold full_table; rewrite length_fmap, length_seqZ|done|].
  intros k x y Hk Hx Hy. specialize (Hi (Z.of_nat k) ltac:(lia)).
  pose proof (full_table_lookup (Z.of_nat k) ltac:(lia)) as Hf. rewrite Nat2Z.id in *. congruence.
Qed.

(** A state of the static variables between calls. *)
Definition crc_ok (s : crc_state) : Prop :=
  if table_generated s then table s = full_table else length (table s) = 256%nat.

Lemma ensure_table_run s : crc_ok s → ensure_table s = Ok tt (CrcState full_table true).
Proof.
  unfold crc_ok, ensure_table. destruct s as [t []]; cbn [table table_generated].
  - by intros ->.
  - intros Hl. by rewrite generate_table_run.
Qed.

(** ** Rounds are linear *)

Lemma land1_testbit c : negb (Z.land c 1 =? 0) = Z.testbit c 0.
Proof.
  change 1 with (Z.ones 1). rewrite Z.land_ones by lia. change (2 ^ 1) with 2.
  pose proof (Z.bit0_mod c) as Hb. destruct (Z.testbit c 0); cbn in Hb; by rewrite <- Hb.
Qed.

Lemma crc_round_alt c :
  crc_round c = Z.lxor (if Z.testbit c 0 then polynomial else 0) (Z.shiftr c 1).
Proof.
  unfold crc_round. rewrite land1_testbit. destruct (Z.testbit c 0); [done|].
  by rewrite Z.lxor_0_l.
Qed.

Lemma lxor_swap4 a b c d : Z.lxor (Z.lxor a b) (Z.lxor c d) = Z.lxor (Z.lxor a c) (Z.lxor b d).
Proof.
  rewrite !Z.lxor_assoc. f_equal. rewrite <- !Z.lxor_assoc. f_equal. apply Z.lxor_comm.
Qed.

Lemma crc_round_lxor a b : crc_round (Z.lxor a b) = Z.lxor (crc_round a) (crc_round b).
Proof.
  rewrite !crc_round_alt, Z.shiftr_lxor, lxor_swap4, Z.lxor_spec. f_equal.
  by destruct (Z.testbit a 0), (Z.testbit b 0); rewrite ?Z.lxor_nilpotent, ?Z.lxor_0_r, ?Z.lxor_0_l.
Qed.

Lemma crc_rounds_lxor a b : crc_rounds (Z.lxor a b) = Z.lxor (crc_rounds a) (crc_rounds b).
Proof.
  unfold crc_rounds. generalize 8%nat. intros n. induction n as [|n IH]; [done|].
  rewrite !Nat.iter_succ, IH. apply crc_round_lxor.
Qed.

(** A round of an even number is a shift. *)
Lemma crc_rounds_high h : crc_rounds (Z.shiftl h 8) = h.
Proof.
  assert (∀ n x, Nat.iter n crc_round (Z.shiftl x (Z.of_nat n)) = x) as Hn; [|exact (Hn 8%nat h)].
  induction n as [|n IH]; intros x; [apply Z.shiftl_0_r|].
  rewrite Nat.iter_succ_r, crc_round_alt. rewrite Z.shiftl_spec_low by lia.
  rewrite Z.lxor_0_l, Z.shiftr_shiftl_l by lia.
  replace (Z.of_nat (S n) - 1) with (Z.of_nat n) by lia. apply IH.
Qed.

Lemma split_low_byte x : x = Z.lxor (Z.land x 255) (Z.shiftl (Z.shiftr x 8) 8).
Proof.
  apply Z.bits_inj'. intros n Hn. rewrite Z.lxor_spec, Z.land_spec.
  change 255 with (Z.ones 8). destruct (decide (n < 8)).
  - rewrite Z.ones_spec_low, Z.shiftl_spec_low by lia. by rewrite andb_true_r, xorb_false_r.
  - rewrite Z.ones_spec_high, Z.shiftl_spec_high, Z.shiftr_spec by lia.
    rewrite andb_false_r, xorb_false_l. f_equal. lia.
Qed.

(** The table step is eight rounds. *)
Lemma table_step crc b :
  byte_ok b →
  Z.lxor (crc_rounds (Z.land (Z.lxor crc b) 255)) (Z.shiftr crc 8) = crc_rounds (Z.lxor crc b).
Proof.
  intros Hb. rewrite (split_low_byte (Z.lxor crc b)) at 2.
  rewrite crc_rounds_lxor, crc_rounds_high. f_equal.
  rewrite Z.shiftr_lxor, (Z.shiftr_div_pow2 b), (Z.div_small b), Z.lxor_0_r by (unfold byte_ok in Hb; lia).
  done.
Qed.

Lemma land255_range x : 0 ≤ Z.land x 255 < 256.
Proof. change 255 with (Z.ones 8). rewrite Z.land_ones by lia. apply Z.mod_pos_bound. lia. Qed.

Lemma crc_loop_run u s : ∀ crc,
  Forall byte_ok u → crc_loop full_table u crc s = Ok (crc_bitwise u crc) s.
Proof.
  induction u as [|b u IH]; intros crc Hu; cbn [crc_loop crc_bitwise]; [done|].
  apply Forall_cons in Hu as [Hb Hu]. pose proof (land255_range (Z.lxor crc b)) as Hr.
  rewrite (bind_Ok _ _ _ _ _ (array_get_run _ _ _ s (proj1 Hr) (full_table_lookup _ Hr))).
  rewrite table_step by done. by apply IH.
Qed.

Lemma compute_run buf initial s :
  Forall byte_ok buf → crc_ok s →
  compute_crc32 buf initial s = Ok (crc32 buf initial) (CrcState full_table true).
Proof.
  intros Hb Hs. unfold compute_crc32. rewrite (bind_Ok _ _ _ _ _ (ensure_table_run s Hs)).
  rewrite get_bind. cbn [table]. by rewrite (bind_Ok _ _ _ _ _ (crc_loop_run buf _ _ Hb)).
Qed.

(** ** Detection of a changed byte *)

(** The top bytes of the table entries are all different. *)
Definition top (x : Z) : Z := Z.shiftr x 24.

Lemma table_tops_distinct : NoDup (top <$> full_table).
Proof. apply (bool_decide_unpack _). vm_compute. exact I. Qed.

Lemma crc_rounds_top_inj i j :
  0 ≤ i < 256 → 0 ≤ j < 256 → top (crc_rounds i) = top (crc_rounds j) → i = j.
Proof.
  intros Hi Hj Heq. apply Z2Nat.inj; [lia|lia|].
  apply (NoDup_lookup _ _ _ (top (crc_rounds i)) table_tops_distinct);
    rewrite list_lookup_fmap, full_table_lookup by done; [done|by rewrite Heq].
Qed.

Definition is_u32 (x : Z) : Prop := 0 ≤ x < 2 ^ 32.

Lemma is_u32_land x : is_u32 x ↔ Z.land x (Z.ones 32) = x.
Proof.
  unfold is_u32. rewrite Z.land_ones by lia. split.
  - intros. by apply Z.mod_small.
  - intros <-. apply Z.mod_pos_bound. lia.
Qed.

Lemma is_u32_lxor a b : is_u32 a → is_u32 b → is_u32 (Z.lxor a b).
Proof.
  rewrite !is_u32_land. intros Ha Hb. rewrite <- Ha, <- Hb at 2.
  apply Z.bits_inj'. intros n Hn. rewrite !Z.land_spec, !Z.lxor_spec, !Z.land_spec.
  by destruct (Z.testbit a n), (Z.testbit b n), (Z.testbit (Z.ones 32) n).
Qed.

Lemma is_u32_shiftr a n : 0 ≤ n → is_u32 a → is_u32 (Z.shiftr a n).
Proof.
  intros Hn Ha. unfold is_u32 in *. rewrite Z.shiftr_div_pow2 by done.
  assert (0 < 2 ^ n) by (by apply Z.pow_pos_nonneg).
  split; [apply Z.div_pos; lia|]. apply Z.div_lt_upper_bound; nia.
Qed.

Lemma crc_rounds_u32 x : is_u32 x → is_u32 (crc_rounds x).
Proof.
  unfold crc_rounds. generalize 8%nat. intros n Hx. induction n as [|n IH]; [done|].
  rewrite Nat.iter_succ, crc_round_alt. apply is_u32_lxor; [|by apply is_u32_shiftr].
  destruct (Z.testbit _ 0); unfold is_u32, polynomial; lia.
Qed.

Lemma byte_u32 b : byte_ok b → is_u32 b.
Proof. unfold byte_ok, is_u32. lia. Qed.

Lemma crc_rounds_split x :
  crc_rounds x = Z.lxor (crc_rounds (Z.land x 255)) (Z.shiftr x 8).
Proof.
  rewrite (split_low_byte x) at 1. by rewrite crc_rounds_lxor, crc_rounds_high.
Qed.

(** Eight rounds lose nothing: the top byte of the result tells the byte shifted out. *)
Lemma crc_rounds_inj x y : is_u32 x → is_u32 y → crc_rounds x = crc_rounds y → x = y.
Proof.
  intros Hx Hy Heq. rewrite (crc_rounds_split x), (crc_rounds_split y) in Heq.
  assert (Z.land x 255 = Z.land y 255) as Hlow.
  { apply crc_rounds_top_inj; [apply land255_range..|].
    apply (f_equal top) in Heq. unfold top in *. rewrite !Z.shiftr_lxor, !Z.shiftr_shiftr in Heq by lia.
    assert (∀ z, is_u32 z → Z.shiftr z (8 + 24) = 0) as Hz.
    { intros z Hz. rewrite Z.shiftr_div_pow2 by lia. by apply Z.div_small. }
    by rewrite !Hz, !Z.lxor_0_r in Heq. }
  rewrite Hlow in Heq. apply (f_equal (Z.lxor (crc_rounds (Z.land y 255)))) in Heq.
  rewrite <- !Z.lxor_assoc, Z.lxor_nilpotent, !Z.lxor_0_l in Heq.
  by rewrite (split_low_byte x), (split_low_byte y), Hlow, Heq.
Qed.

Lemma lxor_inj a b c : Z.lxor a b = Z.lxor a c → b = c.
Proof.
  intros Heq. apply (f_equal (Z.lxor a)) in Heq.
  by rewrite <- !Z.lxor_assoc, Z.lxor_nilpotent, !Z.lxor_0_l in Heq.
Qed.

Lemma crc_bitwise_u32 u : ∀ c, Forall byte_ok u → is_u32 c → is_u32 (crc_bitwise u c).
Proof.
  induction u as [|b u IH]; intros c Hu Hc; cbn [crc_bitwise]; [done|].
  apply Forall_cons in Hu as [Hb Hu]. apply IH; [done|].
  by apply crc_rounds_u32, is_u32_lxor, byte_u32.
Qed.

Lemma crc_bitwise_inj u : ∀ c d,
  Forall byte_ok u → is_u32 c → is_u32 d → crc_bitwise u c = crc_bitwise u d → c = d.
Proof.
  induction u as [|b u IH]; intros c d Hu Hc Hd; cbn [crc_bitwise]; [done|].
  apply Forall_cons in Hu as [Hb Hu]. pose proof (byte_u32 b Hb). intros Heq.
  apply IH in Heq; [|done|by apply crc_rounds_u32, is_u32_lxor..].
  apply crc_rounds_inj in Heq; [|by apply is_u32_lxor..].
  rewrite !(Z.lxor_comm _ b) in Heq. by apply lxor_inj in Heq.
Qed.

Lemma crc_bitwise_app u v c : crc_bitwise (u ++ v) c = crc_bitwise v (crc_bitwise u c).
Proof. revert c. induction u as [|b u IH]; intros c; cbn; [done|apply IH]. Qed.

Lemma mask_twice x : Z.lxor (Z.lxor x MASK32) MASK32 = x.
Proof. by rewrite Z.lxor_assoc, Z.lxor_nilpotent, Z.lxor_0_r. Qed.

(** ** Properties *)

(** C27: the table-driven [compute_crc32] computes the bit-at-a-time CRC of the
    reflected polynomial, on every buffer and initial value, on the first call, which
    generates the table, and on every later one; no access leaves the table. *)
Theorem compute_crc32_correct buf initial s :
  Forall byte_ok buf → crc_ok s →
  compute_crc32 buf initial s = Ok (crc32 buf initial) (CrcState full_table true) ∧
  crc_ok (CrcState full_table true).
Proof. intros Hb Hs. split; [by apply compute_run|done]. Qed.

Definition bytes_of_string (s : string) : list Z := Z.of_N ∘ Ascii.N_of_ascii <$> String.list_ascii_of_string s.

(** The call of main(), with the check value the source gives. *)
Lemma compute_crc32_correct_witness :
  ∃ s, compute_crc32 (bytes_of_string "The quick brown fox jumps over the lazy dog") 0 crc_init
       = Ok 1095738169 s.   (* 0x414fa339 *)
Proof.
  exists (CrcState full_table true).
  destruct (compute_crc32_correct
    (bytes_of_string "The quick brown fox jumps over the lazy dog") 0 crc_init) as [Hrun _].
  - apply (bool_decide_unpack _). vm_compute. exact I.
  - reflexivity.
  - rewrite Hrun. vm_compute. reflexivity.
Defined.

(** The checksum of a concatenation can be computed piece by piece, passing the
    checksum of the first piece as [initial]. *)
Theorem compute_crc32_chain a b initial s :
  Forall byte_ok a → Forall byte_ok b → crc_ok s →
  (c ← compute_crc32 a initial; compute_crc32 b c) s = compute_crc32 (a ++ b) initial s.
Proof.
  intros Ha Hb Hs. rewrite (bind_Ok _ _ _ _ _ (compute_run a initial s Ha Hs)).
  rewrite !compute_run by (done || by apply Forall_app). f_equal.
  unfold crc32. by rewrite mask_twice, crc_bitwise_app.
Qed.

Lemma compute_crc32_chain_witness :
  (c ← compute_crc32 [1; 2; 255] 0; compute_crc32 [7] c) crc_init =
  compute_crc32 [1; 2; 255; 7] 0 crc_init.
Proof.
  apply (compute_crc32_chain [1; 2; 255] [7] 0 crc_init);
    [apply (bool_decide_unpack _); vm_compute; exact I..|reflexivity].
Defined.

(** C28: the checksum changes whenever one byte of the buffer changes, whatever its
    position and its new value. *)
Theorem compute_crc32_detects_byte_error l r x y initial s :
  Forall byte_ok (l ++ x :: r) → byte_ok y → x ≠ y → is_u32 initial → crc_ok s →
  ∃ c d s', compute_crc32 (l ++ x :: r) initial s = Ok c s' ∧
            compute_crc32 (l ++ y :: r) initial s = Ok d s' ∧ c ≠ d.
Proof.
  intros Hx Hy Hne Hi Hs. pose proof Hx as [Hl [Hbx Hr]%Forall_cons]%Forall_app.
  exists (crc32 (l ++ x :: r) initial), (crc32 (l ++ y :: r) initial), (CrcState full_table true).
  split_and!; [by apply compute_run|apply compute_run; [|done]|].
  - apply Forall_app. split; [done|]. by apply Forall_cons.
  - unfold crc32. intros Heq. rewrite !(Z.lxor_comm _ MASK32) in Heq. apply lxor_inj in Heq.
    rewrite !crc_bitwise_app in Heq. cbn [crc_bitwise] in Heq.
    set (c := crc_bitwise l _) in Heq.
    assert (is_u32 c) by (apply crc_bitwise_u32; [done|]; apply is_u32_lxor; [|done]; done).
    apply crc_bitwise_inj in Heq;
      [|done|by apply crc_rounds_u32, is_u32_lxor, byte_u32..].
    apply crc_rounds_inj in Heq; [|by apply is_u32_lxor, byte_u32..].
    by apply lxor_inj in Heq.
Qed.

Lemma compute_crc32_detects_byte_error_witness :
  ∃ c d s', compute_crc32 [1; 2; 3] 0 crc_init = Ok c s' ∧
            compute_crc32 [1; 9; 3] 0 crc_init = Ok d s' ∧ c ≠ d.
Proof.
  apply (compute_crc32_detects_byte_error [1] [3] 2 9 0 crc_init).
  - apply (bool_decide_unpack _). vm_compute. exact I.
  - unfold byte_ok. lia.
  - lia.
  - unfold is_u32. lia.
  - reflexivity.
Defined.
