(* ===== verification/Chrono.v ===== *)
(** The calendar types of <chrono> that the sources use: year_month_day, its
    conversion to sys_days, hh_mm_ss, and time points of system_clock, which count
    nanoseconds in a signed 64-bit integer. *)

From S2P Require Import Prelude.
Local Open Scope Z_scope.

Record year_month_day := YMD { ymd_year : Z; ymd_month : Z; ymd_day : Z }.

(** [year] keeps a short, [month] and [day] an unsigned char. *)
Definition mk_ymd (y m d : Z) : year_month_day := YMD (s16 y) (u8 m) (u8 d).

Definition is_leap (y : Z) : bool :=
  (y `mod` 4 =? 0) && (negb (y `mod` 100 =? 0) || (y `mod` 400 =? 0)).

Definition days_in_month (y m : Z) : Z :=
  if m =? 2 then if is_leap y then 29 else 28
  else if (m =? 4) || (m =? 6) || (m =? 9) || (m =? 11) then 30 else 31.

Definition ymd_ok (d : year_month_day) : Prop :=
  1 ≤ ymd_month d ≤ 12 ∧ 1 ≤ ymd_day d ≤ days_in_month (ymd_year d) (ymd_month d).

(** The conversion to sys_days: days since 1970-01-01 in the civil calendar.  The
    year is counted from March, so that the leap day comes last. *)
Definition sys_days (d : year_month_day) : Z :=
  let y := if ymd_month d <=? 2 then ymd_year d - 1 else ymd_year d in
  let mp := if ymd_month d <=? 2 then ymd_month d + 9 else ymd_month d - 3 in
  365 * y + y `div` 4 - y `div` 100 + y `div` 400 + (153 * mp + 2) `div` 5 + ymd_day d - 1 - 719468.

(** hh_mm_ss of a number of seconds. *)
Record hh_mm_ss := HMS { hms_neg : bool; hms_hours : Z; hms_minutes : Z; hms_seconds : Z }.

Definition mk_hms (secs : Z) : hh_mm_ss :=
  let s := Z.abs secs in
  HMS (secs <? 0) (s `div` 3600) ((s `mod` 3600) `div` 60) (s `mod` 60).

(** Signed 64-bit arithmetic of durations: overflow is undefined. *)
Definition chk64 {S} (z : Z) : M S Z :=
  if in_s 64 z then mret z else undefined ub_signed_overflow.

Definition NS : Z := 1000000000.

(** The day after, in the Gregorian calendar. *)
Definition next_day (d : year_month_day) : year_month_day :=
  let '(YMD y m dd) := d in
  if dd <? days_in_month y m then YMD y m (dd + 1)
  else if m <? 12 then YMD y (m + 1) 1
  else YMD (y + 1) 1 1.

(** ** Lemmas *)

(** Evaluate the day offset of a month that has been fixed. *)
Ltac month_offsets :=
  repeat match goal with
  | |- context [?m <=? 2] =>
      let v := eval vm_compute in (m <=? 2) in change (m <=? 2) with v; cbn match
  | |- context [(153 * ?m + 2) `div` 5] =>
      let v := eval vm_compute in ((153 * m + 2) `div` 5) in
      change ((153 * m + 2) `div` 5) with v
  end.

Ltac case_month m :=
  let Hcase := fresh in
  assert (m = 1 ∨ m = 2 ∨ m = 3 ∨ m = 4 ∨ m = 5 ∨ m = 6 ∨ m = 7 ∨ m = 8 ∨ m = 9 ∨
          m = 10 ∨ m = 11 ∨ m = 12) as Hcase by lia;
  destruct Hcase as [->|[->|[->|[->|[->|[->|[->|[->|[->|[->|[->| ->]]]]]]]]]]];
  cbn -[Z.mul Z.div Z.add Z.sub is_leap] in *.

Lemma sys_days_epoch : sys_days (YMD 1970 1 1) = 0.
Proof. reflexivity. Qed.

(** 365 or 366 more days from one March 1 to the next. *)
Lemma year_length y :
  365 * y + y `div` 4 - y `div` 100 + y `div` 400 =
  365 * (y - 1) + (y - 1) `div` 4 - (y - 1) `div` 100 + (y - 1) `div` 400 +
    (if is_leap y then 366 else 365).
Proof.
  unfold is_leap. destruct (y `mod` 4 =? 0) eqn:?, (y `mod` 100 =? 0) eqn:?,
    (y `mod` 400 =? 0) eqn:?; cbn [andb orb negb]; bool_to_prop;
    Z.to_euclidean_division_equations; lia.
Qed.

Lemma sys_days_next d : ymd_ok d → sys_days (next_day d) = sys_days d + 1.
Proof.
  destruct d as [y m dd]. intros [Hm Hd]. cbn [ymd_year ymd_month ymd_day] in *.
  unfold next_day. case_if.
  - unfold sys_days. cbn [ymd_year ymd_month ymd_day]. lia.
  - assert (dd = days_in_month y m) as -> by lia. pose proof (year_length y) as Hy.
    unfold sys_days, days_in_month in *.
    case_month m; month_offsets; rewrite ?Z.add_simpl_r; destruct (is_leap y); lia.
Qed.

Lemma mk_hms_valid h m s :
  0 ≤ h → 0 ≤ m < 60 → 0 ≤ s < 60 → mk_hms (h * 3600 + m * 60 + s) = HMS false h m s.
Proof.
  intros Hh Hm Hs. unfold mk_hms. rewrite Z.abs_eq by lia.
  rewrite (proj2 (Z.ltb_ge _ 0)) by lia. f_equal; Z.to_euclidean_division_equations; lia.
Qed.

Lemma chk64_run {S} z (s : S) : - 2 ^ 63 ≤ z < 2 ^ 63 → chk64 z s = Ok z s.
Proof. intros Hz. unfold chk64. by rewrite (in_s_true 64 z) by done. Qed.

Lemma chk64_overflow {S} z (s : S) : z < - 2 ^ 63 ∨ 2 ^ 63 ≤ z → chk64 z s = UB ub_signed_overflow.
Proof.
  intros Hz. unfold chk64, in_s. destruct Hz.
  - by rewrite (proj2 (Z.leb_gt _ _)) by done.
  - by rewrite (proj2 (Z.ltb_ge z _)), andb_false_r by done.
Qed.

(** Days of a year lie between the first days of the years. *)
Lemma sys_days_bounds d :
  ymd_ok d →
  365 * ymd_year d + ymd_year d `div` 4 - ymd_year d `div` 100 + ymd_year d `div` 400 - 719528 - 1 ≤
    sys_days d ≤
  365 * ymd_year d + ymd_year d `div` 4 - ymd_year d `div` 100 + ymd_year d `div` 400 - 719528 + 367.
Proof.
  destruct d as [y m dd]. intros [Hm Hd]. cbn [ymd_year ymd_month ymd_day] in *.
  pose proof (year_length y) as Hy. unfold sys_days, days_in_month in *.
  cbn [ymd_year ymd_month ymd_day].
  case_month m; month_offsets; destruct (is_leap y); lia.
Qed.
