(* ===== verification/Config.v ===== *)
(** class Config (src/common/include/common/config.hpp, src/common/src/config.cpp):
    where the configuration file is looked for, and the accessors that convert toml
    values to <chrono> types.

    toml++ is outside the repository: its node views are the class [Toml].  A view
    that refers to no node converts to false, indexing it gives such a view again, and
    [as_date()] and the like give a null pointer when there is no node or it has
    another type; here a view is an [option node] and a pointer an [option]. *)

From S2P Require Import Prelude Chrono.
Local Open Scope Z_scope.

(** toml::date, toml::time, toml::date_time. *)
Record toml_date := TomlDate { td_year : Z; td_month : Z; td_day : Z }.
Record toml_time := TomlTime { tt_hour : Z; tt_minute : Z; tt_second : Z; tt_nanosecond : Z }.
Record toml_date_time := TomlDateTime {
  tdt_date : toml_date;
  tdt_time : toml_time;
  tdt_offset : option Z    (* minutes *)
}.

Class Toml := {
  node : Type;
  table : Type;
  table_get : table → string → option node;   (* config_[key] *)
  node_get : node → string → option node;     (* [key] of a view that refers to a node *)
  at_path : table → string → option node;
  as_date : node → option toml_date;
  as_time : node → option toml_time;
  as_date_time : node → option toml_date_time
}.

(** What toml++ documents: a node has one type, and dates and times were checked when
    the file was parsed. *)
Definition date_ok (d : toml_date) : Prop :=
  0 ≤ td_year d ≤ 9999 ∧ ymd_ok (YMD (td_year d) (td_month d) (td_day d)).
Definition time_ok (t : toml_time) : Prop :=
  0 ≤ tt_hour t < 24 ∧ 0 ≤ tt_minute t < 60 ∧ 0 ≤ tt_second t < 60 ∧ 0 ≤ tt_nanosecond t < NS.
Definition date_time_ok (t : toml_date_time) : Prop :=
  date_ok (tdt_date t) ∧ time_ok (tdt_time t) ∧
  match tdt_offset t with Some o => -1440 < o < 1440 | None => True end.

Class TomlLaws `{Toml} := {
  toml_date_valid n d : as_date n = Some d → date_ok d;
  toml_time_valid n t : as_time n = Some t → time_ok t;
  toml_date_time_valid n t : as_date_time n = Some t → date_time_ok t
}.

(** [->get()] of the pointer that [as_date()] and the like return. *)
Definition deref {S A} (p : option A) : M S A :=
  match p with Some a => mret a | None => undefined ub_null_deref end.

(** ** Conversions *)

Definition ymd_of (td : toml_date) : year_month_day := mk_ymd (td_year td) (td_month td) (td_day td).

Definition hms_of (tt : toml_time) : hh_mm_ss :=
  mk_hms (tt_hour tt * 3600 + tt_minute tt * 60 + tt_second tt).

(** The same six lines stand in both overloads of get_as_systime and in
    to_chrono_timepoint of the toml spike.  The sum is in seconds until nanoseconds are
    added. *)
Definition timepoint_of {S} (tdt : toml_date_time) : M S Z :=
  let sd := sys_days (ymd_of (tdt_date tdt)) in
  let t := tdt_time tdt in
  let secs := sd * 86400 + tt_hour t * 3600 + tt_minute t * 60 + tt_second t in
  ns ← chk64 (secs * NS);
  tp ← chk64 (ns + tt_nanosecond t);
  match tdt_offset tdt with
  | Some m => off ← chk64 (m * 60 * NS); chk64 (tp - off)
  | None => mret tp
  end.

(** The function to_chrono_timepoint of src/spike/toml_to_timepoint.cpp. *)
Definition to_chrono_timepoint {S} (dt : toml_date_time) : M S Z := timepoint_of dt.

Section config.
Context `{Toml}.

(** The object: its parsed table (the logger is left out). *)
Record Config := MkConfig { config_ : table }.

Definition index1 (c : Config) (key : string) : option node := table_get (config_ c) key.
Definition index2 (c : Config) (tbl key : string) : option node :=
  n ← table_get (config_ c) tbl; node_get n key.

(** get_as<T>: [value] is toml++'s conversion of a view to T. *)
Definition get_as {T} (value : option node → option T) (keypath : string) : M Config (option T) :=
  c ← get; mret (value (at_path (config_ c) keypath)).

Definition get_as_date (key : string) : M Config (option year_month_day) :=
  c ← get;
  match index1 c key with
  | None => mret None
  | Some _ => td ← deref (index1 c key ≫= as_date); mret (Some (ymd_of td))
  end.

Definition get_as_date_in (tbl key : string) : M Config (option year_month_day) :=
  c ← get;
  match index2 c tbl key with
  | None => mret None
  | Some _ => td ← deref (index2 c tbl key ≫= as_date); mret (Some (ymd_of td))
  end.

Definition get_as_time (key : string) : M Config (option hh_mm_ss) :=
  c ← get;
  match index1 c key with
  | None => mret None
  | Some _ => tt ← deref (index1 c key ≫= as_time); mret (Some (hms_of tt))
  end.

Definition get_as_time_in (tbl key : string) : M Config (option hh_mm_ss) :=
  c ← get;
  match index2 c tbl key with
  | None => mret None
  | Some _ => tt ← deref (index2 c tbl key ≫= as_time); mret (Some (hms_of tt))
  end.

Definition get_as_systime (key : string) : M Config (option Z) :=
  c ← get;
  match index1 c key with
  | None => mret None
  | Some _ =>
      tdt ← deref (index1 c key ≫= as_date_time);
      tp ← timepoint_of tdt;
      mret (Some tp)
  end.

(** It tests config_[table][key] and reads config_[key]. *)
Definition get_as_systime_in (tbl key : string) : M Config (option Z) :=
  c ← get;
  match index2 c tbl key with
  | None => mret None
  | Some _ =>
      tdt ← deref (index1 c key ≫= as_date_time);
      tp ← timepoint_of tdt;
      mret (Some tp)
  end.

(** ** The configuration file *)

Definition config_home_filepath : string := "~/.config/unid.toml".
Definition config_system_filepath : string := "/etc/unid/unid.toml".

Definition not_found : exn := runtime_error "error: unid.toml not found".

(** [exists_]: std::filesystem::exists.  [debug_home]: [None] when NDEBUG is defined;
    otherwise the string [home] that the debug branch tests (no source file declares
    it). *)
Definition get_unid_filepath (exists_ : string → bool) (debug_home : option string) :
    M unit string :=
  let system :=
    if negb (exists_ config_system_filepath) then throw not_found
    else mret config_system_filepath in
  match debug_home with
  | Some home =>
      if negb (String.eqb home "") then
        if exists_ config_home_filepath then mret config_home_filepath else system
      else system
  | None => system
  end.

(** The constructor: [parse] is toml::parse_file (on the left the description of the
    parse_error it throws, from which a runtime_error is made). *)
Definition Config_ctor (exists_ : string → bool) (debug_home : option string)
    (parse : string → string + table) : M unit Config :=
  path ← get_unid_filepath exists_ debug_home;
  match parse path with
  | inr t => mret (MkConfig t)
  | inl what => throw (runtime_error what)
  end.
End config.
