(* ===== verification/ConfigProps.v ===== *)
(** Properties of class Config, with a concrete toml table for the witnesses. *)

From S2P Require Import Prelude Chrono Config.
Local Open Scope Z_scope.

(** The instant a toml date-time denotes: nanoseconds since the epoch, UTC. *)
Definition utc_ns (t : toml_date_time) : Z :=
  let d := tdt_date t in
  let tm := tdt_time t in
  (sys_days (YMD (td_year d) (td_month d) (td_day d)) * 86400 +
   tt_hour tm * 3600 + (tt_minute tm - default 0 (tdt_offset t)) * 60 + tt_second tm) * NS +
  tt_nanosecond tm.

Lemma days_in_month_le y m : 28 ≤ days_in_month y m ≤ 31.
Proof. unfold days_in_month. repeat case_if; lia. Qed.

Lemma ymd_of_valid d : date_ok d → ymd_of d = YMD (td_year d) (td_month d) (td_day d).
Proof.
  intros [Hy [Hm Hd]]. cbn in Hm, Hd. pose proof (days_in_month_le (td_year d) (td_month d)).
  unfold ymd_of, mk_ymd. by rewrite swrap_small, !uwrap_small by lia.
Qed.

Lemma hms_of_valid t :
  time_ok t → hms_of t = HMS false (tt_hour t) (tt_minute t) (tt_second t).
Proof. intros (Hh & Hm & Hs & _). apply mk_hms_valid; lia. Qed.

(** Days of the years whose every instant fits a 64-bit count of nanoseconds. *)
Lemma sys_days_range d :
  ymd_ok d → 1678 ≤ ymd_year d ≤ 2261 → -106700 ≤ sys_days d ≤ 106700.
Proof.
  intros Hd Hy. pose proof (sys_days_bounds d Hd) as Hb.
  Z.to_euclidean_division_equations. lia.
Qed.

(** The count of nanoseconds is 64 bits wide: the whole seconds of the local time, the local time
    and the instant itself must fit. *)
Definition fits64 (z : Z) : Prop := - 2 ^ 63 ≤ z < 2 ^ 63.

Definition local_ns (t : toml_date_time) : Z := utc_ns (TomlDateTime (tdt_date t) (tdt_time t) None).

Definition representable (t : toml_date_time) : Prop :=
  fits64 (local_ns t - tt_nanosecond (tdt_time t)) ∧ fits64 (local_ns t) ∧ fits64 (utc_ns t).

#[global] Instance fits64_dec z : Decision (fits64 z).
Proof. unfold fits64. apply _. Defined.

#[global] Instance representable_dec t : Decision (representable t).
Proof. unfold representable. apply _. Defined.

(** The three sums of the code, on a count [w] of whole seconds. *)
Lemma sums_exact {S} (w n : Z) (off : option Z) (s : S) :
  -1440 ≤ default 0 off ≤ 1440 →
  (ns ← chk64 w; tp ← chk64 (ns + n);
   match off with Some m => o ← chk64 (m * 60 * NS); chk64 (tp - o) | None => mret tp end) s =
  if decide (fits64 w ∧ fits64 (w + n) ∧ fits64 (w + n - default 0 off * 60 * NS))
  then Ok (w + n - default 0 off * 60 * NS) s else UB ub_signed_overflow.
Proof.
  intros Ho. rewrite bind_run. destruct (decide (fits64 w)) as [Hw|Hw];
    [rewrite (chk64_run w s Hw)|rewrite (chk64_overflow w s) by (unfold fits64 in Hw; lia);
                                by rewrite decide_False by tauto].
  rewrite bind_run. destruct (decide (fits64 (w + n))) as [Hl|Hl];
    [rewrite (chk64_run _ s Hl)|rewrite (chk64_overflow _ s) by (unfold fits64 in Hl; lia);
                                by rewrite decide_False by tauto].
  destruct off as [m|]; cbn [default from_option id] in *.
  - rewrite bind_run, (chk64_run (m * 60 * NS) s) by (unfold NS; lia).
    destruct (decide (fits64 (w + n - m * 60 * NS))) as [Hu|Hu].
    + by rewrite (chk64_run _ s Hu), decide_True by done.
    + rewrite (chk64_overflow _ s) by (unfold fits64 in Hu; lia). by rewrite decide_False by tauto.
  - replace (w + n - 0 * 60 * NS) with (w + n) by lia. by rewrite ret_run, decide_True by done.
Qed.

(** The arithmetic overflows exactly when one of them does not. *)
Lemma timepoint_exact {S} t (s : S) :
  date_time_ok t →
  timepoint_of t s = if decide (representable t) then Ok (utc_ns t) s else UB ub_signed_overflow.
Proof.
  intros (Hd & _ & Ho). unfold timepoint_of. rewrite (ymd_of_valid _ Hd), sums_exact.
  2: { destruct (tdt_offset t); cbn in *; lia. }
  set (sd := sys_days _). set (t' := tdt_time t). set (o := default 0 (tdt_offset t)).
  set (w := (sd * 86400 + tt_hour t' * 3600 + tt_minute t' * 60 + tt_second t') * NS).
  assert (utc_ns t = w + tt_nanosecond t' - o * 60 * NS) as Hu.
  { unfold utc_ns. fold sd t' o. unfold w. lia. }
  assert (local_ns t = w + tt_nanosecond t') as Hl.
  { unfold local_ns, utc_ns. cbn [tdt_date tdt_time tdt_offset]. fold sd t'. unfold w. cbn. lia. }
  assert (representable t ↔
    fits64 w ∧ fits64 (w + tt_nanosecond t') ∧ fits64 (w + tt_nanosecond t' - o * 60 * NS)) as Hr.
  { unfold representable. fold t'. by rewrite Hu, Hl, Z.add_simpl_r. }
  rewrite Hu. by rewrite (decide_ext _ _ _ _ Hr).
Qed.

(** The years in which every instant fits, and those in which none does. *)
Lemma representable_years t :
  date_time_ok t → 1678 ≤ td_year (tdt_date t) ≤ 2261 → representable t.
Proof.
  intros (Hd & (Hh & Hm & Hs & Hn) & Ho) Hy. destruct Hd as [_ Hd].
  pose proof (sys_days_range _ Hd Hy) as Hsd. unfold representable, local_ns, utc_ns, fits64.
  cbn [tdt_date tdt_time tdt_offset]. set (sd := sys_days _) in *. unfold NS in *.
  destruct (tdt_offset t) as [m|]; cbn [default from_option id] in *; unfold default, from_option, id; lia.
Qed.

Lemma unrepresentable_years t :
  date_time_ok t → td_year (tdt_date t) ≤ 1676 ∨ 2263 ≤ td_year (tdt_date t) → ¬ representable t.
Proof.
  intros (Hd & (Hh & Hm & Hs & Hn) & _) Hy [Hw _]. destruct Hd as [_ Hd].
  pose proof (sys_days_bounds _ Hd) as Hsd. cbn [ymd_year] in Hsd.
  revert Hw. unfold local_ns, utc_ns, fits64. cbn [tdt_date tdt_time tdt_offset].
  change (default 0 None) with 0. set (sd := sys_days _) in *. unfold NS in *.
  assert (106900 ≤ sd ∨ sd ≤ -106900) by (Z.to_euclidean_division_equations; lia). lia.
Qed.

Lemma timepoint_run {S} t (s : S) :
  date_time_ok t → 1678 ≤ td_year (tdt_date t) ≤ 2261 → timepoint_of t s = Ok (utc_ns t) s.
Proof. intros Ht Hy. by rewrite timepoint_exact, decide_True by (done || by apply representable_years). Qed.

Section props.
Context `{TomlLaws}.

(** C29: [get_as_systime(key)] returns nullopt when the key is absent, and dereferences the null
    pointer of as_date_time() when it holds a value of another type.  A date-time is returned as
    the instant it denotes, to the nanosecond and with its UTC offset taken off, exactly when its
    local time, the whole seconds of that and the instant fit the 64-bit count of nanoseconds;
    otherwise the count overflows.  They fit in all years from 1678 to 2261, and in no year up to
    1676 or from 2263 on. *)
Theorem get_as_systime_correct c key :
  (table_get (config_ c) key = None → get_as_systime key c = Ok None c) ∧
  (∀ n, table_get (config_ c) key = Some n →
     match as_date_time n with
     | Some t =>
         get_as_systime key c =
           (if decide (representable t) then Ok (Some (utc_ns t)) c else UB ub_signed_overflow) ∧
         (1678 ≤ td_year (tdt_date t) ≤ 2261 → representable t) ∧
         (td_year (tdt_date t) ≤ 1676 ∨ 2263 ≤ td_year (tdt_date t) → ¬ representable t)
     | None => get_as_systime key c = UB ub_null_deref
     end).
Proof.
  unfold get_as_systime, index1. split.
  - intros Hn. rewrite get_bind. by rewrite Hn.
  - intros n Hn. destruct (as_date_time n) as [t|] eqn:Ht;
      [|rewrite get_bind, Hn; cbn [mbind option_bind]; by rewrite Ht].
    pose proof (toml_date_time_valid n t Ht) as Hok.
    split_and!; [|by apply representable_years|by apply unrepresentable_years].
    rewrite get_bind, Hn. cbn [mbind option_bind]. rewrite Ht.
    rewrite (bind_Ok _ _ c t c eq_refl), bind_run, (timepoint_exact t c Hok).
    by destruct (decide (representable t)).
Qed.

(** [get_as_systime(table, key)] never returns the value of table.key: when that
    entry exists, the result depends on the top-level key of the same name only.  Without
    one, a null pointer is dereferenced, whatever table.key holds; with one that holds
    a date-time, its instant is returned. *)
Theorem get_as_systime_in_wrong_key c tbl key n :
  index2 c tbl key = Some n →
  (index1 c key = None → get_as_systime_in tbl key c = UB ub_null_deref) ∧
  (is_Some (index1 c key) → get_as_systime_in tbl key c = get_as_systime key c).
Proof.
  intros Hn. unfold get_as_systime_in, get_as_systime. split.
  - intros H1. rewrite get_bind, Hn, H1. done.
  - intros [m Hm]. rewrite !get_bind, Hn, Hm. done.
Qed.

Lemma date_view n (c : Config) (k : toml_date → option year_month_day) :
  (∀ d, k d = Some (ymd_of d)) →
  match as_date n with
  | Some d => (td ← deref (Some n ≫= as_date); mret (k td) : M Config _) c =
              Ok (Some (YMD (td_year d) (td_month d) (td_day d))) c
  | None => (td ← deref (Some n ≫= as_date); mret (k td) : M Config _) c = UB ub_null_deref
  end.
Proof.
  intros Hk. cbn [mbind option_bind]. destruct (as_date n) as [d|] eqn:Hd; [|done].
  rewrite <- (ymd_of_valid d (toml_date_valid n d Hd)), <- Hk. done.
Qed.

Lemma time_view n (c : Config) (k : toml_time → option hh_mm_ss) :
  (∀ t, k t = Some (hms_of t)) →
  match as_time n with
  | Some t => (tt ← deref (Some n ≫= as_time); mret (k tt) : M Config _) c =
              Ok (Some (HMS false (tt_hour t) (tt_minute t) (tt_second t))) c
  | None => (tt ← deref (Some n ≫= as_time); mret (k tt) : M Config _) c = UB ub_null_deref
  end.
Proof.
  intros Hk. cbn [mbind option_bind]. destruct (as_time n) as [t|] eqn:Ht; [|done].
  rewrite <- (hms_of_valid t (toml_time_valid n t Ht)), <- Hk. done.
Qed.

(** C30: [get_as_date] and [get_as_time], with and without a table, return exactly the
    calendar date, and the hours, minutes and seconds, that the file has under the key,
    and nullopt exactly when the entry is absent; an entry of another type makes them
    dereference a null pointer. *)
Theorem get_as_date_time_correct c tbl key :
  let date_spec (view : option node) (run : outcome Config (option year_month_day)) :=
    match view with
    | None => run = Ok None c
    | Some n => match as_date n with
                | Some d => run = Ok (Some (YMD (td_year d) (td_month d) (td_day d))) c
                | None => run = UB ub_null_deref
                end
    end in
  let time_spec (view : option node) (run : outcome Config (option hh_mm_ss)) :=
    match view with
    | None => run = Ok None c
    | Some n => match as_time n with
                | Some t => run = Ok (Some (HMS false (tt_hour t) (tt_minute t) (tt_second t))) c
                | None => run = UB ub_null_deref
                end
    end in
  date_spec (index1 c key) (get_as_date key c) ∧
  date_spec (index2 c tbl key) (get_as_date_in tbl key c) ∧
  time_spec (index1 c key) (get_as_time key c) ∧
  time_spec (index2 c tbl key) (get_as_time_in tbl key c).
Proof.
  cbn zeta. unfold get_as_date, get_as_date_in, get_as_time, get_as_time_in. rewrite !get_bind.
  split_and!.
  - destruct (index1 c key) as [n|]; [by apply date_view|done].
  - destruct (index2 c tbl key) as [n|]; [by apply date_view|done].
  - destruct (index1 c key) as [n|]; [by apply time_view|done].
  - destruct (index2 c tbl key) as [n|]; [by apply time_view|done].
Qed.
End props.

(** ** The calendar *)

Definition with_date (t : toml_date_time) (d : year_month_day) : toml_date_time :=
  TomlDateTime (TomlDate (ymd_year d) (ymd_month d) (ymd_day d)) (tdt_time t) (tdt_offset t).

Lemma next_day_ok d : ymd_ok d → ymd_ok (next_day d).
Proof.
  destruct d as [y m dd]. intros [Hm Hd]. cbn in Hm, Hd. unfold next_day. case_if; [|case_if].
  - split; cbn; lia.
  - split; cbn; [lia|]. pose proof (days_in_month_le y (m + 1)). lia.
  - split; cbn; [lia|]. pose proof (days_in_month_le (y + 1) 1). lia.
Qed.

(** The time points of [to_chrono_timepoint] (and of get_as_systime, which has the
    same code) follow the Gregorian calendar: midnight of 1970-01-01 UTC is 0, the same
    time one calendar day later, across month ends, leap days and year ends, is 86400
    seconds more, and one more minute of UTC offset is 60 seconds less. *)
Theorem timepoint_calendar t d d' :
  date_time_ok t → tdt_date t = TomlDate (ymd_year d) (ymd_month d) (ymd_day d) →
  d' = next_day d → 1678 ≤ ymd_year d → ymd_year d' ≤ 2261 →
  (∃ tp, to_chrono_timepoint t tt = Ok tp tt ∧
         to_chrono_timepoint (with_date t d') tt = Ok (tp + 86400 * NS) tt ∧
         (∀ m, tdt_offset t = Some m → -1439 ≤ m - 1 →
            to_chrono_timepoint (TomlDateTime (tdt_date t) (tdt_time t) (Some (m - 1))) tt =
              Ok (tp + 60 * NS) tt)) ∧
  to_chrono_timepoint (TomlDateTime (TomlDate 1970 1 1) (TomlTime 0 0 0 0) None) tt = Ok 0 tt.
Proof.
  intros Hok Hdate -> Hlo Hhi. split; [|reflexivity].
  pose proof Hok as (Hd & Ht & Ho). pose proof Hd as [Hy Hymd]. rewrite Hdate in Hymd, Hy.
  cbn [td_year td_month td_day] in Hymd, Hy.
  assert (YMD (ymd_year d) (ymd_month d) (ymd_day d) = d) as Hdd by (by destruct d).
  rewrite Hdd in Hymd. pose proof (next_day_ok d Hymd) as Hnext.
  pose proof (sys_days_next d Hymd) as Hsd.
  assert (ymd_year d ≤ ymd_year (next_day d)) as Hmono.
  { destruct d as [y m dd]. unfold next_day. repeat case_if; cbn; lia. }
  unfold to_chrono_timepoint. exists (utc_ns t). split_and!.
  - apply timepoint_run; [done|]. rewrite Hdate. cbn. lia.
  - rewrite timepoint_run.
    + f_equal. unfold utc_ns, with_date. cbn [tdt_date tdt_time tdt_offset td_year td_month td_day].
      rewrite Hdate. cbn [td_year td_month td_day]. rewrite Hdd.
      assert (YMD (ymd_year (next_day d)) (ymd_month (next_day d)) (ymd_day (next_day d)) =
              next_day d) as -> by (by destruct (next_day d)).
      rewrite Hsd. unfold NS. lia.
    + split; [split; [cbn; lia|cbn; by destruct (next_day d)]|by split].
    + cbn. lia.
  - intros m Hm Hlow. rewrite Hm in Ho. rewrite timepoint_run.
    + f_equal. unfold utc_ns. cbn [tdt_date tdt_time tdt_offset]. rewrite Hm.
      unfold default, from_option, id, NS. lia.
    + split; [done|]. split; [done|]. cbn. lia.
    + cbn [tdt_date]. rewrite Hdate. cbn. lia.
Qed.

(** ** The configuration file *)

(** [get_unid_filepath] returns one of two fixed paths, and only one that exists:
    the one in the home directory only in a debug build with a non-empty [home].  That
    path starts with a literal tilde, which no function expands, so that a file in the
    user's home directory is not found; with no file at either path the documented
    runtime_error is thrown. *)
Theorem get_unid_filepath_spec exists_ debug_home :
  match get_unid_filepath exists_ debug_home tt with
  | Ok p _ => exists_ p = true ∧
      ((p = "~/.config/unid.toml"%string ∧ ∃ home, debug_home = Some home ∧ home ≠ ""%string) ∨
       p = "/etc/unid/unid.toml"%string)
  | Throw e _ => e = not_found ∧ exists_ "/etc/unid/unid.toml"%string = false
  | _ => False
  end ∧
  (exists_ "~/.config/unid.toml"%string = false → exists_ "/etc/unid/unid.toml"%string = false →
     get_unid_filepath exists_ debug_home tt = Throw not_found tt).
Proof.
  unfold get_unid_filepath, config_home_filepath, config_system_filepath.
  destruct debug_home as [home|]; [destruct (String.eqb home "") eqn:Hh; cbn [negb]|];
    destruct (exists_ "~/.config/unid.toml"%string) eqn:Hhome;
    destruct (exists_ "/etc/unid/unid.toml"%string) eqn:Hsys; cbn; split; try done;
    split; try done; try (by right); left; split; try done; exists home; split; try done;
    by apply String.eqb_neq.
Qed.

(** A user whose configuration is in /home/ann/.config: not found in a debug build. *)
Lemma get_unid_filepath_spec_witness :
  get_unid_filepath (String.eqb "/home/ann/.config/unid.toml") (Some "/home/ann"%string) tt =
    Throw not_found tt.
Proof.
  apply (get_unid_filepath_spec (String.eqb "/home/ann/.config/unid.toml") (Some "/home/ann"%string));
    reflexivity.
Defined.

(** ** A concrete toml document *)

Inductive tval : Type :=
| VDate (d : toml_date)
| VTime (t : toml_time)
| VDateTime (t : toml_date_time)
| VTable (l : list (string * tval))
| VOther.

Fixpoint assoc (l : list (string * tval)) (k : string) : option tval :=
  match l with
  | [] => None
  | (k', v) :: l' => if String.eqb k k' then Some v else assoc l' k
  end.

(** Only valid dates and times are given out, as the parser guarantees. *)
Definition valid_date_time (t : toml_date_time) : bool :=
  let d := tdt_date t in
  let m := tdt_time t in
  ((0 <=? td_year d) && (td_year d <=? 9999) && (1 <=? td_month d) && (td_month d <=? 12) &&
   (1 <=? td_day d) && (td_day d <=? days_in_month (td_year d) (td_month d)) &&
   (0 <=? tt_hour m) && (tt_hour m <? 24) && (0 <=? tt_minute m) && (tt_minute m <? 60) &&
   (0 <=? tt_second m) && (tt_second m <? 60) && (0 <=? tt_nanosecond m) && (tt_nanosecond m <? NS) &&
   match tdt_offset t with Some o => (-1440 <? o) && (o <? 1440) | None => true end)%Z.

Definition demo_toml : Toml := {|
  node := tval;
  table := list (string * tval);
  table_get := assoc;
  node_get v k := match v with VTable l => assoc l k | _ => None end;
  at_path := assoc;
  as_date v := match v with
    | VDate d => if valid_date_time (TomlDateTime d (TomlTime 0 0 0 0) None) then Some d else None
    | _ => None end;
  as_time v := match v with
    | VTime t => if valid_date_time (TomlDateTime (TomlDate 0 1 1) t None) then Some t else None
    | _ => None end;
  as_date_time v := match v with
    | VDateTime t => if valid_date_time t then Some t else None
    | _ => None end
|}.

Lemma valid_date_time_ok t : valid_date_time t = true → date_time_ok t.
Proof.
  unfold valid_date_time. intros Hv. bool_to_prop.
  unfold date_time_ok, date_ok, time_ok, ymd_ok. cbn [ymd_year ymd_month ymd_day].
  destruct (tdt_offset t); bool_to_prop; repeat split; lia.
Qed.

#[global] Instance demo_toml_laws : @TomlLaws demo_toml.
Proof.
  split; intros [] x; cbn; try done; case_if; try done; intros [= <-];
    match goal with H : valid_date_time _ = true |- _ => apply valid_date_time_ok in H end;
    match goal with H : date_time_ok _ |- _ => apply H end.
Qed.

Definition dt1 : toml_date_time := TomlDateTime (TomlDate 2026 4 3) (TomlTime 14 35 25 0) (Some (-420)).

(** ld1 = 1979-05-27, odt = 2026-04-03T14:35:25-07:00, [net] start = 2026-04-03T14:35:25-07:00 *)
Definition demo_config : @Config demo_toml :=
  @MkConfig demo_toml [("ld1", VDate (TomlDate 1979 5 27)); ("odt", VDateTime dt1);
                       ("net", VTable [("start", VDateTime dt1)])]%string.

(** A date of 1600, before the first instant of the clock. *)
Definition old_config : @Config demo_toml :=
  @MkConfig demo_toml [("odt", VDateTime (TomlDateTime (TomlDate 1600 2 29) (TomlTime 0 0 0 0) None))]%string.

Lemma get_as_systime_correct_witness :
  @get_as_systime demo_toml "odt" demo_config = Ok (Some 1775252125000000000) demo_config ∧
  @get_as_systime demo_toml "odt" old_config = UB ub_signed_overflow.
Proof.
  assert (utc_ns dt1 = 1775252125000000000) as Hns by (vm_compute; reflexivity).
  destruct (@get_as_systime_correct demo_toml demo_toml_laws demo_config "odt") as [_ Hnew].
  destruct (@get_as_systime_correct demo_toml demo_toml_laws old_config "odt") as [_ Hold].
  destruct (Hnew (VDateTime dt1) eq_refl) as (Hrun & Hin & _).
  destruct (Hold _ eq_refl) as (Hrun' & _ & Hout).
  split; [rewrite Hrun, Hns, decide_True|rewrite Hrun', decide_False]; try reflexivity.
  - apply Hin. cbn. lia.
  - apply Hout. cbn. lia.
Defined.

Lemma get_as_systime_in_wrong_key_witness :
  @index2 demo_toml demo_config "net" "start" = Some (VDateTime dt1) ∧
  @get_as_systime_in demo_toml "net" "start" demo_config = UB ub_null_deref.
Proof.
  split; [reflexivity|].
  apply (@get_as_systime_in_wrong_key demo_toml demo_config "net" "start" (VDateTime dt1));
    reflexivity.
Defined.

Lemma get_as_date_time_correct_witness :
  @get_as_date demo_toml "ld1" demo_config = Ok (Some (YMD 1979 5 27)) demo_config.
Proof.
  destruct (@get_as_date_time_correct demo_toml demo_toml_laws demo_config "net" "ld1") as [Hd _].
  exact Hd.
Defined.

Lemma timepoint_calendar_witness :
  let t := TomlDateTime (TomlDate 2024 2 28) (TomlTime 14 35 25 0) (Some (-420)) in
  ∃ tp, to_chrono_timepoint t tt = Ok tp tt ∧
        to_chrono_timepoint (with_date t (YMD 2024 2 29)) tt = Ok (tp + 86400 * NS) tt.
Proof.
  cbn zeta.
  destruct (timepoint_calendar (TomlDateTime (TomlDate 2024 2 28) (TomlTime 14 35 25 0) (Some (-420)))
    (YMD 2024 2 28) (YMD 2024 2 29)) as [(tp & H1 & H2 & _) _].
  - apply valid_date_time_ok. reflexivity.
  - reflexivity.
  - reflexivity.
  - cbn; lia.
  - cbn; lia.
  - exists tp. split; [exact H1|exact H2].
Defined.
