(* ===== verification/EventEmitter.v ===== *)
(** class EventEmitter (src/client/network/event_emitter.hpp; the server's copy is the
    same): callbacks registered under an id and called in registration order.

    A callback is a value of any type [F], an empty std::function is [None].  What a
    callback does is a parameter: [act f v w] is the state outside the emitter after the
    call and the exception that leaves it, if any.  A callback may also register or
    unregister callbacks while [emit] walks over the vector: [reenters f] says that it
    changes the vector. *)

From S2P Require Import Prelude.
Local Open Scope Z_scope.

Section emitter.
Context {F W : Type} (act : F → Z → W → W * option exn) (reenters : F → bool).

Record CallbackEntry := Entry { entry_id : Z; entry_func : F }.

Record EventEmitter := Emitter {
  listeners : list CallbackEntry;
  next_id : Z;
  world : W                (* the state the callbacks work on *)
}.

Definition new_emitter (w : W) : EventEmitter := Emitter [] 0 w.

(** [int id = next_id++], then push_back. *)
Definition registerCallback (cb : option F) : M EventEmitter Z :=
  match cb with
  | None => mret (-1)
  | Some f =>
      s ← get;
      next ← add_int (next_id s) 1;
      put (Emitter (listeners s ++ [Entry (next_id s) f]) next (world s));;
      mret (next_id s)
  end.

(** erase of remove_if. *)
Definition unregisterCallback (id : Z) : M EventEmitter unit :=
  s ← get;
  put (Emitter (filter (λ e, entry_id e ≠ id) (listeners s)) (next_id s) (world s)).

(** The range-based for: a callback that changes [listeners] invalidates its iterators, and an
    exception leaves the loop. *)
Fixpoint emit_loop (es : list CallbackEntry) (value : Z) : M EventEmitter unit :=
  match es with
  | [] => mret tt
  | e :: es' =>
      if reenters (entry_func e) then undefined ub_iterator_invalidated else
      s ← get;
      let '(w, x) := act (entry_func e) value (world s) in
      put (Emitter (listeners s) (next_id s) w);;
      match x with
      | Some x => throw x
      | None => emit_loop es' value
      end
  end.

Definition emit (value : Z) : M EventEmitter unit :=
  s ← get;
  match listeners s with
  | [] => mret tt
  | es => emit_loop es value
  end.

(** ** Clients *)

Inductive eop : Type :=
| Register (cb : option F)
| Unregister (id : Z)
| Emit (value : Z).

(** A call of a client, which goes on when an exception of a callback comes out of emit. *)
Definition estep (o : eop) : M EventEmitter unit := λ s,
  match (match o with
         | Register cb => _ ← registerCallback cb; mret tt
         | Unregister id => unregisterCallback id
         | Emit value => emit value
         end) s with
  | Throw _ s' => Ok tt s'
  | r => r
  end.

Fixpoint erun (os : list eop) : M EventEmitter unit :=
  match os with
  | [] => mret tt
  | o :: os' => estep o;; erun os'
  end.

(** ** What a client may expect

    The k-th callback registered has the id k, and it is live until that id is unregistered. *)

Definition unregisters (k : Z) (o : eop) : bool :=
  match o with Unregister i => i =? k | _ => false end.

Fixpoint live (k : Z) (os : list eop) : list (Z * F) :=
  match os with
  | [] => []
  | Register (Some f) :: os' =>
      if existsb (unregisters k) os' then live (k + 1) os' else (k, f) :: live (k + 1) os'
  | _ :: os' => live k os'
  end.

Definition registers (o : eop) : bool := match o with Register (Some _) => true | _ => false end.
Definition registrations (os : list eop) : Z := Z.of_nat (length (List.filter registers os)).

(** The callbacks of a list, called one after the other: the state they leave when all return. *)
Fixpoint called (value : Z) (l : list (Z * F)) (w : W) : option W :=
  match l with
  | [] => Some w
  | (_, f) :: l' => match act f value w with (w', None) => called value l' w' | _ => None end
  end.

(** ** Lemmas *)

Lemma registrations_snoc os o :
  registrations (os ++ [o]) = registrations os + (if registers o then 1 else 0).
Proof.
  unfold registrations. rewrite List.filter_app, length_app. cbn. destruct (registers o); cbn; lia.
Qed.

Lemma registrations_cons o os :
  registrations (o :: os) = (if registers o then 1 else 0) + registrations os.
Proof. unfold registrations. cbn. destruct (registers o); cbn [length]; lia. Qed.

Lemma live_ids os : ∀ k e, e ∈ live k os → k ≤ e.1 < k + registrations os.
Proof.
  induction os as [|o os IH]; intros k e He; [by apply elem_of_nil in He|].
  rewrite registrations_cons. destruct o as [[f|]|i|v]; cbn [live registers] in *;
    try (apply IH in He; lia).
  destruct (existsb _ os); [apply IH in He; lia|]. apply elem_of_cons in He as [->|He].
  - cbn. unfold registrations. lia.
  - apply IH in He. lia.
Qed.

Lemma live_nodup os : ∀ k, NoDup (live k os).*1.
Proof.
  induction os as [|o os IH]; intros k; [constructor|].
  destruct o as [[f|]|i|v]; cbn [live]; try apply IH. destruct (existsb _ os); [apply IH|].
  cbn. constructor; [|apply IH]. intros (e & Hk & He)%list_elem_of_fmap.
  apply live_ids in He. lia.
Qed.

(** One more operation: a registration appends, an Unregister takes out its id. *)
Lemma live_snoc os o : ∀ k,
  live k (os ++ [o]) =
  match o with
  | Register (Some f) => live k os ++ [(k + registrations os, f)]
  | Unregister i => filter (λ e, e.1 ≠ i) (live k os)
  | _ => live k os
  end.
Proof.
  induction os as [|o' os IH]; intros k.
  - cbn. unfold registrations. cbn. rewrite Z.add_0_r. by destruct o as [[f|]|i|v].
  - rewrite registrations_cons. cbn [app]. destruct o' as [[f'|]|i'|v']; cbn [live registers];
      rewrite ?IH; try (by destruct o as [[f|]|i|v]; rewrite ?Z.add_0_l).
    rewrite existsb_app. cbn [existsb]. rewrite orb_false_r.
    destruct (existsb (unregisters k) os) eqn:Hu; cbn [orb].
    + destruct o as [[f|]|i|v]; try done. by rewrite Z.add_assoc.
    + destruct o as [[f|]|i|v]; cbn [unregisters]; try done.
      * by rewrite <- app_comm_cons, Z.add_assoc.
      * destruct (Z.eqb_spec i k) as [->|Hne].
        -- rewrite filter_cons_False by (cbn; naive_solver). done.
        -- by rewrite filter_cons_True by (cbn; congruence).
Qed.

Lemma register_run f s :
  0 ≤ next_id s < INT_MAX →
  registerCallback (Some f) s =
    Ok (next_id s) (Emitter (listeners s ++ [Entry (next_id s) f]) (next_id s + 1) (world s)).
Proof.
  unfold INT_MAX. intros Hn. cbn [registerCallback]. rewrite get_bind.
  by rewrite (bind_Ok _ _ _ _ _ (add_int_run _ _ s (in_s_true 32 (next_id s + 1) ltac:(lia)))).
Qed.

Definition entries (l : list (Z * F)) : list CallbackEntry := (λ e, Entry e.1 e.2) <$> l.

Lemma filter_entries i l :
  filter (λ e, entry_id e ≠ i) (entries l) = entries (filter (λ e, e.1 ≠ i) l).
Proof.
  unfold entries. induction l as [|e l IH]; [done|]. rewrite fmap_cons.
  destruct (decide (e.1 = i)) as [Heq|Hne].
  - rewrite !filter_cons_False by (cbn; naive_solver). done.
  - rewrite !filter_cons_True by (cbn; naive_solver). cbn. by rewrite IH.
Qed.

(** The loop over callbacks that do not change the vector: up to the first exception. *)
Lemma emit_loop_all l value : ∀ s w,
  (∀ e, e ∈ l → reenters e.2 = false) → called value l (world s) = Some w →
  emit_loop (entries l) value s = Ok tt (Emitter (listeners s) (next_id s) w).
Proof.
  induction l as [|[i f] l IH]; intros s w Hre Hc; cbn [entries fmap list_fmap emit_loop called] in *.
  - injection Hc as <-. by destruct s.
  - cbn [entry_func fst snd]. rewrite (Hre (i, f) ltac:(by left) : reenters f = false). rewrite get_bind.
    destruct (act f value (world s)) as [w1 [x|]]; [done|].
    rewrite bind_run. change (put ?x s) with (Ok (S := EventEmitter) tt x). cbn match.
    apply (IH (Emitter (listeners s) (next_id s) w1) w); [|done]. intros. apply Hre. by right.
Qed.

Lemma emit_loop_throws pre i f post value : ∀ s w w' x,
  (∀ e, e ∈ pre ++ (i, f) :: post → reenters e.2 = false) → called value pre (world s) = Some w →
  act f value w = (w', Some x) →
  emit_loop (entries (pre ++ (i, f) :: post)) value s = Throw x (Emitter (listeners s) (next_id s) w').
Proof.
  induction pre as [|[j g] pre IH]; intros s w w' x Hre Hc Hf;
    cbn [app entries fmap list_fmap emit_loop called] in *; cbn [entry_func fst snd].
  - injection Hc as <-. rewrite (Hre (i, f) ltac:(by left) : reenters f = false). rewrite get_bind, Hf. done.
  - rewrite (Hre (j, g) ltac:(by left) : reenters g = false). rewrite get_bind.
    destruct (act g value (world s)) as [w1 [y|]]; [done|].
    rewrite bind_run. change (put ?x s) with (Ok (S := EventEmitter) tt x). cbn match.
    apply (IH (Emitter (listeners s) (next_id s) w1) w); [|done..]. intros. apply Hre. by right.
Qed.

Lemma emit_is_loop value s : emit value s = emit_loop (listeners s) value s.
Proof. unfold emit. rewrite get_bind. by destruct (listeners s). Qed.

(** What every callback that does not change the vector leaves of the emitter. *)
Lemma emit_keeps l value : ∀ s,
  (∀ e, e ∈ l → reenters e.2 = false) →
  match emit_loop (entries l) value s with
  | Ok _ s' | Throw _ s' => listeners s' = listeners s ∧ next_id s' = next_id s
  | _ => False
  end.
Proof.
  induction l as [|[i f] l IH]; intros s Hre; cbn [entries fmap list_fmap emit_loop]; [done|].
  cbn [entry_func fst snd]. rewrite (Hre (i, f) ltac:(by left) : reenters f = false). rewrite get_bind.
  destruct (act f value (world s)) as [w1 [x|]]; [done|].
  rewrite bind_run. change (put ?x s) with (Ok (S := EventEmitter) tt x). cbn match.
  apply (IH (Emitter (listeners s) (next_id s) w1)). intros. apply Hre. by right.
Qed.

Lemma erun_snoc os o s : erun (os ++ [o]) s = (erun os;; estep o) s.
Proof.
  revert s. induction os as [|o' os IH]; intros s; cbn [app erun].
  - rewrite !bind_run, ret_run. by destruct (estep o s) as [[]| | |].
  - rewrite !bind_run. destruct (estep o' s) as [[] s'| | |]; [|done..]. by rewrite IH, bind_run.
Qed.

Lemma live_registered os : ∀ k e, e ∈ live k os → Register (Some e.2) ∈ os.
Proof.
  induction os as [|o os IH]; intros k e He; [by apply elem_of_nil in He|].
  destruct o as [[f|]|i|v]; cbn [live] in He; try (right; by eapply IH).
  destruct (existsb _ os); [right; by eapply IH|].
  apply elem_of_cons in He as [->|He]; [by left|right; by eapply IH].
Qed.

Lemma erun_live w os :
  (∀ f, Register (Some f) ∈ os → reenters f = false) → registrations os ≤ INT_MAX →
  ∃ s, erun os (new_emitter w) = Ok tt s ∧ listeners s = entries (live 0 os) ∧
       next_id s = registrations os.
Proof.
  induction os as [|o os IH] using rev_ind; intros Hre Hn; [by exists (new_emitter w)|].
  rewrite registrations_snoc in Hn |- *. rewrite live_snoc.
  assert (0 ≤ registrations os) by (unfold registrations; lia).
  destruct IH as (s & Hrun & Hl & Hid); [|destruct (registers o); lia|].
  { intros f Hf. apply Hre. apply elem_of_app. by left. }
  setoid_rewrite erun_snoc. rewrite (bind_Ok _ _ _ _ _ Hrun). unfold estep.
  destruct o as [[f|]|i|v]; cbn [registers] in *.
  - rewrite bind_run, register_run by lia. eexists. split; [reflexivity|]. cbn [listeners next_id].
    rewrite Hl, Hid. unfold entries. by rewrite fmap_app.
  - exists s. by rewrite Z.add_0_r.
  - eexists. split; [reflexivity|]. cbn [listeners next_id]. by rewrite Hl, filter_entries, Z.add_0_r.
  - rewrite emit_is_loop, Hl. rewrite Z.add_0_r.
    assert (∀ e, e ∈ live 0 os → reenters e.2 = false) as Hlive.
    { intros e He. apply Hre, elem_of_app. left. by eapply live_registered. }
    pose proof (emit_keeps (live 0 os) v s Hlive) as Hk.
    destruct (emit_loop _ v s) as [[] s'|x s'| |]; try done;
      destruct Hk as [Hk1 Hk2]; exists s'; by rewrite Hk1, Hk2.
Qed.

(** ** Properties *)

(** C31: from a new emitter, after any sequence of registrations, unregistrations of any ids and
    emits, with callbacks that may throw but do not themselves change the emitter: the k-th
    callback registered has the id k, an empty one gets -1 and is not stored; the listeners are
    those callbacks whose id has not been unregistered since, with distinct ids, in the order of
    registration; a new registration gets an id no listener has, and with no id left the counter
    overflows.  [emit] calls the listeners once each, in that order, and returns when all return;
    the exception of the first one that throws leaves [emit], and those after it are not called. *)
Theorem event_emitter_correct w os :
  (∀ f, Register (Some f) ∈ os → reenters f = false) → registrations os ≤ INT_MAX →
  ∃ s, erun os (new_emitter w) = Ok tt s ∧
    listeners s = entries (live 0 os) ∧ NoDup (live 0 os).*1 ∧
    registerCallback None s = Ok (-1) s ∧
    (∀ f, registerCallback (Some f) s =
       if registrations os <? INT_MAX
       then Ok (registrations os) (Emitter (listeners s ++ [Entry (registrations os) f])
                                     (registrations os + 1) (world s))
       else UB ub_signed_overflow) ∧
    (∀ e, e ∈ live 0 os → e.1 ≠ registrations os) ∧
    (∀ v w', called v (live 0 os) (world s) = Some w' →
       emit v s = Ok tt (Emitter (listeners s) (next_id s) w')) ∧
    (∀ v pre i f post w1 w2 x, live 0 os = pre ++ (i, f) :: post →
       called v pre (world s) = Some w1 → act f v w1 = (w2, Some x) →
       emit v s = Throw x (Emitter (listeners s) (next_id s) w2)).
Proof.
  intros Hre Hn. destruct (erun_live w os Hre Hn) as (s & Hrun & Hl & Hid).
  assert (∀ e, e ∈ live 0 os → reenters e.2 = false) as Hlive
    by (intros e He; apply Hre; by eapply live_registered).
  assert (0 ≤ registrations os) by (unfold registrations; lia).
  exists s. split_and!; [done|done|apply live_nodup|done| | | |].
  - intros f. destruct (Z.ltb_spec (registrations os) INT_MAX).
    + rewrite register_run by lia. by rewrite Hid.
    + cbn [registerCallback]. rewrite get_bind. apply bind_UB. unfold add_int.
      unfold INT_MAX in *. rewrite Hid. unfold in_s.
      by rewrite (proj2 (Z.ltb_ge _ _)), andb_false_r by lia.
  - intros e He. apply live_ids in He. lia.
  - intros v w' Hc. rewrite emit_is_loop, Hl. by rewrite (emit_loop_all _ _ _ w'), Hl.
  - intros v pre i f post w1 w2 x Hp Hc Hf. rewrite emit_is_loop, Hl. rewrite Hp in Hlive |- *.
    by rewrite (emit_loop_throws pre i f post v s w1 w2 x Hlive Hc Hf), Hl, Hp.
Qed.
End emitter.

(** ** Witness *)

(** Observers that record the value they get; number 2 throws. *)
Definition observe (f : nat) (v : Z) (w : list (nat * Z)) : list (nat * Z) * option exn :=
  (w ++ [(f, v)], if bool_decide (f = 2%nat) then Some (runtime_error "observer") else None).

(** Three observers, of which the first is then taken out. *)
Definition demo_ops : list (eop (F := nat)) :=
  [Register (Some 0%nat); Register None; Register (Some 1%nat); Emit 7; Register (Some 2%nat);
   Register (Some 3%nat); Unregister 0; Unregister 9].

Lemma event_emitter_correct_witness :
  ∃ s, erun observe (λ _, false) demo_ops (new_emitter []) = Ok tt s ∧
    listeners s = [Entry 1 1%nat; Entry 2 2%nat; Entry 3 3%nat] ∧
    emit observe (λ _, false) 42 s =
      Throw (runtime_error "observer")
        (Emitter (listeners s) (next_id s) [(0%nat, 7); (1%nat, 7); (1%nat, 42); (2%nat, 42)]).
Proof.
  destruct (event_emitter_correct observe (λ _, false) [] demo_ops) as (s & Hrun & Hl & _ & _ & _ & _ & _ & Ht).
  - reflexivity.
  - vm_compute. discriminate.
  - exists s. split; [exact Hrun|]. split; [exact Hl|].
    vm_compute in Hrun. injection Hrun as <-.
    apply (Ht 42 [(1, 1%nat)] 2 2%nat [(3, 3%nat)] [(0%nat, 7); (1%nat, 7); (1%nat, 42)]); reflexivity.
Defined.
