(* ===== verification/Format.v ===== *)
(** Formatted output and input of integers, as std::ostream and std::istream do them:
    digits in a base, padding, and the round trip of a printed number. *)

From Stdlib Require Import Ascii String.
From S2P Require Import Prelude.
Local Open Scope Z_scope.

(** Characters as a list: the contents of a stream. *)
Abbreviation chars := (list ascii).

Definition digit_char (d : Z) : ascii :=
  if d <? 10 then ascii_of_N (Z.to_N (48 + d)) else ascii_of_N (Z.to_N (87 + d)).

Definition char_digit (c : ascii) : option Z :=
  let n := Z.of_N (N_of_ascii c) in
  if (48 <=? n) && (n <=? 57) then Some (n - 48) else None.

(** The digits of [n], most significant first; [fuel] bounds their number. *)
Fixpoint digits (fuel : nat) (base n : Z) : list Z :=
  match fuel with
  | O => []
  | S fuel' => if n <? base then [n] else digits fuel' base (n `div` base) ++ [n `mod` base]
  end.

(** 32 digits are enough for every integer below 2^64 in base 10 and 16. *)
Definition show_base (base n : Z) : chars := digit_char <$> digits 32 base n.

(** [os << std::dec << n] or [std::hex], without padding, for an unsigned value. *)
Definition show_unsigned (hex : bool) (n : Z) : chars := show_base (if hex then 16 else 10) n.

(** [std::setw(w) << std::setfill('0')]. *)
Definition pad (w : nat) (c : chars) : chars := replicate (w - length c) "0"%char ++ c.

(** [os << n] for an [int]: std::hex shows the unsigned value of its bits. *)
Definition show_int (hex : bool) (n : Z) : chars :=
  if hex then show_base 16 (u32 n)
  else if n <? 0 then "-"%char :: show_base 10 (- n) else show_base 10 n.

(** asio's address_v4::to_string: the four bytes of the address, with dots. *)
Definition show_address (a : Z) : chars :=
  let byte i := show_base 10 (Z.land (Z.shiftr a (8 * i)) 255) in
  byte 3 ++ "."%char :: byte 2 ++ "."%char :: byte 1 ++ "."%char :: byte 0.

(** The number a list of digits stands for. *)
Definition digits_value (base : Z) (ds : list Z) : Z := foldl (λ a d, a * base + d) 0 ds.

(** ** Lemmas *)

Lemma digits_value_snoc base ds d : digits_value base (ds ++ [d]) = digits_value base ds * base + d.
Proof. unfold digits_value. by rewrite foldl_app. Qed.

Lemma digits_correct fuel base : ∀ n,
  2 ≤ base → 0 ≤ n < base ^ Z.of_nat fuel → (0 < fuel)%nat →
  digits_value base (digits fuel base n) = n ∧
  Forall (λ d, 0 ≤ d < base) (digits fuel base n) ∧ digits fuel base n ≠ [].
Proof.
  induction fuel as [|fuel IH]; intros n Hb Hn Hf; [lia|]. cbn [digits]. case_if.
  - split_and!; [cbn; lia| |done]. constructor; [lia|constructor].
  - assert (0 < fuel)%nat.
    { destruct fuel; [|lia]. change (base ^ Z.of_nat 1) with (base ^ 1) in Hn.
      rewrite Z.pow_1_r in Hn. lia. }
    rewrite Nat2Z.inj_succ, Z.pow_succ_r in Hn by lia.
    pose proof (Z.div_mod n base ltac:(lia)). pose proof (Z.mod_pos_bound n base ltac:(lia)).
    destruct (IH (n `div` base)) as (Hv & Hd & _); [done| |done|].
    { split; [apply Z.div_pos; lia|]. apply Z.div_lt_upper_bound; lia. }
    split_and!.
    + rewrite digits_value_snoc, Hv. lia.
    + apply Forall_app. split; [done|]. constructor; [lia|constructor].
    + by destruct (digits fuel base (n `div` base)).
Qed.

Lemma char_digit_char d : 0 ≤ d < 10 → char_digit (digit_char d) = Some d.
Proof.
  intros Hd. assert (d = 0 ∨ d = 1 ∨ d = 2 ∨ d = 3 ∨ d = 4 ∨ d = 5 ∨ d = 6 ∨ d = 7 ∨ d = 8 ∨ d = 9)
    as Hc by lia.
  destruct Hc as [->|[->|[->|[->|[->|[->|[->|[->|[->| ->]]]]]]]]]; reflexivity.
Qed.

(** A byte printed the way the dumps do it takes two characters when it is below 128,
    and eight otherwise: [char] is signed and the cast to [int] keeps its sign. *)
Definition dump_byte (b : Z) : chars := pad 2 (show_int true (s8 b)).

Lemma dump_byte_length b :
  0 ≤ b < 256 → length (dump_byte b) = if b <? 128 then 2%nat else 8%nat.
Proof.
  intros Hb.
  assert (Forall (λ b, length (dump_byte b) = if b <? 128 then 2%nat else 8%nat) (seqZ 0 256)) as Hall.
  { apply (bool_decide_unpack _). vm_compute. exact I. }
  rewrite Forall_forall in Hall. apply Hall. apply elem_of_seqZ. lia.
Qed.
