(* ===== verification/Utility.v ===== *)
(** class Utility (src/common/include/common/utility.hpp): the environment-variable
    template, for the types std::string and int.  A value is read with
    [std::stringstream >> T]: leading white space is skipped; a string ends at the next
    white space; an int is an optional sign and decimal digits, and a value outside the
    range of int fails the stream. *)

From Stdlib Require Import Ascii String.
From S2P Require Import Prelude Format.
Local Open Scope Z_scope.

Definition is_space (c : ascii) : bool :=
  let n := N_of_ascii c in ((n =? 32)%N || ((9 <=? n)%N && (n <=? 13)%N)).

Fixpoint skip_ws (s : chars) : chars :=
  match s with
  | [] => []
  | c :: s' => if is_space c then skip_ws s' else s
  end.

Fixpoint take_word (s : chars) : chars :=
  match s with
  | [] => []
  | c :: s' => if is_space c then [] else c :: take_word s'
  end.

(** [ss >> value] for std::string: [None] when the stream fails. *)
Definition extract_string (s : chars) : option chars :=
  match take_word (skip_ws s) with [] => None | w => Some w end.

Fixpoint take_digits (s : chars) : list Z :=
  match s with
  | [] => []
  | c :: s' => match char_digit c with Some d => d :: take_digits s' | None => [] end
  end.

Definition sign_of (s : chars) : Z * chars :=
  match s with
  | c :: s' => if (c =? "-")%char then (-1, s') else if (c =? "+")%char then (1, s') else (1, s)
  | [] => (1, [])
  end.

(** [ss >> value] for int. *)
Definition extract_int (s : chars) : option Z :=
  let '(sg, s') := sign_of (skip_ws s) in
  match take_digits s' with
  | [] => None
  | ds => let v := sg * digits_value 10 ds in if in_s 32 v then Some v else None
  end.

(** get_environment_variable<T>(key, default_value): [env] is std::getenv, [rest] what
    follows the characters of the string_view up to the next NUL ([key.data()] is passed
    without a terminator of its own), [extract] is the stream extraction for T. *)
Definition get_environment_variable {T} (extract : chars → option T)
    (env : chars → option chars) (key rest : chars) (default_value : T) : T :=
  match env (key ++ rest) with
  | None => default_value
  | Some raw => match extract raw with None => default_value | Some v => v end
  end.

(** ** Lemmas *)

Lemma skip_ws_spec s :
  ∃ ws, s = ws ++ skip_ws s ∧ Forall (λ c, is_space c = true) ws ∧
        (∀ c r, skip_ws s = c :: r → is_space c = false).
Proof.
  induction s as [|c s (ws & Hs & Hws & Hc)]; cbn [skip_ws].
  - exists []. by split_and!.
  - destruct (is_space c) eqn:Hsp.
    + exists (c :: ws). split_and!; [by rewrite Hs at 1|by constructor|done].
    + exists []. split_and!; [done|done|]. by intros ? ? [= <- _].
Qed.

Lemma take_word_spec s :
  ∃ r, s = take_word s ++ r ∧ Forall (λ c, is_space c = false) (take_word s) ∧
       (r = [] ∨ ∃ c r', r = c :: r' ∧ is_space c = true).
Proof.
  induction s as [|c s (r & Hs & Hw & Hr)]; cbn [take_word].
  - exists []. by split_and!; [..|left].
  - destruct (is_space c) eqn:Hsp.
    + exists (c :: s). split_and!; [done|done|right; by exists c, s].
    + exists r. split_and!; [cbn; by rewrite <- Hs|by constructor|done].
Qed.

Lemma digit_not_space c d : char_digit c = Some d → is_space c = false.
Proof.
  unfold char_digit, is_space. case_if; [|done]. intros _.
  destruct (N.eqb_spec (N_of_ascii c) 32); [lia|].
  destruct (N.leb_spec 9 (N_of_ascii c)), (N.leb_spec (N_of_ascii c) 13); cbn; lia || done.
Qed.

(** ** Texts of numbers *)

Definition starts_with (P : ascii → bool) (s : chars) : bool :=
  match s with c :: _ => P c | [] => false end.

Definition is_digit (c : ascii) : bool := bool_decide (is_Some (char_digit c)).
Definition is_sign (c : ascii) : bool := ((c =? "-") || (c =? "+"))%char.

(** No sign, minus or plus. *)
Definition sign_text (sg : option bool) : chars :=
  match sg with None => [] | Some true => ["-"%char] | Some false => ["+"%char] end.
Definition sign_factor (sg : option bool) : Z := match sg with Some true => -1 | _ => 1 end.

Lemma skip_ws_app ws s :
  Forall (λ c, is_space c = true) ws → starts_with is_space s = false → skip_ws (ws ++ s) = s.
Proof.
  intros Hws Hs. induction Hws as [|c ws Hc _ IH]; cbn; [|by rewrite Hc].
  destruct s as [|c s]; [done|]. cbn in *. by rewrite Hs.
Qed.

Lemma take_digits_app ds rest :
  Forall (λ d, 0 ≤ d < 10) ds → starts_with is_digit rest = false →
  take_digits ((digit_char <$> ds) ++ rest) = ds.
Proof.
  intros Hds Hr. induction Hds as [|d ds Hd _ IH]; cbn.
  - destruct rest as [|c rest]; [done|]. cbn in *. unfold is_digit in Hr.
    destruct (char_digit c); [by rewrite bool_decide_true in Hr by done|done].
  - by rewrite (char_digit_char d Hd), IH.
Qed.

Lemma sign_of_text sg s :
  (sg = None → starts_with is_sign s = false) → sign_of (sign_text sg ++ s) = (sign_factor sg, s).
Proof.
  destruct sg as [[]|]; [done..|]. intros Hs. specialize (Hs eq_refl).
  destruct s as [|c s]; [done|]. cbn in *. unfold is_sign in Hs. by apply orb_false_iff in Hs as [-> ->].
Qed.

Lemma starts_digit ds rest :
  Forall (λ d, 0 ≤ d < 10) ds → ds ≠ [] →
  starts_with is_space ((digit_char <$> ds) ++ rest) = false ∧
  starts_with is_sign ((digit_char <$> ds) ++ rest) = false.
Proof.
  intros Hds Hne. destruct ds as [|d ds]; [done|]. apply Forall_cons in Hds as [Hd _].
  pose proof (char_digit_char d Hd) as Hcd. cbn. split; [by eapply digit_not_space|].
  apply orb_false_iff. split; apply Ascii.eqb_neq; intros Heq; rewrite Heq in Hcd; discriminate.
Qed.

Lemma starts_sign sg s :
  starts_with is_space s = false → starts_with is_space (sign_text sg ++ s) = false.
Proof. by destruct sg as [[]|]. Qed.

Lemma take_digits_shown ds : Forall (λ d, 0 ≤ d < 10) ds → take_digits (digit_char <$> ds) = ds.
Proof. intros Hds. pose proof (take_digits_app ds [] Hds eq_refl) as Ht. by rewrite app_nil_r in Ht. Qed.

Lemma sign_of_shown ds :
  Forall (λ d, 0 ≤ d < 10) ds → ds ≠ [] →
  sign_of (skip_ws (digit_char <$> ds)) = (1, digit_char <$> ds).
Proof.
  intros Hds Hne. destruct (starts_digit ds [] Hds Hne) as [Hsp Hsg]. rewrite app_nil_r in Hsp, Hsg.
  pose proof (skip_ws_app [] _ ltac:(constructor) Hsp) as Hsk. cbn in Hsk. rewrite Hsk.
  by apply (sign_of_text None).
Qed.

(** White space, a sign or none, digits, and something that is not a digit: the number is read
    if it is an int. *)
Lemma extract_number ws sg ds rest :
  Forall (λ c, is_space c = true) ws → Forall (λ d, 0 ≤ d < 10) ds → ds ≠ [] →
  starts_with is_digit rest = false →
  extract_int (ws ++ sign_text sg ++ (digit_char <$> ds) ++ rest) =
    (let v := sign_factor sg * digits_value 10 ds in if in_s 32 v then Some v else None).
Proof.
  intros Hws Hds Hne Hr. destruct (starts_digit ds rest Hds Hne) as [Hsp Hsg].
  unfold extract_int. rewrite skip_ws_app by (done || by apply starts_sign).
  rewrite sign_of_text by done. rewrite take_digits_app by done. by destruct ds.
Qed.

(** Without a digit there is nothing to read. *)
Lemma extract_no_number ws sg rest :
  Forall (λ c, is_space c = true) ws → starts_with is_digit rest = false →
  (sg = None → starts_with is_space rest = false ∧ starts_with is_sign rest = false) →
  extract_int (ws ++ sign_text sg ++ rest) = None.
Proof.
  intros Hws Hr Hsg. unfold extract_int. rewrite skip_ws_app; [|done|].
  2: { destruct sg as [[]|]; [done..|]. by apply Hsg. }
  rewrite sign_of_text by (intros; by apply Hsg).
  pose proof (take_digits_app [] rest ltac:(constructor) Hr) as Ht. cbn in Ht. by rewrite Ht.
Qed.

Lemma show_base10 n : 0 ≤ n < 2 ^ 64 → ∃ ds, show_base 10 n = digit_char <$> ds ∧
  Forall (λ d, 0 ≤ d < 10) ds ∧ ds ≠ [] ∧ digits_value 10 ds = n.
Proof.
  intros Hn. exists (digits 32 10 n).
  destruct (digits_correct 32 10 n) as (Hv & Hd & Hne); [lia|lia|lia|]. done.
Qed.

(** Reading back a printed number. *)
Lemma extract_shown n :
  - 2 ^ 64 < n < 2 ^ 64 → extract_int (show_int false n) = if in_s 32 n then Some n else None.
Proof.
  intros Hn.
  assert (∃ sg ds, show_int false n = sign_text sg ++ (digit_char <$> ds) ∧
    Forall (λ d, 0 ≤ d < 10) ds ∧ ds ≠ [] ∧ sign_factor sg * digits_value 10 ds = n)
    as (sg & ds & -> & Hds & Hne & <-).
  { unfold show_int. case_if.
    - destruct (show_base10 (- n) ltac:(lia)) as (ds & -> & Hds & Hne & Hv).
      exists (Some true), ds. split_and!; try done. cbn [sign_factor]. lia.
    - destruct (show_base10 n ltac:(lia)) as (ds & -> & Hds & Hne & Hv).
      exists None, ds. split_and!; try done. cbn [sign_factor]. lia. }
  pose proof (extract_number [] sg ds [] ltac:(constructor) Hds Hne eq_refl) as Hx.
  by rewrite app_nil_r in Hx.
Qed.

(** ** Properties *)

(** C32: [get_environment_variable] returns the default when the variable is not set.  For
    std::string a set variable gives its first word only: the characters between its leading
    white space and the next white space, so that a value with a space in it is cut; if there is
    no word, the default.  For int, a text that is white space, an optional sign, digits and
    then anything that is not a digit gives the number, or the default when the number is
    outside the range of int; a text without a digit after the white space and the optional sign
    gives the default.  So every printed number is read back if it is an int. *)
Theorem get_environment_variable_correct env key :
  (∀ raw d, env key = Some raw →
     match get_environment_variable extract_string env key [] d with
     | v => (Forall (λ c, is_space c = true) raw ∧ v = d) ∨
            (∃ ws rest, raw = ws ++ v ++ rest ∧ Forall (λ c, is_space c = true) ws ∧
               v ≠ [] ∧ Forall (λ c, is_space c = false) v ∧
               (rest = [] ∨ ∃ c r, rest = c :: r ∧ is_space c = true))
     end) ∧
  (∀ ws sg ds rest d, Forall (λ c, is_space c = true) ws → Forall (λ d, 0 ≤ d < 10) ds → ds ≠ [] →
     starts_with is_digit rest = false →
     env key = Some (ws ++ sign_text sg ++ (digit_char <$> ds) ++ rest) →
     get_environment_variable extract_int env key [] d =
       (let v := sign_factor sg * digits_value 10 ds in if in_s 32 v then v else d)) ∧
  (∀ ws sg rest d, Forall (λ c, is_space c = true) ws → starts_with is_digit rest = false →
     (sg = None → starts_with is_space rest = false ∧ starts_with is_sign rest = false) →
     env key = Some (ws ++ sign_text sg ++ rest) →
     get_environment_variable extract_int env key [] d = d) ∧
  (∀ n d, - 2 ^ 64 < n < 2 ^ 64 → env key = Some (show_int false n) →
     get_environment_variable extract_int env key [] d = if in_s 32 n then n else d) ∧
  (∀ T (extract : chars → option T) d, env key = None →
     get_environment_variable extract env key [] d = d).
Proof.
  unfold get_environment_variable. rewrite app_nil_r. split_and!.
  - intros raw d Hraw. rewrite Hraw. unfold extract_string.
    destruct (skip_ws_spec raw) as (ws & Hs & Hws & Hc).
    destruct (take_word_spec (skip_ws raw)) as (r & Hw & Hns & Hr).
    destruct (take_word (skip_ws raw)) as [|c w] eqn:Htw.
    + left. split; [|done]. destruct (skip_ws raw) as [|c s] eqn:Hsk.
      * by rewrite Hs, app_nil_r.
      * cbn in Htw. by rewrite (Hc c s eq_refl) in Htw.
    + right. exists ws, r. rewrite <- Hw. by split_and!.
  - intros ws sg ds rest d Hws Hds Hne Hr ->. rewrite extract_number by done. cbn zeta. by destruct (in_s 32 _).
  - intros ws sg rest d Hws Hr Hsg ->. by rewrite extract_no_number by done.
  - intros n d Hn ->. rewrite extract_shown by done. by destruct (in_s 32 n).
  - intros T extract d ->. done.
Qed.

(** HOME = "/home/my user" is cut at the space; "abc" is no number, and "-12x" is -12. *)
Lemma get_environment_variable_correct_witness :
  let text := String.list_ascii_of_string in
  let env := λ _ : chars, Some (text "/home/my user") in
  get_environment_variable extract_string env [] [] [] = text "/home/my"%string ∧
  get_environment_variable extract_string env [] [] [] ≠ [] ∧
  get_environment_variable extract_int (λ _ : chars, Some (text "abc")) [] [] 7 = 7 ∧
  get_environment_variable extract_int (λ _ : chars, Some (text "-12x")) [] [] 7 = -12.
Proof.
  cbn zeta. split; [reflexivity|]. split; [|split].
  - destruct (get_environment_variable_correct
      (λ _ : chars, Some (String.list_ascii_of_string "/home/my user")) []) as [Hs _].
    destruct (Hs (String.list_ascii_of_string "/home/my user") [] eq_refl) as [[Hall _]|Hw].
    + apply Forall_cons in Hall as [Hc _]. discriminate Hc.
    + destruct Hw as (ws & rest & _ & _ & Hne & _). exact Hne.
  - destruct (get_environment_variable_correct
      (λ _ : chars, Some (String.list_ascii_of_string "abc")) []) as (_ & _ & Hno & _).
    apply (Hno [] None (String.list_ascii_of_string "abc")); [constructor|reflexivity|split; reflexivity|reflexivity].
  - destruct (get_environment_variable_correct
      (λ _ : chars, Some (String.list_ascii_of_string "-12x")) []) as (_ & Hnum & _).
    apply (Hnum [] (Some true) [1; 2] (String.list_ascii_of_string "x"));
      [constructor|repeat constructor; lia|discriminate|reflexivity|reflexivity].
Defined.
