(* ===== verification/CMem.v ===== *)
(** The part of C's memory the sources use: a byte-addressed store with the
    live blocks returned by the allocation function, pointer-sized loads and
    stores, [malloc] and [free].

    The allocation function is a parameter: in libpool it is the function
    pointer [pool_ext_alloc] ([malloc] by default).  What is assumed of it is
    what the C standard says of [malloc]: the block is non-null, aligned, inside
    the address space and disjoint from every live block.  When it fails is left
    open, so every failure pattern is covered. *)

From S2P Require Import Prelude Bytes.
Local Open Scope Z_scope.

Definition NULL : Z := 0.

Record heap := Heap {
  mem : gmap Z Z;        (* the bytes that have a value *)
  blocks : gmap Z Z;     (* live blocks: base address, size *)
  calls : nat            (* calls of the allocation function so far *)
}.

Definition empty_heap : heap := Heap ∅ ∅ 0.

Definition in_block (a n b s : Z) : Prop := b ≤ a ∧ a + n ≤ b + s.

(** [n] bytes at [a] lie inside one live block. *)
Definition accessible (h : heap) (a n : Z) : Prop :=
  map_Exists (in_block a n) (blocks h).

#[global] Instance in_block_dec a n b s : Decision (in_block a n b s).
Proof. apply _. Defined.
#[global] Instance accessible_dec h a n : Decision (accessible h a n).
Proof. apply _. Defined.

Fixpoint store_list (a : Z) (bs : list Z) (m : gmap Z Z) : gmap Z Z :=
  match bs with
  | [] => m
  | b :: bs' => <[a:=b]> (store_list (a + 1) bs' m)
  end.

Fixpoint load_list (a : Z) (n : nat) (m : gmap Z Z) : option (list Z) :=
  match n with
  | O => Some []
  | S n' => b ← m !! a; bs ← load_list (a + 1) n' m; Some (b :: bs)
  end.

Definition store_bytes (a : Z) (bs : list Z) : M heap unit := λ h,
  if bool_decide (accessible h a (Z.of_nat (length bs)))
  then Ok tt (Heap (store_list a bs (mem h)) (blocks h) (calls h))
  else UB (ub_access a).

Definition load_bytes (a : Z) (n : nat) : M heap (list Z) := λ h,
  if bool_decide (accessible h a (Z.of_nat n))
  then match load_list a n (mem h) with
       | Some bs => Ok bs h
       | None => UB (ub_indeterminate a)
       end
  else UB (ub_access a).

(** A pointer or [size_t] object: eight bytes. *)
Definition store64 (a v : Z) : M heap unit := store_bytes a (le_bytes 8 v).
Definition load64 (a : Z) : M heap Z := bs ← load_bytes a 8; mret (le_value bs).

(** *** The allocation function *)

Class Allocator := {
  ext_alloc : heap → Z → option Z;     (* address of the new block; [None]: NULL *)
  ext_funcs_set : bool                 (* both function pointers are non-null *)
}.

Definition disjoint_ranges (a n b s : Z) : Prop := a + n ≤ b ∨ b + s ≤ a.

Class AllocatorLaws `{Allocator} := {
  ext_alloc_range h n p :
    0 ≤ n → ext_alloc h n = Some p → 0 < p ∧ p + n ≤ 2 ^ 64 - 1;
  ext_alloc_aligned h n p :
    0 ≤ n → ext_alloc h n = Some p → (16 | p);
  ext_alloc_fresh h n p b s :
    0 ≤ n → ext_alloc h n = Some p → blocks h !! b = Some s →
    b ≠ p ∧ disjoint_ranges p n b s
}.

Section alloc.
Context `{Allocator}.

(** A new block has no determinate content. *)
Definition malloc (n : Z) : M heap Z := λ h,
  match ext_alloc h n with
  | None => Ok NULL (Heap (mem h) (blocks h) (S (calls h)))
  | Some p =>
      Ok p (Heap (filter (λ kv : Z * Z, ¬ (p ≤ kv.1 < p + n)) (mem h))
                 (<[p:=n]> (blocks h)) (S (calls h)))
  end.

Definition cfree (p : Z) : M heap unit := λ h,
  if p =? NULL then Ok tt h
  else match blocks h !! p with
       | Some _ => Ok tt (Heap (mem h) (delete p (blocks h)) (calls h))
       | None => UB (ub_free p)
       end.
End alloc.

(** *** A bump allocator: the concrete allocation function of the witnesses *)

(** The first multiple of 16 after every live block, keeping a 16-byte header
    between blocks; it refuses what does not fit the given arena. *)
Definition align16 (z : Z) : Z := (z + 15) `div` 16 * 16.

Definition heap_top (h : heap) : Z :=
  map_fold (λ b s t, Z.max t (Z.max b (b + s))) 0 (blocks h).

Definition bump (limit : Z) : Allocator := {|
  ext_alloc h n :=
    let p := align16 (heap_top h) + 16 in
    if (0 <=? n) && (p + n <=? limit) && (limit <? 2 ^ 64) then Some p else None;
  ext_funcs_set := true
|}.

(** ** Lemmas on the store *)

Lemma lookup_store_list a bs m x :
  store_list a bs m !! x =
    if decide (a ≤ x < a + Z.of_nat (length bs)) then bs !! Z.to_nat (x - a) else m !! x.
Proof.
  revert a. induction bs as [|b bs IH]; intros a; cbn [store_list length].
  - rewrite decide_False by lia. done.
  - destruct (decide (x = a)) as [->|Hne].
    + rewrite lookup_insert_eq, decide_True by lia. by rewrite Z.sub_diag.
    + rewrite lookup_insert_ne by done. rewrite IH. repeat case_decide; try lia; [|done].
      by replace (Z.to_nat (x - a)) with (S (Z.to_nat (x - (a + 1)))) by lia.
Qed.

Lemma load_list_Some a n m bs :
  load_list a n m = Some bs ↔
  length bs = n ∧ ∀ i : nat, (i < n)%nat → m !! (a + Z.of_nat i) = bs !! i.
Proof.
  revert a bs. induction n as [|n IH]; intros a bs; cbn [load_list].
  { split.
    - intros [= <-]. split; [done|lia].
    - intros [Hl _]. by destruct bs. }
  split.
  - intros (b & Hb & (bs' & Hbs' & [= <-])%bind_Some)%bind_Some.
    apply IH in Hbs' as [Hl Hi]. split; [cbn; lia|].
    intros [|i] Hlt; [by rewrite Z.add_0_r|].
    replace (a + Z.of_nat (S i)) with (a + 1 + Z.of_nat i) by lia.
    cbn. apply Hi. lia.
  - intros [Hl Hi]. destruct bs as [|b bs]; [done|].
    apply bind_Some. exists b. split.
    { specialize (Hi 0%nat ltac:(lia)). by rewrite Z.add_0_r in Hi. }
    apply bind_Some. exists bs. split; [|done]. apply IH. split; [cbn in Hl; lia|].
    intros i Hlt. etransitivity; [|exact (Hi (S i) ltac:(lia))]. f_equal. lia.
Qed.

Lemma load_store_same a bs m : load_list a (length bs) (store_list a bs m) = Some bs.
Proof.
  apply load_list_Some. split; [done|]. intros i Hi.
  rewrite lookup_store_list, decide_True by lia. f_equal. lia.
Qed.

(** Two stores that give the same bytes on a range are loaded alike. *)
Lemma load_list_agree a n m m' :
  (∀ x, a ≤ x < a + Z.of_nat n → m' !! x = m !! x) →
  load_list a n m' = load_list a n m.
Proof.
  revert a. induction n as [|n IH]; intros a Hx; cbn [load_list]; [done|].
  rewrite Hx by lia. rewrite IH; [done|]. intros x ?. apply Hx. lia.
Qed.

(** *** Heap agreement: what a frame needs *)

(** [h'] has the blocks of [h] that contain the range, and the same bytes. *)
Definition agree_on (h h' : heap) (a n : Z) : Prop :=
  (∀ x, a ≤ x < a + n → mem h' !! x = mem h !! x) ∧
  (accessible h a n → accessible h' a n).

(** A pointer-sized object at [a] holds [v]. *)
Definition word_at (h : heap) (a v : Z) : Prop :=
  accessible h a 8 ∧
  load_list a 8 (mem h) = Some (le_bytes 8 v) ∧ 0 ≤ v < 2 ^ 64.

Lemma pow256_8 : 256 ^ Z.of_nat 8 = 2 ^ 64.
Proof. reflexivity. Qed.

Lemma word_at_load h a v : word_at h a v → load64 a h = Ok v h.
Proof.
  intros (Hacc & Hld & Hv). unfold load64.
  erewrite bind_Ok by (unfold load_bytes; rewrite bool_decide_true by done; by rewrite Hld).
  rewrite ret_run. f_equal. apply le_value_bytes. by rewrite pow256_8.
Qed.

Lemma store64_run h a v :
  accessible h a 8 →
  store64 a v h = Ok tt (Heap (store_list a (le_bytes 8 v) (mem h)) (blocks h) (calls h)).
Proof. intros Hacc. unfold store64, store_bytes. by rewrite bool_decide_true. Qed.

Lemma store64_oob h a v : ¬ accessible h a 8 → store64 a v h = UB (ub_access a).
Proof. intros Hacc. unfold store64, store_bytes. by rewrite bool_decide_false. Qed.

Lemma word_at_agree h h' a v : agree_on h h' a 8 → word_at h a v → word_at h' a v.
Proof.
  intros [Hm Hb] (Hacc & Hld & Hv). split_and!; [auto| |lia|lia].
  rewrite <- Hld. apply load_list_agree. intros x Hx. apply Hm. lia.
Qed.

Lemma agree_on_sub h h' a n a' n' :
  agree_on h h' a n → a ≤ a' → a' + n' ≤ a + n →
  (accessible h a' n' → accessible h' a' n') → agree_on h h' a' n'.
Proof. intros [Hm _] ? ? Hacc. split; [|done]. intros x Hx. apply Hm. lia. Qed.

Lemma accessible_sub h a n a' n' :
  accessible h a n → a ≤ a' → a' + n' ≤ a + n → accessible h a' n'.
Proof.
  intros (b & s & Hb & Hin) ? ?. exists b, s. split; [done|].
  unfold in_block in *. lia.
Qed.

Lemma accessible_block h b s a n :
  blocks h !! b = Some s → b ≤ a → a + n ≤ b + s → accessible h a n.
Proof. intros Hb ? ?. by exists b, s. Qed.

(** The effect of a store: the bytes written, everything else as it was. *)
Definition stored (h : heap) (a : Z) (bs : list Z) : heap :=
  Heap (store_list a bs (mem h)) (blocks h) (calls h).

Lemma stored_agree h a bs a' n :
  disjoint_ranges a (Z.of_nat (length bs)) a' n → agree_on h (stored h a bs) a' n.
Proof.
  intros Hd. split; [|done]. intros x Hx. cbn.
  rewrite lookup_store_list, decide_False; [done|]. unfold disjoint_ranges in Hd. lia.
Qed.

Lemma stored_word h a v :
  accessible h a 8 → 0 ≤ v < 2 ^ 64 → word_at (stored h a (le_bytes 8 v)) a v.
Proof.
  intros Hacc Hv. split_and!; [done| |lia|lia]. cbn [mem stored].
  rewrite <- (le_bytes_length 8 v) at 1. apply load_store_same.
Qed.

(** ** Well-formed heaps *)

Definition heap_wf (h : heap) : Prop :=
  (∀ b s, blocks h !! b = Some s → 0 < b ∧ 0 ≤ s ∧ b + s < 2 ^ 64) ∧
  (∀ b s b' s', blocks h !! b = Some s → blocks h !! b' = Some s' → b ≠ b' →
     disjoint_ranges b s b' s').

Definition allocd (h : heap) (p n : Z) : heap :=
  Heap (filter (λ kv : Z * Z, ¬ (p ≤ kv.1 < p + n)) (mem h))
       (<[p:=n]> (blocks h)) (S (calls h)).

Definition ticked (h : heap) : heap := Heap (mem h) (blocks h) (S (calls h)).

Definition freed (h : heap) (p : Z) : heap := Heap (mem h) (delete p (blocks h)) (calls h).

Lemma empty_heap_wf : heap_wf empty_heap.
Proof. split; intros *; cbn; rewrite lookup_empty; done. Qed.

Lemma stored_wf h a bs : heap_wf h → heap_wf (stored h a bs).
Proof. done. Qed.

Lemma ticked_wf h : heap_wf h → heap_wf (ticked h).
Proof. done. Qed.

Lemma freed_wf h p : heap_wf h → heap_wf (freed h p).
Proof.
  intros [Hr Hd]. split; cbn.
  - intros b s [_ ?]%lookup_delete_Some. eauto.
  - intros b s b' s' [_ ?]%lookup_delete_Some [_ ?]%lookup_delete_Some. eauto.
Qed.

Lemma disjoint_ranges_sym a n b s : disjoint_ranges a n b s ↔ disjoint_ranges b s a n.
Proof. unfold disjoint_ranges. tauto. Qed.

Lemma disjoint_ranges_sub a n b s a' n' :
  disjoint_ranges a n b s → a ≤ a' → a' + n' ≤ a + n → disjoint_ranges a' n' b s.
Proof. unfold disjoint_ranges. lia. Qed.

Section alloc_lemmas.
Context `{AllocatorLaws}.

Lemma allocd_wf h n p :
  heap_wf h → 0 ≤ n → ext_alloc h n = Some p → heap_wf (allocd h p n).
Proof.
  intros [Hr Hd] Hn Hp. pose proof (ext_alloc_range h n p Hn Hp).
  split; cbn.
  - intros b s [[<- <-]|[? Hb]]%lookup_insert_Some; [lia|eauto].
  - intros b s b' s' [[<- <-]|[? Hb]]%lookup_insert_Some [[<- <-]|[? Hb']]%lookup_insert_Some ?.
    + done.
    + by apply (ext_alloc_fresh h n p b' s' Hn Hp).
    + apply disjoint_ranges_sym. by apply (ext_alloc_fresh h n p b s Hn Hp).
    + eauto.
Qed.

(** Allocation does not disturb what lies in a live block. *)
Lemma allocd_agree h n p a m :
  0 ≤ n → 0 ≤ m → ext_alloc h n = Some p → accessible h a m → agree_on h (allocd h p n) a m.
Proof.
  intros Hn Hm Hp (b & s & Hb & Hin).
  destruct (ext_alloc_fresh h n p b s Hn Hp Hb) as [Hne Hd].
  unfold in_block, disjoint_ranges in *. split.
  - intros x Hx. cbn. apply option_eq. intros v.
    rewrite map_lookup_filter_Some. cbn. split; [tauto|]. intros. split; [done|lia].
  - intros _. exists b, s. split; [|done]. cbn. by rewrite lookup_insert_ne.
Qed.

Lemma allocd_accessible h p n a m :
  p ≤ a → a + m ≤ p + n → accessible (allocd h p n) a m.
Proof.
  intros. eapply (accessible_block _ p n); [cbn; apply lookup_insert_eq|lia|lia].
Qed.

Lemma malloc_run h n :
  malloc n h = match ext_alloc h n with
               | None => Ok NULL (ticked h)
               | Some p => Ok p (allocd h p n)
               end.
Proof. done. Qed.

Lemma cfree_run h p s :
  p ≠ NULL → blocks h !! p = Some s → cfree p h = Ok tt (freed h p).
Proof. intros Hp Hb. unfold cfree. rewrite (proj2 (Z.eqb_neq _ _) Hp). by rewrite Hb. Qed.

Lemma cfree_invalid h p : p ≠ NULL → blocks h !! p = None → cfree p h = UB (ub_free p).
Proof. intros Hp Hb. unfold cfree. rewrite (proj2 (Z.eqb_neq _ _) Hp). by rewrite Hb. Qed.
End alloc_lemmas.

Lemma freed_agree h p b s a n :
  blocks h !! b = Some s → b ≠ p → in_block a n b s → agree_on h (freed h p) a n.
Proof.
  intros Hb Hne Hin. split; [done|]. intros _. exists b, s. split; [|done].
  cbn. by rewrite lookup_delete_ne.
Qed.

(** The bump allocator satisfies the laws. *)
Lemma heap_top_spec h :
  0 ≤ heap_top h ∧ ∀ b s, blocks h !! b = Some s → b ≤ heap_top h ∧ b + s ≤ heap_top h.
Proof.
  unfold heap_top.
  apply (map_fold_weak_ind (λ t m, 0 ≤ t ∧ ∀ b s, m !! b = Some s → b ≤ t ∧ b + s ≤ t)).
  - split; [done|]. intros b s. by rewrite lookup_empty.
  - intros b s m t _ [Ht IH]. split; [lia|].
    intros b' s' [[<- <-]|[_ Hb']]%lookup_insert_Some; [lia|].
    specialize (IH _ _ Hb'). lia.
Qed.

Lemma align16_spec z : z ≤ align16 z ∧ (16 | align16 z).
Proof.
  unfold align16. split; [|apply Z.divide_factor_r].
  pose proof (Z.div_mod (z + 15) 16). pose proof (Z.mod_pos_bound (z + 15) 16). lia.
Qed.

#[global] Instance bump_laws limit : @AllocatorLaws (bump limit).
Proof.
  assert (∀ h n p, @ext_alloc (bump limit) h n = Some p →
    p = align16 (heap_top h) + 16 ∧ p + n < 2 ^ 64) as Hbump.
  { intros h n p. cbn. case_if; [|done]. intros [= <-]. split; [done|lia]. }
  split.
  - intros h n p Hn [-> ?]%Hbump. pose proof (align16_spec (heap_top h)).
    pose proof (proj1 (heap_top_spec h)). lia.
  - intros h n p Hn [-> ?]%Hbump. apply Z.divide_add_r; [apply align16_spec|].
    by exists 1.
  - intros h n p b s Hn [-> ?]%Hbump Hb. pose proof (align16_spec (heap_top h)).
    destruct (heap_top_spec h) as [_ Ht]. specialize (Ht _ _ Hb).
    unfold disjoint_ranges. lia.
Qed.

(** ** Rules for the weakest precondition *)

Lemma wp_load64 h a v (Q : Z → heap → Prop) : word_at h a v → Q v h → wp (load64 a) Q h.
Proof. intros Hw HQ. by rewrite (wp_Ok _ _ _ _ _ (word_at_load _ _ _ Hw)). Qed.

Lemma wp_store64 h a v (Q : unit → heap → Prop) :
  accessible h a 8 → Q tt (stored h a (le_bytes 8 v)) → wp (store64 a v) Q h.
Proof. intros Ha HQ. by rewrite (wp_Ok _ _ _ _ _ (store64_run _ _ _ Ha)). Qed.

Lemma wp_malloc `{Allocator} h n (Q : Z → heap → Prop) :
  (ext_alloc h n = None → Q NULL (ticked h)) →
  (∀ p, ext_alloc h n = Some p → Q p (allocd h p n)) → wp (malloc n) Q h.
Proof. intros HN HS. unfold wp, malloc. destruct (ext_alloc h n) eqn:E; auto. Qed.

Lemma wp_cfree h p s (Q : unit → heap → Prop) :
  p ≠ NULL → blocks h !! p = Some s → Q tt (freed h p) → wp (cfree p) Q h.
Proof. intros Hp Hb HQ. by rewrite (wp_Ok _ _ _ _ _ (cfree_run _ _ _ Hp Hb)). Qed.

(** A word outside the bytes just stored keeps its value. *)
Lemma word_at_stored_ne h a v b w :
  disjoint_ranges a 8 b 8 → word_at h b w → word_at (stored h a (le_bytes 8 v)) b w.
Proof.
  intros Hd. apply word_at_agree, stored_agree. by rewrite le_bytes_length.
Qed.

Lemma word_at_allocd `{AllocatorLaws} h n p b w :
  0 ≤ n → ext_alloc h n = Some p → word_at h b w → word_at (allocd h p n) b w.
Proof.
  intros Hn Hp Hw. eapply word_at_agree; [|done]. apply allocd_agree; [done|lia|done|].
  apply Hw.
Qed.

Lemma accessible_stored h a bs b n : accessible (stored h a bs) b n ↔ accessible h b n.
Proof. done. Qed.

(** [h'] keeps every live block of [h], with its content. *)
Definition preserves (h h' : heap) : Prop :=
  ∀ b s, blocks h !! b = Some s →
    blocks h' !! b = Some s ∧ ∀ x, b ≤ x < b + s → mem h' !! x = mem h !! x.

#[global] Instance preserves_preorder : PreOrder preserves.
Proof.
  split.
  - intros h b s Hb. done.
  - intros h1 h2 h3 H12 H23 b s Hb. destruct (H12 b s Hb) as [Hb2 Hm2].
    destruct (H23 b s Hb2) as [Hb3 Hm3]. split; [done|].
    intros x Hx. rewrite Hm3 by done. by apply Hm2.
Qed.

Lemma preserves_allocd `{AllocatorLaws} h n p :
  0 ≤ n → ext_alloc h n = Some p → preserves h (allocd h p n).
Proof.
  intros Hn Hp b s Hb. destruct (ext_alloc_fresh h n p b s Hn Hp Hb) as [Hne Hd].
  split; [cbn; by rewrite lookup_insert_ne|].
  intros x Hx. destruct (decide (0 ≤ s)); [|lia].
  assert (accessible h b s) as Hacc by (eapply accessible_block; [done|lia|lia]).
  by apply (allocd_agree h n p b s Hn ltac:(lia) Hp Hacc).
Qed.

(** Writing into blocks that are not live in [h] preserves [h]. *)
Lemma preserves_stored h h' a bs :
  preserves h h' →
  (∀ b s, blocks h !! b = Some s → disjoint_ranges a (Z.of_nat (length bs)) b s) →
  preserves h (stored h' a bs).
Proof.
  intros Hp Hd b s Hb. destruct (Hp b s Hb) as [Hb' Hm']. split; [done|].
  intros x Hx. rewrite <- Hm' by done.
  apply (stored_agree h' a bs b s); [by apply Hd|done].
Qed.

(** Word access inside the block just allocated. *)
Lemma preserves_word h h' a v : preserves h h' → word_at h a v → word_at h' a v.
Proof.
  intros Hp Hw. pose proof Hw as ((b & s & Hb & Hin) & _).
  destruct (Hp b s Hb) as [Hb' Hm']. unfold in_block in Hin.
  eapply word_at_agree; [|done]. split.
  - intros x Hx. apply Hm'. lia.
  - intros _. by exists b, s.
Qed.

Lemma preserves_freed h h' p :
  preserves h h' → blocks h !! p = None → preserves h (freed h' p).
Proof.
  intros Hp Hn b s Hb. destruct (Hp b s Hb) as [Hb' Hm']. split; [|done].
  cbn. rewrite lookup_delete_ne by congruence. done.
Qed.

Lemma preserves_ticked h h' : preserves h h' → preserves h (ticked h').
Proof. done. Qed.

Lemma preserves_new_store h h' p n a bs :
  heap_wf h' → preserves h h' → blocks h !! p = None → blocks h' !! p = Some n →
  p ≤ a → a + Z.of_nat (length bs) ≤ p + n → preserves h (stored h' a bs).
Proof.
  intros Hwf Hp Hn Hb Ha Hl. apply preserves_stored; [done|]. intros b s Hbs.
  destruct (Hp b s Hbs) as [Hb' _].
  pose proof (proj2 Hwf p n b s Hb Hb' ltac:(congruence)) as Hd.
  eapply disjoint_ranges_sub; [exact Hd|lia|lia].
Qed.
