(* ===== verification/Libpool.v ===== *)
(** libpool (src/common/src/libpool.c, src/common/include/common/libpool.h):
    the pool allocator under [Mempool], as it is built by the project (alignment
    on, [LIBPOOL_THREAD_SAFE] off, the Valgrind requests and [LIBPOOL_LOG]
    without effect on the program's state).

    Structures live in the memory of [CMem] at the offsets an LP64 compiler
    gives them; every field access of the C code is a load or a store.  The
    abstract pool [apool] is the stack of free chunks that the linked list
    threaded through the chunks stands for, and [pool_rep] relates the two. *)

From S2P Require Import Prelude Bytes CMem.
Local Open Scope Z_scope.

(** ** Layout *)

Definition sizeof_ptr : Z := 8.

(** struct ArrayStart { ArrayStart* next; void* arr; } *)
Definition sizeof_ArrayStart : Z := 16.
Definition ArrayStart_next (p : Z) : Z := p.
Definition ArrayStart_arr (p : Z) : Z := p + 8.

(** struct Pool { void* free_chunk; ArrayStart* array_starts; size_t chunk_sz; } *)
Definition sizeof_Pool : Z := 24.
Definition Pool_free_chunk (p : Z) : Z := p.
Definition Pool_array_starts (p : Z) : Z := p + 8.
Definition Pool_chunk_sz (p : Z) : Z := p + 16.

(** With LIBPOOL_THREAD_SAFE: void* lock at its end. *)
Definition sizeof_Pool_locked : Z := 32.
Definition Pool_lock (p : Z) : Z := p + 24.

(** ALIGN2BOUNDARY(SIZE, BOUNDARY), in size_t arithmetic. *)
Definition ALIGN2BOUNDARY (SIZE BOUNDARY : Z) : Z :=
  Z.land (u64 (u64 (SIZE + BOUNDARY) - 1)) (u64 (Z.lnot (u64 (BOUNDARY - 1)))).

(** ** The operations *)

Section ops.
Context `{Allocator}.

Definition pool_assert_ext_funcs : bool := ext_funcs_set.

(** for (i = 0; i < n - 1; i++) *(void** )(arr + i * sz) = arr + (i + 1) * sz; *)
Definition link_chunks (arr n sz : Z) : M heap unit :=
  for_below (n - 1) (λ i,
    store64 (u64 (arr + u64 (i * sz))) (u64 (arr + u64 (u64 (i + 1) * sz)))).

(** The end of pool_new: build the free list and set the fields. *)
Definition pool_init (pool arr pool_sz chunk_sz : Z) : M heap Z :=
  link_chunks arr pool_sz chunk_sz;;
  store64 (u64 (arr + u64 ((pool_sz - 1) * chunk_sz))) NULL;;
  store64 (Pool_free_chunk pool) arr;;
  starts ← load64 (Pool_array_starts pool);
  store64 (ArrayStart_next starts) NULL;;
  starts ← load64 (Pool_array_starts pool);
  store64 (ArrayStart_arr starts) arr;;
  store64 (Pool_chunk_sz pool) chunk_sz;;
  mret pool.

Definition pool_new (pool_sz chunk_sz : Z) : M heap Z :=
  if pool_sz =? 0 then mret NULL else
  let chunk_sz := ALIGN2BOUNDARY chunk_sz sizeof_ptr in
  if negb pool_assert_ext_funcs then mret NULL else
  pool ← malloc sizeof_Pool;
  if pool =? NULL then mret NULL else
  starts ← malloc sizeof_ArrayStart;
  store64 (Pool_array_starts pool) starts;;
  starts ← load64 (Pool_array_starts pool);
  if starts =? NULL then cfree pool;; mret NULL else
  arr ← malloc (u64 (pool_sz * chunk_sz));
  if arr =? NULL then
    starts ← load64 (Pool_array_starts pool);
    cfree starts;; cfree pool;; mret NULL
  else
  pool_init pool arr pool_sz chunk_sz.

(** The same loop in pool_expand, which reads pool->chunk_sz every time. *)
Definition link_extra (pool extra_arr extra_sz : Z) : M heap unit :=
  for_below (extra_sz - 1) (λ i,
    sz ← load64 (Pool_chunk_sz pool);
    store64 (u64 (extra_arr + u64 (i * sz))) (u64 (extra_arr + u64 (u64 (i + 1) * sz)))).

Definition pool_expand (pool extra_sz : Z) : M heap bool :=
  if (pool =? NULL) || (extra_sz <=? 0) then mret false else
  array_start ← malloc sizeof_ArrayStart;
  if array_start =? NULL then mret false else
  chunk_sz ← load64 (Pool_chunk_sz pool);
  extra_arr ← malloc (u64 (extra_sz * chunk_sz));
  if extra_arr =? NULL then cfree array_start;; mret false else
  link_extra pool extra_arr extra_sz;;
  chunk_sz ← load64 (Pool_chunk_sz pool);
  free_chunk ← load64 (Pool_free_chunk pool);
  store64 (u64 (extra_arr + u64 ((extra_sz - 1) * chunk_sz))) free_chunk;;
  store64 (Pool_free_chunk pool) extra_arr;;
  store64 (ArrayStart_arr array_start) extra_arr;;
  starts ← load64 (Pool_array_starts pool);
  store64 (ArrayStart_next array_start) starts;;
  store64 (Pool_array_starts pool) array_start;;
  mret true.

(** while (array_start != NULL) { ... } of pool_destroy *)
Fixpoint destroy_loop (fuel : nat) (array_start : Z) : M heap unit :=
  match fuel with
  | O => λ _, OutOfFuel
  | S fuel' =>
      if array_start =? NULL then mret tt else
      next ← load64 (ArrayStart_next array_start);
      arr ← load64 (ArrayStart_arr array_start);
      cfree arr;;
      cfree array_start;;
      destroy_loop fuel' next
  end.

Definition pool_destroy (fuel : nat) (pool : Z) : M heap unit :=
  if pool =? NULL then mret tt else
  array_start ← load64 (Pool_array_starts pool);
  destroy_loop fuel array_start;;
  cfree pool.

Definition pool_alloc (pool : Z) : M heap Z :=
  if pool =? NULL then mret NULL else
  free_chunk ← load64 (Pool_free_chunk pool);
  if free_chunk =? NULL then mret NULL else
  next ← load64 free_chunk;
  store64 (Pool_free_chunk pool) next;;
  mret free_chunk.

Definition pool_free (pool ptr : Z) : M heap unit :=
  if (pool =? NULL) || (ptr =? NULL) then mret tt else
  free_chunk ← load64 (Pool_free_chunk pool);
  store64 ptr free_chunk;;
  store64 (Pool_free_chunk pool) ptr.

(** while (free_chunk != NULL) { available++; ... } of pool_available *)
Fixpoint available_loop (fuel : nat) (free_chunk available : Z) : M heap Z :=
  match fuel with
  | O => λ _, OutOfFuel
  | S fuel' =>
      if free_chunk =? NULL then mret available else
      next ← load64 free_chunk;
      available_loop fuel' next (u64 (available + 1))
  end.

Definition pool_available (fuel : nat) (p : Z) : M heap Z :=
  if p =? NULL then mret 0 else
  free_chunk ← load64 (Pool_free_chunk p);
  available_loop fuel free_chunk 0.
End ops.

(** ** The abstract pool *)

(** One array of chunks: its ArrayStart node, its base address, its length. *)
Record array := Array { ar_node : Z; ar_base : Z; ar_len : Z }.

Record apool := APool {
  ap_sz : Z;               (* chunk size after alignment *)
  ap_free : list Z;        (* the free chunks, next one to be allocated first *)
  ap_arrays : list array   (* newest array first *)
}.

Definition chunks_of (sz : Z) (a : array) : list Z :=
  (λ i, ar_base a + i * sz) <$> seqZ 0 (ar_len a).

Definition chunks (sz : Z) (arrs : list array) : list Z := arrs ≫= chunks_of sz.

Definition all_chunks (A : apool) : list Z := chunks (ap_sz A) (ap_arrays A).

(** What the operations do to it. *)
Definition ap_alloc (A : apool) : option (Z * apool) :=
  match ap_free A with
  | [] => None
  | c :: f => Some (c, APool (ap_sz A) f (ap_arrays A))
  end.

Definition ap_release (c : Z) (A : apool) : apool :=
  APool (ap_sz A) (c :: ap_free A) (ap_arrays A).

Definition ap_grow (a : array) (A : apool) : apool :=
  APool (ap_sz A) (chunks_of (ap_sz A) a ++ ap_free A) (a :: ap_arrays A).

(** ** Representation *)

Definition head_chunk (l : list Z) : Z := default NULL (head l).
Definition head_node (l : list array) : Z := from_option ar_node NULL (head l).

(** The linked list of free chunks: each one starts with the next one's address. *)
Fixpoint chain (h : heap) (l : list Z) : Prop :=
  match l with
  | [] => True
  | c :: l' => word_at h c (head_chunk l') ∧ chain h l'
  end.

Fixpoint starts_list (h : heap) (l : list array) : Prop :=
  match l with
  | [] => True
  | a :: l' =>
      word_at h (ArrayStart_next (ar_node a)) (head_node l') ∧
      word_at h (ArrayStart_arr (ar_node a)) (ar_base a) ∧ starts_list h l'
  end.

Definition bases (p : Z) (arrs : list array) : list Z :=
  p :: (ar_node <$> arrs) ++ (ar_base <$> arrs).

(** The block of the structure Pool: with LIBPOOL_THREAD_SAFE it has one more field at its end. *)
Definition pool_block (h : heap) (p : Z) : Prop := ∃ s, blocks h !! p = Some s ∧ sizeof_Pool ≤ s.

(** Everything but the free list. *)
Record pool_struct (h : heap) (p sz : Z) (arrs : list array) : Prop := {
  ps_wf : heap_wf h;
  ps_sz : 8 ≤ sz ∧ (8 | sz);
  ps_pool : pool_block h p;
  ps_starts_field : word_at h (Pool_array_starts p) (head_node arrs);
  ps_chunk_sz : word_at h (Pool_chunk_sz p) sz;
  ps_starts : starts_list h arrs;
  ps_arrays : ∀ a, a ∈ arrs →
    blocks h !! ar_node a = Some sizeof_ArrayStart ∧
    blocks h !! ar_base a = Some (ar_len a * sz) ∧ 0 < ar_len a;
  ps_bases : NoDup (bases p arrs)
}.

Record pool_rep (h : heap) (p : Z) (A : apool) : Prop := {
  pr_struct : pool_struct h p (ap_sz A) (ap_arrays A);
  pr_head : word_at h (Pool_free_chunk p) (head_chunk (ap_free A));
  pr_chain : chain h (ap_free A);
  pr_nodup : NoDup (ap_free A);
  pr_free : ap_free A ⊆ all_chunks A
}.
