(* ===== verification/LibpoolLemmas.v ===== *)
(** Lemmas on the representation of a pool: where its chunks lie, and what a
    change of the heap preserves. *)

From S2P Require Import Prelude Bytes CMem Libpool.
Local Open Scope Z_scope.

Lemma head_chunk_cons c l : head_chunk (c :: l) = c.
Proof. done. Qed.

(** ** Chunk addresses *)

Lemma elem_of_chunks_of sz a c :
  c ∈ chunks_of sz a ↔ ∃ i, c = ar_base a + i * sz ∧ 0 ≤ i < ar_len a.
Proof.
  unfold chunks_of. rewrite list_elem_of_fmap. setoid_rewrite elem_of_seqZ.
  split; intros (i & ? & ?); exists i; (split; [done|lia]).
Qed.

Lemma elem_of_chunks sz arrs c :
  c ∈ chunks sz arrs ↔ ∃ a i, a ∈ arrs ∧ c = ar_base a + i * sz ∧ 0 ≤ i < ar_len a.
Proof.
  unfold chunks. rewrite list_elem_of_bind. setoid_rewrite elem_of_chunks_of.
  split; [intros (a & (i & ? & ?) & ?)|intros (a & i & ? & ? & ?)]; eauto 7.
Qed.

Lemma chunks_cons sz a l : chunks sz (a :: l) = chunks_of sz a ++ chunks sz l.
Proof. done. Qed.

Lemma length_chunks_of sz a : length (chunks_of sz a) = Z.to_nat (ar_len a).
Proof. unfold chunks_of. rewrite length_fmap. apply length_seqZ. Qed.

Lemma NoDup_chunks_of sz a : 0 < sz → NoDup (chunks_of sz a).
Proof.
  intros. unfold chunks_of. apply NoDup_fmap_2_strong; [|apply NoDup_seqZ].
  intros i j _ _ Heq. nia.
Qed.

Lemma array_slot_inside sz i n : 0 ≤ i < n → 0 ≤ sz → 0 ≤ i * sz ∧ i * sz + sz ≤ n * sz.
Proof. intros. nia. Qed.

Section struct_lemmas.
Context (h : heap) (p sz : Z) (arrs : list array) (Hs : pool_struct h p sz arrs).

Lemma ps_base_in a : a ∈ arrs → ar_base a ∈ bases p arrs ∧ ar_node a ∈ bases p arrs.
Proof.
  intros Ha. unfold bases. rewrite !elem_of_cons, !elem_of_app, !list_elem_of_fmap.
  split; right; [right|left]; eauto.
Qed.

Lemma ps_node_ne_base a b : a ∈ arrs → b ∈ arrs → ar_node a ≠ ar_base b.
Proof.
  intros Ha Hb Heq. pose proof (ps_bases _ _ _ _ Hs) as Hnd. unfold bases in Hnd.
  apply NoDup_cons in Hnd as [_ (_ & Hd & _)%NoDup_app].
  apply (Hd (ar_node a)); [apply list_elem_of_fmap; eauto|].
  rewrite Heq. apply list_elem_of_fmap; eauto.
Qed.

Lemma ps_pool_ne a : a ∈ arrs → p ≠ ar_node a ∧ p ≠ ar_base a.
Proof.
  intros Ha. pose proof (ps_bases _ _ _ _ Hs) as Hnd. unfold bases in Hnd.
  apply NoDup_cons in Hnd as [Hn _]. rewrite elem_of_app, !list_elem_of_fmap in Hn.
  split; intros ->; apply Hn; eauto.
Qed.

Lemma chunk_inside c :
  c ∈ chunks sz arrs →
  ∃ a, a ∈ arrs ∧ in_block c sz (ar_base a) (ar_len a * sz) ∧
       blocks h !! ar_base a = Some (ar_len a * sz).
Proof.
  intros (a & i & Ha & -> & Hi)%elem_of_chunks. exists a.
  destruct (ps_arrays _ _ _ _ Hs a Ha) as (_ & Hb & _). split_and!; [done| |done].
  pose proof (array_slot_inside sz i (ar_len a) Hi ltac:(pose proof (ps_sz _ _ _ _ Hs); lia)).
  unfold in_block. lia.
Qed.

Lemma chunk_range c : c ∈ chunks sz arrs → 0 < c ∧ c + sz < 2 ^ 64.
Proof.
  intros (a & _ & Hin & Hb)%chunk_inside. unfold in_block in Hin.
  pose proof (proj1 (ps_wf _ _ _ _ Hs) _ _ Hb). lia.
Qed.

Lemma chunk_accessible c n : c ∈ chunks sz arrs → 0 ≤ n ≤ sz → accessible h c n.
Proof.
  intros (a & _ & Hin & Hb)%chunk_inside Hn. unfold in_block in Hin.
  eapply accessible_block; [exact Hb|lia|lia].
Qed.

(** Distinct chunks do not overlap. *)
Lemma chunk_disjoint c c' :
  c ∈ chunks sz arrs → c' ∈ chunks sz arrs → c ≠ c' → disjoint_ranges c sz c' sz.
Proof.
  intros (a & i & Ha & -> & Hi)%elem_of_chunks (b & j & Hb & -> & Hj)%elem_of_chunks Hne.
  pose proof (proj1 (ps_sz _ _ _ _ Hs)). unfold disjoint_ranges.
  destruct (ps_arrays _ _ _ _ Hs a Ha) as (_ & Hba & _).
  destruct (ps_arrays _ _ _ _ Hs b Hb) as (_ & Hbb & _).
  destruct (decide (ar_base a = ar_base b)) as [Heq|Hneq].
  - assert (i ≠ j) by congruence. nia.
  - pose proof (proj2 (ps_wf _ _ _ _ Hs) _ _ _ _ Hba Hbb Hneq) as Hd.
    unfold disjoint_ranges in Hd.
    pose proof (array_slot_inside sz i _ Hi ltac:(lia)).
    pose proof (array_slot_inside sz j _ Hj ltac:(lia)). lia.
Qed.

Lemma chunk_disjoint_block c b s :
  c ∈ chunks sz arrs → blocks h !! b = Some s →
  (∀ a, a ∈ arrs → ar_base a ≠ b) → disjoint_ranges c sz b s.
Proof.
  intros (a & Ha & Hin & Hb)%chunk_inside Hblk Hne. unfold in_block in Hin.
  pose proof (proj2 (ps_wf _ _ _ _ Hs) _ _ _ _ Hb Hblk (Hne a Ha)) as Hd.
  unfold disjoint_ranges in *. lia.
Qed.

Lemma chunk_disjoint_pool c : c ∈ chunks sz arrs → disjoint_ranges c sz p sizeof_Pool.
Proof.
  intros Hc. destruct (ps_pool _ _ _ _ Hs) as (s & Hp & Hle).
  assert (disjoint_ranges c sz p s) as Hd; [|unfold disjoint_ranges in *; lia].
  apply (chunk_disjoint_block c p s Hc Hp). intros a Ha Heq. destruct (ps_pool_ne a Ha). congruence.
Qed.

Lemma chunk_disjoint_node c a :
  c ∈ chunks sz arrs → a ∈ arrs → disjoint_ranges c sz (ar_node a) sizeof_ArrayStart.
Proof.
  intros Hc Ha. apply chunk_disjoint_block; [done|apply (ps_arrays _ _ _ _ Hs a Ha)|].
  intros b Hb Heq. by apply (ps_node_ne_base a b Ha Hb).
Qed.

Lemma pool_disjoint_node a :
  a ∈ arrs → disjoint_ranges p sizeof_Pool (ar_node a) sizeof_ArrayStart.
Proof.
  intros Ha. destruct (ps_pool _ _ _ _ Hs) as (s & Hp & Hle).
  destruct (ps_arrays _ _ _ _ Hs a Ha) as (Hn & _).
  pose proof (proj2 (ps_wf _ _ _ _ Hs) _ _ _ _ Hp Hn (proj1 (ps_pool_ne a Ha))) as Hd.
  unfold disjoint_ranges in *. lia.
Qed.

Lemma ps_pool_range : 0 < p ∧ p + 24 < 2 ^ 64.
Proof.
  destruct (ps_pool _ _ _ _ Hs) as (s & Hp & Hle).
  pose proof (proj1 (ps_wf _ _ _ _ Hs) _ _ Hp). unfold sizeof_Pool in *. lia.
Qed.

Lemma ps_pool_accessible o : 0 ≤ o ≤ 16 → accessible h (p + o) 8.
Proof.
  intros Ho. destruct (ps_pool _ _ _ _ Hs) as (s & Hp & Hle).
  eapply accessible_block; [exact Hp|lia|]. unfold sizeof_Pool in *. lia.
Qed.
End struct_lemmas.

(** ** Frames *)

Lemma chain_frame h h' l :
  (∀ c, c ∈ l → agree_on h h' c 8) → chain h l → chain h' l.
Proof.
  induction l as [|c l IH]; intros Hag; cbn [chain]; [done|].
  intros [Hw Hc]. split.
  - eapply word_at_agree; [|done]. apply Hag. left.
  - apply IH; [|done]. intros c' Hc'. apply Hag. by right.
Qed.

Lemma starts_frame h h' l :
  (∀ a, a ∈ l → agree_on h h' (ar_node a) 8 ∧ agree_on h h' (ar_node a + 8) 8) →
  starts_list h l → starts_list h' l.
Proof.
  induction l as [|a l IH]; intros Hag; cbn [starts_list]; [done|].
  intros (Hn & Ha & Hl). destruct (Hag a) as [H1 H2]; [left|].
  split_and!; [by eapply word_at_agree|by eapply word_at_agree|].
  apply IH; [|done]. intros b Hb. apply Hag. by right.
Qed.

(** A heap that keeps the pool's blocks and the bytes of its structures. *)
Lemma pool_struct_frame h h' p sz arrs :
  pool_struct h p sz arrs → heap_wf h' →
  (∀ b, b ∈ bases p arrs → blocks h' !! b = blocks h !! b) →
  (∀ x, p + 8 ≤ x < p + 24 → mem h' !! x = mem h !! x) →
  (∀ a x, a ∈ arrs → ar_node a ≤ x < ar_node a + 16 → mem h' !! x = mem h !! x) →
  pool_struct h' p sz arrs.
Proof.
  intros Hs Hwf Hblk Hpool Hnode.
  destruct (ps_pool _ _ _ _ Hs) as (s & Hp & Hle). rewrite <- Hblk in Hp by left.
  assert (∀ o, 8 ≤ o ≤ 16 → agree_on h h' (p + o) 8) as Hpo.
  { intros o Ho. split; [intros x Hx; apply Hpool; lia|].
    intros _. eapply accessible_block; [exact Hp|lia|unfold sizeof_Pool in *; lia]. }
  assert (∀ a, a ∈ arrs → blocks h' !! ar_node a = Some sizeof_ArrayStart ∧
     blocks h' !! ar_base a = Some (ar_len a * sz) ∧ 0 < ar_len a) as Harr.
  { intros a Ha. destruct (ps_base_in p arrs a Ha) as [Hb Hn].
    rewrite !Hblk by done. by apply (ps_arrays _ _ _ _ Hs). }
  split; try done.
  - apply Hs.
  - by exists s.
  - eapply word_at_agree; [apply Hpo; lia|apply Hs].
  - eapply word_at_agree; [apply Hpo; lia|apply Hs].
  - eapply starts_frame; [|apply Hs]. intros a Ha. destruct (Harr a Ha) as (Hn & _).
    unfold sizeof_ArrayStart in Hn.
    split; (split; [intros x Hx; apply (Hnode a); [done|lia]|]); intros _;
      (eapply accessible_block; [exact Hn|lia|lia]).
  - apply Hs.
Qed.

(** Storing bytes into a chunk, or into the first word of the pool, leaves the
    structures alone. *)
Lemma pool_struct_store_chunk h p sz arrs c bs :
  pool_struct h p sz arrs → c ∈ chunks sz arrs → Z.of_nat (length bs) ≤ sz →
  pool_struct (stored h c bs) p sz arrs.
Proof.
  intros Hs Hc Hl. eapply pool_struct_frame; [done|apply Hs|done| |].
  - pose proof (chunk_disjoint_pool _ _ _ _ Hs c Hc) as Hd. unfold sizeof_Pool in Hd.
    intros x Hx. apply (stored_agree h c bs p 24); [|lia].
    unfold disjoint_ranges in *. lia.
  - intros a x Ha Hx. pose proof (chunk_disjoint_node _ _ _ _ Hs c a Hc Ha) as Hd.
    unfold sizeof_ArrayStart in Hd.
    apply (stored_agree h c bs (ar_node a) 16); [|lia].
    unfold disjoint_ranges in *. lia.
Qed.

Lemma pool_struct_store_head h p sz arrs v :
  pool_struct h p sz arrs → pool_struct (stored h p (le_bytes 8 v)) p sz arrs.
Proof.
  intros Hs. eapply pool_struct_frame; [done|apply Hs|done| |].
  - intros x Hx. apply (stored_agree h p _ (p + 8) 16); [|lia].
    rewrite le_bytes_length. unfold disjoint_ranges. lia.
  - intros a x Ha Hx. pose proof (pool_disjoint_node _ _ _ _ Hs a Ha) as Hd.
    unfold sizeof_ArrayStart, sizeof_Pool in Hd.
    apply (stored_agree h p _ (ar_node a) 16); [|lia].
    rewrite le_bytes_length. unfold disjoint_ranges in *. lia.
Qed.

Lemma chain_store_head h p sz arrs v l :
  pool_struct h p sz arrs → l ⊆ chunks sz arrs →
  chain h l → chain (stored h p (le_bytes 8 v)) l.
Proof.
  intros Hs Hl. apply chain_frame. intros c Hc.
  apply stored_agree. rewrite le_bytes_length.
  pose proof (chunk_disjoint_pool _ _ _ _ Hs c (Hl c Hc)).
  pose proof (ps_sz _ _ _ _ Hs). unfold disjoint_ranges, sizeof_Pool in *. lia.
Qed.

Lemma chain_store_chunk h p sz arrs c bs l :
  pool_struct h p sz arrs → l ⊆ chunks sz arrs → c ∈ chunks sz arrs → c ∉ l →
  Z.of_nat (length bs) ≤ sz → chain h l → chain (stored h c bs) l.
Proof.
  intros Hs Hl Hc Hcl Hlen. apply chain_frame. intros c' Hc'. apply stored_agree.
  pose proof (chunk_disjoint _ _ _ _ Hs c c' Hc (Hl c' Hc') ltac:(congruence)).
  pose proof (ps_sz _ _ _ _ Hs). unfold disjoint_ranges in *. lia.
Qed.

(** The value stored in the head of the list is always an address or NULL. *)
Lemma head_chunk_range h p sz arrs l :
  pool_struct h p sz arrs → l ⊆ chunks sz arrs → 0 ≤ head_chunk l < 2 ^ 64.
Proof.
  intros Hs Hl. unfold head_chunk, NULL. destruct l as [|c l]; cbn; [lia|].
  pose proof (chunk_range _ _ _ _ Hs c (Hl c ltac:(left))).
  pose proof (ps_sz _ _ _ _ Hs). lia.
Qed.

Lemma elem_of_bases p arrs b :
  b ∈ bases p arrs ↔ b = p ∨ ∃ a, a ∈ arrs ∧ (b = ar_node a ∨ b = ar_base a).
Proof.
  unfold bases. rewrite elem_of_cons, elem_of_app, !list_elem_of_fmap. split.
  - intros [->|[(a & -> & Ha)|(a & -> & Ha)]]; eauto.
  - intros [->|(a & Ha & [-> | ->])]; eauto.
Qed.

Lemma ps_bases_live h p sz arrs b :
  pool_struct h p sz arrs → b ∈ bases p arrs → is_Some (blocks h !! b).
Proof.
  intros Hs [->|(a & Ha & Hb)]%elem_of_bases.
  - destruct (ps_pool _ _ _ _ Hs) as (s & -> & _). by eexists.
  - destruct (ps_arrays _ _ _ _ Hs a Ha) as (Hn & Hba & _).
    destruct Hb as [-> | ->]; [by rewrite Hn|by rewrite Hba].
Qed.

(** A change of the heap that keeps the live blocks keeps the pool. *)
Lemma pool_rep_preserves h h' p A :
  pool_rep h p A → heap_wf h' → preserves h h' → pool_rep h' p A.
Proof.
  intros Hr Hwf Hpr. pose proof (pr_struct _ _ _ Hr) as Hs.
  assert (∀ b s, blocks h !! b = Some s → blocks h' !! b = blocks h !! b) as Hbl.
  { intros b s Hb. rewrite Hb. by apply (Hpr b s). }
  split.
  - eapply pool_struct_frame; [done|done| | |].
    + intros b Hb. destruct (ps_bases_live _ _ _ _ b Hs Hb) as [s Hs']. eauto.
    + destruct (ps_pool _ _ _ _ Hs) as (s & Hp & Hle). intros x Hx. apply (Hpr p _ Hp).
      unfold sizeof_Pool in *. lia.
    + intros a x Ha Hx. destruct (ps_arrays _ _ _ _ Hs a Ha) as (Hn & _).
      apply (Hpr _ _ Hn). unfold sizeof_ArrayStart. lia.
  - eapply preserves_word; [done|apply Hr].
  - assert (∀ l, chain h l → chain h' l) as Hch; [|apply Hch, Hr].
    induction l as [|c l IH]; [done|]. intros [Hw Hc]. split; [by eapply preserves_word|auto].
  - apply Hr.
  - apply Hr.
Qed.
