(* ===== verification/LibpoolDec.v ===== *)
(** The representation predicate of a pool is decidable, so that a concrete
    heap can be checked by computation; and the concrete pool that the
    witnesses use, built by running [pool_new] on the bump allocator. *)

From S2P Require Import Prelude Bytes CMem Libpool LibpoolLemmas.
Local Open Scope Z_scope.

#[global] Instance disjoint_ranges_dec a n b s : Decision (disjoint_ranges a n b s).
Proof. unfold disjoint_ranges. apply _. Defined.

(** A proposition equivalent to a decidable one is decidable. *)
Definition dec_iff {P Q : Prop} (H : P ↔ Q) `{Decision Q} : Decision P :=
  match decide Q with
  | left q => left (proj2 H q)
  | right nq => right (λ p, nq (proj1 H p))
  end.

#[global] Instance Z_divides_dec (a b : Z) : Decision (a | b).
Proof.
  assert ((a | b) ↔ b `mod` a = 0) as Hiff.
  { destruct (Z.eq_dec a 0) as [->|]; [|symmetry; by apply Z.mod_divide].
    rewrite Z.mod_0_r. split; [by apply Z.divide_0_l|by intros ->]. }
  exact (dec_iff Hiff).
Defined.

#[global] Instance heap_wf_dec h : Decision (heap_wf h).
Proof.
  refine (cast_if (decide (
    map_Forall (λ b s, 0 < b ∧ 0 ≤ s ∧ b + s < 2 ^ 64) (blocks h) ∧
    map_Forall (λ b s, map_Forall (λ b' s', b = b' ∨ disjoint_ranges b s b' s') (blocks h))
               (blocks h)))).
  - abstract (destruct a as [H1 H2]; split; [done|]; intros b s b' s' Hb Hb' Hne;
              by destruct (H2 b s Hb b' s' Hb')).
  - abstract (intros [H1 H2]; apply n; split; [done|]; intros b s Hb b' s' Hb';
              destruct (decide (b = b')); [by left|right; by apply H2]).
Defined.

#[global] Instance word_at_dec h a v : Decision (word_at h a v).
Proof. unfold word_at. apply _. Defined.

#[global] Instance chain_dec h l : Decision (chain h l).
Proof. induction l; cbn [chain]; apply _. Defined.

#[global] Instance starts_list_dec h l : Decision (starts_list h l).
Proof. induction l; cbn [starts_list]; apply _. Defined.

#[global] Instance array_eq_dec : EqDecision array.
Proof. solve_decision. Defined.

#[global] Instance pool_block_dec h p : Decision (pool_block h p).
Proof.
  unfold pool_block. destruct (blocks h !! p) as [s|].
  - refine (cast_if (decide (sizeof_Pool ≤ s))); [abstract (by exists s)|abstract (by intros (? & [= <-] & ?))].
  - right. abstract (by intros (? & ? & _)).
Defined.

Lemma pool_struct_alt h p sz arrs :
  pool_struct h p sz arrs ↔
    (heap_wf h ∧ (8 ≤ sz ∧ (8 | sz)) ∧ pool_block h p ∧
     word_at h (Pool_array_starts p) (head_node arrs)) ∧
    (word_at h (Pool_chunk_sz p) sz ∧ starts_list h arrs ∧
     Forall (λ a, blocks h !! ar_node a = Some sizeof_ArrayStart ∧
                  blocks h !! ar_base a = Some (ar_len a * sz) ∧ 0 < ar_len a) arrs ∧
     NoDup (bases p arrs)).
Proof.
  rewrite Forall_forall. split; [intros []; tauto|].
  intros ((? & ? & ? & ?) & (? & ? & ? & ?)). by split.
Qed.

Lemma pool_rep_alt h p A :
  pool_rep h p A ↔
    pool_struct h p (ap_sz A) (ap_arrays A) ∧
    word_at h (Pool_free_chunk p) (head_chunk (ap_free A)) ∧ chain h (ap_free A) ∧
    NoDup (ap_free A) ∧ Forall (λ c, c ∈ all_chunks A) (ap_free A).
Proof.
  rewrite Forall_forall. split; [intros []; tauto|].
  intros (? & ? & ? & ? & ?). by split.
Qed.

#[global] Instance pool_struct_dec h p sz arrs : Decision (pool_struct h p sz arrs).
Proof. refine (dec_iff (pool_struct_alt h p sz arrs)). Defined.

#[global] Instance pool_rep_dec h p A : Decision (pool_rep h p A).
Proof. refine (dec_iff (pool_rep_alt h p A)). Defined.

(** ** A concrete pool *)

Definition demo_alloc : Allocator := bump 4096.

(** The heap after [pool_new(3, 20)] on an empty heap: chunks of 24 bytes. *)
Definition demo_run : outcome heap Z := Eval vm_compute in @pool_new demo_alloc 3 20 empty_heap.
Definition demo_heap : heap := match demo_run with Ok _ h => h | _ => empty_heap end.
Definition demo_pool : Z := match demo_run with Ok p _ => p | _ => 0 end.
Definition demo_apool : apool :=
  let a := Array 64 96 3 in APool 24 (chunks_of 24 a) [a].

Lemma demo_rep : pool_rep demo_heap demo_pool demo_apool.
Proof. apply (bool_decide_unpack _). vm_compute. exact I. Qed.

(** The same pool after its first chunk has been handed out. *)
Definition demo_heap1 : heap :=
  match @pool_alloc demo_pool demo_heap with Ok _ h => h | _ => empty_heap end.
Definition demo_apool1 : apool := APool 24 [120; 144] (ap_arrays demo_apool).

Lemma demo_rep1 : pool_rep demo_heap1 demo_pool demo_apool1.
Proof. apply (bool_decide_unpack _). vm_compute. exact I. Qed.
