(* ===== verification/LibpoolSpec.v ===== *)
(** The operations of libpool refine the abstract pool: what each one returns,
    what it does to the stack of free chunks, and that no access leaves the
    pool's blocks. *)

From S2P Require Import Prelude Bytes CMem Libpool LibpoolLemmas.
Local Open Scope Z_scope.

(** A pool pointer the client holds is never null. *)
Lemma pool_rep_nonnull h p A : pool_rep h p A → (p =? NULL) = false.
Proof.
  intros Hr. apply Z.eqb_neq. pose proof (ps_pool_range _ _ _ _ (pr_struct _ _ _ Hr)).
  unfold NULL. lia.
Qed.

Lemma pool_rep_free_nonnull h p A c : pool_rep h p A → c ∈ all_chunks A → (c =? NULL) = false.
Proof.
  intros Hr Hc. apply Z.eqb_neq. pose proof (chunk_range _ _ _ _ (pr_struct _ _ _ Hr) c Hc).
  unfold NULL. lia.
Qed.

(** ** pool_alloc *)

Section alloc_free.
Context `{AllocatorLaws}.

Lemma pool_alloc_empty h p A :
  pool_rep h p A → ap_free A = [] → pool_alloc p h = Ok NULL h.
Proof.
  intros Hr Hf. unfold pool_alloc. rewrite (pool_rep_nonnull _ _ _ Hr).
  erewrite bind_Ok by (apply word_at_load, (pr_head _ _ _ Hr)).
  by rewrite Hf.
Qed.

Lemma pool_alloc_run h p A c f :
  pool_rep h p A → ap_free A = c :: f →
  pool_alloc p h = Ok c (stored h p (le_bytes 8 (head_chunk f))).
Proof.
  intros Hr Hf. pose proof (pr_struct _ _ _ Hr) as Hs.
  pose proof (pr_head _ _ _ Hr) as Hh. pose proof (pr_chain _ _ _ Hr) as Hc.
  rewrite Hf in Hh, Hc. destruct Hc as [Hw _].
  unfold pool_alloc. rewrite (pool_rep_nonnull _ _ _ Hr).
  erewrite bind_Ok by (by apply word_at_load).
  cbn beta. change (head_chunk (c :: f)) with c.
  rewrite (pool_rep_free_nonnull h p A c Hr).
  2: { apply (pr_free _ _ _ Hr). rewrite Hf. left. }
  erewrite bind_Ok by (by apply word_at_load).
  erewrite bind_Ok; [done|]. apply store64_run.
  rewrite <- (Z.add_0_r (Pool_free_chunk p)). unfold Pool_free_chunk.
  apply (ps_pool_accessible _ _ _ _ Hs). lia.
Qed.

Lemma pool_alloc_rep h p A c f :
  pool_rep h p A → ap_free A = c :: f →
  pool_rep (stored h p (le_bytes 8 (head_chunk f))) p (APool (ap_sz A) f (ap_arrays A)).
Proof.
  intros Hr Hf. pose proof (pr_struct _ _ _ Hr) as Hs.
  assert (f ⊆ chunks (ap_sz A) (ap_arrays A)) as Hsub.
  { intros x Hx. apply (pr_free _ _ _ Hr). rewrite Hf. by right. }
  split; cbn [ap_sz ap_free ap_arrays].
  - by apply pool_struct_store_head.
  - apply stored_word; [|by eapply head_chunk_range].
    rewrite <- (Z.add_0_r (Pool_free_chunk p)). apply (ps_pool_accessible _ _ _ _ Hs). lia.
  - eapply chain_store_head; [done|done|].
    pose proof (pr_chain _ _ _ Hr) as Hc. rewrite Hf in Hc. apply Hc.
  - pose proof (pr_nodup _ _ _ Hr) as Hn. rewrite Hf in Hn. by apply NoDup_cons in Hn as [_ ?].
  - done.
Qed.

(** ** pool_free *)

Lemma pool_free_run h p A c :
  pool_rep h p A → c ∈ all_chunks A →
  pool_free p c h =
    Ok tt (stored (stored h c (le_bytes 8 (head_chunk (ap_free A)))) p (le_bytes 8 c)).
Proof.
  intros Hr Hc. pose proof (pr_struct _ _ _ Hr) as Hs.
  unfold pool_free. rewrite (pool_rep_nonnull _ _ _ Hr), (pool_rep_free_nonnull _ _ _ _ Hr Hc).
  cbn [orb]. erewrite bind_Ok by (apply word_at_load, (pr_head _ _ _ Hr)).
  erewrite bind_Ok.
  2: { apply store64_run. apply (chunk_accessible _ _ _ _ Hs); [done|].
       pose proof (ps_sz _ _ _ _ Hs). lia. }
  apply store64_run. unfold Pool_free_chunk. rewrite <- (Z.add_0_r p).
  apply (ps_pool_accessible _ _ _ _ Hs). lia.
Qed.

Lemma pool_free_rep h p A c :
  pool_rep h p A → c ∈ all_chunks A → c ∉ ap_free A →
  pool_rep (stored (stored h c (le_bytes 8 (head_chunk (ap_free A)))) p (le_bytes 8 c))
           p (ap_release c A).
Proof.
  intros Hr Hc Hn. pose proof (pr_struct _ _ _ Hr) as Hs.
  pose proof (ps_sz _ _ _ _ Hs) as Hsz. pose proof (pr_free _ _ _ Hr) as Hsub.
  assert (pool_struct (stored h c (le_bytes 8 (head_chunk (ap_free A)))) p (ap_sz A) (ap_arrays A))
    as Hs1.
  { apply pool_struct_store_chunk; [done|done|]. rewrite le_bytes_length. lia. }
  pose proof (chunk_range _ _ _ _ Hs c Hc).
  split; cbn [ap_sz ap_free ap_arrays ap_release].
  - by apply pool_struct_store_head.
  - apply stored_word; [|cbn; lia]. unfold Pool_free_chunk. rewrite <- (Z.add_0_r p).
    apply (ps_pool_accessible _ _ _ _ Hs1). lia.
  - eapply (chain_store_head _ _ _ _ _ (c :: ap_free A)); [exact Hs1| |].
    { intros x [->|?]%elem_of_cons; [done|by apply Hsub]. }
    split.
    + apply stored_word; [|by eapply head_chunk_range].
      apply (chunk_accessible _ _ _ _ Hs); [done|lia].
    + eapply chain_store_chunk; try done; [by rewrite le_bytes_length; lia|apply Hr].
  - apply NoDup_cons. split; [done|apply Hr].
  - intros x [->|?]%elem_of_cons; [done|by apply Hsub].
Qed.

(** ** pool_available *)

Lemma available_loop_run h l n fuel :
  chain h l → (∀ c, c ∈ l → c ≠ NULL) → (length l < fuel)%nat →
  0 ≤ n → n + Z.of_nat (length l) < 2 ^ 64 →
  available_loop fuel (head_chunk l) n h = Ok (n + Z.of_nat (length l)) h.
Proof.
  revert l n. induction fuel as [|fuel IH]; intros l n Hch Hnn Hf Hn0 Hn; [lia|].
  destruct l as [|c l]; cbn [available_loop].
  { cbn. by rewrite Z.add_0_r. }
  change (head_chunk (c :: l)) with c. destruct Hch as [Hw Hch].
  rewrite (proj2 (Z.eqb_neq c NULL)) by (apply Hnn; left).
  erewrite bind_Ok by (by apply word_at_load). cbn [length] in *.
  rewrite uwrap_small by lia. rewrite IH; [f_equal; lia|done| |lia|lia|lia].
  intros c' Hc'. apply Hnn. by right.
Qed.

(** A list whose tail leads back into it never reaches the null pointer. *)
Lemma available_loop_cycle h c n fuel :
  word_at h c c → c ≠ NULL → available_loop fuel c n h = OutOfFuel.
Proof.
  intros Hw Hc. revert n. induction fuel as [|fuel IH]; intros n; cbn [available_loop]; [done|].
  rewrite (proj2 (Z.eqb_neq c NULL)) by done.
  erewrite bind_Ok by (by apply word_at_load). apply IH.
Qed.

Lemma pool_rep_free_lt h p A :
  pool_rep h p A → Z.of_nat (length (ap_free A)) < 2 ^ 64.
Proof.
  intros Hr. pose proof (pr_struct _ _ _ Hr) as Hs.
  assert (ap_free A ⊆ seqZ 0 (2 ^ 64 - 1)) as Hsub.
  { intros c Hc. apply elem_of_seqZ. pose proof (chunk_range _ _ _ _ Hs c (pr_free _ _ _ Hr c Hc)).
    pose proof (ps_sz _ _ _ _ Hs). lia. }
  pose proof (submseteq_length _ _ (NoDup_submseteq _ _ (pr_nodup _ _ _ Hr) Hsub)) as Hl.
  rewrite length_seqZ in Hl. lia.
Qed.

Lemma pool_available_run h p A fuel :
  pool_rep h p A → (length (ap_free A) < fuel)%nat →
  pool_available fuel p h = Ok (Z.of_nat (length (ap_free A))) h.
Proof.
  intros Hr Hfuel. unfold pool_available. rewrite (pool_rep_nonnull _ _ _ Hr).
  rewrite (bind_Ok _ _ _ _ _ (word_at_load _ _ _ (pr_head _ _ _ Hr))).
  apply (available_loop_run h (ap_free A) 0); [apply Hr| |done|lia|].
  - intros c Hc ->. apply Hr, (chunk_range _ _ _ _ (pr_struct _ _ _ Hr)) in Hc.
    unfold NULL in Hc. lia.
  - pose proof (pool_rep_free_lt _ _ _ Hr). lia.
Qed.
End alloc_free.

(** ** A free list that is a cycle *)

Record cyclic (h : heap) (p c : Z) : Prop := {
  cy_pool : p ≠ NULL;
  cy_chunk : c ≠ NULL;
  cy_head : word_at h (Pool_free_chunk p) c;
  cy_loop : word_at h c c;
  cy_apart : disjoint_ranges p 8 c 8
}.

Lemma cyclic_available h p c fuel : cyclic h p c → pool_available fuel p h = OutOfFuel.
Proof.
  intros [Hp Hc Hh Hl _]. unfold pool_available. rewrite (proj2 (Z.eqb_neq _ _) Hp).
  rewrite (bind_Ok _ _ _ _ _ (word_at_load _ _ _ Hh)). by apply available_loop_cycle.
Qed.

Lemma cyclic_alloc h p c :
  cyclic h p c → ∃ h', pool_alloc p h = Ok c h' ∧ cyclic h' p c.
Proof.
  intros [Hp Hc Hh Hl Hd]. exists (stored h p (le_bytes 8 c)). split.
  - unfold pool_alloc. rewrite (proj2 (Z.eqb_neq _ _) Hp).
    rewrite (bind_Ok _ _ _ _ _ (word_at_load _ _ _ Hh)), (proj2 (Z.eqb_neq _ _) Hc).
    rewrite (bind_Ok _ _ _ _ _ (word_at_load _ _ _ Hl)).
    by rewrite (bind_Ok _ _ _ _ _ (store64_run _ _ _ (proj1 Hh))).
  - split; try done.
    + apply stored_word; apply Hh.
    + by apply word_at_stored_ne.
Qed.

(** Giving back the chunk at the head of the free list. *)
Lemma cyclic_double_free h p A c :
  pool_rep h p A → c ∈ all_chunks A → head_chunk (ap_free A) = c →
  cyclic (stored (stored h c (le_bytes 8 (head_chunk (ap_free A)))) p (le_bytes 8 c)) p c.
Proof.
  intros Hr Hc Hhd. pose proof (pr_struct _ _ _ Hr) as Hs. rewrite Hhd.
  pose proof (ps_sz _ _ _ _ Hs) as [Hsz _]. pose proof (chunk_range _ _ _ _ Hs c Hc).
  pose proof (ps_pool_range _ _ _ _ Hs).
  pose proof (chunk_disjoint_pool _ _ _ _ Hs c Hc) as Hd.
  assert (disjoint_ranges p 8 c 8) as Hd'.
  { unfold disjoint_ranges, sizeof_Pool in *. lia. }
  split; [unfold NULL; lia..| | |done].
  - apply stored_word; [|lia]. rewrite accessible_stored. apply (pr_head _ _ _ Hr).
  - apply word_at_stored_ne; [done|]. apply stored_word; [|lia].
    apply (chunk_accessible _ _ _ _ Hs); [done|lia].
Qed.

(** ** Linking the chunks of a new array *)

Section link.
Context (arr n sz : Z) (Hsz : 8 ≤ sz) (Hn : 0 < n) (Harr : 0 < arr)
        (Hfit : arr + n * sz < 2 ^ 64).

(** After [j] rounds: the first [j] chunks are linked, nothing else changed. *)
Definition link_inv (h : heap) (j : Z) (h' : heap) : Prop :=
  blocks h' = blocks h ∧ calls h' = calls h ∧
  (∀ x, x < arr ∨ arr + n * sz ≤ x → mem h' !! x = mem h !! x) ∧
  (∀ i, 0 ≤ i < j → word_at h' (arr + i * sz) (arr + (i + 1) * sz)).

Lemma slot_fits i : 0 ≤ i < n → 0 ≤ i * sz ∧ arr + i * sz + sz ≤ arr + n * sz.
Proof. intros Hi. pose proof (array_slot_inside sz i n Hi ltac:(lia)). lia. Qed.

Lemma link_inv_init h : link_inv h 0 h.
Proof. split_and!; [done|done|done|]. intros i ?. lia. Qed.

Lemma slot_addr i : 0 ≤ i < n → u64 (arr + u64 (i * sz)) = arr + i * sz.
Proof.
  intros Hi. pose proof (slot_fits i Hi).
  rewrite (uwrap_small 64 (i * sz)) by lia. apply uwrap_small. lia.
Qed.

Lemma next_addr i : 0 ≤ i < n - 1 → u64 (arr + u64 (u64 (i + 1) * sz)) = arr + (i + 1) * sz.
Proof.
  intros Hi. pose proof (slot_fits i ltac:(lia)). rewrite (uwrap_small 64 (i + 1)) by nia.
  apply slot_addr. lia.
Qed.

Lemma slot_store h j h' v :
  blocks h !! arr = Some (n * sz) → 0 ≤ j < n → 0 ≤ v < 2 ^ 64 → link_inv h j h' →
  let h'' := stored h' (arr + j * sz) (le_bytes 8 v) in
  accessible h' (arr + j * sz) 8 ∧ word_at h'' (arr + j * sz) v ∧
  blocks h'' = blocks h ∧ calls h'' = calls h ∧
  (∀ x, x < arr ∨ arr + n * sz ≤ x → mem h'' !! x = mem h !! x) ∧
  (∀ i, 0 ≤ i < j → word_at h'' (arr + i * sz) (arr + (i + 1) * sz)).
Proof.
  intros Hb Hj Hv (Hbl & Hca & Hm & Hw). pose proof (slot_fits j Hj).
  assert (accessible h' (arr + j * sz) 8) as Hacc.
  { eapply (accessible_block _ arr (n * sz)); [by rewrite Hbl|lia|lia]. }
  split_and!; [done|by apply stored_word|done|done| |].
  - intros x Hx. rewrite <- Hm by done.
    apply (stored_agree h' _ _ x 1); [|lia]. rewrite le_bytes_length.
    unfold disjoint_ranges. lia.
  - intros i Hi. apply word_at_stored_ne; [|by apply Hw].
    pose proof (slot_fits i ltac:(lia)). unfold disjoint_ranges. nia.
Qed.

Lemma link_step h j h' :
  blocks h !! arr = Some (n * sz) → 0 ≤ j < n - 1 → link_inv h j h' →
  wp (store64 (u64 (arr + u64 (j * sz))) (u64 (arr + u64 (u64 (j + 1) * sz))))
     (λ _ h'', link_inv h (j + 1) h'') h'.
Proof.
  intros Hb Hj Hinv. rewrite slot_addr by lia. rewrite next_addr by lia.
  pose proof (slot_fits (j + 1) ltac:(lia)).
  destruct (slot_store h j h' (arr + (j + 1) * sz) Hb ltac:(lia) ltac:(lia) Hinv)
    as (Hacc & Hj' & Hbl & Hca & Hm & Hw).
  apply wp_store64; [done|]. split_and!; [done|done|done|].
  intros i Hi. destruct (decide (i = j)) as [->|]; [done|]. apply Hw. lia.
Qed.

Lemma wp_link_chunks h :
  blocks h !! arr = Some (n * sz) →
  wp (link_chunks arr n sz) (λ _ h', link_inv h (n - 1) h') h.
Proof.
  intros Hb. apply (wp_for_below (link_inv h)); [lia|apply link_inv_init|].
  intros j h' Hj. by apply link_step.
Qed.

Lemma wp_link_extra h p :
  blocks h !! arr = Some (n * sz) → word_at h (Pool_chunk_sz p) sz →
  disjoint_ranges arr (n * sz) (Pool_chunk_sz p) 8 →
  wp (link_extra p arr n) (λ _ h', link_inv h (n - 1) h') h.
Proof.
  intros Hb Hw Hd. apply (wp_for_below (link_inv h)); [lia|apply link_inv_init|].
  intros j h' Hj Hinv. apply wp_bind, (wp_load64 _ _ sz); [|by apply link_step].
  destruct Hinv as (Hbl & _ & Hm & _). eapply word_at_agree; [|done]. split.
  - intros x Hx. apply Hm. unfold disjoint_ranges in Hd. lia.
  - unfold accessible. by rewrite Hbl.
Qed.

(** The linked array, ended by the head of [f], in front of the list [f]. *)
Lemma chain_linked h f k :
  (k ≤ Z.to_nat n)%nat →
  (∀ i, 0 ≤ i < n - 1 → word_at h (arr + i * sz) (arr + (i + 1) * sz)) →
  word_at h (arr + (n - 1) * sz) (head_chunk f) → chain h f →
  chain h (((λ i, arr + i * sz) <$> seqZ (n - Z.of_nat k) (Z.of_nat k)) ++ f).
Proof.
  intros Hk Hw Hlast Hf. induction k as [|k IH].
  { by rewrite seqZ_nil by lia. }
  rewrite seqZ_cons by lia. cbn [fmap list_fmap app chain].
  replace (Z.succ (n - Z.of_nat (S k))) with (n - Z.of_nat k) by lia.
  replace (Z.pred (Z.of_nat (S k))) with (Z.of_nat k) by lia.
  split; [|apply IH; lia].
  destruct k as [|k].
  - rewrite seqZ_nil by lia. cbn [fmap list_fmap app].
    by replace (n - Z.of_nat 1) with (n - 1) by lia.
  - rewrite seqZ_cons by lia. cbn [fmap list_fmap app].
    rewrite head_chunk_cons.
    replace (n - Z.of_nat (S k)) with (n - Z.of_nat (S (S k)) + 1) by lia.
    apply Hw. lia.
Qed.
End link.
