(* ===== verification/LibpoolLife.v ===== *)
(** Creating, expanding and destroying a pool: [pool_new], [pool_expand],
    [pool_destroy] and the alignment macro. *)

From S2P Require Import Prelude Bytes CMem Libpool LibpoolLemmas LibpoolSpec.
Local Open Scope Z_scope.

(** ** ALIGN2BOUNDARY *)

Lemma align_mask z : 0 ≤ z < 2 ^ 64 → Z.land z (u64 (Z.lnot 7)) = z `div` 8 * 8.
Proof.
  intros Hz. unfold uwrap. rewrite <- (Z.land_ones (Z.lnot 7) 64) by lia.
  rewrite (Z.land_comm (Z.lnot 7)), Z.land_assoc, Z.land_ones by lia.
  rewrite Z.mod_small by lia. change 7 with (Z.ones 3).
  rewrite <- Z.ldiff_land, Z.ldiff_ones_r by lia.
  rewrite Z.shiftl_mul_pow2, Z.shiftr_div_pow2 by lia. done.
Qed.

Lemma align_eq s :
  0 ≤ s ≤ 2 ^ 64 - 8 → ALIGN2BOUNDARY s sizeof_ptr = (s + 7) `div` 8 * 8.
Proof.
  intros Hs. unfold ALIGN2BOUNDARY, sizeof_ptr.
  change (u64 (8 - 1)) with 7.
  destruct (Z.eq_dec s (2 ^ 64 - 8)) as [->|Hne]; [reflexivity|].
  rewrite (uwrap_small 64 (s + 8)) by lia. rewrite (uwrap_small 64 (s + 8 - 1)) by lia.
  rewrite align_mask by lia. f_equal. f_equal. lia.
Qed.

Lemma align_spec s :
  0 ≤ s ≤ 2 ^ 64 - 8 →
  s ≤ ALIGN2BOUNDARY s sizeof_ptr < s + 8 ∧ (8 | ALIGN2BOUNDARY s sizeof_ptr).
Proof.
  intros Hs. rewrite align_eq by done. split; [|apply Z.divide_factor_r].
  pose proof (Z.div_mod (s + 7) 8). pose proof (Z.mod_pos_bound (s + 7) 8). lia.
Qed.

Lemma align_wraps s : 2 ^ 64 - 8 < s < 2 ^ 64 → ALIGN2BOUNDARY s sizeof_ptr = 0.
Proof.
  intros Hs. unfold ALIGN2BOUNDARY, sizeof_ptr. change (u64 (8 - 1)) with 7.
  assert (u64 (s + 8) = s + 8 - 2 ^ 64) as ->.
  { unfold uwrap. symmetry. apply Z.mod_unique with 1; lia. }
  rewrite (uwrap_small 64 (s + 8 - 2 ^ 64 - 1)) by lia.
  rewrite align_mask by lia. rewrite Z.div_small; lia.
Qed.

(** ** Tactics for sequences of stores *)

(** Words stored one after the other, at addresses that do not overlap. *)
Ltac words :=
  repeat first
    [ assumption
    | apply stored_word; [|unfold NULL; lia]
    | apply word_at_stored_ne; [unfold disjoint_ranges; lia|] ].

Ltac block_access :=
  match goal with
  | Hb : blocks _ !! _ = Some _ |- accessible _ _ _ =>
      eapply accessible_block; [exact Hb|lia|lia]
  end.

Ltac layout :=
  unfold Pool_free_chunk, Pool_array_starts, Pool_chunk_sz, ArrayStart_next,
         ArrayStart_arr, sizeof_Pool, sizeof_ArrayStart, disjoint_ranges in *.

(** ** pool_new *)

Section life.
Context `{AllocatorLaws}.

Lemma ext_alloc_new_base h n p :
  0 ≤ n → ext_alloc h n = Some p → blocks h !! p = None.
Proof.
  intros Hn Hp. destruct (blocks h !! p) as [s|] eqn:Hb; [|done].
  by destruct (ext_alloc_fresh h n p p s Hn Hp Hb).
Qed.

Lemma ext_alloc_nonnull h n p : 0 ≤ n → ext_alloc h n = Some p → (p =? NULL) = false.
Proof.
  intros Hn Hp. apply Z.eqb_neq. pose proof (ext_alloc_range h n p Hn Hp). unfold NULL. lia.
Qed.

(** A block allocated later is disjoint from the blocks that were live. *)
Lemma later_block_disjoint h h' n p b s :
  preserves h h' → 0 ≤ n → ext_alloc h' n = Some p → blocks h !! b = Some s →
  b ≠ p ∧ disjoint_ranges p n b s.
Proof.
  intros Hpr Hn Hp Hb. destruct (Hpr b s Hb) as [Hb' _]. by eapply ext_alloc_fresh.
Qed.

(** The blocks of a pool that has just been created. *)
Definition new_blocks (h : heap) (p node base size : Z) : gmap Z Z :=
  <[base:=size]> (<[node:=sizeof_ArrayStart]> (<[p:=sizeof_Pool]> (blocks h))).

(** The allocation function refused one of the requests [ks]. *)
Definition refused (h : heap) (ks : list Z) : Prop :=
  ∃ h1 k, k ∈ ks ∧ preserves h h1 ∧ ext_alloc h1 k = None.

Lemma refused_intro h h1 k ks :
  k ∈ ks → preserves h h1 → ext_alloc h1 k = None → refused h ks.
Proof. intros. by exists h1, k. Qed.

Definition pool_new_post (h : heap) (n sz p : Z) (h' : heap) : Prop :=
  heap_wf h' ∧ preserves h h' ∧
  ((p = NULL ∧ blocks h' = blocks h ∧
    (ext_funcs_set = false ∨ refused h [sizeof_Pool; sizeof_ArrayStart; n * sz])) ∨
   (∃ node base, let a := Array node base n in
      pool_rep h' p (APool sz (chunks_of sz a) [a]) ∧
      blocks h' = new_blocks h p node base (n * sz) ∧
      (p ≠ node ∧ p ≠ base ∧ node ≠ base) ∧
      blocks h !! p = None ∧ blocks h !! node = None ∧ blocks h !! base = None)).

Lemma fresh_pool_rep h p node arr n sz :
  heap_wf h → 0 < n → 8 ≤ sz → (8 | sz) →
  pool_block h p → blocks h !! node = Some sizeof_ArrayStart →
  blocks h !! arr = Some (n * sz) → p ≠ node → p ≠ arr → node ≠ arr →
  word_at h (Pool_free_chunk p) arr → word_at h (Pool_array_starts p) node →
  word_at h (Pool_chunk_sz p) sz →
  word_at h (ArrayStart_next node) NULL → word_at h (ArrayStart_arr node) arr →
  (∀ i, 0 ≤ i < n - 1 → word_at h (arr + i * sz) (arr + (i + 1) * sz)) →
  word_at h (arr + (n - 1) * sz) NULL →
  pool_rep h p (APool sz (chunks_of sz (Array node arr n)) [Array node arr n]).
Proof.
  intros Hwf Hn Hsz Hdiv Hp Hnode Harr Hpn Hpa Hna Hfc Has Hcs Hnx Hna' Hslots Hlast.
  split; cbn [ap_sz ap_free ap_arrays].
  - split; try done.
    + intros a ->%list_elem_of_singleton. done.
    + unfold bases. cbn. rewrite !NoDup_cons, !not_elem_of_cons. split_and!;
        auto using not_elem_of_nil, NoDup_nil_2.
  - unfold chunks_of. cbn [ar_base ar_len]. rewrite seqZ_cons by lia.
    by rewrite fmap_cons, head_chunk_cons, Z.mul_0_l, Z.add_0_r.
  - pose proof (chain_linked arr n sz Hn h [] (Z.to_nat n)) as Hcl.
    rewrite app_nil_r, Z2Nat.id, Z.sub_diag in Hcl by lia. apply Hcl; try (done || lia).
  - apply NoDup_chunks_of. lia.
  - unfold all_chunks, chunks. cbn. rewrite app_nil_r. done.
Qed.

Lemma wp_pool_init h p node arr n sz :
  heap_wf h → 0 < n → 8 ≤ sz → (8 | sz) →
  pool_block h p → blocks h !! node = Some sizeof_ArrayStart →
  blocks h !! arr = Some (n * sz) → p ≠ node → p ≠ arr → node ≠ arr →
  word_at h (Pool_array_starts p) node →
  wp (pool_init p arr n sz) (λ r h', r = p ∧
    (let a := Array node arr n in pool_rep h' p (APool sz (chunks_of sz a) [a])) ∧
    blocks h' = blocks h ∧
    (∀ b s, blocks h !! b = Some s → b ≠ p → b ≠ node → b ≠ arr →
       ∀ x, b ≤ x < b + s → mem h' !! x = mem h !! x)) h.
Proof.
  intros Hwf Hn Hsz Hdiv Hp Hnode Harr Hpn Hpa Hna Hst.
  destruct Hp as (sp & Hp & Hle). unfold sizeof_Pool in Hle.
  pose proof (proj1 Hwf _ _ Hp). pose proof (proj1 Hwf _ _ Hnode).
  pose proof (proj1 Hwf _ _ Harr) as Hfit.
  pose proof (proj2 Hwf _ _ _ _ Hp Hnode ltac:(done)).
  pose proof (proj2 Hwf _ _ _ _ Hp Harr ltac:(done)).
  pose proof (proj2 Hwf _ _ _ _ Hnode Harr ltac:(done)).
  unfold pool_init. apply wp_bind. eapply wp_mono.
  { apply wp_link_chunks; [done|done|lia|lia|exact Harr]. }
  cbn beta. intros _ h4 Hinv. rewrite (slot_addr arr n sz) by lia.
  destruct (slot_store arr n sz) with (h := h) (j := n - 1) (h' := h4) (v := NULL)
    as (Hacc & Hlast & Hbl & _ & Hout & Hslots); try (done || (unfold NULL; lia)).
  destruct Hinv as (Hbl4 & _ & _ & _).
  apply wp_bind, wp_store64; [done|].
  remember (stored h4 (arr + (n - 1) * sz) (le_bytes 8 NULL)) as h5 eqn:Heq5. clear Heq5 Hacc Hbl4 h4.
  assert (word_at h5 (Pool_array_starts p) node) as Hst5.
  { eapply word_at_agree; [|exact Hst]. split.
    - intros x Hx. apply Hout. layout. lia.
    - unfold accessible. by rewrite Hbl. }
  assert (heap_wf h5) as Hwf5 by (unfold heap_wf; rewrite Hbl; exact Hwf).
  rewrite <- Hbl in Hp, Hnode, Harr. layout.
  apply wp_bind, wp_store64; [block_access|].
  apply wp_bind, (wp_load64 _ _ node); [words|].
  apply wp_bind, wp_store64; [block_access|].
  apply wp_bind, (wp_load64 _ _ node); [words|].
  apply wp_bind, wp_store64; [block_access|].
  apply wp_bind, wp_store64; [block_access|].
  apply wp_ret. split_and!; [done| |done|].
  2: { intros b s Hb Hbp Hbn Hba x Hx.
       rewrite <- Hbl in Hb.
       pose proof (proj2 Hwf5 _ _ _ _ Hb Hp ltac:(done)).
       pose proof (proj2 Hwf5 _ _ _ _ Hb Hnode ltac:(done)).
       pose proof (proj2 Hwf5 _ _ _ _ Hb Harr ltac:(done)). layout.
       do 4 (cbn [mem stored]; rewrite lookup_store_list, decide_False by (rewrite le_bytes_length; lia)).
       apply Hout. lia. }
  assert (8 ≤ sz < 2 ^ 64) by nia.
  apply fresh_pool_rep; try done; [by exists sp|layout; words; try block_access; try done..].
  - intros i Hi. assert (0 ≤ i * sz ∧ i * sz + sz ≤ n * sz) by nia. words. by apply Hslots.
  - assert ((n - 1) * sz + sz = n * sz ∧ 0 ≤ (n - 1) * sz) by nia. words.
Qed.
(** The failure paths give back what they had allocated. *)
Lemma pool_new_failed h n sz h' :
  heap_wf h' → preserves h h' → blocks h' = blocks h →
  ext_funcs_set = false ∨ refused h [sizeof_Pool; sizeof_ArrayStart; n * sz] →
  pool_new_post h n sz NULL h'.
Proof. intros Hwf Hpr Hb Hwhy. split; [exact Hwf|]. split; [exact Hpr|]. by left. Qed.

(** What a successful allocation gives, seen from an earlier heap. *)
Lemma alloc_facts h0 h n p :
  heap_wf h → preserves h0 h → 0 ≤ n → ext_alloc h n = Some p →
  p ≠ NULL ∧ blocks h0 !! p = None ∧ blocks h !! p = None ∧
  heap_wf (allocd h p n) ∧ preserves h0 (allocd h p n) ∧
  blocks (allocd h p n) !! p = Some n.
Proof.
  intros Hwf Hpr Hn Hp. pose proof (ext_alloc_new_base h n p Hn Hp) as Hnone.
  split_and!; [|  |done|by apply allocd_wf| |apply lookup_insert_eq].
  - pose proof (ext_alloc_range h n p Hn Hp). unfold NULL. lia.
  - destruct (blocks h0 !! p) as [s|] eqn:Hb; [|done].
    destruct (Hpr p s Hb) as [Hb' _]. congruence.
  - transitivity h; [done|]. by apply preserves_allocd.
Qed.

(** The last allocation of pool_new: the pool and its ArrayStart exist. *)
Lemma wp_new_array h0 h p node n sz :
  heap_wf h → preserves h0 h → 0 < n → 8 ≤ sz → (8 | sz) → n * sz < 2 ^ 64 →
  blocks h = <[node:=sizeof_ArrayStart]> (<[p:=sizeof_Pool]> (blocks h0)) →
  blocks h0 !! p = None → blocks h0 !! node = None → p ≠ node → p ≠ NULL → node ≠ NULL →
  word_at h (Pool_array_starts p) node →
  wp (arr ← malloc (u64 (n * sz));
      if arr =? NULL then
        starts ← load64 (Pool_array_starts p);
        cfree starts;; cfree p;; mret NULL
      else pool_init p arr n sz) (pool_new_post h0 n sz) h.
Proof.
  intros Hwf Hpr Hn Hsz Hdiv Hfit Hbl Hp0 Hn0 Hpn Hpnn Hnnn Hw.
  rewrite uwrap_small by nia.
  assert (blocks h !! p = Some sizeof_Pool) as Hpb.
  { rewrite Hbl, lookup_insert_ne by done. apply lookup_insert_eq. }
  assert (blocks h !! node = Some sizeof_ArrayStart) as Hnb.
  { rewrite Hbl. apply lookup_insert_eq. }
  apply wp_bind, wp_malloc; [intros Hnone|intros arr Harr].
  - cbn [Z.eqb NULL]. apply wp_bind, (wp_load64 _ _ node); [done|].
    apply wp_bind, (wp_cfree _ _ sizeof_ArrayStart); [done|done|].
    apply wp_bind, (wp_cfree _ _ sizeof_Pool); [done|by cbn; rewrite lookup_delete_ne|].
    apply wp_ret, pool_new_failed; [by do 2 apply freed_wf| | |].
    + by apply preserves_freed, Hp0; apply preserves_freed, Hn0.
    + cbn. rewrite Hbl, delete_insert_id by (by rewrite lookup_insert_ne).
      by apply delete_insert_id.
    + right. by eapply (refused_intro _ h (n * sz)); [rewrite !elem_of_cons; auto| |].
  - destruct (alloc_facts h0 h (n * sz) arr Hwf Hpr ltac:(nia) Harr)
      as (Hann & Ha0 & Hah & Hwf' & Hpr' & Hab).
    rewrite (proj2 (Z.eqb_neq arr NULL) Hann).
    assert (p ≠ arr ∧ node ≠ arr) as [Hpa Hna] by (split; congruence).
    eapply wp_mono.
    { apply (wp_pool_init _ p node arr n sz); try done.
      - exists sizeof_Pool. cbn. by rewrite lookup_insert_ne.
      - cbn. by rewrite lookup_insert_ne.
      - by apply word_at_allocd; [nia| |]. }
    intros r h' (-> & Hrep & Hbl' & Hout). split_and!; [apply Hrep| |right].
    + intros b s Hb. destruct (Hpr' b s Hb) as [Hb' Hm]. rewrite Hbl'. split; [done|].
      intros x Hx. rewrite <- Hm by done. apply (Hout b s); congruence || done.
    + exists node, arr. split_and!; try done. rewrite Hbl'. cbn. by rewrite Hbl.
Qed.

Lemma wp_pool_new h n c :
  heap_wf h → 0 < n < 2 ^ 64 → 0 < c ≤ 2 ^ 64 - 8 →
  n * ALIGN2BOUNDARY c sizeof_ptr < 2 ^ 64 →
  wp (pool_new n c) (pool_new_post h n (ALIGN2BOUNDARY c sizeof_ptr)) h.
Proof.
  intros Hwf Hn Hc Hfit. destruct (align_spec c ltac:(lia)) as [Hsz Hdiv].
  unfold pool_new. rewrite (proj2 (Z.eqb_neq n 0)) by lia.
  set (sz := ALIGN2BOUNDARY c sizeof_ptr) in *.
  assert (8 ≤ sz) by (destruct Hdiv as [k Hk]; lia).
  unfold pool_assert_ext_funcs. destruct ext_funcs_set eqn:Hext; cbn [negb];
    [|by apply wp_ret, pool_new_failed; auto].
  apply wp_bind, wp_malloc; [intros Hnone|intros p Hp].
  { apply wp_ret, pool_new_failed; try done. right.
    by eapply (refused_intro _ h sizeof_Pool); [rewrite !elem_of_cons; auto| |]. }
  destruct (alloc_facts h h sizeof_Pool p Hwf ltac:(done) ltac:(done) Hp)
    as (Hpnn & Hp0 & _ & Hwf1 & Hpr1 & Hpb).
  rewrite (proj2 (Z.eqb_neq p NULL) Hpnn).
  assert (accessible (allocd h p sizeof_Pool) (Pool_array_starts p) 8) as Hacc.
  { eapply accessible_block; [exact Hpb|unfold Pool_array_starts..]; [lia|].
    unfold sizeof_Pool. lia. }
  assert (∀ h' v, heap_wf h' → preserves h h' → blocks h' !! p = Some sizeof_Pool →
    preserves h (stored h' (Pool_array_starts p) (le_bytes 8 v))) as Hstore.
  { intros h' v Hwf' Hpr Hb. eapply (preserves_new_store _ _ p sizeof_Pool); try done;
      rewrite ?le_bytes_length; unfold Pool_array_starts, sizeof_Pool; lia. }
  apply wp_bind, wp_malloc; [intros Hnone|intros node Hnode].
  - apply wp_bind, wp_store64; [done|].
    apply wp_bind, (wp_load64 _ _ NULL); [by apply stored_word|].
    cbn [Z.eqb NULL]. apply wp_bind, (wp_cfree _ _ sizeof_Pool); [done|done|].
    apply wp_ret, pool_new_failed; [by apply freed_wf| |by apply delete_insert_id|].
    { apply preserves_freed; [|done]. by apply Hstore. }
    right. eapply (refused_intro _ _ sizeof_ArrayStart);
      [rewrite !elem_of_cons; auto|exact Hpr1|exact Hnone].
  - destruct (alloc_facts h _ sizeof_ArrayStart node Hwf1 Hpr1 ltac:(done) Hnode)
      as (Hnnn & Hn0 & Hn1 & Hwf2 & Hpr2 & Hnb).
    assert (p ≠ node) as Hpn by congruence.
    pose proof (proj1 Hwf2 _ _ Hnb).
    assert (accessible (allocd (allocd h p sizeof_Pool) node sizeof_ArrayStart)
      (Pool_array_starts p) 8) as Hacc2 by (by apply allocd_agree).
    assert (word_at (stored (allocd (allocd h p sizeof_Pool) node sizeof_ArrayStart)
      (Pool_array_starts p) (le_bytes 8 node)) (Pool_array_starts p) node) as Hw.
    { apply stored_word; [done|]. unfold sizeof_ArrayStart in *. lia. }
    apply wp_bind, wp_store64; [done|]. apply wp_bind, (wp_load64 _ _ node); [done|].
    rewrite (proj2 (Z.eqb_neq node NULL) Hnnn).
    apply (wp_new_array h _ p node); try done; [|lia].
    apply Hstore; [done|done|]. cbn. rewrite lookup_insert_ne by done. apply lookup_insert_eq.
Qed.

(** *** An array of no bytes *)

(** The first access to a block of no bytes is outside every live block. *)
Lemma empty_block_oob h arr : heap_wf h → blocks h !! arr = Some 0 → ¬ accessible h arr 8.
Proof.
  intros [_ Hd] Harr (b & s & Hb & Hin). unfold in_block in Hin.
  destruct (decide (b = arr)) as [->|Hne].
  - rewrite Harr in Hb. injection Hb as <-. lia.
  - specialize (Hd _ _ _ _ Hb Harr Hne). unfold disjoint_ranges in Hd. lia.
Qed.

Lemma init_zero_array h p arr n :
  0 < n → 0 < arr < 2 ^ 64 → ¬ accessible h arr 8 →
  pool_init p arr n 0 h = UB (ub_access arr).
Proof.
  intros Hn Harr Hacc. unfold pool_init, link_chunks, for_below.
  destruct (Z.to_nat (n - 1)) as [|k] eqn:Hk; cbn [for_from].
  - rewrite (bind_Ok _ _ h tt h eq_refl). apply bind_UB.
    rewrite Z.mul_0_r. change (u64 0) with 0. rewrite Z.add_0_r, uwrap_small by lia.
    by apply store64_oob.
  - apply bind_UB, bind_UB. change (u64 (0 * 0)) with 0.
    rewrite Z.add_0_r, uwrap_small by lia. by apply store64_oob.
Qed.

(** pool_new from its first allocation on, when the aligned chunk size is 0. *)
Lemma new_zero_array h n :
  heap_wf h → 0 < n →
  let run := (pool ← malloc sizeof_Pool;
    if pool =? NULL then mret NULL else
    starts ← malloc sizeof_ArrayStart;
    store64 (Pool_array_starts pool) starts;;
    starts ← load64 (Pool_array_starts pool);
    if starts =? NULL then cfree pool;; mret NULL else
    arr ← malloc (u64 (n * 0));
    if arr =? NULL then
      starts ← load64 (Pool_array_starts pool);
      cfree starts;; cfree pool;; mret NULL
    else pool_init pool arr n 0) : M heap Z in
  (∃ h', run h = Ok NULL h') ∨ (∃ a, run h = UB (ub_access a)).
Proof.
  intros Hwf Hn run. subst run. rewrite bind_run, malloc_run.
  destruct (ext_alloc h sizeof_Pool) as [p|] eqn:Hp; [|left; by eexists].
  destruct (alloc_facts h h sizeof_Pool p Hwf ltac:(done) ltac:(done) Hp)
    as (Hpnn & Hp0 & _ & Hwf1 & Hpr1 & Hpb).
  rewrite (proj2 (Z.eqb_neq p NULL) Hpnn), bind_run, malloc_run.
  assert (accessible (allocd h p sizeof_Pool) (Pool_array_starts p) 8) as Hacc.
  { eapply accessible_block; [exact Hpb|unfold Pool_array_starts..]; [lia|].
    unfold sizeof_Pool. lia. }
  destruct (ext_alloc _ sizeof_ArrayStart) as [node|] eqn:Hnode.
  - destruct (alloc_facts h _ sizeof_ArrayStart node Hwf1 Hpr1 ltac:(done) Hnode)
      as (Hnnn & Hn0 & Hn1 & Hwf2 & Hpr2 & Hnb).
    assert (p ≠ node) as Hpn by congruence. pose proof (proj1 Hwf2 _ _ Hnb).
    assert (accessible (allocd (allocd h p sizeof_Pool) node sizeof_ArrayStart)
      (Pool_array_starts p) 8) as Hacc2 by (by apply allocd_agree).
    rewrite (bind_Ok _ _ _ _ _ (store64_run _ _ node Hacc2)).
    set (h3 := Heap _ _ _).
    assert (word_at h3 (Pool_array_starts p) node) as Hw.
    { apply stored_word; [done|]. unfold sizeof_ArrayStart in *. lia. }
    assert (heap_wf h3 ∧ blocks h3 !! p = Some sizeof_Pool ∧
            blocks h3 !! node = Some sizeof_ArrayStart) as (Hwf3 & Hpb3 & Hnb3).
    { split_and!; [done| |done]. cbn. by rewrite lookup_insert_ne. }
    rewrite (bind_Ok _ _ _ _ _ (word_at_load _ _ _ Hw)), (proj2 (Z.eqb_neq node NULL) Hnnn).
    rewrite Z.mul_0_r, (uwrap_small 64 0), bind_run, malloc_run by lia.
    destruct (ext_alloc h3 0) as [arr|] eqn:Harr.
    + destruct (alloc_facts h3 h3 0 arr Hwf3 ltac:(done) ltac:(done) Harr)
        as (Hann & _ & _ & Hwf4 & _ & Hab). rewrite (proj2 (Z.eqb_neq arr NULL) Hann).
      right. exists arr. pose proof (proj1 Hwf4 _ _ Hab).
      apply init_zero_array; [done|lia|by apply empty_block_oob].
    + left. eexists. cbn [Z.eqb NULL].
      rewrite (bind_Ok _ _ (ticked h3) _ _ (word_at_load (ticked h3) _ _ Hw)).
      rewrite (bind_Ok _ _ _ _ _ (cfree_run (ticked h3) node sizeof_ArrayStart Hnnn Hnb3)).
      erewrite bind_Ok by (apply (cfree_run _ p sizeof_Pool); [done|];
        cbn; rewrite lookup_delete_ne by done; exact Hpb3). done.
  - left. eexists.
    rewrite (bind_Ok _ _ _ _ _ (store64_run (ticked _) _ NULL Hacc)).
    erewrite bind_Ok by (apply word_at_load, (stored_word (ticked _)); done).
    cbn [Z.eqb NULL]. erewrite bind_Ok by (apply (cfree_run _ p sizeof_Pool); done). done.
Qed.
End life.

(** ** pool_expand *)

(** A pool [A] on [h2], and the heap [h8] after a new array has been linked in
    front of it: only the array, its node and two fields of the pool changed. *)
Section grow.
Context (h2 h8 : heap) (p : Z) (A : apool) (node arr m : Z).
Let a := Array node arr m.
Context (Hr : pool_rep h2 p A) (Hwf : heap_wf h8) (Hm : 0 < m)
  (Hbl : blocks h8 = blocks h2)
  (Hnn : node ∉ bases p (ap_arrays A)) (Han : arr ∉ bases p (ap_arrays A)) (Hne : node ≠ arr)
  (Hnb : blocks h2 !! node = Some sizeof_ArrayStart)
  (Hab : blocks h2 !! arr = Some (m * ap_sz A))
  (Hout : ∀ x, x < arr ∨ arr + m * ap_sz A ≤ x → x < node ∨ node + 16 ≤ x →
          x < p ∨ p + 16 ≤ x → mem h8 !! x = mem h2 !! x).

Let Hs : pool_struct h2 p (ap_sz A) (ap_arrays A) := pr_struct _ _ _ Hr.

Lemma grow_not_pool : p ≠ node ∧ p ≠ arr.
Proof. split; intros <-; [apply Hnn|apply Han]; apply elem_of_bases; by left. Qed.

Lemma grow_not_old b :
  b ∈ ap_arrays A →
  ar_node b ≠ node ∧ ar_node b ≠ arr ∧ ar_base b ≠ node ∧ ar_base b ≠ arr ∧
  ar_node b ≠ p ∧ ar_base b ≠ p.
Proof.
  intros Hb. destruct (ps_pool_ne _ _ _ _ Hs b Hb).
  split_and!; [intros <-; apply Hnn|intros <-; apply Han|intros <-; apply Hnn
    |intros <-; apply Han|congruence|congruence]; apply elem_of_bases; eauto.
Qed.

(** What lies in an old block of the pool is as it was. *)
Lemma grow_frame b s o n :
  blocks h2 !! b = Some s → b ≠ p → b ≠ node → b ≠ arr → b ≤ o → o + n ≤ b + s →
  agree_on h2 h8 o n.
Proof.
  intros Hb Hbp Hbn Hba Ho Hon. split; [|by unfold accessible; rewrite Hbl].
  intros x Hx. pose proof (ps_wf _ _ _ _ Hs) as [_ Hdisj].
  destruct (ps_pool _ _ _ _ Hs) as (sp & Hp & Hle). pose proof (Hdisj _ _ _ _ Hb Hp Hbp).
  pose proof (Hdisj _ _ _ _ Hb Hnb Hbn). pose proof (Hdisj _ _ _ _ Hb Hab Hba).
  unfold disjoint_ranges, sizeof_Pool, sizeof_ArrayStart in *. apply Hout; lia.
Qed.

Lemma grow_chunk_frame c n : c ∈ all_chunks A → 0 ≤ n ≤ ap_sz A → agree_on h2 h8 c n.
Proof.
  intros (b & Hb & Hin & Hbb)%(chunk_inside _ _ _ _ Hs) Hn. unfold in_block in Hin.
  destruct (grow_not_old b Hb) as (_ & _ & ? & ? & _ & ?).
  eapply grow_frame; [exact Hbb|done|done|done|lia|lia].
Qed.

Lemma grow_chunk_new c : c ∈ chunks_of (ap_sz A) a → c ∉ all_chunks A.
Proof.
  intros (i & -> & Hi)%elem_of_chunks_of (b & Hb & Hin & Hbb)%(chunk_inside _ _ _ _ Hs).
  destruct (grow_not_old b Hb) as (_ & _ & _ & Hba & _).
  pose proof (proj2 (ps_wf _ _ _ _ Hs) _ _ _ _ Hbb Hab Hba) as Hd.
  pose proof (ps_sz _ _ _ _ Hs). cbn [ar_base ar_len a] in *.
  pose proof (array_slot_inside (ap_sz A) i m Hi ltac:(lia)).
  unfold disjoint_ranges, in_block in *. lia.
Qed.

Lemma grow_bases : NoDup (bases p (a :: ap_arrays A)).
Proof.
  pose proof (ps_bases _ _ _ _ Hs) as Hnd. pose proof grow_not_pool.
  assert (bases p (a :: ap_arrays A) ≡ₚ node :: arr :: bases p (ap_arrays A)) as ->.
  { unfold bases. rewrite !fmap_cons. cbn [ar_node ar_base a]. solve_Permutation. }
  rewrite !NoDup_cons, not_elem_of_cons. done.
Qed.

Context (Hfc : word_at h8 (Pool_free_chunk p) arr)
  (Has : word_at h8 (Pool_array_starts p) node)
  (Hnx : word_at h8 (ArrayStart_next node) (head_node (ap_arrays A)))
  (Hna : word_at h8 (ArrayStart_arr node) arr)
  (Hslots : ∀ i, 0 ≤ i < m - 1 →
     word_at h8 (arr + i * ap_sz A) (arr + (i + 1) * ap_sz A))
  (Hlast : word_at h8 (arr + (m - 1) * ap_sz A) (head_chunk (ap_free A))).

Lemma grown_struct : pool_struct h8 p (ap_sz A) (a :: ap_arrays A).
Proof.
  split; [done|apply Hs|by unfold pool_block; rewrite Hbl; apply Hs|done| | | |apply grow_bases].
  - eapply word_at_agree; [|apply Hs]. split; [|by unfold accessible; rewrite Hbl].
    intros x Hx. destruct grow_not_pool. pose proof (ps_wf _ _ _ _ Hs) as [_ Hdisj].
    destruct (ps_pool _ _ _ _ Hs) as (sp & Hp & Hle).
    pose proof (Hdisj _ _ _ _ Hp Hnb ltac:(done)). pose proof (Hdisj _ _ _ _ Hp Hab ltac:(done)).
    unfold disjoint_ranges, sizeof_Pool, sizeof_ArrayStart, Pool_chunk_sz in *. apply Hout; lia.
  - cbn [starts_list]. split_and!; [done|done|]. eapply starts_frame; [|apply Hs].
    intros b Hb. destruct (grow_not_old b Hb) as (? & ? & _ & _ & ? & _).
    destruct (ps_arrays _ _ _ _ Hs b Hb) as (Hbn & _). unfold sizeof_ArrayStart in Hbn.
    split; (eapply grow_frame; [exact Hbn|done|done|done|lia|lia]).
  - intros b [->|Hb]%elem_of_cons; rewrite Hbl; [done|by apply Hs].
Qed.

Lemma grown_pool_rep : pool_rep h8 p (ap_grow a A).
Proof.
  pose proof (ps_sz _ _ _ _ Hs) as [Hsz _]. pose proof (pr_free _ _ _ Hr) as Hfree.
  split; cbn [ap_grow ap_sz ap_free ap_arrays].
  - apply grown_struct.
  - unfold chunks_of. cbn [ar_base ar_len a]. rewrite seqZ_cons by lia.
    by rewrite fmap_cons, <- app_comm_cons, head_chunk_cons, Z.mul_0_l, Z.add_0_r.
  - pose proof (chain_linked arr m (ap_sz A) Hm h8 (ap_free A) (Z.to_nat m)) as Hcl.
    rewrite Z2Nat.id, Z.sub_diag in Hcl by lia. apply Hcl; [lia|done|done|].
    eapply chain_frame; [|apply Hr]. intros c Hc. apply grow_chunk_frame; [by apply Hfree|lia].
  - apply NoDup_app. split_and!; [apply NoDup_chunks_of; lia| |apply Hr].
    intros c Hc Hf. by apply (grow_chunk_new c Hc), Hfree.
  - unfold all_chunks. cbn [ap_sz ap_arrays ap_grow]. rewrite chunks_cons.
    intros c [?|?]%elem_of_app; apply elem_of_app; [by left|right; by apply Hfree].
Qed.
End grow.

Section expand.
Context `{AllocatorLaws}.

Definition pool_expand_post (h : heap) (p : Z) (A : apool) (m : Z) (r : bool) (h' : heap) : Prop :=
  if r then ∃ node base, let a := Array node base m in
    pool_rep h' p (ap_grow a A) ∧
    (blocks h' = <[base:=m * ap_sz A]> (<[node:=sizeof_ArrayStart]> (blocks h)) ∧
     blocks h !! node = None ∧ blocks h !! base = None ∧ node ≠ base) ∧
    (∀ b s x, blocks h !! b = Some s → b ≠ p → b ≤ x < b + s → mem h' !! x = mem h !! x)
  else (pool_rep h' p A ∧ blocks h' = blocks h ∧ preserves h h') ∧
       refused h [sizeof_ArrayStart; m * ap_sz A].

(** Where the new blocks lie. *)
Lemma expand_layout h p A node arr m :
  pool_rep h p A →
  (∀ b, b ∈ bases p (ap_arrays A) → b ≠ node ∧ b ≠ arr) → node ≠ arr →
  blocks h !! node = Some sizeof_ArrayStart → blocks h !! arr = Some (m * ap_sz A) →
  8 ≤ ap_sz A ∧ pool_block h p ∧
  0 < p ∧ 0 < node ∧ 0 < arr ∧ node + 16 < 2 ^ 64 ∧ arr + m * ap_sz A < 2 ^ 64 ∧
  disjoint_ranges p 24 node 16 ∧ disjoint_ranges p 24 arr (m * ap_sz A) ∧
  disjoint_ranges node 16 arr (m * ap_sz A).
Proof.
  intros Hr Hnew Hne Hnb Hab. pose proof (pr_struct _ _ _ Hr) as Hs.
  pose proof (ps_wf _ _ _ _ Hs) as [Hrng Hdisj]. pose proof (ps_pool _ _ _ _ Hs) as (sp & Hpb & Hle).
  assert (p ≠ node ∧ p ≠ arr) as [Hpn Hpa] by (apply Hnew, elem_of_bases; by left).
  pose proof (Hrng _ _ Hpb). pose proof (Hrng _ _ Hnb). pose proof (Hrng _ _ Hab).
  pose proof (Hdisj _ _ _ _ Hpb Hnb Hpn). pose proof (Hdisj _ _ _ _ Hpb Hab Hpa).
  pose proof (Hdisj _ _ _ _ Hnb Hab Hne). pose proof (ps_sz _ _ _ _ Hs).
  unfold disjoint_ranges, sizeof_Pool, sizeof_ArrayStart in *. split_and!; first [by exists sp|done|lia].
Qed.

Definition expanded (h : heap) (p : Z) (A : apool) (node arr m : Z) (r : bool) (h' : heap) : Prop :=
  r = true ∧ pool_rep h' p (ap_grow (Array node arr m) A) ∧ blocks h' = blocks h ∧
  ∀ b s x, blocks h !! b = Some s → b ≠ p → b ≠ node → b ≠ arr → b ≤ x < b + s →
    mem h' !! x = mem h !! x.

(** The last five accesses of pool_expand, on the linked array. *)
Lemma wp_expand_fields h h4 p A node arr m :
  pool_rep h p A → 0 < m →
  (∀ b, b ∈ bases p (ap_arrays A) → b ≠ node ∧ b ≠ arr) → node ≠ arr →
  blocks h !! node = Some sizeof_ArrayStart → blocks h !! arr = Some (m * ap_sz A) →
  blocks h4 = blocks h →
  (∀ x, x < arr ∨ arr + m * ap_sz A ≤ x → mem h4 !! x = mem h !! x) →
  (∀ i, 0 ≤ i < m - 1 → word_at h4 (arr + i * ap_sz A) (arr + (i + 1) * ap_sz A)) →
  word_at h4 (arr + (m - 1) * ap_sz A) (head_chunk (ap_free A)) →
  word_at h4 (Pool_array_starts p) (head_node (ap_arrays A)) →
  wp (store64 (Pool_free_chunk p) arr;;
      store64 (ArrayStart_arr node) arr;;
      starts ← load64 (Pool_array_starts p);
      store64 (ArrayStart_next node) starts;;
      store64 (Pool_array_starts p) node;;
      mret true) (expanded h p A node arr m) h4.
Proof.
  intros Hr Hm Hnew Hne Hnb Hab Hbl Hout Hslots Hlast Hst.
  destruct (expand_layout h p A node arr m Hr Hnew Hne Hnb Hab)
    as (Hsz & Hpb & ? & ? & ? & ? & Hfit & ? & ? & ?).
  destruct Hpb as (sp & Hpb & Hle).
  pose proof Hst as (_ & _ & Hstr). pose proof Hnb as Hnb'. pose proof Hab as Hab'.
  assert (∀ i, 0 ≤ i < m → 0 ≤ i * ap_sz A ∧ i * ap_sz A + ap_sz A ≤ m * ap_sz A) as Hslot
    by (intros; by apply array_slot_inside; [|lia]).
  pose proof (Hslot (m - 1) ltac:(lia)).
  rewrite <- Hbl in Hpb, Hnb', Hab'. layout.
  apply wp_bind, wp_store64; [block_access|].
  apply wp_bind, wp_store64; [block_access|].
  apply wp_bind, (wp_load64 _ _ (head_node (ap_arrays A))); [words|].
  apply wp_bind, wp_store64; [block_access|].
  apply wp_bind, wp_store64; [block_access|].
  apply wp_ret.
  match goal with |- expanded _ _ _ _ _ _ _ ?h => set (h8 := h) end.
  assert (∀ x, x < arr ∨ arr + m * ap_sz A ≤ x → x < node ∨ node + 16 ≤ x →
          x < p ∨ p + 16 ≤ x → mem h8 !! x = mem h !! x) as Hout8.
  { intros x ? ? ?. rewrite <- Hout by done. unfold h8.
    do 4 (cbn [mem stored]; rewrite lookup_store_list, decide_False
            by (rewrite le_bytes_length; lia)). done. }
  assert (heap_wf h8) as Hwf8.
  { unfold heap_wf. cbn [blocks h8 stored]. rewrite Hbl. apply Hr. }
  split_and!; [done| |done|].
  - apply (grown_pool_rep h h8); try done.
    + intros Hin. by destruct (Hnew _ Hin).
    + intros Hin. by destruct (Hnew _ Hin).
    + unfold h8. layout. words. block_access.
    + unfold h8. layout. words. block_access.
    + unfold h8. layout. words. block_access.
    + unfold h8. layout. words. block_access.
    + intros i Hi. pose proof (Hslot i ltac:(lia)). unfold h8. words. by apply Hslots.
    + unfold h8. words.
  - intros b s x Hb Hbp Hbn Hba Hx.
    assert (agree_on h h8 b s) as [Hag _]; [|by apply Hag].
    by apply (grow_frame h h8 p A node arr m) with (b := b) (s := s).
Qed.

(** The part of pool_expand after both allocations. *)
Lemma wp_expand_link h p A node arr m :
  pool_rep h p A → 0 < m →
  (∀ b, b ∈ bases p (ap_arrays A) → b ≠ node ∧ b ≠ arr) → node ≠ arr →
  blocks h !! node = Some sizeof_ArrayStart → blocks h !! arr = Some (m * ap_sz A) →
  wp (link_extra p arr m;;
      chunk_sz ← load64 (Pool_chunk_sz p);
      free_chunk ← load64 (Pool_free_chunk p);
      store64 (u64 (arr + u64 ((m - 1) * chunk_sz))) free_chunk;;
      store64 (Pool_free_chunk p) arr;;
      store64 (ArrayStart_arr node) arr;;
      starts ← load64 (Pool_array_starts p);
      store64 (ArrayStart_next node) starts;;
      store64 (Pool_array_starts p) node;;
      mret true) (expanded h p A node arr m) h.
Proof.
  intros Hr Hm Hnew Hne Hnb Hab. pose proof (pr_struct _ _ _ Hr) as Hs.
  destruct (expand_layout h p A node arr m Hr Hnew Hne Hnb Hab)
    as (Hsz & Hpb & ? & ? & ? & ? & Hfit & ? & ? & ?).
  pose proof (head_chunk_range _ _ _ _ _ Hs (pr_free _ _ _ Hr)) as Hhr.
  apply wp_bind. eapply wp_mono.
  { apply (wp_link_extra arr m (ap_sz A)); try (done || lia); [apply Hs|]. layout. lia. }
  cbn beta. intros _ h3 Hinv.
  assert (∀ o v, 0 ≤ o ≤ 16 → word_at h (p + o) v → word_at h3 (p + o) v) as Hw3.
  { intros o v Ho. apply word_at_agree. destruct Hinv as (Hbl & _ & Hm3 & _). split.
    - intros x Hx. apply Hm3. layout. lia.
    - unfold accessible. by rewrite Hbl. }
  apply wp_bind, (wp_load64 _ _ (ap_sz A)); [apply Hw3; [lia|apply Hs]|].
  apply wp_bind, (wp_load64 _ _ (head_chunk (ap_free A))).
  { rewrite <- (Z.add_0_r (Pool_free_chunk p)). apply Hw3; [lia|].
    rewrite Z.add_0_r. apply Hr. }
  rewrite (slot_addr arr m (ap_sz A)) by lia.
  destruct (slot_store arr m (ap_sz A)) with (h := h) (j := m - 1) (h' := h3)
    (v := head_chunk (ap_free A)) as (Hacc & Hlast & Hbl & _ & Hout & Hslots); try (done || lia).
  apply wp_bind, wp_store64; [done|].
  apply wp_expand_fields; try done.
  apply word_at_stored_ne; [|apply Hw3; [lia|apply Hs]].
  pose proof (array_slot_inside (ap_sz A) (m - 1) m ltac:(lia) ltac:(lia)). layout. lia.
Qed.

Lemma wp_pool_expand h p A m :
  pool_rep h p A → 0 < m → m * ap_sz A < 2 ^ 64 →
  wp (pool_expand p m) (pool_expand_post h p A m) h.
Proof.
  intros Hr Hm Hfit. pose proof (pr_struct _ _ _ Hr) as Hs.
  pose proof (ps_sz _ _ _ _ Hs) as [Hsz _]. pose proof (ps_wf _ _ _ _ Hs) as Hwf.
  unfold pool_expand. rewrite (pool_rep_nonnull _ _ _ Hr), (proj2 (Z.leb_gt m 0)) by lia.
  cbn [orb]. apply wp_bind, wp_malloc; [intros Hnone; apply wp_ret|intros node Hnode].
  { split; [split_and!; [by apply (pool_rep_preserves h)|done|done]|].
    by eapply (refused_intro _ h sizeof_ArrayStart); [rewrite !elem_of_cons; auto| |]. }
  destruct (alloc_facts h h sizeof_ArrayStart node Hwf ltac:(done) ltac:(done) Hnode)
    as (Hnnn & Hn0 & _ & Hwf1 & Hpr1 & Hnb).
  rewrite (proj2 (Z.eqb_neq node NULL) Hnnn).
  apply wp_bind, (wp_load64 _ _ (ap_sz A)); [eapply preserves_word; [exact Hpr1|apply Hs]|].
  rewrite uwrap_small by nia.
  apply wp_bind, wp_malloc; [intros Hnone|intros arr Harr].
  { cbn [Z.eqb NULL]. apply wp_bind, (wp_cfree _ _ sizeof_ArrayStart); [done|done|].
    assert (preserves h (freed (ticked (allocd h node sizeof_ArrayStart)) node)) as Hpr
      by (by apply preserves_freed).
    apply wp_ret. split; [split_and!; [|by apply delete_insert_id|done]|].
    - apply (pool_rep_preserves h); [done|by apply freed_wf|done].
    - eapply (refused_intro _ _ (m * ap_sz A));
        [rewrite !elem_of_cons; auto|exact Hpr1|exact Hnone]. }
  destruct (alloc_facts h _ (m * ap_sz A) arr Hwf1 Hpr1 ltac:(nia) Harr)
    as (Hann & Ha0 & Ha1 & Hwf2 & Hpr2 & Hab).
  rewrite (proj2 (Z.eqb_neq arr NULL) Hann).
  assert (node ≠ arr) as Hne by congruence.
  eapply wp_mono; [apply (wp_expand_link _ p A node arr m); try done|].
  - by apply (pool_rep_preserves h).
  - intros b Hb. destruct (ps_bases_live _ _ _ _ b Hs Hb) as [s Hbs]. split; congruence.
  - cbn. by rewrite lookup_insert_ne.
  - intros r h' (-> & Hrep & Hbl & Hmem). exists node, arr. split_and!; try done.
    intros b s x Hb Hbp Hx. destruct (Hpr2 b s Hb) as [Hb' Hm'].
    rewrite <- (Hm' x Hx). apply (Hmem b s); congruence || done.
Qed.

End expand.

(** ** pool_destroy *)

Section destroy.

Definition starts_ok (h : heap) (l : list array) : Prop :=
  starts_list h l ∧ NoDup ((ar_node <$> l) ++ (ar_base <$> l)) ∧
  (∀ a, a ∈ l → ar_node a ≠ NULL ∧ ar_base a ≠ NULL ∧
     blocks h !! ar_node a = Some sizeof_ArrayStart ∧ is_Some (blocks h !! ar_base a)).

Lemma starts_ok_tail h a l :
  starts_ok h (a :: l) → starts_ok (freed (freed h (ar_base a)) (ar_node a)) l.
Proof.
  intros ((_ & _ & Hl) & Hnd & Hbl).
  assert (∀ b, b ∈ l → ar_node b ≠ ar_node a ∧ ar_node b ≠ ar_base a ∧
    ar_base b ≠ ar_node a ∧ ar_base b ≠ ar_base a) as Hne.
  { intros b Hb. rewrite !fmap_cons in Hnd. cbn [app] in Hnd.
    apply NoDup_cons in Hnd as [Hn1 Hnd]. rewrite not_elem_of_app, not_elem_of_cons in Hn1.
    apply NoDup_app in Hnd as (_ & Hd & Hn2). apply NoDup_cons in Hn2 as [Hn2 _].
    pose proof (list_elem_of_fmap_2 ar_node _ _ Hb) as Hbn.
    pose proof (list_elem_of_fmap_2 ar_base _ _ Hb) as Hbb.
    split_and!; intros Heq; rewrite Heq in *; try tauto.
    apply (Hd _ Hbn). by left. }
  split_and!.
  - eapply starts_frame; [|exact Hl]. intros b Hb. destruct (Hne b Hb) as (H1 & H2 & _).
    destruct (Hbl b) as (_ & _ & Hn & _); [by right|]. unfold sizeof_ArrayStart in Hn.
    assert (blocks (freed h (ar_base a)) !! ar_node b = Some 16) as Hn'
      by (cbn; by rewrite lookup_delete_ne).
    split; (split; [done|]); intros _;
      (eapply (accessible_block _ (ar_node b) 16); [cbn; by rewrite !lookup_delete_ne|lia|lia]).
  - rewrite !fmap_cons in Hnd. cbn [app] in Hnd. apply NoDup_cons in Hnd as [_ Hnd].
    apply NoDup_app in Hnd as (? & Hd & Hn2). apply NoDup_cons in Hn2 as [_ ?].
    apply NoDup_app. split_and!; [done| |done]. intros x Hx Hx'. apply (Hd x Hx). by right.
  - intros b Hb. destruct (Hne b Hb) as (? & ? & ? & ?).
    destruct (Hbl b) as (? & ? & ? & ?); [by right|].
    cbn. rewrite !lookup_delete_ne by done. done.
Qed.

Lemma wp_destroy_loop l : ∀ h fuel,
  starts_ok h l → (length l < fuel)%nat →
  wp (destroy_loop fuel (head_node l)) (λ _ h', mem h' = mem h ∧
    ∀ b, blocks h' !! b =
      if decide (b ∈ (ar_node <$> l) ++ (ar_base <$> l)) then None else blocks h !! b) h.
Proof.
  induction l as [|a l IH]; intros h [|fuel] Hok Hf; [cbn in Hf; lia| |cbn in Hf; lia|];
    cbn [destroy_loop].
  { by apply wp_ret. }
  pose proof (starts_ok_tail _ _ _ Hok) as Hok'.
  destruct Hok as ((Hnx & Har & _) & Hnd & Hbl).
  destruct (Hbl a) as (Hnn & Hbn & Hnb & [s Hbb]); [by left|].
  change (head_node (a :: l)) with (ar_node a).
  rewrite (proj2 (Z.eqb_neq (ar_node a) NULL) Hnn).
  apply wp_bind, (wp_load64 _ _ (head_node l)); [done|].
  apply wp_bind, (wp_load64 _ _ (ar_base a)); [done|].
  apply wp_bind, (wp_cfree _ _ s); [done|done|].
  assert (ar_base a ≠ ar_node a) as Hne.
  { rewrite !fmap_cons in Hnd. apply NoDup_cons in Hnd as [Hn _].
    rewrite not_elem_of_app, not_elem_of_cons in Hn. intuition congruence. }
  apply wp_bind, (wp_cfree _ _ sizeof_ArrayStart); [done|by cbn; rewrite lookup_delete_ne|].
  eapply wp_mono; [apply IH; [done|cbn in Hf; lia]|].
  intros _ h' [Hm Hb]. split; [done|]. intros b. rewrite Hb. cbn [blocks freed].
  rewrite !lookup_delete, !fmap_cons.
  repeat case_decide; subst; try done; exfalso; set_solver.
Qed.

Lemma wp_pool_destroy h p A fuel :
  pool_rep h p A → (length (ap_arrays A) < fuel)%nat →
  wp (pool_destroy fuel p) (λ _ h', mem h' = mem h ∧
    ∀ b, blocks h' !! b =
      if decide (b ∈ bases p (ap_arrays A)) then None else blocks h !! b) h.
Proof.
  intros Hr Hf. pose proof (pr_struct _ _ _ Hr) as Hs.
  unfold pool_destroy. rewrite (pool_rep_nonnull _ _ _ Hr).
  apply wp_bind, (wp_load64 _ _ (head_node (ap_arrays A))); [apply Hs|].
  pose proof (ps_bases _ _ _ _ Hs) as Hnd. apply NoDup_cons in Hnd as [Hpn Hnd].
  apply wp_bind. eapply wp_mono.
  { apply wp_destroy_loop; [|done]. split_and!; [apply Hs|done|].
    intros a Ha. destruct (ps_arrays _ _ _ _ Hs a Ha) as (Hn & Hb & _).
    pose proof (proj1 (ps_wf _ _ _ _ Hs) _ _ Hn). pose proof (proj1 (ps_wf _ _ _ _ Hs) _ _ Hb).
    unfold NULL. split_and!; [lia|lia|done|by eexists]. }
  intros _ h' [Hm Hb]. destruct (ps_pool _ _ _ _ Hs) as (sp & Hp & _). apply (wp_cfree _ _ sp).
  - pose proof (ps_pool_range _ _ _ _ Hs). unfold NULL. lia.
  - by rewrite Hb, decide_False by done.
  - split; [done|]. intros b. cbn. rewrite lookup_delete, Hb. unfold bases.
    repeat case_decide; subst; try done; exfalso; set_solver.
Qed.
End destroy.
