(* ===== verification/LibpoolClient.v ===== *)
(** A client of libpool: any sequence of allocations, frees, expansions and
    writes into the chunks it holds.  The session keeps the chunks the client
    holds with the bytes it last wrote into each of them. *)

From S2P Require Import Prelude Bytes CMem Libpool LibpoolLemmas LibpoolSpec LibpoolLife.
Local Open Scope Z_scope.

Inductive cmd : Type :=
| CAlloc
| CFree (i : nat)                    (* the i-th chunk held *)
| CExpand (m : Z)
| CWrite (i : nat) (bs : list Z).

(** The chunks held, each with the bytes last written into it. *)
Abbreviation held := (list (Z * list Z)).

Section session.
Context `{Allocator}.

Definition exec_cmd (p : Z) (c : cmd) (l : held) : M heap held :=
  match c with
  | CAlloc => ptr ← pool_alloc p; mret (if ptr =? NULL then l else (ptr, []) :: l)
  | CFree i =>
      match l !! i with
      | Some (ptr, _) => pool_free p ptr;; mret (delete i l)
      | None => mret l
      end
  | CExpand m => _ ← pool_expand p m; mret l
  | CWrite i bs =>
      match l !! i with
      | Some (ptr, _) => store_bytes ptr bs;; mret (<[i:=(ptr, bs)]> l)
      | None => mret l
      end
  end.

Fixpoint exec (p : Z) (cs : list cmd) (l : held) : M heap held :=
  match cs with
  | [] => mret l
  | c :: cs' => l' ← exec_cmd p c l; exec p cs' l'
  end.
End session.

(** What the client must respect: requests that fit the address space, writes
    that fit a chunk. *)
Definition cmd_ok (sz : Z) (c : cmd) : Prop :=
  match c with
  | CExpand m => 0 ≤ m ∧ m * sz < 2 ^ 64
  | CWrite _ bs => Z.of_nat (length bs) ≤ sz
  | _ => True
  end.

(** The client's view and the pool agree: free and held chunks partition the
    chunks of the pool, and every held chunk has the bytes written into it. *)
Record session_ok (h : heap) (p : Z) (A : apool) (l : held) : Prop := {
  so_rep : pool_rep h p A;
  so_part : ap_free A ++ l.*1 ≡ₚ all_chunks A;
  so_content : ∀ ptr bs, (ptr, bs) ∈ l →
    Z.of_nat (length bs) ≤ ap_sz A ∧ load_list ptr (length bs) (mem h) = Some bs
}.

(** Compared with the heap [h0] before the pool was created: the pool owns exactly
    the blocks that are new, and the old ones are untouched. *)
Record footprint (h0 h : heap) (p : Z) (arrs : list array) : Prop := {
  fp_old : preserves h0 h;
  fp_same : ∀ b, b ∉ bases p arrs → blocks h !! b = blocks h0 !! b;
  fp_new : ∀ b, b ∈ bases p arrs → blocks h0 !! b = None
}.

(** ** Lemmas *)

Lemma NoDup_fmap_inj_elem {A B} (f : A → B) (l : list A) x y :
  NoDup (f <$> l) → x ∈ l → y ∈ l → f x = f y → x = y.
Proof.
  intros Hnd [i Hi]%list_elem_of_lookup [j Hj]%list_elem_of_lookup Hf.
  assert (i = j) as ->; [|congruence].
  apply (NoDup_lookup (f <$> l) i j (f x) Hnd); rewrite list_lookup_fmap, ?Hi, ?Hj; [done|].
  by rewrite Hf.
Qed.

Lemma chunks_NoDup h p sz arrs : pool_struct h p sz arrs → NoDup (chunks sz arrs).
Proof.
  intros Hs. pose proof (ps_sz _ _ _ _ Hs) as [Hsz _].
  pose proof (ps_bases _ _ _ _ Hs) as [_ Hnd]%NoDup_cons.
  apply NoDup_app in Hnd as (_ & _ & Hnd).
  apply NoDup_bind.
  - intros a b c Ha Hb (i & Hi & Hil)%elem_of_chunks_of (j & Hj & Hjl)%elem_of_chunks_of.
    destruct (decide (ar_base a = ar_base b)) as [He|Hne].
    + by apply (NoDup_fmap_inj_elem ar_base arrs).
    + destruct (ps_arrays _ _ _ _ Hs a Ha) as (_ & Hba & _).
      destruct (ps_arrays _ _ _ _ Hs b Hb) as (_ & Hbb & _).
      pose proof (proj2 (ps_wf _ _ _ _ Hs) _ _ _ _ Hba Hbb Hne) as Hd.
      pose proof (array_slot_inside sz i _ Hil ltac:(lia)).
      pose proof (array_slot_inside sz j _ Hjl ltac:(lia)).
      unfold disjoint_ranges in Hd. lia.
  - intros a _. apply NoDup_chunks_of. lia.
  - by apply NoDup_fmap_1 in Hnd.
Qed.

Lemma all_chunks_lt h p A : pool_rep h p A → Z.of_nat (length (all_chunks A)) < 2 ^ 64.
Proof.
  intros Hr. pose proof (pr_struct _ _ _ Hr) as Hs.
  assert (all_chunks A ⊆ seqZ 0 (2 ^ 64 - 1)) as Hsub.
  { intros c Hc. apply elem_of_seqZ. pose proof (chunk_range _ _ _ _ Hs c Hc).
    pose proof (ps_sz _ _ _ _ Hs). lia. }
  pose proof (submseteq_length _ _ (NoDup_submseteq _ _ (chunks_NoDup _ _ _ _ Hs) Hsub)) as Hl.
  rewrite length_seqZ in Hl. unfold all_chunks. lia.
Qed.

Section session_lemmas.
Context (h : heap) (p : Z) (A : apool) (l : held) (Hok : session_ok h p A l).

Let Hs : pool_struct h p (ap_sz A) (ap_arrays A) := pr_struct _ _ _ (so_rep _ _ _ _ Hok).

Lemma so_NoDup : NoDup (ap_free A ++ l.*1).
Proof. rewrite (so_part _ _ _ _ Hok). by eapply chunks_NoDup. Qed.

Lemma so_held_chunk ptr bs : (ptr, bs) ∈ l → ptr ∈ all_chunks A ∧ ptr ∉ ap_free A.
Proof.
  intros Hin. assert (ptr ∈ l.*1) as Hl by (apply list_elem_of_fmap; by exists (ptr, bs)).
  split.
  - rewrite <- (so_part _ _ _ _ Hok). apply elem_of_app. by right.
  - intros Hf. pose proof so_NoDup as (_ & Hd & _)%NoDup_app. by apply (Hd ptr).
Qed.

(** A change of the heap that leaves the held chunks alone keeps their content. *)
Lemma so_content_frame (h' : heap) ptr bs :
  (ptr, bs) ∈ l →
  (∀ x, ptr ≤ x < ptr + ap_sz A → mem h' !! x = mem h !! x) →
  load_list ptr (length bs) (mem h') = Some bs.
Proof.
  intros Hin Hx. destruct (so_content _ _ _ _ Hok ptr bs Hin) as [Hlen <-].
  apply load_list_agree. intros x ?. apply Hx. lia.
Qed.

Lemma so_stored_frame a bs' ptr bs :
  (ptr, bs) ∈ l → disjoint_ranges a (Z.of_nat (length bs')) ptr (ap_sz A) →
  load_list ptr (length bs) (mem (stored h a bs')) = Some bs.
Proof. intros Hin Hd. apply so_content_frame; [done|]. by apply stored_agree. Qed.

Lemma so_head_frame v ptr bs :
  (ptr, bs) ∈ l → load_list ptr (length bs) (mem (stored h p (le_bytes 8 v))) = Some bs.
Proof.
  intros Hin. destruct (so_held_chunk _ _ Hin) as [Hc _]. apply so_stored_frame; [done|].
  pose proof (chunk_disjoint_pool _ _ _ _ Hs ptr Hc) as Hd.
  rewrite le_bytes_length. unfold disjoint_ranges, sizeof_Pool in *. lia.
Qed.

Lemma session_alloc c f :
  ap_free A = c :: f →
  session_ok (stored h p (le_bytes 8 (head_chunk f))) p
             (APool (ap_sz A) f (ap_arrays A)) ((c, []) :: l).
Proof.
  intros Hf. split.
  - by apply (pool_alloc_rep h p A c); [apply Hok|].
  - cbn. rewrite <- Permutation_middle. pose proof (so_part _ _ _ _ Hok) as Hp.
    by rewrite Hf in Hp.
  - intros ptr bs [[= -> ->]|Hin]%elem_of_cons; cbn [ap_sz].
    + cbn. pose proof (ps_sz _ _ _ _ Hs). split; [lia|done].
    + split; [by eapply (so_content _ _ _ _ Hok ptr bs)|by apply so_head_frame].
Qed.

Lemma session_free i ptr bs :
  l !! i = Some (ptr, bs) →
  session_ok (stored (stored h ptr (le_bytes 8 (head_chunk (ap_free A)))) p (le_bytes 8 ptr))
             p (ap_release ptr A) (delete i l).
Proof.
  intros Hi. pose proof (list_elem_of_lookup_2 _ _ _ Hi) as Hin.
  destruct (so_held_chunk _ _ Hin) as [Hc Hnf].
  pose proof (delete_Permutation l i _ Hi) as Hperm.
  assert (l.*1 ≡ₚ ptr :: (delete i l).*1) as Hperm1.
  { exact (fmap_Permutation fst _ _ Hperm). }
  split.
  - by apply pool_free_rep; [apply Hok| |].
  - cbn [ap_release ap_free]. transitivity (ap_free A ++ l.*1).
    + rewrite Hperm1. apply Permutation_middle.
    + apply Hok.
  - intros q cs Hq. assert ((q, cs) ∈ l) as Hql by (rewrite Hperm; by right).
    cbn [ap_release ap_sz]. split; [by eapply (so_content _ _ _ _ Hok q cs)|].
    destruct (so_held_chunk _ _ Hql) as [Hqc _].
    assert (q ≠ ptr) as Hne.
    { intros ->. pose proof so_NoDup as Hnd. rewrite Hperm1 in Hnd.
      apply NoDup_app in Hnd as (_ & _ & [Hnd _]%NoDup_cons). apply Hnd.
      apply list_elem_of_fmap. by exists (ptr, cs). }
    pose proof (ps_sz _ _ _ _ Hs).
    assert (disjoint_ranges p 8 q (ap_sz A)) as Hd1.
    { pose proof (chunk_disjoint_pool _ _ _ _ Hs q Hqc).
      unfold disjoint_ranges, sizeof_Pool in *. lia. }
    assert (disjoint_ranges ptr 8 q (ap_sz A)) as Hd2.
    { pose proof (chunk_disjoint _ _ _ _ Hs q ptr Hqc Hc Hne).
      unfold disjoint_ranges in *. lia. }
    apply so_content_frame; [done|]. intros x Hx. etransitivity.
    + eapply stored_agree; [|exact Hx]. by rewrite le_bytes_length.
    + eapply stored_agree; [|exact Hx]. by rewrite le_bytes_length.
Qed.

Lemma session_write i ptr bs0 bs :
  l !! i = Some (ptr, bs0) → Z.of_nat (length bs) ≤ ap_sz A →
  session_ok (stored h ptr bs) p A (<[i:=(ptr, bs)]> l).
Proof.
  intros Hi Hlen. pose proof (list_elem_of_lookup_2 _ _ _ Hi) as Hin.
  destruct (so_held_chunk _ _ Hin) as [Hc Hnf].
  pose proof (so_rep _ _ _ _ Hok) as Hr.
  assert ((<[i:=(ptr, bs)]> l).*1 = l.*1) as Hfst.
  { rewrite list_fmap_insert. apply list_insert_id. by rewrite list_lookup_fmap, Hi. }
  split.
  - split.
    + by apply pool_struct_store_chunk.
    + eapply word_at_agree; [|apply Hr]. apply stored_agree.
      pose proof (chunk_disjoint_pool _ _ _ _ Hs ptr Hc).
      unfold disjoint_ranges, sizeof_Pool, Pool_free_chunk in *. lia.
    + eapply chain_store_chunk; try done; apply Hr.
    + apply Hr.
    + apply Hr.
  - rewrite Hfst. apply Hok.
  - intros q cs [j Hj]%list_elem_of_lookup.
    apply list_lookup_insert_Some in Hj as [(-> & [= -> ->] & _)|[Hij Hj]].
    + split; [done|]. apply load_store_same.
    + pose proof (list_elem_of_lookup_2 _ _ _ Hj) as Hq.
      destruct (so_held_chunk _ _ Hq) as [Hqc _].
      split; [by eapply (so_content _ _ _ _ Hok q cs)|]. apply so_stored_frame; [done|].
      assert (ptr ≠ q) as Hne.
      { intros ->. pose proof so_NoDup as (_ & _ & Hnd)%NoDup_app. apply Hij.
        apply (NoDup_lookup l.*1 i j q Hnd); by rewrite list_lookup_fmap, ?Hi, ?Hj. }
      eapply disjoint_ranges_sub; [by apply (chunk_disjoint _ _ _ _ Hs ptr q)|lia|lia].
Qed.

Lemma session_grow h' a :
  pool_rep h' p (ap_grow a A) →
  (∀ b s x, b ∈ bases p (ap_arrays A) → blocks h !! b = Some s → b ≠ p → b ≤ x < b + s →
     mem h' !! x = mem h !! x) →
  session_ok h' p (ap_grow a A) l.
Proof.
  intros Hr Hm. split; [done| |].
  - unfold all_chunks. cbn [ap_grow ap_free ap_sz ap_arrays]. rewrite chunks_cons, <- app_assoc.
    by rewrite (so_part _ _ _ _ Hok).
  - intros q cs Hq. cbn [ap_grow ap_sz]. split; [by eapply (so_content _ _ _ _ Hok q cs)|].
    destruct (so_held_chunk _ _ Hq) as [Hqc _].
    destruct (chunk_inside _ _ _ _ Hs q Hqc) as (b & Hb & Hin & Hba). unfold in_block in Hin.
    apply so_content_frame; [done|]. intros x Hx. apply (Hm _ _ _ (proj1 (ps_base_in p _ b Hb)) Hba); [|lia].
    intros Heq. by destruct (ps_pool_ne _ _ _ _ Hs b Hb).
Qed.

Lemma session_preserves h' : pool_rep h' p A → preserves h h' → session_ok h' p A l.
Proof.
  intros Hr Hpr. split; [done|apply Hok|].
  intros q cs Hq. split; [by eapply (so_content _ _ _ _ Hok q cs)|].
  destruct (so_held_chunk _ _ Hq) as [Hqc _].
  destruct (chunk_inside _ _ _ _ Hs q Hqc) as (a & _ & Hin & Hba). unfold in_block in Hin.
  apply so_content_frame; [done|]. intros x Hx. apply (Hpr _ _ Hba). lia.
Qed.
End session_lemmas.

(** *** The footprint *)

Section footprint_lemmas.
Context (h0 h : heap) (p sz : Z) (arrs : list array)
  (Hfp : footprint h0 h p arrs) (Hs : pool_struct h p sz arrs).

Lemma fp_store b s a bs :
  b ∈ bases p arrs → blocks h !! b = Some s → b ≤ a → a + Z.of_nat (length bs) ≤ b + s →
  footprint h0 (stored h a bs) p arrs.
Proof.
  intros Hb Hbs Ha Hl. split; [|apply Hfp..].
  by eapply preserves_new_store; [apply Hs|apply Hfp|by apply Hfp|..].
Qed.

Lemma fp_store_head v : footprint h0 (stored h p (le_bytes 8 v)) p arrs.
Proof.
  destruct (ps_pool _ _ _ _ Hs) as (s & Hp & Hle).
  eapply (fp_store p s); [by left|exact Hp|lia|]. rewrite le_bytes_length. unfold sizeof_Pool in *. lia.
Qed.

Lemma fp_store_chunk c bs :
  c ∈ chunks sz arrs → Z.of_nat (length bs) ≤ sz → footprint h0 (stored h c bs) p arrs.
Proof.
  intros Hc Hl. destruct (chunk_inside _ _ _ _ Hs c Hc) as (a & Ha & Hin & Hba).
  unfold in_block in Hin. eapply fp_store; [|exact Hba|lia|lia].
  by eapply ps_base_in.
Qed.

Lemma fp_grow h' a :
  blocks h' = <[ar_base a:=ar_len a * sz]> (<[ar_node a:=sizeof_ArrayStart]> (blocks h)) →
  blocks h !! ar_node a = None → blocks h !! ar_base a = None →
  (∀ b s x, blocks h !! b = Some s → b ≠ p → b ≤ x < b + s → mem h' !! x = mem h !! x) →
  footprint h0 h' p (a :: arrs).
Proof.
  intros Hbl Hn Hb Hm. split.
  - intros b s Hb0. destruct (fp_old _ _ _ _ Hfp b s Hb0) as [Hbh Hmh].
    rewrite Hbl, !lookup_insert_ne by congruence. split; [done|].
    intros x Hx. rewrite <- Hmh by done. apply (Hm b s); [done| |done].
    intros ->. by rewrite (fp_new _ _ _ _ Hfp p) in Hb0 by by left.
  - intros b Hnb. assert (b ≠ ar_node a ∧ b ≠ ar_base a ∧ b ∉ bases p arrs) as (? & ? & ?).
    { split_and!; intros Heq; apply Hnb, elem_of_bases;
        [right; exists a; split; [by left|auto]..|].
      apply elem_of_bases in Heq as [?|(a' & ? & ?)]; [by left|].
      right. exists a'. split; [by right|done]. }
    rewrite Hbl, !lookup_insert_ne by done. by apply Hfp.
  - intros b Hbs. destruct (blocks h0 !! b) eqn:Hb0; [|done]. exfalso.
    destruct (fp_old _ _ _ _ Hfp b _ Hb0) as [Hbh _].
    apply elem_of_bases in Hbs as [->|(a' & [->|Ha']%elem_of_cons & Hcase)].
    + by rewrite (fp_new _ _ _ _ Hfp p) in Hb0 by by left.
    + destruct Hcase as [->| ->]; congruence.
    + rewrite (fp_new _ _ _ _ Hfp b) in Hb0; [done|]. apply elem_of_bases. right. eauto.
Qed.

Lemma fp_preserves h' : blocks h' = blocks h → preserves h h' → footprint h0 h' p arrs.
Proof.
  intros Hbl Hpr. split; [by transitivity h; [apply Hfp|]|rewrite Hbl|]; apply Hfp.
Qed.
End footprint_lemmas.

(** ** Steps and sequences *)

Section session_run.
Context `{AllocatorLaws}.

Definition session_post (h0 : heap) (p sz : Z) (k : nat) (l : held) (h : heap) : Prop :=
  ∃ A, session_ok h p A l ∧ footprint h0 h p (ap_arrays A) ∧
       ap_sz A = sz ∧ (length (ap_arrays A) ≤ k)%nat.

Lemma wp_exec_cmd h0 h p A l c :
  session_ok h p A l → footprint h0 h p (ap_arrays A) → cmd_ok (ap_sz A) c →
  wp (exec_cmd p c l) (session_post h0 p (ap_sz A) (S (length (ap_arrays A)))) h.
Proof.
  intros Hok Hfp Hc. pose proof (so_rep _ _ _ _ Hok) as Hr.
  pose proof (pr_struct _ _ _ Hr) as Hs. pose proof (ps_sz _ _ _ _ Hs) as [Hsz _].
  destruct c as [|i|m|i bs]; cbn [exec_cmd].
  - apply wp_bind. destruct (ap_free A) as [|c f] eqn:Hf.
    + apply (wp_Ok _ _ _ _ _ (pool_alloc_empty _ _ _ Hr Hf)). exists A; split_and!; try done; lia.
    + apply (wp_Ok _ _ _ _ _ (pool_alloc_run _ _ _ _ _ Hr Hf)). apply wp_ret.
      rewrite (pool_rep_free_nonnull _ _ _ c Hr); [|apply Hr; rewrite Hf; by left].
      eexists. split_and!; [by apply session_alloc|by eapply fp_store_head|done|cbn; lia].
  - destruct (l !! i) as [[ptr bs]|] eqn:Hi; [|apply wp_ret; exists A; split_and!; try done; lia].
    destruct (so_held_chunk _ _ _ _ Hok ptr bs) as [Hch _]; [by eapply list_elem_of_lookup_2|].
    apply wp_bind, (wp_Ok _ _ _ _ _ (pool_free_run _ _ _ _ Hr Hch)), wp_ret.
    eexists. split_and!; [by eapply session_free| |done|cbn; lia]. cbn [ap_release ap_arrays].
    assert (Z.of_nat (length (le_bytes 8 (head_chunk (ap_free A)))) ≤ ap_sz A) as Hlen
      by (rewrite le_bytes_length; lia).
    eapply fp_store_head; [by eapply fp_store_chunk|by apply pool_struct_store_chunk].
  - destruct Hc as [Hm Hfit]. destruct (decide (m = 0)) as [->|Hne].
    { unfold pool_expand. rewrite orb_true_r. apply wp_bind, wp_ret, wp_ret. exists A; split_and!; try done; lia. }
    apply wp_bind. eapply wp_mono; [by apply (wp_pool_expand h p A m); [|lia|]|].
    intros [] h'; cbn.
    + intros (node & base & Hr' & (Hbl & Hn & Hb & _) & Hm').
      eexists. split_and!; [by eapply (session_grow h); eauto|by eapply (fp_grow h0 h)|done|cbn; lia].
    + intros ((Hr' & Hbl & Hpr) & _). exists A.
      split_and!; [by eapply (session_preserves h)|by eapply (fp_preserves h0 h)|done|cbn; lia].
  - destruct (l !! i) as [[ptr bs0]|] eqn:Hi; [|apply wp_ret; exists A; split_and!; try done; lia].
    destruct (so_held_chunk _ _ _ _ Hok ptr bs0) as [Hch _]; [by eapply list_elem_of_lookup_2|].
    assert (store_bytes ptr bs h = Ok tt (stored h ptr bs)) as Hst.
    { unfold store_bytes. rewrite bool_decide_true; [done|].
      apply (chunk_accessible _ _ _ _ Hs); [done|]. cbn in Hc. lia. }
    apply wp_bind, (wp_Ok _ _ _ _ _ Hst), wp_ret. exists A.
    split_and!; [by eapply session_write|by eapply fp_store_chunk|done|cbn; lia].
Qed.

(** An expansion, succeeding or not, leaves what a client holds alone. *)
Lemma wp_session_expand h p A l m :
  session_ok h p A l → 0 < m → m * ap_sz A < 2 ^ 64 →
  wp (pool_expand p m) (λ _ h', ∃ A', session_ok h' p A' l ∧ (A' = A ∨ ∃ a, A' = ap_grow a A)) h.
Proof.
  intros Hok Hm Hfit. eapply wp_mono; [by apply (wp_pool_expand h p A m); [apply Hok|..]|].
  intros [] h'; cbn.
  - intros (node & base & Hr' & _ & Hm'). eexists. split; [by eapply (session_grow h); eauto|eauto].
  - intros ((Hr' & _ & Hpr) & _). exists A. split; [by eapply (session_preserves h)|auto].
Qed.

Lemma wp_exec h0 cs : ∀ h p A l,
  session_ok h p A l → footprint h0 h p (ap_arrays A) → Forall (cmd_ok (ap_sz A)) cs →
  wp (exec p cs l) (session_post h0 p (ap_sz A) (length cs + length (ap_arrays A))) h.
Proof.
  induction cs as [|c cs IH]; intros h p A l Hok Hfp Hcs; cbn [exec].
  - apply wp_ret. exists A; split_and!; try done; lia.
  - apply Forall_cons in Hcs as [Hc Hcs]. apply wp_bind.
    eapply wp_mono; [by apply (wp_exec_cmd h0)|].
    intros l' h' (A' & Hok' & Hfp' & HA' & Hlen). cbn. rewrite <- HA'.
    eapply wp_mono; [apply (IH _ _ A'); [done..|]; by rewrite HA'|].
    intros l'' h'' (A'' & ? & ? & ? & ?). exists A''. split_and!; try done. lia.
Qed.

(** A pool that has just been created, before any chunk is handed out. *)
Lemma new_session h n sz p h' :
  pool_new_post h n sz p h' → p ≠ NULL →
  ∃ A, (session_ok h' p A [] ∧ footprint h h' p (ap_arrays A)) ∧
       (ap_sz A = sz ∧ length (ap_arrays A) = 1%nat) ∧
       ap_free A = all_chunks A ∧ length (all_chunks A) = Z.to_nat n.
Proof.
  intros (Hwf & Hpr & [[? _]|Hnew]) Hp; [done|].
  destruct Hnew as (node & base & Hr & Hbl & (? & ? & ?) & Hp0 & Hn0 & Hb0).
  set (a := Array node base n) in Hr.
  assert (all_chunks (APool sz (chunks_of sz a) [a]) = chunks_of sz a) as Hall.
  { unfold all_chunks. cbn [ap_sz ap_arrays]. by rewrite chunks_cons, app_nil_r. }
  exists (APool sz (chunks_of sz a) [a]). rewrite Hall, length_chunks_of.
  split_and!; try done; [split; [exact Hr| |]|split]; cbn [ap_free ap_arrays].
  - by rewrite Hall, app_nil_r.
  - intros ? ? []%not_elem_of_nil.
  - done.
  - intros b Hb. unfold bases in Hb. cbn in Hb. rewrite !not_elem_of_cons in Hb.
    rewrite Hbl. unfold new_blocks. by rewrite !lookup_insert_ne by naive_solver.
  - intros b Hb. apply elem_of_bases in Hb as [->|(a' & ->%list_elem_of_singleton & [->| ->])];
      done.
Qed.

(** The whole life of a pool: created, used, destroyed. *)
Definition lifecycle (n c : Z) (cs : list cmd) (fuel : nat) : M heap unit :=
  p ← pool_new n c;
  if p =? NULL then mret tt else
  exec p cs [];;
  pool_destroy fuel p.

Lemma destroy_footprint h0 h h' p arrs :
  footprint h0 h p arrs → mem h' = mem h →
  (∀ b, blocks h' !! b = if decide (b ∈ bases p arrs) then None else blocks h !! b) →
  blocks h' = blocks h0 ∧ preserves h0 h'.
Proof.
  intros Hfp Hm Hbl. assert (blocks h' = blocks h0) as Heq.
  { apply map_eq. intros b. rewrite Hbl. case_decide.
    - by rewrite (fp_new _ _ _ _ Hfp b).
    - by apply Hfp. }
  split; [done|]. intros b s Hb. rewrite Heq, Hm. split; [done|].
  intros x Hx. by apply (fp_old _ _ _ _ Hfp b s).
Qed.

Lemma wp_lifecycle h n c cs fuel :
  heap_wf h → 0 < n < 2 ^ 64 → 0 < c ≤ 2 ^ 64 - 8 →
  n * ALIGN2BOUNDARY c sizeof_ptr < 2 ^ 64 →
  Forall (cmd_ok (ALIGN2BOUNDARY c sizeof_ptr)) cs → (length cs + 1 < fuel)%nat →
  wp (lifecycle n c cs fuel) (λ _ h', blocks h' = blocks h ∧ preserves h h') h.
Proof.
  intros Hwf Hn Hc Hfit Hcs Hfuel. apply wp_bind. eapply wp_mono; [by apply wp_pool_new|].
  intros p h1 Hpost. cbn beta. destruct (p =? NULL) eqn:Hp; bool_to_prop.
  { apply wp_ret. destruct Hpost as (? & ? & [(_ & ? & _)|Hnew]); [done|].
    destruct Hnew as (node & base & Hr & _). apply pool_rep_nonnull in Hr.
    by rewrite Hp in Hr. }
  destruct (new_session _ _ _ _ _ Hpost Hp) as (A & [Hok Hfp] & [Hsz Hlen] & _).
  apply wp_bind. eapply wp_mono; [apply (wp_exec h); [done|done|by rewrite Hsz]|].
  intros l h2 (A2 & Hok2 & Hfp2 & _ & Hlen2).
  eapply wp_mono; [apply (wp_pool_destroy h2 p A2); [apply Hok2|lia]|].
  intros [] h3 [Hm Hbl]. by eapply destroy_footprint.
Qed.
End session_run.
