(* ===== verification/LibpoolProps.v ===== *)
(** What libpool promises: the properties of the pool allocator, each with a
    witness on the concrete pool of [LibpoolDec]. *)

From S2P Require Import Prelude Bytes CMem Libpool LibpoolLemmas LibpoolDec LibpoolSpec.
From S2P Require Import LibpoolLife LibpoolClient.
Local Open Scope Z_scope.

Section props.
Context `{AllocatorLaws}.

(** C1: [pool_new] on a well-formed heap, for a size that fits the address
    space, never has undefined behaviour and always returns.  Either an external
    function is missing or one of its three requests was refused, and then it
    returns NULL and has given every block back; or it returns a pool whose free
    list is exactly the [n] chunks of one new array of [n * sz] bytes, where [sz]
    is the chunk size rounded up to a multiple of 8.  Other blocks keep their
    content. *)
Theorem pool_new_correct h n c :
  heap_wf h → 0 < n < 2 ^ 64 → 0 < c ≤ 2 ^ 64 - 8 →
  n * ((c + 7) `div` 8 * 8) < 2 ^ 64 →
  let sz := (c + 7) `div` 8 * 8 in
  wp (pool_new n c) (λ p h', heap_wf h' ∧ preserves h h' ∧
    ((p = NULL ∧ blocks h' = blocks h ∧
      (ext_funcs_set = false ∨ refused h [sizeof_Pool; sizeof_ArrayStart; n * sz])) ∨
     (∃ node base, let a := Array node base n in
        pool_rep h' p (APool sz (chunks_of sz a) [a]) ∧
        blocks h' = new_blocks h p node base (n * sz) ∧
        (p ≠ node ∧ p ≠ base ∧ node ≠ base) ∧
        blocks h !! p = None ∧ blocks h !! node = None ∧ blocks h !! base = None))) h.
Proof.
  intros Hwf Hn Hc Hfit. rewrite <- (align_eq c) in * by lia. by apply wp_pool_new.
Qed.

(** C2: [pool_alloc] pops the stack of free chunks: it returns NULL and changes
    nothing exactly when no chunk is free, otherwise the chunk freed last, which
    lies inside a live block, and it writes only the pool's [free_chunk] field. *)
Theorem pool_alloc_correct h p A :
  pool_rep h p A →
  match ap_alloc A with
  | None => pool_alloc p h = Ok NULL h
  | Some (c, A') => ∃ h', pool_alloc p h = Ok c h' ∧ pool_rep h' p A' ∧ c ≠ NULL ∧
      accessible h' c (ap_sz A) ∧ blocks h' = blocks h ∧
      (∀ x, ¬ (p ≤ x < p + 8) → mem h' !! x = mem h !! x)
  end.
Proof.
  intros Hr. pose proof (pr_struct _ _ _ Hr) as Hs. pose proof (ps_sz _ _ _ _ Hs) as [Hsz _].
  unfold ap_alloc. destruct (ap_free A) as [|c f] eqn:Hf; [by apply (pool_alloc_empty h p A)|].
  assert (c ∈ all_chunks A) as Hc by (apply Hr; rewrite Hf; by left).
  eexists. split; [by apply (pool_alloc_run h p A)|]. split_and!.
  - by apply (pool_alloc_rep h p A c).
  - intros ->. apply (chunk_range _ _ _ _ Hs) in Hc. unfold NULL in Hc. lia.
  - apply accessible_stored. apply (chunk_accessible _ _ _ _ Hs c); [done|lia].
  - done.
  - intros x Hx. apply (stored_agree _ _ _ x 1); [|lia]. rewrite le_bytes_length.
    unfold disjoint_ranges. lia.
Qed.

(** C3: [pool_free] of a chunk that is not free pushes it on the stack of free
    chunks, in whatever order chunks are given back, and writes only the
    chunk's first word and the pool's [free_chunk] field. *)
Theorem pool_free_correct h p A c :
  pool_rep h p A → c ∈ all_chunks A → c ∉ ap_free A →
  ∃ h', pool_free p c h = Ok tt h' ∧ pool_rep h' p (ap_release c A) ∧
        blocks h' = blocks h ∧
        (∀ x, ¬ (p ≤ x < p + 8) → ¬ (c ≤ x < c + 8) → mem h' !! x = mem h !! x).
Proof.
  intros Hr Hc Hnf. eexists. split; [by apply (pool_free_run h p A)|]. split_and!.
  - by apply pool_free_rep.
  - done.
  - intros x Hx Hxc. etransitivity; (eapply (stored_agree _ _ _ x 1); [|lia]);
      rewrite le_bytes_length; unfold disjoint_ranges; lia.
Qed.

(** C4: [pool_available] terminates on every pool, with the number of free
    chunks: one more iteration than there are free chunks is enough. *)
Theorem pool_available_correct h p A fuel :
  pool_rep h p A → (length (ap_free A) < fuel)%nat →
  pool_available fuel p h = Ok (Z.of_nat (length (ap_free A))) h.
Proof. apply pool_available_run. Qed.

(** C5: [pool_expand] with a request that fits the address space never has
    undefined behaviour.  It returns false only when the allocation function
    refused one of its two requests, and then the pool and every block are as
    before; otherwise the [m] new chunks come before the old free ones, and
    nothing outside the pool's own structure is written. *)
Theorem pool_expand_correct h p A m :
  pool_rep h p A → 0 < m → m * ap_sz A < 2 ^ 64 →
  wp (pool_expand p m) (λ r h',
    if r then ∃ node base, let a := Array node base m in
      pool_rep h' p (ap_grow a A) ∧
      (blocks h' = <[base:=m * ap_sz A]> (<[node:=sizeof_ArrayStart]> (blocks h)) ∧
       blocks h !! node = None ∧ blocks h !! base = None ∧ node ≠ base) ∧
      (∀ b s x, blocks h !! b = Some s → b ≠ p → b ≤ x < b + s → mem h' !! x = mem h !! x)
    else (pool_rep h' p A ∧ blocks h' = blocks h ∧ preserves h h') ∧
         refused h [sizeof_ArrayStart; m * ap_sz A]) h.
Proof. intros Hr Hm Hfit. by apply wp_pool_expand. Qed.

(** C6: a pool that is created, used by any sequence of allocations, frees,
    expansions and writes that respects the chunk size, and destroyed, never
    has undefined behaviour, its traversal of the arrays terminates, and the
    live blocks and their content are those from before the pool was created:
    every block it ever allocated is freed exactly once. *)
Theorem pool_lifecycle_no_leak h n c cs fuel :
  heap_wf h → 0 < n < 2 ^ 64 → 0 < c ≤ 2 ^ 64 - 8 →
  n * ALIGN2BOUNDARY c sizeof_ptr < 2 ^ 64 →
  Forall (cmd_ok (ALIGN2BOUNDARY c sizeof_ptr)) cs → (length cs + 1 < fuel)%nat →
  wp (lifecycle n c cs fuel) (λ _ h', blocks h' = blocks h ∧ preserves h h') h.
Proof. intros. by apply wp_lifecycle. Qed.

(** C7: whatever the client does with the chunks it holds, the free chunks and
    the held chunks always partition the chunks of the pool (no chunk is handed
    out twice or lost), distinct held chunks do not overlap, and each held chunk
    still has the bytes the client last wrote into it. *)
Theorem pool_session_isolation h0 h p A l cs :
  session_ok h p A l → footprint h0 h p (ap_arrays A) → Forall (cmd_ok (ap_sz A)) cs →
  wp (exec p cs l) (λ l' h', ∃ A', pool_rep h' p A' ∧ ap_sz A' = ap_sz A ∧
    ap_free A' ++ l'.*1 ≡ₚ all_chunks A' ∧
    (∀ i j c c' bs bs', l' !! i = Some (c, bs) → l' !! j = Some (c', bs') → i ≠ j →
       disjoint_ranges c (ap_sz A) c' (ap_sz A)) ∧
    (∀ c bs, (c, bs) ∈ l' → load_bytes c (length bs) h' = Ok bs h')) h.
Proof.
  intros Hok Hfp Hcs. eapply wp_mono; [by apply (wp_exec h0)|].
  intros l' h' (A' & Hok' & _ & HA & _). pose proof (so_rep _ _ _ _ Hok') as Hr'.
  pose proof (pr_struct _ _ _ Hr') as Hs'.
  exists A'. split_and!; [done|done|apply Hok'| |].
  - intros i j c c' bs bs' Hi Hj Hij. rewrite <- HA.
    pose proof (so_held_chunk _ _ _ _ Hok' c bs ltac:(by eapply list_elem_of_lookup_2)) as [Hc _].
    pose proof (so_held_chunk _ _ _ _ Hok' c' bs' ltac:(by eapply list_elem_of_lookup_2)) as [Hc' _].
    apply (chunk_disjoint _ _ _ _ Hs'); [done..|]. intros ->. apply Hij.
    pose proof (so_NoDup _ _ _ _ Hok') as (_ & _ & Hnd)%NoDup_app.
    apply (NoDup_lookup l'.*1 i j c' Hnd); by rewrite list_lookup_fmap, ?Hi, ?Hj.
  - intros c bs Hin. destruct (so_content _ _ _ _ Hok' c bs Hin) as [Hlen Hload].
    pose proof (so_held_chunk _ _ _ _ Hok' c bs Hin) as [Hc _].
    unfold load_bytes. rewrite bool_decide_true, Hload; [done|].
    apply (chunk_accessible _ _ _ _ Hs'); [done|lia].
Qed.

(** A chunk given back twice makes the free list a cycle: both calls of
    [pool_free] return normally, and then [pool_available] never returns,
    and every call of [pool_alloc] hands out that same chunk. *)
Theorem double_free_cycle h p A c :
  pool_rep h p A → c ∈ all_chunks A → c ∉ ap_free A →
  ∃ h1 h2, pool_free p c h = Ok tt h1 ∧ pool_free p c h1 = Ok tt h2 ∧
    (∀ fuel, pool_available fuel p h2 = OutOfFuel) ∧
    ∃ h3, pool_alloc p h2 = Ok c h3 ∧ ∃ h4, pool_alloc p h3 = Ok c h4.
Proof.
  intros Hr Hc Hnf. pose proof (pool_free_rep h p A c Hr Hc Hnf) as Hr1.
  set (h1 := stored _ p _) in Hr1. pose proof (cyclic_double_free _ _ _ _ Hr1 Hc eq_refl) as Hcy.
  exists h1. eexists. split; [by apply (pool_free_run h p A)|].
  split; [by apply (pool_free_run h1 p (ap_release c A))|]. split.
  - intros fuel. by apply (cyclic_available _ _ c).
  - destruct (cyclic_alloc _ _ _ Hcy) as (h3 & Ha & Hcy3). exists h3. split; [done|].
    destruct (cyclic_alloc _ _ _ Hcy3) as (h4 & Ha4 & _). by exists h4.
Qed.

(** A chunk size that rounds to zero (zero, or within 7 of the largest
    [size_t]) passes every check of [pool_new]: unless the allocation function
    refuses a request, the first link is written outside the array it has
    just allocated. *)
Theorem pool_new_zero_chunk h n c :
  heap_wf h → 0 < n < 2 ^ 64 → (c = 0 ∨ 2 ^ 64 - 8 < c < 2 ^ 64) →
  (∃ h', pool_new n c h = Ok NULL h') ∨ (∃ a, pool_new n c h = UB (ub_access a)).
Proof.
  intros Hwf Hn Hc. assert (ALIGN2BOUNDARY c sizeof_ptr = 0) as Hz.
  { destruct Hc as [->|Hc]; [done|by apply align_wraps]. }
  unfold pool_new. rewrite (proj2 (Z.eqb_neq n 0)), Hz by lia. cbn [negb].
  destruct pool_assert_ext_funcs; cbn [negb]; [|left; by eexists].
  apply new_zero_array; [done|lia].
Qed.
End props.

(** The size of the array of chunks is computed modulo 2^64.  A pool of
    2^61 + 1 chunks of 8 bytes asks for 8 bytes, and the second link is written
    past the end of them. *)
Theorem pool_new_size_overflow :
  @pool_new (bump 1000) (2 ^ 61 + 1) 8 empty_heap = UB (ub_access 104).
Proof.
  assert (Z.to_nat (2 ^ 61 + 1 - 1) = S (S (Z.to_nat (2 ^ 61 - 2)))) as Hn.
  { rewrite <- !Z2Nat.inj_succ by lia. f_equal. }
  unfold pool_new. change (2 ^ 61 + 1 =? 0) with false.
  change (negb _) with false. cbn match.
  do 5 (erewrite bind_Ok by (vm_compute; reflexivity);
        try match goal with |- (if ?b then _ else _) _ = _ => change b with false end; cbn match).
  unfold pool_init, link_chunks, for_below. rewrite Hn. cbn [for_from].
  apply bind_UB. erewrite bind_Ok by (vm_compute; reflexivity).
  apply bind_UB. vm_compute. reflexivity.
Qed.

(** ** Witnesses: the hypotheses hold of the concrete pool *)

Lemma pool_new_correct_witness :
  heap_wf empty_heap ∧ wp (@pool_new demo_alloc 3 20) (λ p h', p = 16 ∧ heap_wf h') empty_heap.
Proof.
  split; [exact empty_heap_wf|].
  assert (@pool_new demo_alloc 3 20 empty_heap = Ok demo_pool demo_heap) as Hrun
    by (vm_compute; reflexivity).
  assert (AllocatorLaws) as Hlaws by exact (bump_laws 4096).
  pose proof (@pool_new_correct demo_alloc Hlaws empty_heap 3 20 empty_heap_wf
    ltac:(lia) ltac:(lia) ltac:(vm_compute; reflexivity)) as Hwp.
  cbn zeta in Hwp. rewrite (wp_Ok _ _ _ _ _ Hrun) in Hwp.
  rewrite (wp_Ok _ _ _ _ _ Hrun). split; [vm_compute; reflexivity|apply Hwp].
Defined.

Lemma pool_alloc_correct_witness :
  pool_rep demo_heap demo_pool demo_apool ∧
  ∃ h', pool_alloc demo_pool demo_heap = Ok 96 h' ∧ pool_rep h' demo_pool demo_apool1.
Proof.
  split; [exact demo_rep|].
  destruct (pool_alloc_correct demo_heap demo_pool demo_apool demo_rep) as (h' & Hrun & Hr & _).
  exists h'. split; [exact Hrun|exact Hr].
Defined.

Lemma pool_free_correct_witness :
  ∃ h', pool_free demo_pool 96 demo_heap1 = Ok tt h' ∧ pool_rep h' demo_pool demo_apool.
Proof.
  destruct (pool_free_correct demo_heap1 demo_pool demo_apool1 96 demo_rep1) as (h' & Hrun & Hr & _).
  - apply (bool_decide_unpack _). vm_compute. exact I.
  - apply (bool_decide_unpack _). vm_compute. exact I.
  - exists h'. split; [exact Hrun|exact Hr].
Defined.

Lemma pool_available_correct_witness : pool_available 4 demo_pool demo_heap = Ok 3 demo_heap.
Proof.
  apply (pool_available_correct demo_heap demo_pool demo_apool 4 demo_rep). vm_compute. lia.
Defined.

Lemma pool_expand_correct_witness :
  wp (@pool_expand demo_alloc demo_pool 2) (λ r h', r = true ∧
    ∃ a, pool_rep h' demo_pool (ap_grow a demo_apool)) demo_heap.
Proof.
  assert (∃ h', @pool_expand demo_alloc demo_pool 2 demo_heap = Ok true h') as [h' Hrun]
    by (eexists; vm_compute; reflexivity).
  pose proof (@pool_expand_correct demo_alloc (bump_laws 4096) demo_heap demo_pool demo_apool 2
    demo_rep ltac:(lia) ltac:(vm_compute; reflexivity)) as Hwp.
  rewrite (wp_Ok _ _ _ _ _ Hrun) in Hwp. rewrite (wp_Ok _ _ _ _ _ Hrun).
  split; [reflexivity|]. destruct Hwp as (node & base & Hr & _). by exists (Array node base 2).
Defined.

Definition demo_cmds : list cmd :=
  [CAlloc; CAlloc; CWrite 0 [1; 2; 3]; CFree 1; CExpand 2; CWrite 0 [7]; CAlloc].

Lemma demo_cmds_ok : Forall (cmd_ok 24) demo_cmds.
Proof. repeat constructor; cbn; lia. Qed.

Lemma pool_lifecycle_no_leak_witness :
  wp (@lifecycle demo_alloc 3 20 demo_cmds 9) (λ _ h', blocks h' = ∅) empty_heap.
Proof.
  eapply wp_mono.
  - apply (@pool_lifecycle_no_leak demo_alloc (bump_laws 4096) empty_heap 3 20 demo_cmds 9).
    + exact empty_heap_wf.
    + lia.
    + lia.
    + vm_compute. reflexivity.
    + exact demo_cmds_ok.
    + cbn. lia.
  - intros [] h' [Hb _]. exact Hb.
Defined.

Lemma demo_session : session_ok demo_heap demo_pool demo_apool [].
Proof. split; [exact demo_rep|reflexivity|]. by intros ? ? ?%elem_of_nil. Qed.

Lemma demo_footprint : footprint empty_heap demo_heap demo_pool (ap_arrays demo_apool).
Proof.
  split.
  - intros b s. cbn. by rewrite lookup_empty.
  - intros b Hb. cbn [blocks empty_heap]. rewrite lookup_empty.
    apply not_elem_of_dom. intros Hd. apply Hb. clear Hb; revert b Hd.
    apply (bool_decide_unpack (set_Forall (λ b, b ∈ bases demo_pool (ap_arrays demo_apool))
      (dom (blocks demo_heap)))). vm_compute. exact I.
  - done.
Qed.

Lemma pool_session_isolation_witness :
  wp (@exec demo_alloc demo_pool demo_cmds []) (λ l' h',
    ∀ c bs, (c, bs) ∈ l' → load_bytes c (length bs) h' = Ok bs h') demo_heap.
Proof.
  eapply wp_mono.
  - apply (@pool_session_isolation demo_alloc (bump_laws 4096) empty_heap demo_heap demo_pool
      demo_apool [] demo_cmds demo_session demo_footprint demo_cmds_ok).
  - intros l' h' (A' & _ & _ & _ & _ & Hc). exact Hc.
Defined.

Lemma double_free_cycle_witness :
  ∃ h1 h2, pool_free demo_pool 96 demo_heap1 = Ok tt h1 ∧ pool_free demo_pool 96 h1 = Ok tt h2 ∧
    ∀ fuel, pool_available fuel demo_pool h2 = OutOfFuel.
Proof.
  destruct (double_free_cycle demo_heap1 demo_pool demo_apool1 96 demo_rep1)
    as (h1 & h2 & Hf1 & Hf2 & Hav & _).
  - apply (bool_decide_unpack _). vm_compute. exact I.
  - apply (bool_decide_unpack _). vm_compute. exact I.
  - exists h1, h2. split; [exact Hf1|]. split; [exact Hf2|exact Hav].
Defined.

Lemma pool_new_zero_chunk_witness :
  (∃ h', @pool_new demo_alloc 3 0 empty_heap = Ok NULL h') ∨
  (∃ a, @pool_new demo_alloc 3 0 empty_heap = UB (ub_access a)).
Proof.
  apply (@pool_new_zero_chunk demo_alloc (bump_laws 4096) empty_heap 3 0 empty_heap_wf);
    [lia|by left].
Defined.
