(* ===== verification/LibpoolExpand.v ===== *)
(** [pool_expand] access by access, for threads that interleave with it: its program counter, one
    access to memory or one call of the allocation functions per step, and what the thread in the
    middle of it knows of the heap.

    Until it stores [pool->free_chunk] the pool is still the old one, and from there to its last
    store the pool is in no consistent state: the stores made so far are [pending], and the pool
    is described by the heap without them. *)

From S2P Require Import Prelude Bytes CMem Libpool LibpoolLemmas LibpoolSpec LibpoolLife LibpoolClient.
Local Open Scope Z_scope.

(** ** Steps *)

Inductive expand_pc : Type :=
| EStart
| ENode (array_start : Z)                              (* the node exists *)
| ESized (array_start chunk_sz : Z)
| EUndo (array_start : Z)                              (* there is no memory for the array *)
| ELink (array_start extra_arr i : Z)                  (* round i of the loop *)
| ELinkNext (array_start extra_arr i next : Z)
| ELinkStore (array_start extra_arr i next slot : Z)
| EEnd (array_start extra_arr : Z)                     (* after the loop *)
| EEndSized (array_start extra_arr last : Z)
| ELast (array_start extra_arr last free_chunk : Z)
| EHead (array_start extra_arr : Z)
| EArr (array_start extra_arr : Z)
| EStarts (array_start extra_arr : Z)
| ENext (array_start extra_arr starts : Z)
| EPublish (array_start extra_arr : Z)
| EDone (result : bool).

(** The test of the loop. *)
Definition expand_loop (extra_sz array_start extra_arr i : Z) : expand_pc :=
  if i <? extra_sz - 1 then ELink array_start extra_arr i else EEnd array_start extra_arr.

Section step.
Context `{Allocator}.

Definition expand_step (pool extra_sz : Z) (pc : expand_pc) : M heap expand_pc :=
  match pc with
  | EStart =>
      array_start ← malloc sizeof_ArrayStart;
      mret (if array_start =? NULL then EDone false else ENode array_start)
  | ENode array_start => chunk_sz ← load64 (Pool_chunk_sz pool); mret (ESized array_start chunk_sz)
  | ESized array_start chunk_sz =>
      extra_arr ← malloc (u64 (extra_sz * chunk_sz));
      mret (if extra_arr =? NULL then EUndo array_start
            else expand_loop extra_sz array_start extra_arr 0)
  | EUndo array_start => cfree array_start;; mret (EDone false)
  | ELink array_start extra_arr i =>
      chunk_sz ← load64 (Pool_chunk_sz pool);
      mret (ELinkNext array_start extra_arr i (u64 (extra_arr + u64 (u64 (i + 1) * chunk_sz))))
  | ELinkNext array_start extra_arr i next =>
      chunk_sz ← load64 (Pool_chunk_sz pool);
      mret (ELinkStore array_start extra_arr i next (u64 (extra_arr + u64 (i * chunk_sz))))
  | ELinkStore array_start extra_arr i next slot =>
      store64 slot next;; mret (expand_loop extra_sz array_start extra_arr (i + 1))
  | EEnd array_start extra_arr =>
      chunk_sz ← load64 (Pool_chunk_sz pool);
      mret (EEndSized array_start extra_arr (u64 (extra_arr + u64 ((extra_sz - 1) * chunk_sz))))
  | EEndSized array_start extra_arr last =>
      free_chunk ← load64 (Pool_free_chunk pool); mret (ELast array_start extra_arr last free_chunk)
  | ELast array_start extra_arr last free_chunk =>
      store64 last free_chunk;; mret (EHead array_start extra_arr)
  | EHead array_start extra_arr =>
      store64 (Pool_free_chunk pool) extra_arr;; mret (EArr array_start extra_arr)
  | EArr array_start extra_arr =>
      store64 (ArrayStart_arr array_start) extra_arr;; mret (EStarts array_start extra_arr)
  | EStarts array_start extra_arr =>
      starts ← load64 (Pool_array_starts pool); mret (ENext array_start extra_arr starts)
  | ENext array_start extra_arr starts =>
      store64 (ArrayStart_next array_start) starts;; mret (EPublish array_start extra_arr)
  | EPublish array_start extra_arr =>
      store64 (Pool_array_starts pool) array_start;; mret (EDone true)
  | EDone _ => mret pc
  end.

Fixpoint expand_steps (n : nat) (pool extra_sz : Z) (pc : expand_pc) : M heap expand_pc :=
  match n with
  | O => mret pc
  | S n' => pc' ← expand_step pool extra_sz pc; expand_steps n' pool extra_sz pc'
  end.
End step.

(** Steps to the end. *)
Definition expand_left (m : Z) (pc : expand_pc) : nat :=
  match pc with
  | EStart => 9 + 3 * Z.to_nat m - 1
  | ENode _ => 8 + 3 * Z.to_nat m - 1
  | ESized _ _ => 7 + 3 * Z.to_nat m - 1
  | ELink _ _ i => 8 + 3 * Z.to_nat (m - 1 - i)
  | ELinkNext _ _ i _ => 7 + 3 * Z.to_nat (m - 1 - i)
  | ELinkStore _ _ i _ _ => 6 + 3 * Z.to_nat (m - 1 - i)
  | EEnd _ _ => 8
  | EEndSized _ _ _ => 7
  | ELast _ _ _ _ => 6
  | EHead _ _ => 5
  | EArr _ _ => 4
  | EStarts _ _ => 3
  | ENext _ _ _ => 2
  | EPublish _ _ | EUndo _ => 1
  | EDone _ => 0
  end.

(** ** Pending stores *)

Definition with_words (h : heap) (ws : list (Z * Z)) : heap :=
  foldl (λ h w, stored h w.1 (le_bytes 8 w.2)) h ws.

Definition pending (p : Z) (A : apool) (pc : expand_pc) : list (Z * Z) :=
  match pc with
  | EArr _ arr => [(Pool_free_chunk p, arr)]
  | EStarts node arr | ENext node arr _ => [(Pool_free_chunk p, arr); (ArrayStart_arr node, arr)]
  | EPublish node arr =>
      [(Pool_free_chunk p, arr); (ArrayStart_arr node, arr); (ArrayStart_next node, head_node (ap_arrays A))]
  | _ => []
  end.

(** ** What the thread knows *)

Definition fresh_node (h : heap) (p : Z) (A : apool) (node : Z) : Prop :=
  (node ∉ bases p (ap_arrays A)) ∧ blocks h !! node = Some sizeof_ArrayStart.

Definition fresh_array (h : heap) (p : Z) (A : apool) (m node arr : Z) : Prop :=
  fresh_node h p A node ∧ (arr ∉ bases p (ap_arrays A)) ∧ node ≠ arr ∧
  blocks h !! arr = Some (m * ap_sz A).

(** The first [j] chunks of the new array are linked. *)
Definition linked (h : heap) (A : apool) (arr j : Z) : Prop :=
  ∀ i, 0 ≤ i < j → word_at h (arr + i * ap_sz A) (arr + (i + 1) * ap_sz A).

(** ... all of them, and the last one leads to the free list. *)
Definition all_linked (h : heap) (A : apool) (m arr : Z) : Prop :=
  linked h A arr (m - 1) ∧ word_at h (arr + (m - 1) * ap_sz A) (head_chunk (ap_free A)).

Definition expand_ok (h : heap) (p : Z) (A : apool) (m : Z) (pc : expand_pc) : Prop :=
  match pc with
  | EStart | EDone _ => True
  | ENode node | EUndo node => fresh_node h p A node
  | ESized node sz => fresh_node h p A node ∧ sz = ap_sz A
  | ELink node arr i => fresh_array h p A m node arr ∧ 0 ≤ i < m - 1 ∧ linked h A arr i
  | ELinkNext node arr i next =>
      fresh_array h p A m node arr ∧ 0 ≤ i < m - 1 ∧ linked h A arr i ∧
      next = arr + (i + 1) * ap_sz A
  | ELinkStore node arr i next slot =>
      fresh_array h p A m node arr ∧ 0 ≤ i < m - 1 ∧ linked h A arr i ∧
      next = arr + (i + 1) * ap_sz A ∧ slot = arr + i * ap_sz A
  | EEnd node arr => fresh_array h p A m node arr ∧ linked h A arr (m - 1)
  | EEndSized node arr last =>
      fresh_array h p A m node arr ∧ linked h A arr (m - 1) ∧ last = arr + (m - 1) * ap_sz A
  | ELast node arr last free_chunk =>
      fresh_array h p A m node arr ∧ linked h A arr (m - 1) ∧ last = arr + (m - 1) * ap_sz A ∧
      free_chunk = head_chunk (ap_free A)
  | EHead node arr | EArr node arr | EStarts node arr | EPublish node arr =>
      fresh_array h p A m node arr ∧ all_linked h A m arr
  | ENext node arr starts =>
      fresh_array h p A m node arr ∧ all_linked h A m arr ∧ starts = head_node (ap_arrays A)
  end.

(** ** Frames *)

(** Every block of the pool is as it was. *)
Definition keeps_pool (p : Z) (A : apool) (h h' : heap) : Prop :=
  ∀ b s, b ∈ bases p (ap_arrays A) → blocks h !! b = Some s →
    blocks h' !! b = Some s ∧ ∀ x, b ≤ x < b + s → mem h' !! x = mem h !! x.

Lemma keeps_pool_preserves p A h h' : preserves h h' → keeps_pool p A h h'.
Proof. intros Hpr b s _. apply Hpr. Qed.

Section frame.
Context (h h' : heap) (p : Z) (A : apool) (Hwf : heap_wf h') (Hk : keeps_pool p A h h').

Lemma keeps_chunk c n :
  pool_rep h p A → c ∈ all_chunks A → 0 ≤ n ≤ ap_sz A → agree_on h h' c n.
Proof.
  intros Hr Hc Hn. pose proof (pr_struct _ _ _ Hr) as Hs.
  destruct (chunk_inside _ _ _ _ Hs c Hc) as (a & Ha & Hin & Hb). unfold in_block in Hin.
  destruct (Hk (ar_base a) _ (proj1 (ps_base_in p _ a Ha)) Hb) as [Hb' Hm].
  split; [intros x Hx; apply Hm; lia|]. intros _. eapply accessible_block; [exact Hb'|lia|lia].
Qed.

Lemma keeps_field o v :
  pool_rep h p A → 0 ≤ o ≤ 16 → word_at h (p + o) v → word_at h' (p + o) v.
Proof.
  intros Hr Ho. pose proof (pr_struct _ _ _ Hr) as Hs.
  destruct (ps_pool _ _ _ _ Hs) as (s & Hp & Hle). unfold sizeof_Pool in Hle.
  destruct (Hk p s ltac:(by left) Hp) as [Hp' Hm]. apply word_at_agree.
  split; [intros x Hx; apply Hm; lia|]. intros _. eapply accessible_block; [exact Hp'|lia|lia].
Qed.

Lemma pool_rep_frame : pool_rep h p A → pool_rep h' p A.
Proof.
  intros Hr. pose proof (pr_struct _ _ _ Hr) as Hs. pose proof (ps_sz _ _ _ _ Hs) as [Hsz _]. split.
  - eapply pool_struct_frame; [done|done| | |].
    + intros b Hb. destruct (ps_bases_live _ _ _ _ b Hs Hb) as [s Hbs]. rewrite Hbs. by apply (Hk b s).
    + destruct (ps_pool _ _ _ _ Hs) as (s & Hp & Hle). unfold sizeof_Pool in Hle.
      intros x Hx. apply (Hk p s ltac:(by left) Hp). lia.
    + intros a x Ha Hx. destruct (ps_arrays _ _ _ _ Hs a Ha) as (Hn & _).
      apply (Hk _ _ (proj2 (ps_base_in p _ a Ha)) Hn). unfold sizeof_ArrayStart. lia.
  - pose proof (keeps_field 0 (head_chunk (ap_free A)) Hr) as Hh. rewrite Z.add_0_r in Hh.
    apply Hh; [lia|apply Hr].
  - eapply chain_frame; [|apply Hr]. intros c Hc. apply keeps_chunk; [done|by apply Hr|lia].
  - apply Hr.
  - apply Hr.
Qed.

Lemma session_frame l : session_ok h p A l → session_ok h' p A l.
Proof.
  intros Hok. pose proof (so_rep _ _ _ _ Hok) as Hr. split; [by apply pool_rep_frame|apply Hok|].
  intros q bs Hq. split; [by apply (so_content _ _ _ _ Hok q)|].
  destruct (so_held_chunk _ _ _ _ Hok _ _ Hq) as [Hqc _].
  apply (so_content_frame _ _ _ _ Hok); [done|].
  pose proof (ps_sz _ _ _ _ (pr_struct _ _ _ Hr)). by apply (keeps_chunk q (ap_sz A)); [| |lia].
Qed.
End frame.

(** A store into a block that is not the pool's. *)
Lemma keeps_pool_store p A h b s a bs :
  heap_wf h → b ∉ bases p (ap_arrays A) → blocks h !! b = Some s →
  b ≤ a → a + Z.of_nat (length bs) ≤ b + s → keeps_pool p A h (stored h a bs).
Proof.
  intros Hwf Hb Hbs Ha Hl b' s' Hb' Hbs'. split; [done|].
  assert (b ≠ b') as Hne by (intros ->; done).
  pose proof (proj2 Hwf _ _ _ _ Hbs Hbs' Hne) as Hd. intros x Hx.
  apply (stored_agree h a bs b' s'); [|done]. eapply disjoint_ranges_sub; [exact Hd|lia|lia].
Qed.

(** A write into a chunk of the pool does not concern the new blocks. *)
Lemma fresh_block_write h p A c bs b s a v :
  pool_rep h p A → c ∈ all_chunks A → Z.of_nat (length bs) ≤ ap_sz A →
  b ∉ bases p (ap_arrays A) → blocks h !! b = Some s → b ≤ a → a + 8 ≤ b + s →
  word_at h a v → word_at (stored h c bs) a v.
Proof.
  intros Hr Hc Hlen Hb Hbs Ha Hl. apply word_at_agree, stored_agree.
  assert (disjoint_ranges c (ap_sz A) b s) as Hd.
  { eapply (chunk_disjoint_block _ _ _ _ (pr_struct _ _ _ Hr)); [done|done|].
    intros a' Ha' <-. apply Hb, elem_of_bases. right. eauto. }
  unfold disjoint_ranges in *. lia.
Qed.

Lemma expand_ok_write h p A m pc c bs :
  pool_rep h p A → 0 < m → c ∈ all_chunks A → Z.of_nat (length bs) ≤ ap_sz A →
  expand_ok h p A m pc → expand_ok (stored h c bs) p A m pc.
Proof.
  intros Hr Hm Hc Hlen. pose proof (ps_sz _ _ _ _ (pr_struct _ _ _ Hr)) as [Hsz _].
  assert (∀ node arr i v, fresh_array h p A m node arr → 0 ≤ i < m →
    word_at h (arr + i * ap_sz A) v → word_at (stored h c bs) (arr + i * ap_sz A) v) as Hslot.
  { intros node arr i v (_ & Harr & _ & Hb) Hi. pose proof (array_slot_inside (ap_sz A) i m Hi ltac:(lia)).
    eapply fresh_block_write; [done|done|done|exact Harr|exact Hb|lia|lia]. }
  assert (∀ node arr j, fresh_array h p A m node arr → j < m →
    linked h A arr j → linked (stored h c bs) A arr j) as Hlinked.
  { intros node arr j Hf Hj Hl i Hi. eapply Hslot; [exact Hf|lia|by apply Hl]. }
  assert (∀ node arr, fresh_array h p A m node arr →
    all_linked h A m arr → all_linked (stored h c bs) A m arr) as Hall.
  { intros node arr Hf [Hl Hw]. split; [eapply Hlinked; [exact Hf|lia|done]|].
    eapply Hslot; [exact Hf|lia|done]. }
  assert (∀ node arr, fresh_array h p A m node arr → fresh_array (stored h c bs) p A m node arr) as Hfresh
    by done.
  destruct pc; cbn [expand_ok]; try done; intros Hok; destruct_and! Hok; split_and!;
    eauto 3; try (eapply Hlinked; [eassumption|lia|assumption]).
Qed.

(** ** Stores that do not overlap *)

Lemma stored_comm h a bs b cs :
  disjoint_ranges a (Z.of_nat (length bs)) b (Z.of_nat (length cs)) →
  stored (stored h a bs) b cs = stored (stored h b cs) a bs.
Proof.
  intros Hd. unfold stored. cbn. f_equal. apply map_eq. intros x. rewrite !lookup_store_list.
  unfold disjoint_ranges in Hd. repeat case_decide; done || lia.
Qed.

Lemma with_words_cons h w ws : with_words h (w :: ws) = with_words (stored h w.1 (le_bytes 8 w.2)) ws.
Proof. done. Qed.

Lemma with_words_blocks h ws : blocks (with_words h ws) = blocks h.
Proof. revert h. induction ws as [|w ws IH]; intros h; [done|]. cbn. by rewrite IH. Qed.

Lemma with_words_snoc h ws a v : with_words h (ws ++ [(a, v)]) = stored (with_words h ws) a (le_bytes 8 v).
Proof. unfold with_words. by rewrite foldl_app. Qed.

Lemma accessible_with_words h ws a n : accessible (with_words h ws) a n ↔ accessible h a n.
Proof. unfold accessible. by rewrite with_words_blocks. Qed.

(** None of the words is in the range. *)
Definition words_apart (ws : list (Z * Z)) (a n : Z) : Prop :=
  Forall (λ w, disjoint_ranges w.1 8 a n) ws.

Lemma with_words_comm ws : ∀ h a bs,
  words_apart ws a (Z.of_nat (length bs)) →
  stored (with_words h ws) a bs = with_words (stored h a bs) ws.
Proof.
  induction ws as [|w ws IH]; intros h a bs; [done|]. intros [Hw Hws]%Forall_cons. rewrite !with_words_cons.
  rewrite (IH _ _ _ Hws), stored_comm; [done|]. by rewrite le_bytes_length.
Qed.

Lemma with_words_agree ws : ∀ h a n, words_apart ws a n → agree_on h (with_words h ws) a n.
Proof.
  induction ws as [|w ws IH]; intros h a n; [done|]. intros [Hw Hws]%Forall_cons. rewrite !with_words_cons.
  destruct (IH (stored h w.1 (le_bytes 8 w.2)) a n Hws) as [Hm Ha].
  destruct (stored_agree h w.1 (le_bytes 8 w.2) a n) as [Hm' Ha']; [by rewrite le_bytes_length|].
  split; [intros x Hx; by rewrite (Hm x Hx), (Hm' x Hx)|auto].
Qed.

(** The pending stores are in the pool's structure and in the new node. *)
Lemma pending_apart h p A m pc c n :
  pool_rep h p A → expand_ok h p A m pc → c ∈ all_chunks A → 0 ≤ n ≤ ap_sz A →
  words_apart (pending p A pc) c n.
Proof.
  intros Hr Hok Hc Hn. pose proof (pr_struct _ _ _ Hr) as Hs.
  pose proof (chunk_disjoint_pool _ _ _ _ Hs c Hc) as Hp.
  assert (∀ node arr, fresh_array h p A m node arr → disjoint_ranges c (ap_sz A) node 16) as Hnode.
  { intros node arr ((Hb & Hbs) & _). eapply (chunk_disjoint_block _ _ _ _ Hs); [done|done|].
    intros a Ha <-. apply Hb, elem_of_bases. right. eauto. }
  unfold words_apart. destruct pc; cbn [pending expand_ok] in *; try (by apply Forall_nil_2);
    destruct_and! Hok; specialize (Hnode _ _ ltac:(eassumption)); repeat apply Forall_cons_2;
    try (by apply Forall_nil_2); cbn [fst];
    unfold disjoint_ranges, Pool_free_chunk, ArrayStart_arr, ArrayStart_next, sizeof_Pool in *; lia.
Qed.

(** ** A step *)

(** The pool has a lock, and the mutex is at [mutex]. *)
Definition locked_at (h : heap) (p mutex : Z) : Prop :=
  blocks h !! p = Some sizeof_Pool_locked ∧ word_at h (Pool_lock p) mutex.

Lemma locked_at_frame h h' p A mutex : keeps_pool p A h h' → locked_at h p mutex → locked_at h' p mutex.
Proof.
  intros Hk [Hb Hw]. destruct (Hk p _ ltac:(by left) Hb) as [Hb' Hm]. split; [done|].
  unfold Pool_lock, sizeof_Pool_locked in *. eapply word_at_agree; [|exact Hw].
  split; [intros x Hx; apply Hm; lia|]. intros _. eapply accessible_block; [exact Hb'|lia|lia].
Qed.

Lemma locked_at_head h p mutex v : locked_at h p mutex → locked_at (stored h p (le_bytes 8 v)) p mutex.
Proof.
  intros [Hb Hw]. split; [done|]. apply word_at_stored_ne; [|done]. unfold disjoint_ranges, Pool_lock. lia.
Qed.

Lemma locked_at_chunk h p A c bs mutex :
  pool_rep h p A → c ∈ all_chunks A → Z.of_nat (length bs) ≤ ap_sz A →
  locked_at h p mutex → locked_at (stored h c bs) p mutex.
Proof.
  intros Hr Hc Hlen [Hb Hw]. pose proof (pr_struct _ _ _ Hr) as Hs. split; [done|].
  eapply word_at_agree; [|exact Hw]. apply stored_agree.
  assert (disjoint_ranges c (ap_sz A) p sizeof_Pool_locked) as Hd.
  { eapply (chunk_disjoint_block _ _ _ _ Hs); [done|done|].
    intros a Ha Heq. destruct (ps_pool_ne _ _ _ _ Hs a Ha). congruence. }
  unfold disjoint_ranges, Pool_lock, sizeof_Pool_locked in *. lia.
Qed.

Lemma pending_apart_lock h p A m pc mutex :
  pool_rep h p A → expand_ok h p A m pc → locked_at h p mutex → words_apart (pending p A pc) (Pool_lock p) 8.
Proof.
  intros Hr Hok [Hb _]. pose proof (pr_struct _ _ _ Hr) as Hs.
  assert (∀ node arr, fresh_array h p A m node arr → disjoint_ranges p 32 node 16) as Hnode.
  { intros node arr ((Hn & Hbs) & _). apply (proj2 (ps_wf _ _ _ _ Hs)); [done|done|].
    intros <-. apply Hn. by left. }
  unfold words_apart. destruct pc; cbn [pending expand_ok] in *; try (by apply Forall_nil_2);
    destruct_and! Hok; specialize (Hnode _ _ ltac:(eassumption)); repeat apply Forall_cons_2;
    try (by apply Forall_nil_2); cbn [fst];
    unfold disjoint_ranges, Pool_lock, Pool_free_chunk, ArrayStart_arr, ArrayStart_next in *; lia.
Qed.

(** The last five accesses on their own. *)
Lemma expand_fields_run h p A node arr :
  pool_rep h p A → fresh_node h p A node →
  (store64 (Pool_free_chunk p) arr;;
   store64 (ArrayStart_arr node) arr;;
   starts ← load64 (Pool_array_starts p);
   store64 (ArrayStart_next node) starts;;
   store64 (Pool_array_starts p) node;;
   mret true) h =
  Ok true (with_words h (pending p A (EPublish node arr) ++ [(Pool_array_starts p, node)])).
Proof.
  intros Hr [Hnn Hnb]. pose proof (pr_struct _ _ _ Hr) as Hs.
  destruct (ps_pool _ _ _ _ Hs) as (sp & Hpb & Hsp). unfold sizeof_Pool in Hsp.
  assert (p ≠ node) as Hpn by (intros <-; apply Hnn; by left).
  pose proof (proj2 (ps_wf _ _ _ _ Hs) _ _ _ _ Hpb Hnb Hpn) as Hd. unfold sizeof_ArrayStart in *.
  assert (accessible h p 8 ∧ accessible h (p + 8) 8) as [Hp0 Hp8].
  { split; (eapply accessible_block; [exact Hpb|lia..]). }
  assert (accessible h node 8 ∧ accessible h (node + 8) 8) as [Hn0 Hn8].
  { split; (eapply accessible_block; [exact Hnb|lia..]). }
  layout. erewrite bind_Ok by (apply store64_run; exact Hp0).
  erewrite bind_Ok by (apply store64_run; exact Hn8).
  erewrite bind_Ok.
  2: { apply word_at_load. do 2 (apply word_at_stored_ne; [unfold disjoint_ranges; lia|]). apply Hs. }
  erewrite bind_Ok by (apply store64_run; exact Hn0).
  by erewrite bind_Ok by (apply store64_run; exact Hp8).
Qed.

Section expand_proof.
Context `{AllocatorLaws}.
Context (h : heap) (p : Z) (A : apool) (l : held) (m : Z).
Context (Hok : session_ok h p A l) (Hm : 0 < m) (Hfit : m * ap_sz A < 2 ^ 64).

Let Hr : pool_rep h p A := so_rep _ _ _ _ Hok.
Let Hs : pool_struct h p (ap_sz A) (ap_arrays A) := pr_struct _ _ _ Hr.

Definition expand_post (pc pc' : expand_pc) (h2 : heap) : Prop :=
  ∃ A' h', h2 = with_words h' (pending p A' pc') ∧ session_ok h' p A' l ∧ expand_ok h' p A' m pc' ∧
    (A' = A ∨ ∃ a, A' = ap_grow a A) ∧ (expand_left m pc' < expand_left m pc)%nat ∧
    ∀ mutex, locked_at h p mutex → locked_at h' p mutex.

Lemma post_kept pc pc' h' :
  pending p A pc' = [] → heap_wf h' → keeps_pool p A h h' → expand_ok h' p A m pc' →
  (expand_left m pc' < expand_left m pc)%nat → expand_post pc pc' h'.
Proof.
  intros Hpend Hwf Hk Hex Hleft. exists A, h'. rewrite Hpend.
  split_and!; [done|by eapply session_frame|done|by left|done|]. intros mutex. by eapply locked_at_frame.
Qed.

Lemma post_same pc pc' :
  pending p A pc' = [] → expand_ok h p A m pc' → (expand_left m pc' < expand_left m pc)%nat →
  expand_post pc pc' h.
Proof. intros. apply post_kept; try done. apply Hs. Qed.

Lemma post_word pc pc' a v :
  pending p A pc' = pending p A pc ++ [(a, v)] → expand_ok h p A m pc' →
  (expand_left m pc' < expand_left m pc)%nat →
  expand_post pc pc' (stored (with_words h (pending p A pc)) a (le_bytes 8 v)).
Proof.
  intros Hpend Hex Hleft. exists A, h. rewrite Hpend, with_words_snoc. split_and!; try done. by left.
Qed.

(** *** The allocations *)

Lemma bases_fresh b : blocks h !! b = None → b ∉ bases p (ap_arrays A).
Proof. intros Hb Hin. destruct (ps_bases_live _ _ _ _ b Hs Hin) as [s Hbs]. congruence. Qed.

Lemma expand_start : wp (expand_step p m EStart) (expand_post EStart) h.
Proof.
  cbn [expand_step]. apply wp_bind, wp_malloc; [intros Hnone|intros node Hnode]; apply wp_ret.
  - cbn [Z.eqb NULL]. apply post_kept; [done|apply Hs|by apply keeps_pool_preserves|done|cbn; lia].
  - destruct (alloc_facts h h sizeof_ArrayStart node (ps_wf _ _ _ _ Hs) ltac:(done) ltac:(done) Hnode)
      as (Hnnn & Hn0 & _ & Hwf1 & Hpr1 & Hnb).
    rewrite (proj2 (Z.eqb_neq node NULL) Hnnn).
    apply post_kept; [done|done|by apply keeps_pool_preserves| |cbn; lia].
    split; [by apply bases_fresh|done].
Qed.

Lemma expand_loop_left node arr i :
  0 ≤ i → (expand_left m (expand_loop m node arr i) ≤ 8 + 3 * Z.to_nat (m - 1 - i))%nat.
Proof. intros Hi. unfold expand_loop. case_match; cbn [expand_left]; lia. Qed.

Lemma expand_loop_ok h' node arr i :
  0 ≤ i ≤ m - 1 → fresh_array h' p A m node arr → linked h' A arr i →
  expand_ok h' p A m (expand_loop m node arr i) ∧ pending p A (expand_loop m node arr i) = [].
Proof.
  intros Hi Hf Hl. unfold expand_loop. destruct (Z.ltb_spec i (m - 1)); cbn; split_and!; try done; [lia|].
  by replace (m - 1) with i by lia.
Qed.

Lemma expand_array node :
  fresh_node h p A node →
  wp (expand_step p m (ESized node (ap_sz A))) (expand_post (ESized node (ap_sz A))) h.
Proof.
  intros [Hnn Hnb]. pose proof (ps_sz _ _ _ _ Hs) as [Hsz _]. cbn [expand_step].
  rewrite uwrap_small by nia. apply wp_bind, wp_malloc; [intros Hnone|intros arr Harr]; apply wp_ret.
  - cbn [Z.eqb NULL]. apply post_kept; [done|apply Hs|by apply keeps_pool_preserves|done|cbn; lia].
  - destruct (alloc_facts h h (m * ap_sz A) arr (ps_wf _ _ _ _ Hs) ltac:(done) ltac:(nia) Harr)
      as (Hann & Ha0 & _ & Hwf1 & Hpr1 & Hab).
    rewrite (proj2 (Z.eqb_neq arr NULL) Hann).
    destruct (expand_loop_ok (allocd h arr (m * ap_sz A)) node arr 0) as [Hex Hpend]; [lia| | |].
    + split_and!; [split; [done|by apply Hpr1]|by apply bases_fresh|congruence|done].
    + intros i Hi. lia.
    + apply post_kept; [done|done|by apply keeps_pool_preserves|done|].
      pose proof (expand_loop_left node arr 0). cbn [expand_left]. lia.
Qed.

Lemma expand_undo node : fresh_node h p A node → wp (expand_step p m (EUndo node)) (expand_post (EUndo node)) h.
Proof.
  intros [Hnn Hnb]. pose proof (proj1 (ps_wf _ _ _ _ Hs) _ _ Hnb). cbn [expand_step].
  apply wp_bind, (wp_cfree _ _ sizeof_ArrayStart); [unfold NULL; lia|done|]. apply wp_ret.
  apply post_kept; [done|apply freed_wf, Hs| |done|cbn; lia].
  intros b s Hb Hbs. cbn. rewrite lookup_delete_ne by (intros ->; done). done.
Qed.

(** *** The loop and the end of the list *)

Section linking.
Context (node arr : Z) (Hf : fresh_array h p A m node arr).

Lemma array_facts :
  8 ≤ ap_sz A ∧ 0 < arr ∧ arr + m * ap_sz A < 2 ^ 64 ∧ blocks h !! arr = Some (m * ap_sz A) ∧
  arr ∉ bases p (ap_arrays A).
Proof.
  destruct Hf as (_ & Ha & _ & Hab). pose proof (proj1 (ps_wf _ _ _ _ Hs) _ _ Hab).
  pose proof (ps_sz _ _ _ _ Hs). split_and!; done || lia.
Qed.

(** A store into slot [j] of the new array. *)
Lemma slot_kept j v :
  0 ≤ j < m → 0 ≤ v < 2 ^ 64 → linked h A arr j →
  let h' := stored h (arr + j * ap_sz A) (le_bytes 8 v) in
  accessible h (arr + j * ap_sz A) 8 ∧ heap_wf h' ∧ keeps_pool p A h h' ∧
  fresh_array h' p A m node arr ∧ word_at h' (arr + j * ap_sz A) v ∧ linked h' A arr j.
Proof.
  intros Hj Hv Hl. destruct array_facts as (Hsz & Hpos & Hend & Hab & Ha).
  destruct (slot_store arr m (ap_sz A)) with (h := h) (j := j) (h' := h) (v := v)
    as (Hacc & Hw & _ & _ & _ & Hl'); try (done || lia).
  pose proof (array_slot_inside (ap_sz A) j m Hj ltac:(lia)).
  split_and!; try done; [apply Hs|].
  eapply keeps_pool_store; [apply Hs|exact Ha|exact Hab|lia|rewrite le_bytes_length; lia].
Qed.

Lemma expand_link_step i :
  0 ≤ i < m - 1 → linked h A arr i →
  let pc := ELinkStore node arr i (arr + (i + 1) * ap_sz A) (arr + i * ap_sz A) in
  wp (expand_step p m pc) (expand_post pc) h.
Proof.
  intros Hi Hl. cbn zeta. destruct array_facts as (Hsz & Hpos & Hend & _).
  pose proof (array_slot_inside (ap_sz A) (i + 1) m ltac:(lia) ltac:(lia)).
  destruct (slot_kept i (arr + (i + 1) * ap_sz A)) as (Hacc & Hwf & Hk & Hf' & Hw & Hl'); [lia|lia|done|].
  cbn [expand_step]. apply wp_bind, wp_store64; [done|]. apply wp_ret.
  destruct (expand_loop_ok (stored h (arr + i * ap_sz A) (le_bytes 8 (arr + (i + 1) * ap_sz A))) node arr (i + 1))
    as [Hex Hpend]; [lia|done| |].
  - intros k Hk'. destruct (decide (k = i)) as [->|]; [done|]. apply Hl'. lia.
  - apply post_kept; try done. pose proof (expand_loop_left node arr (i + 1)). cbn [expand_left]. lia.
Qed.

Lemma expand_last_step :
  linked h A arr (m - 1) →
  let pc := ELast node arr (arr + (m - 1) * ap_sz A) (head_chunk (ap_free A)) in
  wp (expand_step p m pc) (expand_post pc) h.
Proof.
  intros Hl. cbn zeta. pose proof (head_chunk_range _ _ _ _ _ Hs (pr_free _ _ _ Hr)) as Hhr.
  destruct (slot_kept (m - 1) (head_chunk (ap_free A))) as (Hacc & Hwf & Hk & Hf' & Hw & Hl'); [lia|lia|done|].
  cbn [expand_step]. apply wp_bind, wp_store64; [done|]. apply wp_ret.
  apply post_kept; [done|done|done| |cbn; lia]. split; [done|by split].
Qed.
End linking.

(** *** The last store: the pool is the grown one *)

Lemma expand_publish node arr :
  fresh_array h p A m node arr → all_linked h A m arr →
  wp (expand_step p m (EPublish node arr)) (expand_post (EPublish node arr))
     (with_words h (pending p A (EPublish node arr))).
Proof.
  intros Hf [Hl Hlast]. destruct Hf as ((Hnn & Hnb) & Han & Hne & Hab).
  assert (∀ b, b ∈ bases p (ap_arrays A) → b ≠ node ∧ b ≠ arr) as Hnew by (intros b Hb; split; congruence).
  destruct (expand_layout h p A node arr m Hr Hnew Hne Hnb Hab) as (_ & (sp & Hpb & Hsp) & ? & ? & ? & _).
  unfold sizeof_Pool in Hsp.
  destruct (proj1 (wp_run _ _ _) (wp_expand_fields h h p A node arr m Hr Hm Hnew Hne Hnb Hab eq_refl
    ltac:(done) Hl Hlast (ps_starts_field _ _ _ _ Hs))) as (r & h8 & Hrun & Hr8 & Hrep & Hbl & Hmem).
  rewrite (expand_fields_run h p A node arr Hr) in Hrun by done.
  assert (with_words h (pending p A (EPublish node arr) ++ [(Pool_array_starts p, node)]) = h8) as Hh8
    by congruence.
  cbn [expand_step]. apply wp_bind, wp_store64.
  { apply accessible_with_words. eapply accessible_block; [exact Hpb|layout; lia..]. }
  apply wp_ret. rewrite <- with_words_snoc, Hh8.
  exists (ap_grow (Array node arr m) A), h8. split_and!; [done| |done|by right; eexists|cbn; lia|].
  - eapply session_grow; [exact Hok|done|]. intros b s x Hb Hbs Hbp Hx. destruct (Hnew b Hb). by apply (Hmem b s).
  - intros mutex [Hb Hw]. split; [by rewrite Hbl|]. rewrite <- Hh8.
    eapply word_at_agree; [|exact Hw]. apply with_words_agree.
    pose proof (proj2 (ps_wf _ _ _ _ Hs) _ _ _ _ Hb Hnb ltac:(apply Hnew; by left)) as Hd.
    unfold Pool_lock, sizeof_Pool_locked, words_apart in *. cbn [pending app]. layout.
    repeat apply Forall_cons_2; try (by apply Forall_nil_2); cbn [fst]; unfold disjoint_ranges; lia.
Qed.

(** *** The loads *)

Lemma expand_load_sz (f : Z → expand_pc) pc :
  pending p A (f (ap_sz A)) = [] → expand_ok h p A m (f (ap_sz A)) →
  (expand_left m (f (ap_sz A)) < expand_left m pc)%nat →
  wp (chunk_sz ← load64 (Pool_chunk_sz p); mret (f chunk_sz)) (expand_post pc) h.
Proof.
  intros Hp Hex Hl. apply wp_bind, (wp_load64 _ _ (ap_sz A)); [apply Hs|]. by apply wp_ret, post_same.
Qed.

(** A store that stays pending. *)
Lemma expand_store pc pc' a v :
  accessible h a 8 → pending p A pc' = pending p A pc ++ [(a, v)] → expand_ok h p A m pc' →
  (expand_left m pc' < expand_left m pc)%nat →
  wp (store64 a v;; mret pc') (expand_post pc) (with_words h (pending p A pc)).
Proof.
  intros Hacc Hpend Hex Hl. apply wp_bind, wp_store64; [by apply accessible_with_words|].
  apply wp_ret. by apply post_word.
Qed.

Lemma expand_load_starts node arr :
  fresh_array h p A m node arr → all_linked h A m arr →
  wp (expand_step p m (EStarts node arr)) (expand_post (EStarts node arr))
     (with_words h (pending p A (EStarts node arr))).
Proof.
  intros Hf Hl. destruct Hf as ((Hnn & Hnb) & Hf). destruct (ps_pool _ _ _ _ Hs) as (sp & Hpb & Hsp).
  assert (p ≠ node) as Hpn by (intros <-; apply Hnn; by left).
  pose proof (proj2 (ps_wf _ _ _ _ Hs) _ _ _ _ Hpb Hnb Hpn).
  cbn [expand_step]. apply wp_bind, (wp_load64 _ _ (head_node (ap_arrays A))).
  - eapply word_at_agree; [apply with_words_agree|apply Hs]. unfold words_apart. cbn [pending]. layout.
    repeat apply Forall_cons_2; try (by apply Forall_nil_2); cbn [fst]; unfold disjoint_ranges; lia.
  - apply wp_ret. exists A, h. split_and!; try done; [by left|cbn; lia].
Qed.

(** Every step of it, the other threads having written into their chunks only. *)
Lemma wp_expand_pc pc :
  expand_ok h p A m pc → (∀ b, pc ≠ EDone b) →
  wp (expand_step p m pc) (expand_post pc) (with_words h (pending p A pc)).
Proof.
  intros Hex Hnd. pose proof (ps_sz _ _ _ _ Hs) as [Hsz _].
  assert (accessible h (Pool_free_chunk p) 8) as Hfc by apply (pr_head _ _ _ Hr).
  assert (∀ node o, fresh_node h p A node → 0 ≤ o ≤ 8 → accessible h (node + o) 8) as Hacc.
  { intros node o [_ Hnb] Ho. unfold sizeof_ArrayStart in Hnb. eapply accessible_block; [exact Hnb|lia..]. }
  destruct pc as [|node|node sz|node|node arr i|node arr i next|node arr i next slot|node arr
    |node arr last|node arr last fc|node arr|node arr|node arr|node arr starts|node arr|b];
    cbn [expand_ok] in Hex.
  - apply expand_start.
  - by apply (expand_load_sz (ESized node)); [|split|cbn; lia].
  - destruct Hex as [Hex ->]. by apply expand_array.
  - by apply expand_undo.
  - destruct Hex as (Hf & Hi & Hl). destruct (array_facts node arr Hf) as (_ & ? & ? & _).
    apply (expand_load_sz (λ sz, ELinkNext node arr i (u64 (arr + u64 (u64 (i + 1) * sz)))));
      [done|split_and!; [done|lia|lia|done|apply (next_addr arr m); lia]|cbn; lia].
  - destruct Hex as (Hf & Hi & Hl & ->). destruct (array_facts node arr Hf) as (_ & ? & ? & _).
    apply (expand_load_sz (λ sz, ELinkStore node arr i _ (u64 (arr + u64 (i * sz)))));
      [done|split_and!; [done|lia|lia|done|done|apply (slot_addr arr m); lia]|cbn; lia].
  - destruct Hex as (Hf & Hi & Hl & -> & ->). by apply expand_link_step.
  - destruct Hex as (Hf & Hl). destruct (array_facts node arr Hf) as (_ & ? & ? & _).
    apply (expand_load_sz (λ sz, EEndSized node arr (u64 (arr + u64 ((m - 1) * sz)))));
      [done|split_and!; [done|done|apply (slot_addr arr m); lia]|cbn; lia].
  - destruct Hex as (Hf & Hl & ->). cbn [expand_step].
    apply wp_bind, (wp_load64 _ _ (head_chunk (ap_free A))); [apply Hr|].
    by apply wp_ret, post_same; [|split_and!|cbn; lia].
  - destruct Hex as (Hf & Hl & -> & ->). by apply expand_last_step.
  - apply expand_store; [done|done|done|cbn; lia].
  - apply expand_store; [|done|done|cbn; lia]. apply Hacc; [apply Hex|lia].
  - destruct Hex. by apply expand_load_starts.
  - destruct Hex as (Hf & Hl & ->). apply expand_store; [|done|done|cbn; lia].
    unfold ArrayStart_next. rewrite <- (Z.add_0_r node). apply Hacc; [apply Hf|lia].
  - destruct Hex. by apply expand_publish.
  - by destruct (Hnd b).
Qed.
End expand_proof.

(** ** Alone, the steps are [pool_expand] *)

Section alone.
Context `{Allocator} (p m : Z).

Lemma bind_inv {S X Y} (c : M S X) (k : X → M S Y) s y s' :
  (c ≫= k) s = Ok y s' → ∃ x s1, c s = Ok x s1 ∧ k x s1 = Ok y s'.
Proof. rewrite bind_run. destruct (c s) as [x s1| | |]; [|done..]. eauto. Qed.

Lemma load64_same a h v h' : load64 a h = Ok v h' → h' = h.
Proof.
  intros (bs & h1 & Hl & [= _ <-])%bind_inv. unfold load_bytes in Hl. by repeat case_match; simplify_eq.
Qed.

(** One step, then the others. *)
Lemma expand_steps_S k pc h pc' h' :
  expand_step p m pc h = Ok pc' h' → expand_steps (S k) p m pc h = expand_steps k p m pc' h'.
Proof. intros Hs. cbn [expand_steps]. by rewrite (bind_Ok _ _ _ _ _ Hs). Qed.

Lemma expand_steps_done k b h : expand_steps k p m (EDone b) h = Ok (EDone b) h.
Proof. by induction k. Qed.

Lemma expand_steps_loop node arr k : ∀ n i h h',
  i + Z.of_nat n = m - 1 →
  for_from n i (λ i, sz ← load64 (Pool_chunk_sz p);
    store64 (u64 (arr + u64 (i * sz))) (u64 (arr + u64 (u64 (i + 1) * sz)))) h = Ok tt h' →
  expand_steps (3 * n + k) p m (expand_loop m node arr i) h = expand_steps k p m (EEnd node arr) h'.
Proof.
  induction n as [|n IH]; intros i h h' Hi; cbn [for_from].
  - intros [= <-]. cbn [Nat.mul Nat.add]. unfold expand_loop. by rewrite (proj2 (Z.ltb_ge _ _)) by lia.
  - intros ([] & h1 & Hbody & Hrest)%bind_inv. apply bind_inv in Hbody as (sz & h2 & Hload & Hst).
    pose proof (load64_same _ _ _ _ Hload) as ->. unfold expand_loop at 1.
    rewrite (proj2 (Z.ltb_lt _ _)) by lia. replace (3 * S n + k)%nat with (S (S (S (3 * n + k)))) by lia.
    erewrite expand_steps_S by (exact (bind_Ok _ _ _ _ _ Hload)).
    erewrite expand_steps_S by (exact (bind_Ok _ _ _ _ _ Hload)).
    erewrite expand_steps_S by (exact (bind_Ok _ _ _ _ _ Hst)).
    apply (IH (i + 1) h1 h'); [lia|exact Hrest].
Qed.

(** Without other threads, the steps are [pool_expand]. *)
Lemma expand_steps_alone h b h' :
  p ≠ NULL → 0 < m → pool_expand p m h = Ok b h' →
  expand_steps (expand_left m EStart) p m EStart h = Ok (EDone b) h'.
Proof.
  intros Hp Hm. unfold pool_expand. rewrite (proj2 (Z.eqb_neq _ _) Hp), (proj2 (Z.leb_gt _ _) Hm).
  cbn [orb]. intros (node & h1 & Hnode & Hrun)%bind_inv.
  replace (expand_left m EStart) with (S (S (S (3 * Z.to_nat (m - 1) + 8)))) by (cbn; lia).
  erewrite expand_steps_S by (exact (bind_Ok _ _ _ _ _ Hnode)).
  destruct (node =? NULL); [injection Hrun as <- <-; apply expand_steps_done|].
  apply bind_inv in Hrun as (sz & h2 & Hload & Hrun). pose proof (load64_same _ _ _ _ Hload) as ->.
  erewrite expand_steps_S by (exact (bind_Ok _ _ _ _ _ Hload)).
  apply bind_inv in Hrun as (arr & h3 & Harr & Hrun).
  erewrite expand_steps_S by (exact (bind_Ok _ _ _ _ _ Harr)).
  destruct (arr =? NULL).
  { apply bind_inv in Hrun as ([] & h4 & Hfree & [= <- <-]). rewrite Nat.add_comm. cbn [Nat.add].
    erewrite expand_steps_S by (exact (bind_Ok _ _ _ _ _ Hfree)). apply expand_steps_done. }
  apply bind_inv in Hrun as ([] & h4 & Hlink & Hrun).
  rewrite (expand_steps_loop node arr 8 _ 0 h3 h4) by (lia || exact Hlink). clear Hlink.
  apply bind_inv in Hrun as (sz' & h5 & Hload' & Hrun). pose proof (load64_same _ _ _ _ Hload') as ->.
  erewrite expand_steps_S by (exact (bind_Ok _ _ _ _ _ Hload')).
  apply bind_inv in Hrun as (fc & h6 & Hfc & Hrun).
  erewrite expand_steps_S by (exact (bind_Ok _ _ _ _ _ Hfc)).
  do 3 (apply bind_inv in Hrun as ([] & ? & Hst & Hrun);
        erewrite expand_steps_S by (exact (bind_Ok _ _ _ _ _ Hst)); clear Hst).
  apply bind_inv in Hrun as (starts & h7 & Hstarts & Hrun).
  erewrite expand_steps_S by (exact (bind_Ok _ _ _ _ _ Hstarts)).
  do 2 (apply bind_inv in Hrun as ([] & ? & Hst & Hrun);
        erewrite expand_steps_S by (exact (bind_Ok _ _ _ _ _ Hst)); clear Hst).
  by injection Hrun as <- <-.
Qed.
End alone.
