(* ===== verification/LibpoolRace.v ===== *)
(** Two threads in [pool_alloc] at once.  The library is built without LIBPOOL_THREAD_SAFE, so no
    lock is taken, while src/client/main.cpp and src/server/main.cpp run the handlers of the
    io_context, which allocate and free, on a thread of their own beside main's.

    Each thread advances by one access to memory at a time: the test of free_chunk, the
    read of the result, the read of free_chunk and of the next pointer it leads to, the store. *)

From S2P Require Import Prelude Bytes CMem Libpool LibpoolLemmas LibpoolDec LibpoolSpec.
Local Open Scope Z_scope.

Inductive alloc_pc : Type :=
| AStart
| AChecked
| AResult (result : Z)
| AHead (result free_chunk : Z)
| ANext (result next : Z)
| ADone (result : Z).

Definition alloc_step (pool : Z) (pc : alloc_pc) : M heap alloc_pc :=
  match pc with
  | AStart =>
      free_chunk ← load64 (Pool_free_chunk pool);
      mret (if free_chunk =? NULL then ADone NULL else AChecked)
  | AChecked => result ← load64 (Pool_free_chunk pool); mret (AResult result)
  | AResult result => free_chunk ← load64 (Pool_free_chunk pool); mret (AHead result free_chunk)
  | AHead result free_chunk => next ← load64 free_chunk; mret (ANext result next)
  | ANext result next => store64 (Pool_free_chunk pool) next;; mret (ADone result)
  | ADone _ => mret pc
  end.

(** Run two threads by a schedule: [true] is the first one's turn. *)
Fixpoint race (pool : Z) (sched : list bool) (t1 t2 : alloc_pc) : M heap (alloc_pc * alloc_pc) :=
  match sched with
  | [] => mret (t1, t2)
  | true :: l => t1' ← alloc_step pool t1; race pool l t1' t2
  | false :: l => t2' ← alloc_step pool t2; race pool l t1 t2'
  end.

Section race.
Context (h : heap) (p : Z) (A : apool) (c : Z) (f : list Z).
Context (Hr : pool_rep h p A) (Hf : ap_free A = c :: f).

Lemma start_run : alloc_step p AStart h = Ok AChecked h.
Proof.
  pose proof (pr_head _ _ _ Hr) as Hh. rewrite Hf in Hh. cbn [alloc_step].
  erewrite bind_Ok by (by apply word_at_load). cbn beta. change (head_chunk (c :: f)) with c.
  rewrite (pool_rep_free_nonnull h p A c Hr); [done|]. apply (pr_free _ _ _ Hr). rewrite Hf. left.
Qed.

Lemma checked_run : alloc_step p AChecked h = Ok (AResult c) h.
Proof.
  pose proof (pr_head _ _ _ Hr) as Hh. rewrite Hf in Hh. cbn [alloc_step].
  by erewrite bind_Ok by (by apply word_at_load).
Qed.

Lemma result_run r : alloc_step p (AResult r) h = Ok (AHead r c) h.
Proof.
  pose proof (pr_head _ _ _ Hr) as Hh. rewrite Hf in Hh. cbn [alloc_step].
  by erewrite bind_Ok by (by apply word_at_load).
Qed.

Lemma head_run r : alloc_step p (AHead r c) h = Ok (ANext r (head_chunk f)) h.
Proof.
  pose proof (pr_chain _ _ _ Hr) as Hc. rewrite Hf in Hc. destruct Hc as [Hw _]. cbn [alloc_step].
  by erewrite bind_Ok by (by apply word_at_load).
Qed.
End race.

Lemma next_run h p A r n :
  pool_rep h p A → alloc_step p (ANext r n) h = Ok (ADone r) (stored h p (le_bytes 8 n)).
Proof.
  intros Hr. cbn [alloc_step]. erewrite bind_Ok; [done|]. apply store64_run.
  rewrite <- (Z.add_0_r (Pool_free_chunk p)). unfold Pool_free_chunk.
  apply (ps_pool_accessible _ _ _ _ (pr_struct _ _ _ Hr)). lia.
Qed.

(** One thread alone, from its start to its end, is [pool_alloc]. *)
Lemma alone h p A c f t l :
  pool_rep h p A → ap_free A = c :: f →
  race p (replicate 5 true ++ l) AStart t h =
    race p l (ADone c) t (stored h p (le_bytes 8 (head_chunk f))).
Proof.
  intros Hr Hf. cbn [replicate app race].
  rewrite (bind_Ok _ _ _ _ _ (start_run h p A c f Hr Hf)).
  rewrite (bind_Ok _ _ _ _ _ (checked_run h p A c f Hr Hf)).
  rewrite (bind_Ok _ _ _ _ _ (result_run h p A c f Hr Hf c)).
  rewrite (bind_Ok _ _ _ _ _ (head_run h p A c f Hr Hf c)).
  by rewrite (bind_Ok _ _ _ _ _ (next_run h p A _ _ Hr)).
Qed.

(** A store that is repeated. *)
Lemma stored_twice h a bs : stored (stored h a bs) a bs = stored h a bs.
Proof.
  unfold stored. cbn. f_equal. apply map_eq. intros x. rewrite !lookup_store_list.
  by case_decide.
Qed.

Lemma alone_second h p A c f t :
  pool_rep h p A → ap_free A = c :: f →
  race p (replicate 5 false) t AStart h =
    Ok (t, ADone c) (stored h p (le_bytes 8 (head_chunk f))).
Proof.
  intros Hr Hf. cbn [replicate race].
  rewrite (bind_Ok _ _ _ _ _ (start_run h p A c f Hr Hf)).
  rewrite (bind_Ok _ _ _ _ _ (checked_run h p A c f Hr Hf)).
  rewrite (bind_Ok _ _ _ _ _ (result_run h p A c f Hr Hf c)).
  rewrite (bind_Ok _ _ _ _ _ (head_run h p A c f Hr Hf c)).
  by rewrite (bind_Ok _ _ _ _ _ (next_run h p A _ _ Hr)).
Qed.

(** Two threads that allocate at the same time can be given the same chunk: when their
    accesses alternate, both get the first free chunk and the pool has lost only one.  When one
    runs after the other, the first gets what [pool_alloc] returns, and the second does not get
    that chunk. *)
Theorem pool_alloc_race h p A c c' f :
  pool_rep h p A → ap_free A = c :: c' :: f →
  (∃ h', race p (concat (replicate 5 [true; false])) AStart AStart h =
           Ok (ADone c, ADone c) h' ∧
         pool_rep h' p (APool (ap_sz A) (c' :: f) (ap_arrays A))) ∧
  (∃ h1 h2, pool_alloc p h = Ok c h1 ∧
     race p (replicate 5 true ++ replicate 5 false) AStart AStart h =
       Ok (ADone c, ADone c') h2 ∧ c ≠ c').
Proof.
  intros Hr Hf. pose proof (pool_alloc_rep _ _ _ _ _ Hr Hf) as Hr1. split.
  - eexists. cbn [replicate concat app race].
    do 2 rewrite (bind_Ok _ _ _ _ _ (start_run h p A c _ Hr Hf)).
    do 2 rewrite (bind_Ok _ _ _ _ _ (checked_run h p A c _ Hr Hf)).
    do 2 rewrite (bind_Ok _ _ _ _ _ (result_run h p A c _ Hr Hf c)).
    do 2 rewrite (bind_Ok _ _ _ _ _ (head_run h p A c _ Hr Hf c)).
    rewrite (bind_Ok _ _ _ _ _ (next_run h p A _ _ Hr)).
    rewrite (bind_Ok _ _ _ _ _ (next_run _ p _ _ _ Hr1)). split; [reflexivity|].
    by rewrite stored_twice.
  - eexists _, _. split; [by eapply pool_alloc_run|]. split.
    + etransitivity; [exact (alone h p A c (c' :: f) AStart (replicate 5 false) Hr Hf)|].
      by rewrite (alone_second _ p _ c' f (ADone c) Hr1 eq_refl).
    + intros ->. pose proof (pr_nodup _ _ _ Hr) as Hn. rewrite Hf in Hn.
      apply NoDup_cons in Hn as [Hn _]. apply Hn. by left.
Qed.

(** ** pool_available beside the other functions

    It takes no lock in any build, so that its accesses fall between those of others. *)

Inductive avail_pc : Type :=
| VStart
| VAt (free_chunk available : Z).    (* the head of the while loop *)

Definition avail_step (pool : Z) (pc : avail_pc) : M heap avail_pc :=
  match pc with
  | VStart => free_chunk ← load64 (Pool_free_chunk pool); mret (VAt free_chunk 0)
  | VAt free_chunk available =>
      if free_chunk =? NULL then mret pc else
      next ← load64 free_chunk;
      mret (VAt next (u64 (available + 1)))
  end.

(** A chunk is allocated, and written, while its list is being counted: the count goes on at the
    address that the first eight bytes of the user's data happen to be. *)
Lemma pool_available_race h p A c f v :
  pool_rep h p A → ap_free A = c :: f → 0 ≤ v < 2 ^ 64 →
  ∃ h', (pc ← avail_step p VStart;
         ptr ← pool_alloc p; store64 ptr v;;
         pc ← avail_step p pc; mret pc) h = Ok (VAt v 1) h' ∧
        (v ≠ NULL → ¬ accessible h v 8 → avail_step p (VAt v 1) h' = UB (ub_access v)).
Proof.
  intros Hr Hf Hv. pose proof (pr_struct _ _ _ Hr) as Hs. pose proof (ps_sz _ _ _ _ Hs) as [Hsz _].
  pose proof (pr_head _ _ _ Hr) as Hh. rewrite Hf in Hh.
  assert (c ∈ ap_free A) as Hin by (rewrite Hf; by left).
  set (h1 := stored h p (le_bytes 8 (head_chunk f))).
  assert (accessible h1 c 8) as Hacc.
  { apply accessible_stored. eapply (chunk_accessible _ _ _ _ Hs); [by apply (pr_free _ _ _ Hr)|lia]. }
  exists (stored h1 c (le_bytes 8 v)). split.
  - cbn [avail_step]. rewrite bind_run, (bind_Ok _ _ _ _ _ (word_at_load _ _ _ Hh)), ret_run.
    rewrite (bind_Ok _ _ _ _ _ (pool_alloc_run _ _ _ _ _ Hr Hf)).
    rewrite (bind_Ok _ _ _ _ _ (store64_run h1 c v Hacc)). cbn [avail_step]. change (head_chunk (c :: f)) with c.
    rewrite (pool_rep_free_nonnull _ _ _ c Hr) by (by apply (pr_free _ _ _ Hr)).
    by rewrite bind_run, (bind_Ok _ _ _ _ _ (word_at_load _ _ _ (stored_word h1 c v Hacc Hv))).
  - intros Hnn Hna. cbn [avail_step]. rewrite (proj2 (Z.eqb_neq _ _) Hnn).
    apply bind_UB, bind_UB. unfold load_bytes. by rewrite bool_decide_false.
Qed.

(** ** Witness *)

Lemma pool_alloc_race_witness :
  ∃ h', race demo_pool (concat (replicate 5 [true; false])) AStart AStart demo_heap =
        Ok (ADone 96, ADone 96) h'.
Proof.
  destruct (pool_alloc_race demo_heap demo_pool demo_apool 96 120 [144] demo_rep eq_refl)
    as [(h' & Hrun & _) _].
  exists h'. exact Hrun.
Defined.
