(* ===== verification/LibpoolLocked.v ===== *)
(** libpool built with LIBPOOL_THREAD_SAFE: [pool_alloc], [pool_free] and [pool_expand] take the
    pool's mutex.

    Any number of threads use one pool.  A thread that is not inside libpool asks for a chunk,
    gives one of its own back, asks for the pool to be expanded, or writes into one of its own
    chunks; inside libpool it advances by one access to memory, one call of the allocation
    functions or one operation on the mutex at a time, so that every interleaving of these is a
    schedule.  The read of [pool->lock] before each operation on the mutex is such a step: what it
    finds is the address of the mutex, and an operation on any other address is undefined, as is
    unlocking a mutex that another thread owns.  A schedule also says, for each call, whether
    pthread_mutex_lock reports an error; pthread_mutex_unlock by the owner succeeds. *)

From S2P Require Import Prelude Bytes CMem Libpool LibpoolLemmas LibpoolDec LibpoolSpec LibpoolLife.
From S2P Require Import LibpoolClient LibpoolRace LibpoolExpand.
Local Open Scope Z_scope.

(** ** One call, access by access *)

(** [pool_free] after the lock is taken; [alloc_step] and [expand_step] are the same for
    [pool_alloc] and [pool_expand]. *)
Inductive free_pc : Type :=
| FStart
| FLoaded (free_chunk : Z)
| FLinked
| FDone.

Definition free_step (pool ptr : Z) (pc : free_pc) : M heap free_pc :=
  match pc with
  | FStart => free_chunk ← load64 (Pool_free_chunk pool); mret (FLoaded free_chunk)
  | FLoaded free_chunk => store64 ptr free_chunk;; mret FLinked
  | FLinked => store64 (Pool_free_chunk pool) ptr;; mret FDone
  | FDone => mret pc
  end.

(** ** Threads *)

Inductive call : Type :=
| CallAlloc
| CallFree (ptr : Z)
| CallExpand (extra_sz : Z).

Inductive tpc : Type :=
| TIdle
| TLock (c : call) (lock : Z)              (* pool->lock was read; to lock it *)
| TAlloc (pc : alloc_pc)
| TFree (ptr : Z) (pc : free_pc)
| TExpand (extra_sz : Z) (pc : expand_pc)
| TUnlock (result lock : Z).               (* pool->lock was read; to unlock it, and return *)

(** A thread, with the chunks it holds and the bytes it wrote into each. *)
Record thread := Thread { t_pc : tpc; t_held : held }.

Inductive request : Type :=
| RAlloc
| RFree (k : nat)                     (* the k-th chunk the thread holds *)
| RExpand (extra_sz : Z)
| RWrite (k : nat) (bs : list Z).

Record lsys := LSys {
  lheap : heap;
  mutex : Z;                          (* its address *)
  owner : option nat;                 (* and the thread that owns it *)
  threads : list thread;
  lost : held                         (* given to a pool_free whose lock failed *)
}.

Definition lift_heap {A} (m : M heap A) : M lsys A := λ s,
  match m (lheap s) with
  | Ok a h' => Ok a (LSys h' (mutex s) (owner s) (threads s) (lost s))
  | Throw e h' => Throw e (LSys h' (mutex s) (owner s) (threads s) (lost s))
  | UB u => UB u
  | OutOfFuel => OutOfFuel
  end.

Definition set_thread (i : nat) (t : thread) : M lsys unit :=
  modify (λ s, LSys (lheap s) (mutex s) (owner s) (<[i:=t]> (threads s)) (lost s)).

Definition set_owner (o : option nat) : M lsys unit :=
  modify (λ s, LSys (lheap s) (mutex s) o (threads s) (lost s)).

Definition lose (c : Z * list Z) : M lsys unit :=
  modify (λ s, LSys (lheap s) (mutex s) (owner s) (threads s) (c :: lost s)).

(** A function of libpool is called: its argument is tested and [pool->lock] is read. *)
Definition enter (p : Z) (i : nat) (c : call) (l : held) : M lsys bool :=
  lock ← lift_heap (load64 (Pool_lock p));
  set_thread i (Thread (TLock c lock) l);; mret true.

(** The result says whether thread [i] made a step; it does not while it waits for the mutex. *)
Definition request_step (p : Z) (i : nat) (t : thread) (rq : request) : M lsys bool :=
  match rq with
  | RAlloc => enter p i CallAlloc (t_held t)
  | RFree k =>
      match t_held t !! k with
      | None => mret true
      | Some (ptr, _) => enter p i (CallFree ptr) (delete k (t_held t))
      end
  | RExpand extra_sz =>
      if extra_sz <=? 0 then mret true         (* pool_expand returns false *)
      else enter p i (CallExpand extra_sz) (t_held t)
  | RWrite k bs =>
      match t_held t !! k with
      | None => mret true
      | Some (ptr, _) =>
          lift_heap (store_bytes ptr bs);;
          set_thread i (Thread TIdle (<[k:=(ptr, bs)]> (t_held t)));; mret true
      end
  end.

Definition call_pc (c : call) : tpc :=
  match c with
  | CallAlloc => TAlloc AStart
  | CallFree ptr => TFree ptr FStart
  | CallExpand extra_sz => TExpand extra_sz EStart
  end.

(** pool_ext_mutex_lock(pool->lock), and the return when it fails. *)
Definition lock_step (i : nat) (t : thread) (c : call) (lock : Z) (lock_ok : bool) : M lsys bool :=
  s ← get;
  if negb (lock =? mutex s) then undefined (ub_access lock) else
  if negb lock_ok then
    match c with CallFree ptr => lose (ptr, []) | _ => mret tt end;;
    set_thread i (Thread TIdle (t_held t));; mret true
  else match owner s with
       | Some _ => mret false
       | None => set_owner (Some i);; set_thread i (Thread (call_pc c) (t_held t));; mret true
       end.

(** pool_ext_mutex_unlock(pool->lock), and the return; [result] is what pool_alloc returns. *)
Definition unlock_step (i : nat) (t : thread) (result lock : Z) : M lsys bool :=
  s ← get;
  if negb ((lock =? mutex s) && bool_decide (owner s = Some i)) then undefined (ub_access lock) else
  set_owner None;;
  set_thread i (Thread TIdle (if result =? NULL then t_held t else (result, []) :: t_held t));;
  mret true.

(** The end of a function's body: [pool->lock] is read again. *)
Definition leave (p : Z) (i : nat) (t : thread) (result : Z) : M lsys bool :=
  lock ← lift_heap (load64 (Pool_lock p));
  set_thread i (Thread (TUnlock result lock) (t_held t));; mret true.

(** One access of a function's body. *)
Definition advance {X} (i : nat) (t : thread) (mk : X → tpc) (m : M heap X) : M lsys bool :=
  x ← lift_heap m; set_thread i (Thread (mk x) (t_held t));; mret true.

Abbreviation turn := (nat * request * bool)%type.

Section steps.
Context `{Allocator}.

Definition lstep (p : Z) (i : nat) (rq : request) (lock_ok : bool) : M lsys bool :=
  s ← get;
  match threads s !! i with
  | None => mret false
  | Some t =>
      match t_pc t with
      | TIdle => request_step p i t rq
      | TLock c lock => lock_step i t c lock lock_ok
      | TAlloc (ADone r) => leave p i t r
      | TAlloc pc => advance i t TAlloc (alloc_step p pc)
      | TFree ptr FDone => leave p i t NULL
      | TFree ptr pc => advance i t (TFree ptr) (free_step p ptr pc)
      | TExpand extra_sz (EDone _) => leave p i t NULL
      | TExpand extra_sz pc => advance i t (TExpand extra_sz) (expand_step p extra_sz pc)
      | TUnlock result lock => unlock_step i t result lock
      end
  end.

Fixpoint lrun (p : Z) (sched : list turn) : M lsys unit :=
  match sched with
  | [] => mret tt
  | (i, rq, ok) :: l => lstep p i rq ok;; lrun p l
  end.
End steps.

Definition linit (h : heap) (mutex : Z) (n : nat) : lsys := LSys h mutex None (replicate n (Thread TIdle [])) [].

(** A client writes no more than a chunk holds, and asks for what fits the address space. *)
Definition request_ok (sz : Z) (rq : request) : Prop :=
  match rq with
  | RWrite _ bs => Z.of_nat (length bs) ≤ sz
  | RExpand m => m * sz < 2 ^ 64
  | _ => True
  end.

Definition turns_ok (sz : Z) (n : nat) (sched : list turn) : Prop :=
  Forall (λ t : turn, (t.1.1 < n)%nat ∧ request_ok sz t.1.2) sched.

(** The chunks asked of pool_expand, and the most a schedule asks at once. *)
Definition asks (rq : request) : Z := match rq with RExpand m => m | _ => 0 end.
Definition largest (sched : list turn) : Z := foldr (λ t : turn, Z.max (asks t.1.2)) 0 sched.

Lemma largest_nonneg sched : 0 ≤ largest sched.
Proof. unfold largest. induction sched as [|t l IH]; cbn [foldr]; lia. Qed.

(** ** The invariant *)

(** The chunk a call has in its hands: it left the free list and is not the thread's yet, or it
    is no longer the thread's and not in the free list yet. *)
Definition transit (A : apool) (pc : tpc) : held :=
  match pc with
  | TLock (CallFree ptr) _ => [(ptr, [])]
  | TAlloc (ADone r) | TUnlock r _ => if r =? NULL then [] else [(r, [])]
  | TFree ptr FLinked => [(ptr, le_bytes 8 (head_chunk (ap_free A)))]
  | TFree ptr FDone => []
  | TFree ptr _ => [(ptr, [])]
  | _ => []
  end.

Definition call_ok (mx : Z) (A : apool) (c : call) : Prop :=
  match c with
  | CallExpand m => (0 < m ∧ m ≤ mx) ∧ m * ap_sz A < 2 ^ 64
  | _ => True
  end.

(** A thread that does not own the mutex. *)
Definition outside (mx mutex : Z) (A : apool) (pc : tpc) : Prop :=
  match pc with
  | TIdle => True
  | TLock c lock => lock = mutex ∧ call_ok mx A c
  | _ => False
  end.

(** What the owner of the mutex knows at each point of its call. *)
Definition pc_ok (mx mutex : Z) (h : heap) (p : Z) (A : apool) (pc : tpc) : Prop :=
  match pc with
  | TIdle | TLock _ _ => False
  | TExpand m pc => call_ok mx A (CallExpand m) ∧ expand_ok h p A m pc
  | TAlloc AChecked => ∃ c f, ap_free A = c :: f
  | TAlloc (AResult r) => ∃ f, ap_free A = r :: f
  | TAlloc (AHead r fc) => ∃ f, ap_free A = r :: f ∧ fc = r
  | TAlloc (ANext r n) => ∃ f, ap_free A = r :: f ∧ n = head_chunk f
  | TFree _ (FLoaded fc) => fc = head_chunk (ap_free A)
  | TUnlock _ lock => lock = mutex
  | _ => True
  end.

Definition holdings (A : apool) (t : thread) : held := transit A (t_pc t) ++ t_held t.

(** The stores the owner has made that do not belong to the pool yet. *)
Definition unfinished (p : Z) (A : apool) (pc : tpc) : list (Z * Z) :=
  match pc with TExpand _ pc => pending p A pc | _ => [] end.

Definition owner_thread (s : lsys) : option thread := owner s ≫= (λ i, threads s !! i).

Definition stores (p : Z) (A : apool) (s : lsys) : list (Z * Z) :=
  from_option (λ t, unfinished p A (t_pc t)) [] (owner_thread s).

(** [h] is the heap without these stores. *)
Record linv (mx p : Z) (A : apool) (h : heap) (s : lsys) : Prop := {
  li_heap : lheap s = with_words h (stores p A s);
  li_ok : session_ok h p A (concat (holdings A <$> threads s) ++ lost s);
  li_lock : locked_at h p (mutex s);
  li_outside : ∀ i t, threads s !! i = Some t → owner s ≠ Some i → outside mx (mutex s) A (t_pc t);
  li_owner : ∀ i, owner s = Some i → ∃ t, threads s !! i = Some t ∧ pc_ok mx (mutex s) h p A (t_pc t)
}.

(** ** Lemmas *)

Lemma lift_heap_Ok {A} (m : M heap A) s a h' :
  m (lheap s) = Ok a h' → lift_heap m s = Ok a (LSys h' (mutex s) (owner s) (threads s) (lost s)).
Proof. unfold lift_heap. by intros ->. Qed.

Lemma session_perm h p A l l' : l ≡ₚ l' → session_ok h p A l → session_ok h p A l'.
Proof.
  intros Hp [Hr Hpart Hc]. split; [done| |].
  - rewrite <- Hpart. by rewrite Hp.
  - intros ptr bs Hin. apply Hc. by rewrite Hp.
Qed.

Lemma stored_same h a bs : load_list a (length bs) (mem h) = Some bs → stored h a bs = h.
Proof.
  intros [_ Hi]%load_list_Some. destruct h as [m b n]. unfold stored. cbn in *. f_equal.
  apply map_eq. intros x. rewrite lookup_store_list. case_decide as Hx; [|done].
  rewrite <- (Hi (Z.to_nat (x - a))) by lia. f_equal. lia.
Qed.

Lemma concat_perm {X} (ls : list (list X)) : ∀ i l,
  ls !! i = Some l → concat ls ≡ₚ l ++ concat (delete i ls).
Proof.
  induction ls as [|l0 ls IH]; intros [|i] l Hi; simplify_eq/=; [done|].
  rewrite (IH i l Hi). rewrite !app_assoc. f_equiv. apply Permutation_app_comm.
Qed.

Definition others (A : apool) (i : nat) (ths : list thread) : held :=
  concat (holdings A <$> delete i ths).

Lemma holdings_focus A ths i t :
  ths !! i = Some t →
  concat (holdings A <$> ths) ≡ₚ transit A (t_pc t) ++ t_held t ++ others A i ths.
Proof.
  intros Hi. unfold others. rewrite fmap_delete.
  rewrite (concat_perm (holdings A <$> ths) i (holdings A t)).
  - unfold holdings at 1. by rewrite <- !app_assoc.
  - by rewrite list_lookup_fmap, Hi.
Qed.

Lemma session_insert h p A ths i t' l :
  (i < length ths)%nat →
  session_ok h p A (transit A (t_pc t') ++ t_held t' ++ others A i ths ++ l) →
  session_ok h p A (concat (holdings A <$> <[i:=t']> ths) ++ l).
Proof.
  intros Hlt. apply session_perm.
  rewrite (holdings_focus A (<[i:=t']> ths) i t') by (by apply list_lookup_insert_eq).
  unfold others. by rewrite delete_insert_list, <- !app_assoc.
Qed.

(** The other threads are outside, so that their holdings do not depend on the free list. *)
Lemma others_outside mx mutex A A' ths i :
  (∀ j t, ths !! j = Some t → j ≠ i → outside mx mutex A (t_pc t)) → others A i ths = others A' i ths.
Proof.
  intros Hidle. unfold others. f_equal. apply list_fmap_ext. intros j t Hj.
  unfold holdings. enough (outside mx mutex A (t_pc t)) as Hout by (by destruct (t_pc t) as [|[]| | | |]).
  destruct (decide (j < i)%nat).
  - rewrite list_lookup_delete_lt in Hj by done. apply (Hidle _ _ Hj). lia.
  - rewrite list_lookup_delete_ge in Hj by lia. apply (Hidle _ _ Hj). lia.
Qed.

Section linv_lemmas.
Context (mx p : Z) (A : apool) (h : heap) (s : lsys) (Hinv : linv mx p A h s).
Context (i : nat) (t : thread) (Hi : threads s !! i = Some t).

Lemma linv_focus :
  session_ok h p A (transit A (t_pc t) ++ t_held t ++ others A i (threads s) ++ lost s).
Proof.
  eapply session_perm; [|apply Hinv]. rewrite (holdings_focus A _ i t Hi). by rewrite <- !app_assoc.
Qed.

Let Hlt : (i < length (threads s))%nat := lookup_lt_Some _ _ _ Hi.

Lemma owner_knows u : owner_thread s = Some u → pc_ok mx (mutex s) h p A (t_pc u).
Proof.
  unfold owner_thread. destruct (owner s) as [j|] eqn:Ho; [|done]. cbn.
  destruct (li_owner _ _ _ _ _ Hinv j Ho) as (v & -> & Hv). by intros [= <-].
Qed.

(** The unfinished stores are neither in a chunk nor in the field lock. *)
Lemma stores_apart c n : c ∈ all_chunks A → 0 ≤ n ≤ ap_sz A → words_apart (stores p A s) c n.
Proof.
  intros Hc Hn. unfold stores. destruct (owner_thread s) as [u|] eqn:Hu; [|by apply Forall_nil_2].
  pose proof (owner_knows u Hu) as Hk. cbn. destruct (t_pc u); try (by apply Forall_nil_2).
  destruct Hk as [_ Hk]. eapply pending_apart; [apply (so_rep _ _ _ _ (li_ok _ _ _ _ _ Hinv))|exact Hk|done|done].
Qed.

Lemma read_lock : load64 (Pool_lock p) (lheap s) = Ok (mutex s) (lheap s).
Proof.
  destruct (li_lock _ _ _ _ _ Hinv) as [Hb Hw]. apply word_at_load. rewrite (li_heap _ _ _ _ _ Hinv).
  eapply word_at_agree; [|exact Hw]. apply with_words_agree. unfold stores.
  destruct (owner_thread s) as [u|] eqn:Hu; [|by apply Forall_nil_2].
  pose proof (owner_knows u Hu) as Hk. cbn. destruct (t_pc u); try (by apply Forall_nil_2).
  eapply pending_apart_lock; [apply (so_rep _ _ _ _ (li_ok _ _ _ _ _ Hinv))|apply Hk|done].
Qed.

Lemma others_out j u : (owner s = None ∨ owner s = Some i) →
  threads s !! j = Some u → j ≠ i → outside mx (mutex s) A (t_pc u).
Proof. intros Ho Hj Hne. apply (li_outside _ _ _ _ _ Hinv _ _ Hj). naive_solver. Qed.

(** Rebuild the invariant after thread [i] has moved to [t'], under the mutex. *)
Lemma linv_owned A' h' t' :
  (owner s = None ∨ owner s = Some i) → ap_sz A' = ap_sz A →
  pc_ok mx (mutex s) h' p A' (t_pc t') → locked_at h' p (mutex s) →
  session_ok h' p A' (transit A' (t_pc t') ++ t_held t' ++ others A i (threads s) ++ lost s) →
  linv mx p A' h'
    (LSys (with_words h' (unfinished p A' (t_pc t'))) (mutex s) (Some i) (<[i:=t']> (threads s)) (lost s)).
Proof.
  intros Ho Hsz Hpc Hlock Hok. split; cbn [lheap owner threads lost mutex]; [| |done|..].
  - unfold stores, owner_thread. cbn. by rewrite list_lookup_insert_eq.
  - apply session_insert; [done|]. rewrite <- (others_outside mx (mutex s) A A'); [done|].
    intros j u Hj Hne. by apply (others_out j u).
  - intros j u Hj Hne. rewrite list_lookup_insert_ne in Hj by congruence.
    pose proof (others_out j u Ho Hj ltac:(congruence)) as Hout.
    destruct (t_pc u) as [|[]| | | |]; try done. cbn in *. by rewrite Hsz.
  - intros j [= <-]. exists t'. by rewrite list_lookup_insert_eq.
Qed.

(** ... leaving it. *)
Lemma linv_released t' :
  owner s = Some i → unfinished p A (t_pc t) = [] → t_pc t' = TIdle →
  t_held t' = transit A (t_pc t) ++ t_held t →
  linv mx p A h (LSys (lheap s) (mutex s) None (<[i:=t']> (threads s)) (lost s)).
Proof.
  intros Ho Hun Hpc Hheld. split; cbn [lheap owner threads lost mutex]; [| |apply Hinv| |done].
  - rewrite (li_heap _ _ _ _ _ Hinv). unfold stores, owner_thread. rewrite Ho. cbn. rewrite Hi. cbn. by rewrite Hun.
  - apply session_insert; [done|]. rewrite Hpc, Hheld. cbn [transit app]. rewrite <- app_assoc.
    apply linv_focus.
  - intros j u Hj _. destruct (decide (i = j)) as [<-|Hne].
    + rewrite list_lookup_insert_eq in Hj by done. simplify_eq. by rewrite Hpc.
    + rewrite list_lookup_insert_ne in Hj by done. by apply (others_out j u); [right| |].
Qed.

(** ... without touching it. *)
Lemma linv_outside h' t' lost' :
  owner s ≠ Some i → outside mx (mutex s) A (t_pc t') → locked_at h' p (mutex s) →
  (∀ m pc, call_ok mx A (CallExpand m) → expand_ok h p A m pc → expand_ok h' p A m pc) →
  session_ok h' p A (transit A (t_pc t') ++ t_held t' ++ others A i (threads s) ++ lost') →
  linv mx p A h'
    (LSys (with_words h' (stores p A s)) (mutex s) (owner s) (<[i:=t']> (threads s)) lost').
Proof.
  intros Hno Hpc' Hlock Hex Hok. split; cbn [lheap owner threads lost mutex]; [| |done|..].
  - f_equal. unfold stores, owner_thread. cbn. destruct (owner s) as [j|]; [|done]. cbn.
    by rewrite list_lookup_insert_ne by congruence.
  - by apply session_insert.
  - intros j u Hj Hne. destruct (decide (i = j)) as [<-|Hij].
    + rewrite list_lookup_insert_eq in Hj by done. by simplify_eq.
    + rewrite list_lookup_insert_ne in Hj by done. by apply (li_outside _ _ _ _ _ Hinv _ _ Hj).
  - intros j Hj. destruct (li_owner _ _ _ _ _ Hinv j Hj) as (u & Hu & Hpcu). exists u.
    rewrite list_lookup_insert_ne by congruence. split; [done|].
    destruct (t_pc u); try done. destruct Hpcu. split; [done|by apply Hex].
Qed.
End linv_lemmas.

(** ** Steps *)

(** Steps the owner of the mutex still has to make before it is free. *)
Definition steps_left (pc : tpc) : nat :=
  match pc with
  | TIdle | TLock _ _ => 0
  | TAlloc AStart => 7
  | TAlloc AChecked => 6
  | TAlloc (AResult _) => 5
  | TAlloc (AHead _ _) => 4
  | TAlloc (ANext _ _) => 3
  | TAlloc (ADone _) => 2
  | TFree _ FStart => 5
  | TFree _ (FLoaded _) => 4
  | TFree _ FLinked => 3
  | TFree _ FDone => 2
  | TExpand m pc => expand_left m pc + 2
  | TUnlock _ _ => 1
  end.

Definition busy (s : lsys) : nat := from_option (λ t, steps_left (t_pc t)) 0%nat (owner_thread s).

(** What happens to the pool is what the abstract operations do. *)
Definition abstract_step (A A' : apool) : Prop :=
  A' = A ∨ (∃ c, ap_alloc A = Some (c, A')) ∨ (∃ c, A' = ap_release c A) ∨ (∃ a, A' = ap_grow a A).

Lemma abstract_step_sz A A' : abstract_step A A' → ap_sz A' = ap_sz A.
Proof.
  intros [->|[[c Hc]|[[c ->]|[a ->]]]]; [done| |done|done]. unfold ap_alloc in Hc.
  destruct (ap_free A); by simplify_eq.
Qed.

Record step_post (mx p : Z) (A : apool) (s : lsys) (i : nat) (b : bool) (s' : lsys) : Prop := {
  sp_inv : ∃ A' h', linv mx p A' h' s' ∧ abstract_step A A';
  sp_threads : length (threads s') = length (threads s);
  sp_blocked : b = false → s' = s ∧ ∃ j, owner s = Some j ∧ j ≠ i;
  sp_owner : owner s = Some i → (busy s' < busy s)%nat;
  sp_other : ∀ j, owner s = Some j → j ≠ i → owner s' = Some j ∧ busy s' = busy s
}.

Section owner_steps.
Context `{AllocatorLaws}.
Context (mx p : Z) (A : apool) (h : heap) (s : lsys) (Hinv : linv mx p A h s).
Context (i : nat) (t : thread) (Hi : threads s !! i = Some t) (Ho : owner s = Some i).

Let Hfoc := linv_focus mx p A h s Hinv i t Hi.
Let Hr : pool_rep h p A := so_rep _ _ _ _ Hfoc.

Lemma this_owner : owner_thread s = Some t.
Proof. unfold owner_thread. rewrite Ho. exact Hi. Qed.

Lemma owner_pc : pc_ok mx (mutex s) h p A (t_pc t).
Proof. apply (owner_knows mx p A h s Hinv). exact this_owner. Qed.

Lemma owner_heap : lheap s = with_words h (unfinished p A (t_pc t)).
Proof. rewrite (li_heap _ _ _ _ _ Hinv). unfold stores. by rewrite this_owner. Qed.

(** A step inside the critical section: to [pc']. *)
Lemma inside_post A' h' pc' h2 :
  h2 = with_words h' (unfinished p A' pc') → (steps_left pc' < steps_left (t_pc t))%nat →
  abstract_step A A' → pc_ok mx (mutex s) h' p A' pc' → locked_at h' p (mutex s) →
  session_ok h' p A' (transit A' pc' ++ t_held t ++ others A i (threads s) ++ lost s) →
  step_post mx p A s i true (LSys h2 (mutex s) (owner s) (<[i:=Thread pc' (t_held t)]> (threads s)) (lost s)).
Proof.
  intros -> Hlt Habs Hpc Hlock Hok. rewrite Ho. split.
  - exists A', h'. split; [|done].
    by apply (linv_owned mx p A h s Hinv i t Hi A' h' (Thread pc' (t_held t))); [right|apply abstract_step_sz|..].
  - cbn. apply length_insert.
  - done.
  - intros _. unfold busy. rewrite this_owner. unfold owner_thread. cbn.
    by rewrite list_lookup_insert_eq by (by eapply lookup_lt_Some).
  - intros j Hj. congruence.
Qed.

(** ... that leaves the heap alone. *)
Lemma inside_same pc' :
  unfinished p A pc' = [] → unfinished p A (t_pc t) = [] → (steps_left pc' < steps_left (t_pc t))%nat →
  pc_ok mx (mutex s) h p A pc' → transit A pc' = transit A (t_pc t) →
  step_post mx p A s i true
    (LSys (lheap s) (mutex s) (owner s) (<[i:=Thread pc' (t_held t)]> (threads s)) (lost s)).
Proof.
  intros Hun' Hun Hlt Hpc Htr. apply (inside_post A h); try done.
  - by rewrite owner_heap, Hun, Hun'.
  - by left.
  - apply Hinv.
  - rewrite Htr. apply Hfoc.
Qed.

Lemma wp_advance {X} (m : M heap X) (mk : X → tpc) x h' :
  m (lheap s) = Ok x h' →
  step_post mx p A s i true
    (LSys h' (mutex s) (owner s) (<[i:=Thread (mk x) (t_held t)]> (threads s)) (lost s)) →
  wp (advance i t mk m) (step_post mx p A s i) s.
Proof. intros Hrun Hpost. apply wp_bind, (wp_Ok _ _ _ _ _ (lift_heap_Ok _ _ _ _ Hrun)), Hpost. Qed.

Lemma wp_leave r :
  unfinished p A (t_pc t) = [] → steps_left (t_pc t) = 2%nat →
  transit A (t_pc t) = (if r =? NULL then [] else [(r, [])]) →
  wp (leave p i t r) (step_post mx p A s i) s.
Proof.
  intros Hun Hl Htr.
  apply wp_bind, (wp_Ok _ _ _ _ _ (lift_heap_Ok _ _ _ _ (read_lock mx p A h s Hinv))).
  apply inside_same; [done|done|by rewrite Hl; cbn; lia|done|by rewrite Htr].
Qed.

Lemma wp_unlock r lk :
  t_pc t = TUnlock r lk → wp (unlock_step i t r lk) (step_post mx p A s i) s.
Proof.
  intros Hpc. pose proof owner_pc as Hok. rewrite Hpc in Hok. cbn in Hok. subst lk.
  unfold unlock_step. apply wp_get_bind. rewrite Z.eqb_refl, bool_decide_true by done. cbn [andb negb].
  apply wp_bind, wp_modify, wp_bind, wp_modify, wp_ret. cbn. split.
  - exists A, h. split; [|by left]. apply (linv_released mx p A h s Hinv i t Hi); rewrite ?Hpc; try done.
    cbn. by destruct (r =? NULL).
  - cbn. apply length_insert.
  - done.
  - intros _. unfold busy. rewrite this_owner. cbn. rewrite Hpc. cbn. lia.
  - intros j Hj. congruence.
Qed.

(** The bodies of the functions. *)
Lemma wp_alloc_pc pc :
  t_pc t = TAlloc pc → (∀ r, pc ≠ ADone r) →
  wp (advance i t TAlloc (alloc_step p pc)) (step_post mx p A s i) s.
Proof.
  intros Hpc Hnd. pose proof owner_pc as Hok. pose proof Hfoc as Hf. pose proof owner_heap as Hh.
  rewrite Hpc in Hok, Hf, Hh. cbn in Hh. destruct pc as [| |r|r fc|r n|r]; cbn [transit pc_ok app] in *.
  - destruct (ap_free A) as [|c f] eqn:Hfree.
    + eapply (wp_advance _ TAlloc).
      { cbn [alloc_step]. rewrite Hh. erewrite bind_Ok by (apply word_at_load, (pr_head _ _ _ Hr)).
        rewrite Hfree. reflexivity. }
      rewrite <- Hh. apply inside_same; rewrite ?Hpc; cbn; done || lia.
    + eapply (wp_advance _ TAlloc); [rewrite Hh; by eapply start_run|].
      rewrite <- Hh. apply inside_same; rewrite ?Hpc; cbn; [done|done|lia|eauto|done].
  - destruct Hok as (c & f & Hfree). eapply (wp_advance _ TAlloc); [rewrite Hh; by eapply checked_run|].
    rewrite <- Hh. apply inside_same; rewrite ?Hpc; cbn; [done|done|lia|eauto|done].
  - destruct Hok as (f & Hfree). eapply (wp_advance _ TAlloc); [rewrite Hh; by eapply result_run|].
    rewrite <- Hh. apply inside_same; rewrite ?Hpc; cbn; [done|done|lia|eauto|done].
  - destruct Hok as (f & Hfree & ->). eapply (wp_advance _ TAlloc); [rewrite Hh; by eapply head_run|].
    rewrite <- Hh. apply inside_same; rewrite ?Hpc; cbn; [done|done|lia|eauto|done].
  - destruct Hok as (f & Hfree & ->). eapply (wp_advance _ TAlloc); [rewrite Hh; by eapply next_run|].
    apply (inside_post (APool (ap_sz A) f (ap_arrays A)) (stored h p (le_bytes 8 (head_chunk f))));
      rewrite ?Hpc; cbn [steps_left transit unfinished with_words foldl pc_ok]; [done|lia| |done| |].
    + right; left. exists r. unfold ap_alloc. by rewrite Hfree.
    + apply locked_at_head, Hinv.
    + rewrite (pool_rep_free_nonnull _ _ _ r Hr) by (apply Hr; rewrite Hfree; by left).
      by apply session_alloc.
  - by destruct (Hnd r).
Qed.

Lemma wp_free_pc ptr pc :
  t_pc t = TFree ptr pc → pc ≠ FDone →
  wp (advance i t (TFree ptr) (free_step p ptr pc)) (step_post mx p A s i) s.
Proof.
  intros Hpc Hnd. pose proof owner_pc as Hok. pose proof Hfoc as Hf. pose proof owner_heap as Hh.
  rewrite Hpc in Hok, Hf, Hh. cbn in Hh.
  pose proof (pr_struct _ _ _ Hr) as Hs. pose proof (ps_sz _ _ _ _ Hs) as [Hsz _].
  destruct pc as [|fc| |]; cbn [transit pc_ok app] in *.
  - eapply (wp_advance _ (TFree ptr)).
    { cbn [free_step]. rewrite Hh. by erewrite bind_Ok by (apply word_at_load, (pr_head _ _ _ Hr)). }
    rewrite <- Hh. apply inside_same; rewrite ?Hpc; cbn; done || lia.
  - subst fc. destruct (so_held_chunk _ _ _ _ Hf ptr []) as [Hch _]; [by left|].
    eapply (wp_advance _ (TFree ptr)).
    { cbn [free_step]. rewrite Hh. erewrite bind_Ok; [reflexivity|]. apply store64_run.
      apply (chunk_accessible _ _ _ _ Hs); [done|lia]. }
    apply (inside_post A (stored h ptr (le_bytes 8 (head_chunk (ap_free A)))));
      rewrite ?Hpc; cbn [steps_left transit unfinished with_words foldl pc_ok]; [done|lia|by left|done| |].
    + apply (locked_at_chunk h p A); [done|done|rewrite le_bytes_length; lia|apply Hinv].
    + apply (session_write _ _ _ _ Hf 0 ptr [] (le_bytes 8 (head_chunk (ap_free A)))); [done|].
      rewrite le_bytes_length. lia.
  - eapply (wp_advance _ (TFree ptr)).
    { cbn [free_step]. rewrite Hh. erewrite bind_Ok; [reflexivity|]. apply store64_run.
      unfold Pool_free_chunk. rewrite <- (Z.add_0_r p). apply (ps_pool_accessible _ _ _ _ Hs). lia. }
    apply (inside_post (ap_release ptr A) (stored h p (le_bytes 8 ptr)));
      rewrite ?Hpc; cbn [steps_left transit unfinished with_words foldl pc_ok app];
      [done|lia|right; right; left; by exists ptr|done|apply locked_at_head, Hinv|].
    pose proof (session_free _ _ _ _ Hf 0 ptr _ eq_refl) as Hfr. cbn [delete list_delete] in Hfr.
    rewrite (stored_same h ptr) in Hfr; [exact Hfr|]. apply (so_content _ _ _ _ Hf ptr _). by left.
  - done.
Qed.

Lemma wp_expand_advance m pc :
  t_pc t = TExpand m pc → (∀ b, pc ≠ EDone b) →
  wp (advance i t (TExpand m) (expand_step p m pc)) (step_post mx p A s i) s.
Proof.
  intros Hpc Hnd. pose proof owner_pc as Hok. pose proof Hfoc as Hf. pose proof owner_heap as Hh.
  rewrite Hpc in Hok, Hf, Hh. cbn [transit app unfinished] in *. destruct Hok as [[[Hm Hmx] Hfit] Hex].
  destruct (proj1 (wp_run _ _ _) (wp_expand_pc h p A _ m Hf Hm Hfit pc Hex Hnd)) as (pc' & h2 & Hrun & Hpost).
  rewrite <- Hh in Hrun. eapply (wp_advance _ (TExpand m)); [exact Hrun|].
  destruct Hpost as (A' & h' & -> & Hok' & Hex' & HA & Hleft & Hlock).
  assert (abstract_step A A') as Habs.
  { destruct HA as [->|[a ->]]; [by left|]. right; right; right. by exists a. }
  apply (inside_post A' h'); rewrite ?Hpc; cbn [steps_left]; [done|lia|done| |apply Hlock, Hinv|done].
  split; [|done]. cbn. by rewrite (abstract_step_sz _ _ Habs).
Qed.
End owner_steps.

(** A step of a thread that is outside libpool, or waits for the mutex. *)
Section outside_steps.
Context (mx p : Z) (A : apool) (h : heap) (s : lsys) (Hinv : linv mx p A h s).
Context (i : nat) (t : thread) (Hi : threads s !! i = Some t) (Hno : owner s ≠ Some i).

Let Hfoc := linv_focus mx p A h s Hinv i t Hi.
Let Hr : pool_rep h p A := so_rep _ _ _ _ Hfoc.

Lemma stay_post b : (b = false → ∃ j, owner s = Some j) → step_post mx p A s i b s.
Proof.
  intros Hb. split; [exists A, h; split; [done|by left]|done|..].
  - intros (j & Hj)%Hb. split; [done|]. exists j. split; [done|]. congruence.
  - done.
  - done.
Qed.

Lemma outside_post h' t' lost' :
  outside mx (mutex s) A (t_pc t') → locked_at h' p (mutex s) →
  (∀ m pc, call_ok mx A (CallExpand m) → expand_ok h p A m pc → expand_ok h' p A m pc) →
  session_ok h' p A (transit A (t_pc t') ++ t_held t' ++ others A i (threads s) ++ lost') →
  step_post mx p A s i true
    (LSys (with_words h' (stores p A s)) (mutex s) (owner s) (<[i:=t']> (threads s)) lost').
Proof.
  intros Hpc' Hlock Hex Hok. split; cbn [threads]; [|apply length_insert|done|done|].
  - exists A, h'. split; [by apply (linv_outside mx p A h s Hinv i t Hi)|by left].
  - intros j Hj Hne. split; [done|]. unfold busy, owner_thread. cbn. rewrite Hj. cbn.
    by rewrite list_lookup_insert_ne by done.
Qed.

(** ... that leaves the heap alone. *)
Lemma outside_same t' lost' :
  outside mx (mutex s) A (t_pc t') →
  session_ok h p A (transit A (t_pc t') ++ t_held t' ++ others A i (threads s) ++ lost') →
  step_post mx p A s i true (LSys (lheap s) (mutex s) (owner s) (<[i:=t']> (threads s)) lost').
Proof.
  intros Hpc' Hok. rewrite (li_heap _ _ _ _ _ Hinv) at 1. apply outside_post; [done|apply Hinv|done|done].
Qed.

(** Giving up a chunk: it leaves the thread's list, its content no longer matters. *)
Lemma session_forget l ptr bs : session_ok h p A ((ptr, bs) :: l) → session_ok h p A ((ptr, []) :: l).
Proof.
  intros Hok. pose proof (ps_sz _ _ _ _ (pr_struct _ _ _ (so_rep _ _ _ _ Hok))). split.
  - apply Hok.
  - apply (so_part _ _ _ _ Hok).
  - intros q cs [[= -> ->]|Hq]%elem_of_cons; [split; [cbn; lia|done]|].
    apply (so_content _ _ _ _ Hok q cs). by right.
Qed.

Lemma wp_enter c l :
  call_ok mx A c →
  session_ok h p A (transit A (TLock c (mutex s)) ++ l ++ others A i (threads s) ++ lost s) →
  wp (enter p i c l) (step_post mx p A s i) s.
Proof.
  intros Hc Hok. apply wp_bind, (wp_Ok _ _ _ _ _ (lift_heap_Ok _ _ _ _ (read_lock mx p A h s Hinv))).
  apply (outside_same (Thread (TLock c (mutex s)) l)); [by split|done].
Qed.

(** A write into a held chunk, while the owner may be anywhere in its call. *)
Lemma wp_write k ptr bs0 bs :
  t_pc t = TIdle → t_held t !! k = Some (ptr, bs0) → Z.of_nat (length bs) ≤ ap_sz A →
  wp (lift_heap (store_bytes ptr bs);; set_thread i (Thread TIdle (<[k:=(ptr, bs)]> (t_held t)));; mret true)
     (step_post mx p A s i) s.
Proof.
  intros Hpc Hk Hlen. pose proof Hfoc as Hf. rewrite Hpc in Hf. cbn [transit app] in Hf.
  assert ((t_held t ++ others A i (threads s) ++ lost s) !! k = Some (ptr, bs0)) as Hk'
    by (by apply lookup_app_l_Some).
  destruct (so_held_chunk _ _ _ _ Hf ptr bs0) as [Hch _]; [by eapply list_elem_of_lookup_2|].
  assert (store_bytes ptr bs (lheap s) = Ok tt (with_words (stored h ptr bs) (stores p A s))) as Hst.
  { rewrite <- with_words_comm by (eapply stores_apart; [done|done|lia]). rewrite (li_heap _ _ _ _ _ Hinv).
    unfold store_bytes. rewrite bool_decide_true; [done|]. apply accessible_with_words.
    apply (chunk_accessible _ _ _ _ (pr_struct _ _ _ Hr)); [done|lia]. }
  apply wp_bind, (wp_Ok _ _ _ _ _ (lift_heap_Ok _ _ _ _ Hst)).
  apply (outside_post (stored h ptr bs) (Thread TIdle (<[k:=(ptr, bs)]> (t_held t))) (lost s)).
  - done.
  - eapply locked_at_chunk; [exact Hr|done|done|apply Hinv].
  - intros m pc [[Hm _] _]. by apply expand_ok_write.
  - pose proof (session_write _ _ _ _ Hf k ptr bs0 bs Hk' Hlen) as Hw.
    by rewrite insert_app_l in Hw by (by eapply lookup_lt_Some).
Qed.

Lemma wp_request rq :
  t_pc t = TIdle → request_ok (ap_sz A) rq → asks rq ≤ mx →
  wp (request_step p i t rq) (step_post mx p A s i) s.
Proof.
  intros Hpc Hrq Hmx. pose proof Hfoc as Hf. rewrite Hpc in Hf. cbn [transit app] in Hf.
  destruct rq as [|k|m|k bs]; cbn [request_step].
  - by apply wp_enter.
  - destruct (t_held t !! k) as [[ptr bs]|] eqn:Hk; [|apply wp_ret, stay_post; done].
    apply wp_enter; [done|]. apply (session_forget _ ptr bs). eapply session_perm; [|exact Hf].
    by rewrite (delete_Permutation _ _ _ Hk) at 1.
  - destruct (Z.leb_spec m 0); [apply wp_ret, stay_post; done|].
    apply wp_enter; [|done]. cbn in Hrq, Hmx. split_and!; done || lia.
  - destruct (t_held t !! k) as [[ptr bs0]|] eqn:Hk; [|apply wp_ret, stay_post; done]. by eapply wp_write.
Qed.

Lemma wp_lock c lk ok :
  t_pc t = TLock c lk → wp (lock_step i t c lk ok) (step_post mx p A s i) s.
Proof.
  intros Hpc. pose proof Hfoc as Hf. rewrite Hpc in Hf.
  pose proof (li_outside _ _ _ _ _ Hinv i t Hi Hno) as Hout. rewrite Hpc in Hout. destruct Hout as [-> Hc].
  unfold lock_step. apply wp_get_bind. rewrite Z.eqb_refl. cbn [negb]. destruct ok; cbn [negb].
  - pose proof (stay_post false) as Hstay.
    destruct (owner s) as [j|] eqn:Ho; [apply wp_ret, Hstay; eauto|].
    apply wp_bind, wp_modify, wp_bind, wp_modify, wp_ret. cbn.
    pose proof (li_heap _ _ _ _ _ Hinv) as Hh. unfold stores, owner_thread in Hh. rewrite Ho in Hh. cbn in Hh.
    split; cbn [threads]; [|apply length_insert|done|congruence..].
    exists A, h. split; [|by left]. rewrite Hh.
    replace h with (with_words h (unfinished p A (call_pc c))) at 2 by (by destruct c).
    apply (linv_owned mx p A h s Hinv i t Hi A h (Thread (call_pc c) (t_held t))); [by left|done| |apply Hinv|].
    + by destruct c.
    + by destruct c.
  - apply wp_bind. destruct c as [|ptr|m]; [apply wp_ret|apply wp_modify|apply wp_ret];
      apply wp_bind, wp_modify, wp_ret; cbn.
    + by apply (outside_same (Thread TIdle (t_held t))).
    + apply (outside_same (Thread TIdle (t_held t)) ((ptr, []) :: lost s)); [done|].
      eapply session_perm; [|exact Hf]. cbn. rewrite !app_assoc. apply Permutation_middle.
    + by apply (outside_same (Thread TIdle (t_held t))).
Qed.
End outside_steps.

Section runs.
Context `{AllocatorLaws}.

Lemma wp_lstep mx p A h s i rq ok :
  linv mx p A h s → (i < length (threads s))%nat → request_ok (ap_sz A) rq → asks rq ≤ mx →
  wp (lstep p i rq ok) (step_post mx p A s i) s.
Proof.
  intros Hinv [t Hi]%lookup_lt_is_Some Hrq Hmx. unfold lstep. apply wp_get_bind. rewrite Hi.
  destruct (decide (owner s = Some i)) as [Ho|Hno].
  - pose proof (owner_pc mx p A h s Hinv i t Hi Ho) as Hok.
    destruct (t_pc t) as [| |[| |r|r fc|r n|r]|ptr [|fc| |]|m pc|r lk] eqn:Hpc; [done|done|..];
      try (by apply (wp_alloc_pc mx p A h s Hinv i t Hi Ho));
      try (by apply (wp_free_pc mx p A h s Hinv i t Hi Ho)).
    + by apply (wp_leave mx p A h s Hinv i t Hi Ho); rewrite ?Hpc.
    + by apply (wp_leave mx p A h s Hinv i t Hi Ho); rewrite ?Hpc.
    + destruct pc; try (by apply (wp_expand_advance mx p A h s Hinv i t Hi Ho)).
      by apply (wp_leave mx p A h s Hinv i t Hi Ho); rewrite ?Hpc.
    + by apply (wp_unlock mx p A h s Hinv i t Hi Ho).
  - pose proof (li_outside _ _ _ _ _ Hinv i t Hi Hno) as Hout. destruct (t_pc t) eqn:Hpc; try done.
    + by apply (wp_request mx p A h s Hinv i t Hi Hno).
    + by apply (wp_lock mx p A h s Hinv i t Hi Hno).
Qed.

(** ** Schedules *)

Lemma wp_lrun mx p sched : ∀ A h s,
  linv mx p A h s → turns_ok (ap_sz A) (length (threads s)) sched → largest sched ≤ mx →
  wp (lrun p sched) (λ _ s', ∃ A' h', linv mx p A' h' s' ∧ rtc abstract_step A A' ∧
     length (threads s') = length (threads s)) s.
Proof.
  induction sched as [|[[i rq] ok] l IH]; intros A h s Hinv Hok Hmx; cbn [lrun].
  - apply wp_ret. exists A, h. split; [done|]. split; [done|done].
  - apply Forall_cons in Hok as [[Hi Hrq] Hl]. cbn in Hi, Hrq.
    change (Z.max (asks rq) (largest l) ≤ mx) in Hmx.
    apply wp_bind. eapply wp_mono; [apply (wp_lstep mx p A h s); [done|done|done|lia]|].
    intros b s' [(A' & h' & Hinv' & Habs) Hlen _ _ _]. cbn beta.
    pose proof (abstract_step_sz _ _ Habs) as Hsz.
    eapply wp_mono; [apply (IH A' h' s' Hinv')|].
    + by rewrite Hlen, Hsz.
    + lia.
    + intros [] s'' (A'' & h'' & ? & ? & ?). exists A'', h''. split; [done|].
      split; [by eapply rtc_l|congruence].
Qed.

Lemma concat_replicate_nil {X} n : concat (replicate n (@nil X)) = [].
Proof. by induction n. Qed.

Lemma linit_inv mx h p A mutex n :
  session_ok h p A [] → locked_at h p mutex → linv mx p A h (linit h mutex n).
Proof.
  intros Hok Hlock. split; cbn; [done| |done| |done].
  - rewrite fmap_replicate. cbn. by rewrite concat_replicate_nil.
  - intros i t [-> _]%lookup_replicate _. done.
Qed.

(** The run from the start. *)
Lemma lrun_inv h p A mutex n sched mx :
  session_ok h p A [] → locked_at h p mutex → turns_ok (ap_sz A) n sched → largest sched ≤ mx →
  ∃ s A' h', lrun p sched (linit h mutex n) = Ok tt s ∧ linv mx p A' h' s ∧ rtc abstract_step A A' ∧
    length (threads s) = n.
Proof.
  intros Hok Hlock Hsched Hmx.
  destruct (proj1 (wp_run _ _ _) (wp_lrun mx p sched A h (linit h mutex n)
    (linit_inv mx h p A mutex n Hok Hlock) ltac:(cbn; by rewrite length_replicate) Hmx))
    as ([] & s & Hrun & A' & h' & Hinv & Habs & Hlen).
  cbn in Hlen. rewrite length_replicate in Hlen. by exists s, A', h'.
Qed.

Lemma held_in_all A ths i t c : ths !! i = Some t → c ∈ t_held t → c ∈ concat (holdings A <$> ths).
Proof.
  intros Hi Hc. rewrite (holdings_focus A ths i t Hi). rewrite !elem_of_app. auto.
Qed.

(** Two threads never hold the same chunk. *)
Lemma held_distinct mx p A h s i j ti tj c ci cj :
  linv mx p A h s → threads s !! i = Some ti → threads s !! j = Some tj →
  (c, ci) ∈ t_held ti → (c, cj) ∈ t_held tj → i = j.
Proof.
  intros Hinv Hi Hj Hci Hcj. destruct (decide (i = j)) as [|Hne]; [done|]. exfalso.
  pose proof (so_NoDup _ _ _ _ (linv_focus mx p A h s Hinv i ti Hi)) as Hnd.
  rewrite !fmap_app in Hnd. apply NoDup_app in Hnd as (_ & _ & Hnd).
  apply NoDup_app in Hnd as (_ & _ & Hnd). apply NoDup_app in Hnd as (_ & Hd & _).
  apply (Hd c); [apply list_elem_of_fmap; by exists (c, ci)|].
  rewrite elem_of_app. left. apply list_elem_of_fmap. exists (c, cj). split; [done|].
  destruct (decide (j < i)%nat).
  - apply (held_in_all A _ j tj); [|done]. by rewrite list_lookup_delete_lt.
  - apply (held_in_all A _ (j - 1) tj); [|done]. rewrite list_lookup_delete_ge by lia.
    by replace (S (j - 1)) with j by lia.
Qed.

(** A held chunk is the pool's, and has what was written into it. *)
Lemma held_content mx p A h s i t c bs :
  linv mx p A h s → threads s !! i = Some t → (c, bs) ∈ t_held t →
  (c ∈ all_chunks A ∧ c ∉ ap_free A) ∧ load_list c (length bs) (mem (lheap s)) = Some bs.
Proof.
  intros Hinv Hi Hc. pose proof (li_ok _ _ _ _ _ Hinv) as Hs.
  assert ((c, bs) ∈ concat (holdings A <$> threads s) ++ lost s) as Hin.
  { apply elem_of_app. left. by eapply held_in_all. }
  pose proof (so_held_chunk _ _ _ _ Hs c bs Hin) as [Hch Hnf].
  destruct (so_content _ _ _ _ Hs c bs Hin) as [Hlen Hld]. split; [done|].
  rewrite (li_heap _ _ _ _ _ Hinv), <- Hld. apply load_list_agree.
  apply with_words_agree. eapply stores_apart; [done|done|lia].
Qed.

(** How large the expansions are does not matter but for the bound. *)
Lemma linv_mono mx mx' p A h s : mx ≤ mx' → linv mx p A h s → linv mx' p A h s.
Proof.
  intros Hle [Hh Hok Hlock Hout Hown]. split; [done|done|done|..].
  - intros i t Hi Ho. specialize (Hout i t Hi Ho). destruct (t_pc t) as [|[]| | | |]; try done.
    cbn in *. split_and!; try apply Hout. lia.
  - intros i Ho. destruct (Hown i Ho) as (t & Ht & Hpc). exists t. split; [done|].
    destruct (t_pc t); try done. cbn in *. destruct Hpc as (((? & ?) & ?) & ?). split_and!; done || lia.
Qed.

Lemma abstract_steps_sz A A' : rtc abstract_step A A' → ap_sz A' = ap_sz A.
Proof.
  induction 1 as [|x y z Hxy _ IH]; [done|]. rewrite IH. by apply abstract_step_sz.
Qed.

Lemma busy_bound mx p A h s : 0 ≤ mx → linv mx p A h s → (busy s ≤ 3 * Z.to_nat mx + 10)%nat.
Proof.
  intros Hmx Hinv. unfold busy. destruct (owner_thread s) as [t|] eqn:Ht; cbn; [|lia].
  pose proof (owner_knows mx p A h s Hinv t Ht) as Hk. destruct (t_pc t) as [| |[]|? []|m pc|]; cbn; try lia.
  destruct Hk as [((? & ?) & ?) Hex].
  destruct pc; cbn [expand_left expand_ok] in *; lia.
Qed.

(** C8: with the mutex, any number of threads can allocate, free, expand and write, in any
    interleaving of their accesses (those of pool_expand and its loop included), and whether or
    not pthread_mutex_lock fails or memory is refused: nothing is undefined, no two threads hold
    the same chunk, every held chunk is a chunk of the pool and has the bytes its holder wrote,
    also while the pool is being expanded, and the pool went through a sequence of abstract
    allocations, frees and expansions, which it represents whenever nobody owns the mutex.
    (Compare the race without the mutex.) *)
Theorem locked_pool_safe h p A mutex n sched :
  session_ok h p A [] → locked_at h p mutex → turns_ok (ap_sz A) n sched →
  ∃ s A', lrun p sched (linit h mutex n) = Ok tt s ∧ rtc abstract_step A A' ∧
    (∀ i j ti tj c ci cj, threads s !! i = Some ti → threads s !! j = Some tj →
       (c, ci) ∈ t_held ti → (c, cj) ∈ t_held tj → i = j) ∧
    (∀ i t c bs, threads s !! i = Some t → (c, bs) ∈ t_held t →
       (c ∈ all_chunks A' ∧ c ∉ ap_free A') ∧ load_list c (length bs) (mem (lheap s)) = Some bs) ∧
    (owner s = None → pool_rep (lheap s) p A').
Proof.
  intros Hok Hlock Hsched.
  destruct (lrun_inv h p A mutex n sched _ Hok Hlock Hsched (Z.le_refl _)) as (s & A' & h' & Hrun & Hinv & Habs & _).
  exists s, A'. split; [done|]. split; [done|]. split; [|split].
  - intros. by eapply held_distinct.
  - intros i t c bs. by eapply held_content.
  - intros Ho. rewrite (li_heap _ _ _ _ _ Hinv). unfold stores, owner_thread. rewrite Ho. cbn.
    apply (so_rep _ _ _ _ (li_ok _ _ _ _ _ Hinv)).
Qed.

(** C9: a thread waits only while another one owns the mutex, and then it changes nothing; the
    owner is never kept waiting, each of its steps brings the release nearer and a step of another
    thread does not move it away.  The steps it has left are at most 3 m + 10, where m is the
    largest number of chunks a thread asked of pool_expand (whose body makes three accesses for
    each chunk but the last and eleven others, and then unlocks), so that no thread waits for ever
    when the owner is given that many turns. *)
Theorem locked_pool_progress h p A mutex n sched :
  session_ok h p A [] → locked_at h p mutex → turns_ok (ap_sz A) n sched →
  ∃ s, lrun p sched (linit h mutex n) = Ok tt s ∧
    (busy s ≤ 3 * Z.to_nat (largest sched) + 10)%nat ∧ (busy s = 0%nat → owner s = None) ∧
    ∀ i rq ok, (i < n)%nat → request_ok (ap_sz A) rq →
      ∃ b s', lstep p i rq ok s = Ok b s' ∧
        (b = false → s' = s ∧ ∃ j, owner s = Some j ∧ j ≠ i) ∧
        (owner s = Some i → b = true ∧ (busy s' < busy s)%nat) ∧
        (∀ j, owner s = Some j → j ≠ i → owner s' = Some j ∧ busy s' = busy s).
Proof.
  intros Hok Hlock Hsched.
  destruct (lrun_inv h p A mutex n sched _ Hok Hlock Hsched (Z.le_refl _)) as (s & A' & h' & Hrun & Hinv & Habs & Hlen).
  pose proof (abstract_steps_sz _ _ Habs) as Hsz.
  exists s. split; [done|]. split; [|split].
  - eapply busy_bound; [apply largest_nonneg|exact Hinv].
  - unfold busy, owner_thread. destruct (owner s) as [j|] eqn:Ho; [|done]. cbn.
    destruct (li_owner _ _ _ _ _ Hinv j Ho) as (t & -> & Hpc). cbn.
    destruct (t_pc t) as [| |[]|? []| |]; cbn in *; done || lia.
  - intros i rq ok Hi Hrq. pose proof (linv_mono (largest sched) (Z.max (largest sched) (asks rq)) _ _ _ _ ltac:(lia) Hinv) as Hinv'.
    destruct (proj1 (wp_run _ _ _) (wp_lstep _ p A' h' s i rq ok Hinv' ltac:(lia)
      ltac:(by rewrite Hsz) ltac:(lia))) as (b & s' & Hst & [_ _ Hb Ho Hoth]).
    exists b, s'. split; [done|]. split; [done|]. split; [|done]. intros Hown. split; [|by apply Ho].
    destruct b; [done|]. destruct (Hb eq_refl) as (_ & j & ? & ?). congruence.
Qed.
End runs.

(** ** The mutex functions

    [pool_ext_mutex_new] and its siblings are function pointers; these are their default values.
    [sizeof_mutex] and the results of the pthread functions are the platform's. *)

Section mutex.
Context `{Allocator} (sizeof_mutex : Z).

(** [init_ok]: pthread_mutex_init returns 0.  Its argument must point to a mutex object. *)
Definition pool_ext_mutex_new_impl (init_ok : bool) : M heap Z :=
  mutex ← malloc sizeof_mutex;
  if mutex =? NULL then undefined ub_null_deref else
  if negb init_ok then cfree mutex;; mret NULL else mret mutex.

(** pthread_mutex_destroy makes the object uninitialised; it does not free it. *)
Definition pool_ext_mutex_destroy_impl (mutex : Z) (destroy_ok : bool) : M heap bool :=
  mret destroy_ok.

Definition pool_new_locked (init_ok : bool) (pool_sz chunk_sz : Z) : M heap Z :=
  if pool_sz =? 0 then mret NULL else
  let chunk_sz := ALIGN2BOUNDARY chunk_sz sizeof_ptr in
  if negb pool_assert_ext_funcs then mret NULL else
  pool ← malloc sizeof_Pool_locked;
  if pool =? NULL then mret NULL else
  starts ← malloc sizeof_ArrayStart;
  store64 (Pool_array_starts pool) starts;;
  starts ← load64 (Pool_array_starts pool);
  if starts =? NULL then cfree pool;; mret NULL else
  arr ← malloc (u64 (pool_sz * chunk_sz));
  if arr =? NULL then
    starts ← load64 (Pool_array_starts pool);
    cfree starts;; cfree pool;; mret NULL
  else
  mutex ← pool_ext_mutex_new_impl init_ok;
  store64 (Pool_lock pool) mutex;;
  lock ← load64 (Pool_lock pool);
  if lock =? NULL then
    cfree arr;;
    starts ← load64 (Pool_array_starts pool);
    cfree starts;; cfree pool;; mret NULL
  else
  pool_init pool arr pool_sz chunk_sz.

(** [lock_ok]: pthread_mutex_lock returns 0; the pool is not destroyed otherwise. *)
Definition pool_destroy_locked (fuel : nat) (pool : Z) (lock_ok destroy_ok : bool) : M heap unit :=
  if pool =? NULL then mret tt else
  if negb lock_ok then mret tt else
  array_start ← load64 (Pool_array_starts pool);
  destroy_loop fuel array_start;;
  lock ← load64 (Pool_lock pool);
  _ ← pool_ext_mutex_destroy_impl lock destroy_ok;
  cfree pool.
End mutex.

(** Destroying a pool frees its blocks and nothing else: the mutex's own block stays allocated,
    and nothing points to it any more. *)
Lemma pool_destroy_locked_keeps_mutex h p arrs mutex fuel :
  starts_ok h arrs → p ≠ NULL → p ∉ (ar_node <$> arrs) ++ (ar_base <$> arrs) →
  blocks h !! p = Some sizeof_Pool_locked → mutex ∉ bases p arrs →
  word_at h (Pool_array_starts p) (head_node arrs) → word_at h (Pool_lock p) mutex →
  (length arrs < fuel)%nat →
  wp (pool_destroy_locked fuel p true true)
     (λ _ h', ∀ b, blocks h' !! b = if decide (b ∈ bases p arrs) then None else blocks h !! b) h.
Proof.
  intros Hok Hp Hpn Hb Hm Hst Hlock Hfuel. unfold pool_destroy_locked.
  rewrite (proj2 (Z.eqb_neq _ _) Hp). cbn [negb].
  apply wp_bind, (wp_load64 _ _ _ _ Hst), wp_bind.
  eapply wp_mono; [by apply wp_destroy_loop|]. intros [] h' [Hmem Hbl]. cbn beta.
  assert (blocks h' !! p = Some sizeof_Pool_locked) as Hb' by (by rewrite Hbl, decide_False).
  apply wp_bind, (wp_load64 _ _ mutex).
  { eapply word_at_agree; [|exact Hlock]. split; [by intros x _; rewrite Hmem|]. intros _.
    eapply accessible_block; [exact Hb'|unfold Pool_lock, sizeof_Pool_locked; lia..]. }
  apply wp_bind, wp_ret. apply (wp_cfree _ _ sizeof_Pool_locked); [done|done|].
  intros b. cbn. rewrite lookup_delete, Hbl. unfold bases.
  repeat case_decide; subst; try done; exfalso; set_solver.
Qed.

(** A pool made and destroyed leaves one block behind, of a mutex's size. *)
Lemma locked_life_leaks_mutex :
  ∃ h, (p ← @pool_new_locked demo_alloc 40 true 3 20; pool_destroy_locked 2 p true true) empty_heap = Ok tt h ∧
       map_to_list (blocks h) = [(192, 40)].
Proof. eexists. split; vm_compute; reflexivity. Qed.

(** When there is no memory for the mutex, its initialisation is called on a null pointer. *)
Lemma pool_ext_mutex_new_impl_no_memory `{Allocator} h n init_ok :
  ext_alloc h n = None → pool_ext_mutex_new_impl n init_ok h = UB ub_null_deref.
Proof.
  intros Hn. unfold pool_ext_mutex_new_impl. by erewrite bind_Ok by (unfold malloc; by rewrite Hn).
Qed.

(** ** Witnesses *)

(** The heap after [pool_new(3, 20)] with the lock: the mutex is an object of 40 bytes. *)
Definition locked_run : outcome heap Z := Eval vm_compute in @pool_new_locked demo_alloc 40 true 3 20 empty_heap.
Definition locked_heap : heap := match locked_run with Ok _ h => h | _ => empty_heap end.
Definition locked_pool : Z := match locked_run with Ok p _ => p | _ => 0 end.
Definition locked_apool : apool := let a := Array 64 96 3 in APool 24 (chunks_of 24 a) [a].

Lemma locked_rep : pool_rep locked_heap locked_pool locked_apool.
Proof. apply (bool_decide_unpack _). vm_compute. exact I. Qed.

Lemma locked_heap_at : locked_at locked_heap locked_pool 192.
Proof. split; [reflexivity|]. apply (bool_decide_unpack _). vm_compute. exact I. Qed.

Lemma locked_session : session_ok locked_heap locked_pool locked_apool [].
Proof.
  split; [exact locked_rep| |].
  - rewrite fmap_nil, app_nil_r. apply (reflexivity (R := (≡ₚ))).
  - intros ? ? []%not_elem_of_nil.
Qed.

Abbreviation many k i rq := (replicate k ((i%nat, rq, true) : turn)).

(** The first thread asks for a chunk, the second one too and finds the mutex taken; when both
    have a chunk, the second one expands the pool by two chunks, and between its accesses the
    first one writes into its chunk; a lock call of the first one fails; then it gives its chunk
    back, while the second one writes again. *)
Definition demo_sched : list turn :=
  many 3 0 RAlloc ++ many 2 1 RAlloc ++ many 6 0 RAlloc ++ many 8 1 RAlloc ++
  [(0%nat, RWrite 0 [1; 2; 3], true); (1%nat, RWrite 0 [7], true)] ++
  many 8 1 (RExpand 2) ++ [(0%nat, RWrite 0 [4], true)] ++
  many 4 1 (RExpand 2) ++ [(0%nat, RWrite 0 [5; 6], true); (0%nat, RAlloc, true); (0%nat, RAlloc, false)] ++
  many 6 1 (RExpand 2) ++ many 4 0 (RFree 0) ++ [(1%nat, RWrite 0 [8; 9], true)].

Lemma demo_sched_ok : turns_ok (ap_sz locked_apool) 2 demo_sched.
Proof. unfold turns_ok, demo_sched. repeat constructor; cbn; lia. Qed.

Lemma locked_pool_safe_witness :
  ∃ s A', @lrun demo_alloc locked_pool demo_sched (linit locked_heap 192 2) = Ok tt s ∧
    rtc abstract_step locked_apool A' ∧ ((λ t, t_held t) <$> threads s) = [[]; [(120, [8; 9])]].
Proof.
  destruct (@locked_pool_safe demo_alloc (bump_laws 4096) locked_heap locked_pool locked_apool 192 2 demo_sched
    locked_session locked_heap_at demo_sched_ok) as (s & A' & Hrun & Habs & _).
  exists s, A'. split; [exact Hrun|]. split; [exact Habs|].
  vm_compute in Hrun. injection Hrun as <-. vm_compute. reflexivity.
Defined.

Lemma locked_pool_progress_witness :
  ∃ s, @lrun demo_alloc locked_pool demo_sched (linit locked_heap 192 2) = Ok tt s ∧
    (busy s ≤ 16)%nat ∧ owner s = Some 0%nat ∧ busy s = 3%nat.
Proof.
  destruct (@locked_pool_progress demo_alloc (bump_laws 4096) locked_heap locked_pool locked_apool 192 2 demo_sched
    locked_session locked_heap_at demo_sched_ok) as (s & Hrun & Hb & _).
  exists s. split; [exact Hrun|]. split; [exact Hb|].
  vm_compute in Hrun. injection Hrun as <-. split; vm_compute; reflexivity.
Defined.

(** In the middle of the expansion the first free chunk is the new array's, and its node is not in
    the pool's list yet; the chunk of the other thread has what it wrote. *)
Example expansion_half_done :
  match @lrun demo_alloc locked_pool (take 35 demo_sched) (linit locked_heap 192 2) with
  | Ok _ s => Some (t_pc <$> threads s, load_list 96 2 (mem (lheap s)),
                    match load64 (Pool_free_chunk locked_pool) (lheap s), load64 (Pool_array_starts locked_pool) (lheap s) with
                    | Ok free_chunk _, Ok array_starts _ => Some (free_chunk, array_starts)
                    | _, _ => None
                    end)
  | _ => None
  end = Some ([TIdle; TExpand 2 (EArr 256 288)], Some [5; 6], Some (288, 64)).
Proof. vm_compute. reflexivity. Qed.
