(* ===== verification/BufferPool.v ===== *)
(** What the network code asks of a pool of buffers, as an interface: allocate a
    buffer or throw, give one back, and write and read the bytes of one that is
    held.  [UdpServer] and [UdpClient] are proved against it; [Mempool] discharges it. *)

From S2P Require Import Prelude CMem.
Local Open Scope Z_scope.

Class BufferPool (St : Type) := {
  bp_alloc : M St Z;
  bp_free : Z → M St unit;
  bp_write : Z → list Z → M St unit;
  bp_read : Z → nat → M St (list Z);
  bp_chunk_sz : M St Z;      (* stats().chunk_sz *)
  (* [bp_rep s sz n l]: buffers of [sz] bytes, [n] of them free, the others held,
     each with the bytes last written into it *)
  bp_rep : St → Z → nat → list (Z * list Z) → Prop
}.

Definition alloc_failed : exn := runtime_error "Mempool couldn't allocate chunk".

Class BufferPoolLaws (St : Type) `{BufferPool St} := {
  bp_alloc_ok s sz n l :
    bp_rep s sz (S n) l →
    wp bp_alloc (λ c s', c ≠ NULL ∧ bp_rep s' sz n ((c, []) :: l)) s;
  bp_alloc_fail s sz l :
    bp_rep s sz 0 l → ∃ s', bp_alloc s = Throw alloc_failed s' ∧ bp_rep s' sz 0 l;
  bp_free_ok s sz n l i c bs :
    bp_rep s sz n l → l !! i = Some (c, bs) →
    wp (bp_free c) (λ _ s', bp_rep s' sz (S n) (delete i l)) s;
  bp_write_ok s sz n l i c bs0 bs :
    bp_rep s sz n l → l !! i = Some (c, bs0) → Z.of_nat (length bs) ≤ sz →
    wp (bp_write c bs) (λ _ s', bp_rep s' sz n (<[i:=(c, bs)]> l)) s;
  bp_read_ok s sz n l i c bs :
    bp_rep s sz n l → l !! i = Some (c, bs) → bp_read c (length bs) s = Ok bs s;
  bp_chunk_sz_ok s sz n l :
    bp_rep s sz n l → bp_chunk_sz s = Ok sz s;
  bp_rep_pos s sz n l :
    bp_rep s sz n l → 0 < sz
}.
