(* ===== verification/Mempool.v ===== *)
(** class Mempool (src/common/include/common/mempool.hpp,
    src/common/src/mempool.cpp): the C++ wrapper of libpool.

    The object's members are a record beside the C heap; a member function runs
    on both, and an exception keeps the state reached when it was thrown.  The
    [fuel] argument bounds the traversal loops of [pool_available] and
    [pool_destroy].  Logging has no effect on the state. *)

From S2P Require Import Prelude Bytes CMem Libpool LibpoolLemmas LibpoolSpec LibpoolLife.
From S2P Require Import LibpoolClient BufferPool.
Local Open Scope Z_scope.

Record Mempool_stats := MempoolStats {
  st_chunk_sz : Z; st_pool_sz : Z; st_extra_sz : Z; st_available : Z
}.

Record Mempool := MkMempool {
  chunk_sz_ : Z;   (* as requested, before alignment *)
  pool_sz_ : Z;
  extra_sz_ : Z;
  pool_ : Z
}.

(** The object together with the heap it lives on. *)
Record mstate := MState { obj : Mempool; hp : heap }.

(** Run C code on the heap of the object. *)
Definition on_heap {A} (m : M heap A) : M mstate A := λ s,
  match m (hp s) with
  | Ok a h' => Ok a (MState (obj s) h')
  | Throw e h' => Throw e (MState (obj s) h')
  | UB u => UB u
  | OutOfFuel => OutOfFuel
  end.

Section mempool.
Context `{Allocator}.

(** Mempool::Mempool: the members are initialised before the body runs. *)
Definition Mempool_ctor (pool_sz chunk_sz : Z) : M heap Mempool :=
  pool ← pool_new pool_sz chunk_sz;
  let this := MkMempool chunk_sz pool_sz 0 pool in
  if pool =? NULL then throw (runtime_error "Failed to initialize libpool")
  else mret this.

Definition Mempool_dtor (fuel : nat) : M mstate unit :=
  s ← get; on_heap (pool_destroy fuel (pool_ (obj s))).

Definition Mempool_alloc : M mstate Z :=
  s ← get;
  chunk ← on_heap (pool_alloc (pool_ (obj s)));
  if chunk =? NULL then throw alloc_failed
  else mret chunk.

Definition Mempool_free (ptr : Z) : M mstate unit :=
  s ← get; on_heap (pool_free (pool_ (obj s)) ptr).

Definition set_extra_sz (extra : Z) : M mstate unit := λ s,
  Ok tt (MState (MkMempool (chunk_sz_ (obj s)) (pool_sz_ (obj s)) extra (pool_ (obj s))) (hp s)).

Definition Mempool_expand (fuel : nat) (extra_sz : Z) : M mstate bool :=
  s ← get;
  status ← on_heap (pool_expand (pool_ (obj s)) extra_sz);
  if negb status then
    on_heap (pool_destroy fuel (pool_ (obj s)));;
    throw (runtime_error "Failed to expand mempool")
  else
    s ← get;
    set_extra_sz (u64 (extra_sz_ (obj s) + extra_sz));;
    mret status.

Definition Mempool_stats_ (fuel : nat) : M mstate Mempool_stats :=
  s ← get;
  available ← on_heap (pool_available fuel (pool_ (obj s)));
  mret (MempoolStats (chunk_sz_ (obj s)) (pool_sz_ (obj s)) (extra_sz_ (obj s)) available).
End mempool.

(** ** Lemmas *)

Lemma on_heap_Ok {A} (m : M heap A) s a h' :
  m (hp s) = Ok a h' → on_heap m s = Ok a (MState (obj s) h').
Proof. unfold on_heap. by intros ->. Qed.

Lemma wp_on_heap {A} (m : M heap A) Q s :
  wp m (λ a h', Q a (MState (obj s) h')) (hp s) → wp (on_heap m) Q s.
Proof. unfold wp, on_heap. by destruct (m (hp s)). Qed.

(** The object is well formed: its pool represents [A], the chunk size the
    object reports fits in a chunk, and its counters count the chunks. *)
Record mempool_rep (s : mstate) (A : apool) : Prop := {
  mr_rep : pool_rep (hp s) (pool_ (obj s)) A;
  mr_chunk : 0 < chunk_sz_ (obj s) ≤ ap_sz A;
  mr_size : pool_sz_ (obj s) + extra_sz_ (obj s) = Z.of_nat (length (all_chunks A));
  mr_pos : 0 ≤ pool_sz_ (obj s) ∧ 0 ≤ extra_sz_ (obj s)
}.

(** Throwing and returning, seen through [on_heap]. *)
Lemma on_heap_bind_Ok {A B} (m : M heap A) (f : A → M mstate B) s a h' :
  m (hp s) = Ok a h' → (on_heap m ≫= f) s = f a (MState (obj s) h').
Proof. intros Hm. apply bind_Ok. by apply on_heap_Ok. Qed.

Lemma length_all_grow a A :
  Z.of_nat (length (all_chunks (ap_grow a A))) =
    Z.max 0 (ar_len a) + Z.of_nat (length (all_chunks A)).
Proof.
  unfold all_chunks. cbn [ap_grow ap_sz ap_arrays].
  rewrite chunks_cons, length_app, length_chunks_of. lia.
Qed.

(** Once its blocks are freed, the pool's fields are outside every live block. *)
Lemma destroyed_field_oob h h' p A :
  pool_rep h p A →
  (∀ b, blocks h' !! b =
     if decide (b ∈ bases p (ap_arrays A)) then None else blocks h !! b) →
  ¬ accessible h' (Pool_array_starts p) 8.
Proof.
  intros Hr Hbl (b & s & Hb & Hin). pose proof (pr_struct _ _ _ Hr) as Hs.
  rewrite Hbl in Hb. case_decide as Hnb; [done|].
  assert (b ≠ p) as Hne by (intros ->; apply Hnb; by left).
  destruct (ps_pool _ _ _ _ Hs) as (sp & Hp & Hle).
  pose proof (proj2 (ps_wf _ _ _ _ Hs) _ _ _ _ Hb Hp Hne).
  unfold in_block, disjoint_ranges, sizeof_Pool, Pool_array_starts in *. lia.
Qed.

Lemma load64_oob h a : ¬ accessible h a 8 → load64 a h = UB (ub_access a).
Proof. intros Ha. apply bind_UB. unfold load_bytes. by rewrite bool_decide_false. Qed.

(** Destroying a pool again. *)
Lemma destroy_again h' p fuel :
  p ≠ NULL → ¬ accessible h' (Pool_array_starts p) 8 →
  pool_destroy fuel p h' = UB (ub_access (Pool_array_starts p)).
Proof.
  intros Hp Hacc. unfold pool_destroy. rewrite (proj2 (Z.eqb_neq _ _) Hp).
  by apply bind_UB, load64_oob.
Qed.

Lemma destroyed_run h p A fuel :
  pool_rep h p A → (length (ap_arrays A) < fuel)%nat →
  ∃ h', pool_destroy fuel p h = Ok tt h' ∧
        ∀ b, blocks h' !! b =
          if decide (b ∈ bases p (ap_arrays A)) then None else blocks h !! b.
Proof.
  intros Hr Hfuel.
  destruct (proj1 (wp_run _ _ _) (wp_pool_destroy h p A fuel Hr Hfuel))
    as ([] & h' & Hrun & _ & Hbl).
  by exists h'.
Qed.

Lemma Mempool_dtor_destroyed o h h' A fuel :
  pool_rep h (pool_ o) A →
  (∀ b, blocks h' !! b =
     if decide (b ∈ bases (pool_ o) (ap_arrays A)) then None else blocks h !! b) →
  Mempool_dtor fuel (MState o h') = UB (ub_access (Pool_array_starts (pool_ o))).
Proof.
  intros Hr Hbl. unfold Mempool_dtor. rewrite get_bind. unfold on_heap. cbn [hp obj].
  rewrite destroy_again; [done| |by eapply destroyed_field_oob].
  apply Z.eqb_neq. by eapply pool_rep_nonnull.
Qed.

(** ** Mempool as a pool of buffers *)

(** A fact about the heap that the pool's own writes keep. *)
Class HeapFact (F : heap → Z → list array → Prop) := {
  hf_head h p sz arrs v : pool_struct h p sz arrs → F h p arrs → F (stored h p (le_bytes 8 v)) p arrs;
  hf_chunk h p sz arrs c bs : pool_struct h p sz arrs → F h p arrs →
    c ∈ chunks sz arrs → Z.of_nat (length bs) ≤ sz → F (stored h c bs) p arrs
}.

#[global] Instance no_fact : HeapFact (λ _ _ _, True).
Proof. by split. Qed.

(** The pool owns exactly the blocks that are not in [h0], in [k] arrays. *)
#[global] Instance footprint_fact h0 k : HeapFact (λ h p arrs, footprint h0 h p arrs ∧ length arrs = k).
Proof.
  split; intros.
  - destruct_and!. split; [by eapply fp_store_head|done].
  - destruct_and!. split; [by eapply fp_store_chunk|done].
Qed.

Definition Mempool_buffers (F : heap → Z → list array → Prop) (s : mstate) (sz : Z) (n : nat)
    (l : held) : Prop :=
  ∃ A, session_ok (hp s) (pool_ (obj s)) A l ∧ length (ap_free A) = n ∧ 0 < sz ≤ ap_sz A ∧
       chunk_sz_ (obj s) = sz ∧
       pool_sz_ (obj s) + extra_sz_ (obj s) = Z.of_nat (length (all_chunks A)) ∧
       F (hp s) (pool_ (obj s)) (ap_arrays A).

(** A pool has at most as many free chunks as the object counts. *)
Definition stats_fuel (s : mstate) : nat :=
  S (Z.to_nat (pool_sz_ (obj s) + extra_sz_ (obj s))).

Definition Mempool_chunk_sz : M mstate Z :=
  s ← get; stats ← Mempool_stats_ (stats_fuel s); mret (st_chunk_sz stats).

Definition Mempool_pool (F : heap → Z → list array → Prop) : BufferPool mstate := {|
  bp_alloc := Mempool_alloc;
  bp_free := Mempool_free;
  bp_write c bs := on_heap (store_bytes c bs);
  bp_read c n := on_heap (load_bytes c n);
  bp_chunk_sz := Mempool_chunk_sz;
  bp_rep := Mempool_buffers F
|}.

#[global] Instance Mempool_BufferPool : BufferPool mstate := Mempool_pool (λ _ _ _, True).

Lemma Mempool_alloc_some s A c f :
  pool_rep (hp s) (pool_ (obj s)) A → ap_free A = c :: f →
  Mempool_alloc s =
    Ok c (MState (obj s) (stored (hp s) (pool_ (obj s)) (le_bytes 8 (head_chunk f)))).
Proof.
  intros Hr Hf. unfold Mempool_alloc. rewrite get_bind.
  rewrite (on_heap_bind_Ok _ _ _ _ _ (pool_alloc_run _ _ _ _ _ Hr Hf)).
  by rewrite (pool_rep_free_nonnull _ _ _ c Hr) by (apply Hr; rewrite Hf; by left).
Qed.

Lemma Mempool_alloc_none s A :
  pool_rep (hp s) (pool_ (obj s)) A → ap_free A = [] →
  Mempool_alloc s = Throw alloc_failed s.
Proof.
  intros Hr Hf. unfold Mempool_alloc. rewrite get_bind.
  rewrite (on_heap_bind_Ok _ _ _ _ _ (pool_alloc_empty _ _ _ Hr Hf)). by destruct s.
Qed.

Lemma Mempool_pool_laws F `{!HeapFact F} : @BufferPoolLaws mstate (Mempool_pool F).
Proof.
  split; cbn [bp_rep bp_alloc bp_free bp_write bp_read bp_chunk_sz Mempool_pool].
  - intros s sz n l (A & Hok & Hlen & Hsz & Hobj & Hcnt & HF). pose proof (so_rep _ _ _ _ Hok) as Hr.
    destruct (ap_free A) as [|c f] eqn:Hf; [done|].
    apply (wp_Ok _ _ _ _ _ (Mempool_alloc_some s A c f Hr Hf)). split.
    + apply Z.eqb_neq, (pool_rep_free_nonnull _ _ _ c Hr). apply Hr. rewrite Hf. by left.
    + exists (APool (ap_sz A) f (ap_arrays A)). cbn in *. split_and!; [|lia..| | |]; try done.
      * by apply session_alloc.
      * by eapply hf_head, HF; apply Hr.
  - intros s sz l (A & Hok & Hlen & Hsz & Hobj). pose proof (so_rep _ _ _ _ Hok) as Hr.
    exists s. split; [by eapply Mempool_alloc_none, nil_length_inv|]. by exists A.
  - intros s sz n l i c bs (A & Hok & Hlen & Hsz & Hobj & Hcnt & HF) Hi.
    pose proof (so_rep _ _ _ _ Hok) as Hr. pose proof (pr_struct _ _ _ Hr) as Hs.
    destruct (so_held_chunk _ _ _ _ Hok c bs) as [Hch _]; [by eapply list_elem_of_lookup_2|].
    unfold Mempool_free. apply wp_bind, wp_ret, wp_on_heap.
    apply (wp_Ok _ _ _ _ _ (pool_free_run _ _ _ _ Hr Hch)).
    assert (Z.of_nat (length (le_bytes 8 (head_chunk (ap_free A)))) ≤ ap_sz A) as Hle.
    { rewrite le_bytes_length. pose proof (ps_sz _ _ _ _ Hs). lia. }
    exists (ap_release c A). split_and!; [by eapply session_free|cbn; lia..| | |]; try done. cbn.
    eapply hf_head; [by apply pool_struct_store_chunk|]. by eapply hf_chunk.
  - intros s sz n l i c bs0 bs (A & Hok & Hlen & Hsz & Hobj & Hcnt & HF) Hi Hbs.
    pose proof (so_rep _ _ _ _ Hok) as Hr. pose proof (pr_struct _ _ _ Hr) as Hs.
    destruct (so_held_chunk _ _ _ _ Hok c bs0) as [Hch _]; [by eapply list_elem_of_lookup_2|].
    apply wp_on_heap. unfold wp, store_bytes. rewrite bool_decide_true.
    + exists A. split_and!; [eapply session_write; [done|done|lia]|done|lia..| | |]; try done.
      eapply hf_chunk; [exact Hs|done|done|lia].
    + apply (chunk_accessible _ _ _ _ Hs); [done|lia].
  - intros s sz n l i c bs (A & Hok & Hlen & Hsz & Hobj) Hi.
    pose proof (list_elem_of_lookup_2 _ _ _ Hi) as Hin.
    destruct (so_held_chunk _ _ _ _ Hok c bs Hin) as [Hch _].
    destruct (so_content _ _ _ _ Hok c bs Hin) as [Hle Hload].
    assert (load_bytes c (length bs) (hp s) = Ok bs (hp s)) as Hl.
    { unfold load_bytes. rewrite bool_decide_true, Hload; [done|].
      apply (chunk_accessible _ _ _ _ (pr_struct _ _ _ (so_rep _ _ _ _ Hok))); [done|lia]. }
    rewrite (on_heap_Ok _ _ _ _ Hl). by destruct s.
  - intros s sz n l (A & Hok & Hlen & Hsz & Hc & Hcount & _). pose proof (so_rep _ _ _ _ Hok) as Hr.
    pose proof (submseteq_length _ _ (NoDup_submseteq _ _ (pr_nodup _ _ _ Hr) (pr_free _ _ _ Hr))).
    unfold Mempool_chunk_sz, Mempool_stats_. rewrite get_bind, bind_run, get_bind.
    rewrite (on_heap_bind_Ok _ _ _ _ _ (pool_available_run _ _ _ (stats_fuel s) Hr
      ltac:(unfold stats_fuel; rewrite Hcount; lia))).
    cbn. rewrite Hc. by destruct s.
  - intros s sz n l (A & _ & _ & Hsz & _). lia.
Qed.

#[global] Instance Mempool_BufferPoolLaws : BufferPoolLaws mstate := Mempool_pool_laws _.
