(* ===== verification/MempoolProps.v ===== *)
(** The properties of class Mempool, with their witnesses. *)

From S2P Require Import Prelude Bytes CMem Libpool LibpoolLemmas LibpoolDec LibpoolSpec.
From S2P Require Import LibpoolLife LibpoolClient BufferPool Mempool.
Local Open Scope Z_scope.

Definition init_failed : exn := runtime_error "Failed to initialize libpool".
Definition expand_failed : exn := runtime_error "Failed to expand mempool".

Section props.
Context `{AllocatorLaws}.

(** The constructor, with the session its pool starts. *)
Lemma Mempool_ctor_cases h n c :
  heap_wf h → 0 < n < 2 ^ 64 → 0 < c ≤ 2 ^ 64 - 8 →
  n * ALIGN2BOUNDARY c sizeof_ptr < 2 ^ 64 →
  match Mempool_ctor n c h with
  | Ok this h' => ∃ A, mempool_rep (MState this h') A ∧
      session_ok h' (pool_ this) A [] ∧
      ap_free A = all_chunks A ∧ Z.of_nat (length (ap_free A)) = n ∧
      chunk_sz_ this = c ∧ extra_sz_ this = 0 ∧
      footprint h h' (pool_ this) (ap_arrays A) ∧ length (ap_arrays A) = 1%nat
  | Throw e h' => e = init_failed ∧ blocks h' = blocks h ∧ preserves h h' ∧
      (ext_funcs_set = false ∨
       refused h [sizeof_Pool; sizeof_ArrayStart; n * ALIGN2BOUNDARY c sizeof_ptr])
  | _ => False
  end.
Proof.
  intros Hwf Hn Hc Hfit. destruct (align_spec c ltac:(lia)) as [Hsz Hdiv].
  destruct (proj1 (wp_run _ _ _) (wp_pool_new h n c Hwf Hn Hc Hfit))
    as (p & h' & Hrun & Hpost).
  unfold Mempool_ctor. rewrite (bind_Ok _ _ _ _ _ Hrun).
  destruct (p =? NULL) eqn:Hp; bool_to_prop.
  - destruct Hpost as (Hwf' & Hpr & [(_ & Hbl & Hwhy)|Hnew]); [done|].
    destruct Hnew as (node & base & Hr & _). apply pool_rep_nonnull in Hr. by rewrite Hp in Hr.
  - destruct (new_session _ _ _ _ _ Hpost Hp) as (A & [Hok Hfp] & [HA Harr] & Hfree & Hlen).
    exists A. rewrite Hfree, Hlen. split_and!; try done; [|lia].
    split; cbn [obj hp chunk_sz_ pool_sz_ extra_sz_ pool_]; [apply Hok|lia|lia|lia].
Qed.

(** The constructor of Mempool, for sizes that fit the address space, either
    builds a well-formed object whose [pool_sz] chunks are all free and hold at
    least [chunk_sz] bytes each, or throws the documented runtime_error because
    the pool's memory was refused, with every block given back.  It never has
    undefined behaviour. *)
Theorem Mempool_ctor_correct h n c :
  heap_wf h → 0 < n < 2 ^ 64 → 0 < c ≤ 2 ^ 64 - 8 →
  n * ALIGN2BOUNDARY c sizeof_ptr < 2 ^ 64 →
  match Mempool_ctor n c h with
  | Ok this h' => ∃ A, mempool_rep (MState this h') A ∧
      ap_free A = all_chunks A ∧ Z.of_nat (length (ap_free A)) = n ∧
      chunk_sz_ this = c ∧ extra_sz_ this = 0 ∧
      footprint h h' (pool_ this) (ap_arrays A)
  | Throw e h' => e = init_failed ∧ blocks h' = blocks h ∧ preserves h h' ∧
      (ext_funcs_set = false ∨
       refused h [sizeof_Pool; sizeof_ArrayStart; n * ALIGN2BOUNDARY c sizeof_ptr])
  | _ => False
  end.
Proof.
  intros Hwf Hn Hc Hfit. pose proof (Mempool_ctor_cases h n c Hwf Hn Hc Hfit) as Hcases.
  destruct (Mempool_ctor n c h) as [this h'| | |]; [|done..].
  destruct Hcases as (A & Hr & _ & ? & ? & ? & ? & ? & _). by exists A.
Qed.

(** [Mempool::alloc] returns the next free chunk, or throws the documented
    runtime_error, leaving the object unchanged, exactly when no chunk is free. *)
Theorem Mempool_alloc_correct s A :
  mempool_rep s A →
  match ap_alloc A with
  | None => Mempool_alloc s = Throw alloc_failed s
  | Some (c, A') => ∃ s', Mempool_alloc s = Ok c s' ∧ mempool_rep s' A' ∧
      obj s' = obj s ∧ accessible (hp s') c (chunk_sz_ (obj s))
  end.
Proof.
  intros [Hr Hc Hsz Hpos]. pose proof (pr_struct _ _ _ Hr) as Hs.
  unfold ap_alloc. destruct (ap_free A) as [|c f] eqn:Hf; [by eapply Mempool_alloc_none|].
  eexists. split; [by apply (Mempool_alloc_some s A c f)|]. split_and!; [|done|].
  - split; cbn [obj hp ap_sz]; [by apply (pool_alloc_rep (hp s) _ A c)|done..].
  - apply accessible_stored, (chunk_accessible _ _ _ _ Hs); [|lia].
    apply Hr. rewrite Hf. by left.
Qed.

(** [Mempool::stats] returns, on every well-formed object, the sizes the
    object was built with, the chunks added so far, and as [available] the number
    of free chunks, never more than [pool_sz + extra_sz]. *)
Theorem Mempool_stats_correct s A fuel :
  mempool_rep s A → (length (all_chunks A) < fuel)%nat →
  Mempool_stats_ fuel s =
    Ok (MempoolStats (chunk_sz_ (obj s)) (pool_sz_ (obj s)) (extra_sz_ (obj s))
          (Z.of_nat (length (ap_free A)))) s ∧
  Z.of_nat (length (ap_free A)) ≤ pool_sz_ (obj s) + extra_sz_ (obj s).
Proof.
  intros [Hr Hc Hsz Hpos] Hfuel.
  pose proof (submseteq_length _ _ (NoDup_submseteq _ _ (pr_nodup _ _ _ Hr) (pr_free _ _ _ Hr))).
  split; [|lia]. unfold Mempool_stats_. rewrite get_bind.
  rewrite (on_heap_bind_Ok _ _ _ _ _ (pool_available_run _ _ _ fuel Hr ltac:(lia))).
  by destruct s.
Qed.

(** C10: [Mempool::expand] that fits the address space either adds the chunks and
    accumulates [extra_sz_], or throws the documented runtime_error because memory
    was refused.  In the second case it has destroyed the pool, so that the
    destructor, which destroys it again, reads freed memory. *)
Theorem Mempool_expand_correct s A m fuel :
  mempool_rep s A → 0 < m → m * ap_sz A < 2 ^ 64 → (length (ap_arrays A) < fuel)%nat →
  match Mempool_expand fuel m s with
  | Ok r s' => r = true ∧ ∃ a, ar_len a = m ∧ mempool_rep s' (ap_grow a A) ∧
      obj s' = MkMempool (chunk_sz_ (obj s)) (pool_sz_ (obj s)) (extra_sz_ (obj s) + m)
                         (pool_ (obj s))
  | Throw e s' => e = expand_failed ∧ refused (hp s) [sizeof_ArrayStart; m * ap_sz A] ∧
      obj s' = obj s ∧
      ∀ fuel', Mempool_dtor fuel' s' = UB (ub_access (Pool_array_starts (pool_ (obj s))))
  | _ => False
  end.
Proof.
  intros [Hr Hc Hsz Hpos] Hm Hfit Hfuel.
  destruct (proj1 (wp_run _ _ _) (wp_pool_expand _ _ _ m Hr Hm Hfit))
    as (r & h' & Hrun & Hpost).
  unfold Mempool_expand. rewrite get_bind, (on_heap_bind_Ok _ _ _ _ _ Hrun).
  destruct r; cbn [negb].
  - destruct Hpost as (node & base & Hr' & _ & _). cbn zeta in Hr'.
    pose proof (length_all_grow (Array node base m) A) as Hlen. cbn [ar_len] in Hlen.
    pose proof (all_chunks_lt _ _ _ Hr'). rewrite get_bind.
    assert (u64 (extra_sz_ (obj s) + m) = extra_sz_ (obj s) + m) as Hw
      by (apply uwrap_small; lia).
    rewrite bind_run. unfold set_extra_sz. cbn [obj hp extra_sz_]. rewrite Hw.
    split; [done|]. exists (Array node base m). split_and!; [done| |done].
    split; cbn [obj hp chunk_sz_ pool_sz_ extra_sz_ pool_ ap_grow ap_sz]; [done|done| |lia].
    fold (ap_grow (Array node base m) A). lia.
  - destruct Hpost as ((Hr' & Hbl & _) & Href).
    destruct (destroyed_run h' _ A fuel Hr' Hfuel) as (h'' & Hd & Hbl'').
    rewrite (on_heap_bind_Ok _ _ (MState (obj s) h') _ _ Hd). split_and!; [done|done|done|].
    intros fuel'. by eapply Mempool_dtor_destroyed.
Qed.

(** [Mempool::expand(0)] always throws, even when memory is plentiful, and
    leaves an object whose destruction has undefined behaviour. *)
Theorem Mempool_expand_zero s A fuel :
  mempool_rep s A → (length (ap_arrays A) < fuel)%nat →
  ∃ s', Mempool_expand fuel 0 s = Throw expand_failed s' ∧
    ∀ fuel', Mempool_dtor fuel' s' = UB (ub_access (Pool_array_starts (pool_ (obj s)))).
Proof.
  intros [Hr _ _ _] Hfuel. destruct (destroyed_run (hp s) _ A fuel Hr Hfuel) as (h'' & Hd & Hbl'').
  exists (MState (obj s) h''). split.
  - unfold Mempool_expand. rewrite get_bind.
    assert (pool_expand (pool_ (obj s)) 0 (hp s) = Ok false (hp s)) as Hrun.
    { unfold pool_expand. by rewrite orb_true_r. }
    rewrite (on_heap_bind_Ok _ _ _ _ _ Hrun). cbn [negb].
    by rewrite (on_heap_bind_Ok _ _ (MState (obj s) (hp s)) _ _ Hd).
  - intros fuel'. by eapply Mempool_dtor_destroyed.
Qed.
End props.

(** ** Witnesses *)

(** The object that [Mempool(3, 20, logger)] builds, holding the concrete pool. *)
Definition demo_mstate : mstate := MState (MkMempool 20 3 0 demo_pool) demo_heap.

Lemma demo_mempool : mempool_rep demo_mstate demo_apool.
Proof. split; [exact demo_rep|cbn; lia|reflexivity|cbn; lia]. Qed.

Lemma Mempool_ctor_correct_witness :
  ∃ this h' A, @Mempool_ctor demo_alloc 3 20 empty_heap = Ok this h' ∧
               mempool_rep (MState this h') A.
Proof.
  pose proof (@Mempool_ctor_correct demo_alloc (bump_laws 4096) empty_heap 3 20 empty_heap_wf
    ltac:(lia) ltac:(lia) ltac:(vm_compute; reflexivity)) as Hc.
  assert (@Mempool_ctor demo_alloc 3 20 empty_heap = Ok (obj demo_mstate) (hp demo_mstate)) as Hrun
    by (vm_compute; reflexivity).
  rewrite Hrun in Hc. destruct Hc as (A & Hr & _).
  exists (obj demo_mstate), (hp demo_mstate), A. split; [exact Hrun|exact Hr].
Defined.

Lemma Mempool_alloc_correct_witness :
  ∃ s', Mempool_alloc demo_mstate = Ok 96 s' ∧ obj s' = obj demo_mstate.
Proof.
  destruct (Mempool_alloc_correct demo_mstate demo_apool demo_mempool) as (s' & Hrun & _ & Ho & _).
  exists s'. split; [exact Hrun|exact Ho].
Defined.

Lemma Mempool_stats_correct_witness :
  Mempool_stats_ 4 demo_mstate = Ok (MempoolStats 20 3 0 3) demo_mstate.
Proof.
  apply (Mempool_stats_correct demo_mstate demo_apool 4 demo_mempool). vm_compute. lia.
Defined.

(** With an arena of 170 bytes the pool fits and two more chunks do not. *)
Lemma Mempool_expand_correct_witness :
  (∃ s', @Mempool_expand demo_alloc 2 2 demo_mstate = Ok true s' ∧ extra_sz_ (obj s') = 2) ∧
  (∃ s', @Mempool_expand (bump 170) 2 2 demo_mstate = Throw expand_failed s').
Proof.
  pose proof (@Mempool_expand_correct demo_alloc (bump_laws 4096) demo_mstate demo_apool 2 2
    demo_mempool ltac:(lia) ltac:(vm_compute; reflexivity) ltac:(cbn; lia)) as H1.
  pose proof (@Mempool_expand_correct (bump 170) (bump_laws 170) demo_mstate demo_apool 2 2
    demo_mempool ltac:(lia) ltac:(vm_compute; reflexivity) ltac:(cbn; lia)) as H2.
  split.
  - assert (∃ s', @Mempool_expand demo_alloc 2 2 demo_mstate = Ok true s') as [s' Hrun]
      by (eexists; vm_compute; reflexivity).
    rewrite Hrun in H1. destruct H1 as (_ & a & _ & _ & Ho). exists s'. split; [exact Hrun|].
    rewrite Ho. reflexivity.
  - assert (∃ s', @Mempool_expand (bump 170) 2 2 demo_mstate = Throw expand_failed s') as [s' Hrun]
      by (eexists; vm_compute; reflexivity).
    rewrite Hrun in H2. exists s'. destruct H2 as [_ _]. exact Hrun.
Defined.

Lemma Mempool_expand_zero_witness :
  ∃ s', @Mempool_expand demo_alloc 2 0 demo_mstate = Throw expand_failed s' ∧
        Mempool_dtor 5 s' = UB (ub_access 24).
Proof.
  destruct (@Mempool_expand_zero demo_alloc demo_mstate demo_apool 2 demo_mempool ltac:(cbn; lia))
    as (s' & Hrun & Hd).
  exists s'. split; [exact Hrun|exact (Hd 5%nat)].
Defined.
