(* ===== verification/UdpServer.v ===== *)
(** class Udp_server (src/server/network/udp_server.hpp, src/server/network/udp_server.cpp):
    the asynchronous receive loop and sends, over the buffer pool interface.

    asio is outside the repository.  What the code relies on is in the events: a pending
    receive completes with the first [chunk_size_] bytes of a datagram, stored in its buffer,
    and with the sender stored in [remote_endpoint_], or with an error; a pending send
    completes, or fails; each operation completes once.  The handlers run one at a time,
    on the thread of the io_context. *)

From S2P Require Import Prelude CMem BufferPool Format.
Local Open Scope Z_scope.

Abbreviation endpoint := (Z * Z)%type.      (* address, port *)

(** A send that has been started: its buffer, its length and its destination. *)
Record send_op := SendOp { so_chunk : Z; so_len : nat; so_dest : endpoint }.

Section server.
Context {St : Type} `{BufferPool St}.

Record Udp_server := Server {
  mempool_ : St;
  chunk_size_ : Z;
  remote_endpoint_ : endpoint;
  receiving : option Z;                  (* the buffer of the pending receive *)
  sending : list send_op;                (* the pending sends, oldest first *)
  wire : list (endpoint * list Z);       (* the datagrams that have left *)
  hex : bool;                            (* std::cout is in hexadecimal mode *)
  out : list chars                       (* lines written to std::cout *)
}.

Definition set_pool (s : Udp_server) p :=
  Server p (chunk_size_ s) (remote_endpoint_ s) (receiving s) (sending s) (wire s) (hex s) (out s).
Definition set_chunk_size (s : Udp_server) c :=
  Server (mempool_ s) c (remote_endpoint_ s) (receiving s) (sending s) (wire s) (hex s) (out s).
Definition set_remote (s : Udp_server) e :=
  Server (mempool_ s) (chunk_size_ s) e (receiving s) (sending s) (wire s) (hex s) (out s).
Definition set_receiving (s : Udp_server) r :=
  Server (mempool_ s) (chunk_size_ s) (remote_endpoint_ s) r (sending s) (wire s) (hex s) (out s).
Definition set_sending (s : Udp_server) l w :=
  Server (mempool_ s) (chunk_size_ s) (remote_endpoint_ s) (receiving s) l w (hex s) (out s).
Definition set_out (s : Udp_server) b l :=
  Server (mempool_ s) (chunk_size_ s) (remote_endpoint_ s) (receiving s) (sending s) (wire s) b l.

(** A member function of mempool_. *)
Definition on_pool {A} (m : M St A) : M Udp_server A := λ s,
  match m (mempool_ s) with
  | Ok a p => Ok a (set_pool s p)
  | Throw e p => Throw e (set_pool s p)
  | UB u => UB u
  | OutOfFuel => OutOfFuel
  end.

Definition print (line : chars) : M Udp_server unit :=
  modify (λ s, set_out s (hex s) (out s ++ [line])).

Definition text (s : string) : chars := String.list_ascii_of_string s.

(** [std::cout << "bytes_received: " << bytes_received]: in the mode the stream is in. *)
Definition print_count (n : nat) : M Udp_server unit :=
  modify (λ s, set_out s (hex s)
    (out s ++ [text "bytes_received: " ++ show_unsigned (hex s) (Z.of_nat n)])).

(** [std::hex << setw(2) << setfill('0') << static_cast<int>(chunk[i])], which leaves the
    stream in hexadecimal mode. *)
Fixpoint print_bytes (bs : list Z) : M Udp_server unit :=
  match bs with
  | [] => mret tt
  | b :: bs' => modify (λ s, set_out s true (out s ++ [dump_byte b]));; print_bytes bs'
  end.

(** async_receive(): a buffer is allocated and a receive into it is started. *)
Definition async_receive : M Udp_server unit :=
  chunk ← on_pool bp_alloc;
  modify (λ s, set_receiving s (Some chunk)).

(** The completion handler of the receive. *)
Definition receive_handler (chunk : Z) (ok : bool) (bytes_received : nat) : M Udp_server unit :=
  if ok then
    print [];;
    print (text "async_receive() complete");;
    print_count bytes_received;;
    print (text "Receive buffer");;
    data ← on_pool (bp_read chunk bytes_received);
    print_bytes data;;
    on_pool (bp_free chunk);;
    async_receive
  else mret tt.                           (* writes to std::cerr *)

(** async_send(chunk, length): the destination is copied when the operation starts. *)
Definition async_send (chunk : Z) (length : nat) : M Udp_server unit :=
  modify (λ s, set_sending s (sending s ++ [SendOp chunk length (remote_endpoint_ s)]) (wire s)).

Definition send_handler (chunk : Z) (ok : bool) : M Udp_server unit :=
  if ok then print (text "async_send() complete");; on_pool (bp_free chunk) else mret tt.

(** The constructor; [local] is the endpoint the socket is bound to.  The members
    chunk_size_ and remote_endpoint_ get their values in the body. *)
Definition Udp_server_ctor (local : endpoint) : M Udp_server unit :=
  chunk_sz ← on_pool bp_chunk_sz;
  modify (λ s, set_chunk_size s chunk_sz);;
  modify (λ s, set_remote s local);;
  async_receive.

(** The object before the body of the constructor runs. *)
Definition raw_server (pool : St) : Udp_server := Server pool 0 (0, 0) None [] [] false [].

(** ** Events *)

Inductive event : Type :=
| EvReceived (from : endpoint) (bs : list Z)
| EvReceiveError
| EvApp (bs : list Z)           (* the application sends [bs] in a buffer of the pool *)
| EvSent (i : nat)              (* the i-th pending send has completed *)
| EvSendError (i : nat).

(** Completion of the pending receive, as asio performs it. *)
Definition complete_receive (from : endpoint) (bs : list Z) : M Udp_server unit :=
  s ← get;
  match receiving s with
  | None => mret tt
  | Some chunk =>
      let data := take (Z.to_nat (chunk_size_ s)) bs in   (* asio::buffer(chunk, chunk_size_) *)
      put (set_remote (set_receiving s None) from);;
      on_pool (bp_write chunk data);;
      receive_handler chunk true (length data)
  end.

Definition fail_receive : M Udp_server unit :=
  s ← get;
  match receiving s with
  | None => mret tt
  | Some chunk => put (set_receiving s None);; receive_handler chunk false 0
  end.

(** The application's side of a send; when no buffer is left the exception of alloc()
    goes to the application. *)
Definition app_send (bs : list Z) : M Udp_server unit := λ s,
  match on_pool bp_alloc s with
  | Throw _ s' => Ok tt s'
  | Ok chunk s' => (on_pool (bp_write chunk bs);; async_send chunk (length bs)) s'
  | UB u => UB u
  | OutOfFuel => OutOfFuel
  end.

(** A send that completes has transmitted the bytes of its buffer. *)
Definition finish_send (i : nat) (ok : bool) : M Udp_server unit :=
  s ← get;
  match sending s !! i with
  | None => mret tt
  | Some op =>
      if ok then
        data ← on_pool (bp_read (so_chunk op) (so_len op));
        modify (λ s, set_sending s (delete i (sending s)) (wire s ++ [(so_dest op, data)]));;
        send_handler (so_chunk op) true
      else
        put (set_sending s (delete i (sending s)) (wire s));;
        send_handler (so_chunk op) false
  end.

Definition step (e : event) : M Udp_server unit :=
  match e with
  | EvReceived from bs => complete_receive from bs
  | EvReceiveError => fail_receive
  | EvApp bs => app_send bs
  | EvSent i => finish_send i true
  | EvSendError i => finish_send i false
  end.

Fixpoint run (es : list event) : M Udp_server unit :=
  match es with
  | [] => mret tt
  | e :: es' => step e;; run es'
  end.

(** The application writes no more than a buffer holds.  Nothing is asked of datagrams. *)
Definition event_ok (sz : Z) (e : event) : Prop :=
  match e with
  | EvApp bs => Z.of_nat (length bs) ≤ sz
  | _ => True
  end.
End server.
