(* ===== verification/UdpServerSpec.v ===== *)
(** What class Udp_server promises, as an abstract server, and the proof that the class refines it
    over any buffer pool that keeps the laws of [BufferPool].

    The abstract server has no buffers: it knows the datagrams that are being sent, how many
    buffers are in use, and what has been printed.  Every event, errors included, is a function
    on it ([spec_step]). *)

From S2P Require Import Prelude Bytes CMem BufferPool Format UdpServer.
Local Open Scope Z_scope.

(** ** The abstract server *)

Record aserver := AServer {
  a_remote : endpoint;                       (* where the next send goes *)
  a_recv : bool;                             (* a receive is pending *)
  a_pending : list (endpoint * list Z);      (* datagrams being sent, oldest first *)
  a_lost : nat;                              (* buffers never given back *)
  a_wire : list (endpoint * list Z);         (* datagrams that have left *)
  a_hex : bool;
  a_out : list chars
}.

(** The mode of std::cout after a dump. *)
Definition hex_after (hex_mode : bool) (bs : list Z) : bool :=
  match bs with [] => hex_mode | _ => true end.

(** What the server prints for a datagram. *)
Definition receive_report (hex_mode : bool) (bs : list Z) : list chars :=
  [[]; text "async_receive() complete";
   text "bytes_received: " ++ show_unsigned hex_mode (Z.of_nat (length bs));
   text "Receive buffer"] ++ (dump_byte <$> bs).

Section spec.
Context (sz : Z) (N : nat).                  (* the size and the number of the buffers *)

Definition a_used (a : aserver) : nat := Nat.b2n (a_recv a) + length (a_pending a) + a_lost a.

Definition spec_step (e : event) (a : aserver) : aserver :=
  match e with
  | EvReceived from bs =>
      if a_recv a then
        let data := take (Z.to_nat sz) bs in
        AServer from true (a_pending a) (a_lost a) (a_wire a) (hex_after (a_hex a) data)
                (a_out a ++ receive_report (a_hex a) data)
      else a
  | EvReceiveError =>
      if a_recv a then
        AServer (a_remote a) false (a_pending a) (S (a_lost a)) (a_wire a) (a_hex a) (a_out a)
      else a
  | EvApp bs =>
      if (a_used a <? N)%nat then
        AServer (a_remote a) (a_recv a) (a_pending a ++ [(a_remote a, bs)]) (a_lost a) (a_wire a)
                (a_hex a) (a_out a)
      else a
  | EvSent i =>
      match a_pending a !! i with
      | Some d => AServer (a_remote a) (a_recv a) (delete i (a_pending a)) (a_lost a) (a_wire a ++ [d])
                          (a_hex a) (a_out a ++ [text "async_send() complete"])
      | None => a
      end
  | EvSendError i =>
      match a_pending a !! i with
      | Some _ => AServer (a_remote a) (a_recv a) (delete i (a_pending a)) (S (a_lost a)) (a_wire a)
                          (a_hex a) (a_out a)
      | None => a
      end
  end.

Definition spec_run (es : list event) (a : aserver) : aserver := foldl (λ a e, spec_step e a) a es.
End spec.

(** A server that has just been constructed. *)
Definition spec_start (local : endpoint) : aserver := AServer local true [] 0 [] false [].

(** ** Buffers by membership *)

Section members.
Context {St : Type} `{BufferPoolLaws St}.

Lemma free_member p sz n l c bs l0 :
  bp_rep p sz n l → l ≡ₚ (c, bs) :: l0 →
  wp (bp_free c) (λ _ p', ∃ l', l' ≡ₚ l0 ∧ bp_rep p' sz (S n) l') p.
Proof.
  intros Hr Hp. assert ((c, bs) ∈ l) as [i Hi]%list_elem_of_lookup by (rewrite Hp; by left).
  eapply wp_mono; [by eapply bp_free_ok|]. intros [] p' Hr'. exists (delete i l). split; [|done].
  apply (Permutation_cons_inv (a := (c, bs))). rewrite <- Hp. symmetry. by apply delete_Permutation.
Qed.

Lemma write_member p sz n l c bs0 bs l0 :
  bp_rep p sz n l → l ≡ₚ (c, bs0) :: l0 → Z.of_nat (length bs) ≤ sz →
  wp (bp_write c bs) (λ _ p', ∃ l', l' ≡ₚ (c, bs) :: l0 ∧ bp_rep p' sz n l') p.
Proof.
  intros Hr Hp Hlen. assert ((c, bs0) ∈ l) as [i Hi]%list_elem_of_lookup by (rewrite Hp; by left).
  eapply wp_mono; [by eapply bp_write_ok|]. intros [] p' Hr'. eexists. split; [|exact Hr'].
  pose proof (lookup_lt_Some _ _ _ Hi).
  etransitivity; [apply (delete_Permutation _ i (c, bs)); by apply list_lookup_insert_eq|].
  apply perm_skip. rewrite delete_insert_list.
  apply (Permutation_cons_inv (a := (c, bs0))). rewrite <- Hp. symmetry. by apply delete_Permutation.
Qed.

Lemma read_member p sz n l c bs l0 :
  bp_rep p sz n l → l ≡ₚ (c, bs) :: l0 → bp_read c (length bs) p = Ok bs p.
Proof.
  intros Hr Hp. assert ((c, bs) ∈ l) as [i Hi]%list_elem_of_lookup by (rewrite Hp; by left).
  by eapply bp_read_ok.
Qed.
End members.

(** ** The invariant *)

Section server.
Context {St : Type} `{BufferPoolLaws St}.
Implicit Types s : Udp_server (St := St).

Lemma wp_on_pool {A} (m : M St A) Q s :
  wp m (λ a p, Q a (set_pool s p)) (mempool_ s) → wp (on_pool m) Q s.
Proof. unfold wp, on_pool. by destruct (m (mempool_ s)). Qed.

(** A buffer of a pending send holds what is to be sent. *)
Definition send_ok (op : send_op) (e : Z * list Z) : Prop :=
  so_chunk op = e.1 ∧ so_len op = length e.2.

(** The size of the buffers, and the size that is given to a receive into one of them: the value of
    the member chunk_size_.  They are the same for the server. *)
Record sizes := Sizes { pool_sz : Z; recv_sz : Z }.

Definition same (sz : Z) : sizes := Sizes sz sz.
Coercion same : Z >-> sizes.

(** Of [N] buffers, [n] are free, one is being received into when [rl] is not empty, those
    of [sl] are being sent, and those of [ll] were never given back. *)
Record srv_inv (sz : sizes) (N : nat) (s : Udp_server) (n : nat) (rl sl ll : list (Z * list Z)) : Prop := {
  si_rep : ∃ l, bp_rep (mempool_ s) (pool_sz sz) n l ∧ l ≡ₚ rl ++ sl ++ ll;
  si_chunk : chunk_size_ s = recv_sz sz ∧ 0 ≤ recv_sz sz ≤ pool_sz sz;
  si_recv : rl.*1 = option_list (receiving s);
  si_send : Forall2 send_ok (sending s) sl;
  si_total : (n + length (rl ++ sl ++ ll) = N)%nat
}.

Lemma wp_print_bytes bs : ∀ s (Q : unit → Udp_server → Prop),
  Q tt (set_out s (hex_after (hex s) bs) (out s ++ (dump_byte <$> bs))) → wp (print_bytes bs) Q s.
Proof.
  induction bs as [|b bs IH]; intros s Q HQ; cbn [print_bytes].
  - apply wp_ret. cbn in HQ. rewrite app_nil_r in HQ. by destruct s.
  - apply wp_bind, wp_modify, IH. cbn in *. rewrite <- app_assoc. by destruct bs.
Qed.

Lemma option_list_Some (r : option Z) c : option_list r = [c] → r = Some c.
Proof. destruct r; naive_solver. Qed.

(** The receive handler, in a state where the buffer is no longer owned by asio. *)
Lemma wp_receive_handler sz N s n c bs l0 (sl ll : list (Z * list Z)) :
  (∃ l, bp_rep (mempool_ s) (pool_sz sz) n l ∧ l ≡ₚ (c, bs) :: l0) →
  chunk_size_ s = recv_sz sz ∧ 0 ≤ recv_sz sz ≤ pool_sz sz → l0 ≡ₚ sl ++ ll →
  Forall2 send_ok (sending s) sl → (n + S (length l0) = N)%nat →
  wp (receive_handler c true (length bs)) (λ _ s', (∃ c', srv_inv sz N s' n [(c', [])] sl ll ∧
        receiving s' = Some c') ∧
      out s' = out s ++ receive_report (hex s) bs ∧ hex s' = hex_after (hex s) bs ∧
      remote_endpoint_ s' = remote_endpoint_ s ∧ wire s' = wire s ∧ sending s' = sending s) s.
Proof.
  intros (l & Hr & Hl) Hck Hl0 Hsend Htot. cbn [receive_handler].
  apply wp_bind, wp_modify. apply wp_bind, wp_modify. apply wp_bind, wp_modify.
  apply wp_bind, wp_modify. apply wp_bind, wp_on_pool.
  apply (wp_Ok _ _ _ _ _ (read_member _ (pool_sz sz) n l c bs l0 Hr Hl)).
  apply wp_bind, wp_print_bytes. cbn [set_pool set_out mempool_ out hex].
  apply wp_bind, wp_on_pool. eapply wp_mono; [by eapply free_member|].
  intros [] p' (l' & Hl' & Hr'). apply wp_bind, wp_on_pool.
  eapply wp_mono; [by apply bp_alloc_ok|]. intros c' p'' (Hc' & Hr''). apply wp_modify.
  split_and!; [|cbn; by rewrite <- !app_assoc|done..].
  exists c'. split; [|done]. split; cbn.
  - exists ((c', []) :: l'). split; [done|]. f_equiv. by rewrite Hl', Hl0.
  - done.
  - done.
  - done.
  - rewrite <- Hl0. lia.
Qed.

Lemma take_fits (bs : list Z) v sz : 0 ≤ v ≤ sz → Z.of_nat (length (take (Z.to_nat v) bs)) ≤ sz.
Proof. intros. rewrite length_take. lia. Qed.

Lemma srv_receiving sz N s n rl sl ll :
  srv_inv sz N s n rl sl ll →
  match receiving s with
  | None => rl = []
  | Some c => ∃ bs, rl = [(c, bs)]
  end.
Proof.
  intros [_ _ Hr _ _]. destruct (receiving s) as [c|]; cbn in Hr.
  - destruct rl as [|[c' bs] [|]]; cbn in Hr; try done. injection Hr as ->. by exists bs.
  - by destruct rl.
Qed.

(** Pick one pending send. *)
Lemma srv_pick sz N s n rl sl ll i op :
  srv_inv sz N s n rl sl ll → sending s !! i = Some op →
  ∃ bs, sl !! i = Some (so_chunk op, bs) ∧ so_len op = length bs ∧
        rl ++ sl ++ ll ≡ₚ (so_chunk op, bs) :: (rl ++ delete i sl ++ ll) ∧
        Forall2 send_ok (delete i (sending s)) (delete i sl).
Proof.
  intros [_ _ _ Hs _] Hi. destruct (Forall2_lookup_l _ _ _ _ _ Hs Hi) as ([c bs] & Hsl & Hc & Hlen).
  cbn in Hc, Hlen. subst c. exists bs. split_and!; [done|done| |by apply Forall2_delete].
  rewrite (delete_Permutation sl i _ Hsl) at 1. symmetry. apply Permutation_middle.
Qed.

(** ** Refinement *)

Record refines (sz : sizes) (N : nat) (s : Udp_server) (a : aserver) (n : nat)
    (rl sl ll : list (Z * list Z)) : Prop := {
  rf_inv : srv_inv sz N s n rl sl ll;
  rf_remote : remote_endpoint_ s = a_remote a;
  rf_recv : bool_decide (is_Some (receiving s)) = a_recv a;
  rf_dests : so_dest <$> sending s = (a_pending a).*1;
  rf_data : sl.*2 = (a_pending a).*2;
  rf_lost : length ll = a_lost a;
  rf_wire : wire s = a_wire a;
  rf_hex : hex s = a_hex a;
  rf_out : out s = a_out a
}.

Definition rep (sz : sizes) (N : nat) (s : Udp_server) (a : aserver) : Prop :=
  ∃ n rl sl ll, refines sz N s a n rl sl ll.

Lemma rf_free sz N s a n rl sl ll : refines sz N s a n rl sl ll → (n + a_used a = N)%nat.
Proof.
  intros [Hi _ Hrecv _ Hdata Hlost _ _ _]. pose proof (srv_receiving _ _ _ _ _ _ _ Hi) as Hrl.
  pose proof (si_total _ _ _ _ _ _ _ Hi) as Htot. rewrite !length_app in Htot.
  assert (length sl = length (a_pending a)) as Hsl.
  { rewrite <- (length_fmap snd sl), Hdata. apply length_fmap. }
  unfold a_used. rewrite <- Hrecv. destruct (receiving s); [destruct Hrl as [bs ->]|subst rl]; cbn in *; lia.
Qed.

Lemma rep_received sz N s a from bs :
  rep sz N s a → wp (complete_receive from bs) (λ _ s', rep sz N s' (spec_step (recv_sz sz) N (EvReceived from bs) a)) s.
Proof.
  intros (n & rl & sl & ll & Hf). pose proof Hf as [Hi Hrem Hrecv Hd Hdata Hlost Hw Hh Ho].
  pose proof (srv_receiving _ _ _ _ _ _ _ Hi) as Hrl. pose proof Hi as [(l & Hrep & Hl) Hck _ Hsend Htot].
  unfold complete_receive. apply wp_get_bind. cbn [spec_step]. rewrite <- Hrecv.
  destruct (receiving s) as [c|] eqn:Hr.
  - destruct Hrl as [bs0 ->]. cbn zeta. rewrite (proj1 Hck), bool_decide_true by done.
    apply wp_bind, wp_put. apply wp_bind, wp_on_pool.
    set (data := take (Z.to_nat (recv_sz sz)) bs).
    eapply wp_mono.
    { apply (write_member _ (pool_sz sz) n l c bs0 data (sl ++ ll) Hrep Hl). apply take_fits, Hck. }
    intros [] p' (l' & Hl' & Hrep'). eapply wp_mono.
    + apply (wp_receive_handler sz N _ n c data (sl ++ ll) sl ll); [by exists l'|done..|].
      cbn [app length] in Htot. lia.
    + cbn [set_pool set_remote set_receiving out hex remote_endpoint_ wire sending].
      intros [] s' ((c' & Hi' & Hr') & Hout & Hhex & Hrem' & Hwire & Hs'). exists n, [(c', [])], sl, ll.
      rewrite Hh in Hout, Hhex.
      split; cbn [a_remote a_recv a_pending a_lost a_wire a_hex a_out]; try congruence.
      by rewrite Hr', bool_decide_true by done.
  - apply wp_ret. rewrite bool_decide_false by (intros []%is_Some_None). by exists n, rl, sl, ll.
Qed.

Lemma rep_receive_error sz N s a :
  rep sz N s a → wp fail_receive (λ _ s', rep sz N s' (spec_step (recv_sz sz) N EvReceiveError a)) s.
Proof.
  intros (n & rl & sl & ll & Hf). pose proof Hf as [Hi Hrem Hrecv Hd Hdata Hlost Hw Hh Ho].
  pose proof (srv_receiving _ _ _ _ _ _ _ Hi) as Hrl. pose proof Hi as [(l & Hrep & Hl) Hck _ Hsend Htot].
  unfold fail_receive. apply wp_get_bind. cbn [spec_step]. rewrite <- Hrecv.
  destruct (receiving s) as [c|] eqn:Hr.
  - destruct Hrl as [bs0 ->]. rewrite bool_decide_true by done. apply wp_bind, wp_put, wp_ret.
    exists n, [], sl, ((c, bs0) :: ll). split; cbn; try done; [|by f_equal].
    split; cbn [set_receiving mempool_ receiving sending]; [|done|done|done|].
    + exists l. split; [done|]. rewrite Hl. cbn. apply Permutation_middle.
    + rewrite !length_app in *. cbn in *. lia.
  - apply wp_ret. rewrite bool_decide_false by (intros []%is_Some_None). by exists n, rl, sl, ll.
Qed.

Lemma rep_app sz N s a bs :
  rep sz N s a → Z.of_nat (length bs) ≤ pool_sz sz →
  wp (app_send bs) (λ _ s', rep sz N s' (spec_step (recv_sz sz) N (EvApp bs) a)) s.
Proof.
  intros (n & rl & sl & ll & Hf) Hbs. pose proof Hf as [Hi Hrem Hrecv Hd Hdata Hlost Hw Hh Ho].
  pose proof (rf_free _ _ _ _ _ _ _ _ Hf) as Hfree. pose proof Hi as [(l & Hrep & Hl) Hck Hr Hsend Htot].
  cbn [spec_step]. unfold wp, app_send, on_pool at 1. destruct n as [|n].
  - destruct (bp_alloc_fail _ _ _ Hrep) as (p' & -> & Hrep').
    rewrite (proj2 (Nat.ltb_ge _ _)) by lia. exists 0%nat, rl, sl, ll. split; try done.
    split; [by exists l|done..].
  - destruct (proj1 (wp_run _ _ _) (bp_alloc_ok _ _ _ _ Hrep)) as (c & p' & -> & _ & Hrep').
    rewrite (proj2 (Nat.ltb_lt _ _)) by lia.
    change (wp (on_pool (bp_write c bs);; async_send c (length bs)) (λ _ s', rep sz N s' (AServer
      (a_remote a) (a_recv a) (a_pending a ++ [(a_remote a, bs)]) (a_lost a) (a_wire a) (a_hex a) (a_out a)))
      (set_pool s p')).
    apply wp_bind, wp_on_pool. cbn [mempool_ set_pool].
    eapply wp_mono; [by apply (write_member _ (pool_sz sz) n _ c [] bs l Hrep')|].
    intros [] p'' (l'' & Hl'' & Hrep''). apply wp_modify. exists n, rl, (sl ++ [(c, bs)]), ll.
    split; cbn; try done; [|by rewrite !fmap_app, Hd, Hrem|by rewrite !fmap_app, Hdata].
    split; cbn [set_sending set_pool mempool_ receiving sending]; [|done|done| |].
    + exists l''. split; [done|]. rewrite Hl'', Hl, <- app_assoc. cbn [app].
      rewrite !app_assoc. apply Permutation_middle.
    + apply Forall2_app; [done|]. by constructor.
    + rewrite !length_app in *. cbn in *. lia.
Qed.

(** The pending send of the abstract server that corresponds to one of the class. *)
Lemma rf_pick sz N s a n rl sl ll i op bs :
  refines sz N s a n rl sl ll → sending s !! i = Some op → sl !! i = Some (so_chunk op, bs) →
  a_pending a !! i = Some (so_dest op, bs).
Proof.
  intros Hf Hop Hsl.
  assert ((so_dest <$> sending s) !! i = (a_pending a).*1 !! i) as Hd by (by rewrite (rf_dests _ _ _ _ _ _ _ _ Hf)).
  assert (sl.*2 !! i = (a_pending a).*2 !! i) as Hb by (by rewrite (rf_data _ _ _ _ _ _ _ _ Hf)).
  rewrite !list_lookup_fmap, Hop in Hd. rewrite !list_lookup_fmap, Hsl in Hb.
  destruct (a_pending a !! i) as [[d b]|]; cbn in *; congruence.
Qed.

Lemma rf_none sz N s a n rl sl ll i :
  refines sz N s a n rl sl ll → sending s !! i = None → a_pending a !! i = None.
Proof.
  intros Hf Hop.
  assert ((so_dest <$> sending s) !! i = (a_pending a).*1 !! i) as Hd by (by rewrite (rf_dests _ _ _ _ _ _ _ _ Hf)).
  rewrite !list_lookup_fmap, Hop in Hd. by destruct (a_pending a !! i).
Qed.

Lemma rep_finish sz N s a i (ok : bool) :
  rep sz N s a →
  wp (finish_send i ok) (λ _ s', rep sz N s' (spec_step (recv_sz sz) N (if ok then EvSent i else EvSendError i) a)) s.
Proof.
  intros (n & rl & sl & ll & Hf). pose proof Hf as [Hi Hrem Hrecv Hd Hdata Hlost Hw Hh Ho].
  unfold finish_send. apply wp_get_bind. destruct (sending s !! i) as [op|] eqn:Hop.
  - destruct (srv_pick _ _ _ _ _ _ _ _ _ Hi Hop) as (bs & Hsl & Hlen & Hperm & Hsend').
    pose proof (rf_pick _ _ _ _ _ _ _ _ _ _ _ Hf Hop Hsl) as Hpend.
    pose proof Hi as [(l & Hrep & Hl) Hck Hr Hsend Htot]. rewrite Hperm in Hl.
    pose proof (Permutation_length Hperm) as Hlens. cbn in Hlens. destruct ok; cbn [spec_step]; rewrite Hpend.
    + rewrite Hlen. apply wp_bind, wp_on_pool.
      apply (wp_Ok _ _ _ _ _ (read_member _ (pool_sz sz) n l _ bs _ Hrep Hl)).
      apply wp_bind, wp_modify. apply wp_bind, wp_modify, wp_on_pool.
      cbn [set_out set_sending set_pool mempool_]. eapply wp_mono; [by eapply free_member|].
      intros [] p' (l' & Hl' & Hrep'). exists (S n), rl, (delete i sl), ll.
      split; cbn; rewrite ?fmap_delete; try congruence.
      split; cbn [set_out set_sending set_pool mempool_ receiving sending]; [by exists l'|done..|]. lia.
    + apply wp_bind, wp_put, wp_ret. exists n, rl, (delete i sl), ((so_chunk op, bs) :: ll).
      split; cbn; rewrite ?fmap_delete; try congruence.
      split; cbn [set_sending mempool_ receiving sending]; [|done..|].
      * exists l. split; [done|]. rewrite Hl, !app_assoc. apply Permutation_middle.
      * rewrite !length_app in *. cbn in *. lia.
  - apply wp_ret. pose proof (rf_none _ _ _ _ _ _ _ _ _ Hf Hop) as Hn.
    destruct ok; cbn [spec_step]; rewrite Hn; by exists n, rl, sl, ll.
Qed.

Lemma rep_step sz N s a e :
  rep sz N s a → event_ok (pool_sz sz) e → wp (step e) (λ _ s', rep sz N s' (spec_step (recv_sz sz) N e a)) s.
Proof.
  intros Ha He. destruct e as [from bs| |bs|i|i]; cbn [step event_ok] in *.
  - by apply rep_received.
  - by apply rep_receive_error.
  - by apply rep_app.
  - by apply (rep_finish _ _ _ _ i true).
  - by apply (rep_finish _ _ _ _ i false).
Qed.

Lemma rep_run sz N es : ∀ s a,
  rep sz N s a → Forall (event_ok (pool_sz sz)) es → wp (run es) (λ _ s', rep sz N s' (spec_run (recv_sz sz) N es a)) s.
Proof.
  induction es as [|e es IH]; intros s a Ha Hes; cbn [run]; [by apply wp_ret|].
  apply Forall_cons in Hes as [He Hes]. apply wp_bind. eapply wp_mono; [by apply rep_step|].
  intros [] s' Ha'. by apply IH.
Qed.

(** The abstract server of a state. *)
Definition abstraction (s : Udp_server (St := St)) (sl ll : list (Z * list Z)) : aserver :=
  AServer (remote_endpoint_ s) (bool_decide (is_Some (receiving s)))
    (zip (so_dest <$> sending s) sl.*2) (length ll) (wire s) (hex s) (out s).

Lemma refines_abstraction sz N s n rl sl ll :
  srv_inv sz N s n rl sl ll → refines sz N s (abstraction s sl ll) n rl sl ll.
Proof.
  intros Hi. pose proof (Forall2_length _ _ _ (si_send _ _ _ _ _ _ _ Hi)) as Hl.
  split; try done; cbn; symmetry.
  - apply fst_zip. by rewrite !length_fmap, Hl.
  - apply snd_zip. by rewrite !length_fmap, Hl.
Qed.
End server.
