(* ===== verification/UdpServerProps.v ===== *)
(** Properties of the UDP server, proved against the buffer pool interface and then
    instantiated with class Mempool. *)

From S2P Require Import Prelude Bytes CMem LibpoolDec LibpoolClient BufferPool Mempool.
From S2P Require Import MempoolProps Format UdpServer UdpServerSpec.
Local Open Scope Z_scope.

(** ** The invariant *)

Section server.
Context {St : Type} `{BufferPoolLaws St}.
Implicit Types s : Udp_server (St := St).

Definition inv (sz : sizes) (N lost : nat) (recv : bool) (s : Udp_server) : Prop :=
  ∃ n rl sl ll, srv_inv sz N s n rl sl ll ∧ length ll = lost ∧
                bool_decide (is_Some (receiving s)) = recv.

Lemma inv_rep sz N lost recv s :
  inv sz N lost recv s ↔ ∃ a, rep sz N s a ∧ a_lost a = lost ∧ a_recv a = recv.
Proof.
  split.
  - intros (n & rl & sl & ll & Hi & Hl & Hr). exists (abstraction s sl ll). split; [|done].
    exists n, rl, sl, ll. by apply refines_abstraction.
  - intros (a & (n & rl & sl & ll & Hf) & <- & <-). exists n, rl, sl, ll. by split_and!; apply Hf.
Qed.

(** ** One event *)

Definition recv_error (e : event) : bool := match e with EvReceiveError => true | _ => false end.
Definition error (e : event) : nat :=
  match e with EvReceiveError | EvSendError _ => 1 | _ => 0 end.

Definition step_post (sz : Z) (N lost : nat) (recv : bool) (e : event) (s' : Udp_server) : Prop :=
  ∃ lost', (lost ≤ lost' ≤ lost + error e)%nat ∧ inv sz N lost' (recv && negb (recv_error e)) s'.

Lemma spec_step_counts sz N e a :
  (a_lost a ≤ a_lost (spec_step sz N e a) ≤ a_lost a + error e)%nat ∧
  a_recv (spec_step sz N e a) = a_recv a && negb (recv_error e).
Proof.
  destruct e as [from bs| |bs|i|i]; cbn; try case_match; cbn; rewrite ?andb_true_r, ?andb_false_r;
    (split; [lia|done]).
Qed.

Lemma step_inv (sz : Z) N lost recv s e :
  inv sz N lost recv s → event_ok sz e →
  wp (step e) (λ _ s', step_post sz N lost recv e s') s.
Proof.
  intros (a & Ha & <- & <-)%inv_rep He. eapply wp_mono; [by apply rep_step|]. intros [] s' Ha'.
  destruct (spec_step_counts sz N e a) as [Hl Hr]. eexists. split; [exact Hl|].
  apply inv_rep. by eexists.
Qed.

Definition errors (es : list event) : nat := list_sum (error <$> es).
Definition has_recv_error (es : list event) : bool := existsb recv_error es.

Lemma run_inv (sz : Z) N es : ∀ lost recv s,
  inv sz N lost recv s → Forall (event_ok sz) es →
  wp (run es) (λ _ s', ∃ lost', (lost ≤ lost' ≤ lost + errors es)%nat ∧
    inv sz N lost' (recv && negb (has_recv_error es)) s') s.
Proof.
  induction es as [|e es IH]; intros lost recv s Hi Hes; cbn [run].
  - apply wp_ret. exists lost. cbn. split; [lia|]. by rewrite andb_true_r.
  - apply Forall_cons in Hes as [He Hes]. apply wp_bind.
    eapply wp_mono; [by eapply step_inv|]. intros [] s' (lost1 & Hl1 & Hi1).
    eapply wp_mono; [by apply (IH lost1 _ s' Hi1)|]. intros [] s'' (lost2 & Hl2 & Hi2).
    exists lost2. change (errors (e :: es)) with (error e + errors es)%nat. split; [lia|].
    unfold has_recv_error in *. cbn [existsb]. rewrite negb_orb, andb_assoc. done.
Qed.

Lemma ctor_inv (sz : Z) N local p :
  bp_rep p sz (S N) [] →
  ∃ s c, Udp_server_ctor local (raw_server p) = Ok tt s ∧ srv_inv sz (S N) s N [(c, [])] [] [] ∧
       receiving s = Some c ∧ remote_endpoint_ s = local ∧ out s = [] ∧ hex s = false ∧ wire s = [].
Proof.
  intros Hrep. destruct (proj1 (wp_run _ _ _) (bp_alloc_ok _ _ _ _ Hrep))
    as (c & p' & Hrun & _ & Hrep').
  eexists _, c. split.
  - unfold Udp_server_ctor, async_receive.
    erewrite bind_Ok by (unfold on_pool; cbn; by rewrite (bp_chunk_sz_ok _ _ _ _ Hrep)).
    do 2 erewrite bind_Ok by reflexivity.
    erewrite bind_Ok by (unfold on_pool; cbn; by rewrite Hrun). reflexivity.
  - pose proof (bp_rep_pos _ _ _ _ Hrep).
    split_and!; try done. split; cbn; [by exists [(c, [])]|split; [done|lia]|done..|lia].
Qed.

Lemma srv_inv_start sz N s n c :
  srv_inv sz N s n [(c, [])] [] [] → receiving s = Some c → inv sz N 0 true s.
Proof. intros Hi Hc. exists n, [(c, [])], [], []. split_and!; [done|done|]. by rewrite Hc. Qed.

(** ** Properties *)

(** The buffers of a state: free, held by asio for the pending receive and sends, lost. *)
Lemma inv_count (sz : Z) N lost recv s :
  inv sz N lost recv s →
  ∃ n l, bp_rep (mempool_ s) sz n l ∧
    (n + (if recv then 1 else 0) + length (sending s) + lost = N)%nat ∧
    (recv = true ↔ is_Some (receiving s)).
Proof.
  intros (n & rl & sl & ll & Hi & Hlost & Hrecv). pose proof (srv_receiving _ _ _ _ _ _ _ Hi) as Hrl.
  pose proof Hi as [(l & Hrep & Hl) Hck _ Hsend Htot]. exists n, l.
  pose proof (Forall2_length _ _ _ Hsend) as Hsl. rewrite !length_app in Htot.
  split_and!; [done| |rewrite <- Hrecv; by rewrite bool_decide_eq_true].
  destruct (receiving s) as [c|]; [destruct Hrl as [bs ->]|subst rl]; cbn in Htot, Hrecv;
    subst recv lost; cbn; lia.
Qed.

(** Over a pool with at least one buffer, the server runs through every sequence of
    datagrams received (of any length), sends of the application and completions without undefined
    behaviour and without an exception; while no operation fails, it always has one receive
    pending, and every buffer is free, in that receive, or in a pending send. *)
Theorem udp_server_no_leak (sz : Z) N local p es :
  bp_rep p sz (S N) [] → Forall (event_ok sz) es → errors es = 0%nat →
  has_recv_error es = false →
  ∃ s, Udp_server_ctor local (raw_server p) = Ok tt s ∧
    wp (run es) (λ _ s', is_Some (receiving s') ∧
      ∃ n l, bp_rep (mempool_ s') sz n l ∧ (n + 1 + length (sending s') = S N)%nat) s.
Proof.
  intros Hrep Hes Herr Hrecv.
  destruct (ctor_inv sz N local p Hrep) as (s & c & Hs & Hi0 & Hc & _).
  pose proof (srv_inv_start _ _ _ _ _ Hi0 Hc) as Hi. exists s. split; [done|]. eapply wp_mono; [by apply (run_inv sz (S N) es 0 true s)|].
  intros [] s' (lost & Hlost & Hi'). rewrite Herr, Hrecv in *. assert (lost = 0%nat) as -> by lia.
  destruct (inv_count _ _ _ _ _ Hi') as (n & l & Hr' & Hn & Hiff). cbn in Hn.
  split; [by apply Hiff|]. exists n, l. split; [done|lia].
Qed.

(** A receive that fails is never started again: from then on, whatever happens, no
    receive is pending, and the buffer of the failed receive is never given back. *)
Theorem udp_server_deaf_after_error (sz : Z) N s es :
  inv sz N 0 true s → Forall (event_ok sz) es →
  wp (run (EvReceiveError :: es)) (λ _ s', receiving s' = None ∧
    ∃ n l, bp_rep (mempool_ s') sz n l ∧ (n + length (sending s') < N)%nat) s.
Proof.
  intros Hi Hes. cbn [run]. apply wp_bind.
  assert (wp (step EvReceiveError) (λ _ s1, inv sz N 1 false s1) s) as Hfail.
  { destruct Hi as (n & rl & sl & ll & Hi & Hlost & Hrecv).
    pose proof (srv_receiving _ _ _ _ _ _ _ Hi) as Hrl. pose proof Hi as [(l & Hrep & Hl) Hck _ Hsend Htot].
    apply bool_decide_eq_true in Hrecv as [c Hr]. rewrite Hr in Hrl. destruct Hrl as [bs0 ->].
    cbn [step]. unfold fail_receive. apply wp_get_bind. rewrite Hr. apply wp_bind, wp_put, wp_ret.
    exists n, [], sl, ((c, bs0) :: ll). split_and!; [|cbn; lia|done].
    split; cbn [set_receiving mempool_ receiving sending]; [|done|done|done|].
    + exists l. split; [done|]. rewrite Hl. cbn. apply Permutation_middle.
    + rewrite !length_app in *. cbn in *. lia. }
  eapply wp_mono; [exact Hfail|]. intros [] s1 Hi1.
  eapply wp_mono; [by apply (run_inv sz N es 1 false s1)|].
  intros [] s' (lost & Hlost & Hi'). cbn [andb] in Hi'.
  destruct (inv_count _ _ _ _ _ Hi') as (n & l & Hr' & Hn & Hiff). split.
  - destruct (receiving s') as [c|]; [|done]. assert (false = true) by (apply Hiff; by eexists). done.
  - exists n, l. split; [done|]. lia.
Qed.

(** A datagram, a reply and its completion. *)
Lemma receive_reply_run (sz : Z) N s from bs reply n rl :
  srv_inv sz N s (S n) rl [] [] → is_Some (receiving s) → Z.of_nat (length reply) ≤ sz →
  wp (run [EvReceived from bs; EvApp reply; EvSent 0]) (λ _ s',
    is_Some (receiving s') ∧ remote_endpoint_ s' = from ∧ wire s' = wire s ++ [(from, reply)] ∧
    out s' = out s ++ receive_report (hex s) (take (Z.to_nat sz) bs) ++
             [text "async_send() complete"] ∧
    ∃ rl', srv_inv sz N s' (S n) rl' [] []) s.
Proof.
  intros Hi Hr Hreply. pose proof (refines_abstraction _ _ _ _ _ _ _ Hi) as Hf.
  pose proof (rf_free _ _ _ _ _ _ _ _ Hf) as Hfree.
  set (a := abstraction s [] []) in *. assert (a_recv a = true) as Hrecv by (by apply bool_decide_true).
  assert (a_pending a = []) as Hp by (cbn; by destruct (so_dest <$> sending s)).
  eapply wp_mono; [apply (rep_run sz N _ s a); [by exists (S n), rl, [], []|by repeat constructor]|].
  intros [] s' (n' & rl' & sl' & ll' & Hf'). unfold spec_run in Hf'. cbn [foldl spec_step] in Hf'.
  rewrite Hrecv in Hf'. unfold a_used in Hfree, Hf'. cbn [a_recv a_pending a_lost] in Hf'.
  rewrite Hp in Hf', Hfree. cbn [length] in Hf', Hfree.
  rewrite (proj2 (Nat.ltb_lt _ _)) in Hf' by (rewrite Hrecv in Hfree; cbn in *; lia).
  cbn in Hf'. pose proof (rf_free _ _ _ _ _ _ _ _ Hf') as Hfree'. destruct Hf' as [Hi' Hrem' Hrecv' _ Hdata' Hlost' Hw' _ Ho']. cbn in *.
  apply fmap_nil_inv in Hdata' as ->. apply nil_length_inv in Hlost' as ->.
  split_and!; [by apply bool_decide_eq_true in Hrecv'|done|done|by rewrite <- app_assoc in Ho'|].
  exists rl'. unfold a_used in Hfree'. cbn in Hfree'. rewrite Hrecv in Hfree. cbn in Hfree.
  by replace (S n) with n' by lia.
Qed.

(** C12: class Udp_server is the abstract server, over any pool that keeps the laws of a buffer
    pool: after any sequence of datagrams, sends, completions and errors, what has been printed,
    what has left and for whom, what is being sent, whether it still listens and how many buffers
    it has lost are exactly those of the abstract server; nothing is undefined and no exception
    leaves a handler.  This holds down to a pool of one buffer because the handler gives its
    buffer back before it receives again; a comment of udp_server.hpp has it receive again first,
    for which one buffer is too few. *)
Theorem udp_server_refines_spec (sz : Z) N local p es :
  bp_rep p sz (S N) [] → Forall (event_ok sz) es →
  ∃ s, Udp_server_ctor local (raw_server p) = Ok tt s ∧
    wp (run es) (λ _ s', let a := spec_run sz (S N) es (spec_start local) in
      out s' = a_out a ∧ wire s' = a_wire a ∧ remote_endpoint_ s' = a_remote a ∧
      so_dest <$> sending s' = (a_pending a).*1 ∧ (is_Some (receiving s') ↔ a_recv a = true) ∧
      ∃ n l, bp_rep (mempool_ s') sz n l ∧ (n + a_used a = S N)%nat) s.
Proof.
  intros Hrep Hes. destruct (ctor_inv sz N local p Hrep) as (s & c & Hs & Hi & Hc & Hrem & Hout & Hhex & Hw).
  exists s. split; [done|].
  pose proof (refines_abstraction _ _ _ _ _ _ _ Hi) as Hf.
  assert (abstraction s [] [] = spec_start local) as Ha.
  { unfold abstraction, spec_start. rewrite Hrem, Hc, Hw, Hhex, Hout. cbn. f_equal.
    by destruct (so_dest <$> sending s). }
  rewrite Ha in Hf. eapply wp_mono; [by apply (rep_run sz (S N) es s); [by eexists _, _, _, _|]|].
  intros [] s' (n & rl & sl & ll & Hf'). cbn zeta. cbn [same recv_sz pool_sz] in Hf'.
  pose proof (rf_free _ _ _ _ _ _ _ _ Hf') as Hfree.
  destruct Hf' as [Hi' Hrem' Hrecv' Hd' _ _ Hw' _ Ho']. split_and!; try done.
  - rewrite <- Hrecv'. by rewrite bool_decide_eq_true.
  - destruct (si_rep _ _ _ _ _ _ _ Hi') as (l & ? & _). by exists n, l.
Qed.

(** When a datagram arrives, the server prints the length and each byte of what fits
    its buffer, gives the buffer back and receives again; a reply sent next goes to the sender of that datagram
    with exactly the bytes the application put in it.  The length is printed in the mode
    that std::cout was left in, hexadecimal after the first byte ever printed. *)
Theorem udp_server_receive_reply (sz : Z) N s from bs reply n rl :
  srv_inv sz N s (S n) rl [] [] → is_Some (receiving s) → Z.of_nat (length reply) ≤ sz →
  wp (run [EvReceived from bs; EvApp reply; EvSent 0]) (λ _ s',
    is_Some (receiving s') ∧ remote_endpoint_ s' = from ∧ wire s' = wire s ++ [(from, reply)] ∧
    out s' = out s ++ receive_report (hex s) (take (Z.to_nat sz) bs) ++
             [text "async_send() complete"] ∧
    ∃ rl', srv_inv sz N s' (S n) rl' [] []) s.
Proof. apply receive_reply_run. Qed.
End server.

(** ** Witnesses, over class Mempool *)

Lemma demo_buffers : bp_rep demo_mstate 20 3 [].
Proof.
  exists demo_apool. split_and!; [|reflexivity|cbn; lia..|reflexivity|reflexivity|exact I].
  split; [exact demo_rep|reflexivity|]. by intros ? ? ?%elem_of_nil.
Qed.

Definition demo_events : list event :=
  [EvReceived (2130706433, 5000) [72; 105]; EvApp [1; 2; 3]; EvSent 0].

Lemma demo_events_ok : Forall (event_ok 20) demo_events.
Proof. unfold demo_events. repeat constructor; cbn; lia. Qed.

Lemma udp_server_no_leak_witness :
  ∃ s, Udp_server_ctor (0, 8080) (raw_server demo_mstate) = Ok tt s ∧
    wp (run demo_events) (λ _ s', is_Some (receiving s')) s.
Proof.
  destruct (udp_server_no_leak 20 2 (0, 8080) demo_mstate demo_events demo_buffers demo_events_ok
    eq_refl eq_refl) as (s & Hs & Hrun).
  exists s. split; [exact Hs|]. eapply wp_mono; [exact Hrun|]. intros a s' [Hr _]. exact Hr.
Defined.

Lemma udp_server_deaf_after_error_witness :
  ∃ s, Udp_server_ctor (0, 8080) (raw_server demo_mstate) = Ok tt s ∧
    wp (run (EvReceiveError :: demo_events)) (λ _ s', receiving s' = None) s.
Proof.
  destruct (ctor_inv 20 2 (0, 8080) demo_mstate demo_buffers) as (s & c & Hs & Hi & Hc & _).
  exists s. split; [exact Hs|]. eapply wp_mono.
  - exact (udp_server_deaf_after_error 20 3 s demo_events (srv_inv_start _ _ _ _ _ Hi Hc)
      demo_events_ok).
  - intros a s' [Hr _]. exact Hr.
Defined.

Lemma udp_server_receive_reply_witness :
  ∃ s, Udp_server_ctor (0, 8080) (raw_server demo_mstate) = Ok tt s ∧
    wp (run demo_events) (λ _ s',
      wire s' = [((2130706433, 5000), [1; 2; 3])] ∧
      out s' = [[]; text "async_receive() complete"; text "bytes_received: 2";
                text "Receive buffer"; text "48"; text "69"; text "async_send() complete"]) s.
Proof.
  destruct (ctor_inv 20 2 (0, 8080) demo_mstate demo_buffers)
    as (s & c & Hs & Hi & Hc & _ & Hout & Hhex & Hwire).
  exists s. split; [exact Hs|]. eapply wp_mono.
  - refine (udp_server_receive_reply 20 3 s (2130706433, 5000) [72; 105] [1; 2; 3] 1 _ Hi _ _).
    + rewrite Hc. by eexists.
    + cbn. lia.
  - intros a s' (_ & _ & Hw & Ho & _). rewrite Hw, Ho, Hwire, Hout, Hhex. split; reflexivity.
Defined.

(** The same events, an answer while no buffer is free, a failed send and a failed receive. *)
Definition spec_events : list event :=
  demo_events ++ [EvApp [1]; EvApp [2]; EvApp [3]; EvSendError 0; EvSent 0; EvReceiveError; EvApp [4]].

Lemma udp_server_refines_spec_witness :
  ∃ s, Udp_server_ctor (0, 8080) (raw_server demo_mstate) = Ok tt s ∧
    wp (run spec_events) (λ _ s', wire s' = [((2130706433, 5000), [1; 2; 3]); ((2130706433, 5000), [2])]) s.
Proof.
  destruct (udp_server_refines_spec 20 2 (0, 8080) demo_mstate spec_events demo_buffers) as (s & Hs & Hrun).
  - unfold spec_events, demo_events. repeat constructor; cbn; lia.
  - exists s. split; [exact Hs|]. eapply wp_mono; [exact Hrun|]. intros [] s' (_ & -> & _). reflexivity.
Defined.
