(* ===== verification/UdpClient.v ===== *)
(** class Udp_client (src/client/network/udp_client.hpp, src/client/network/udp_client.cpp):
    the client's receive loop and sends, over the buffer pool interface.

    The constructor declares a local variable [chunk_size_] which hides the member of the same
    name; the member has no initialiser, so it is an [option] here, [None] while it has no value,
    and reading it then is undefined.  asio's part is as in [UdpServer]. *)

From S2P Require Import Prelude CMem BufferPool Format UdpServer.
Local Open Scope Z_scope.

Module Client.
Section client.
Context {St : Type} `{BufferPool St}.

Record Udp_client := MkClient {
  remote_endpoint_ : endpoint;           (* the server, then the sender of each datagram *)
  mempool_ : St;
  chunk_size_ : option Z;
  receiving : option (Z * Z);            (* the pending receive: buffer and size *)
  sending : list send_op;
  wire : list (endpoint * list Z);
  hex : bool;
  out : list chars
}.

Definition set_pool (c : Udp_client) p :=
  MkClient (remote_endpoint_ c) p (chunk_size_ c) (receiving c) (sending c) (wire c) (hex c) (out c).
Definition set_remote (c : Udp_client) e :=
  MkClient e (mempool_ c) (chunk_size_ c) (receiving c) (sending c) (wire c) (hex c) (out c).
Definition set_receiving (c : Udp_client) r :=
  MkClient (remote_endpoint_ c) (mempool_ c) (chunk_size_ c) r (sending c) (wire c) (hex c) (out c).
Definition set_sending (c : Udp_client) l w :=
  MkClient (remote_endpoint_ c) (mempool_ c) (chunk_size_ c) (receiving c) l w (hex c) (out c).
Definition set_out (c : Udp_client) b l :=
  MkClient (remote_endpoint_ c) (mempool_ c) (chunk_size_ c) (receiving c) (sending c) (wire c) b l.

Definition on_pool {A} (m : M St A) : M Udp_client A := λ c,
  match m (mempool_ c) with
  | Ok a p => Ok a (set_pool c p)
  | Throw e p => Throw e (set_pool c p)
  | UB u => UB u
  | OutOfFuel => OutOfFuel
  end.

Definition print (line : chars) : M Udp_client unit :=
  modify (λ c, set_out c (hex c) (out c ++ [line])).

Fixpoint print_bytes (bs : list Z) : M Udp_client unit :=
  match bs with
  | [] => mret tt
  | b :: bs' => modify (λ c, set_out c true (out c ++ [dump_byte b]));; print_bytes bs'
  end.

(** [std::cout << "\nasync_send() complete " << bytes_sent << " bytes sent"] *)
Definition print_sent (n : nat) : M Udp_client unit :=
  modify (λ c, set_out c (hex c) (out c ++
    [[]; text "async_send() complete " ++ show_unsigned (hex c) (Z.of_nat n) ++ text " bytes sent"])).

(** The value of the member chunk_size_. *)
Definition read_chunk_size : M Udp_client Z :=
  c ← get;
  match chunk_size_ c with
  | Some sz => mret sz
  | None => undefined ub_uninitialised
  end.

Definition async_receive : M Udp_client unit :=
  chunk ← on_pool bp_alloc;
  sz ← read_chunk_size;
  modify (λ c, set_receiving c (Some (chunk, sz))).

Definition receive_handler (chunk : Z) (ok : bool) (bytes_received : nat) : M Udp_client unit :=
  if ok then
    print (text "async_receive() complete");;
    print (text "Receive buffer");;
    data ← on_pool (bp_read chunk bytes_received);
    print_bytes data;;
    on_pool (bp_free chunk);;
    async_receive
  else mret tt.

Definition async_send (chunk : Z) (length : nat) : M Udp_client unit :=
  modify (λ c, set_sending c (sending c ++ [SendOp chunk length (remote_endpoint_ c)]) (wire c)).

Definition send_handler (chunk : Z) (ok : bool) (bytes_sent : nat) : M Udp_client unit :=
  if ok then print_sent bytes_sent;; on_pool (bp_free chunk) else mret tt.

(** udp::resolver::resolve is asio's: it gives the endpoints of a host and service, or fails
    with an exception; [open_ok]: socket_.open succeeds. *)
Definition Udp_client_ctor (resolve : string → string → option (list endpoint)) (open_ok : bool)
    (host service : string) : M Udp_client unit :=
  chunk_size ← on_pool bp_chunk_sz;      (* the local variable; never read *)
  match resolve host service with
  | Some (e :: _) =>
      modify (λ c, set_remote c e);;
      (if open_ok then mret tt else throw (system_error "open"));;
      async_receive
  | Some [] => undefined ub_null_deref
  | None => throw (system_error "resolve")
  end.

(** The object before the body of the constructor runs; [member] is what chunk_size_ holds, which
    nothing has set. *)
Definition client_storage (member : option Z) (pool : St) : Udp_client :=
  MkClient (0, 0) pool member None [] [] false [].

Definition raw_client (pool : St) : Udp_client := client_storage None pool.

Definition get_remote_port (c : Udp_client) : Z := (remote_endpoint_ c).2.
Definition get_remote_address (c : Udp_client) : chars := show_address (remote_endpoint_ c).1.

(** ** Events, as in [UdpServer] *)

Definition complete_receive (from : endpoint) (bs : list Z) : M Udp_client unit :=
  c ← get;
  match receiving c with
  | None => mret tt
  | Some (chunk, sz) =>
      let data := take (Z.to_nat sz) bs in
      put (set_remote (set_receiving c None) from);;
      on_pool (bp_write chunk data);;
      receive_handler chunk true (length data)
  end.

Definition fail_receive : M Udp_client unit :=
  c ← get;
  match receiving c with
  | None => mret tt
  | Some (chunk, _) => put (set_receiving c None);; receive_handler chunk false 0
  end.

Definition app_send (bs : list Z) : M Udp_client unit := λ c,
  match on_pool bp_alloc c with
  | Throw _ c' => Ok tt c'
  | Ok chunk c' => (on_pool (bp_write chunk bs);; async_send chunk (length bs)) c'
  | UB u => UB u
  | OutOfFuel => OutOfFuel
  end.

Definition finish_send (i : nat) (ok : bool) : M Udp_client unit :=
  c ← get;
  match sending c !! i with
  | None => mret tt
  | Some op =>
      if ok then
        data ← on_pool (bp_read (so_chunk op) (so_len op));
        modify (λ c, set_sending c (delete i (sending c)) (wire c ++ [(so_dest op, data)]));;
        send_handler (so_chunk op) true (so_len op)
      else
        put (set_sending c (delete i (sending c)) (wire c));;
        send_handler (so_chunk op) false 0
  end.

Definition step (e : event) : M Udp_client unit :=
  match e with
  | EvReceived from bs => complete_receive from bs
  | EvReceiveError => fail_receive
  | EvApp bs => app_send bs
  | EvSent i => finish_send i true
  | EvSendError i => finish_send i false
  end.

Fixpoint run (es : list event) : M Udp_client unit :=
  match es with
  | [] => mret tt
  | e :: es' => step e;; run es'
  end.
End client.
End Client.
