(* ===== verification/UdpClientProps.v ===== *)
(** Properties of the UDP client.  The constructor reads the member chunk_size_, which it does not
    set.  In automatic or dynamic storage the member has no value then, and the read is undefined;
    in static storage, which is zero-initialised, it is 0.  For a member that holds a value up to
    the size of the chunks, the client is the server up to what it prints and how much of a
    datagram it receives; this is proved as a simulation, and the server's lemmas carry over. *)

From S2P Require Import Prelude Bytes CMem LibpoolDec LibpoolClient BufferPool Mempool.
From S2P Require Import MempoolProps Format UdpServer UdpServerSpec UdpServerProps UdpClient.
Local Open Scope Z_scope.

Section client.
Context {St : Type} `{BufferPool St}.
Abbreviation cl := (Client.Udp_client (St := St)).
Abbreviation srv := (Udp_server (St := St)).

(** A client and a server with the same pool, endpoint and operations. *)
Record sim (c : cl) (s : srv) : Prop := {
  sim_pool : Client.mempool_ c = mempool_ s;
  sim_chunk : Client.chunk_size_ c = Some (chunk_size_ s);
  sim_remote : Client.remote_endpoint_ c = remote_endpoint_ s;
  sim_recv : Client.receiving c = (., chunk_size_ s) <$> receiving s;
  sim_send : Client.sending c = sending s;
  sim_wire : Client.wire c = wire s
}.

Definition sim_outcome {A} (o1 : outcome cl A) (o2 : outcome srv A) : Prop :=
  match o1, o2 with
  | Ok a c, Ok b s => a = b ∧ sim c s
  | Throw e c, Throw f s => e = f ∧ sim c s
  | UB u, UB v => u = v
  | OutOfFuel, OutOfFuel => True
  | _, _ => False
  end.

Definition simM {A} (m1 : M cl A) (m2 : M srv A) : Prop :=
  ∀ c s, sim c s → sim_outcome (m1 c) (m2 s).

Lemma sim_ret {A} (a : A) : simM (mret a) (mret a).
Proof. by intros c s Hs. Qed.

Lemma sim_bind {A B} (m1 : M cl A) m2 (f1 : A → M _ B) f2 :
  simM m1 m2 → (∀ a, simM (f1 a) (f2 a)) → simM (m1 ≫= f1) (m2 ≫= f2).
Proof.
  intros Hm Hf c s Hs. specialize (Hm c s Hs). rewrite !bind_run.
  destruct (m1 c), (m2 s); cbn in Hm; try done. destruct Hm as [-> Hs']. by apply Hf.
Qed.

Lemma sim_on_pool {A} (m : M St A) : simM (Client.on_pool m) (on_pool m).
Proof.
  intros c s []. unfold Client.on_pool, on_pool. rewrite sim_pool0.
  destruct (m (mempool_ s)); cbn; try done; by repeat split.
Qed.

Lemma sim_modify f1 f2 :
  (∀ c s, sim c s → sim (f1 c) (f2 s)) → simM (modify f1) (modify f2).
Proof. intros Hf c s Hs. split; [done|]. by apply Hf. Qed.

Lemma sim_get {A} (f1 : _ → M _ A) f2 :
  (∀ c s, sim c s → sim_outcome (f1 c c) (f2 s s)) → simM (get ≫= f1) (get ≫= f2).
Proof. intros Hf c s Hs. by apply Hf. Qed.

(** What is printed is not looked at. *)
Lemma sim_out_l {A} (g : cl → bool * list chars) (m1 : M _ A) m2 :
  simM m1 m2 → simM (modify (λ c, Client.set_out c (g c).1 (g c).2);; m1) m2.
Proof. intros Hm c s []. apply Hm. by split. Qed.

Lemma sim_out_r {A} (g : srv → bool * list chars) (m1 : M _ A) m2 :
  simM m1 m2 → simM m1 (modify (λ s, set_out s (g s).1 (g s).2);; m2).
Proof. intros Hm c s []. apply Hm. by split. Qed.

Lemma sim_print_bytes bs : simM (Client.print_bytes bs) (print_bytes bs).
Proof.
  induction bs as [|b bs IH]; [apply sim_ret|]. cbn. apply sim_bind; [|done].
  apply sim_modify. by intros c s [].
Qed.

Lemma sim_async_receive : simM Client.async_receive async_receive.
Proof.
  apply sim_bind; [apply sim_on_pool|]. intros chunk c s [].
  unfold Client.read_chunk_size. rewrite bind_run, get_bind, sim_chunk0. cbn.
  split; [done|]. by split.
Qed.

Lemma sim_receive_handler chunk ok n :
  simM (Client.receive_handler chunk ok n) (receive_handler chunk ok n).
Proof.
  destruct ok; [|apply sim_ret]. cbn [Client.receive_handler receive_handler].
  apply (sim_out_l (λ c, (_, _))), (sim_out_l (λ c, (_, _))).
  do 4 apply (sim_out_r (λ s, (_, _))).
  apply sim_bind; [apply sim_on_pool|]. intros data.
  apply sim_bind; [apply sim_print_bytes|]. intros [].
  apply sim_bind; [apply sim_on_pool|]. intros []. apply sim_async_receive.
Qed.

Lemma sim_send_handler chunk ok n :
  simM (Client.send_handler chunk ok n) (send_handler chunk ok).
Proof.
  destruct ok; [|apply sim_ret]. cbn.
  apply (sim_out_l (λ c, (_, _))), (sim_out_r (λ s, (_, _))), sim_on_pool.
Qed.

Lemma sim_app_send bs : simM (Client.app_send bs) (app_send bs).
Proof.
  intros c s Hs. unfold Client.app_send, app_send. pose proof (sim_on_pool bp_alloc c s Hs) as Ha.
  destruct (Client.on_pool bp_alloc c), (on_pool bp_alloc s); cbn in Ha; try done; [|by destruct Ha].
  destruct Ha as [-> Hs']. revert Hs'. apply sim_bind; [apply sim_on_pool|]. intros [].
  apply sim_modify. intros c' s' []. split; cbn; congruence.
Qed.

Lemma sim_finish_send i ok : simM (Client.finish_send i ok) (finish_send i ok).
Proof.
  apply sim_get. intros c s Hs. rewrite (sim_send _ _ Hs).
  destruct (sending s !! i) as [op|]; [|by apply sim_ret]. destruct ok; revert c s Hs.
  - apply sim_bind; [apply sim_on_pool|]. intros data.
    apply sim_bind; [|intros []; apply sim_send_handler].
    apply sim_modify. intros c s []. split; cbn; congruence.
  - intros c s []. cbn. split; [done|]. split; cbn; congruence.
Qed.

Lemma sim_complete_receive from bs : simM (Client.complete_receive from bs) (complete_receive from bs).
Proof.
  apply sim_get. intros c s Hs. pose proof Hs as []. rewrite sim_recv0.
  destruct (receiving s) as [chunk|]; cbn [fmap option_fmap option_map]; [|by apply sim_ret].
  cbn zeta. rewrite !bind_run. cbn [put].
  assert (sim (Client.set_remote (Client.set_receiving c None) from)
              (set_remote (set_receiving s None) from)) as Hs' by (by split).
  revert Hs'. apply sim_bind; [apply sim_on_pool|]. intros []. apply sim_receive_handler.
Qed.

Lemma sim_step e : simM (Client.step e) (step e).
Proof.
  destruct e; cbn [Client.step step].
  - apply sim_complete_receive.
  - apply sim_get. intros c s Hs. pose proof Hs as []. rewrite sim_recv0.
    destruct (receiving s) as [chunk|] eqn:Hr; cbn; (split; [done|]); [by split|done].
  - apply sim_app_send.
  - apply sim_finish_send.
  - apply sim_finish_send.
Qed.

Lemma sim_run es : simM (Client.run es) (run es).
Proof.
  induction es as [|e es IH]; [apply sim_ret|]. cbn.
  apply sim_bind; [apply sim_step|]. by intros [].
Qed.

Lemma sim_wp {A} (m1 : M cl A) m2 c s Q :
  simM m1 m2 → sim c s → wp m2 Q s → wp m1 (λ a c', ∃ s', sim c' s' ∧ Q a s') c.
Proof.
  intros Hm Hs Hwp. specialize (Hm c s Hs). unfold wp in *.
  destruct (m1 c), (m2 s); cbn in Hm; try done. destruct Hm as [-> Hs']. eauto.
Qed.
End client.

Section props.
Context {St : Type} `{BufferPoolLaws St}.

(** A client that follows an abstract server, about which [P] holds. *)
Definition follows (sz : sizes) (N : nat) (P : aserver → Prop) (c : Client.Udp_client (St := St)) : Prop :=
  ∃ s a, sim c s ∧ rep sz N s a ∧ P a.

Lemma follows_step sz N (P Q : aserver → Prop) c e :
  event_ok (pool_sz sz) e → (∀ a, P a → Q (spec_step (recv_sz sz) N e a)) →
  follows sz N P c → wp (Client.step e) (λ _ c', follows sz N Q c') c.
Proof.
  intros He HPQ (s & a & Hs & Ha & Hp).
  eapply wp_mono; [eapply sim_wp; [apply sim_step|exact Hs|by apply (rep_step sz N s a e Ha)]|].
  intros [] c' (s' & Hs' & Ha'). eexists s', _. split_and!; [done|exact Ha'|by apply HPQ].
Qed.

Lemma follows_run sz N es : ∀ c a,
  Forall (event_ok (pool_sz sz)) es → follows sz N (λ a', a' = a) c →
  wp (Client.run es) (λ _ c', follows sz N (λ a', a' = spec_run (recv_sz sz) N es a) c') c.
Proof.
  induction es as [|e es IH]; intros c a Hes Hc; cbn [Client.run]; [by apply wp_ret|].
  apply Forall_cons in Hes as [He Hes]. apply wp_bind.
  eapply wp_mono; [eapply (follows_step sz N (λ a0, a0 = a) (λ a', a' = spec_step (recv_sz sz) N e a)); [done|by intros a' ->|exact Hc]|].
  intros [] c' Hc'. by apply (IH c' _ Hes Hc').
Qed.

(** What a follower shows of its abstract server. *)
Lemma follows_view sz N P c :
  follows sz N P c →
  ∃ a, P a ∧ Client.wire c = a_wire a ∧ Client.remote_endpoint_ c = a_remote a ∧
       ∃ n l, bp_rep (Client.mempool_ c) (pool_sz sz) n l ∧ (n + a_used a = N)%nat.
Proof.
  intros (s & a & Hs & (n & rl & sl & ll & Hf) & Hp). exists a.
  rewrite (sim_wire _ _ Hs), (sim_pool _ _ Hs), (sim_remote _ _ Hs).
  destruct (si_rep _ _ _ _ _ _ _ (rf_inv _ _ _ _ _ _ _ _ Hf)) as (l & Hrep & _).
  split_and!; [done|apply Hf|apply Hf|]. exists n, l. split; [done|by eapply rf_free].
Qed.

Lemma follows_operations sz N a c :
  follows sz N (λ a', a' = a) c →
  so_dest <$> Client.sending c = (a_pending a).*1 ∧ (is_Some (Client.receiving c) ↔ a_recv a = true).
Proof.
  intros (s & ? & Hs & (n & rl & sl & ll & Hf) & ->). split.
  - rewrite (sim_send _ _ Hs). apply Hf.
  - rewrite (sim_recv _ _ Hs), fmap_is_Some, <- (rf_recv _ _ _ _ _ _ _ _ Hf). symmetry.
    apply bool_decide_eq_true.
Qed.

(** The first receive, of an object that is set up. *)
Lemma receive_start p sz v N e :
  bp_rep p sz (S N) [] → 0 ≤ v ≤ sz →
  wp async_receive (λ _ s, rep (Sizes sz v) (S N) s (spec_start e)) (Server p v e None [] [] false []).
Proof.
  intros Hrep Hv. apply wp_bind, wp_on_pool. cbn [mempool_]. eapply wp_mono; [by apply bp_alloc_ok|].
  intros c p' (_ & Hrep'). apply wp_modify. exists N, [(c, [])], [], []. split; try done.
  split; cbn; [by exists [(c, [])]|done|done|constructor|lia].
Qed.

(** The constructor, when chunk_size_ holds [v]: the client starts as the abstract server does,
    with the address of its peer. *)
Lemma ctor_follows resolve host service p sz v N e es :
  bp_rep p sz (S N) [] → resolve host service = Some (e :: es) → 0 ≤ v ≤ sz →
  wp (Client.Udp_client_ctor resolve true host service)
     (λ _ c', follows (Sizes sz v) (S N) (λ a, a = spec_start e) c') (Client.client_storage (Some v) p).
Proof.
  intros Hrep Hres Hv. unfold Client.Udp_client_ctor. rewrite Hres.
  apply wp_bind. apply (wp_Ok _ _ _ sz (Client.client_storage (Some v) p)).
  { unfold Client.on_pool. cbn. by rewrite (bp_chunk_sz_ok _ _ _ _ Hrep). }
  apply wp_bind, wp_modify, wp_bind, wp_ret.
  eapply wp_mono; [eapply (sim_wp _ async_receive);
    [apply sim_async_receive| |by apply (receive_start p sz v N e Hrep Hv)]|].
  - by split.
  - intros [] c' (s' & Hsim & Hs'). by exists s', (spec_start e).
Qed.

(** The constructor up to the read of chunk_size_. *)
Lemma ctor_undefined resolve host service p sz n l e es :
  bp_rep p sz (S n) l → resolve host service = Some (e :: es) →
  Client.Udp_client_ctor resolve true host service (Client.raw_client p) = UB ub_uninitialised.
Proof.
  intros Hrep Hres. unfold Client.Udp_client_ctor. rewrite Hres.
  erewrite bind_Ok by (unfold Client.on_pool; cbn; by rewrite (bp_chunk_sz_ok _ _ _ _ Hrep)).
  do 2 erewrite bind_Ok by reflexivity.
  destruct (proj1 (wp_run _ _ _) (bp_alloc_ok _ _ _ _ Hrep)) as (c & p' & Hrun & _).
  unfold Client.async_receive. by erewrite bind_Ok by (unfold Client.on_pool; cbn; by rewrite Hrun).
Qed.

(** The constructor of Udp_client never completes: when the server's address is found and
    the pool has a free buffer, async_receive() reads the member chunk_size_, which the
    constructor has not set (the assignment went to a local variable of the same name), which is
    undefined; when no buffer is free, the socket cannot be opened, or the address is not found,
    it throws. *)
Theorem udp_client_ctor_uninitialised resolve open_ok host service p sz n l :
  bp_rep p sz n l →
  let ctor := Client.Udp_client_ctor resolve open_ok host service (Client.raw_client p) in
  match resolve host service with
  | Some (_ :: _) =>
      if open_ok then
        match n with
        | O => ∃ c, ctor = Throw alloc_failed c
        | S _ => ctor = UB ub_uninitialised
        end
      else ∃ c, ctor = Throw (system_error "open") c
  | Some [] => ctor = UB ub_null_deref
  | None => ctor = Throw (system_error "resolve") (Client.raw_client p)
  end.
Proof.
  intros Hrep. cbn zeta. destruct (resolve host service) as [[|e es]|] eqn:Hres.
  - unfold Client.Udp_client_ctor. rewrite Hres.
    by erewrite bind_Ok by (unfold Client.on_pool; cbn; by rewrite (bp_chunk_sz_ok _ _ _ _ Hrep)).
  - destruct open_ok; [destruct n as [|n]|]; [|by eapply ctor_undefined|].
    + destruct (bp_alloc_fail _ _ _ Hrep) as (p' & Hrun & _). eexists.
      unfold Client.Udp_client_ctor. rewrite Hres.
      erewrite bind_Ok by (unfold Client.on_pool; cbn; by rewrite (bp_chunk_sz_ok _ _ _ _ Hrep)).
      do 2 erewrite bind_Ok by reflexivity.
      apply bind_Throw. unfold Client.on_pool. cbn. by rewrite Hrun.
    + eexists. unfold Client.Udp_client_ctor. rewrite Hres.
      erewrite bind_Ok by (unfold Client.on_pool; cbn; by rewrite (bp_chunk_sz_ok _ _ _ _ Hrep)).
      by erewrite bind_Ok by reflexivity.
  - unfold Client.Udp_client_ctor. rewrite Hres.
    by erewrite bind_Ok by (unfold Client.on_pool; cbn; by rewrite (bp_chunk_sz_ok _ _ _ _ Hrep)).
Qed.

(** C14: class Udp_client.  When the address of the server is found, its constructor is undefined if
    the member chunk_size_ has no value, since it is read and never set.  If the storage of the
    object holds a value [v] up to the size of the chunks in its place (0 in static storage), the
    constructor returns with the address of the server, and through every sequence of datagrams,
    sends of up to a chunk, completions and errors the client refines the abstract server that
    starts with that address and receives up to [v] bytes: what has left and for whom, what is
    being sent, where the next send goes, whether it listens and its buffers are those of the
    abstract server; nothing is undefined and no exception leaves a handler.  In particular each
    datagram it receives changes where its next send goes. *)
Theorem udp_client_refines_spec resolve host service p sz N e es v evs :
  bp_rep p sz (S N) [] → resolve host service = Some (e :: es) → 0 ≤ v ≤ sz →
  Forall (event_ok sz) evs →
  Client.Udp_client_ctor resolve true host service (Client.client_storage None p) = UB ub_uninitialised ∧
  ∃ c, Client.Udp_client_ctor resolve true host service (Client.client_storage (Some v) p) = Ok tt c ∧
    Client.get_remote_address c = show_address e.1 ∧ Client.get_remote_port c = e.2 ∧
    wp (Client.run evs) (λ _ c', let a := spec_run v (S N) evs (spec_start e) in
      Client.wire c' = a_wire a ∧ so_dest <$> Client.sending c' = (a_pending a).*1 ∧
      Client.get_remote_address c' = show_address (a_remote a).1 ∧
      Client.get_remote_port c' = (a_remote a).2 ∧
      (is_Some (Client.receiving c') ↔ a_recv a = true) ∧
      ∃ n l, bp_rep (Client.mempool_ c') sz n l ∧ (n + a_used a = S N)%nat) c.
Proof.
  intros Hrep Hres Hv Hes. split; [by eapply ctor_undefined|].
  destruct (proj1 (wp_run _ _ _) (ctor_follows resolve host service p sz v N e es Hrep Hres Hv))
    as ([] & c & Hrun & Hc).
  exists c. split; [done|]. unfold Client.get_remote_address, Client.get_remote_port.
  destruct (follows_view _ _ _ _ Hc) as (a0 & -> & _ & -> & _). split_and!; [done|done|].
  eapply wp_mono; [by apply (follows_run (Sizes sz v) (S N) evs c (spec_start e))|].
  intros [] c' Hc'. cbn zeta. cbn [recv_sz pool_sz] in Hc'.
  destruct (follows_operations _ _ _ _ Hc') as [Hsend Hrecv].
  destruct (follows_view _ _ _ _ Hc') as (a & -> & Hw & -> & Hpool). by split_and!.
Qed.

(** Such a client receives a datagram, and what it sends next goes to the sender of the datagram,
    not to its server. *)
Theorem udp_client_redirected resolve host service p sz N e es v from bs msg :
  bp_rep p sz (S (S N)) [] → resolve host service = Some (e :: es) → 0 ≤ v ≤ sz →
  Z.of_nat (length msg) ≤ sz →
  ∃ c, Client.Udp_client_ctor resolve true host service (Client.client_storage (Some v) p) = Ok tt c ∧
    wp (Client.run [EvReceived from bs; EvApp msg; EvSent 0]) (λ _ c',
      Client.get_remote_address c' = show_address from.1 ∧ Client.get_remote_port c' = from.2 ∧
      Client.wire c' = [(from, msg)]) c.
Proof.
  intros Hrep Hres Hv Hmsg.
  destruct (proj1 (wp_run _ _ _) (ctor_follows resolve host service p sz v (S N) e es Hrep Hres Hv))
    as ([] & c & Hrun & Hc).
  exists c. split; [done|].
  assert (Forall (event_ok sz) [EvReceived from bs; EvApp msg; EvSent 0]) as Hevs by (by repeat constructor).
  eapply wp_mono; [exact (follows_run (Sizes sz v) _ _ _ _ Hevs Hc)|].
  intros [] c' Hc'. destruct (follows_view _ _ _ _ Hc') as (a & -> & Hw & Hrem & _).
  unfold Client.get_remote_address, Client.get_remote_port. by rewrite Hrem, Hw.
Qed.
End props.

(** ** Witnesses, over class Mempool *)

Definition demo_resolve (host service : string) : option (list endpoint) :=
  if decide (host = "localhost"%string) then Some [(2130706433, 8080)] else None.

Lemma udp_client_ctor_uninitialised_witness :
  Client.Udp_client_ctor demo_resolve true "localhost" "8080" (Client.raw_client demo_mstate) =
    UB ub_uninitialised ∧
  Client.Udp_client_ctor demo_resolve true "nowhere" "8080" (Client.raw_client demo_mstate) =
    Throw (system_error "resolve") (Client.raw_client demo_mstate).
Proof.
  split.
  - exact (udp_client_ctor_uninitialised demo_resolve true "localhost" "8080" demo_mstate 20 3 []
      demo_buffers).
  - exact (udp_client_ctor_uninitialised demo_resolve true "nowhere" "8080" demo_mstate 20 3 []
      demo_buffers).
Defined.

Lemma udp_client_redirected_witness :
  ∃ c, Client.Udp_client_ctor demo_resolve true "localhost" "8080"
         (Client.client_storage (Some 0) demo_mstate) = Ok tt c ∧
    wp (Client.run [EvReceived (167772161, 53) [0]; EvApp [1; 2]; EvSent 0])
       (λ _ c', Client.wire c' = [((167772161, 53), [1; 2])]) c.
Proof.
  destruct (udp_client_redirected demo_resolve "localhost" "8080" demo_mstate 20 1 (2130706433, 8080) [] 0
    (167772161, 53) [0] [1; 2] demo_buffers eq_refl ltac:(lia) ltac:(cbn; lia)) as (c & Hc & Hrun).
  exists c. split; [exact Hc|]. eapply wp_mono; [exact Hrun|]. intros a c' (_ & _ & Hw). exact Hw.
Defined.

(** In zero-initialised storage: what arrives is cut to nothing, what is sent leaves whole. *)
Lemma udp_client_refines_spec_witness :
  Client.Udp_client_ctor demo_resolve true "localhost" "8080" (Client.client_storage None demo_mstate) =
    UB ub_uninitialised ∧
  ∃ c, Client.Udp_client_ctor demo_resolve true "localhost" "8080"
         (Client.client_storage (Some 0) demo_mstate) = Ok tt c ∧
    wp (Client.run [EvApp [1]; EvReceived (167772161, 53) [0]; EvApp [2]; EvSent 0; EvSent 0; EvReceiveError])
       (λ _ c', Client.wire c' = [((2130706433, 8080), [1]); ((167772161, 53), [2])]) c.
Proof.
  destruct (udp_client_refines_spec demo_resolve "localhost" "8080" demo_mstate 20 2 (2130706433, 8080) [] 0
    [EvApp [1]; EvReceived (167772161, 53) [0]; EvApp [2]; EvSent 0; EvSent 0; EvReceiveError]
    demo_buffers eq_refl ltac:(lia) ltac:(repeat constructor; cbn; lia)) as (Hub & c & Hc & _ & _ & Hrun).
  split; [exact Hub|]. exists c. split; [exact Hc|]. eapply wp_mono; [exact Hrun|].
  intros a c' (Hw & _). rewrite Hw. reflexivity.
Defined.
