(* ===== verification/AsyncEcho.v ===== *)
(** The asynchronous echo server and client with their queues of outgoing datagrams
    (src/spike/asio_async_udp/server.cpp, src/spike/asio_async_udp/client.cpp,
    src/spike/asio_async_udp_server.cpp, src/spike/asio_async_udp_client.cpp).

    asio's part: handlers, posted ones included, run one at a time on the thread of the
    io_context, posted handlers in the order they were posted; the buffer of a pending send is
    not copied (it is the front of the queue), its destination is; a receive stores at most as
    many bytes as its buffer has, and a datagram that arrives while no receive is pending stays
    with the system. *)

From S2P Require Import Prelude Format UdpServer.
Local Open Scope Z_scope.

(** [os << endpoint]: dotted address and port. *)
Definition show_endpoint (e : endpoint) : chars :=
  show_address e.1 ++ text ":" ++ show_base 10 e.2.

(** ** The queue of outgoing datagrams *)

Section queue.
Context {Item : Type} (data : Item → chars).

Record wqueue := WQueue {
  posted : list Item;                    (* lambdas given to asio::post, oldest first *)
  queue : list Item;                     (* write_queue_, reply_queue_ *)
  writing : option endpoint;             (* the destination of the pending send *)
  wire : list (endpoint * chars);        (* the datagrams that have left *)
  errors : nat                           (* messages on std::cerr *)
}.

Definition set_posted (q : wqueue) l := WQueue l (queue q) (writing q) (wire q) (errors q).
Definition set_queue (q : wqueue) l := WQueue (posted q) l (writing q) (wire q) (errors q).
Definition set_writing (q : wqueue) w := WQueue (posted q) (queue q) w (wire q) (errors q).

(** send(message), send_reply(message, target): the work is posted. *)
Definition post (i : Item) : M wqueue unit := modify (λ q, set_posted q (posted q ++ [i])).

(** front() of an empty queue is undefined. *)
Definition front : M wqueue Item :=
  q ← get;
  match queue q with
  | i :: _ => mret i
  | [] => undefined (ub_index 0)
  end.

Definition pop : M wqueue unit :=
  q ← get;
  match queue q with
  | _ :: l => put (set_queue q l)
  | [] => undefined (ub_index 0)
  end.

Definition start_write (dest : Item → endpoint) : M wqueue unit :=
  i ← front;
  modify (λ q, set_writing q (Some (dest i))).

(** The posted lambda. *)
Definition run_posted (dest : Item → endpoint) : M wqueue unit :=
  q ← get;
  match posted q with
  | [] => mret tt
  | i :: l =>
      put (set_posted q l);;
      q ← get;
      let write_in_progress := negb (bool_decide (queue q = [])) in
      put (set_queue q (queue q ++ [i]));;
      if negb write_in_progress then start_write dest else mret tt
  end.

(** The completion of the send, with its handler. *)
Definition write_done (dest : Item → endpoint) (ok : bool) : M wqueue unit :=
  q ← get;
  match writing q with
  | None => mret tt
  | Some d =>
      if ok then
        i ← front;
        put (WQueue (posted q) (queue q) None (wire q ++ [(d, data i)]) (errors q));;
        pop;;
        q ← get;
        if negb (bool_decide (queue q = [])) then start_write dest else mret tt
      else put (WQueue (posted q) (queue q) None (wire q) (S (errors q)))
  end.
End queue.
Arguments wqueue : clear implicits.

(** ** class UdpServer *)

Module Server.
Record ReplyItem := Reply { data : chars; client : endpoint }.

Record UdpServer := MkServer {
  q : wqueue ReplyItem;                  (* reply_queue_ and the operations on it *)
  remote_endpoint_ : endpoint;
  recv_buffer_ : chars;                  (* std::array<char, 1024> *)
  receiving : bool;
  out : list chars
}.

Definition on_queue (m : M (wqueue ReplyItem) unit) : M UdpServer unit := λ s,
  match m (q s) with
  | Ok a q' => Ok a (MkServer q' (remote_endpoint_ s) (recv_buffer_ s) (receiving s) (out s))
  | Throw e q' => Throw e (MkServer q' (remote_endpoint_ s) (recv_buffer_ s) (receiving s) (out s))
  | UB u => UB u
  | OutOfFuel => OutOfFuel
  end.

Definition print (line : chars) : M UdpServer unit :=
  modify (λ s, MkServer (q s) (remote_endpoint_ s) (recv_buffer_ s) (receiving s) (out s ++ [line])).

Definition start_receive : M UdpServer unit :=
  modify (λ s, MkServer (q s) (remote_endpoint_ s) (recv_buffer_ s) true (out s)).

Definition send_reply (message : chars) (target_client : endpoint) : M UdpServer unit :=
  on_queue (post (Reply message target_client)).

(** The receive handler. *)
Definition receive_handler (ok aborted : bool) (bytes_recvd : nat) : M UdpServer unit :=
  if ok then
    s ← get;
    let message := take bytes_recvd (recv_buffer_ s) in
    print (text "[Server Received from " ++ show_endpoint (remote_endpoint_ s) ++
           text "]: " ++ message);;
    let reply := text "Echo: " ++ message in
    send_reply reply (remote_endpoint_ s);;
    start_receive
  else if negb aborted then on_queue (modify (λ q, WQueue (posted q) (queue q) (writing q) (wire q) (S (errors q))))
  else mret tt.

Definition UdpServer_ctor (port : Z) : M UdpServer unit :=
  print (text "Server listening on port " ++ show_int false (s16 port) ++ text "...");;
  start_receive.

(** asio stores the datagram in recv_buffer_ and its source in remote_endpoint_. *)
Definition complete_receive (from : endpoint) (bs : chars) : M UdpServer unit :=
  s ← get;
  if receiving s then
    let got := take (length (recv_buffer_ s)) bs in
    put (MkServer (q s) from (got ++ drop (length got) (recv_buffer_ s)) false (out s));;
    receive_handler true false (length got)
  else mret tt.

Definition fail_receive (aborted : bool) : M UdpServer unit :=
  s ← get;
  if receiving s then
    put (MkServer (q s) (remote_endpoint_ s) (recv_buffer_ s) false (out s));;
    receive_handler false aborted 0
  else mret tt.

Inductive event : Type :=
| EvReceived (from : endpoint) (bs : chars)
| EvReceiveError (aborted : bool)
| EvPosted                       (* the io_context runs the oldest posted handler *)
| EvSent
| EvSendError.

Definition step (e : event) : M UdpServer unit :=
  match e with
  | EvReceived from bs => complete_receive from bs
  | EvReceiveError aborted => fail_receive aborted
  | EvPosted => on_queue (run_posted client)
  | EvSent => on_queue (write_done data client true)
  | EvSendError => on_queue (write_done data client false)
  end.

Fixpoint run (es : list event) : M UdpServer unit :=
  match es with
  | [] => mret tt
  | e :: es' => step e;; run es'
  end.

(** The object before the body of the constructor runs. *)
Definition raw_server : UdpServer :=
  MkServer (WQueue [] [] None [] 0) (0, 0) (replicate 1024 Ascii.zero) false [].
End Server.

(** ** class UdpClient *)

Module EchoClient.
Record UdpClient := MkClient {
  q : wqueue chars;                      (* write_queue_ *)
  remote_endpoint_ : endpoint;
  sender_endpoint_ : endpoint;
  recv_buffer_ : chars;
  receiving : bool;
  out : list chars
}.

Definition on_queue (m : M (wqueue chars) unit) : M UdpClient unit := λ c,
  match m (q c) with
  | Ok a q' => Ok a (MkClient q' (remote_endpoint_ c) (sender_endpoint_ c) (recv_buffer_ c)
                              (receiving c) (out c))
  | Throw e q' => Throw e (MkClient q' (remote_endpoint_ c) (sender_endpoint_ c) (recv_buffer_ c)
                                    (receiving c) (out c))
  | UB u => UB u
  | OutOfFuel => OutOfFuel
  end.

Definition set_io (c : UdpClient) sender buf recv o : UdpClient :=
  MkClient (q c) (remote_endpoint_ c) sender buf recv o.

Definition send (message : chars) : M UdpClient unit := on_queue (post message).

Definition start_receive : M UdpClient unit :=
  modify (λ c, set_io c (sender_endpoint_ c) (recv_buffer_ c) true (out c)).

Definition receive_handler (ok aborted : bool) (bytes_recvd : nat) : M UdpClient unit :=
  if ok then
    c ← get;
    let message := take bytes_recvd (recv_buffer_ c) in
    put (set_io c (sender_endpoint_ c) (recv_buffer_ c) (receiving c)
      (out c ++ [[]; text "[Client Received from " ++ show_endpoint (sender_endpoint_ c) ++
                     text "]: " ++ message]));;
    start_receive
  else if negb aborted then on_queue (modify (λ q, WQueue (posted q) (queue q) (writing q) (wire q) (S (errors q))))
  else mret tt.

Definition UdpClient_ctor (resolve : string → string → option (list endpoint))
    (host port : string) : M UdpClient unit :=
  match resolve host port with
  | Some (e :: _) =>
      modify (λ c, MkClient (q c) e (sender_endpoint_ c) (recv_buffer_ c) (receiving c) (out c));;
      start_receive
  | Some [] => undefined ub_null_deref
  | None => throw (system_error "resolve")
  end.

Definition complete_receive (from : endpoint) (bs : chars) : M UdpClient unit :=
  c ← get;
  if receiving c then
    let got := take (length (recv_buffer_ c)) bs in
    put (set_io c from (got ++ drop (length got) (recv_buffer_ c)) false (out c));;
    receive_handler true false (length got)
  else mret tt.

Definition fail_receive (aborted : bool) : M UdpClient unit :=
  c ← get;
  if receiving c then
    put (set_io c (sender_endpoint_ c) (recv_buffer_ c) false (out c));;
    receive_handler false aborted 0
  else mret tt.

(** The destination of every datagram is the server's. *)
Definition on_write (m : (chars → endpoint) → M (wqueue chars) unit) : M UdpClient unit :=
  c ← get; on_queue (m (λ _, remote_endpoint_ c)).

Inductive event : Type :=
| EvApp (message : chars)        (* a thread calls send() *)
| EvReceived (from : endpoint) (bs : chars)
| EvReceiveError (aborted : bool)
| EvPosted
| EvSent
| EvSendError.

Definition step (e : event) : M UdpClient unit :=
  match e with
  | EvApp message => send message
  | EvReceived from bs => complete_receive from bs
  | EvReceiveError aborted => fail_receive aborted
  | EvPosted => on_write run_posted
  | EvSent => on_write (λ dest, write_done id dest true)
  | EvSendError => on_write (λ dest, write_done id dest false)
  end.

Fixpoint run (es : list event) : M UdpClient unit :=
  match es with
  | [] => mret tt
  | e :: es' => step e;; run es'
  end.

Definition raw_client : UdpClient :=
  MkClient (WQueue [] [] None [] 0) (0, 0) (0, 0) (replicate 1024 Ascii.zero) false [].
End EchoClient.
