(* ===== verification/AsyncEchoProps.v ===== *)
(** Properties of the asynchronous echo programs: datagrams leave in order, none is lost or
    duplicated while no send fails, and a failed send stops the queue for good. *)

From S2P Require Import Prelude Format UdpServer AsyncEcho.
Local Open Scope Z_scope.

(** ** The queue *)

Section queue.
Context {Item : Type} (data : Item → chars) (dest : Item → endpoint).
Implicit Types w : wqueue Item.

Definition datagram (i : Item) : endpoint * chars := (dest i, data i).

(** A send is pending exactly when the queue is not empty, and it is that of its front. *)
Definition wq_ok w : Prop := writing w = dest <$> head (queue w).

(** A send has failed: the front is still there, and nothing is pending. *)
Definition wq_stuck w : Prop := writing w = None ∧ queue w ≠ [].

(** All the datagrams given to the queue: sent, waiting, and posted. *)
Definition stream w : list (endpoint * chars) := wire w ++ (datagram <$> queue w ++ posted w).

Lemma post_stream i w :
  wp (post i) (λ _ w', stream w' = stream w ++ [datagram i] ∧ wire w' = wire w ∧
    queue w' = queue w ∧ writing w' = writing w ∧ length (posted w') = S (length (posted w))) w.
Proof.
  apply wp_modify. unfold stream. cbn. rewrite !fmap_app, !app_assoc, length_app. cbn.
  split_and!; [done..|lia].
Qed.

Lemma run_posted_ok w :
  wq_ok w →
  wp (run_posted dest) (λ _ w', wq_ok w' ∧ stream w' = stream w ∧ wire w' = wire w ∧
    length (posted w') = pred (length (posted w))) w.
Proof.
  intros Hok. unfold run_posted. apply wp_get_bind. destruct (posted w) as [|i l] eqn:Hp.
  { apply wp_ret. by rewrite Hp. }
  apply wp_bind, wp_put. apply wp_get_bind. cbn [set_posted queue]. apply wp_bind, wp_put.
  assert (∀ wr, stream (WQueue l (queue w ++ [i]) wr (wire w) (errors w)) = stream w) as Hs.
  { intros wr. unfold stream. cbn. by rewrite Hp, <- app_assoc. }
  unfold wq_ok in Hok. destruct (queue w) as [|j q] eqn:Hq.
  - rewrite bool_decide_true by done. cbn [negb]. unfold start_write, front. apply wp_bind, wp_get_bind.
    cbn [set_queue set_posted queue app]. apply wp_ret, wp_modify. split_and!; [done|apply Hs|done|done].
  - rewrite bool_decide_false by done. cbn [negb]. apply wp_ret. split_and!; [done|apply Hs|done|done].
Qed.

Lemma write_done_ok w :
  wq_ok w →
  wp (write_done data dest true) (λ _ w', wq_ok w' ∧ stream w' = stream w ∧
    length (queue w') = pred (length (queue w)) ∧ posted w' = posted w) w.
Proof.
  intros Hok. unfold write_done. apply wp_get_bind. unfold wq_ok in Hok.
  destruct (queue w) as [|i q] eqn:Hq; cbn in Hok; rewrite Hok.
  { apply wp_ret. unfold wq_ok. by rewrite Hq, Hok. }
  unfold front. apply wp_bind, wp_get_bind. rewrite Hq. apply wp_ret.
  apply wp_bind, wp_put. unfold pop. apply wp_bind, wp_get_bind. cbn [queue].
  apply wp_put, wp_get_bind.
  cbn [set_queue queue].
  assert (∀ wr, stream (WQueue (posted w) q wr (wire w ++ [datagram i]) (errors w)) = stream w) as Hs.
  { intros wr. unfold stream. cbn. rewrite Hq, <- app_assoc. done. }
  destruct q as [|j q].
  - rewrite bool_decide_true by done. cbn [negb]. apply wp_ret. split_and!; [done|apply Hs|done|done].
  - rewrite bool_decide_false by done. cbn [negb]. unfold start_write, front. apply wp_bind, wp_get_bind.
    cbn [set_queue set_posted queue app]. apply wp_ret, wp_modify. split_and!; [done|apply Hs|done|done].
Qed.

Lemma write_fails w d :
  writing w = Some d → wq_ok w →
  wp (write_done data dest false) (λ _ w', wq_stuck w' ∧ wire w' = wire w ∧ stream w' = stream w) w.
Proof.
  intros Hw Hok. unfold write_done. apply wp_get_bind. rewrite Hw. apply wp_put.
  split_and!; [|done|done]. split; [done|]. cbn. unfold wq_ok in Hok. rewrite Hw in Hok.
  by destruct (queue w).
Qed.

Lemma run_posted_stuck w :
  wq_stuck w →
  wp (run_posted dest) (λ _ w', wq_stuck w' ∧ wire w' = wire w ∧ stream w' = stream w) w.
Proof.
  intros [Hw Hq]. unfold run_posted. apply wp_get_bind. destruct (posted w) as [|i l] eqn:Hp.
  { by apply wp_ret. }
  apply wp_bind, wp_put. apply wp_get_bind. cbn [set_posted queue]. apply wp_bind, wp_put.
  rewrite bool_decide_false by done. cbn [negb]. apply wp_ret. split_and!; [|done|].
  - split; [done|]. cbn. by destruct (queue w).
  - unfold stream. cbn. by rewrite Hp, <- app_assoc.
Qed.

Lemma write_done_stuck w ok : wq_stuck w → write_done data dest ok w = Ok tt w.
Proof. intros [Hw _]. unfold write_done. rewrite get_bind, Hw. done. Qed.

(** A queue that has been run for long enough is empty. *)
Lemma stream_drained w : queue w = [] → posted w = [] → stream w = wire w.
Proof. intros Hq Hp. unfold stream. by rewrite Hq, Hp, app_nil_r. Qed.
End queue.

(** ** The server *)

Module ServerProps.
Import Server.

(** The datagrams the server gets out of the events: those that arrive until a receive fails,
    cut to the size of its buffer. *)
Fixpoint accepted (recv : bool) (es : list event) : list (endpoint * chars) :=
  match es with
  | [] => []
  | EvReceived from bs :: es' =>
      if recv then (from, take 1024 bs) :: accepted true es' else accepted false es'
  | EvReceiveError _ :: es' => accepted false es'
  | _ :: es' => accepted recv es'
  end.

Definition still_receiving (recv : bool) (e : event) : bool :=
  match e with EvReceiveError _ => false | _ => recv end.

(** The answer to a datagram, and where it goes. *)
Definition echo (d : endpoint * chars) : endpoint * chars := (d.1, text "Echo: " ++ d.2).

Definition not_send_error (e : event) : bool := match e with EvSendError => false | _ => true end.

Abbreviation sstream := (stream data client).

(** [P] is what holds of the queue. *)
Record sinv (P : wqueue ReplyItem → Prop) (recv : bool) (s : UdpServer) : Prop := {
  si_queue : P (q s);
  si_receiving : receiving s = recv;
  si_buffer : length (recv_buffer_ s) = 1024%nat
}.

Lemma wp_on_queue m Q s :
  wp m (λ a q', Q a (MkServer q' (remote_endpoint_ s) (recv_buffer_ s) (receiving s) (out s))) (q s) →
  wp (on_queue m) Q s.
Proof. unfold wp, on_queue. by destruct (m (q s)). Qed.

Lemma accepted_cons recv e es :
  accepted recv (e :: es) = accepted recv [e] ++ accepted (still_receiving recv e) es.
Proof. destruct e, recv; done. Qed.

Lemma accepted_length recv es : (length (accepted recv es) ≤ length es)%nat.
Proof.
  revert recv. induction es as [|e es IH]; intros recv; [done|].
  destruct e as [from bs| | | |]; cbn; [destruct recv; cbn|..]; auto using le_n_S, le_S.
Qed.

(** A property of the queue that posting and the queue's own counters do not change. *)
Definition stable (P : wqueue ReplyItem → Prop) : Prop :=
  ∀ w w', queue w' = queue w → writing w' = writing w → P w → P w'.

Lemma wq_ok_stable : stable (wq_ok client).
Proof. intros w w' Hq Hw. unfold wq_ok. by rewrite Hq, Hw. Qed.

Lemma wq_stuck_stable : stable wq_stuck.
Proof. intros w w' Hq Hw. unfold wq_stuck. by rewrite Hq, Hw. Qed.

Lemma step_receive P recv s from bs :
  stable P → sinv P recv s →
  wp (step (EvReceived from bs)) (λ _ s', sinv P recv s' ∧ wire (q s') = wire (q s) ∧
    sstream (q s') = sstream (q s) ++ (echo <$> accepted recv [EvReceived from bs])) s.
Proof.
  intros HP [Hq Hr Hb]. cbn [step]. unfold complete_receive. apply wp_get_bind. rewrite Hr.
  destruct recv.
  - cbn zeta. rewrite Hb. set (got := take 1024 bs).
    assert (take (length got) (got ++ drop (length got) (recv_buffer_ s)) = got) as Hgot
      by apply take_app_length.
    apply wp_bind, wp_put. cbn [receive_handler]. apply wp_get_bind.
    cbn [recv_buffer_ remote_endpoint_ q]. rewrite Hgot.
    apply wp_bind, wp_modify. apply wp_bind, wp_on_queue. cbn [q].
    eapply wp_mono; [apply post_stream|]. intros [] w' (Hs & Hwire & Hq' & Hw' & _).
    apply wp_modify. cbn [q recv_buffer_ remote_endpoint_ out]. split_and!; [|done|exact Hs].
    split; [by eapply HP|done|]. cbn. rewrite length_app, length_drop, Hb.
    unfold got. rewrite length_take. lia.
  - apply wp_ret. cbn. rewrite app_nil_r. by split_and!.
Qed.

Lemma step_receive_fails P recv s aborted :
  stable P → sinv P recv s →
  wp (step (EvReceiveError aborted)) (λ _ s', sinv P false s' ∧ wire (q s') = wire (q s) ∧
    sstream (q s') = sstream (q s)) s.
Proof.
  intros HP [Hq Hr Hb]. cbn [step]. unfold fail_receive. apply wp_get_bind. rewrite Hr.
  destruct recv; [|apply wp_ret; split_and!; by try split]. apply wp_bind, wp_put.
  cbn [receive_handler].
  destruct aborted; cbn [negb]; [apply wp_ret; split_and!; by try split|].
  apply wp_on_queue, wp_modify. split_and!; [|done|done]. split; [|done|done]. by apply (HP (q s)).
Qed.

Lemma step_ok recv s e :
  sinv (wq_ok client) recv s → not_send_error e = true →
  wp (step e) (λ _ s', sinv (wq_ok client) (still_receiving recv e) s' ∧
    sstream (q s') = sstream (q s) ++ (echo <$> accepted recv [e])) s.
Proof.
  intros Hi He. pose proof Hi as [Hq Hr Hb]. destruct e as [from bs|aborted| | |]; [..|done];
    cbn [accepted still_receiving fmap list_fmap].
  - eapply wp_mono; [apply (step_receive _ recv s from bs wq_ok_stable Hi)|]. intros [] s' Hs.
    split; apply Hs.
  - eapply wp_mono; [apply (step_receive_fails _ recv s aborted wq_ok_stable Hi)|]. intros [] s' Hs.
    rewrite app_nil_r. split; apply Hs.
  - apply wp_on_queue. eapply wp_mono; [by apply (run_posted_ok data)|]. intros [] w' Hw.
    rewrite app_nil_r. split; [split; [apply Hw|done..]|apply Hw].
  - apply wp_on_queue. eapply wp_mono; [by apply write_done_ok|]. intros [] w' Hw.
    rewrite app_nil_r. split; [split; [apply Hw|done..]|apply Hw].
Qed.

Lemma step_stuck recv s e :
  sinv wq_stuck recv s →
  wp (step e) (λ _ s', sinv wq_stuck (still_receiving recv e) s' ∧ wire (q s') = wire (q s) ∧
    sstream (q s') = sstream (q s) ++ (echo <$> accepted recv [e])) s.
Proof.
  intros Hi. pose proof Hi as [Hq Hr Hb]. destruct e as [from bs|aborted| | |];
    cbn [accepted still_receiving fmap list_fmap]; rewrite ?app_nil_r.
  - apply (step_receive _ recv s from bs wq_stuck_stable Hi).
  - apply (step_receive_fails _ recv s aborted wq_stuck_stable Hi).
  - apply wp_on_queue. eapply wp_mono; [by apply (run_posted_stuck data)|]. intros [] w' (Hw & Hwire & Hs).
    split_and!; [by split|done|done].
  - apply wp_on_queue. apply (wp_Ok _ _ _ _ _ (write_done_stuck data client (q s) true Hq)).
    by destruct s.
  - apply wp_on_queue. apply (wp_Ok _ _ _ _ _ (write_done_stuck data client (q s) false Hq)).
    by destruct s.
Qed.

Lemma wp_run_events (I : bool → UdpServer → Prop) (ok : event → bool) (R : UdpServer → UdpServer → Prop) :
  (∀ s, R s s) → (∀ s1 s2 s3, R s1 s2 → R s2 s3 → R s1 s3) →
  (∀ recv s e, I recv s → ok e = true →
     wp (step e) (λ _ s', I (still_receiving recv e) s' ∧ R s s' ∧
       sstream (q s') = sstream (q s) ++ (echo <$> accepted recv [e])) s) →
  ∀ es recv s, I recv s → forallb ok es = true →
    wp (run es) (λ _ s', (∃ recv', I recv' s') ∧ R s s' ∧
      sstream (q s') = sstream (q s) ++ (echo <$> accepted recv es)) s.
Proof.
  intros Hrefl Htrans Hstep. induction es as [|e es IH]; intros recv s Hi Hes; cbn [run].
  - apply wp_ret. cbn. rewrite app_nil_r. eauto.
  - cbn in Hes. apply andb_prop in Hes as [He Hes]. apply wp_bind.
    eapply wp_mono; [by apply (Hstep recv)|]. intros [] s1 (Hi1 & HR1 & Hs1).
    eapply wp_mono; [by apply (IH _ s1 Hi1)|]. intros [] s2 (Hi2 & HR2 & Hs2).
    split_and!; [done|by eapply Htrans|].
    rewrite Hs2, Hs1, (accepted_cons recv e es), fmap_app. by rewrite app_assoc.
Qed.

Lemma run_ok es recv s :
  sinv (wq_ok client) recv s → forallb not_send_error es = true →
  wp (run es) (λ _ s', (∃ recv', sinv (wq_ok client) recv' s') ∧
    sstream (q s') = sstream (q s) ++ (echo <$> accepted recv es)) s.
Proof.
  intros Hi Hes. eapply wp_mono.
  - apply (wp_run_events (sinv (wq_ok client)) not_send_error (λ _ _, True)); [done..| |done|done].
    intros recv' s' e Hi' He. eapply wp_mono; [by apply step_ok|]. by intros [] s'' [? ?].
  - intros [] s' (? & _ & ?). done.
Qed.

(** Posted handlers, then sends, run until there is nothing left. *)
Lemma wp_run_app es1 es2 Q s :
  wp (run es1) (λ _ s', wp (run es2) Q s') s → wp (run (es1 ++ es2)) Q s.
Proof.
  revert s. induction es1 as [|e es1 IH]; intros s Hwp; [done|]. cbn [run app] in *.
  unfold wp in Hwp. rewrite bind_run in Hwp. apply wp_bind. unfold wp at 1.
  destruct (step e s); try done. by apply IH.
Qed.

Lemma drain_posted n : ∀ recv s,
  sinv (wq_ok client) recv s → (length (posted (q s)) ≤ n)%nat →
  wp (run (replicate n EvPosted)) (λ _ s', sinv (wq_ok client) recv s' ∧ posted (q s') = [] ∧
    sstream (q s') = sstream (q s)) s.
Proof.
  induction n as [|n IH]; intros recv s Hi Hn; cbn [replicate run].
  - apply wp_ret. split_and!; [done|by apply nil_length_inv; lia|done].
  - destruct Hi as [Hq Hr Hb]. apply wp_bind, wp_on_queue.
    eapply wp_mono; [by apply (run_posted_ok data)|]. intros [] w' (Hw & Hs & _ & Hlen).
    eapply wp_mono; [apply (IH recv)|].
    + by split.
    + cbn. lia.
    + intros [] s' (? & ? & Hs'). cbn in Hs'. by rewrite Hs', Hs.
Qed.

Lemma drain_queue n : ∀ recv s,
  sinv (wq_ok client) recv s → posted (q s) = [] → (length (queue (q s)) ≤ n)%nat →
  wp (run (replicate n EvSent)) (λ _ s', wire (q s') = sstream (q s) ∧ queue (q s') = [] ∧
    posted (q s') = []) s.
Proof.
  induction n as [|n IH]; intros recv s Hi Hp Hn; cbn [replicate run].
  - apply wp_ret. assert (queue (q s) = []) as Hq0 by (apply nil_length_inv; lia).
    split_and!; [|done|done]. symmetry. by apply stream_drained.
  - destruct Hi as [Hq Hr Hb]. apply wp_bind, wp_on_queue.
    eapply wp_mono; [by apply write_done_ok|]. intros [] w' (Hw & Hs & Hlen & Hp').
    eapply wp_mono; [apply (IH recv)|].
    + by split.
    + by rewrite <- Hp.
    + cbn. lia.
    + intros [] s' (Hwire & ?). cbn in Hwire. by rewrite Hwire, Hs.
Qed.

Lemma ctor_ok port :
  wp (UdpServer_ctor port) (λ _ s, sinv (wq_ok client) true s ∧ sstream (q s) = []) raw_server.
Proof. apply wp_bind, wp_modify, wp_modify. split; [by split|done]. Qed.

Lemma stream_lengths w : (length (queue w) ≤ length (sstream w) ∧ length (posted w) ≤ length (sstream w))%nat.
Proof. unfold stream. rewrite length_app, length_fmap, length_app. lia. Qed.

(** C33: the echo server answers in order: while no send fails, whatever arrives and in whatever
    order the handlers run, no handler has undefined behaviour, the datagrams that have left are
    a prefix of the echoes of the datagrams accepted, each to its own sender; and once the posted
    handlers and the sends have completed, all of them have left, none lost or duplicated. *)
Theorem echo_server_fifo port es :
  forallb not_send_error es = true →
  wp (UdpServer_ctor port;; run es) (λ _ s',
    wire (q s') `prefix_of` (echo <$> accepted true es)) raw_server ∧
  wp (UdpServer_ctor port;;
      run (es ++ replicate (length es) EvPosted ++ replicate (length es) EvSent)) (λ _ s',
    wire (q s') = echo <$> accepted true es ∧ queue (q s') = [] ∧ posted (q s') = []) raw_server.
Proof.
  intros Hes.
  assert (wp (UdpServer_ctor port;; run es) (λ _ s', (∃ recv', sinv (wq_ok client) recv' s') ∧
    sstream (q s') = echo <$> accepted true es) raw_server) as Hrun.
  { apply wp_bind. eapply wp_mono; [apply ctor_ok|]. intros [] s [Hi Hs].
    eapply wp_mono; [by apply (run_ok es true s)|]. intros [] s' [Hi' Hs']. by rewrite Hs in Hs'. }
  split; [eapply wp_mono; [exact Hrun|]; intros [] s' [_ <-]; by apply prefix_app_r|].
  apply wp_bind. apply wp_run in Hrun as ([] & s' & Heq & (recv & Hi) & Hs).
  rewrite bind_run in Heq. unfold wp at 1. destruct (UdpServer_ctor port raw_server); try done.
  apply wp_run_app, (wp_Ok _ _ _ _ _ Heq), wp_run_app.
  pose proof (stream_lengths (q s')) as [_ Hp]. pose proof (accepted_length true es) as Ha.
  rewrite Hs, length_fmap in Hp.
  eapply wp_mono; [apply (drain_posted _ recv s' Hi); lia|]. intros [] s1 (Hi1 & Hp1 & Hs1).
  pose proof (stream_lengths (q s1)) as [Hq1 _]. rewrite Hs1, Hs, length_fmap in Hq1.
  eapply wp_mono; [apply (drain_queue _ recv s1 Hi1 Hp1); lia|].
  intros [] s2 (Hw & Hq2). rewrite Hw, Hs1, Hs. done.
Qed.

(** C36: one send that fails stops the echo server's answers for good: the failed answer stays
    at the front of the queue with no send pending, so whatever happens afterwards nothing leaves
    any more, while the answers to the datagrams still accepted pile up behind it. *)
Theorem echo_server_wedged s d es :
  sinv (wq_ok client) true s → writing (q s) = Some d →
  wp (run (EvSendError :: es)) (λ _ s', wire (q s') = wire (q s) ∧
    (datagram data client <$> queue (q s') ++ posted (q s')) =
      (datagram data client <$> queue (q s) ++ posted (q s)) ++ (echo <$> accepted true es)) s.
Proof.
  intros [Hq Hr Hb] Hw. cbn [run]. apply wp_bind, wp_on_queue.
  eapply wp_mono; [by eapply (write_fails data)|]. intros [] w' (Hstuck & Hwire & Hs).
  eapply wp_mono.
  - apply (wp_run_events (sinv wq_stuck) (λ _, true) (λ s1 s2, wire (q s1) = wire (q s2)))
      with (recv := true); [done|by intros ? ? ? -> ->| | |by induction es].
    + intros recv s1 e Hi _. eapply wp_mono; [by apply step_stuck|]. by intros [] s2 (? & <- & ?).
    + by split.
  - intros [] s' (_ & Hwire' & Hs'). cbn [q] in *. split; [congruence|].
    rewrite Hs in Hs'. unfold stream in Hs'.
    rewrite <- Hwire', Hwire, <- app_assoc in Hs'. by apply app_inv_head in Hs'.
Qed.
End ServerProps.

(** ** The client *)

Module ClientProps.
Import EchoClient.

Definition messages (es : list event) : list chars :=
  omap (λ e, match e with EvApp m => Some m | _ => None end) es.

Definition not_send_error (e : event) : bool := match e with EvSendError => false | _ => true end.

Abbreviation cstream server := (stream id (λ _ : chars, server)).

(** The client keeps sending to [server], and its queue is in order. *)
Record cinv (server : endpoint) (c : UdpClient) : Prop := {
  ci_remote : remote_endpoint_ c = server;
  ci_queue : wq_ok (λ _, server) (q c)
}.

Lemma wp_on_cqueue m Q c :
  wp m (λ a q', Q a (MkClient q' (remote_endpoint_ c) (sender_endpoint_ c) (recv_buffer_ c)
                              (receiving c) (out c))) (q c) →
  wp (on_queue m) Q c.
Proof. unfold wp, on_queue. by destruct (m (q c)). Qed.

(** Receiving does not touch the queue or the server's endpoint. *)
Lemma receive_frame server c from bs :
  cinv server c →
  wp (complete_receive from bs) (λ _ c', cinv server c' ∧ q c' = q c) c.
Proof.
  intros [Hr Hq]. unfold complete_receive. apply wp_get_bind. destruct (receiving c).
  - apply wp_bind, wp_put. cbn [receive_handler]. apply wp_get_bind, wp_bind, wp_put, wp_modify.
    split; [by split|done].
  - apply wp_ret. split; [by split|done].
Qed.

Lemma receive_fails_frame server c aborted :
  cinv server c →
  wp (fail_receive aborted) (λ _ c', cinv server c' ∧ cstream server (q c') = cstream server (q c)) c.
Proof.
  intros [Hr Hq]. unfold fail_receive. apply wp_get_bind. destruct (receiving c).
  - apply wp_bind, wp_put. cbn [receive_handler]. destruct aborted; cbn [negb].
    + apply wp_ret. split; [by split|done].
    + apply wp_on_cqueue, wp_modify. split; [by split|done].
  - apply wp_ret. split; [by split|done].
Qed.

Lemma client_step server c e :
  cinv server c → not_send_error e = true →
  wp (step e) (λ _ c', cinv server c' ∧
    cstream server (q c') = cstream server (q c) ++ ((server,.) <$> messages [e])) c.
Proof.
  intros Hi He. pose proof Hi as [Hr Hq]. destruct e as [m|from bs|aborted| | |]; [..|done];
    cbn [step messages omap list_omap fmap list_fmap]; rewrite ?app_nil_r.
  - apply wp_on_cqueue. eapply wp_mono; [apply (post_stream id (λ _, server) m)|].
    intros [] w' (Hs & _ & Hq' & Hw' & _). split; [|done]. split; [done|]. cbn. unfold wq_ok.
    by rewrite Hq', Hw'.
  - eapply wp_mono; [by apply (receive_frame server)|]. intros [] c' [? ->]. done.
  - by apply receive_fails_frame.
  - unfold on_write. apply wp_get_bind. rewrite Hr. apply wp_on_cqueue.
    eapply wp_mono; [by apply (run_posted_ok id)|]. intros [] w' (? & ? & _). split; [by split|done].
  - unfold on_write. apply wp_get_bind. rewrite Hr. apply wp_on_cqueue.
    eapply wp_mono; [by apply write_done_ok|]. intros [] w' (? & ? & _). split; [by split|done].
Qed.

Lemma client_run server es : ∀ c,
  cinv server c → forallb not_send_error es = true →
  wp (run es) (λ _ c', cinv server c' ∧
    cstream server (q c') = cstream server (q c) ++ ((server,.) <$> messages es)) c.
Proof.
  induction es as [|e es IH]; intros c Hi Hes; cbn [run].
  - apply wp_ret. by rewrite app_nil_r.
  - cbn in Hes. apply andb_prop in Hes as [He Hes]. apply wp_bind.
    eapply wp_mono; [by apply (client_step server)|]. intros [] c1 (Hi1 & Hs1).
    eapply wp_mono; [by apply (IH c1)|]. intros [] c2 (Hi2 & Hs2). split; [done|].
    rewrite Hs2, Hs1, <- app_assoc, <- fmap_app. by destruct e.
Qed.

(** Unlike class Udp_client, the queueing client keeps the endpoint of its server apart from
    the source of the datagrams it receives: while no send fails, what has left and what is
    waiting is exactly what the program passed to send(), in order, all of it addressed to
    the server, whoever sent datagrams to the client; at most one send is pending, that of the
    oldest message that has not left. *)
Theorem echo_client_fifo resolve host port server l es :
  resolve host port = Some (server :: l) → forallb not_send_error es = true →
  wp (UdpClient_ctor resolve host port;; run es) (λ _ c',
    wire (q c') ++ ((server,.) <$> queue (q c') ++ posted (q c')) = (server,.) <$> messages es ∧
    (is_Some (writing (q c')) ↔ queue (q c') ≠ [])) raw_client.
Proof.
  intros Hres Hes. unfold UdpClient_ctor. rewrite Hres. apply wp_bind, wp_bind, wp_modify, wp_modify.
  eapply wp_mono; [by apply (client_run server es)|]. intros [] c' ([_ Hq] & Hs). split; [exact Hs|].
  unfold wq_ok in Hq. rewrite Hq. destruct (queue (q c')); cbn; [|split; [done|by eexists]].
  split; [by intros [? ?]|done].
Qed.
End ClientProps.

(** ** Witnesses *)

Definition peer (n : Z) : endpoint := (2130706433, n).

Lemma echo_server_fifo_witness :
  wp (Server.UdpServer_ctor 8080;; Server.run
      ([Server.EvReceived (peer 1) (text "a"); Server.EvPosted; Server.EvReceived (peer 2) (text "b");
        Server.EvSent] ++ replicate 4 Server.EvPosted ++ replicate 4 Server.EvSent))
    (λ _ s', wire (Server.q s') = [(peer 1, text "Echo: a"); (peer 2, text "Echo: b")])
    Server.raw_server.
Proof.
  eapply wp_mono.
  - exact (proj2 (ServerProps.echo_server_fifo 8080
      [Server.EvReceived (peer 1) (text "a"); Server.EvPosted; Server.EvReceived (peer 2) (text "b");
       Server.EvSent] eq_refl)).
  - intros [] s' [Hw _]. rewrite Hw. reflexivity.
Defined.

(** A server whose first answer is on its way. *)
Definition busy_server : Server.UdpServer :=
  Server.MkServer (WQueue [] [Server.Reply (text "Echo: a") (peer 1)] (Some (peer 1)) [] 0) (peer 1)
    (replicate 1024 Ascii.zero) true [].

Lemma echo_server_wedged_witness :
  wp (Server.run [Server.EvSendError; Server.EvReceived (peer 2) (text "b"); Server.EvPosted;
                  Server.EvSent]) (λ _ s', wire (Server.q s') = []) busy_server.
Proof.
  eapply wp_mono.
  - apply (ServerProps.echo_server_wedged busy_server (peer 1)
      [Server.EvReceived (peer 2) (text "b"); Server.EvPosted; Server.EvSent]).
    + split; reflexivity.
    + reflexivity.
  - intros [] s' [Hw _]. exact Hw.
Defined.

Lemma echo_client_fifo_witness :
  wp (EchoClient.UdpClient_ctor (λ _ _, Some [peer 8080]) "127.0.0.1" "8080";;
      EchoClient.run [EchoClient.EvApp (text "Hello"); EchoClient.EvPosted;
                      EchoClient.EvReceived (peer 53) (text "x"); EchoClient.EvApp (text "Bye")])
    (λ _ c', wire (EchoClient.q c') ++
       ((peer 8080,.) <$> queue (EchoClient.q c') ++ posted (EchoClient.q c')) =
       [(peer 8080, text "Hello"); (peer 8080, text "Bye")]) EchoClient.raw_client.
Proof.
  eapply wp_mono.
  - exact (ClientProps.echo_client_fifo (λ _ _, Some [peer 8080]) "127.0.0.1" "8080" (peer 8080) []
      [EchoClient.EvApp (text "Hello"); EchoClient.EvPosted;
       EchoClient.EvReceived (peer 53) (text "x"); EchoClient.EvApp (text "Bye")] eq_refl eq_refl).
  - intros [] c' [Hw _]. exact Hw.
Defined.
