(* ===== verification/IoContext.v ===== *)
(** The shape all the network programs share (src/server/main.cpp, src/client/main.cpp, and the
    asynchronous echo programs of src/spike): main makes an io_context with a work guard, starts a
    thread that calls io_context.run(), builds its object, waits for the user, and shuts down.

    asio's part: run() executes handlers until the context is stopped, or until there is no work
    guard and no outstanding operation; then it returns.  The standard library's part: a
    std::thread that is destroyed while it is joinable ends the program by std::terminate, and so
    does an exception that leaves run() on its thread.

    The two threads are interleaved: a turn is main's next statement, a handler on the other
    thread, or the check in run() that makes it return. *)

From S2P Require Import Prelude Fair.

(** ** Programs *)

(** What asio runs for the program's object. *)
Class AsioApp (App Ev : Type) := {
  app_step : Ev → M App unit;        (* the handler of an operation that completed, or posted *)
  app_pending : App → bool           (* an operation or a posted handler is outstanding *)
}.

Inductive action (App : Type) : Type :=
| MakeWorkGuard
| StartThread                        (* std::thread([&]() { io_context.run(); }) *)
| Call (m : M App unit)              (* a statement on the object: construction, send() *)
| WaitForUser                        (* std::cin.get(), sleep_for *)
| StopContext
| ResetGuard
| JoinThread.
Arguments MakeWorkGuard {App}.
Arguments StartThread {App}.
Arguments Call {App} m.
Arguments WaitForUser {App}.
Arguments StopContext {App}.
Arguments ResetGuard {App}.
Arguments JoinThread {App}.

Inductive tstate : Type := TNone | TRunning | TReturned | TJoined.

Inductive status : Type :=
| SRunning
| SReturned                          (* main has returned *)
| SCaught (e : exn)                  (* main's handler printed the exception *)
| STerminated                        (* std::terminate *)
| SUndefined.

Record psys (App : Type) := PSys {
  app : App;
  work_guard : bool;
  stopped : bool;
  io_thread : tstate;
  rest : list (action App);          (* what main has still to execute *)
  stat : status
}.
Arguments PSys {App}.
Arguments app {App}.
Arguments work_guard {App}.
Arguments stopped {App}.
Arguments io_thread {App}.
Arguments rest {App}.
Arguments stat {App}.

Definition joinable (t : tstate) : bool :=
  match t with TRunning | TReturned => true | _ => false end.

Inductive turn (Ev : Type) : Type :=
| TMain
| TNet (e : Ev)
| TRet.
Arguments TMain {Ev}.
Arguments TNet {Ev} e.
Arguments TRet {Ev}.

Section program.
Context {App Ev : Type} `{AsioApp App Ev}.
(** [catches]: the body of main is in a try block. *)
Context (catches : bool).
Implicit Types s : psys App.

(** An exception in main: leaving the scope destroys the thread object. *)
Definition unwind (t : tstate) (e : exn) : status :=
  if joinable t then STerminated else if catches then SCaught e else STerminated.

Definition main_step s : psys App :=
  match rest s with
  | [] => PSys (app s) (work_guard s) (stopped s) (io_thread s) []
               (if joinable (io_thread s) then STerminated else SReturned)
  | a :: l =>
      match a with
      | MakeWorkGuard => PSys (app s) true (stopped s) (io_thread s) l SRunning
      | StartThread => PSys (app s) (work_guard s) (stopped s) TRunning l SRunning
      | Call m =>
          match m (app s) with
          | Ok _ a' => PSys a' (work_guard s) (stopped s) (io_thread s) l SRunning
          | Throw e a' => PSys a' (work_guard s) (stopped s) (io_thread s) [] (unwind (io_thread s) e)
          | _ => PSys (app s) (work_guard s) (stopped s) (io_thread s) [] SUndefined
          end
      | WaitForUser => PSys (app s) (work_guard s) (stopped s) (io_thread s) l SRunning
      | StopContext => PSys (app s) (work_guard s) true (io_thread s) l SRunning
      | ResetGuard => PSys (app s) false (stopped s) (io_thread s) l SRunning
      | JoinThread =>
          match io_thread s with
          | TReturned => PSys (app s) (work_guard s) (stopped s) TJoined l SRunning
          | TRunning => s                         (* join() waits *)
          | _ => PSys (app s) (work_guard s) (stopped s) (io_thread s) l SRunning  (* not joinable *)
          end
      end
  end.

(** A handler runs on the other thread while run() has not returned. *)
Definition net_step (e : Ev) s : psys App :=
  match io_thread s with
  | TRunning =>
      if stopped s then s else
      match app_step e (app s) with
      | Ok _ a' => PSys a' (work_guard s) (stopped s) (io_thread s) (rest s) (stat s)
      | Throw _ a' => PSys a' (work_guard s) (stopped s) (io_thread s) (rest s) STerminated
      | _ => PSys (app s) (work_guard s) (stopped s) (io_thread s) (rest s) SUndefined
      end
  | _ => s
  end.

Definition run_returns s : bool := stopped s || (negb (work_guard s) && negb (app_pending (app s))).

Definition ret_step s : psys App :=
  match io_thread s with
  | TRunning =>
      if run_returns s then PSys (app s) (work_guard s) (stopped s) TReturned (rest s) (stat s) else s
  | _ => s
  end.

Definition pstep (t : turn Ev) s : psys App :=
  match stat s with
  | SRunning =>
      match t with TMain => main_step s | TNet e => net_step e s | TRet => ret_step s end
  | _ => s
  end.

Definition prun (ts : list (turn Ev)) s : psys App := foldl (λ s t, pstep t s) s ts.

Definition pinit (a : App) (main : list (action App)) : psys App :=
  PSys a false false TNone main SRunning.
End program.

Section runs.
Context {App Ev : Type} `{AsioApp App Ev} (catches : bool).
Implicit Types s : psys App.

Lemma prun_cons t ts s : prun catches (t :: ts) s = prun catches ts (pstep catches t s).
Proof. done. Qed.

Lemma pstep_ended t s : stat s ≠ SRunning → pstep catches t s = s.
Proof. unfold pstep. by destruct (stat s). Qed.

Lemma prun_ended ts s : stat s ≠ SRunning → prun catches ts s = s.
Proof.
  intros Hs. induction ts as [|t ts IH]; [done|]. by rewrite prun_cons, pstep_ended.
Qed.

Lemma ended_stays st s t : st ≠ SRunning → stat s = st → stat (pstep catches t s) = st.
Proof. intros Hst Hs. rewrite pstep_ended; [done|]. by rewrite Hs. Qed.

Lemma returned_stays s t : stat s = SReturned → stat (pstep catches t s) = SReturned.
Proof. by apply ended_stays. Qed.
End runs.

(** ** Programs that stop their context *)

(** A check on the text of main: the thread is started once at a time, the context is stopped
    before the join, and no thread is joinable when main returns. *)
Fixpoint shuts_down {App} (join stop : bool) (l : list (action App)) : bool :=
  match l with
  | [] => negb join
  | StartThread :: l' => negb join && shuts_down true stop l'
  | StopContext :: l' => shuts_down join true l'
  | JoinThread :: l' => join && stop && shuts_down false stop l'
  | _ :: l' => shuts_down join stop l'
  end.

Definition not_returned (t : tstate) : nat :=
  match t with TNone | TRunning => 1 | TReturned | TJoined => 0 end.

Section stop.
Context {App Ev : Type} `{AsioApp App Ev} (catches : bool).
(** An invariant of the object, given what main has still to do: the handlers keep it, and the
    statements of main carry it on. *)
Context (J : list (action App) → App → Prop).
Context (Hev : ∀ l a e, J l a → wp (app_step e) (λ _ a', J l a') a).
Context (Hmain : ∀ x l a, J (x :: l) a →
  match x with Call m => wp m (λ _ a', J l a') a | _ => J l a end).

Record good (s : psys App) : Prop := {
  g_running : stat s = SRunning;
  g_app : J (rest s) (app s);
  g_text : shuts_down (joinable (io_thread s)) (stopped s) (rest s) = true
}.

Definition todo (s : psys App) : nat := 2 * length (rest s) + not_returned (io_thread s).

Definition next_turn (s : psys App) : turn Ev :=
  match rest s, io_thread s with
  | JoinThread :: _, TRunning => TRet
  | _, _ => TMain
  end.

Abbreviation progress := (advances (λ s, stat s = SReturned) good todo next_turn).

Lemma net_progress s e : good s → progress s (TNet e) (net_step e s).
Proof.
  intros [Hs Ha Ht]. right. unfold net_step.
  assert (TNet e ≠ next_turn s) as Hne.
  { unfold next_turn. by destruct (rest s) as [|[] ?], (io_thread s). }
  destruct (io_thread s) eqn:Hth; try (split; [split; [done|done|by rewrite Hth]|by right]).
  destruct (stopped s) eqn:Hst; [split; [split; [done|done|by rewrite Hth, Hst]|by right]|].
  destruct (proj1 (wp_run _ _ _) (Hev _ _ e Ha)) as ([] & a' & -> & Ha').
  split; [by split|right]. split_and!; [done|by unfold todo; cbn; rewrite Hth|].
  unfold next_turn. cbn. by rewrite Hth.
Qed.

Lemma ret_progress s : good s → progress s TRet (ret_step s).
Proof.
  intros [Hs Ha Ht]. right. unfold ret_step. destruct (io_thread s) eqn:Hth.
  1,3,4: split; [split; [done|done|by rewrite Hth]|right; split_and!; [|done|done]];
    unfold next_turn; rewrite Hth; by destruct (rest s) as [|[] ?].
  destruct (run_returns s) eqn:Hr.
  - split; [by split|left]. unfold todo. cbn. rewrite Hth. cbn. lia.
  - split; [split; [done|done|by rewrite Hth]|right]. split_and!; [|done|done].
    unfold next_turn. rewrite Hth. destruct (rest s) as [|[] l] eqn:Hl; try done.
    cbn in Ht. unfold run_returns in Hr. apply andb_prop in Ht as [Ht _].
    rewrite Ht in Hr. done.
Qed.

Lemma main_progress s : good s → progress s TMain (main_step catches s).
Proof.
  intros [Hs Ha Ht]. unfold main_step. destruct (rest s) as [|a l] eqn:Hl.
  { left. cbn in Ht. cbn. by destruct (joinable (io_thread s)). }
  right. pose proof (Hmain _ _ _ Ha) as Ha1. unfold todo. rewrite Hl.
  destruct a; cbn [shuts_down] in Ht.
  - cbn. split; [by split|left; lia].
  - apply andb_prop in Ht as [Hj Ht]. cbn. split; [by split|left].
    destruct (io_thread s); cbn in *; lia || done.
  - destruct (proj1 (wp_run _ _ _) Ha1) as ([] & a' & -> & Ha').
    cbn. split; [by split|left; lia].
  - cbn. split; [by split|left; lia].
  - cbn. split; [by split|left; lia].
  - cbn. split; [by split|left; lia].
  - apply andb_prop in Ht as [[Hj Hst]%andb_prop Ht].
    destruct (io_thread s) eqn:Hth; try done; cbn [joinable] in *.
    + split; [split|right].
      * done.
      * by rewrite Hl.
      * rewrite Hl, Hth. cbn. by rewrite Hst in *.
      * unfold next_turn. rewrite Hl, Hth. split_and!; [done|cbn; lia|done].
    + cbn. split; [by split|left; lia].
Qed.

(** A schedule in rounds: in each of them both threads get a turn. *)
Definition fair_round (ts : list (turn Ev)) : Prop := TMain ∈ ts ∧ TRet ∈ ts.

Lemma stopping_program_returns main a rounds :
  J main a → shuts_down false false main = true →
  Forall fair_round rounds → (2 * length main + 1 < length rounds)%nat →
  stat (prun catches (concat rounds) (pinit a main)) = SReturned.
Proof.
  intros Ha Ht Hf Hlen. 
  apply (rounds_end (pstep catches) (λ s, stat s = SReturned) (returned_stays catches) good todo next_turn).
  - intros s t Hg. unfold pstep. rewrite (g_running _ Hg).
    destruct t; [by apply main_progress|by apply net_progress|by apply ret_progress].
  - by split.
  - unfold todo. cbn. lia.
  - eapply Forall_impl; [exact Hf|]. intros ts [? ?] s' _. unfold next_turn.
    by destruct (rest s') as [|[] ?], (io_thread s').
Qed.

(** The object is in order at every point of every schedule, after the end too. *)
Lemma program_keeps ts : ∀ s,
  (∃ l, J l (app s) ∧ (stat s = SRunning → l = rest s)) → ∃ l, J l (app (prun catches ts s)).
Proof.
  induction ts as [|t ts IH]; intros s (l & Ha & Hl); [by exists l|]. rewrite prun_cons.
  apply IH. unfold pstep. destruct (stat s) eqn:Hst; [|exists l; split; [done|by rewrite Hst]..].
  rewrite (Hl eq_refl) in Ha. clear l Hl. destruct t as [|e|].
  - unfold main_step. destruct (rest s) as [|b l] eqn:Hr; [by exists []|].
    pose proof (Hmain _ _ _ Ha) as Ha1. destruct b; try (by exists l).
    + destruct (proj1 (wp_run _ _ _) Ha1) as ([] & a' & -> & Ha'). by exists l.
    + destruct (io_thread s); try (by exists l). exists (JoinThread :: l). by rewrite Hr.
  - unfold net_step. destruct (io_thread s); try (by exists (rest s)).
    destruct (stopped s); [by exists (rest s)|].
    destruct (proj1 (wp_run _ _ _) (Hev _ _ e Ha)) as ([] & a' & -> & Ha'). by exists (rest s).
  - unfold ret_step. destruct (io_thread s); try (by exists (rest s)).
    destruct (run_returns s); by exists (rest s).
Qed.
End stop.

(** ** Programs that never stop their context *)

Section hang.
Context {App Ev : Type} `{AsioApp App Ev} (catches : bool).
(** [I]: before the object is built; [R]: once it is, with an operation always outstanding. *)
Context (I R : App → Prop) (ok : Ev → Prop).
Context (HI : ∀ a e, I a → ok e → wp (app_step e) (λ _ a', I a') a).
Context (HR : ∀ a e, R a → ok e → wp (app_step e) (λ _ a', R a') a).
Context (HRp : ∀ a, R a → app_pending a = true).

Definition turn_allowed (t : turn Ev) : Prop := match t with TNet e => ok e | _ => True end.

(** Statements that leave the context running. *)
Definition keeps (a : action App) : Prop :=
  match a with
  | Call m => ∀ a, R a → wp m (λ _ a', R a') a
  | WaitForUser | ResetGuard | JoinThread => True
  | _ => False
  end.

Context (ctor : M App unit) (tail : list (action App)).
Context (Hctor : ∀ a, I a → wp ctor (λ _ a', R a') a).
Context (Htail : Forall keeps tail) (Hjoin : JoinThread ∈ tail).

Definition hang_main : list (action App) := MakeWorkGuard :: StartThread :: Call ctor :: tail.

Inductive hangs : psys App → Prop :=
| hang_init a g : I a → hangs (PSys a g false TNone hang_main SRunning)
| hang_guard a : I a → hangs (PSys a true false TNone (StartThread :: Call ctor :: tail) SRunning)
| hang_ctor a : I a → hangs (PSys a true false TRunning (Call ctor :: tail) SRunning)
| hang_tail a g l : R a → Forall keeps l → JoinThread ∈ l → hangs (PSys a g false TRunning l SRunning).

Lemma hangs_step s t : hangs s → turn_allowed t → hangs (pstep catches t s).
Proof.
  intros Hs Ht. destruct Hs as [a g Ha|a Ha|a Ha|a g l Ha Hl Hj]; destruct t as [|e|]; cbn in *;
    try (by constructor).
  - destruct (proj1 (wp_run _ _ _) (Hctor a Ha)) as ([] & a' & Hrun & Ha').
    unfold main_step. cbn. rewrite Hrun. by constructor.
  - destruct (proj1 (wp_run _ _ _) (HI a e Ha Ht)) as ([] & a' & Hrun & Ha').
    unfold net_step. cbn. rewrite Hrun. by constructor.
  - unfold main_step. destruct l as [|b l]; [by apply not_elem_of_nil in Hj|].
    apply Forall_cons in Hl as [Hb Hl]. destruct b; cbn in *; try done.
    + destruct (proj1 (wp_run _ _ _) (Hb a Ha)) as ([] & a' & Hrun & Ha'). rewrite Hrun.
      constructor; [done|done|]. by apply elem_of_cons in Hj as [?|?].
    + constructor; [done|done|]. by apply elem_of_cons in Hj as [?|?].
    + constructor; [done|done|]. by apply elem_of_cons in Hj as [?|?].
    + constructor; [done|by constructor|done].
  - destruct (proj1 (wp_run _ _ _) (HR a e Ha Ht)) as ([] & a' & Hrun & Ha').
    unfold net_step. cbn. rewrite Hrun. by constructor.
  - unfold ret_step, run_returns. cbn. rewrite (HRp a Ha), andb_false_r. by constructor.
Qed.

Lemma pending_program_hangs a ts :
  I a → Forall turn_allowed ts →
  stat (prun catches ts (pinit a hang_main)) = SRunning ∧
  JoinThread ∈ rest (prun catches ts (pinit a hang_main)).
Proof.
  intros Ha Hts. assert (hangs (prun catches ts (pinit a hang_main))) as Hh.
  { assert (hangs (pinit a hang_main)) as Hs by (by constructor). revert Hs.
    generalize (pinit a hang_main). induction ts as [|t ts IH]; intros s Hs; [done|].
    apply Forall_cons in Hts as [Ht Hts]. apply (IH Hts). by apply hangs_step. }
  destruct Hh; cbn; split; try done; unfold hang_main; rewrite !elem_of_cons; auto.
Qed.
End hang.

(** ** Programs whose work comes to an end *)

(** The same check for a main that resets the guard before the join instead of stopping. *)
Fixpoint drains_down {App} (join guard : bool) (l : list (action App)) : bool :=
  match l with
  | [] => negb join
  | MakeWorkGuard :: l' => drains_down join true l'
  | StartThread :: l' => negb join && drains_down true guard l'
  | ResetGuard :: l' => drains_down join false l'
  | StopContext :: l' => false
  | JoinThread :: l' => join && negb guard && drains_down false guard l'
  | _ :: l' => drains_down join guard l'
  end.

Section drain.
Context {App Ev : Type} `{AsioApp App Ev} (catches : bool).
(** [work] measures what is outstanding, [next_ev] is an event that brings it down. *)
Context (I : App → Prop) (work : App → nat) (next_ev : App → Ev).
Context (Hev : ∀ a e, I a → wp (app_step e) (λ _ a', I a' ∧ ((work a' < work a)%nat ∨ a' = a)) a).
Context (Hnext : ∀ a, I a → (0 < work a)%nat →
  wp (app_step (next_ev a)) (λ _ a', (work a' < work a)%nat) a).
Context (Hpend : ∀ a, I a → work a = 0%nat → app_pending a = false).

(** A statement of main starts at most one piece of work. *)
Definition call_adds (a : action App) : Prop :=
  match a with Call m => ∀ a, I a → wp m (λ _ a', I a' ∧ (work a' ≤ work a + 2)%nat) a | _ => True end.

Record draining (s : psys App) : Prop := {
  d_running : stat s = SRunning;
  d_app : I (app s);
  d_calls : Forall call_adds (rest s);
  d_stopped : stopped s = false;
  d_text : drains_down (joinable (io_thread s)) (work_guard s) (rest s) = true
}.

Definition outstanding (s : psys App) : nat :=
  4 * length (rest s) + not_returned (io_thread s) + work (app s).

Definition drain_turn (s : psys App) : turn Ev :=
  match rest s, io_thread s with
  | JoinThread :: _, TRunning => if (work (app s) =? 0)%nat then TRet else TNet (next_ev (app s))
  | _, _ => TMain
  end.

Abbreviation drain_progress := (advances (λ s, stat s = SReturned) draining outstanding drain_turn).

Lemma drain_stay s t : draining s → t ≠ drain_turn s → drain_progress s t s.
Proof. intros Hd Ht. right. split; [done|by right]. Qed.

Lemma net_drains s e : draining s → drain_progress s (TNet e) (net_step e s).
Proof.
  intros Hd. pose proof Hd as [Hs Ha Hc Hst Ht]. unfold net_step.
  destruct (io_thread s) eqn:Hth.
  1,3,4: apply drain_stay; [done|]; unfold drain_turn; rewrite Hth;
    by destruct (rest s) as [|[] ?].
  rewrite Hst. destruct (proj1 (wp_run _ _ _) (Hev _ e Ha)) as ([] & a' & Hrun & Ha' & Hw).
  rewrite Hrun. right. split; [by split|]. unfold outstanding. cbn. rewrite Hth. cbn.
  destruct Hw as [?| ->]; [left; lia|right]. split_and!; [|lia|].
  - unfold drain_turn. rewrite Hth. destruct (rest s) as [|[] l]; try done.
    destruct (work (app s) =? 0)%nat eqn:Hwk; [done|]. apply Nat.eqb_neq in Hwk. intros [= ->].
    pose proof (Hnext (app s) Ha ltac:(lia)) as Hn. unfold wp in Hn. rewrite Hrun in Hn. lia.
  - unfold drain_turn. cbn. by rewrite Hth.
Qed.

Lemma ret_drains s : draining s → drain_progress s TRet (ret_step s).
Proof.
  intros Hd. pose proof Hd as [Hs Ha Hc Hst Ht]. unfold ret_step. destruct (io_thread s) eqn:Hth.
  1,3,4: apply drain_stay; [done|]; unfold drain_turn; rewrite Hth;
    by destruct (rest s) as [|[] ?].
  destruct (run_returns s) eqn:Hr.
  - right. split; [by split|left]. unfold outstanding. cbn. rewrite Hth. cbn. lia.
  - apply drain_stay; [done|]. unfold drain_turn. rewrite Hth.
    destruct (rest s) as [|[] l] eqn:Hl; try done. destruct (work (app s) =? 0)%nat eqn:Hwk; [|done].
    apply Nat.eqb_eq in Hwk. cbn in Ht. unfold run_returns in Hr. rewrite (Hpend _ Ha Hwk), Hst in Hr.
    by destruct (work_guard s).
Qed.

Lemma main_drains s : draining s → drain_progress s TMain (main_step catches s).
Proof.
  intros Hd. pose proof Hd as [Hs Ha Hc Hst Ht]. unfold main_step. destruct (rest s) as [|a l] eqn:Hl.
  { left. cbn in Ht. cbn. by destruct (joinable (io_thread s)). }
  apply Forall_cons in Hc as [Hca Hc].
  destruct a; cbn [drains_down] in Ht; [right; unfold outstanding; rewrite Hl..|].
  - cbn. split; [by split|left; lia].
  - apply andb_prop in Ht as [Hj Ht]. cbn. split; [by split|left].
    destruct (io_thread s); cbn in *; lia || done.
  - destruct (proj1 (wp_run _ _ _) (Hca _ Ha)) as ([] & a' & -> & Ha' & Hw).
    cbn. split; [by split|left; lia].
  - cbn. split; [by split|left; lia].
  - done.
  - cbn. split; [by split|left; lia].
  - apply andb_prop in Ht as [[Hj Hg]%andb_prop Ht].
    destruct (io_thread s) eqn:Hth; try done; cbn [joinable] in *.
    + apply drain_stay; [done|]. unfold drain_turn. rewrite Hl, Hth.
      by destruct (work (app s) =? 0)%nat.
    + right. unfold outstanding. cbn. rewrite Hl, Hth. cbn.
      split; [by split|left; lia].
Qed.

Lemma draining_program_returns main a rounds :
  I a → Forall call_adds main → drains_down false false main = true →
  Forall (λ ts, (TMain ∈ ts ∧ TRet ∈ ts) ∧ ∀ a, TNet (next_ev a) ∈ ts) rounds →
  (4 * length main + 1 + work a < length rounds)%nat →
  stat (prun catches (concat rounds) (pinit a main)) = SReturned.
Proof.
  intros Ha Hc Ht Hf Hlen. 
  apply (rounds_end (pstep catches) (λ s, stat s = SReturned) (returned_stays catches) draining outstanding
    drain_turn).
  - intros s t Hg. unfold pstep. rewrite (d_running _ Hg).
    destruct t; [by apply main_drains|by apply net_drains|by apply ret_drains].
  - by split.
  - unfold outstanding. cbn. lia.
  - eapply Forall_impl; [exact Hf|]. intros ts [[? ?] ?] s' _. unfold drain_turn.
    destruct (rest s') as [|[] ?], (io_thread s'); try done. by destruct (work (app s') =? 0)%nat.
Qed.
End drain.

(** ** Exceptions *)

(** An exception of main while the thread runs, caught or not, ends in std::terminate. *)
Lemma unwind_started catches t e : joinable t = true → unwind catches t e = STerminated.
Proof. unfold unwind. by intros ->. Qed.

(** ** Programs whose object cannot be built *)

Section fail.
Context {App Ev : Type} `{AsioApp App Ev} (catches : bool).
(** The object before its construction, which no handler changes. *)
Context (a0 : App) (Hev : ∀ e, app_step e a0 = Ok tt a0).
Context (ctor : M App unit) (tail : list (action App)).

Definition fail_main : list (action App) := MakeWorkGuard :: StartThread :: Call ctor :: tail.

(** How the program ends, since its thread is running when the constructor fails. *)
Definition failure : option status :=
  match ctor a0 with
  | Ok _ _ => None
  | Throw _ _ => Some STerminated
  | _ => Some SUndefined
  end.

Inductive failing : psys App → Prop :=
| failing_init g : failing (PSys a0 g false TNone fail_main SRunning)
| failing_guard : failing (PSys a0 true false TNone (StartThread :: Call ctor :: tail) SRunning)
| failing_ctor : failing (PSys a0 true false TRunning (Call ctor :: tail) SRunning).

Lemma failing_step st s t :
  failure = Some st → failing s →
  advances (λ s, stat s = st) failing (λ s, length (rest s)) (λ _, TMain) s t (pstep catches t s).
Proof.
  unfold failure. intros Hf Hs. destruct Hs; destruct t as [|e|]; cbn;
    try (right; split; [by constructor|]; cbn; first [left; lia|by right]).
  - left. unfold main_step. cbn. by destruct (ctor a0); simplify_eq/=.
  - right. unfold net_step. cbn. rewrite Hev. split; [constructor|by right].
Qed.

Lemma failing_program_ends st rounds :
  failure = Some st → Forall (λ ts, TMain ∈ ts) rounds → (length tail + 3 < length rounds)%nat →
  stat (prun catches (concat rounds) (pinit a0 fail_main)) = st.
Proof.
  intros Hf Hr Hlen.
  assert (st ≠ SRunning) as Hst by (unfold failure in Hf; destruct (ctor a0); naive_solver).
  apply (rounds_end (pstep catches) (λ s, stat s = st)
    (λ s t Hs, ended_stays catches st s t Hst Hs) failing (λ s, length (rest s)) (λ _, TMain)).
  - intros s t. by apply failing_step.
  - constructor.
  - cbn. lia.
  - eapply Forall_impl; [exact Hr|]. by intros ts ? s' _.
Qed.
End fail.
