(* ===== verification/Shutdown.v ===== *)
(** How the asynchronous echo programs end: the mains of src/spike/asio_async_udp/server.cpp and
    client.cpp and of src/spike/asio_async_udp_server.cpp and asio_async_udp_client.cpp, over
    [IoContext]. *)

From S2P Require Import Prelude Format UdpServer AsyncEcho AsyncEchoProps IoContext.

(** ** The programs *)

(** asio::io_context outstanding work: a pending operation or a posted handler. *)
Definition queue_pending {Item} (w : wqueue Item) : bool :=
  bool_decide (is_Some (writing w)) || negb (bool_decide (posted w = [])).

#[global] Instance echo_server_app : AsioApp Server.UdpServer Server.event := {|
  app_step := Server.step;
  app_pending s := Server.receiving s || queue_pending (Server.q s)
|}.

(** UdpServer server(io_context, 8080): binding the socket may fail. *)
Definition make_server (bind_ok : bool) : M Server.UdpServer unit :=
  if bind_ok then Server.UdpServer_ctor 8080 else throw (system_error "bind").

(** src/spike/asio_async_udp/server.cpp *)
Definition server_program (bind_ok : bool) : list (action Server.UdpServer) :=
  [MakeWorkGuard; StartThread; Call (make_server bind_ok); WaitForUser;
   StopContext; ResetGuard; JoinThread].

(** src/spike/asio_async_udp_server.cpp: the context is not stopped. *)
Definition server_program_no_stop (bind_ok : bool) : list (action Server.UdpServer) :=
  [MakeWorkGuard; StartThread; Call (make_server bind_ok); WaitForUser; ResetGuard; JoinThread].

(** The handlers of the client; what its main passes to send() is in the program. *)
Inductive client_event : Type :=
| ClReceived (from : endpoint) (bs : chars)
| ClReceiveError (aborted : bool)
| ClPosted
| ClSent (ok : bool).

Definition client_handler (e : client_event) : EchoClient.event :=
  match e with
  | ClReceived from bs => EchoClient.EvReceived from bs
  | ClReceiveError aborted => EchoClient.EvReceiveError aborted
  | ClPosted => EchoClient.EvPosted
  | ClSent true => EchoClient.EvSent
  | ClSent false => EchoClient.EvSendError
  end.

#[global] Instance echo_client_app : AsioApp EchoClient.UdpClient client_event := {|
  app_step e := EchoClient.step (client_handler e);
  app_pending c := EchoClient.receiving c || queue_pending (EchoClient.q c)
|}.

Section client_programs.
Context (resolve : string → string → option (list endpoint)).

(** src/spike/asio_async_udp/client.cpp *)
Definition client_program : list (action EchoClient.UdpClient) :=
  [MakeWorkGuard; StartThread; Call (EchoClient.UdpClient_ctor resolve "127.0.0.1" "8080");
   Call (EchoClient.send (text "Hello Standalone Server!"));
   Call (EchoClient.send (text "Testing the async loop logic."));
   WaitForUser; ResetGuard; JoinThread].

(** The constructor of asio_async_udp_client.cpp, which starts no receive. *)
Definition send_only_ctor (host port : string) : M EchoClient.UdpClient unit :=
  match resolve host port with
  | Some (e :: _) => modify (λ c, EchoClient.MkClient (EchoClient.q c) e (EchoClient.sender_endpoint_ c)
      (EchoClient.recv_buffer_ c) (EchoClient.receiving c) (EchoClient.out c))
  | Some [] => undefined ub_null_deref
  | None => throw (system_error "resolve")
  end.

Definition send_only_program : list (action EchoClient.UdpClient) :=
  [MakeWorkGuard; StartThread; Call (send_only_ctor "127.0.0.1" "8080");
   Call (EchoClient.send (text "Hello Server!"));
   Call (EchoClient.send (text "Can you hear me?"));
   WaitForUser; ResetGuard; JoinThread].
End client_programs.

(** ** The queue, through any handlers *)

Section queue.
Context {Item : Type} (data : Item → chars) (dest : Item → endpoint).
Implicit Types w : wqueue Item.

(** A pending send is of a message that is still in the queue. *)
Definition wq_safe w : Prop := is_Some (writing w) → queue w ≠ [].

(** What is left to do: each posted message is pushed and then sent; a queue whose front
    failed is never sent. *)
Definition wq_work w : nat :=
  2 * length (posted w) + (if writing w is Some _ then length (queue w) else 0).

Definition works w w' : Prop := wq_safe w' ∧ ((wq_work w' < wq_work w)%nat ∨ w' = w).

Lemma run_posted_works w : wq_safe w →
  wp (run_posted dest) (λ _ w', works w w' ∧
    (posted w ≠ [] → (wq_work w' < wq_work w)%nat)) w.
Proof.
  intros Hs. unfold run_posted. apply wp_get_bind. destruct (posted w) as [|i l] eqn:Hp.
  { apply wp_ret. split; [split; [done|by right]|done]. }
  apply wp_bind, wp_put. apply wp_get_bind. cbn [set_posted queue]. apply wp_bind, wp_put.
  unfold works, wq_safe, wq_work in *. rewrite Hp. destruct (queue w) as [|j q] eqn:Hq.
  - rewrite bool_decide_true by done. cbn [negb]. unfold start_write, front. apply wp_bind, wp_get_bind.
    cbn [set_queue set_posted queue app]. apply wp_ret, wp_modify. cbn.
    split; [split; [done|left; lia]|intros _; lia].
  - rewrite bool_decide_false by done. cbn [negb]. apply wp_ret. cbn. rewrite length_app.
    destruct (writing w); cbn; (split; [split; [done|left; lia]|intros _; lia]).
Qed.

Lemma write_done_works ok w : wq_safe w →
  wp (write_done data dest ok) (λ _ w', works w w' ∧
    (is_Some (writing w) → (wq_work w' < wq_work w)%nat)) w.
Proof.
  intros Hs. unfold write_done. apply wp_get_bind. unfold works, wq_safe, wq_work in *.
  destruct (writing w) as [d|] eqn:Hw.
  2: { apply wp_ret. rewrite Hw. split; [split; [by intros []|by right]|by intros []]. }
  destruct (queue w) as [|i q] eqn:Hq; [by destruct (Hs ltac:(done))|].
  destruct ok.
  - unfold front. apply wp_bind, wp_get_bind. rewrite Hq. apply wp_ret.
    apply wp_bind, wp_put. unfold pop. apply wp_bind, wp_get_bind. cbn [queue].
    apply wp_put, wp_get_bind. cbn [set_queue queue]. destruct q as [|j q].
    + rewrite bool_decide_true by done. cbn [negb]. apply wp_ret. cbn.
      split; [split; [by intros []|left; lia]|intros _; lia].
    + rewrite bool_decide_false by done. cbn [negb]. unfold start_write, front.
      apply wp_bind, wp_get_bind. cbn [set_queue set_posted queue app]. apply wp_ret, wp_modify.
      cbn. split; [split; [done|left; lia]|intros _; lia].
  - apply wp_put. cbn. split; [split; [by intros []|left; lia]|intros _; lia].
Qed.

Lemma no_work w : wq_safe w → wq_work w = 0%nat → queue_pending w = false.
Proof.
  intros Hs Hw. unfold wq_safe, wq_work, queue_pending in *.
  destruct (posted w); [|cbn in Hw; lia]. destruct (writing w); [|done].
  destruct (queue w); [by destruct (Hs ltac:(done))|cbn in Hw; lia].
Qed.
End queue.

(** ** The server programs *)

Import ServerProps.

Lemma wq_safe_stable : stable wq_safe.
Proof. intros w w' Hq Hw. unfold wq_safe. by rewrite Hq, Hw. Qed.

(** Every handler of the server keeps its object in order, failed operations included. *)
Lemma server_any_step recv s e :
  sinv wq_safe recv s → wp (Server.step e) (λ _ s', sinv wq_safe (still_receiving recv e) s') s.
Proof.
  intros Hi. pose proof Hi as [Hq Hr Hb]. destruct e as [from bs|aborted| | |]; cbn [still_receiving].
  - eapply wp_mono; [apply (step_receive _ recv s from bs wq_safe_stable Hi)|].
    by intros [] s' [? _].
  - eapply wp_mono; [apply (step_receive_fails _ recv s aborted wq_safe_stable Hi)|].
    by intros [] s' [? _].
  - apply wp_on_queue. eapply wp_mono; [by apply run_posted_works|]. intros [] w' [[? _] _]. by split.
  - apply wp_on_queue. eapply wp_mono; [by apply write_done_works|]. intros [] w' [[? _] _]. by split.
  - apply wp_on_queue. eapply wp_mono; [by apply write_done_works|]. intros [] w' [[? _] _]. by split.
Qed.

Definition server_ok (s : Server.UdpServer) : Prop := ∃ recv, sinv wq_safe recv s.

Lemma raw_server_ok : server_ok Server.raw_server.
Proof. exists false. by split; [intros []| |]. Qed.

Lemma make_server_receives s : server_ok s → wp (make_server true) (λ _ s', sinv wq_safe true s') s.
Proof. intros [recv [Hq Hr Hb]]. apply wp_bind, wp_modify, wp_modify. by split. Qed.

Lemma server_program_call ok m l : Call m :: l `suffix_of` server_program ok → m = make_server ok.
Proof.
  intros Hl. assert (Call m ∈ server_program ok) as Hin.
  { destruct Hl as [k ->]. apply elem_of_app. right. by left. }
  unfold server_program in Hin. rewrite !elem_of_cons, elem_of_nil in Hin.
  by destruct_or! Hin; simplify_eq.
Qed.

Lemma raw_server_event e : app_step e Server.raw_server = Ok tt Server.raw_server.
Proof. by destruct e. Qed.

(** C35: the echo server of asio_async_udp/server.cpp ends, in every schedule in which both threads
    keep getting turns (within sixteen rounds): if its socket can be bound, main returns, whatever
    datagrams arrive and whichever receives and sends fail, and whenever; if it cannot, the
    program is ended by std::terminate, because the exception leaves the scope of the running
    thread. *)
Theorem echo_server_program_returns bind_ok rounds :
  Forall fair_round rounds → (15 < length rounds)%nat →
  stat (prun true (concat rounds) (pinit Server.raw_server (server_program bind_ok))) =
    if bind_ok then SReturned else STerminated.
Proof.
  intros Hf Hlen. destruct bind_ok.
  2: { eapply (failing_program_ends true Server.raw_server raw_server_event); [done| |cbn; lia].
       eapply Forall_impl; [exact Hf|]. by intros ts [? _]. }
  apply (stopping_program_returns true (λ l s, server_ok s ∧ l `suffix_of` server_program true));
    [| |by split; [apply raw_server_ok|]|done|done|done].
  - intros l s e [[recv Hs] Hl]. eapply wp_mono; [by apply server_any_step|].
    intros [] s' ?. split; [by eexists|done].
  - intros x l s [Hs Hl]. pose proof (suffix_cons_l _ _ _ Hl) as Hl'.
    destruct x; try done. assert (m = make_server true) as -> by (by eapply server_program_call).
    eapply wp_mono; [by apply make_server_receives|]. intros [] s' ?. split; [by exists true|done].
Qed.

Definition no_receive_error (e : Server.event) : Prop :=
  match e with Server.EvReceiveError _ => False | _ => True end.

(** The same server in asio_async_udp_server.cpp, whose "safe shutdown procedure" resets the
    work guard and joins but does not stop the context, never ends: a receive is always pending,
    so run() does not return, and in no schedule in which no receive fails does main get past
    the join. *)
Theorem echo_server_no_stop_hangs ts :
  Forall (turn_allowed no_receive_error) ts →
  stat (prun true ts (pinit Server.raw_server (server_program_no_stop true))) = SRunning ∧
  JoinThread ∈ rest (prun true ts (pinit Server.raw_server (server_program_no_stop true))).
Proof.
  intros Hts.
  apply (pending_program_hangs true server_ok (sinv wq_safe true) no_receive_error); try done.
  - intros s e [recv Hs] _. eapply wp_mono; [by apply server_any_step|]. intros [] s' ?. by eexists.
  - intros s e Hs He. eapply wp_mono; [by apply (server_any_step true)|]. by destruct e.
  - intros s [_ Hr _]. cbn. by rewrite Hr.
  - intros s Hs. by apply make_server_receives.
  - repeat constructor.
  - rewrite !elem_of_cons. auto.
  - apply raw_server_ok.
Qed.

(** When the socket cannot be bound, the catch block of main is never reached, in either server
    program: the exception leaves the scope of a running thread, and the program is ended by
    std::terminate instead of printing the error and returning. *)
Theorem echo_server_bind_fails (main : list (action Server.UdpServer)) ts :
  main = server_program false ∨ main = server_program_no_stop false →
  stat (prun true (TMain :: TMain :: TMain :: ts) (pinit Server.raw_server main)) = STerminated.
Proof.
  intros Hmain. rewrite !prun_cons. rewrite prun_ended.
  - by destruct Hmain as [->| ->].
  - by destruct Hmain as [->| ->].
Qed.

(** ** The client programs *)

Section clients.
Context (resolve : string → string → option (list endpoint)) (server : endpoint) (l : list endpoint).
Context (Hres : resolve "127.0.0.1" "8080" = Some (server :: l)).

Abbreviation cl := EchoClient.UdpClient.

(** Its object in order, with a receive pending or not. *)
Record cl_ok (recv : bool) (c : cl) : Prop := {
  cl_queue : wq_safe (EchoClient.q c);
  cl_recv : EchoClient.receiving c = recv
}.

Definition cl_work (c : cl) : nat := wq_work (EchoClient.q c).

Lemma send_adds recv m c : cl_ok recv c →
  wp (EchoClient.send m) (λ _ c', cl_ok recv c' ∧ (cl_work c' ≤ cl_work c + 2)%nat) c.
Proof.
  intros [Hq Hr]. apply ClientProps.wp_on_cqueue, wp_modify. split; [by split|].
  unfold cl_work, wq_work. cbn. rewrite length_app. cbn. lia.
Qed.

Lemma client_set_queue c w : w = EchoClient.q c →
  EchoClient.MkClient w (EchoClient.remote_endpoint_ c) (EchoClient.sender_endpoint_ c)
    (EchoClient.recv_buffer_ c) (EchoClient.receiving c) (EchoClient.out c) = c.
Proof. intros ->. by destruct c. Qed.

(** A handler of the queue makes its work less, or does nothing. *)
Lemma client_queue_step recv c (m : (chars → endpoint) → M (wqueue chars) unit) (P : Prop) :
  cl_ok recv c →
  (∀ d, wp (m d) (λ _ w', works (EchoClient.q c) w' ∧ (P → (wq_work w' < cl_work c)%nat)) (EchoClient.q c)) →
  wp (EchoClient.on_write m) (λ _ c', cl_ok recv c' ∧ ((cl_work c' < cl_work c)%nat ∨ c' = c) ∧
    (P → (cl_work c' < cl_work c)%nat)) c.
Proof.
  intros [Hq Hr] Hm. unfold EchoClient.on_write. apply wp_get_bind, ClientProps.wp_on_cqueue.
  eapply wp_mono; [apply Hm|]. intros [] w' [[Hs Hw] HP]. split; [by split|]. split; [|done].
  destruct Hw as [?|Heq]; [by left|right]. by apply client_set_queue.
Qed.

Lemma client_receive recv c from bs : cl_ok recv c →
  wp (EchoClient.complete_receive from bs) (λ _ c', cl_ok recv c' ∧ (recv = false → c' = c)) c.
Proof.
  intros [Hq Hr]. unfold EchoClient.complete_receive. apply wp_get_bind. rewrite Hr. destruct recv.
  - apply wp_bind, wp_put. cbn [EchoClient.receive_handler]. apply wp_get_bind, wp_bind, wp_put, wp_modify.
    split; [by split|done].
  - apply wp_ret. split; [by split|done].
Qed.

Definition no_client_receive_error (e : client_event) : Prop :=
  match e with ClReceiveError _ => False | _ => True end.

(** The client that listens. *)
Lemma client_any_step c e : cl_ok true c → no_client_receive_error e →
  wp (app_step e) (λ _ c', cl_ok true c') c.
Proof.
  intros Hi He. pose proof Hi as [Hq Hr]. destruct e as [from bs|aborted| |ok]; [|done|..].
  - eapply wp_mono; [by apply client_receive|]. by intros [] c' [? _].
  - eapply wp_mono; [apply (client_queue_step true c run_posted _ Hi (λ d, run_posted_works d _ Hq))|].
    by intros [] c' [? _].
  - destruct ok; (eapply wp_mono; [apply (client_queue_step true c _ _ Hi
      (λ d, write_done_works id d _ _ Hq))|]); by intros [] c' [? _].
Qed.

(** The echo client of asio_async_udp/client.cpp never ends either: it listens for replies for
    ever, and its main joins without stopping the context. *)
Theorem echo_client_hangs ts :
  Forall (turn_allowed no_client_receive_error) ts →
  stat (prun true ts (pinit EchoClient.raw_client (client_program resolve))) = SRunning ∧
  JoinThread ∈ rest (prun true ts (pinit EchoClient.raw_client (client_program resolve))).
Proof.
  intros Hts. apply (pending_program_hangs true (λ c, c = EchoClient.raw_client) (cl_ok true)
    no_client_receive_error); try done.
  - by intros c [| | |[]] ->.
  - apply client_any_step.
  - intros c [_ Hr]. cbn. by rewrite Hr.
  - intros c ->. unfold EchoClient.UdpClient_ctor. rewrite Hres. apply wp_bind, wp_modify, wp_modify.
    by split; [intros []|].
  - rewrite !Forall_cons, Forall_nil. split_and!; try done;
      (intros c Hc; eapply wp_mono; [by apply (send_adds true)|]; by intros [] c' [? _]).
  - rewrite !elem_of_cons. auto 10.
Qed.

(** The handler to wait for: a posted message is pushed before a send completes. *)
Definition awaited (c : cl) : client_event :=
  if bool_decide (posted (EchoClient.q c) = []) then ClSent true else ClPosted.

Lemma send_only_step c e : cl_ok false c →
  wp (app_step e) (λ _ c', cl_ok false c' ∧ ((cl_work c' < cl_work c)%nat ∨ c' = c)) c.
Proof.
  intros Hi. pose proof Hi as [Hq Hr]. destruct e as [from bs|aborted| |ok].
  - eapply wp_mono; [by apply client_receive|]. intros [] c' [? Hc]. split; [done|right; by apply Hc].
  - cbn. unfold EchoClient.fail_receive. apply wp_get_bind. rewrite Hr. apply wp_ret. by auto.
  - eapply wp_mono; [apply (client_queue_step false c run_posted _ Hi (λ d, run_posted_works d _ Hq))|].
    by intros [] c' (? & ? & _).
  - destruct ok; (eapply wp_mono; [apply (client_queue_step false c _ _ Hi
      (λ d, write_done_works id d _ _ Hq))|]); by intros [] c' (? & ? & _).
Qed.

Lemma send_only_next c : cl_ok false c → (0 < cl_work c)%nat →
  wp (app_step (awaited c)) (λ _ c', (cl_work c' < cl_work c)%nat) c.
Proof.
  intros Hi Hw. pose proof Hi as [Hq Hr]. unfold awaited. case_bool_decide as Hp.
  - eapply wp_mono; [apply (client_queue_step false c _ _ Hi (λ d, write_done_works id d true _ Hq))|].
    intros [] c' (_ & _ & HP). apply HP. unfold cl_work, wq_work in Hw. rewrite Hp in Hw.
    destruct (writing _); [done|cbn in Hw; lia].
  - eapply wp_mono; [apply (client_queue_step false c run_posted _ Hi (λ d, run_posted_works d _ Hq))|].
    intros [] c' (_ & _ & HP). by apply HP.
Qed.

(** The client of asio_async_udp_client.cpp, which starts no receive, does end: once the guard
    is reset, run() returns when both messages have been sent (or one has failed), in every
    schedule in which the threads get their turns and the sends complete. *)
Theorem send_only_client_returns rounds :
  Forall (λ ts, (TMain ∈ ts ∧ TRet ∈ ts) ∧ TNet ClPosted ∈ ts ∧ TNet (ClSent true) ∈ ts) rounds →
  (33 < length rounds)%nat →
  stat (prun true (concat rounds) (pinit EchoClient.raw_client (send_only_program resolve))) = SReturned.
Proof.
  intros Hf Hlen. apply (draining_program_returns true (cl_ok false) cl_work awaited).
  - apply send_only_step.
  - apply send_only_next.
  - intros c [Hq Hr] Hw. cbn. rewrite Hr. by apply no_work.
  - by split; [intros []|].
  - unfold send_only_program. rewrite !Forall_cons, Forall_nil. split_and!; try done.
    + intros c [Hq Hr]. unfold send_only_ctor. rewrite Hres. apply wp_modify.
      split; [by split|]. unfold cl_work. cbn. lia.
    + intros c Hc. by apply send_adds.
    + intros c Hc. by apply send_adds.
  - done.
  - eapply Forall_impl; [exact Hf|]. intros ts (? & ? & ?). split; [done|].
    intros c. unfold awaited. by case_bool_decide.
  - cbn. lia.
Qed.
End clients.

(** ** Witnesses *)

Definition demo_round {Ev} (es : list (turn Ev)) : list (turn Ev) := es ++ [TMain; TRet].

(** A datagram arrives in every round; the tenth receive fails. *)
Lemma echo_server_program_returns_witness :
  stat (prun true (concat (replicate 16 (demo_round [TNet (Server.EvReceived (peer 1) (text "a"));
      TNet Server.EvPosted; TNet (Server.EvReceiveError false)])))
    (pinit Server.raw_server (server_program true))) = SReturned.
Proof.
  apply (echo_server_program_returns true).
  - apply Forall_replicate. split; apply list_elem_of_In; cbn; auto 10.
  - rewrite length_replicate. lia.
Defined.

Lemma echo_server_no_stop_hangs_witness :
  JoinThread ∈ rest (prun true (concat (replicate 20
      (demo_round [TNet (Server.EvReceived (peer 1) (text "a")); TNet Server.EvPosted; TNet Server.EvSent])))
    (pinit Server.raw_server (server_program_no_stop true))).
Proof.
  apply echo_server_no_stop_hangs. cbn. repeat (apply Forall_cons_2; [exact I|]). apply Forall_nil_2.
Defined.

Lemma echo_server_bind_fails_witness :
  stat (prun true [TMain; TMain; TMain] (pinit Server.raw_server (server_program false))) = STerminated.
Proof. apply (echo_server_bind_fails (server_program false) []). left. reflexivity. Defined.

Definition local_resolve (host port : string) : option (list endpoint) := Some [peer 8080].

Lemma echo_client_hangs_witness :
  JoinThread ∈ rest (prun true (concat (replicate 20
      (demo_round [TNet ClPosted; TNet (ClSent true); TNet (ClReceived (peer 8080) (text "Echo"))])))
    (pinit EchoClient.raw_client (client_program local_resolve))).
Proof.
  apply (echo_client_hangs local_resolve (peer 8080) [] eq_refl). cbn.
  repeat (apply Forall_cons_2; [exact I|]). apply Forall_nil_2.
Defined.

Lemma send_only_client_returns_witness :
  stat (prun true (concat (replicate 34 (demo_round [TNet ClPosted; TNet (ClSent true)])))
    (pinit EchoClient.raw_client (send_only_program local_resolve))) = SReturned.
Proof.
  apply (send_only_client_returns local_resolve (peer 8080) [] eq_refl).
  - apply Forall_replicate. split_and!; apply list_elem_of_In; cbn; auto 10.
  - rewrite length_replicate. lia.
Defined.
