(* ===== verification/EchoNet.v ===== *)
(** The echo server and any number of echo clients together, over UDP.  A datagram that has left may
    arrive late, out of order, several times or not at all: the network is the record of what has
    been sent, and any of it may be delivered at any time to the address it was sent to.

    It composes the two classes of [AsyncEcho] (src/spike/asio_async_udp/server.cpp and
    src/spike/asio_async_udp/client.cpp), handler by handler. *)

From S2P Require Import Prelude Format UdpServer AsyncEcho AsyncEchoProps.
Local Open Scope Z_scope.

(** A client, and what its program has passed to send(). *)
Record node := Node { cl : EchoClient.UdpClient; given : list chars }.

Record net := Net { server : Server.UdpServer; nodes : list node }.

Inductive net_event : Type :=
| AppSend (i : nat) (message : chars)           (* client i's program calls send() *)
| AtClient (i : nat) (e : client_local)         (* a handler of client i *)
| AtServer (e : server_local)                   (* a handler of the server *)
| ToServer (i k : nat)                          (* client i's k-th datagram arrives *)
| ToClient (i k : nat)                          (* the server's k-th datagram arrives at client i *)
with client_local : Type := CPosted | CSent (ok : bool) | CReceiveError (aborted : bool)
with server_local : Type := SPosted | SSent (ok : bool) | SReceiveError (aborted : bool).

Definition client_event_of (e : client_local) : EchoClient.event :=
  match e with
  | CPosted => EchoClient.EvPosted
  | CSent true => EchoClient.EvSent
  | CSent false => EchoClient.EvSendError
  | CReceiveError aborted => EchoClient.EvReceiveError aborted
  end.

Definition server_event_of (e : server_local) : Server.event :=
  match e with
  | SPosted => Server.EvPosted
  | SSent true => Server.EvSent
  | SSent false => Server.EvSendError
  | SReceiveError aborted => Server.EvReceiveError aborted
  end.

Section network.
Context (saddr : endpoint) (addr : nat → endpoint).   (* the addresses of the sockets *)

Definition on_server (m : M Server.UdpServer unit) : M net unit := λ s,
  match m (server s) with
  | Ok _ v => Ok tt (Net v (nodes s))
  | Throw e v => Throw e (Net v (nodes s))
  | UB u => UB u
  | OutOfFuel => OutOfFuel
  end.

(** [g] is added to what client [i] was given. *)
Definition on_client (i : nat) (g : list chars) (m : M EchoClient.UdpClient unit) : M net unit := λ s,
  match nodes s !! i with
  | None => Ok tt s
  | Some n =>
      let back c := Net (server s) (<[i:=Node c (given n ++ g)]> (nodes s)) in
      match m (cl n) with
      | Ok _ c => Ok tt (back c)
      | Throw e c => Throw e (back c)
      | UB u => UB u
      | OutOfFuel => OutOfFuel
      end
  end.

Definition net_step (e : net_event) : M net unit :=
  s ← get;
  match e with
  | AppSend i message => on_client i [message] (EchoClient.step (EchoClient.EvApp message))
  | AtClient i e => on_client i [] (EchoClient.step (client_event_of e))
  | AtServer e => on_server (Server.step (server_event_of e))
  | ToServer i k =>
      match n ← nodes s !! i; wire (EchoClient.q (cl n)) !! k with
      | Some (to, bs) =>
          if bool_decide (to = saddr) then on_server (Server.step (Server.EvReceived (addr i) bs))
          else mret tt
      | None => mret tt
      end
  | ToClient i k =>
      match wire (Server.q (server s)) !! k with
      | Some (to, bs) =>
          if bool_decide (to = addr i)
          then on_client i [] (EchoClient.step (EchoClient.EvReceived saddr bs))
          else mret tt
      | None => mret tt
      end
  end.

Fixpoint net_run (es : list net_event) : M net unit :=
  match es with
  | [] => mret tt
  | e :: es' => net_step e;; net_run es'
  end.
End network.

(** ** The queue, whether or not sends fail *)

Section queue.
Context {Item : Type} (data : Item → chars) (dest : Item → endpoint) (P : endpoint * chars → Prop).
Implicit Types w : wqueue Item.

(** Everything in the queue, waiting and sent, satisfies [P]; a pending send is that of the front. *)
Record wq_all w : Prop := {
  wa_items : Forall (λ i, P (dest i, data i)) (queue w ++ posted w);
  wa_wire : Forall P (wire w);
  wa_writing : ∀ d, writing w = Some d → ∃ i l, queue w = i :: l ∧ dest i = d
}.

Lemma post_all i w : wq_all w → P (dest i, data i) → wp (post i) (λ _ w', wq_all w') w.
Proof.
  intros [Hi Hw Hd] HP. apply wp_modify. split; [|done|done]. cbn.
  rewrite app_assoc. apply Forall_app. split; [done|by apply Forall_singleton].
Qed.

Lemma run_posted_all w : wq_all w → wp (run_posted dest) (λ _ w', wq_all w') w.
Proof.
  intros [Hi Hw Hd]. unfold run_posted. apply wp_get_bind. destruct (posted w) as [|i l] eqn:Hp.
  { apply wp_ret. split; [by rewrite Hp|done|done]. }
  apply wp_bind, wp_put, wp_get_bind. cbn [set_posted queue]. apply wp_bind, wp_put.
  assert (Forall (λ i, P (dest i, data i)) ((queue w ++ [i]) ++ l)) as Hi' by (by rewrite <- app_assoc).
  case_bool_decide as Hq; cbn [negb].
  - unfold start_write, front. apply wp_bind, wp_get_bind. cbn [set_queue set_posted queue].
    rewrite Hq. cbn [app]. apply wp_ret, wp_modify. split; cbn; [by rewrite Hq in *|done|].
    intros d [= <-]. eauto.
  - apply wp_ret. split; cbn; [done|done|]. intros d Hwr. destruct (Hd d Hwr) as (j & k & -> & <-). cbn. eauto.
Qed.

Lemma write_done_all ok w : wq_all w → wp (write_done data dest ok) (λ _ w', wq_all w') w.
Proof.
  intros Hall. pose proof Hall as [Hi Hw Hd]. unfold write_done. apply wp_get_bind.
  destruct (writing w) as [d|] eqn:Hwr; [|by apply wp_ret].
  destruct (Hd d eq_refl) as (i & l & Hq & <-). destruct ok; [|by apply wp_put].
  unfold front, pop. apply wp_bind, wp_get_bind. rewrite Hq. apply wp_ret, wp_bind, wp_put.
  apply wp_bind, wp_get_bind. cbn [queue]. apply wp_put, wp_get_bind. cbn [set_queue queue].
  rewrite Hq in Hi. apply Forall_cons in Hi as [HP Hi].
  assert (Forall P (wire w ++ [(dest i, data i)])) as Hw'
    by (apply Forall_app; split; [done|by apply Forall_singleton]).
  case_bool_decide as Hl; cbn [negb].
  - apply wp_ret. by split.
  - unfold start_write, front. apply wp_bind, wp_get_bind. cbn [set_queue queue].
    destruct l as [|j l]; [done|]. apply wp_ret, wp_modify. split; cbn; [done|done|].
    intros d [= <-]. eauto.
Qed.
End queue.

(** ** The invariant *)

Section proof.
Context (saddr : endpoint) (addr : nat → endpoint) (addr_inj : ∀ i j, addr i = addr j → i = j).

(** What the server makes of a message, and what a client makes of the answer. *)
Definition answer (m : chars) : chars := text "Echo: " ++ take 1024 m.
Definition report (m : chars) : chars :=
  text "[Client Received from " ++ show_endpoint saddr ++ text "]: " ++ take 1024 (answer m).

Definition to_server (n : node) (d : endpoint * chars) : Prop := d.1 = saddr ∧ d.2 ∈ given n.

Definition answers_one (ns : list node) (d : endpoint * chars) : Prop :=
  ∃ i n m, ns !! i = Some n ∧ m ∈ given n ∧ d = (addr i, answer m).

Record node_ok (n : node) : Prop := {
  no_remote : EchoClient.remote_endpoint_ (cl n) = saddr;
  no_buffer : length (EchoClient.recv_buffer_ (cl n)) = 1024%nat;
  no_queue : wq_all id (λ _, saddr) (to_server n) (EchoClient.q (cl n));
  no_out : ∀ line, line ∈ EchoClient.out (cl n) → line = [] ∨ ∃ m, m ∈ given n ∧ line = report m
}.

Record net_ok (s : net) : Prop := {
  nk_nodes : Forall node_ok (nodes s);
  nk_queue : wq_all Server.data Server.client (answers_one (nodes s)) (Server.q (server s));
  nk_buffer : length (Server.recv_buffer_ (server s)) = 1024%nat
}.

Lemma wq_all_impl {Item} data dest (P Q : endpoint * chars → Prop) (w : wqueue Item) :
  (∀ d, P d → Q d) → wq_all data dest P w → wq_all data dest Q w.
Proof. intros HPQ [Hi Hw Hd]. split; [|by eapply Forall_impl|done]. eapply Forall_impl; [exact Hi|]. eauto. Qed.

Lemma wp_on_server m Q s :
  wp m (λ _ v, Q tt (Net v (nodes s))) (server s) → wp (on_server m) Q s.
Proof. unfold wp, on_server. by destruct (m (server s)). Qed.

Lemma wp_on_client i g m n Q s :
  nodes s !! i = Some n →
  wp m (λ _ c, Q tt (Net (server s) (<[i:=Node c (given n ++ g)]> (nodes s)))) (cl n) →
  wp (on_client i g m) Q s.
Proof. intros Hi. unfold wp, on_client. rewrite Hi. by destruct (m (cl n)). Qed.

(** Whatever the server has to answer stays so when the clients are given more. *)
Lemma answers_one_grows i n c g ns d :
  ns !! i = Some n → answers_one ns d → answers_one (<[i:=Node c (given n ++ g)]> ns) d.
Proof.
  intros Hi (j & n' & m & Hj & Hm & ->). destruct (decide (i = j)) as [<-|Hne].
  - simplify_eq. exists i, (Node c (given n ++ g)), m.
    rewrite list_lookup_insert_eq by (by eapply lookup_lt_Some).
    split_and!; [done| |done]. cbn. apply elem_of_app. by left.
  - exists j, n', m. by rewrite list_lookup_insert_ne.
Qed.

Lemma client_moves s i n c g :
  net_ok s → nodes s !! i = Some n → node_ok (Node c (given n ++ g)) →
  net_ok (Net (server s) (<[i:=Node c (given n ++ g)]> (nodes s))).
Proof.
  intros [Hn Hq Hb] Hi Hok. split; cbn; [by apply Forall_insert| |done].
  eapply wq_all_impl; [|exact Hq]. intros d. by apply answers_one_grows.
Qed.

(** *** The client's handlers *)

Lemma client_queue_moves n m :
  node_ok n →
  wp m (λ _ w, wq_all id (λ _, saddr) (to_server n) w) (EchoClient.q (cl n)) →
  wp (EchoClient.on_queue m) (λ _ c, node_ok (Node c (given n ++ []))) (cl n).
Proof.
  intros [Hr Hb Hq Ho] Hm. apply ClientProps.wp_on_cqueue. eapply wp_mono; [exact Hm|].
  intros [] w Hw. rewrite app_nil_r. by split.
Qed.

Lemma client_app n message :
  node_ok n →
  wp (EchoClient.step (EchoClient.EvApp message)) (λ _ c, node_ok (Node c (given n ++ [message]))) (cl n).
Proof.
  intros [Hr Hb Hq Ho]. apply ClientProps.wp_on_cqueue.
  assert (∀ d, to_server n d → to_server (Node (cl n) (given n ++ [message])) d) as Hmono.
  { intros d [? ?]. split; [done|]. cbn. apply elem_of_app. by left. }
  eapply wp_mono; [apply (post_all id (λ _, saddr) (to_server (Node (cl n) (given n ++ [message]))))|].
  - by eapply wq_all_impl.
  - split; [done|]. cbn. apply elem_of_app. right. by apply list_elem_of_singleton.
  - intros [] w Hw. split; cbn; [done|done|done|]. intros line [?|(m & ? & ?)]%Ho; [by left|].
    right. exists m. split; [|done]. apply elem_of_app. by left.
Qed.

Lemma client_local_ok n e :
  node_ok n → wp (EchoClient.step (client_event_of e)) (λ _ c, node_ok (Node c (given n ++ []))) (cl n).
Proof.
  intros Hn. pose proof Hn as [Hr Hb Hq Ho].
  assert (node_ok (Node (cl n) (given n ++ []))) as Hn' by (rewrite app_nil_r; by destruct n).
  destruct e as [|ok|aborted]; [| |].
  - cbn. unfold EchoClient.on_write. apply wp_get_bind. rewrite Hr.
    apply client_queue_moves; [done|]. by apply run_posted_all.
  - destruct ok; cbn; unfold EchoClient.on_write; apply wp_get_bind; rewrite Hr;
      (apply client_queue_moves; [done|]); by apply write_done_all.
  - cbn. unfold EchoClient.fail_receive. apply wp_get_bind. destruct (EchoClient.receiving (cl n)).
    + apply wp_bind, wp_put. cbn [EchoClient.receive_handler].
      destruct aborted; cbn [negb]; [apply wp_ret; by split; destruct Hn'|].
      apply ClientProps.wp_on_cqueue, wp_modify. rewrite app_nil_r.
      split; cbn; [done|done| |done]. by destruct Hq.
    + by apply wp_ret.
Qed.

Lemma client_receives n m :
  node_ok n → m ∈ given n →
  wp (EchoClient.step (EchoClient.EvReceived saddr (answer m)))
     (λ _ c, node_ok (Node c (given n ++ []))) (cl n).
Proof.
  intros Hn Hm. pose proof Hn as [Hr Hb Hq Ho]. rewrite app_nil_r. cbn [EchoClient.step].
  unfold EchoClient.complete_receive. apply wp_get_bind.
  destruct (EchoClient.receiving (cl n)); [|apply wp_ret; by destruct n].
  cbn zeta. rewrite Hb. set (got := take 1024 (answer m)).
  apply wp_bind, wp_put. cbn [EchoClient.receive_handler].
  apply wp_get_bind, wp_bind, wp_put, wp_modify. split; cbn; [done| |done|].
  - rewrite length_app, length_drop, Hb. unfold got. rewrite length_take. lia.
  - intros line [Hl|Hl]%elem_of_app; [by apply Ho|].
    apply elem_of_cons in Hl as [->|Hl]; [by left|].
    apply list_elem_of_singleton in Hl as ->. right. exists m. split; [done|].
    unfold report. fold got. by rewrite take_app_length.
Qed.

(** *** The server's handlers *)

Lemma server_local_ok s e :
  net_ok s → wp (on_server (Server.step (server_event_of e))) (λ _ s', net_ok s') s.
Proof.
  intros [Hn Hq Hb]. apply wp_on_server. destruct e as [|ok|aborted].
  - apply ServerProps.wp_on_queue. eapply wp_mono; [by apply (run_posted_all Server.data)|].
    intros [] w Hw. by split.
  - destruct ok; apply ServerProps.wp_on_queue;
      (eapply wp_mono; [by apply write_done_all|]); intros [] w Hw; by split.
  - cbn. unfold Server.fail_receive. apply wp_get_bind. destruct (Server.receiving (server s)).
    + apply wp_bind, wp_put. cbn [Server.receive_handler].
      destruct aborted; cbn [negb]; [by apply wp_ret; split|].
      apply ServerProps.wp_on_queue, wp_modify. split; cbn; [done| |done]. by destruct Hq.
    + apply wp_ret. by split.
Qed.

Lemma server_receives s i n m :
  net_ok s → nodes s !! i = Some n → m ∈ given n →
  wp (on_server (Server.step (Server.EvReceived (addr i) m))) (λ _ s', net_ok s') s.
Proof.
  intros [Hn Hq Hb] Hi Hm. apply wp_on_server. cbn [Server.step].
  unfold Server.complete_receive. apply wp_get_bind.
  destruct (Server.receiving (server s)); [|by apply wp_ret; split].
  cbn zeta. rewrite Hb. set (got := take 1024 m).
  apply wp_bind, wp_put. cbn [Server.receive_handler]. apply wp_get_bind.
  cbn [Server.recv_buffer_ Server.remote_endpoint_ Server.q]. rewrite take_app_length.
  apply wp_bind, wp_modify. apply wp_bind, ServerProps.wp_on_queue. cbn [Server.q].
  eapply wp_mono; [apply (post_all Server.data Server.client (answers_one (nodes s)))|]; [done| |].
  - by exists i, n, m.
  - intros [] w Hw. apply wp_modify. split; cbn; [done|done|].
    rewrite length_app, length_drop, Hb. unfold got. rewrite length_take. lia.
Qed.

Lemma net_step_ok s e : net_ok s → wp (net_step saddr addr e) (λ _ s', net_ok s') s.
Proof.
  intros Hs. pose proof Hs as [Hn Hq Hb]. unfold net_step. apply wp_get_bind.
  assert (∀ i g m, (∀ n, nodes s !! i = Some n → node_ok n →
    wp m (λ _ c, node_ok (Node c (given n ++ g))) (cl n)) → wp (on_client i g m) (λ _ s', net_ok s') s) as Hcl.
  { intros i g m Hm. destruct (nodes s !! i) as [n|] eqn:Hi.
    - eapply wp_on_client; [done|]. eapply wp_mono; [apply (Hm n eq_refl); by eapply Forall_lookup_1|].
      intros [] c Hc. by apply client_moves.
    - unfold wp, on_client. by rewrite Hi. }
  destruct e as [i message|i e|e|i k|i k].
  - apply Hcl. intros n _. apply client_app.
  - apply Hcl. intros n _. apply client_local_ok.
  - by apply server_local_ok.
  - destruct (nodes s !! i ≫= _) as [[to bs]|] eqn:Hk; [|by apply wp_ret].
    apply bind_Some in Hk as (n & Hi & Hk). case_bool_decide; [|by apply wp_ret]. eapply server_receives; [done|done|].
    destruct (Forall_lookup_1 _ _ _ _ Hn Hi) as [_ _ [_ Hw _] _].
    by destruct (Forall_lookup_1 _ _ _ _ Hw Hk).
  - destruct (wire (Server.q (server s)) !! k) as [[to bs]|] eqn:Hk; [|by apply wp_ret].
    case_bool_decide as Hto; [|by apply wp_ret]. apply Hcl. intros n Hi Hok.
    destruct Hq as [_ Hw _]. destruct (Forall_lookup_1 _ _ _ _ Hw Hk) as (j & n' & m & Hj & Hm & [= -> ->]).
    apply addr_inj in Hto as ->. simplify_eq. by apply client_receives.
Qed.

Lemma net_run_ok es : ∀ s, net_ok s → wp (net_run saddr addr es) (λ _ s', net_ok s') s.
Proof.
  induction es as [|e es IH]; intros s Hs; cbn [net_run]; [by apply wp_ret|].
  apply wp_bind. apply (wp_mono _ (λ _ s', net_ok s')); [by apply net_step_ok|]. intros [] s'. apply IH.
Qed.
End proof.

(** ** The property *)

(** The constructed programs: the server listens, and each client has resolved its address. *)
Definition net_start (saddr : endpoint) (n : nat) : option net :=
  let resolve (_ _ : string) := Some [saddr] in
  match Server.UdpServer_ctor 8080 Server.raw_server,
        EchoClient.UdpClient_ctor resolve "127.0.0.1" "8080" EchoClient.raw_client with
  | Ok _ v, Ok _ c => Some (Net v (replicate n (Node c [])))
  | _, _ => None
  end.

(** C34: an echo server and any number of clients on a network that may lose, delay, reorder and
    duplicate datagrams, whatever sends and receives fail and in whatever order the handlers run:
    no handler has undefined behaviour, every client still sends to the server only, and all that
    a client prints as received is the echo of a message that its own program passed to send(),
    cut to the sizes of the two buffers; never another client's, and never anything else. *)
Theorem echo_network_sound saddr addr n es :
  (∀ i j, addr i = addr j → i = j) →
  ∃ s0 s, net_start saddr n = Some s0 ∧ net_run saddr addr es s0 = Ok tt s ∧
    ∀ i nd, nodes s !! i = Some nd →
      Forall (λ d, d.1 = saddr) (wire (EchoClient.q (cl nd))) ∧
      ∀ line, line ∈ EchoClient.out (cl nd) → line = [] ∨ ∃ m, m ∈ given nd ∧ line = report saddr m.
Proof.
  intros Hinj. assert (∃ s0, net_start saddr n = Some s0 ∧ net_ok saddr addr s0) as (s0 & H0 & Hok).
  { eexists. split; [reflexivity|]. split; cbn; [|by split|done].
    apply Forall_replicate. split; cbn; [done|done|by split|]. by intros line ?%not_elem_of_nil. }
  destruct (proj1 (wp_run _ _ _) (net_run_ok saddr addr Hinj es _ Hok)) as ([] & s & Hrun & [Hn _ _]).
  exists s0, s. split; [exact H0|]. split; [exact Hrun|]. intros i nd Hi.
  destruct (Forall_lookup_1 _ _ _ _ Hn Hi) as [_ _ [_ Hw _] Ho]. split; [|done].
  eapply Forall_impl; [exact Hw|]. by intros d [? _].
Qed.

(** ** Witness *)

(** Two clients; the first one's message is echoed back twice, the second one's is lost. *)
Definition net_demo : list net_event :=
  [AppSend 0 (text "hi"); AppSend 1 (text "ho"); AtClient 0 CPosted; AtClient 1 CPosted;
   AtClient 0 (CSent true); AtClient 1 (CSent false); ToServer 0 0; ToServer 1 0; AtServer SPosted;
   AtServer (SSent true); ToClient 1 0; ToClient 0 0; ToClient 0 0].

Definition net_addr (i : nat) : endpoint := (2130706433, 9000 + Z.of_nat i).

Lemma echo_network_sound_witness :
  ∃ s0 s, net_start (2130706433, 8080) 2 = Some s0 ∧
    net_run (2130706433, 8080) net_addr net_demo s0 = Ok tt s ∧
    ((λ nd, EchoClient.out (cl nd)) <$> nodes s) =
      [[[]; report (2130706433, 8080) (text "hi"); []; report (2130706433, 8080) (text "hi")]; []].
Proof.
  destruct (echo_network_sound (2130706433, 8080) net_addr 2 net_demo) as (s0 & s & H0 & Hrun & _).
  { intros i j [= Heq]. lia. }
  exists s0, s. split; [exact H0|]. split; [exact Hrun|].
  vm_compute in H0. injection H0 as <-. vm_compute in Hrun. injection Hrun as <-. vm_compute. reflexivity.
Defined.
