(* ===== verification/Daytime.v ===== *)
(** The synchronous daytime programs (src/spike/asio_udp_server.cpp, src/spike/asio_udp_client.cpp):
    the server answers every datagram with the time, the client asks once and prints the answer.

    asio's part: receive_from blocks until a datagram arrives, of which it stores at most the size
    of the buffer, or fails; send_to and opening a socket may fail.  std::time is the clock at the
    call, and std::ctime a parameter: it gives a null pointer for a time it cannot represent. *)

From S2P Require Import Prelude Format UdpServer AsyncEcho.
Local Open Scope Z_scope.

Definition recv_size : nat := 512.         (* std::array<char, 512> recv_buf *)

Record console := Console {
  packets : list (endpoint * chars);       (* the datagrams that have left *)
  cout : list chars;
  cerr : list chars
}.

Definition say (l : chars) : M console unit := modify (λ c, Console (packets c) (cout c ++ [l]) (cerr c)).
Definition complain (l : chars) : M console unit := modify (λ c, Console (packets c) (cout c) (cerr c ++ [l])).
Definition transmit (to : endpoint) (d : chars) : M console unit :=
  modify (λ c, Console (packets c ++ [(to, d)]) (cout c) (cerr c)).

(** catch (std::exception &e) of both mains, which then return 0; [what] is the text of an
    exception.  The result is main's, or none while the program waits in a call. *)
Definition catching (what : exn → chars) (m : M console (option Z)) : M console (option Z) := λ c,
  match m c with
  | Throw e c' => (complain (text "Exception: " ++ what e);; mret (Some 0)) c'
  | o => o
  end.

(** ** The server *)

Module DaytimeServer.
(** What a call of receive_from returns. *)
Inductive received : Type :=
| Datagram (from : endpoint) (bs : chars)
| MessageSize (from : endpoint) (bs : chars)  (* error::message_size: it did not fit *)
| Failed (why : string).

Section server.
Context (ctime : Z → option chars) (what : exn → chars).

Definition make_daytime_string (now : Z) : M console chars :=
  match ctime now with
  | Some s => mret s
  | None => undefined ub_null_deref           (* std::string from a null pointer *)
  end.

(** One pass of for (;;), with the result of the receive, the time at the call of std::time and
    whether the send goes through (its error is ignored). *)
Definition serve_one (r : received) (now : Z) (send_ok : bool) : M console unit :=
  match r with
  | Failed why => throw (system_error why)
  | Datagram remote_endpoint _ | MessageSize remote_endpoint _ =>
      message ← make_daytime_string now;
      (if send_ok then transmit remote_endpoint message else mret tt);;
      say (text "Sent message to " ++ show_endpoint remote_endpoint)
  end.

(** The loop, as far as the results of the receives go; then it waits. *)
Fixpoint serve (rs : list (received * Z * bool)) : M console unit :=
  match rs with
  | [] => mret tt
  | (r, now, send_ok) :: rs' => serve_one r now send_ok;; serve rs'
  end.

(** main; its loop is only left by an exception. *)
Definition main (bind_ok : bool) (rs : list (received * Z * bool)) : M console (option Z) :=
  catching what (
    (if bind_ok then mret tt else throw (system_error "bind"));;
    say (text "UDP Server listening on port 13...");;
    serve rs;;
    mret None).
End server.
End DaytimeServer.

(** ** The client *)

Module DaytimeClient.
Section client.
Context (resolve : string → string → option (list endpoint)) (what : exn → chars).

(** [argv]: the arguments with the program's name; [reply]: what receive_from gets. *)
Definition main (argv : list string) (open_ok send_ok : bool) (reply : option (endpoint * chars)) :
    M console (option Z) :=
  catching what (
    match argv with
    | [_; host] =>
        receiver_endpoint ← match resolve host "13" with
                            | Some (e :: _) => mret e
                            | Some [] => undefined ub_null_deref
                            | None => throw (system_error "resolve")
                            end;
        (if open_ok then mret tt else throw (system_error "open"));;
        (if send_ok then transmit receiver_endpoint (text "Hello Server!") else throw (system_error "send_to"));;
        match reply with
        | None => throw (system_error "receive_from")
        | Some (_, d) => say (text "Received from server: " ++ take recv_size d);; mret (Some 0)
        end
    | _ => complain (text "Usage: client <host>");; mret (Some 1)
    end).
End client.
End DaytimeClient.

(** ** Lemmas *)

Section lemmas.
Import DaytimeServer.
Context (ctime : Z → option chars) (what : exn → chars).

Definition sender (r : received) : option endpoint :=
  match r with Datagram from _ | MessageSize from _ => Some from | Failed _ => None end.

(** The answers to the receives before the first failure. *)
Fixpoint answers (rs : list (received * Z * bool)) : list (endpoint * chars) :=
  match rs with
  | [] => []
  | (r, now, ok) :: rs' =>
      match sender r with
      | Some from => (if ok then [(from, default [] (ctime now))] else []) ++ answers rs'
      | None => []
      end
  end.

Fixpoint first_failure (rs : list (received * Z * bool)) : option string :=
  match rs with
  | [] => None
  | (Failed why, _, _) :: _ => Some why
  | _ :: rs' => first_failure rs'
  end.

(** The clock shows times that ctime can write. *)
Definition clock_ok (rs : list (received * Z * bool)) : Prop :=
  Forall (λ r : received * Z * bool, is_Some (ctime r.1.2)) rs.

Lemma serve_one_ok r from now ok c s :
  sender r = Some from → ctime now = Some s →
  serve_one ctime r now ok c =
    Ok tt (Console (packets c ++ (if ok then [(from, s)] else []))
             (cout c ++ [text "Sent message to " ++ show_endpoint from]) (cerr c)).
Proof.
  intros Hr Hs. destruct r; cbn in Hr; simplify_eq; unfold serve_one, make_daytime_string;
    rewrite bind_run, Hs, ret_run, bind_run; destruct ok; cbn; by rewrite ?app_nil_r.
Qed.

Lemma serve_run rs : ∀ c, clock_ok rs →
  ∃ c', packets c' = packets c ++ answers rs ∧ cerr c' = cerr c ∧
    serve ctime rs c = match first_failure rs with
                 | None => Ok tt c'
                 | Some why => Throw (system_error why) c'
                 end.
Proof.
  induction rs as [|[[r now] ok] rs IH]; intros c Hclock.
  { exists c. cbn. by rewrite app_nil_r. }
  apply Forall_cons in Hclock as [[s Hs] Hclock]. cbn in Hs. cbn [serve answers].
  destruct (sender r) as [from|] eqn:Hr.
  - rewrite bind_run, (serve_one_ok r from now ok c s Hr Hs), Hs.
    match goal with |- context [serve ctime rs ?c1] =>
      destruct (IH c1 Hclock) as (c' & Hp & He & Hrun) end. exists c'. rewrite Hp, He, Hrun.
    cbn [packets cerr default from_option]. rewrite <- app_assoc. split_and!; [done|done|].
    by destruct r.
  - destruct r as [| |why]; try done. exists c. rewrite app_nil_r. split_and!; done.
Qed.
End lemmas.

(** ** Properties *)

Section props.
Import DaytimeServer.
Context (ctime : Z → option chars) (what : exn → chars).

(** C38: the daytime server answers every datagram it receives, even one that did not fit its
    buffer, once, in order, to its sender, with the time at that moment; errors of the sends are
    passed over; and the first receive that fails ends it: main prints the error and returns 0
    (until then it runs), as it does when the port cannot be bound. *)
Theorem daytime_server_answers rs :
  clock_ok ctime rs →
  (∃ c, packets c = answers ctime rs ∧
     match first_failure rs with
     | Some why => main ctime what true rs (Console [] [] []) = Ok (Some 0) c ∧
                   cerr c = [text "Exception: " ++ what (system_error why)]
     | None => main ctime what true rs (Console [] [] []) = Ok None c ∧ cerr c = []
     end) ∧
  main ctime what false rs (Console [] [] []) =
    Ok (Some 0) (Console [] [] [text "Exception: " ++ what (system_error "bind")]).
Proof.
  intros Hclock. split; [|done].
  destruct (serve_run ctime rs (Console [] [text "UDP Server listening on port 13..."] []) Hclock)
    as (c' & Hp & He & Hrun).
  unfold main, catching. rewrite bind_run, ret_run, bind_run. cbn [say modify packets cout cerr app].
  rewrite bind_run, Hrun. destruct (first_failure rs) as [why|].
  - eexists. split; [|split; [reflexivity|]]; cbn; [exact Hp|by rewrite He].
  - exists c'. by split_and!.
Qed.

(** The two daytime programs together: what the client prints is the string the server made
    when the client's datagram arrived, whole, provided it fits the client's 512 bytes, and
    the client returns 0. *)
Theorem daytime_exchange resolve prog host server me now s :
  resolve host "13" = Some [server] → ctime now = Some s → (length s ≤ recv_size)%nat →
  ∃ c c', main ctime what true [(Datagram me (text "Hello Server!"), now, true)] (Console [] [] []) = Ok None c ∧
    packets c = [(me, s)] ∧
    DaytimeClient.main resolve what [prog; host] true true (Some (server, s)) (Console [] [] []) = Ok (Some 0) c' ∧
    packets c' = [(server, text "Hello Server!")] ∧
    cout c' = [text "Received from server: " ++ s] ∧ cerr c' = [].
Proof.
  intros Hres Hs Hlen.
  destruct (serve_run ctime [(Datagram me (text "Hello Server!"), now, true)]
    (Console [] [text "UDP Server listening on port 13..."] [])) as (c & Hp & _ & Hrun).
  { constructor; [by exists s|constructor]. }
  cbn [answers sender first_failure] in Hp, Hrun. rewrite Hs in Hp.
  exists c, (Console [(server, text "Hello Server!")] [text "Received from server: " ++ s] []).
  split_and!; [|exact Hp| |done|done|done].
  - unfold main, catching. rewrite bind_run, ret_run, bind_run. cbn [say modify packets cout cerr app].
    by rewrite bind_run, Hrun.
  - unfold DaytimeClient.main, catching. rewrite Hres. rewrite bind_run, ret_run, bind_run, ret_run, bind_run.
    cbn [transmit modify packets cout cerr app]. rewrite take_ge by done. done.
Qed.
End props.

(** ** Witnesses *)

Definition demo_ctime (t : Z) : option chars :=
  if in_s 32 t then Some (show_int false t ++ [Ascii.ascii_of_nat 10]) else None.
Definition demo_what (e : exn) : chars := text "error".
Definition demo_peer (port : Z) : endpoint := (2130706433, port).

Lemma daytime_server_answers_witness :
  ∃ c, DaytimeServer.main demo_ctime demo_what true
      [(DaytimeServer.Datagram (demo_peer 5) [], 7, true);
       (DaytimeServer.MessageSize (demo_peer 6) (replicate 600 Ascii.zero), 8, true);
       (DaytimeServer.Failed "closed", 9, true)] (Console [] [] []) = Ok (Some 0) c ∧
    length (packets c) = 2%nat.
Proof.
  destruct (proj1 (daytime_server_answers demo_ctime demo_what
      [(DaytimeServer.Datagram (demo_peer 5) [], 7, true);
       (DaytimeServer.MessageSize (demo_peer 6) (replicate 600 Ascii.zero), 8, true);
       (DaytimeServer.Failed "closed", 9, true)]
      ltac:(repeat constructor; eexists; reflexivity))) as (c & Hp & [Hrun _]).
  exists c. split; [exact Hrun|]. rewrite Hp. reflexivity.
Defined.

Lemma daytime_exchange_witness :
  ∃ c', DaytimeClient.main (λ _ _, Some [demo_peer 13]) demo_what ["client"; "localhost"]%string true true
      (Some (demo_peer 13, default [] (demo_ctime 42))) (Console [] [] []) = Ok (Some 0) c' ∧
    cout c' = [text "Received from server: " ++ default [] (demo_ctime 42)].
Proof.
  destruct (daytime_exchange demo_ctime demo_what (λ _ _, Some [demo_peer 13]) "client" "localhost"
      (demo_peer 13) (demo_peer 5) 42 (default [] (demo_ctime 42)) eq_refl eq_refl
      ltac:(apply (bool_decide_unpack _); vm_compute; exact I)) as (c & c' & _ & _ & Hrun & _ & Hout & _).
  exists c'. split; [exact Hrun|exact Hout].
Defined.
