(* ===== verification/SharedMemory.v ===== *)
(** The shared memory handoff (src/spike/ipc_shared_memory.hpp, ipc_shared_memory_server.cpp,
    ipc_shared_memory_client.cpp): two processes, a shared object and a named semaphore, as a
    step relation.  Every system call and every access to the shared object is one step; each
    process takes its steps in order, and the two interleave in every possible way.

    What POSIX promises is in the steps: sem_open with O_CREAT leaves an existing semaphore as it
    is, ftruncate to the size the object has leaves its contents, an object or semaphore that is
    open stays usable after its name is gone, and an access to an object of size 0 is a fault.
    Objects may be left over from an earlier run. *)

From S2P Require Import Prelude UdpServer.
Local Open Scope Z_scope.

Definition BUFFER_SIZE : Z := 256.

(** struct SharedData *)
Record SharedData := Shared { status : Z; message : list Z }.

Definition zero_data : SharedData := Shared 0 (replicate (Z.to_nat BUFFER_SIZE) 0).

(** The text the server writes, as bytes. *)
Definition hello : list Z :=
  (λ c, Z.of_N (Ascii.N_of_ascii c)) <$> text "Hello from server!".

(** Byte [i] that strncpy(message, hello, BUFFER_SIZE) stores: the text, then zeros. *)
Definition strncpy_byte (i : nat) : Z := default 0 (hello !! i).

Inductive server_pc : Type :=
| SShmOpen | SFtruncate | SMmap | SSemOpen | SStatus | SCopy (i : nat) | SSemPost | SSleep
| SMunmap | SShmUnlink | SSemUnlink | SReturn (code : Z).

Inductive client_pc : Type :=
| CShmOpen | CMmap | CSemOpen | CSemWait | CStatus | CMessage (i : nat)
| CReturn (code : Z) | CFault.

Record sys := Sys {
  shm_linked : bool;                 (* the name SHM_NAME exists *)
  shm : option SharedData;           (* the object; None while its size is 0 *)
  sem_linked : bool;                 (* the name SEM_NAME exists *)
  sem : nat;                         (* the value of the semaphore *)
  spc : server_pc;
  cpc : client_pc;
  read_status : Z;                   (* what the client has printed *)
  read_message : list Z;
  wait_failed : bool                 (* the client's sem_wait was interrupted *)
}.

Definition set_spc (s : sys) pc := Sys (shm_linked s) (shm s) (sem_linked s) (sem s) pc (cpc s)
  (read_status s) (read_message s) (wait_failed s).
Definition set_cpc (s : sys) pc := Sys (shm_linked s) (shm s) (sem_linked s) (sem s) (spc s) pc
  (read_status s) (read_message s) (wait_failed s).
Definition set_shm (s : sys) b m := Sys b m (sem_linked s) (sem s) (spc s) (cpc s)
  (read_status s) (read_message s) (wait_failed s).
Definition set_sem (s : sys) b n := Sys (shm_linked s) (shm s) b n (spc s) (cpc s)
  (read_status s) (read_message s) (wait_failed s).
Definition set_read (s : sys) st m := Sys (shm_linked s) (shm s) (sem_linked s) (sem s) (spc s)
  (cpc s) st m (wait_failed s).
Definition set_failed (s : sys) := Sys (shm_linked s) (shm s) (sem_linked s) (sem s) (spc s) (cpc s)
  (read_status s) (read_message s) true.

(** One step of the server; [ok] is whether a system call succeeds.  [None]: it has returned. *)
Definition server_step (ok : bool) (s : sys) : option sys :=
  match spc s with
  | SShmOpen => Some (if ok then set_spc (set_shm s true (if shm_linked s then shm s else None)) SFtruncate
                      else set_spc s (SReturn 1))
  | SFtruncate => (* its result is not looked at *)
      Some (set_spc (set_shm s (shm_linked s)
                       (if ok then Some (default zero_data (shm s)) else shm s)) SMmap)
  | SMmap => Some (set_spc s (if ok then SSemOpen else SReturn 1))
  | SSemOpen => Some (if ok then set_spc (set_sem s true (if sem_linked s then sem s else 0%nat)) SStatus
                      else set_spc s (SReturn 1))
  | SStatus =>
      match shm s with
      | None => Some (set_spc s (SReturn 135))            (* SIGBUS *)
      | Some d => Some (set_spc (set_shm s (shm_linked s) (Some (Shared 1 (message d)))) (SCopy 0))
      end
  | SCopy i =>
      match shm s with
      | None => Some (set_spc s (SReturn 135))
      | Some d =>
          if (i <? Z.to_nat BUFFER_SIZE)%nat
          then Some (set_spc (set_shm s (shm_linked s)
                       (Some (Shared (status d) (<[i:=strncpy_byte i]> (message d))))) (SCopy (S i)))
          else Some (set_spc s SSemPost)
      end
  | SSemPost => (* its result is not looked at *)
      Some (set_spc (if ok then set_sem s (sem_linked s) (S (sem s)) else s) SSleep)
  | SSleep => Some (set_spc s SMunmap)
  | SMunmap => Some (set_spc s SShmUnlink)
  | SShmUnlink => Some (set_spc (set_shm s false (shm s)) SSemUnlink)
  | SSemUnlink => Some (set_spc (set_sem s false (sem s)) (SReturn 0))
  | SReturn _ => None
  end.

(** One step of the client.  [None]: it has returned, or waits for the semaphore.  The result of
    sem_wait is not looked at: a wait that a signal interrupts ends as one that succeeds. *)
Definition client_step (ok : bool) (s : sys) : option sys :=
  match cpc s with
  | CShmOpen => Some (set_cpc s (if ok && shm_linked s then CMmap else CReturn 1))
  | CMmap => Some (set_cpc s (if ok then CSemOpen else CReturn 1))
  | CSemOpen => Some (set_cpc s (if ok && sem_linked s then CSemWait else CReturn 1))
  | CSemWait =>
      if negb ok then Some (set_cpc (set_failed s) CStatus) else
      match sem s with
      | O => None
      | S n => Some (set_cpc (set_sem s (sem_linked s) n) CStatus)
      end
  | CStatus =>
      match shm s with
      | None => Some (set_cpc s CFault)
      | Some d => Some (set_cpc (set_read s (status d) []) (CMessage 0))
      end
  | CMessage i =>            (* operator<< of a char*: up to the first zero *)
      match shm s ≫= λ d, message d !! i with
      | None => Some (set_cpc s CFault)
      | Some b =>
          if b =? 0 then Some (set_cpc s (CReturn 0))
          else Some (set_cpc (set_read s (read_status s) (read_message s ++ [b])) (CMessage (S i)))
      end
  | CReturn _ | CFault => None
  end.

Inductive step (s s' : sys) : Prop :=
| step_server ok : server_step ok s = Some s' → step s s'
| step_client ok : client_step ok s = Some s' → step s s'.

(** Both programs at their start.  [shm0]: no shared object is left from an earlier run, one of
    size 0 is ([Some None]), or one with these contents; [sem0]: the value of a semaphore that is
    left. *)
Definition start (shm0 : option (option SharedData)) (sem0 : option nat) : sys :=
  Sys (bool_decide (is_Some shm0)) (mjoin shm0) (bool_decide (is_Some sem0)) (default 0%nat sem0)
    SShmOpen CShmOpen (-1) [] false.

(** Run a schedule: whether it is the server's turn, and whether its call succeeds. *)
Fixpoint schedule (l : list (bool * bool)) (s : sys) : option sys :=
  match l with
  | [] => Some s
  | (b, ok) :: l' => (if b then server_step ok s else client_step ok s) ≫= schedule l'
  end.

(** ** The invariant *)

(** The server's data is complete and the semaphore has been posted. *)
Definition posted_pc (pc : server_pc) : bool :=
  match pc with
  | SSleep | SMunmap | SShmUnlink | SSemUnlink | SReturn 0 => true
  | _ => false
  end.

Definition complete (d : SharedData) : Prop :=
  status d = 1 ∧ message d = strncpy_byte <$> seq 0 (Z.to_nat BUFFER_SIZE).

Definition prefix_copied (n : nat) (d : SharedData) : Prop :=
  status d = 1 ∧ length (message d) = Z.to_nat BUFFER_SIZE ∧
  take n (message d) = strncpy_byte <$> seq 0 n.

(** What the server has done so far. *)
Definition server_inv (s : sys) : Prop :=
  match spc s with
  | SCopy i => (i ≤ Z.to_nat BUFFER_SIZE)%nat ∧ ∃ d, shm s = Some d ∧ prefix_copied i d
  | SSemPost => ∃ d, shm s = Some d ∧ complete d
  | pc => if posted_pc pc then ∃ d, shm s = Some d ∧ complete d else True
  end.

(** What the client has done so far, if its wait was not interrupted. *)
Definition client_inv (s : sys) : Prop :=
  if wait_failed s then True else
  match cpc s with
  | CStatus => posted_pc (spc s) = true
  | CMessage i => posted_pc (spc s) = true ∧ read_status s = 1 ∧ (i ≤ length hello)%nat ∧
                  read_message s = take i hello
  | CReturn 0 => read_status s = 1 ∧ read_message s = hello
  | CFault => False
  | _ => True
  end.

Record inv (s : sys) : Prop := {
  inv_server : server_inv s;
  inv_client : client_inv s;
  inv_sem : (0 < sem s)%nat → posted_pc (spc s) = true;
  inv_size : ∀ d, shm s = Some d → length (message d) = Z.to_nat BUFFER_SIZE
}.

(** ** Lemmas *)

Lemma hello_length : length hello = 18%nat.
Proof. reflexivity. Qed.

Lemma hello_no_zero : Forall (λ b, b ≠ 0) hello.
Proof. apply (bool_decide_unpack _). vm_compute. exact I. Qed.

Lemma prefix_step i d :
  (i < Z.to_nat BUFFER_SIZE)%nat → prefix_copied i d →
  prefix_copied (S i) (Shared (status d) (<[i:=strncpy_byte i]> (message d))).
Proof.
  intros Hi (Hst & Hlen & Htake). split_and!; [done|cbn; by rewrite length_insert|].
  cbn [message]. rewrite (take_S_r _ _ (strncpy_byte i)) by (apply list_lookup_insert_eq; lia).
  rewrite take_insert_ge by lia. rewrite Htake, seq_S, fmap_app. done.
Qed.

Lemma prefix_all d : prefix_copied (Z.to_nat BUFFER_SIZE) d → complete d.
Proof.
  intros (Hst & Hlen & Htake). split; [done|]. rewrite <- Htake. symmetry. apply take_ge. lia.
Qed.

(** What the client sees at position [i] of the completed message. *)
Lemma complete_lookup d i :
  complete d → (i ≤ length hello)%nat → message d !! i = Some (default 0 (hello !! i)).
Proof.
  intros [_ Hm] Hi. rewrite Hm, list_lookup_fmap, lookup_seq_lt; [done|].
  rewrite hello_length in Hi. unfold BUFFER_SIZE. lia.
Qed.

Lemma posted_complete s : server_inv s → posted_pc (spc s) = true → ∃ d, shm s = Some d ∧ complete d.
Proof.
  unfold server_inv. destruct (spc s) as [| | | | | | | | | | |[| |]]; cbn; try done.
Qed.

(** The client's facts do not depend on what the server does, as long as a post stays done. *)
Lemma client_inv_server s s' :
  client_inv s → cpc s' = cpc s → read_status s' = read_status s → read_message s' = read_message s →
  wait_failed s' = wait_failed s →
  (posted_pc (spc s) = true → posted_pc (spc s') = true) → client_inv s'.
Proof.
  unfold client_inv. intros Hc -> -> -> -> Hp. destruct (wait_failed s); [done|]. destruct (cpc s) as [| | | | | |[| |]|]; try done.
  - by apply Hp.
  - destruct Hc as (? & ? & ? & ?). split_and!; [by apply Hp|done..].
Qed.

Lemma posted_server_step ok s s' :
  server_step ok s = Some s' → posted_pc (spc s) = true → posted_pc (spc s') = true.
Proof.
  unfold server_step. destruct (spc s) as [| | | | | | | | | | |[| |]]; try done; by intros [= <-].
Qed.

Lemma server_step_frame ok s s' :
  server_step ok s = Some s' →
  cpc s' = cpc s ∧ read_status s' = read_status s ∧ read_message s' = read_message s ∧
  wait_failed s' = wait_failed s.
Proof.
  unfold server_step. intros Hs. destruct (spc s); try done;
    repeat case_match; by simplify_eq/=.
Qed.

Lemma server_step_shared ok s s' :
  inv s → server_step ok s = Some s' →
  server_inv s' ∧ ((0 < sem s')%nat → posted_pc (spc s') = true) ∧
  (∀ d, shm s' = Some d → length (message d) = Z.to_nat BUFFER_SIZE).
Proof.
  intros [Hs _ Hsem Hsize]. unfold server_step, server_inv in *.
  destruct (spc s) as [| | | | |i| | | | | |code] eqn:Hpc; cbn in Hs; intros Hstep.
  - destruct ok; simplify_eq/=; (split_and!; [done|tauto|]); [|done].
    intros d. case_match; [apply Hsize|done].
  - simplify_eq/=. split_and!; [done|tauto|]. intros d. destruct ok; [|apply Hsize].
    intros [= <-]. destruct (shm s) as [d|]; [by apply Hsize|reflexivity].
  - destruct ok; simplify_eq/=; (split_and!; [done|tauto|done]).
  - destruct ok; simplify_eq/=; (split_and!; [done| |done]); [|tauto].
    case_match; [tauto|lia].
  - destruct (shm s) as [d|] eqn:Hd; simplify_eq/=; (split; [|split; [tauto|]]).
    + split; [lia|]. eexists. split; [done|]. split_and!; [done|by apply (Hsize d)|done].
    + intros ? [= <-]. by apply (Hsize d).
    + done.
    + by rewrite Hd.
  - destruct Hs as (Hi & d & Hd & Hp). rewrite Hd in Hstep. case_match eqn:Hlt; simplify_eq/=.
    + apply Nat.ltb_lt in Hlt. split; [|split; [tauto|]].
      * split; [lia|]. eexists. split; [done|]. by apply prefix_step.
      * intros ? [= <-]. cbn. rewrite length_insert. by apply Hsize.
    + apply Nat.ltb_ge in Hlt. split_and!; [|tauto|done]. exists d. split; [done|].
      apply prefix_all. by replace (Z.to_nat BUFFER_SIZE) with i by lia.
  - destruct ok; simplify_eq/=; by split_and!.
  - simplify_eq/=. by split_and!.
  - simplify_eq/=. by split_and!.
  - simplify_eq/=. by split_and!.
  - simplify_eq/=. by split_and!.
  - done.
Qed.

Lemma client_step_frame ok s s' :
  client_step ok s = Some s' → spc s' = spc s ∧ shm s' = shm s ∧ (sem s' ≤ sem s)%nat.
Proof.
  unfold client_step. intros Hs. destruct (cpc s); try done;
    repeat case_match; simplify_eq/=; split_and!; try done; lia.
Qed.

Lemma client_step_client ok s s' :
  inv s → client_step ok s = Some s' → client_inv s'.
Proof.
  intros [Hs Hc Hsem _] Hstep. unfold client_step, client_inv in *.
  destruct (wait_failed s') eqn:Hf'; [done|].
  assert (wait_failed s = false) as Hf
    by (clear Hc; destruct (cpc s); repeat case_match; simplify_eq/=; congruence).
  rewrite Hf in Hc. destruct (cpc s) as [| | | | |i|code|] eqn:Hpc; try done.
  - simplify_eq/=. by destruct ok, (shm_linked s).
  - simplify_eq/=. by destruct ok.
  - simplify_eq/=. by destruct ok, (sem_linked s).
  - destruct ok; cbn [negb] in Hstep; [|by simplify_eq/=].
    destruct (sem s) as [|n] eqn:Hn; [done|]. simplify_eq/=. apply Hsem. lia.
  - destruct (posted_complete _ Hs Hc) as (d & Hd & Hcomp). rewrite Hd in Hstep. simplify_eq/=.
    split_and!; [done|apply Hcomp|lia|done].
  - destruct Hc as (Hp & Hst & Hi & Hm). destruct (posted_complete _ Hs Hp) as (d & Hd & Hcomp).
    rewrite Hd in Hstep. cbn in Hstep. rewrite (complete_lookup d i Hcomp Hi) in Hstep.
    destruct (hello !! i) as [b|] eqn:Hb; cbn [default] in Hstep.
    + pose proof (proj1 (Forall_lookup _ _) hello_no_zero i b Hb). cbn in Hstep.
      rewrite (proj2 (Z.eqb_neq b 0)) in Hstep by done. injection Hstep as <-.
      cbn [set_cpc set_read cpc spc read_status read_message].
      split_and!; [done|done|by apply lookup_lt_Some in Hb|]. rewrite Hm. symmetry.
      by apply take_S_r.
    + cbn in Hstep. simplify_eq/=. split; [done|]. rewrite Hm. apply lookup_ge_None in Hb.
      by apply take_ge.
Qed.

Lemma inv_step s s' : inv s → step s s' → inv s'.
Proof.
  intros Hi [ok Hs|ok Hs].
  - destruct (server_step_shared _ _ _ Hi Hs) as (? & ? & ?).
    destruct (server_step_frame _ _ _ Hs) as (? & ? & ? & ?). split; [done| |done|done].
    eapply client_inv_server; [apply Hi|done..|]. by apply (posted_server_step ok).
  - destruct (client_step_frame _ _ _ Hs) as (Hspc & Hshm & Hsem).
    pose proof (client_step_client _ _ _ Hi Hs). destruct Hi as [Hsi _ Hsm Hsz]. split; [|done| |].
    + unfold server_inv in *. by rewrite Hspc, Hshm.
    + rewrite Hspc. intros ?. apply Hsm. lia.
    + by rewrite Hshm.
Qed.

Lemma inv_start shm0 sem0 :
  (∀ d, shm0 = Some (Some d) → length (message d) = Z.to_nat BUFFER_SIZE) →
  default 0%nat sem0 = 0%nat → inv (start shm0 sem0).
Proof.
  intros Hsz Hsem. split; [done|done|cbn; rewrite Hsem; lia|].
  intros d Hd. cbn in Hd. destruct shm0 as [[d'|]|]; simplify_eq/=. by apply Hsz.
Qed.

Lemma inv_reachable s s' : inv s → rtc step s s' → inv s'.
Proof. intros Hi Hr. revert Hi. induction Hr; eauto using inv_step. Qed.

Lemma schedule_rtc l : ∀ s s', schedule l s = Some s' → rtc step s s'.
Proof.
  induction l as [|[b ok] l IH]; intros s s' Hs; cbn in Hs; [by simplify_eq|].
  apply bind_Some in Hs as (s1 & Hs1 & Hs). eapply rtc_l; [|by apply IH].
  destruct b; [by apply (step_server _ _ ok)|by apply (step_client _ _ ok)].
Qed.

(** ** Properties *)

(** C37: the handoff is safe when no semaphore with a positive value is left from an earlier run
    and the client's sem_wait is not interrupted: whether there is a shared object already, empty
    or with contents, whichever other system calls fail and however the two processes interleave,
    the client never faults, and if it returns success it has read status 1 and exactly the text
    the server wrote. *)
Theorem shared_memory_handoff shm0 sem0 s :
  (∀ d, shm0 = Some (Some d) → length (message d) = Z.to_nat BUFFER_SIZE) →
  default 0%nat sem0 = 0%nat →
  rtc step (start shm0 sem0) s → wait_failed s = false →
  cpc s ≠ CFault ∧ (cpc s = CReturn 0 → read_status s = 1 ∧ read_message s = hello).
Proof.
  intros Hsz Hsem Hr Hw. pose proof (inv_client _ (inv_reachable _ _ (inv_start _ _ Hsz Hsem) Hr)) as Hc.
  unfold client_inv in Hc. rewrite Hw in Hc. split; [by intros Heq; rewrite Heq in Hc|].
  intros Heq. by rewrite Heq in Hc.
Qed.

(** The server runs up to sem_post, then the client runs to its end; all calls succeed. *)
Definition handoff_schedule : list (bool * bool) :=
  replicate (4 + 1 + 257 + 1) (true, true) ++ replicate (4 + 1 + 19) (false, true).

(** And it does happen: when every call succeeds and the server gets as far as its post
    before the client starts, the client returns with the server's text.  When a semaphore is
    left over with value 1 (a server that posted and was killed before it unlinked it), sem_open
    does not reset it: the client can run before anything is written, and returns success
    with the contents left in the object. *)
Theorem shared_memory_stale_semaphore :
  (∃ s, schedule handoff_schedule (start None None) = Some s ∧
        cpc s = CReturn 0 ∧ read_message s = hello) ∧
  (∃ s, schedule (replicate 6 (false, true)) (start (Some (Some zero_data)) (Some 1%nat)) = Some s ∧
        cpc s = CReturn 0 ∧ read_status s = 0 ∧ read_message s = []).
Proof. split; eexists; (split; [vm_compute; reflexivity|]); by split_and!. Qed.

(** The server has opened everything and written nothing; a signal interrupts the client's wait,
    and the client returns success with an empty text.  With an object of size 0 that an earlier
    run has left, it even faults. *)
Theorem shared_memory_interrupted_wait :
  (∃ s, schedule (replicate 4 (true, true) ++ replicate 3 (false, true) ++ [(false, false)] ++
                  replicate 2 (false, true)) (start None None) = Some s ∧
        cpc s = CReturn 0 ∧ read_status s = 0 ∧ read_message s = []) ∧
  (∃ s, schedule (replicate 3 (false, true) ++ [(false, false); (false, true)])
          (start (Some None) (Some 0%nat)) = Some s ∧ cpc s = CFault).
Proof.
  split; eexists; (split; [vm_compute; reflexivity|]); [by split_and!|reflexivity].
Qed.

(** ** Witness *)

Lemma shared_memory_handoff_witness :
  ∃ s, rtc step (start None None) s ∧ cpc s = CReturn 0 ∧ read_status s = 1 ∧
       read_message s = hello.
Proof.
  assert (∃ s, schedule handoff_schedule (start None None) = Some s ∧ cpc s = CReturn 0 ∧ wait_failed s = false)
    as (s & Hs & Hc & Hw) by (eexists; split; [vm_compute; reflexivity|split; reflexivity]).
  exists s. pose proof (schedule_rtc _ _ _ Hs) as Hr.
  destruct (shared_memory_handoff None None s ltac:(intros d [=]) eq_refl Hr Hw) as [_ Hok].
  split; [exact Hr|]. split; [exact Hc|]. exact (Hok Hc).
Defined.
