(* ===== verification/Main.v ===== *)
(** The server program (src/server/main.cpp) up to the point where it waits: the configuration is
    read, the pool is made, and the UDP object is built on it.  What comes after (the wait for
    Enter, stopping the io_context, the join, the destructors) is in [ServerLife], and the client
    program in [ClientLife].
    The functions run on the heap; an exception that leaves main ends the program. *)

From S2P Require Import Prelude Bytes CMem Libpool LibpoolSpec LibpoolDec LibpoolLife.
From S2P Require Import LibpoolClient BufferPool Mempool MempoolProps Chrono Config Format.
From S2P Require Import Utility UdpServer UdpServerSpec UdpServerProps.
Local Open Scope Z_scope.

(** std::optional::value() *)
Definition value {S A} (o : option A) : M S A :=
  match o with Some a => mret a | None => throw bad_optional_access end.

(** std::stoi(s): white space, a sign, decimal digits; what follows is ignored. *)
Definition stoi {S} (s : chars) : M S Z :=
  let '(sg, s') := sign_of (skip_ws s) in
  match take_digits s' with
  | [] => throw (invalid_argument "stoi")
  | ds => let v := sg * digits_value 10 ds in
          if in_s 32 v then mret v else throw (out_of_range "stoi")
  end.

(** Run code of another object: its state is dropped, its outcome kept. *)
Definition lift {S T A} (m : M T A) (t : T) : M S A := λ s,
  match m t with
  | Ok a _ => Ok a s
  | Throw e _ => Throw e s
  | UB u => UB u
  | OutOfFuel => OutOfFuel
  end.

Section programs.
Context `{Toml} `{Allocator}.
(** value<std::string>() and value<std::size_t>() of toml++, and the names that resolve. *)
Context (as_string : option node → option chars) (as_size : option node → option Z).

(** udp::socket(io_context, endpoint): binding to a port may fail. *)
Definition open_socket {S} (bind_ok : Z → bool) (port : Z) : M S unit :=
  if bind_ok port then mret tt else throw (system_error "bind").

(** What main builds: the server object, with the heap it lives on inside its pool. *)
Definition server_main (config : Config) (bind_ok : Z → bool) (h : heap) :
    outcome (Udp_server (St := mstate)) Z + exn :=
  match (service ← lift (get_as as_string "network.server.service") config;
         pool_size ← lift (get_as as_size "network.mempool.pool_size") config;
         chunk_size ← lift (get_as as_size "network.mempool.chunk_size") config;
         ps ← value pool_size;
         cs ← value chunk_size;
         mempool ← Mempool_ctor ps cs;
         sv ← value service;
         n ← stoi sv;
         let port := u16 (s16 n) in          (* (short)std::stoi(...), then endpoint's port *)
         open_socket bind_ok port;;
         mret (mempool, port)) h with
  | Ok (mempool, port) h' =>
      inl ((Udp_server_ctor (0, port);; mret port) (raw_server (MState mempool h')))
  | Throw e h' => inr e
  | UB u => inl (UB u)
  | OutOfFuel => inl OutOfFuel
  end.

End programs.

(** ** Lemmas *)

Lemma lift_get_as `{Toml} {S T} (v : option node → option T) key c (s : S) :
  lift (get_as v key) c s = Ok (v (at_path (config_ c) key)) s.
Proof. done. Qed.

(** The conversions of the port: what was printed is read back, modulo 2^16. *)
Lemma stoi_shown {S} n (s : S) :
  0 ≤ n < 2 ^ 64 →
  stoi (show_base 10 n) s =
    if n <? 2 ^ 31 then Ok n s else Throw (out_of_range "stoi") s.
Proof.
  intros Hn. destruct (show_base10 n Hn) as (ds & -> & Hds & Hne & Hv).
  unfold stoi. rewrite (sign_of_shown ds Hds Hne), (take_digits_shown ds Hds).
  destruct ds as [|d l]; [done|]. rewrite Z.mul_1_l, Hv. unfold in_s.
  rewrite (proj2 (Z.leb_le (- 2 ^ (32 - 1)) n)) by lia. cbn [andb].
  change (2 ^ (32 - 1)) with (2 ^ 31). by destruct (n <? 2 ^ 31).
Qed.

Lemma port_of n : u16 (s16 n) = n `mod` 65536.
Proof. rewrite uwrap_swrap by lia. done. Qed.

Section props.
Context `{Toml} `{AllocatorLaws}.
Context (as_string : option node → option chars) (as_size : option node → option Z).

End props.

(** ** Witness *)

(** A configuration as a list of paths and values. *)
Definition main_toml : Toml := {|
  node := chars + Z;
  table := list (string * (chars + Z));
  table_get := λ _ _, None;
  node_get := λ _ _, None;
  at_path := λ t p, snd <$> List.find (λ e, String.eqb e.1 p) t;
  as_date := λ _, None;
  as_time := λ _, None;
  as_date_time := λ _, None
|}.

Definition main_string (v : option (chars + Z)) : option chars :=
  match v with Some (inl s) => Some s | _ => None end.
Definition main_size (v : option (chars + Z)) : option Z :=
  match v with Some (inr z) => Some z | _ => None end.

Definition main_config (port : Z) : @Config main_toml :=
  @MkConfig main_toml [("network.server.service"%string, inl (show_base 10 port));
                       ("network.mempool.pool_size"%string, inr 3);
                       ("network.mempool.chunk_size"%string, inr 20)].

