(* ===== verification/ServerLife.v ===== *)
(** The whole life of the Unid server (src/server/main.cpp): the pool is made, the server is built
    and runs beside main until the user ends it, the context is stopped, the thread joined, and
    leaving main destroys the objects, the pool last.  It puts together [Main], [IoContext],
    [UdpServer] and [Mempool]. *)

From S2P Require Import Prelude Bytes CMem Libpool LibpoolSpec LibpoolDec LibpoolLife.
From S2P Require Import LibpoolClient BufferPool Mempool MempoolProps Config Format.
From S2P Require Import Utility UdpServer UdpServerSpec UdpServerProps IoContext Main.
Local Open Scope Z_scope.

(** The server program never sends, so only receives complete. *)
Inductive net_event : Type :=
| NReceived (from : endpoint) (bs : list Z)
| NReceiveError.

Definition net_handler (e : net_event) : event :=
  match e with NReceived from bs => EvReceived from bs | NReceiveError => EvReceiveError end.

Abbreviation server := (Udp_server (St := mstate)).

#[global] Instance udp_server_app : AsioApp server net_event := {|
  app_step e := step (net_handler e);
  app_pending s := bool_decide (is_Some (receiving s)) || negb (bool_decide (sending s = []))
|}.

(** Udp_server s(io_context, (short)std::stoi(service.value()), mempool, ...) *)
Definition make_udp_server (bind_ok : Z → bool) (service : option chars) : M server unit :=
  sv ← value service;
  n ← stoi sv;
  let port := u16 (s16 n) in
  open_socket bind_ok port;;
  Udp_server_ctor (0, port).

(** From the work guard to the join. *)
Definition unid_server_program (bind_ok : Z → bool) (service : option chars) : list (action server) :=
  [MakeWorkGuard; StartThread; Call (make_udp_server bind_ok service); WaitForUser;
   ResetGuard; StopContext; JoinThread].

Section life.
Context `{Toml} `{Allocator}.
Context (as_string : option node → option chars) (as_size : option node → option Z).

(** main, with the schedule of its two threads: how it ended, and the heap when the pool's
    destructor has run. *)
Definition server_life (fuel : nat) (config : Config) (bind_ok : Z → bool)
    (ts : list (turn net_event)) : M heap status :=
  service ← lift (get_as as_string "network.server.service") config;
  pool_size ← lift (get_as as_size "network.mempool.pool_size") config;
  chunk_size ← lift (get_as as_size "network.mempool.chunk_size") config;
  ps ← value pool_size;
  cs ← value chunk_size;
  mempool ← Mempool_ctor ps cs;
  h ← get;
  let s := prun false ts (pinit (raw_server (MState mempool h)) (unid_server_program bind_ok service)) in
  match stat s with
  | SReturned =>                      (* the destructors, the pool's last *)
      match Mempool_dtor fuel (mempool_ (app s)) with
      | Ok _ m => put (hp m);; mret SReturned
      | Throw e _ => throw e
      | UB u => undefined u
      | OutOfFuel => λ _, OutOfFuel
      end
  | st => put (hp (mempool_ (app s)));; mret st
  end.
End life.

(** The service is a number in the range of int, and the port it is cast to can be bound. *)
Definition server_starts (bind_ok : Z → bool) (service : option chars) : bool :=
  match service with
  | Some sv => match stoi sv tt with Ok n _ => bind_ok (u16 (s16 n)) | _ => false end
  | None => false
  end.

(** ** Lemmas *)

Lemma stoi_state {S} sv (s : S) :
  stoi sv s = match stoi sv tt with
              | Ok n _ => Ok n s
              | Throw e _ => Throw e s
              | UB u => UB u
              | OutOfFuel => OutOfFuel
              end.
Proof.
  unfold stoi. destruct (sign_of _) as [sg s']. destruct (take_digits s'); [done|]. cbn zeta.
  by destruct (in_s 32 _).
Qed.

Lemma stoi_no_ub sv : match stoi sv tt with UB _ | OutOfFuel => False | _ => True end.
Proof.
  unfold stoi. destruct (sign_of _) as [sg s']. destruct (take_digits s'); [done|]. cbn zeta.
  by destruct (in_s 32 _).
Qed.

Lemma unbuilt_server_event m e : app_step e (raw_server m) = Ok tt (raw_server m).
Proof. by destruct e. Qed.

Section proof.
Context `{AllocatorLaws}.
Context (h0 : heap) (cs : Z) (N : nat) (m0 : mstate).

(** The buffers of the pool, which owns exactly the blocks that [h0] does not have. *)
Abbreviation owned := (λ h p arrs, footprint h0 h p arrs ∧ length arrs = 1%nat).
#[local] Instance life_pool : BufferPool mstate := Mempool_pool owned.
#[local] Instance life_pool_laws : @BufferPoolLaws mstate life_pool := Mempool_pool_laws owned.

(** Destroying the pool, whatever is held, gives back what the pool owns. *)
Lemma life_dtor m n l fuel :
  @bp_rep _ life_pool m cs n l → (1 < fuel)%nat →
  wp (Mempool_dtor fuel) (λ _ m, blocks (hp m) = blocks h0 ∧ preserves h0 (hp m)) m.
Proof.
  intros (A & Hok & _ & _ & _ & _ & Hfp & Hlen) Hfuel.
  unfold Mempool_dtor. apply wp_get_bind, wp_on_heap.
  eapply wp_mono; [apply (wp_pool_destroy _ _ A); [apply Hok|lia]|].
  intros [] h' [Hm Hbl]. by eapply destroy_footprint.
Qed.

Context (Hm0 : @bp_rep _ life_pool m0 cs (S N) []).

(** Once the server is built: the invariant its lemmas are about. *)
Definition built (s : server) : Prop := ∃ lost recv, @inv _ life_pool cs (S N) lost recv s.

Lemma built_step s e : built s → wp (app_step e) (λ _ s', built s') s.
Proof.
  intros (lost & recv & Hi). assert (@event_ok cs (net_handler e)) as He by (by destruct e).
  change (wp (@step _ life_pool (net_handler e)) (λ _ s', built s') s).
  eapply wp_mono; [by apply (@step_inv _ life_pool life_pool_laws cs (S N) lost recv)|].
  intros [] s' (lost' & _ & Hi'). by eexists _, _.
Qed.

Lemma make_udp_server_ok bind_ok service :
  server_starts bind_ok service = true →
  wp (make_udp_server bind_ok service) (λ _ s', built s') (raw_server m0).
Proof.
  intros Hst. destruct service as [sv|]; [|done]. cbn in Hst. unfold make_udp_server. cbn [value].
  apply wp_bind, wp_ret, wp_bind. unfold wp at 1. rewrite stoi_state.
  destruct (stoi sv tt) as [n []| | |]; [|done..]. cbn zeta.
  apply wp_bind. unfold open_socket. rewrite Hst. apply wp_ret.
  destruct (@ctor_inv _ life_pool life_pool_laws cs N (0, u16 (s16 n)) m0 Hm0)
    as (s & c & Hs & Hi & Hc & _).
  apply (wp_Ok _ _ _ tt s Hs). exists 0%nat, true. by eapply srv_inv_start.
Qed.

Lemma make_udp_server_fails bind_ok service :
  server_starts bind_ok service = false →
  failure (raw_server m0) (make_udp_server bind_ok service) = Some STerminated.
Proof.
  intros Hst. unfold failure, make_udp_server. rewrite bind_run. destruct service as [sv|]; [|done].
  cbn in Hst. cbn [value]. rewrite ret_run, bind_run, stoi_state.
  pose proof (stoi_no_ub sv) as Hub. destruct (stoi sv tt) as [n []|e []| |]; [|done..]. cbn zeta.
  rewrite bind_run. unfold open_socket. by rewrite Hst.
Qed.

(** The invariant of the program, by what main has still to do. *)
Definition serving (prog l : list (action server)) (s : server) : Prop :=
  (s = raw_server m0 ∧ ∃ k, (k ≤ 2)%nat ∧ l = drop k prog) ∨
  (built s ∧ ∃ k, (2 < k)%nat ∧ l = drop k prog).

Lemma serving_pool prog l s : serving prog l s → ∃ n l, @bp_rep _ life_pool (mempool_ s) cs n l.
Proof.
  intros [[-> _]|[(lost & recv & Hi) _]]; [by eexists _, _|].
  destruct (@inv_count _ life_pool cs (S N) lost recv s Hi) as (n & l' & Hr & _). by exists n, l'.
Qed.

Lemma serving_event prog l s e : serving prog l s → wp (app_step e) (λ _ s', serving prog l s') s.
Proof.
  intros [[-> Hk]|[Hb Hk]].
  - destruct e; left; done.
  - eapply wp_mono; [by apply built_step|]. intros [] s' Hs'. by right.
Qed.

Lemma serving_main bind_ok service x l s :
  server_starts bind_ok service = true →
  let prog := unid_server_program bind_ok service in
  serving prog (x :: l) s →
  match x with Call m => wp m (λ _ s', serving prog l s') s | _ => serving prog l s end.
Proof.
  intros Hst prog [[-> (k & Hk & Hl)]|[Hs (k & Hk & Hl)]].
  - destruct k as [|[|[|]]]; [..|lia]; cbn in Hl; simplify_eq.
    + left. split; [done|exists 1%nat; split; [lia|done]].
    + left. split; [done|exists 2%nat; split; [lia|done]].
    + eapply wp_mono; [by apply make_udp_server_ok|]. intros [] s' Hs'. right.
      split; [done|exists 3%nat; split; [lia|done]].
  - assert (k < 7)%nat as Hk7.
    { pose proof (f_equal length Hl) as Hlen. rewrite length_drop in Hlen. cbn in Hlen. lia. }
    assert (serving prog (drop (S k) prog) s) as Hnext.
    { right. split; [done|]. exists (S k). split; [lia|done]. }
    assert (k = 3 ∨ k = 4 ∨ k = 5 ∨ k = 6)%nat as Hcase by lia.
    destruct_or! Hcase; subst k; cbn in Hl; simplify_eq; exact Hnext.
Qed.

(** The pool's destructor, on the object as the program leaves it. *)
Lemma serving_dtor prog l s fuel :
  serving prog l s → (1 < fuel)%nat →
  wp (Mempool_dtor fuel) (λ _ m, blocks (hp m) = blocks h0 ∧ preserves h0 (hp m)) (mempool_ s).
Proof. intros (n & l' & Hr)%serving_pool. by eapply life_dtor. Qed.
End proof.

(** The pool that the constructor makes, with all its buffers free, or its exception. *)
Lemma life_pool_made `{AllocatorLaws} h ps cs :
  heap_wf h → 0 < ps < 2 ^ 64 → 0 < cs ≤ 2 ^ 64 - 8 → ps * ALIGN2BOUNDARY cs sizeof_ptr < 2 ^ 64 →
  match Mempool_ctor ps cs h with
  | Ok this h' => @bp_rep _ (life_pool h) (MState this h') cs (S (pred (Z.to_nat ps))) []
  | Throw e h' => e = init_failed ∧ blocks h' = blocks h ∧ preserves h h'
  | _ => False
  end.
Proof.
  intros Hwf Hps Hcs Hfit. pose proof (Mempool_ctor_cases h ps cs Hwf Hps Hcs Hfit) as Hcases.
  destruct (Mempool_ctor ps cs h) as [this h'|e h'| |]; [|tauto|done..].
  destruct Hcases as (A & Hr & Hok & Hfree & HlenA & Hck & Hex & Hfp & Harr).
  exists A. destruct Hr as [? ? ? ?]. cbn [obj hp] in *.
  split_and!; [done|lia|lia|lia|done|lia|done|done].
Qed.

Section life_props.
Context `{Toml} `{AllocatorLaws}.
Context (as_string : option node → option chars) (as_size : option node → option Z).

(** C16: the server program as a whole, with a configuration that has the sizes of the pool, within
    the address space, in every schedule in which main and the io_context's thread keep getting
    turns.  If the service is a number and its port can be bound, then whatever datagrams arrive
    and whether or not a receive fails, main returns once the user asks for it, and the pool's
    destructor gives back every block: the heap is what it was before the program started.  If
    the service is missing or not an int, or the port cannot be bound, the program is ended by
    std::terminate, since the thread is already running.  If the pool's memory is refused, main
    throws at once, with nothing left allocated. *)
Theorem server_life_no_leak config bind_ok h ps cs rounds fuel :
  heap_wf h → 0 < ps < 2 ^ 64 → 0 < cs ≤ 2 ^ 64 - 8 →
  ps * ALIGN2BOUNDARY cs sizeof_ptr < 2 ^ 64 →
  as_size (at_path (config_ config) "network.mempool.pool_size") = Some ps →
  as_size (at_path (config_ config) "network.mempool.chunk_size") = Some cs →
  Forall fair_round rounds → (15 < length rounds)%nat → (1 < fuel)%nat →
  match server_life as_string as_size fuel config bind_ok (concat rounds) h with
  | Ok st h' =>
      if server_starts bind_ok (as_string (at_path (config_ config) "network.server.service"))
      then st = SReturned ∧ blocks h' = blocks h ∧ preserves h h'
      else st = STerminated
  | Throw e h' => e = init_failed ∧ blocks h' = blocks h ∧ preserves h h'
  | _ => False
  end.
Proof.
  intros Hwf Hps Hcs Hfit Hp Hc Hf Hlen Hfuel. unfold server_life.
  set (service := as_string _) in *.
  rewrite !bind_run, !lift_get_as, !bind_run, !lift_get_as, !bind_run, !lift_get_as, Hp, Hc.
  fold service. cbn [value]. rewrite !bind_run, !ret_run, !bind_run, !ret_run, bind_run.
  pose proof (life_pool_made h ps cs Hwf Hps Hcs Hfit) as Hm0.
  destruct (Mempool_ctor ps cs h) as [this h'|e h'| |]; [|done..].
  rewrite get_bind. cbn zeta. set (m0 := MState this h') in *.
  set (prog := unid_server_program bind_ok service).
  destruct (server_starts bind_ok service) eqn:Hst.
  2: { assert (stat (prun false (concat rounds) (pinit (raw_server m0) prog)) = STerminated) as ->; [|done].
       eapply failing_program_ends; [apply unbuilt_server_event|by eapply make_udp_server_fails| |cbn; lia].
       eapply Forall_impl; [exact Hf|]. by intros ts [? _]. }
  assert (serving h cs (pred (Z.to_nat ps)) m0 prog prog (raw_server m0)) as Hstart.
  { left. split; [done|]. exists 0%nat. split; [lia|done]. }
  pose proof (λ x l s, serving_main h cs _ m0 Hm0 bind_ok service x l s Hst) as Hmain.
  rewrite (stopping_program_returns false (serving h cs (pred (Z.to_nat ps)) m0 prog)
    (serving_event h cs _ m0 prog) Hmain prog (raw_server m0) rounds Hstart eq_refl Hf Hlen).
  destruct (program_keeps false (serving h cs (pred (Z.to_nat ps)) m0 prog)
    (serving_event h cs _ m0 prog) Hmain (concat rounds) (pinit (raw_server m0) prog))
    as [l Hend]; [by exists prog|].
  destruct (proj1 (wp_run _ _ _) (serving_dtor h cs _ m0 Hm0 prog l _ fuel Hend Hfuel))
    as ([] & m & Hrun & Hbl & Hpr).
  rewrite Hrun. done.
Qed.
End life_props.

(** ** Witness *)

(** A datagram in every round, then a receive that fails. *)
Definition demo_rounds : list (list (turn net_event)) :=
  replicate 8 [TNet (NReceived (2130706433, 9) [1; 2; 3]); TMain; TRet] ++
  replicate 8 [TNet NReceiveError; TRet; TMain].

Lemma demo_rounds_fair : Forall fair_round demo_rounds.
Proof.
  apply Forall_app_2; apply Forall_replicate; split; apply list_elem_of_In; cbn; auto 10.
Qed.

(** The server on port 40000, and when that port is taken. *)
Lemma server_life_no_leak_witness :
  (∃ h', @server_life main_toml demo_alloc main_string main_size 2 (main_config 40000) (λ _, true)
    (concat demo_rounds) empty_heap = Ok SReturned h' ∧ blocks h' = ∅) ∧
  (∃ h', @server_life main_toml demo_alloc main_string main_size 2 (main_config 40000) (λ _, false)
    (concat demo_rounds) empty_heap = Ok STerminated h').
Proof.
  pose proof (λ bind_ok, @server_life_no_leak main_toml demo_alloc (bump_laws 4096) main_string main_size
    (main_config 40000) bind_ok empty_heap 3 20 demo_rounds 2 empty_heap_wf ltac:(lia)
    ltac:(lia) ltac:(vm_compute; reflexivity) eq_refl eq_refl
    demo_rounds_fair ltac:(cbn; lia) ltac:(lia)) as Hlife.
  split.
  - assert (∃ h', @server_life main_toml demo_alloc main_string main_size 2 (main_config 40000)
      (λ _, true) (concat demo_rounds) empty_heap = Ok SReturned h') as [h' Hrun]
      by (eexists; vm_compute; reflexivity).
    exists h'. split; [exact Hrun|]. specialize (Hlife (λ _, true)). rewrite Hrun in Hlife.
    vm_compute (server_starts _ _) in Hlife. exact (proj1 (proj2 Hlife)).
  - specialize (Hlife (λ _, false)).
    destruct (server_life _ _ _ _ (λ _, false) _ _) as [st h'| | |] eqn:Hrun in Hlife |- *.
    + vm_compute (server_starts _ _) in Hlife. rewrite Hlife in Hrun |- *. exists h'. reflexivity.
    + exfalso. revert Hrun. vm_compute. discriminate.
    + destruct Hlife.
    + destruct Hlife.
Defined.
