(* ===== verification/ClientLife.v ===== *)
(** The whole life of the Unid client (src/client/main.cpp): the pool is made, the client object is
    built beside the thread of the io_context, one datagram of five bytes is sent, and when the
    user asks for it the context is stopped, the thread joined and the pool destroyed.

    The object's member chunk_size_ has no initialiser and the constructor does not set it.  What
    the member holds is a parameter of the program: [None] is what C++ says, a value that must
    not be read; [Some v] is a member that holds [v], as it would if the constructor assigned to
    it.

    The property is about the program as it is written ([None]), which never gets past the
    constructor; up to there the handlers have nothing to do, so that every interleaving of the
    two threads is covered.  For [Some v] main and the handlers take turns, one statement of main
    or one handler at a time; that in the source both then use the pool without a lock, and race,
    is the subject of [LibpoolRace]. *)

From S2P Require Import Prelude Bytes CMem Libpool LibpoolSpec LibpoolDec LibpoolLife.
From S2P Require Import LibpoolClient BufferPool Mempool MempoolProps Config Format.
From S2P Require Import UdpServer UdpServerSpec UdpServerProps UdpClient UdpClientProps.
From S2P Require Import IoContext Main ServerLife.
Local Open Scope Z_scope.

Abbreviation client := (Client.Udp_client (St := mstate)).

(** What the thread of the io_context runs for the client. *)
Inductive client_net : Type :=
| CReceived (from : endpoint) (bs : list Z)
| CReceiveError
| CSent (i : nat)
| CSendError (i : nat).

Definition client_handler (e : client_net) : event :=
  match e with
  | CReceived from bs => EvReceived from bs
  | CReceiveError => EvReceiveError
  | CSent i => EvSent i
  | CSendError i => EvSendError i
  end.

#[global] Instance udp_client_app : AsioApp client client_net := {|
  app_step e := Client.step (client_handler e);
  app_pending c := bool_decide (is_Some (Client.receiving c)) || negb (bool_decide (Client.sending c = []))
|}.

(** Udp_client c(io_context, host.value(), service.value(), mempool, ...) *)
Definition make_udp_client (resolve : string → string → option (list endpoint)) (open_ok : bool)
    (host service : option chars) : M client unit :=
  ho ← value host;
  sv ← value service;
  Client.Udp_client_ctor resolve open_ok (String.string_of_list_ascii ho)
    (String.string_of_list_ascii sv).

Definition show_remote_port : M client unit :=
  c ← get;
  Client.print (text "Remote_port:  " ++ show_unsigned (Client.hex c) (Client.get_remote_port c)).

Definition show_remote_address : M client unit :=
  c ← get; Client.print (text "Remote_address: " ++ Client.get_remote_address c).

(** The five bytes, in a chunk of the pool. *)
Definition five : list Z := [1; 2; 3; 4; 5].

Definition send_data : M client unit :=
  chunk ← Client.on_pool bp_alloc;
  Client.on_pool (bp_write chunk five);;
  Client.async_send chunk (length five).

(** From the work guard to the join. *)
Definition unid_client_program (resolve : string → string → option (list endpoint)) (open_ok : bool)
    (host service : option chars) : list (action client) :=
  [MakeWorkGuard; StartThread; Call (make_udp_client resolve open_ok host service);
   Call show_remote_port; Call show_remote_address; Call send_data; WaitForUser;
   ResetGuard; StopContext; JoinThread].

Section life.
Context `{Toml} `{Allocator}.
Context (as_string : option node → option chars) (as_size : option node → option Z).

(** main, with the schedule of its two threads: how it ended and what had left, and the heap when
    the pool's destructor has run. *)
Definition client_life (fuel : nat) (config : Config)
    (resolve : string → string → option (list endpoint)) (open_ok : bool) (member : option Z)
    (ts : list (turn client_net)) : M heap (status * list (endpoint * list Z)) :=
  host ← lift (get_as as_string "network.client.host") config;
  service ← lift (get_as as_string "network.client.service") config;
  pool_size ← lift (get_as as_size "network.mempool.pool_size") config;
  chunk_size ← lift (get_as as_size "network.mempool.chunk_size") config;
  ps ← value pool_size;
  cs ← value chunk_size;
  mempool ← Mempool_ctor ps cs;
  h ← get;
  let s := prun false ts (pinit (Client.client_storage member (MState mempool h))
             (unid_client_program resolve open_ok host service)) in
  match stat s with
  | SReturned =>                      (* the destructors, the pool's last *)
      match Mempool_dtor fuel (Client.mempool_ (app s)) with
      | Ok _ m => put (hp m);; mret (SReturned, Client.wire (app s))
      | Throw e _ => throw e
      | UB u => undefined u
      | OutOfFuel => λ _, OutOfFuel
      end
  | st => put (hp (Client.mempool_ (app s)));; mret (st, Client.wire (app s))
  end.
End life.

(** ** Lemmas *)

Section proof.
Context `{AllocatorLaws}.
Context (h0 : heap) (cs : Z) (N : nat) (m0 : mstate).

#[local] Instance client_pool : BufferPool mstate := life_pool h0.
#[local] Instance client_pool_laws : @BufferPoolLaws mstate client_pool := life_pool_laws h0.

Context (Hm0 : @bp_rep _ client_pool m0 cs (S N) []).

Abbreviation client_ok := (@follows _ client_pool cs (S N)).

Lemma client_event P c e :
  (∀ a, P a → P (spec_step cs (S N) (client_handler e) a)) →
  client_ok P c → wp (app_step e) (λ _ c', client_ok P c') c.
Proof. intros HP. apply (@follows_step _ client_pool client_pool_laws); [by destruct e|done]. Qed.

(** Before main sends, one buffer is in use: it is in the pending receive, or was lost with it. *)
Definition before_send (a : aserver) : Prop :=
  a_pending a = [] ∧ a_wire a = [] ∧ a_used a = 1%nat.

(** Afterwards at most one datagram is on its way or has left, with the five bytes. *)
Definition after_send (a : aserver) : Prop :=
  (length (a_pending a ++ a_wire a) ≤ 1)%nat ∧ Forall (λ d, d.2 = five) (a_pending a ++ a_wire a).

Lemma before_send_step e a : before_send a → before_send (spec_step cs (S N) (client_handler e) a).
Proof.
  intros (Hp & Hw & Hu). unfold before_send, a_used in *. destruct e; cbn [spec_step client_handler].
  - destruct (a_recv a) eqn:Hr; cbn; rewrite ?Hr; auto.
  - destruct (a_recv a) eqn:Hr; cbn; rewrite ?Hr; [|auto]. split_and!; [done|done|]. cbn in Hu. lia.
  - by rewrite Hp.
  - by rewrite Hp.
Qed.

Lemma after_send_step e a : after_send a → after_send (spec_step cs (S N) (client_handler e) a).
Proof.
  intros Ha. pose proof Ha as [Hl Hf]. destruct e as [from bs| |i|i]; cbn [spec_step client_handler].
  - by destruct (a_recv a).
  - by destruct (a_recv a).
  - destruct (a_pending a !! i) as [d|] eqn:Hi; [|done].
    assert (delete i (a_pending a) ++ a_wire a ++ [d] ≡ₚ a_pending a ++ a_wire a) as Hperm.
    { rewrite (delete_Permutation _ _ _ Hi) at 2. cbn. rewrite app_assoc. symmetry.
      apply Permutation_cons_append. }
    unfold after_send. cbn. by rewrite Hperm.
  - destruct (a_pending a !! i) as [d|] eqn:Hi; [|done]. unfold after_send. cbn.
    rewrite (delete_Permutation _ _ _ Hi) in Hl, Hf. cbn in Hl, Hf.
    apply Forall_cons in Hf as [_ Hf]. split; [lia|done].
Qed.

(** The constructor, when chunk_size_ holds the size of the chunks. *)
Lemma make_udp_client_ok resolve host service e es :
  0 ≤ cs →
  resolve (String.string_of_list_ascii host) (String.string_of_list_ascii service) = Some (e :: es) →
  wp (make_udp_client resolve true (Some host) (Some service)) (λ _ c', client_ok before_send c')
     (Client.client_storage (Some cs) m0).
Proof.
  intros Hcs Hres. unfold make_udp_client. cbn [value]. apply wp_bind, wp_ret, wp_bind, wp_ret.
  eapply (wp_mono (@Client.Udp_client_ctor _ client_pool _ _ _ _)).
  { eapply (@ctor_follows _ client_pool client_pool_laws); [exact Hm0|exact Hres|lia]. }
  intros [] c' (s & a & Hs & Ha & ->). by exists s, (spec_start e).
Qed.

(** Printing does not matter. *)
Lemma client_prints P line c : client_ok P c → client_ok P (Client.set_out c (Client.hex c) (Client.out c ++ [line])).
Proof. intros (s & a & [] & Ha & Hp). exists s, a. split_and!; [by split|done|done]. Qed.

(** Main's send, with a buffer to spare. *)
Lemma send_data_ok c :
  (0 < N)%nat → 5 ≤ cs → client_ok before_send c → wp send_data (λ _ c', client_ok after_send c') c.
Proof.
  intros HN Hcs Hc.
  assert (wp (Client.step (EvApp five)) (λ _ c', client_ok after_send c') c) as Hstep.
  { eapply (@follows_step _ client_pool client_pool_laws); [done| |exact Hc].
    intros a (Hp & Hw & Hu). cbn [spec_step]. rewrite (proj2 (Nat.ltb_lt _ _)) by lia.
    unfold after_send. cbn. rewrite Hp, Hw. split; [cbn; lia|by repeat constructor]. }
  destruct (@follows_view _ client_pool _ _ _ _ Hc) as (a & (_ & _ & Hu) & _ & _ & n & l & Hrep & Hn).
  destruct n as [|n]; [lia|].
  destruct (proj1 (wp_run _ _ _) (bp_alloc_ok (H := client_pool) _ _ _ _ Hrep)) as (chunk & p' & Hrun & _).
  assert (Client.on_pool bp_alloc c = Ok chunk (Client.set_pool c p')) as Halloc.
  { unfold Client.on_pool. by rewrite Hrun. }
  unfold wp, send_data. rewrite (bind_Ok _ _ _ _ _ Halloc).
  unfold wp in Hstep. cbn [Client.step] in Hstep. unfold Client.app_send in Hstep.
  by rewrite Halloc in Hstep.
Qed.

(** The invariant of the program, by what main has still to do. *)
Definition running (prog l : list (action client)) (c : client) : Prop :=
  (c = Client.client_storage (Some cs) m0 ∧ ∃ k, (k ≤ 2)%nat ∧ l = drop k prog) ∨
  (client_ok before_send c ∧ ∃ k, (3 ≤ k ≤ 5)%nat ∧ l = drop k prog) ∨
  (client_ok after_send c ∧ ∃ k, (6 ≤ k)%nat ∧ l = drop k prog).

Lemma storage_event member e :
  app_step e (Client.client_storage member m0) = Ok tt (Client.client_storage member m0).
Proof. by destruct e. Qed.

Lemma running_event prog l c e : running prog l c → wp (app_step e) (λ _ c', running prog l c') c.
Proof.
  intros [[-> Hk]|[[Hc Hk]|[Hc Hk]]].
  - apply (wp_Ok _ _ _ tt _ (storage_event _ e)). by left.
  - eapply wp_mono; [apply client_event; [apply before_send_step|exact Hc]|].
    intros [] c' Hc'. right. by left.
  - eapply wp_mono; [apply client_event; [apply after_send_step|exact Hc]|].
    intros [] c' Hc'. right. by right.
Qed.

Lemma running_main resolve host service e es x l c :
  (0 < N)%nat → 5 ≤ cs →
  resolve (String.string_of_list_ascii host) (String.string_of_list_ascii service) = Some (e :: es) →
  let prog := unid_client_program resolve true (Some host) (Some service) in
  running prog (x :: l) c →
  match x with Call m => wp m (λ _ c', running prog l c') c | _ => running prog l c end.
Proof.
  intros HN Hcs Hres prog [[-> (k & Hk & Hl)]|[[Hc (k & Hk & Hl)]|[Hc (k & Hk & Hl)]]].
  - destruct k as [|[|[|]]]; [..|lia]; cbn in Hl; simplify_eq.
    + left. split; [done|]. by exists 1%nat; split; [lia|].
    + left. split; [done|]. by exists 2%nat; split; [lia|].
    + eapply wp_mono; [eapply make_udp_client_ok; [lia|exact Hres]|]. intros [] c' Hc'. right. left.
      split; [done|]. by exists 3%nat; split; [lia|].
  - destruct k as [|[|[|[|[|[|]]]]]]; [lia..| | | |lia]; cbn in Hl; simplify_eq.
    + apply wp_get_bind, wp_modify. right. left. split; [by apply client_prints|].
      by exists 4%nat; split; [lia|].
    + apply wp_get_bind, wp_modify. right. left. split; [by apply client_prints|].
      by exists 5%nat; split; [lia|].
    + eapply wp_mono; [by apply send_data_ok|]. intros [] c' Hc'. right. right.
      split; [done|]. by exists 6%nat; split; [lia|].
  - assert (k < 10)%nat as Hk10.
    { pose proof (f_equal length Hl) as Hlen. rewrite length_drop in Hlen. cbn in Hlen. lia. }
    assert (running prog (drop (S k) prog) c) as Hnext.
    { right. right. split; [done|]. exists (S k). split; [lia|done]. }
    assert (k = 6 ∨ k = 7 ∨ k = 8 ∨ k = 9)%nat as Hcase by lia.
    destruct_or! Hcase; subst k; cbn in Hl; simplify_eq; exact Hnext.
Qed.

(** What the program leaves: a pool in order, and at most the one datagram. *)
Lemma running_left prog l c :
  running prog l c →
  (∃ n l', @bp_rep _ client_pool (Client.mempool_ c) cs n l') ∧
  (length (Client.wire c) ≤ 1)%nat ∧ Forall (λ d, d.2 = five) (Client.wire c).
Proof.
  intros [[-> _]|[[Hc _]|[Hc _]]].
  - split_and!; [by eexists _, _|cbn; lia|constructor].
  - destruct (@follows_view _ client_pool _ _ _ _ Hc) as (a & (_ & Hw & _) & -> & _ & n & l' & Hp & _).
    rewrite Hw. split_and!; [by exists n, l'|cbn; lia|constructor].
  - destruct (@follows_view _ client_pool _ _ _ _ Hc) as (a & [Hl Hf] & -> & _ & n & l' & Hp & _).
    apply Forall_app in Hf as [_ Hf]. rewrite length_app in Hl.
    split_and!; [by exists n, l'|lia|done].
Qed.

(** How the construction fails as the program is written. *)
Definition client_failure (resolve : string → string → option (list endpoint)) (open_ok : bool)
    (host service : option chars) : status :=
  match host, service with
  | Some host, Some service =>
      match resolve (String.string_of_list_ascii host) (String.string_of_list_ascii service) with
      | Some (_ :: _) => if open_ok then SUndefined else STerminated
      | Some [] => SUndefined
      | None => STerminated
      end
  | _, _ => STerminated
  end.

Lemma make_udp_client_fails resolve open_ok host service :
  failure (Client.client_storage None m0) (make_udp_client resolve open_ok host service) =
  Some (client_failure resolve open_ok host service).
Proof.
  destruct host as [host|]; [destruct service as [service|]|]; [|done..].
  pose proof (@udp_client_ctor_uninitialised _ client_pool client_pool_laws resolve open_ok
    (String.string_of_list_ascii host) (String.string_of_list_ascii service) m0 cs (S N) [] Hm0) as Hc.
  cbn zeta in Hc. unfold client_failure.
  change (match @Client.Udp_client_ctor _ client_pool resolve open_ok (String.string_of_list_ascii host)
            (String.string_of_list_ascii service) (Client.raw_client m0) with
          | Ok _ _ => None | Throw _ _ => Some STerminated | _ => Some SUndefined end =
          Some match resolve (String.string_of_list_ascii host) (String.string_of_list_ascii service) with
          | Some (_ :: _) => if open_ok then SUndefined else STerminated
          | Some [] => SUndefined
          | None => STerminated
          end).
  destruct (resolve _ _) as [[|e es]|]; [|destruct open_ok; [|destruct Hc as [c Hc]]|]; by rewrite Hc.
Qed.
End proof.

Section life_props.
Context `{Toml} `{AllocatorLaws}.
Context (as_string : option node → option chars) (as_size : option node → option Z).

(** main, once the configuration has been read. *)
Lemma client_life_run config resolve open_ok h ps cs member ts fuel :
  as_size (at_path (config_ config) "network.mempool.pool_size") = Some ps →
  as_size (at_path (config_ config) "network.mempool.chunk_size") = Some cs →
  client_life as_string as_size fuel config resolve open_ok member ts h =
  match Mempool_ctor ps cs h with
  | Ok mempool h' =>
      let s := prun false ts (pinit (Client.client_storage member (MState mempool h'))
                 (unid_client_program resolve open_ok
                    (as_string (at_path (config_ config) "network.client.host"))
                    (as_string (at_path (config_ config) "network.client.service")))) in
      match stat s with
      | SReturned =>
          match Mempool_dtor fuel (Client.mempool_ (app s)) with
          | Ok _ m => Ok (SReturned, Client.wire (app s)) (hp m)
          | Throw e _ => Throw e h'
          | UB u => UB u
          | OutOfFuel => OutOfFuel
          end
      | st => Ok (st, Client.wire (app s)) (hp (Client.mempool_ (app s)))
      end
  | Throw e h' => Throw e h'
  | UB u => UB u
  | OutOfFuel => OutOfFuel
  end.
Proof.
  intros Hp Hc. unfold client_life. do 4 rewrite !bind_run, !lift_get_as.
  rewrite Hp, Hc. cbn [value]. do 2 rewrite !bind_run, !ret_run. rewrite bind_run.
  destruct (Mempool_ctor ps cs h) as [this h'|e h'| |]; [|done..]. rewrite get_bind. cbn zeta.
  destruct (stat _); try done. by destruct (Mempool_dtor _ _).
Qed.

(** If chunk_size_ held the size of the chunks, and main and the handlers did take turns: with two
    chunks or more, of five bytes or more, main would return whatever arrives and whatever fails,
    at most one datagram would have left, with the five bytes, and every block of memory would be
    given back. *)
Lemma client_life_member_set config resolve h host service ps cs rounds fuel e es :
  heap_wf h → 1 < ps < 2 ^ 64 → 5 ≤ cs ≤ 2 ^ 64 - 8 → ps * ALIGN2BOUNDARY cs sizeof_ptr < 2 ^ 64 →
  as_string (at_path (config_ config) "network.client.host") = Some host →
  as_string (at_path (config_ config) "network.client.service") = Some service →
  as_size (at_path (config_ config) "network.mempool.pool_size") = Some ps →
  as_size (at_path (config_ config) "network.mempool.chunk_size") = Some cs →
  resolve (String.string_of_list_ascii host) (String.string_of_list_ascii service) = Some (e :: es) →
  Forall fair_round rounds → (21 < length rounds)%nat → (1 < fuel)%nat →
  match client_life as_string as_size fuel config resolve true (Some cs) (concat rounds) h with
  | Ok (st, w) h' => st = SReturned ∧ (length w ≤ 1)%nat ∧ Forall (λ d, d.2 = five) w ∧
                     blocks h' = blocks h ∧ preserves h h'
  | Throw ex h' => ex = init_failed ∧ blocks h' = blocks h ∧ preserves h h'
  | _ => False
  end.
Proof.
  intros Hwf Hps Hcs Hfit Hho Hsv Hp Hc Hres Hf Hlen Hfuel.
  pose proof (life_pool_made h ps cs Hwf ltac:(lia) ltac:(lia) Hfit) as Hm0.
  rewrite (client_life_run config resolve true h ps cs), Hho, Hsv by done.
  destruct (Mempool_ctor ps cs h) as [this h'|ex h'| |]; [|done..]. cbn zeta.
  set (m0 := MState this h') in *.
  set (prog := unid_client_program resolve true (Some host) (Some service)).
  assert (running h cs (pred (Z.to_nat ps)) m0 prog prog (Client.client_storage (Some cs) m0)) as Hstart.
  { left. split; [done|]. exists 0%nat. split; [lia|done]. }
  pose proof (λ x l c, running_main h cs (pred (Z.to_nat ps)) m0 Hm0 resolve host service e es x l c
    ltac:(lia) (proj1 Hcs) Hres) as Hmain.
  pose proof (running_event h cs (pred (Z.to_nat ps)) m0 prog) as Hev.
  rewrite (stopping_program_returns false _ Hev Hmain prog _ rounds Hstart eq_refl Hf Hlen).
  destruct (program_keeps false _ Hev Hmain (concat rounds) (pinit (Client.client_storage (Some cs) m0) prog))
    as [l Hend]; [by exists prog|].
  destruct (running_left h cs _ m0 Hm0 prog l _ Hend) as ((n & l' & Hrep) & Hw1 & Hw2).
  destruct (proj1 (wp_run _ _ _) (life_dtor h cs _ n l' fuel Hrep Hfuel)) as ([] & m & Hrun & Hbl & Hpr).
  by rewrite Hrun.
Qed.

(** C13: the client program, with a configuration that has the sizes of the pool, within the address
    space, never gets as far as sending, in any schedule in which main keeps getting turns.  With
    the server's address found and the socket open, the constructor of Udp_client reads
    chunk_size_, which has no value; an empty list of addresses is dereferenced.  With the host or
    the service missing from the configuration, the address not found or the socket refused, the
    exception leaves main while the thread is running, which is std::terminate and not an error
    message.  If the pool's memory is refused, main throws at once, with nothing left allocated. *)
Theorem client_life_correct config resolve open_ok h ps cs rounds fuel :
  heap_wf h → 0 < ps < 2 ^ 64 → 0 < cs ≤ 2 ^ 64 - 8 → ps * ALIGN2BOUNDARY cs sizeof_ptr < 2 ^ 64 →
  as_size (at_path (config_ config) "network.mempool.pool_size") = Some ps →
  as_size (at_path (config_ config) "network.mempool.chunk_size") = Some cs →
  Forall (λ ts, TMain ∈ ts) rounds → (21 < length rounds)%nat →
  match client_life as_string as_size fuel config resolve open_ok None (concat rounds) h with
  | Ok (st, _) _ => st = client_failure resolve open_ok
                           (as_string (at_path (config_ config) "network.client.host"))
                           (as_string (at_path (config_ config) "network.client.service"))
  | Throw e h' => e = init_failed ∧ blocks h' = blocks h ∧ preserves h h'
  | _ => False
  end.
Proof.
  intros Hwf Hps Hcs Hfit Hp Hc Hf Hlen.
  pose proof (life_pool_made h ps cs Hwf Hps Hcs Hfit) as Hm0.
  rewrite (client_life_run config resolve open_ok h ps cs) by done.
  destruct (Mempool_ctor ps cs h) as [this h'|e h'| |]; [|done..]. cbn zeta.
  set (host := as_string (at_path _ "network.client.host")).
  set (service := as_string (at_path _ "network.client.service")).
  assert (stat (prun false (concat rounds) (pinit (Client.client_storage None (MState this h'))
    (unid_client_program resolve open_ok host service))) =
    client_failure resolve open_ok host service) as Hst.
  { eapply failing_program_ends; [apply storage_event|by eapply make_udp_client_fails|done|cbn; lia]. }
  rewrite Hst. unfold client_failure.
  by destruct host, service; [destruct (resolve _ _) as [[|? ?]|]; [|destruct open_ok|]|..].
Qed.
End life_props.

(** ** Witness *)

Definition client_config : @Config main_toml :=
  @MkConfig main_toml [("network.client.host"%string, inl (text "localhost"));
                       ("network.client.service"%string, inl (text "8080"));
                       ("network.mempool.pool_size"%string, inr 3);
                       ("network.mempool.chunk_size"%string, inr 20)].

Definition client_rounds : list (list (turn client_net)) :=
  replicate 12 [TNet (CReceived (2130706433, 8080) [9]); TMain; TNet (CSent 0); TRet] ++
  replicate 12 [TNet CReceiveError; TRet; TMain].

Lemma client_rounds_fair : Forall fair_round client_rounds.
Proof.
  apply Forall_app_2; apply Forall_replicate; split; apply list_elem_of_In; cbn; auto 10.
Qed.

Lemma client_rounds_main : Forall (λ ts, TMain ∈ ts) client_rounds.
Proof. eapply Forall_impl; [exact client_rounds_fair|]. by intros ts [? _]. Qed.

(** The server is found: undefined.  It is not: terminated. *)
Lemma client_life_correct_witness :
  (∃ w h', @client_life main_toml demo_alloc main_string main_size 2 client_config demo_resolve true
     None (concat client_rounds) empty_heap = Ok (SUndefined, w) h') ∧
  (∃ w h', @client_life main_toml demo_alloc main_string main_size 2 client_config (λ _ _, None) true
     None (concat client_rounds) empty_heap = Ok (STerminated, w) h').
Proof.
  pose proof (λ resolve, @client_life_correct main_toml demo_alloc (bump_laws 4096) main_string main_size
    client_config resolve true empty_heap 3 20 client_rounds 2
    empty_heap_wf ltac:(lia) ltac:(lia) ltac:(vm_compute; reflexivity) eq_refl eq_refl
    client_rounds_main ltac:(cbn; lia)) as Hlife.
  split.
  - specialize (Hlife demo_resolve).
    destruct (client_life _ _ _ _ _ _ None _ _) as [[st w] h'| | |] eqn:Hrun in Hlife |- *.
    + exists w, h'. rewrite Hlife. reflexivity.
    + exfalso. revert Hrun. vm_compute. discriminate.
    + destruct Hlife.
    + destruct Hlife.
  - specialize (Hlife (λ _ _, None)).
    destruct (client_life _ _ _ _ _ _ None _ _) as [[st w] h'| | |] eqn:Hrun in Hlife |- *.
    + exists w, h'. rewrite Hlife. reflexivity.
    + exfalso. revert Hrun. vm_compute. discriminate.
    + destruct Hlife.
    + destruct Hlife.
Defined.

(** With the member set, in the same schedule: the datagram leaves, and nothing is left allocated. *)
Example client_life_member_set_run :
  match @client_life main_toml demo_alloc main_string main_size 2 client_config demo_resolve true
     (Some 20) (concat client_rounds) empty_heap with
  | Ok (st, w) h' => st = SReturned ∧ w = [((2130706433, 8080), five)] ∧ map_to_list (blocks h') = []
  | _ => False
  end.
Proof. vm_compute. split_and!; reflexivity. Qed.

(** What a chance value in chunk_size_ can do: here the member holds 100, and the chunks have 24
    bytes.  A datagram of 32 bytes runs over into the next chunk, which is free, and its last
    eight bytes become that chunk's link; two allocations later the pool hands out the address
    that the sender of the datagram chose. *)
Example chance_chunk_size_overflow :
  match Client.Udp_client_ctor demo_resolve true "localhost" "8080"
          (Client.client_storage (Some 100) demo_mstate) with
  | Ok _ c => Client.run [EvReceived (167772161, 53) (replicate 24 0 ++ le_bytes 8 4702111234474983745);
                          EvApp [1]; EvApp [2]] c = UB (ub_access 4702111234474983745)
  | _ => False
  end.
Proof. vm_compute. reflexivity. Qed.
