(* ===== verification/UdpNet.v ===== *)
(** Class Udp_server and any number of objects of class Udp_client, each over a pool of its own, on
    one network: a datagram that has left may arrive late, out of order, several times or not at
    all.  Since both classes refine the abstract server of [UdpServerSpec], what happens on the
    network is proved of abstract servers and carried over to the classes.

    The constructor of Udp_client reads its member chunk_size_ without having set it, so each
    client comes with the value its storage held there, which decides how much of a datagram it
    takes.  [Outside] and [OutsideServer] are datagrams from elsewhere: nothing in the classes
    keeps them away, and they change where the receiver sends. *)

From S2P Require Import Prelude Bytes CMem LibpoolDec LibpoolClient BufferPool Mempool.
From S2P Require Import MempoolProps Format UdpServer UdpServerSpec UdpServerProps.
From S2P Require Import UdpClient UdpClientProps.
Local Open Scope Z_scope.

(** A handler that asio runs without a datagram from the network. *)
Inductive completion : Type := Sent (j : nat) | SendError (j : nat) | ReceiveError.

Definition completion_event (e : completion) : event :=
  match e with Sent j => EvSent j | SendError j => EvSendError j | ReceiveError => EvReceiveError end.

Inductive unet_event : Type :=
| ServerSends (bs : list Z)                     (* the server's application *)
| ClientSends (i : nat) (bs : list Z)           (* client i's application *)
| AtServer (e : completion)
| AtClient (i : nat) (e : completion)
| ToServer (i k : nat)                          (* client i's k-th datagram arrives *)
| ToClient (i k : nat)                          (* the server's k-th datagram arrives at client i *)
| Outside (i : nat) (from : endpoint) (bs : list Z)          (* from elsewhere to client i *)
| OutsideServer (from : endpoint) (bs : list Z).             (* and to the server *)

Section network.
Context {St : Type} `{BufferPool St}.

(** A process, and what its application gave it to send. *)
Record unet := UNet {
  srv : Udp_server (St := St);
  srv_given : list (list Z);
  clients : list (Client.Udp_client (St := St) * list (list Z))
}.

Context (saddr : endpoint) (addr : nat → endpoint).   (* the addresses of the sockets *)

Definition on_srv (g : list (list Z)) (e : event) : M unet unit := λ s,
  let back v := UNet v (srv_given s ++ g) (clients s) in
  match step e (srv s) with
  | Ok _ v => Ok tt (back v)
  | Throw x v => Throw x (back v)
  | UB u => UB u
  | OutOfFuel => OutOfFuel
  end.

Definition on_cl (i : nat) (g : list (list Z)) (e : event) : M unet unit := λ s,
  match clients s !! i with
  | None => Ok tt s
  | Some (c, given) =>
      let back c' := UNet (srv s) (srv_given s) (<[i:=(c', given ++ g)]> (clients s)) in
      match Client.step e c with
      | Ok _ c' => Ok tt (back c')
      | Throw x c' => Throw x (back c')
      | UB u => UB u
      | OutOfFuel => OutOfFuel
      end
  end.

Definition unet_step (e : unet_event) : M unet unit :=
  s ← get;
  match e with
  | ServerSends bs => on_srv [bs] (EvApp bs)
  | ClientSends i bs => on_cl i [bs] (EvApp bs)
  | AtServer e => on_srv [] (completion_event e)
  | AtClient i e => on_cl i [] (completion_event e)
  | ToServer i k =>
      match c ← clients s !! i; Client.wire c.1 !! k with
      | Some (to, bs) =>
          if bool_decide (to = saddr) then on_srv [] (EvReceived (addr i) bs) else mret tt
      | None => mret tt
      end
  | ToClient i k =>
      match wire (srv s) !! k with
      | Some (to, bs) =>
          if bool_decide (to = addr i) then on_cl i [] (EvReceived saddr bs) else mret tt
      | None => mret tt
      end
  | Outside i from bs => on_cl i [] (EvReceived from bs)
  | OutsideServer from bs => on_srv [] (EvReceived from bs)
  end.

Fixpoint unet_run (es : list unet_event) : M unet unit :=
  match es with
  | [] => mret tt
  | e :: es' => unet_step e;; unet_run es'
  end.
End network.
Arguments unet St : clear implicits.

(** ** Abstract servers *)

(** An abstract server that sends only to [D] only what is in [G], and prints only [L]. *)
Record keeps (D : endpoint → Prop) (G : list Z → Prop) (L : chars → Prop) (a : aserver) : Prop := {
  k_remote : D (a_remote a);
  k_pending : Forall (λ d, D d.1 ∧ G d.2) (a_pending a);
  k_wire : Forall (λ d, D d.1 ∧ G d.2) (a_wire a);
  k_out : Forall L (a_out a)
}.

Lemma keeps_mono (D D' : endpoint → Prop) (G G' : list Z → Prop) (L L' : chars → Prop) a :
  (∀ d, D d → D' d) → (∀ b, G b → G' b) → (∀ l, L l → L' l) → keeps D G L a → keeps D' G' L' a.
Proof.
  intros HD HG HL [Hr Hp Hw Ho]. split; [auto|eapply Forall_impl; [done|]..]; naive_solver.
Qed.

(** What an event has to bring for that. *)
Definition event_keeps (sz : Z) (D : endpoint → Prop) (G : list Z → Prop) (L : chars → Prop) (e : event) : Prop :=
  match e with
  | EvReceived from bs => D from ∧ ∀ hx, Forall L (receive_report hx (take (Z.to_nat sz) bs))
  | EvApp bs => G bs
  | EvSent _ => L (text "async_send() complete")
  | _ => True
  end.

Lemma keeps_step sz N D G L e a :
  event_keeps sz D G L e → keeps D G L a → keeps D G L (spec_step sz N e a).
Proof.
  intros He Ha. pose proof Ha as [Hr Hp Hw Ho]. destruct e as [from bs| |bs|i|i]; cbn in He |- *.
  - destruct (a_recv a); [|done]. split; cbn; [apply He|done|done|].
    apply Forall_app_2; [done|apply He].
  - destruct (a_recv a); [by split|done].
  - case_match; [|done]. split; cbn; [done| |done|done]. apply Forall_app_2; [done|]. by repeat constructor.
  - destruct (a_pending a !! i) as [d|] eqn:Hi; [|done]. split; cbn; [done|by apply Forall_delete| |].
    + apply Forall_app_2; [done|]. constructor; [by eapply (Forall_lookup_1 _ _ _ _ Hp)|constructor].
    + apply Forall_app_2; [done|]. by repeat constructor.
  - destruct (a_pending a !! i) as [d|] eqn:Hi; [|done]. split; cbn; [done|by apply Forall_delete|done|done].
Qed.

(** ** The network *)

Section proof.
Context {St : Type} `{BufferPoolLaws St}.
Context (saddr local : endpoint) (addr : nat → endpoint).
Context (szs szc : Z) (Ns Nc : nat).       (* the pools of the server and of the clients *)
Context (foreign : endpoint → list Z → Prop).   (* the datagrams that come from elsewhere *)

(** The line printed for a datagram that has left, or one of those for a message of a client or
    for a datagram from elsewhere. *)
Definition server_line (gs : list (list (list Z))) (line : chars) : Prop :=
  line = text "async_send() complete" ∨
  ∃ m hx, ((∃ i g, gs !! i = Some g ∧ m ∈ g) ∨ ∃ from, foreign from m) ∧
          line ∈ receive_report hx (take (Z.to_nat szs) m).

(** The server's own address, one of its clients, or the source of a datagram from elsewhere. *)
Definition known_peer (n : nat) (d : endpoint) : Prop :=
  d = local ∨ (∃ i, (i < n)%nat ∧ d = addr i) ∨ ∃ bs, foreign d bs.

(** The server, or the source of a datagram from elsewhere. *)
Definition client_peer (d : endpoint) : Prop := d = saddr ∨ ∃ bs, foreign d bs.

Abbreviation client_keeps g := (keeps client_peer (λ b, b ∈ g) (λ _, True)).
Abbreviation server_keeps sg gs :=
  (keeps (known_peer (length gs)) (λ b, b ∈ sg) (server_line gs)).

Record unet_ok (s : unet St) : Prop := {
  uk_clients i c g : clients s !! i = Some (c, g) → ∃ v, follows (Sizes szc v) Nc (client_keeps g) c;
  uk_server : ∃ a, rep szs Ns (srv s) a ∧ server_keeps (srv_given s) (clients s).*2 a
}.

(** Applications send what fits a chunk. *)
Definition unet_event_ok (e : unet_event) : Prop :=
  match e with
  | ServerSends bs => Z.of_nat (length bs) ≤ szs
  | ClientSends _ bs => Z.of_nat (length bs) ≤ szc
  | Outside _ from bs | OutsideServer from bs => foreign from bs
  | _ => True
  end.

Lemma on_srv_ok g e s :
  event_ok szs e →
  event_keeps szs (known_peer (length (clients s).*2)) (λ b, b ∈ srv_given s ++ g)
    (server_line (clients s).*2) e →
  unet_ok s → wp (on_srv g e) (λ _ s', unet_ok s') s.
Proof.
  intros He Hk [Hc (a & Ha & Hka)]. pose proof (rep_step szs Ns _ _ e Ha He) as Hstep.
  unfold wp, on_srv in *. destruct (step e (srv s)) as [[] v| | |]; [|done..].
  split; [exact Hc|]. eexists. split; [exact Hstep|]. apply keeps_step; [exact Hk|].
  eapply keeps_mono; [..|exact Hka]; [done| |done]. intros b ?. apply elem_of_app. by left.
Qed.

Lemma server_line_grows gs i g g' line :
  gs !! i = Some g → server_line gs line → server_line (<[i:=g ++ g']> gs) line.
Proof.
  intros Hi [->|(m & hx & Hm & Hl)]; [by left|right]. exists m, hx. split; [|done].
  destruct Hm as [(j & gj & Hj & Hm)|?]; [left|by right]. destruct (decide (i = j)) as [<-|Hne].
  - exists i, (g ++ g'). rewrite list_lookup_insert_eq by (by eapply lookup_lt_Some).
    simplify_eq. split; [done|]. apply elem_of_app. by left.
  - exists j, gj. by rewrite list_lookup_insert_ne.
Qed.

Lemma on_cl_ok i g e s :
  event_ok szc e →
  (∀ v c gi, clients s !! i = Some (c, gi) →
    event_keeps v client_peer (λ b, b ∈ gi ++ g) (λ _, True) e) →
  unet_ok s → wp (on_cl i g e) (λ _ s', unet_ok s') s.
Proof.
  intros He Hk [Hc (a & Ha & Hka)]. unfold wp, on_cl.
  destruct (clients s !! i) as [[c gi]|] eqn:Hi; [|by split; [|exists a]].
  destruct (Hc i c gi Hi) as (v & Hf).
  pose proof (follows_step (Sizes szc v) Nc _ (client_keeps (gi ++ g)) c e He
    (λ a Ha, keeps_step v Nc _ _ _ e a (Hk v c gi eq_refl)
       (keeps_mono _ _ _ _ _ _ a (λ d Hd, Hd) (λ b Hb, proj2 (elem_of_app _ _ b) (or_introl Hb)) (λ l Hl, Hl) Ha))
    Hf) as Hstep.
  unfold wp in Hstep. destruct (Client.step e c) as [[] c'| | |]; [|done..].
  assert ((clients s).*2 !! i = Some gi) as Hg by (by rewrite list_lookup_fmap, Hi).
  split; cbn [clients srv srv_given].
  - intros j cj gj Hj. destruct (decide (i = j)) as [<-|Hne].
    + rewrite list_lookup_insert_eq in Hj by (by eapply lookup_lt_Some). simplify_eq. by exists v.
    + rewrite list_lookup_insert_ne in Hj by done. by apply (Hc j).
  - exists a. split; [done|]. rewrite list_fmap_insert. cbn [snd].
    eapply keeps_mono; [..|exact Hka].
    + intros d. by rewrite length_insert.
    + done.
    + intros line. by apply server_line_grows.
Qed.

Lemma unet_step_ok s e : unet_event_ok e → unet_ok s → wp (unet_step saddr addr e) (λ _ s', unet_ok s') s.
Proof.
  intros Hin Hs. pose proof Hs as [Hc (a & Ha & Hka)]. unfold unet_step. apply wp_get_bind.
  destruct e as [bs|i bs|e|i e|i k|i k|i from bs|from bs]; cbn in Hin.
  - apply on_srv_ok; [done| |done]. cbn. apply elem_of_app. right. by apply list_elem_of_singleton.
  - apply on_cl_ok; [done| |done]. intros v c gi Hi. cbn. apply elem_of_app. right. by apply list_elem_of_singleton.
  - apply on_srv_ok; [by destruct e| |done]. destruct e; cbn; [by left|done|done].
  - apply on_cl_ok; [by destruct e| |done]. by destruct e.
  - destruct (clients s !! i ≫= _) as [[to bs]|] eqn:Hk; [|by apply wp_ret].
    apply bind_Some in Hk as ([c g] & Hi & Hk). cbn in Hk. case_bool_decide; [|by apply wp_ret].
    destruct (Hc i c g Hi) as (v & Hf). destruct (follows_view _ _ _ _ Hf) as (ac & [_ _ Hw _] & Hwire & _).
    rewrite Hwire in Hk. destruct (Forall_lookup_1 _ _ _ _ Hw Hk) as [_ Hbs]. cbn in Hbs.
    assert ((clients s).*2 !! i = Some g) as Hg by (by rewrite list_lookup_fmap, Hi).
    apply on_srv_ok; [done| |done]. split.
    + right. left. exists i. split; [by eapply lookup_lt_Some|done].
    + intros hx. apply Forall_forall. intros line Hl. right. exists bs, hx. split; [|done]. left. by exists i, g.
  - destruct (wire (srv s) !! k) as [[to bs]|] eqn:Hk; [|by apply wp_ret].
    case_bool_decide; [|by apply wp_ret]. apply on_cl_ok; [done| |done]. intros v c gi Hi. split; [by left|].
    intros hx. by apply Forall_true.
  - apply on_cl_ok; [done| |done]. intros v c gi Hi. split; [right; by exists bs|].
    intros hx. by apply Forall_true.
  - apply on_srv_ok; [done| |done]. split; [right; right; by exists bs|].
    intros hx. apply Forall_forall. intros line Hl. right. exists bs, hx. split; [|done]. right. by exists from.
Qed.

Lemma unet_run_ok es : ∀ s,
  Forall unet_event_ok es → unet_ok s → wp (unet_run saddr addr es) (λ _ s', unet_ok s') s.
Proof.
  induction es as [|e es IH]; intros s Hin Hs; cbn [unet_run]; [by apply wp_ret|].
  apply Forall_cons in Hin as [He Hin].
  apply wp_bind. apply (wp_mono _ (λ _ s', unet_ok s')); [by apply unet_step_ok|].
  intros [] s'. by apply IH.
Qed.
End proof.

(** ** Properties *)

Section start.
Context {St : Type} `{BufferPool St}.

(** The processes as their constructors leave them: each client is built in storage that holds a
    value in the place of chunk_size_. *)
Definition started (local : endpoint) (resolve : string → string → option (list endpoint))
    (host service : string) (p : St) (pcs : list (St * Z)) (s : unet St) : Prop :=
  Udp_server_ctor local (raw_server p) = Ok tt (srv s) ∧ srv_given s = [] ∧
  Forall2 (λ pc cg, Client.Udp_client_ctor resolve true host service
                      (Client.client_storage (Some pc.2) pc.1) = Ok tt cg.1 ∧ cg.2 = [])
    pcs (clients s).
End start.

Section props.
Context {St : Type} `{BufferPoolLaws St}.

(** A client's pool, and a value of chunk_size_ with which its receives stay within a chunk. *)
Definition client_setup (szc : Z) (Nc : nat) (pc : St * Z) : Prop :=
  bp_rep pc.1 szc (S Nc) [] ∧ 0 ≤ pc.2 ≤ szc.

Lemma started_ok saddr local addr foreign resolve host service szs szc Ns Nc p pcs l :
  bp_rep p szs (S Ns) [] → Forall (client_setup szc Nc) pcs →
  resolve host service = Some (saddr :: l) →
  ∃ s, started local resolve host service p pcs s ∧
       unet_ok saddr local addr szs szc (S Ns) (S Nc) foreign s.
Proof.
  intros Hp Hpcs Hres.
  destruct (ctor_inv szs Ns local p Hp) as (v & c & Hv & Hi & Hc & Hrem & Hout & Hhex & Hw).
  assert (∃ cs, Forall2 (λ pc cg, Client.Udp_client_ctor resolve true host service
      (Client.client_storage (Some pc.2) pc.1) = Ok tt cg.1 ∧ cg.2 = []) pcs cs ∧
    ∀ i c g, cs !! i = Some (c, g) → ∃ v,
      follows (Sizes szc v) (S Nc) (keeps (client_peer saddr foreign) (λ b, b ∈ g) (λ _, True)) c)
    as (cs & Hcs & Hok).
  { induction Hpcs as [|[pc w] pcs [Hpc Hw'] _ (cs & Hcs & Hok)]; [by exists []|].
    destruct (proj1 (wp_run _ _ _) (ctor_follows resolve host service pc szc w Nc saddr l Hpc Hres Hw'))
      as ([] & c1 & Hc1 & s1 & a1 & Hs1 & Ha1 & ->).
    exists ((c1, []) :: cs). split; [by constructor|]. intros [|i] c2 g2 Hi2; [|by apply (Hok i)].
    simplify_eq/=. exists w, s1, (spec_start saddr). split_and!; [done|done|]. split; cbn; [by left|constructor..]. }
  exists (UNet v [] cs). split; [by split_and!|]. split; [exact Hok|].
  exists (abstraction v [] []). split; [by eexists _, _, _, _; apply refines_abstraction|].
  unfold abstraction. rewrite Hrem, Hw, Hout, (Forall2_nil_inv_r _ _ (si_send _ _ _ _ _ _ _ Hi)).
  split; cbn; [by left|constructor..].
Qed.

(** C11: a Udp_server and any number of Udp_clients, each over a pool of its own, on a network
    that may lose, delay, reorder and duplicate datagrams and bring others from elsewhere.  The
    constructor of a client is undefined when its member chunk_size_ has no value, since it reads
    it and never sets it; the clients here are built in storage that holds some value there, up
    to the size of a chunk.  Then, whatever the applications send (each message fits a chunk),
    whatever operations fail and in whatever order the handlers run, nothing is undefined and no
    exception leaves a handler; every client sends only what its own application gave it, and
    only to the server or to where a datagram from elsewhere came from; the server sends only what
    its application gave it, to its clients, to its own address (before the first datagram) or to
    where a datagram from elsewhere came from; and every line it prints reports a send, a message
    that a client was given, or a datagram from elsewhere.  Without datagrams from elsewhere, so,
    every client goes on sending to the server. *)
Theorem udp_network_sound saddr local addr foreign resolve host service szs szc Ns Nc p pcs l es :
  bp_rep p szs (S Ns) [] → Forall (client_setup szc Nc) pcs →
  resolve host service = Some (saddr :: l) → Forall (unet_event_ok szs szc foreign) es →
  Forall (λ pc, Client.Udp_client_ctor resolve true host service (Client.client_storage None pc.1) =
                  UB ub_uninitialised) pcs ∧
  ∃ s0, started local resolve host service p pcs s0 ∧
    wp (unet_run saddr addr es) (λ _ s,
      (∀ i c g, clients s !! i = Some (c, g) →
         (∃ d, client_peer saddr foreign d ∧
               Client.get_remote_address c = show_address d.1 ∧ Client.get_remote_port c = d.2) ∧
         Forall (λ d, client_peer saddr foreign d.1 ∧ d.2 ∈ g) (Client.wire c)) ∧
      Forall (λ d, known_peer local addr foreign (length (clients s)) d.1 ∧ d.2 ∈ srv_given s) (wire (srv s)) ∧
      Forall (server_line szs foreign (clients s).*2) (out (srv s))) s0.
Proof.
  intros Hp Hpcs Hres Hes. split.
  { eapply Forall_impl; [exact Hpcs|]. intros pc [Hpc _]. by eapply ctor_undefined. }
  destruct (started_ok saddr local addr foreign resolve host service szs szc Ns Nc p pcs l Hp Hpcs Hres)
    as (s0 & Hs0 & Hok).
  exists s0. split; [done|].
  eapply wp_mono; [by apply (unet_run_ok saddr local addr szs szc (S Ns) (S Nc) foreign es)|].
  intros [] s [Hc (a & (n & rl & sl & ll & Hf) & [_ _ Hw Ho])]. split_and!.
  - intros i c g Hi. destruct (Hc i c g Hi) as (v & Hfc).
    destruct (follows_view _ _ _ _ Hfc) as (ac & [Hr _ Hwc _] & -> & Hrem & _).
    unfold Client.get_remote_address, Client.get_remote_port. rewrite Hrem. eauto.
  - rewrite (rf_wire _ _ _ _ _ _ _ _ Hf). by rewrite length_fmap in Hw.
  - by rewrite (rf_out _ _ _ _ _ _ _ _ Hf).
Qed.
End props.

(** ** Witness, over class Mempool *)

Definition net_resolve (host service : string) : option (list endpoint) := Some [(2130706433, 8080)].
Definition net_address (i : nat) : endpoint := (2130706433, 9000 + Z.of_nat i).

(** Two clients send, the first one's datagram arrives twice and is answered, the answer arrives. *)
Definition unet_demo : list unet_event :=
  [ClientSends 0 [1; 2]; ClientSends 1 [3]; AtClient 0 (Sent 0); AtClient 1 (SendError 0);
   ToServer 0 0; ToServer 0 0; ServerSends [7]; AtServer (Sent 0); ToClient 1 0; ToClient 0 0;
   ClientSends 0 [4]; AtClient 0 (Sent 0)].

(** Of the two clients the first one has 20 in its chunk_size_, the second one 0. *)
Lemma udp_network_sound_witness :
  ∃ s0, started (0, 8080) net_resolve "localhost" "8080" demo_mstate [(demo_mstate, 20); (demo_mstate, 0)] s0 ∧
    wp (unet_run (2130706433, 8080) net_address unet_demo) (λ _ s,
      (∀ i c g, clients s !! i = Some (c, g) → Client.get_remote_port c = 8080) ∧
      Forall (λ d, d.2 ∈ srv_given s) (wire (srv s))) s0.
Proof.
  destruct (udp_network_sound (2130706433, 8080) (0, 8080) net_address (λ _ _, False) net_resolve "localhost" "8080"
    20 20 2 2 demo_mstate [(demo_mstate, 20); (demo_mstate, 0)] [] unet_demo demo_buffers) as (_ & s0 & Hs0 & Hrun).
  - repeat constructor; cbn; try lia; exact demo_buffers.
  - reflexivity.
  - repeat constructor; cbn; lia.
  - exists s0. split; [exact Hs0|]. eapply wp_mono; [exact Hrun|]. intros [] s (Hc & Hw & _). split.
    + intros i c g Hi. destruct (Hc i c g Hi) as [(d & [->|[? []]] & _ & Hp) _]. exact Hp.
    + eapply Forall_impl; [exact Hw|]. by intros d [_ ?].
Defined.

(** The wires of the clients and of the server after a run, over two pools of class Mempool. *)
Definition unet_wires (es : list unet_event) :
    option (list (list (endpoint * list Z)) * list (endpoint * list Z)) :=
  match Udp_server_ctor (0, 8080) (raw_server demo_mstate),
        Client.Udp_client_ctor net_resolve true "localhost" "8080"
          (Client.client_storage (Some 20) demo_mstate) with
  | Ok _ v, Ok _ c =>
      match unet_run (2130706433, 8080) net_address es (UNet v [] [(c, []); (c, [])]) with
      | Ok _ s => Some (Client.wire <$> (clients s).*1, wire (srv s))
      | _ => None
      end
  | _, _ => None
  end.

Example unet_demo_wires :
  unet_wires unet_demo =
  Some ([[((2130706433, 8080), [1; 2]); ((2130706433, 8080), [4])]; []], [(net_address 0, [7])]).
Proof. vm_compute. reflexivity. Qed.

(** A stranger's datagram, and what the first client sends next goes to the stranger. *)
Example outsider_redirects :
  unet_wires [Outside 0 (167772161, 53) [0]; ClientSends 0 [1; 2]; AtClient 0 (Sent 0)] =
  Some ([[((167772161, 53), [1; 2])]; []], []).
Proof. vm_compute. reflexivity. Qed.
