(* ===== verification/RingMain.v ===== *)
(** main of src/spike/ipc_ringbuffer.cpp with pinThread: the two processors are taken from the command
    line, each thread is pinned to its own, and the benchmark runs.

    The system's part is [setaffinity]: what pthread_setaffinity_np returns for a processor, which
    is documented to be 0 or the (positive) number of an error.  CPU_SET ignores a processor
    beyond the size of the set. *)

From S2P Require Import Prelude Fair Format Utility Ring RingBuffer RingBufferProps RingBench Main.
Local Open Scope Z_scope.

Section main.
Context (setaffinity : Z → Z).

(** perror and exit(1) end the program, as an exception nobody catches. *)
Definition pinThread (cpu : Z) : M unit unit :=
  if cpu <? 0 then mret tt
  else if setaffinity cpu =? -1 then throw (system_error "pthread_setaffinity_no")
  else mret tt.

(** argv[1] and argv[2] when there are just two arguments. *)
Definition cpus (args : list chars) : M unit (Z * Z) :=
  match args with
  | [a1; a2] => cpu1 ← stoi a1; cpu2 ← stoi a2; mret (cpu1, cpu2)
  | _ => mret (-1, -1)
  end.

(** bench<ringbuffer>(cpu1, cpu2): the consumer's thread pins itself first, then main's. *)
Definition ring_main (args : list chars) (ts : list who) : M unit bstatus :=
  '(cpu1, cpu2) ← cpus args;
  pinThread cpu1;;
  pinThread cpu2;;
  mret (bstat (bench_run bench_iters ts (bench bench_iters bench_queueSize))).
End main.

(** ** Properties *)

(** The test for -1 never succeeds, so a processor that does not exist, or that the process may
    not use, is not noticed: the benchmark runs unpinned. *)
Lemma pinThread_never_fails setaffinity cpu :
  (∀ c, 0 ≤ setaffinity c) → pinThread setaffinity cpu tt = Ok tt tt.
Proof.
  intros Hs. unfold pinThread. case_if; [done|]. pose proof (Hs cpu).
  by rewrite (proj2 (Z.eqb_neq _ _)) by lia.
Qed.

(** What follows a number on the command line. *)
Lemma stoi_bind {A} (s : chars) (k : Z → M unit A) (P : outcome unit A → Prop) :
  (∀ n, P (k n tt)) → P (Throw (invalid_argument "stoi") tt) → P (Throw (out_of_range "stoi") tt) →
  P ((stoi s ≫= k) tt).
Proof.
  intros Hk H1 H2. unfold stoi. destruct (sign_of _) as [sg s']. destruct (take_digits s'); [done|].
  rewrite bind_run. cbn zeta. case_if; [apply Hk|done].
Qed.

(** Whatever the command line: a number that cannot be read ends the program before the benchmark
    starts, and otherwise the benchmark runs, and never fails or leaves its buffer. *)
Lemma ring_main_safe setaffinity args ts :
  (∀ c, 0 ≤ setaffinity c) →
  match ring_main setaffinity args ts tt with
  | Ok st _ => st = BRunning ∨ st = BReturned
  | Throw e _ => e = invalid_argument "stoi" ∨ e = out_of_range "stoi"
  | _ => False
  end.
Proof.
  intros Hs.
  assert (∀ c, ∃ st, (pinThread setaffinity c.1;; pinThread setaffinity c.2;;
      mret (bstat (bench_run bench_iters ts (bench bench_iters bench_queueSize)))) tt = Ok st tt ∧
      (st = BRunning ∨ st = BReturned)) as Hbench.
  { intros c. rewrite !(bind_Ok _ _ _ _ _ (pinThread_never_fails setaffinity _ Hs)), ret_run.
    eexists. split; [reflexivity|].
    assert (∃ n, bench_iters = Z.of_nat n) as [n ->]
      by (eexists; symmetry; apply Z2Nat.id; unfold bench_iters; lia).
    destruct (bench_safe bench_queueSize n ts) as [?|[? _]]; [|by left|by right].
    unfold bench_queueSize. lia. }
  set (P := λ o : outcome unit (Z * Z), match o with
    | Ok _ s => s = tt
    | Throw e _ => e = invalid_argument "stoi" ∨ e = out_of_range "stoi"
    | _ => False
    end).
  assert (P (cpus args tt)) as Hcpus.
  { destruct args as [|a1 [|a2 [|]]]; try done. cbn [cpus].
    apply (stoi_bind a1 _ P); [|by left|by right].
    intros cpu1. apply (stoi_bind a2 _ P); [done|by left|by right]. }
  unfold ring_main. rewrite bind_run. destruct (cpus args tt) as [[cpu1 cpu2] []|e []| |]; [|done..].
  destruct (Hbench (cpu1, cpu2)) as (st & Hrun & Hst). cbn [fst snd] in Hrun. cbn beta iota. by rewrite Hrun.
Qed.
