(* ===== verification/Callbacks.v ===== *)
(** The callback programs: src/spike/simple_callback_class.cpp, templated_callback_class.cpp,
    performant_callback_class.cpp, udp_callback_class.cpp and callback.cpp.  A std::function is an [option]:
    [None] is the empty one, which converts to false and throws bad_function_call when it is
    called.  Everything runs on what has been written to std::cout. *)

From Stdlib Require Import Ascii String.
From S2P Require Import Prelude Format.
Local Open Scope Z_scope.

Abbreviation stdout := (list chars).

Definition lit (s : string) : chars := String.list_ascii_of_string s.

Definition put_line (l : chars) : M stdout unit := modify (λ o, o ++ [l]).

(** [std::cout << l] without an end of line: it goes on at the end of the last line. *)
Definition put_text (l : chars) : M stdout unit :=
  modify (λ o, match last o with Some x => removelast o ++ [x ++ l] | None => [l] end).

Abbreviation callback := (option (chars → M stdout unit)).

Definition call (f : callback) (arg : chars) : M stdout unit :=
  match f with Some f => f arg | None => throw bad_function_call end.

(** ** class Caller *)

Module Caller.
Record t := Mk { callback_ : callback }.

Definition new : t := Mk None.
Definition setCallback (cb : callback) (c : t) : t := Mk cb.

Definition performTask (c : t) : M stdout unit :=
  put_line (lit "Caller: Performing a task...");;
  match callback_ c with
  | Some _ => call (callback_ c) (lit "Task completed successfully!")
  | None => mret tt
  end.

Definition handleNotification (message : chars) : M stdout unit :=
  put_line (lit "Client: Received notification - " ++ message).

Definition main : M stdout unit :=
  let caller := setCallback (Some handleNotification) new in
  performTask caller.
End Caller.

(** ** class TemplatedCallbackNotifier<void, const std::string&> *)

Module Notifier.
Record t := Mk { callback_ : callback; is_callback_set_ : bool }.

Definition new : t := Mk None false.
Definition setCallback (callback_func : callback) (n : t) : t := Mk callback_func true.

Definition triggerCallback (arg : chars) (n : t) : M stdout unit :=
  if is_callback_set_ n then
    put_line (lit "Triggering callback: ");;
    call (callback_ n) arg
  else put_line (lit "Callback not set.").

Definition freeFunctionCallback (message : chars) : M stdout unit :=
  put_text (lit "Message from free function: " ++ message).
Definition memberFunctionCallback (message : chars) : M stdout unit :=
  put_text (lit "Message from member function: " ++ message).

Definition main : M stdout unit :=
  let notifier := setCallback (Some freeFunctionCallback) new in
  triggerCallback (lit "Hello World!") notifier;;
  let notifier := setCallback (Some memberFunctionCallback) notifier in
  triggerCallback (lit "Hello again, via lambda!") notifier;;
  let notifier := setCallback (Some (λ msg, put_text (lit "Message from inline lambda: " ++ msg)))
                    notifier in
  triggerCallback (lit "One last time, inline!") notifier.
End Notifier.

(** ** process_data over a vector of int *)

Module Transform.
(** A callback takes an int by reference and leaves its new value there. *)
Fixpoint process_data {S} (data : list Z) (cb : Z → M S Z) : M S (list Z) :=
  match data with
  | [] => mret []
  | value :: rest => value' ← cb value; rest' ← process_data rest cb; mret (value' :: rest')
  end.

Definition mul_int {S} (a b : Z) : M S Z :=
  if in_s 32 (a * b) then mret (a * b) else undefined ub_signed_overflow.

Definition multiply_by_two {S} (x : Z) : M S Z := mul_int x 2.

Record Transformer := MkTransformer { multiplier : Z }.
Definition multiply_by_three {S} (t : Transformer) (x : Z) : M S Z := mul_int x (multiplier t).

Definition print_numbers (title : chars) (numbers : list Z) : M stdout unit :=
  put_line (foldl (λ l x, l ++ show_int false x ++ lit " ") title numbers).

Definition main : M stdout (list Z) :=
  numbers ← process_data [1; 2; 3; 4; 5] multiply_by_two;
  print_numbers (lit "After multiplying by two: ") numbers;;
  let transformer := MkTransformer 3 in
  numbers ← process_data numbers (multiply_by_three transformer);
  print_numbers (lit "After multiplying by three: ") numbers;;
  numbers ← process_data numbers (λ x, add_int x 1);
  print_numbers (lit "After adding one: ") numbers;;
  mret numbers.
End Transform.

(** ** process_data over a datagram buffer *)

Module Datagram.
Definition buffer_size : nat := 4000.

(** std::cout << data[i] for i from [i] on, [n] times. *)
Fixpoint show_chars (n : nat) (i : Z) (data : list ascii) : M stdout unit :=
  match n with
  | O => mret tt
  | S n' => c ← array_get data i; put_text [c];; show_chars n' (i + 1) data
  end.

Definition display_buffer (data : list ascii) (length : Z) : M stdout unit :=
  put_line [];; show_chars (Z.to_nat length) 0 data.

Definition process_data (data : list ascii) (length : Z)
    (cb : list ascii → Z → M stdout unit) : M stdout unit := cb data length.

Definition main : M stdout unit :=
  let hello := lit "Hello World!" in
  let buffer := hello ++ replicate (buffer_size - length hello) Ascii.zero in
  process_data buffer 12 display_buffer.
End Datagram.

(** ** The timer of callback.cpp *)

Module Timer.
(** An error code is the message of an error, or none. *)
Abbreviation error_code := (option chars).
Abbreviation TimerCallback := (option (error_code → M stdout unit)).

(** asio::steady_timer: the handlers that wait for it, in the order of async_wait. *)
Abbreviation steady_timer := (list (error_code → M stdout unit)).

Definition perform_async_operation (timer : steady_timer) (handler : TimerCallback) : steady_timer :=
  timer ++ [λ ec, match handler with Some f => f ec | None => throw bad_function_call end].

(** io_context.run(): the timer expires (or fails), and every handler runs once. *)
Fixpoint run (timer : steady_timer) (ec : error_code) : M stdout unit :=
  match timer with
  | [] => mret tt
  | h :: timer' => h ec;; run timer' ec
  end.

Definition client_callback (ec : error_code) : M stdout unit :=
  match ec with
  | None => put_line (lit "Timer expired!")
  | Some message => put_line (lit "Error: " ++ message)
  end.

Definition main (ec : error_code) : M stdout Z :=
  let timer := perform_async_operation [] (Some client_callback) in
  run timer ec;;
  mret 0.
End Timer.

(** ** Lemmas *)

(** run() calls the handlers given to the timer once each, in order, and returns. *)
Lemma timer_runs_each fs ec o :
  (∀ f o, f ∈ fs → ∃ o', f ec o = Ok tt o') →
  Timer.run (foldl Timer.perform_async_operation [] (Some <$> fs)) ec o =
    foldl (λ r f, match r with Ok _ o => f ec o | r => r end) (Ok tt o) fs.
Proof.
  assert (∀ fs timer, foldl Timer.perform_async_operation timer (Some <$> fs) = timer ++ fs) as Hfold.
  { clear. induction fs as [|f fs IH]; intros timer; cbn; [by rewrite app_nil_r|].
    rewrite IH. unfold Timer.perform_async_operation. by rewrite <- app_assoc. }
  rewrite Hfold. cbn [app]. clear Hfold. revert o. induction fs as [|f fs IH]; intros o Hf; [done|].
  cbn [Timer.run foldl]. destruct (Hf f o) as [o' Ho]; [by left|].
  rewrite (bind_Ok _ _ _ _ _ Ho), Ho. apply IH. intros g o1 Hg. apply Hf. by right.
Qed.

Lemma timer_main ec :
  Timer.main ec [] = Ok 0 [match ec with None => lit "Timer expired!" | Some m => lit "Error: " ++ m end] ∧
  Timer.run (Timer.perform_async_operation [] None) ec [] = Throw bad_function_call [].
Proof. by destruct ec. Qed.

Section transform.
Context {S : Type}.

(** A callback that is defined on [ok] and computes [f] there. *)
Lemma process_data_spec (cb : Z → M S Z) (ok : Z → bool) (f : Z → Z) (u : ub) data (s : S) :
  (∀ x s, cb x s = if ok x then Ok (f x) s else UB u) →
  Transform.process_data data cb s = if forallb ok data then Ok (f <$> data) s else UB u.
Proof.
  intros Hcb. revert s. induction data as [|x data IH]; intros s; [done|]. cbn.
  rewrite bind_run, Hcb. destruct (ok x); [|done]. rewrite bind_run, IH.
  by destruct (forallb ok data).
Qed.
End transform.

Lemma show_chars_spec n : ∀ i data o x,
  0 ≤ i → (Z.to_nat i + n ≤ length data)%nat →
  Datagram.show_chars n i data (o ++ [x]) =
    Ok tt (o ++ [x ++ take n (drop (Z.to_nat i) data)]).
Proof.
  induction n as [|n IH]; intros i data o x Hi Hn; cbn [Datagram.show_chars].
  - by rewrite app_nil_r.
  - destruct (lookup_lt_is_Some_2 data (Z.to_nat i)) as [c Hc]; [lia|].
    rewrite (bind_Ok _ _ _ _ _ (array_get_run data i c _ Hi Hc)). rewrite bind_run.
    unfold put_text, modify. rewrite last_snoc, removelast_last.
    rewrite IH by lia. rewrite <- app_assoc. do 3 f_equal.
    rewrite (drop_S data c (Z.to_nat i) Hc). cbn. do 2 f_equal. by rewrite Z2Nat.inj_add by lia;
    rewrite Nat.add_1_r.
Qed.

(** ** Properties *)

(** Process_data applies its callback to every element, in order, in place: doubling a
    vector doubles each element, and is undefined exactly when one of the products does not fit
    an int; main's three passes give 7 13 19 25 31 and print what its comments say. *)
Theorem process_data_correct (data : list Z) (o : stdout) :
  Transform.process_data data Transform.multiply_by_two o =
    (if forallb (λ x, in_s 32 (x * 2)) data then Ok ((λ x, x * 2) <$> data) o
     else UB ub_signed_overflow) ∧
  Transform.main [] = Ok [7; 13; 19; 25; 31]
    [lit "After multiplying by two: 2 4 6 8 10 "; lit "After multiplying by three: 6 12 18 24 30 ";
     lit "After adding one: 7 13 19 25 31 "].
Proof.
  split; [|vm_compute; reflexivity].
  apply (process_data_spec _ (λ x, in_s 32 (x * 2)) (λ x, x * 2)). intros x s.
  unfold Transform.multiply_by_two, Transform.mul_int. by destruct (in_s 32 (x * 2)).
Qed.

(** The two callback classes differ on an empty std::function: Caller does its task and
    calls nothing, while TemplatedCallbackNotifier, whose flag only says that setCallback was
    called, throws bad_function_call; with a callback that is set both call it once with the
    message, and before any is set the notifier says so. *)
Theorem callback_classes (f : chars → M stdout unit) (msg : chars) (o : stdout) :
  Caller.performTask (Caller.setCallback None Caller.new) o =
    Ok tt (o ++ [lit "Caller: Performing a task..."]) ∧
  Caller.performTask (Caller.setCallback (Some f) Caller.new) o =
    f (lit "Task completed successfully!") (o ++ [lit "Caller: Performing a task..."]) ∧
  Notifier.triggerCallback msg Notifier.new o = Ok tt (o ++ [lit "Callback not set."]) ∧
  Notifier.triggerCallback msg (Notifier.setCallback None Notifier.new) o =
    Throw bad_function_call (o ++ [lit "Triggering callback: "]) ∧
  Notifier.triggerCallback msg (Notifier.setCallback (Some f) Notifier.new) o =
    f msg (o ++ [lit "Triggering callback: "]) ∧
  Notifier.main [] = Ok tt
    [lit "Triggering callback: Message from free function: Hello World!";
     lit "Triggering callback: Message from member function: Hello again, via lambda!";
     lit "Triggering callback: Message from inline lambda: One last time, inline!"].
Proof. split_and!; reflexivity. Qed.

(** display_buffer prints the first [n] characters of the buffer; main prints its greeting. *)
Lemma display_buffer_correct data n o :
  (n ≤ length data)%nat →
  Datagram.display_buffer data (Z.of_nat n) o = Ok tt (o ++ [take n data]) ∧
  Datagram.main [] = Ok tt [lit "Hello World!"].
Proof.
  intros Hn. split; [|vm_compute; reflexivity]. unfold Datagram.display_buffer. rewrite bind_run.
  cbn [put_line modify]. rewrite Nat2Z.id, show_chars_spec by (cbn; lia). by rewrite drop_0.
Qed.
