(* ===== verification/RawUdp.v ===== *)
(** The blocking UDP programs on the socket interface (src/spike/udp_server.cpp,
    src/spike/udp_client.cpp).  The system's part is the result of recvfrom(): an error, or a
    datagram of which at most the size of the buffer is stored; both programs then store a
    terminator at the index recvfrom() returned.  sendto() appends to what has been sent. *)

From Stdlib Require Import Ascii String.
From S2P Require Import Prelude Format Callbacks.
Local Open Scope Z_scope.

Definition MAXLINE : Z := 1024.
Definition PORT : Z := 8080.

Record proc := Proc {
  buffer : list (option ascii);                (* char buffer[MAXLINE], not initialised *)
  sent : list (chars * (Z * Z));               (* datagrams and their destinations *)
  peer : Z * Z;                                (* the address recvfrom() stored *)
  out : stdout
}.

Definition new_proc : proc := Proc (replicate (Z.to_nat MAXLINE) None) [] (0, 0) [].

Definition set_buffer (p : proc) b := Proc b (sent p) (peer p) (out p).

Definition print (l : chars) : M proc unit :=
  modify (λ p, Proc (buffer p) (sent p) (peer p) (out p ++ [l])).

(** recvfrom(sockfd, buffer, MAXLINE, ...): [None] is an error, for which it returns -1. *)
Definition recvfrom (r : option (chars * (Z * Z))) : M proc Z :=
  match r with
  | None => mret (-1)
  | Some (d, from) =>
      let got := take (Z.to_nat MAXLINE) d in
      modify (λ p, Proc ((Some <$> got) ++ drop (length got) (buffer p)) (sent p) from (out p));;
      mret (Z.of_nat (length got))
  end.

Definition sendto (d : chars) (dest : Z * Z) : M proc unit :=
  modify (λ p, Proc (buffer p) (sent p ++ [(d, dest)]) (peer p) (out p)).

(** perror(what); exit(EXIT_FAILURE): the program ends there, as by an exception nobody catches. *)
Definition exit_failure {A} (what : string) : M proc A := throw (system_error what).

(** Udp_server::create_udp_socket and bind_socket; [ok] is whether the system call succeeds. *)
Definition create_udp_socket (ok : bool) : M proc unit :=
  if ok then mret tt else exit_failure "socket creation failed".
Definition bind_socket (ok : bool) : M proc unit :=
  if ok then mret tt else exit_failure "bind failed".

(** Udp_server::recieve *)
Definition recieve (r : option (chars * (Z * Z))) : M proc unit :=
  n ← recvfrom r;
  p ← get;
  b ← array_set (buffer p) n (Some Ascii.zero);
  put (set_buffer p b).

(** A char array read as a string, up to its first zero. *)
Fixpoint c_string (b : list (option ascii)) : option chars :=
  match b with
  | Some c :: b' => if Ascii.eqb c Ascii.zero then Some [] else (c ::.) <$> c_string b'
  | _ => None
  end.

Definition read_string : M proc chars :=
  p ← get;
  match c_string (buffer p) with
  | Some s => mret s
  | None => undefined ub_uninitialised
  end.

(** Udp_server::send *)
Definition send (message : chars) (message_len : nat) (dest : Z * Z) : M proc unit :=
  print (lit "Message: " ++ message);;
  print (lit "Message length: " ++ show_int false (Z.of_nat message_len));;
  sendto (take message_len message) dest.

(** main of the server; [r] is what arrives. *)
Definition server_main (socket_ok bind_ok : bool) (r : option (chars * (Z * Z))) : M proc unit :=
  let hello := lit "Hello from server" in
  create_udp_socket socket_ok;;
  bind_socket bind_ok;;
  recieve r;;
  s ← read_string;
  print (lit "Client: " ++ s);;
  p ← get;
  send hello (length hello) (peer p);;
  print (lit "Hello message sent.").

(** main of the client; 2130706433 is 127.0.0.1. *)
Definition client_main (socket_ok : bool) (r : option (chars * (Z * Z))) : M proc unit :=
  let hello := lit "Hello from client" in
  create_udp_socket socket_ok;;              (* the same test, written out in main *)
  sendto hello (2130706433, PORT);;
  print (lit "Hello message sent.");;
  n ← recvfrom r;
  p ← get;
  b ← array_set (buffer p) n (Some Ascii.zero);
  put (set_buffer p b);;
  s ← read_string;
  print (lit "Server: " ++ s).

(** *** class Udp_client of udp_client.cpp, which its main does not use

    send() and recieve() get a pointer to the address, but pass the address of that pointer, an
    object of eight bytes, to the system, with the size [len] of a sockaddr_in. *)

Definition sizeof_pointer : Z := 8.

Definition Udp_client_create_socket (ok : bool) : M proc unit :=
  if ok then mret tt else exit_failure "socket creation failed".
Definition Udp_client_bind_socket (ok : bool) : M proc unit :=
  if ok then mret tt else exit_failure "bind failed".

(** sendto(sockfd, message, sizeof(message), ..., &cliaddr, len): the eight bytes at message. *)
Definition Udp_client_send (message : chars) (len : Z) : M proc unit :=
  if Z.of_nat (length message) + 1 <? sizeof_pointer then undefined (ub_index (Z.of_nat (length message) + 1))
  else if sizeof_pointer <? len then undefined (ub_index sizeof_pointer)
  else mret tt.        (* an address shorter than a sockaddr_in: EINVAL, which is not looked at *)

Definition Udp_client_recieve (r : option (chars * (Z * Z))) (len : Z) : M proc unit :=
  if bool_decide (is_Some r) && (sizeof_pointer <? len) then undefined (ub_index sizeof_pointer)
  else recieve r.

(** ** Lemmas *)

(** With the size its main would pass, 16, neither member function can be used: a message and
    its destination are read, and the address of a sender is written, past the pointer. *)
Lemma Udp_client_unusable message r p :
  length (buffer p) = Z.to_nat MAXLINE →
  (∃ u, Udp_client_send message 16 p = UB u) ∧ (∃ u, Udp_client_recieve r 16 p = UB u).
Proof.
  intros Hb. split.
  - unfold Udp_client_send. case_if; by eexists.
  - destruct r as [[d from]|]; [by eexists|].
    unfold Udp_client_recieve. cbn [is_Some]. eexists. reflexivity.
Qed.

(** The characters of a datagram up to its first zero. *)
Fixpoint until_zero (d : chars) : chars :=
  match d with
  | [] => []
  | c :: d' => if Ascii.eqb c Ascii.zero then [] else c :: until_zero d'
  end.

Lemma c_string_until d rest :
  c_string ((Some <$> d) ++ Some Ascii.zero :: rest) = Some (until_zero d).
Proof.
  induction d as [|c d IH]; cbn; [done|]. destruct (Ascii.eqb c Ascii.zero); [done|]. by rewrite IH.
Qed.

(** The terminator behind a datagram that is shorter than the buffer. *)
Lemma terminated (d : chars) (b : list (option ascii)) :
  (length d < length b)%nat →
  <[length d:=Some Ascii.zero]> ((Some <$> d) ++ drop (length d) b) =
    (Some <$> d) ++ Some Ascii.zero :: drop (S (length d)) b.
Proof.
  intros Hd. replace (length d) with (length (Some <$> d) + 0)%nat at 1
    by (rewrite length_fmap; lia).
  rewrite insert_app_r. f_equal. destruct (lookup_lt_is_Some_2 b (length d) Hd) as [x Hx].
  by rewrite (drop_S b x (length d) Hx).
Qed.

Lemma recieve_fits p d from :
  length (buffer p) = Z.to_nat MAXLINE → (Z.of_nat (length d) < MAXLINE) →
  recieve (Some (d, from)) p =
    Ok tt (Proc ((Some <$> d) ++ Some Ascii.zero :: drop (S (length d)) (buffer p)) (sent p) from
             (out p)).
Proof.
  intros Hb Hd. unfold recieve, recvfrom. rewrite take_ge by (unfold MAXLINE in *; lia).
  rewrite bind_run. cbn zeta. rewrite bind_run. cbn [modify]. rewrite ret_run, get_bind. cbn [buffer].
  rewrite bind_run, array_set_run
    by (rewrite length_app, length_fmap, length_drop, Hb; unfold MAXLINE in *; lia).
  rewrite Nat2Z.id, terminated by (rewrite Hb; unfold MAXLINE in *; lia). done.
Qed.

(** C39: a receive of the blocking programs terminates the text it got exactly when the datagram
    is shorter than the buffer: then the buffer read as a string is the datagram up to its
    first zero.  A datagram of MAXLINE bytes or more makes it write one past the end of the
    buffer, and a failed recvfrom() one before its start. *)
Theorem recieve_bounds p d from :
  length (buffer p) = Z.to_nat MAXLINE →
  (Z.of_nat (length d) < MAXLINE → ∃ p', recieve (Some (d, from)) p = Ok tt p' ∧
     c_string (buffer p') = Some (until_zero d) ∧ peer p' = from ∧
     length (buffer p') = Z.to_nat MAXLINE) ∧
  (MAXLINE ≤ Z.of_nat (length d) → recieve (Some (d, from)) p = UB (ub_index MAXLINE)) ∧
  recieve None p = UB (ub_index (-1)).
Proof.
  intros Hb. split_and!.
  - intros Hd. eexists. split; [by apply recieve_fits|]. cbn [buffer peer].
    split_and!; [apply c_string_until|done|].
    rewrite length_app, length_fmap. cbn [length]. rewrite length_drop, Hb.
    unfold MAXLINE in *. lia.
  - intros Hd. unfold recieve, recvfrom. rewrite bind_run. cbn zeta. rewrite bind_run. cbn [modify].
    rewrite ret_run, get_bind. apply bind_UB. unfold array_set. cbn [buffer].
    assert (length (take (Z.to_nat MAXLINE) d) = Z.to_nat MAXLINE) as Hl
      by (rewrite length_take; unfold MAXLINE in *; lia).
    rewrite length_app, length_fmap, Hl, length_drop, Hb.
    rewrite (proj2 (Z.ltb_ge _ _)) by (unfold MAXLINE in *; lia). rewrite andb_false_r.
    by rewrite Z2Nat.id by (unfold MAXLINE; lia).
  - done.
Qed.

(** The whole exchange of the server, for a datagram that fits. *)
Lemma server_main_reply d from :
  Z.of_nat (length d) < MAXLINE →
  ∃ p, server_main true true (Some (d, from)) new_proc = Ok tt p ∧
       sent p = [(lit "Hello from server", from)] ∧
       out p = [lit "Client: " ++ until_zero d; lit "Message: Hello from server";
                lit "Message length: 17"; lit "Hello message sent."].
Proof.
  intros Hd. eexists. split; [|shelve]. unfold server_main. cbn zeta. rewrite !bind_run.
  cbn [create_udp_socket bind_socket]. rewrite !ret_run, bind_run, ret_run.
  rewrite (bind_Ok _ _ _ _ _ (recieve_fits new_proc d from ltac:(reflexivity) Hd)).
  unfold read_string. rewrite bind_run, get_bind. cbn [buffer]. rewrite c_string_until.
  reflexivity.
  Unshelve. split; reflexivity.
Qed.

Lemma recieve_bounds_witness :
  ∃ p', recieve (Some (lit "Hi", (2130706433, 5000))) new_proc = Ok tt p' ∧
        c_string (buffer p') = Some (lit "Hi").
Proof.
  destruct (recieve_bounds new_proc (lit "Hi") (2130706433, 5000) eq_refl) as [H _].
  destruct (H ltac:(vm_compute; reflexivity)) as (p' & Hrun & Hs & _).
  exists p'. split; [exact Hrun|exact Hs].
Defined.
