(* ===== verification/Drivers.v ===== *)
(** The main functions of the experiments whose classes are modelled elsewhere:
    src/spike/circular_queue.cpp, src/spike/ipc_circular_queue.cpp,
    src/spike/toml_to_timepoint.cpp, src/spike/crc32.cpp, and the stand-alone search for the
    configuration file in src/spike/get_unid_filepath.cpp; and the printing of the serializer
    programs (Unid_block::print, the main of concatenate_arrays.cpp). *)

From S2P Require Import Prelude Bytes UnidBlock Format Utility Ring Crc32 Chrono Config CircularQueue IpcQueue.
Local Open Scope Z_scope.

(** Run a program on the object a constructor makes; on the right, what the constructor throws. *)
Definition with_object {S A} (ctor : M unit S) (m : M S A) : outcome S A + exn :=
  match ctor tt with
  | Ok q _ => inl (m q)
  | Throw e _ => inr e
  | UB u => inl (UB u)
  | OutOfFuel => inl OutOfFuel
  end.

(** ** circular_queue.cpp *)

Definition report_state : M CircularQueue.t (Z * Z * bool * bool) :=
  q ← get; mret (CircularQueue.report q).

(** for (int i = 0; i < n; i++) *)
Definition fill (n : Z) : M CircularQueue.t unit :=
  for_below n (λ i, CircularQueue.enqueue i;; mret tt).
Definition drain (n : Z) : M CircularQueue.t unit :=
  for_below n (λ _, CircularQueue.dequeue;; mret tt).

Definition circular_queue_main : M CircularQueue.t (list (Z * Z * bool * bool)) :=
  r1 ← report_state;
  fill 1024;;
  r2 ← report_state;
  drain 1024;;
  r3 ← report_state;
  fill 512;;
  r4 ← report_state;
  mret [r1; r2; r3; r4].

(** ** ipc_circular_queue.cpp: its four blocks *)

Definition ipc_block0 : outcome IpcQueue.t unit + exn :=
  with_object (IpcQueue.ctor true 0) (mret tt).

Definition ipc_block1 : M IpcQueue.t unit := IpcQueue.print_queue_state;; mret tt.

Definition ipc_block2 : M IpcQueue.t unit :=
  IpcQueue.enqueue 1;; IpcQueue.enqueue 2;; IpcQueue.enqueue 3;;
  IpcQueue.print_queue_state;;
  IpcQueue.dequeue;;
  IpcQueue.print_queue_state;;
  IpcQueue.dequeue;; IpcQueue.dequeue;;
  IpcQueue.print_queue_state;;
  mret tt.

(** try { cq.enqueue(v); } catch (const std::logic_error&) *)
Definition try_enqueue (v : Z) : M IpcQueue.t bool := λ q,
  match IpcQueue.enqueue v q with
  | Throw (logic_error _) q' => Ok false q'
  | o => o
  end.

(** The last block: five enqueues, the fifth of them caught, and the listing. *)
Definition ipc_block3 : M IpcQueue.t bool :=
  IpcQueue.enqueue 1;; IpcQueue.enqueue 2;; IpcQueue.enqueue 3;; IpcQueue.enqueue 4;;
  ok ← try_enqueue 5;
  IpcQueue.print_queue_state;;
  mret ok.

(** A block of main: an object made, used and destroyed; an exception leaves main. *)
Definition in_scope {A} (ctor : M unit IpcQueue.t) (m : M IpcQueue.t A) : M unit A := λ s,
  match with_object ctor m with
  | inl (Ok a _) => Ok a s
  | inl (Throw e _) | inr e => Throw e s
  | inl (UB u) => UB u
  | inl OutOfFuel => OutOfFuel
  end.

(** try { ... } catch (const std::invalid_argument&) *)
Definition catch_invalid {A} (m : M unit A) (a : A) : M unit A := λ s,
  match m s with
  | Throw (invalid_argument _) s' => Ok a s'
  | o => o
  end.

Definition ipc_main : M unit Z :=
  catch_invalid (in_scope (IpcQueue.ctor true 0) (mret tt)) tt;;
  in_scope (IpcQueue.ctor true 5) ipc_block1;;
  in_scope (IpcQueue.ctor true 5) ipc_block2;;
  in_scope (IpcQueue.ctor true 5) ipc_block3;;
  mret 0.

(** ** crc32.cpp *)

Definition crc32_main : M crc_state Z :=
  compute_crc32 (bytes_of_string "The quick brown fox jumps over the lazy dog") 0.

(** ** toml_to_timepoint.cpp *)

(** What a block of main prints: that the key is missing, or a value of <chrono>. *)
Inductive shown : Type :=
| KeyNotFound
| ShowYmd (d : year_month_day)
| ShowTod (t : hh_mm_ss)
| ShowTp (ns : Z).

Section toml_main.
Context `{Toml} (parse : string → table).       (* toml::parse *)

(** if (!config[key]) ... else a value is made from the node. *)
Definition toml_block (key document : string) (show : node → M unit shown) : M unit shown :=
  match table_get (parse document) key with
  | None => mret KeyNotFound
  | Some n => show n
  end.

Definition toml_main : M unit (list shown) :=
  l1 ← toml_block "start_date" "start_date = 2026-04-03"
         (λ n, td ← deref (as_date n); mret (ShowYmd (ymd_of td)));
  l2 ← toml_block "start_time" "start_time = 14:35:25"
         (λ n, tt ← deref (as_time n); mret (ShowTod (hms_of tt)));
  l3 ← toml_block "start_datetime" "start_datetime = 2026-04-03T14:35:25"
         (λ n, dtt ← deref (as_date_time n);       (* the offset is not looked at *)
               tp ← timepoint_of (TomlDateTime (tdt_date dtt) (tdt_time dtt) None);
               mret (ShowTp tp));
  l4 ← toml_block "start_offset_datetime" "start_offset_datetime = 2026-04-03T14:35:25-07:00"
         (λ n, dtt ← deref (as_date_time n); tp ← timepoint_of dtt; mret (ShowTp tp));
  mret [l1; l2; l3; l4].
End toml_main.

(** ** get_unid_filepath.cpp *)

Definition spike_not_found : exn := runtime_error "Configuration file, unid.toml, not found".

(** [home]: std::getenv("HOME"); a string made from a null pointer is undefined. *)
Definition spike_get_unid_filepath (exists_ : string → bool) (home : option string) :
    M unit string :=
  match home with
  | None => undefined ub_null_deref
  | Some home =>
      let system :=
        if exists_ "/etc/unid/unid.toml"%string then mret "/etc/unid/unid.toml"%string
        else throw spike_not_found in
      if negb (String.eqb home "") then
        let filepath := (home +:+ "/.config/unid.toml")%string in
        if exists_ filepath then mret filepath else system
      else system
  end.

(** What main prints: the error, if there is one, and the path, which is then empty. *)
Definition spike_filepath_main (exists_ : string → bool) (home : option string) :
    M unit (list string) := λ s,
  match spike_get_unid_filepath exists_ home s with
  | Ok p s' => Ok [p] s'
  | Throw (runtime_error what) s' => Ok [("Error: " +:+ what)%string; ""%string] s'
  | Throw e s' => Throw e s'
  | UB u => UB u
  | OutOfFuel => OutOfFuel
  end.

(** ** Unid_block::print *)

Definition line (label : string) (v : Z) : chars :=
  String.list_ascii_of_string label ++ show_unsigned false v.

(** The copy of the struct in flatbuffers.cpp prints the members only. *)
Definition flat_print (b : Unid_block) : list chars :=
  [line "Ip: " (ip b); line "Port: " (port b); line "Seq: " (seq b); line "Node: " (UnidBlock.node b);
   line "First unid: " (first_unid b); line "Block size: " (block_size b)].

Definition unid_print (b : Unid_block) : list chars :=
  [String.list_ascii_of_string "----------------------";
   String.list_ascii_of_string "struct Unid_block data";
   String.list_ascii_of_string "----------------------"] ++ flat_print b.

(** ** concatenate_arrays.cpp *)

(** What main prints: the size, and every byte in hexadecimal. *)
Definition concatenate_main : M unit (list chars) := λ s,
  match concatenate_byte_arrays [[1; 2; 3]; [4; 5]; [6; 7; 8; 9]] with
  | Ok _ r =>
      match mapM id r with
      | Some combined =>
          Ok [line "Combined array size: " (Z.of_nat (length combined));
              String.list_ascii_of_string "Combined array data: " ++
                concat ((λ b, String.list_ascii_of_string "0x" ++ show_int true b ++
                              String.list_ascii_of_string " ") <$> combined)] s
      | None => UB (ub_indeterminate 0)
      end
  | Throw e _ => Throw e s
  | UB u => UB u
  | OutOfFuel => OutOfFuel
  end.

(** ** Properties *)

Lemma concatenate_main_output :
  concatenate_main tt = Ok [String.list_ascii_of_string "Combined array size: 9";
    String.list_ascii_of_string "Combined array data: 0x1 0x2 0x3 0x4 0x5 0x6 0x7 0x8 0x9 "] tt.
Proof. vm_compute. reflexivity. Qed.

(** A number is read back from its decimal form. *)
Lemma show_decimal_inj a b :
  0 ≤ a < 2 ^ 64 → 0 ≤ b < 2 ^ 64 → show_base 10 a = show_base 10 b → a = b.
Proof.
  intros Ha Hb Heq. destruct (show_base10 a Ha) as (ds & Hsa & Hda & _ & <-).
  destruct (show_base10 b Hb) as (es & Hsb & Hdb & _ & <-).
  rewrite <- (take_digits_shown ds Hda), <- (take_digits_shown es Hdb). congruence.
Qed.

(** The printed form shows the whole block: different blocks print differently. *)
Lemma unid_print_inj b1 b2 : block_ok b1 → block_ok b2 → unid_print b1 = unid_print b2 → b1 = b2.
Proof.
  intros Hb1 Hb2 Heq. apply app_inv_head in Heq.
  unfold flat_print in Heq. injection Heq as E1 E2 E3 E4 E5 E6. unfold block_ok in *.
  destruct b1 as [i1 p1 s1 n1 f1 z1], b2 as [i2 p2 s2 n2 f2 z2].
  cbn [ip port seq UnidBlock.node first_unid block_size] in *.
  f_equal; (apply show_decimal_inj; [lia|lia|assumption]).
Qed.

(** What the programs do, from their first statement to their last. *)
Lemma circular_queue_main_reports :
  ∃ q, with_object (CircularQueue.ctor true 1024) circular_queue_main =
       inl (Ok [(1024, 0, true, false); (1024, 1024, false, true);
                (1024, 0, true, false); (1024, 512, false, false)] q).
Proof. eexists. vm_compute. reflexivity. Qed.

(** Every listing of a queue of five reads an element that the constructor did not clear
    (five bytes are less than one element), until all five have been written. *)
Lemma ipc_main_undefined :
  ipc_block0 = inr (invalid_argument "Circular_queue: Capacity must be > 0") ∧
  with_object (IpcQueue.ctor true 5) ipc_block1 = inl (UB (ub_indeterminate 0)) ∧
  with_object (IpcQueue.ctor true 5) ipc_block2 = inl (UB (ub_indeterminate 3)) ∧
  with_object (IpcQueue.ctor true 5) ipc_block3 = inl (UB (ub_indeterminate 4)) ∧
  ipc_main tt = UB (ub_indeterminate 0).
Proof. split_and!; reflexivity. Qed.

(** The checksum its comment expects is that of the sentence: 0x414fa339. *)
Lemma crc32_main_value :
  ∃ s, crc32_main crc_init = Ok 1095738169 s.
Proof. eexists. vm_compute. reflexivity. Qed.

(** The documents as toml++ parses them: 2026-04-03T14:35:25, the second time seven hours
    behind UTC. *)
Definition spike_toml : Toml := {|
  node := toml_date_time;
  table := list (string * toml_date_time);
  table_get := λ t k, snd <$> List.find (λ e, String.eqb e.1 k) t;
  node_get := λ _ _, None;
  at_path := λ _ _, None;
  as_date := λ n, Some (tdt_date n);
  as_time := λ n, Some (tdt_time n);
  as_date_time := λ n, Some n
|}.

Definition spike_parse (_ : string) : @table spike_toml :=
  let d := TomlDate 2026 4 3 in
  let t := TomlTime 14 35 25 0 in
  [("start_date"%string, TomlDateTime d t None); ("start_time"%string, TomlDateTime d t None);
   ("start_datetime"%string, TomlDateTime d t None);
   ("start_offset_datetime"%string, TomlDateTime d t (Some (-420)))].

Lemma toml_main_values :
  @toml_main spike_toml spike_parse tt =
    Ok [ShowYmd (YMD 2026 4 3); ShowTod (HMS false 14 35 25); ShowTp 1775226925000000000;
        ShowTp 1775252125000000000] tt.
Proof. vm_compute. reflexivity. Qed.

(** The stand-alone search does what its documentation says when HOME is set: the file
    under the home directory has priority, then the system file, and without either it throws;
    unlike the search of class Config it looks in the directory HOME names.  When HOME is not
    set, for which the documentation promises the system file, its behaviour is undefined. *)
Theorem spike_get_unid_filepath_correct exists_ home :
  spike_get_unid_filepath exists_ (Some home) tt =
    (if negb (String.eqb home "") && exists_ (home +:+ "/.config/unid.toml")%string
     then Ok (home +:+ "/.config/unid.toml")%string tt
     else if exists_ "/etc/unid/unid.toml"%string then Ok "/etc/unid/unid.toml"%string tt
     else Throw spike_not_found tt) ∧
  spike_get_unid_filepath exists_ None tt = UB ub_null_deref.
Proof.
  split; [|done]. unfold spike_get_unid_filepath. cbn zeta. destruct (String.eqb home ""); cbn;
    destruct (exists_ (home +:+ "/.config/unid.toml")%string); try done;
    by destruct (exists_ "/etc/unid/unid.toml"%string).
Qed.
