(* ===== verification/Logging.v ===== *)
(** Logging: setup_quill (src/common/src/quill.cpp), which makes the logger that the programs
    share, and the class Quill_logger of src/spike/quill_class.cpp with its main.

    The quill library is a parameter: the class [Quill] has the functions the code calls, and
    [QuillLaws] what the library documents of them, stated on an abstract view of its state:
    the sinks and the loggers by name, and the level and the accepted statements of each logger.
    A name that is known gives the sink or logger it has; a new file is opened, which may fail;
    a new logger has level Info; a statement is accepted when its level is at least the
    logger's. *)

From S2P Require Import Prelude.
Local Open Scope string_scope.

(** ** The library *)

Inductive LogLevel : Type :=
| TraceL3 | TraceL2 | TraceL1 | Debug | Info | Notice | Warning | Error | Critical
| Backtrace | LevelNone.

Definition level_rank (l : LogLevel) : nat :=
  match l with
  | TraceL3 => 0 | TraceL2 => 1 | TraceL1 => 2 | Debug => 3 | Info => 4 | Notice => 5
  | Warning => 6 | Error => 7 | Critical => 8 | Backtrace => 9 | LevelNone => 10
  end.

Inductive SinkKind : Type := FileSink | RotatingFileSink.
Inductive FilenameAppendOption : Type := AppendNone | StartDate | StartDateTime.
Inductive Timezone : Type := LocalTime | GmtTime.

Record RotatingFileSinkConfig := SinkConfig {
  rotation_on_creation : bool;
  filename_append_option : FilenameAppendOption;
  rotation_time_daily : string;
  rotation_max_file_size : Z;
  max_backup_files : Z
}.

Record PatternFormatterOptions := Formatter {
  format_pattern : string;
  timestamp_pattern : string;
  timestamp_timezone : Timezone
}.

Abbreviation record := (LogLevel * string)%type.

(** What a client can tell of the library's state. *)
Record qview (sink logger : Type) `{Countable logger} := QView {
  sinks : gmap string (SinkKind * sink);
  loggers : gmap string logger;
  levels : gmap logger LogLevel;
  records : gmap logger (list record)
}.
Arguments QView {sink logger _ _}.
Arguments sinks {sink logger _ _}.
Arguments loggers {sink logger _ _}.
Arguments levels {sink logger _ _}.
Arguments records {sink logger _ _}.

Class Quill := {
  quill : Type;
  sink : Type;
  logger : Type;
  logger_eq :: EqDecision logger;
  logger_countable :: Countable logger;
  Backend_start : M quill unit;
  create_or_get_sink : SinkKind → string → RotatingFileSinkConfig → M quill sink;
  create_or_get_logger : string → sink → option PatternFormatterOptions → M quill logger;
  set_log_level : logger → LogLevel → M quill unit;
  flush_log : logger → M quill unit;
  set_immediate_flush : logger → M quill unit;
  LOG : logger → LogLevel → string → list string → M quill unit;     (* the macros LOG_... *)
  formatted : string → list string → string;                        (* the message they make *)
  can_open : string → bool;                      (* whether a new log file can be opened *)
  abs : quill → qview sink logger
}.

Section view.
Context {sink logger : Type} `{Countable logger}.
Implicit Type v : qview sink logger.

Definition level_of v (l : logger) : LogLevel := default Info (levels v !! l).
Definition records_of v (l : logger) : list record := default [] (records v !! l).

Definition with_sink (n : string) (k : SinkKind) (s : sink) v :=
  QView (<[n:=(k, s)]> (sinks v)) (loggers v) (levels v) (records v).
Definition with_logger (n : string) (l : logger) v :=
  QView (sinks v) (<[n:=l]> (loggers v)) (<[l:=Info]> (levels v)) (records v).
Definition with_level (l : logger) (lvl : LogLevel) v :=
  QView (sinks v) (loggers v) (<[l:=lvl]> (levels v)) (records v).
Definition with_record (l : logger) (r : record) v :=
  QView (sinks v) (loggers v) (levels v) (<[l:=(records_of v l ++ [r])%list]> (records v)).

Lemma level_of_with_level v l lvl : level_of (with_level l lvl v) l = lvl.
Proof. unfold level_of. cbn. by rewrite lookup_insert_eq. Qed.
Lemma level_of_with_logger v n l : level_of (with_logger n l v) l = Info.
Proof. apply level_of_with_level. Qed.
Lemma level_of_with_level_ne v l l' lvl : l' ≠ l → level_of (with_level l lvl v) l' = level_of v l'.
Proof. intros. unfold level_of. cbn. by rewrite lookup_insert_ne. Qed.
Lemma records_of_insert v l r : records_of (with_record l r v) l = (records_of v l ++ [r])%list.
Proof. unfold records_of at 1. cbn. by rewrite lookup_insert_eq. Qed.
Lemma records_of_insert_ne v l l' r :
  l' ≠ l → records_of (with_record l r v) l' = records_of v l'.
Proof. intros. unfold records_of at 1. cbn. by rewrite lookup_insert_ne. Qed.
End view.

(** A sink is found by the name of its file; a new one needs the file to open. *)
Definition sink_available `{Quill} (n : string) (v : qview sink logger) : bool :=
  match sinks v !! n with Some _ => true | None => can_open n end.

Class QuillLaws `{Quill} := {
  backend_start_law q : wp Backend_start (λ _ q', abs q' = abs q) q;
  sink_known n k s k' cfg q : sinks (abs q) !! n = Some (k, s) →
    wp (create_or_get_sink k' n cfg) (λ s' q', s' = s ∧ abs q' = abs q) q;
  sink_new n k cfg q : sinks (abs q) !! n = None → can_open n = true →
    wp (create_or_get_sink k n cfg) (λ s q', abs q' = with_sink n k s (abs q)) q;
  sink_refused n k cfg q : sinks (abs q) !! n = None → can_open n = false →
    ∃ e q', create_or_get_sink k n cfg q = Throw e q' ∧ abs q' = abs q;
  logger_known n l s f q : loggers (abs q) !! n = Some l →
    wp (create_or_get_logger n s f) (λ l' q', l' = l ∧ abs q' = abs q) q;
  logger_new n s f q : loggers (abs q) !! n = None →
    wp (create_or_get_logger n s f) (λ l q',
      (∀ n', loggers (abs q) !! n' ≠ Some l) ∧ records_of (abs q) l = [] ∧
      abs q' = with_logger n l (abs q)) q;
  set_level_law l lvl q : lvl ≠ Backtrace →
    wp (set_log_level l lvl) (λ _ q', abs q' = with_level l lvl (abs q)) q;
  flush_law l q : wp (flush_log l) (λ _ q', abs q' = abs q) q;
  immediate_law l q : wp (set_immediate_flush l) (λ _ q', abs q' = abs q) q;
  log_law l lvl fmt args q : wp (LOG l lvl fmt args) (λ _ q', abs q' =
    if level_rank (level_of (abs q) l) <=? level_rank lvl
    then with_record l (lvl, formatted fmt args) (abs q) else abs q)%nat q;
  formatted_one m : formatted "{}" [m] = m
}.

(** ** The code *)

(** The configuration both files make in a lambda. *)
Definition rotation_cfg : RotatingFileSinkConfig := SinkConfig true StartDateTime "22:30" (1024 * 1024) 7.

Module Setup.
Section setup.
Context `{Quill}.

(** The process: the library and the variable global_logger_a. *)
Record process := Process { lib : quill; global_logger_a : option logger }.

Definition on_lib {A} (m : M quill A) : M process A := λ p,
  match m (lib p) with
  | Ok a q => Ok a (Process q (global_logger_a p))
  | Throw e q => Throw e (Process q (global_logger_a p))
  | UB u => UB u
  | OutOfFuel => OutOfFuel
  end.

(** The sink is a FileSink: of the configuration given it only uses the part that is not about
    rotation. *)
Definition setup_quill (log_file : string) : M process unit :=
  on_lib Backend_start;;
  rotating_file_sink ← on_lib (create_or_get_sink FileSink log_file rotation_cfg);
  l ← on_lib (create_or_get_logger "root" rotating_file_sink (Some (Formatter
         "%(time) [%(thread_id)] %(short_source_location:<28) LOG_%(log_level:<9) %(logger:<12) %(message)"
         "%H:%M:%S.%Qns" GmtTime)));
  modify (λ p, Process (lib p) (Some l)).
End setup.
End Setup.

Module Wrapper.
Section wrapper.
Context `{Quill}.

Record Quill_logger := QuillLogger { l_ : logger }.

Definition Quill_logger_ctor (loggerName filename : string) : M quill Quill_logger :=
  Backend_start;;
  rotating_file_sink ← create_or_get_sink RotatingFileSink filename rotation_cfg;
  l ← create_or_get_logger loggerName rotating_file_sink None;
  set_log_level l Debug;;
  mret (QuillLogger l).

Definition q_set_log_level (this : Quill_logger) (level : LogLevel) := set_log_level (l_ this) level.
Definition q_flush_log (this : Quill_logger) := flush_log (l_ this).
Definition q_set_immediate_flush (this : Quill_logger) := set_immediate_flush (l_ this).

Definition trace_l3 this (message : string) := LOG (l_ this) TraceL3 "{}" [message].
Definition trace_l2 this (message : string) := LOG (l_ this) TraceL2 "{}" [message].
Definition trace_l1 this (message : string) := LOG (l_ this) TraceL1 "{}" [message].
Definition debug this (message : string) := LOG (l_ this) Debug "{}" [message].
Definition info this (message : string) := LOG (l_ this) Info "{}" [message].
Definition warning this (message : string) := LOG (l_ this) Warning "{}" [message].
Definition error this (message : string) := LOG (l_ this) Error "{}" [message].
Definition critical this (message : string) := LOG (l_ this) Critical "{}" [message].

(** One call of a member function by the owner of the object. *)
Inductive call : Type :=
| Set_log_level (level : LogLevel) | Flush_log | Set_immediate_flush
| Trace_l3 (m : string) | Trace_l2 (m : string) | Trace_l1 (m : string) | Debug_ (m : string)
| Info_ (m : string) | Warning_ (m : string) | Error_ (m : string) | Critical_ (m : string).

Definition member (this : Quill_logger) (c : call) : M quill unit :=
  match c with
  | Set_log_level level => q_set_log_level this level
  | Flush_log => q_flush_log this
  | Set_immediate_flush => q_set_immediate_flush this
  | Trace_l3 m => trace_l3 this m
  | Trace_l2 m => trace_l2 this m
  | Trace_l1 m => trace_l1 this m
  | Debug_ m => debug this m
  | Info_ m => info this m
  | Warning_ m => warning this m
  | Error_ m => error this m
  | Critical_ m => critical this m
  end.

Fixpoint members (this : Quill_logger) (cs : list call) : M quill unit :=
  match cs with
  | [] => mret tt
  | c :: cs => member this c;; members this cs
  end.

Definition quill_main : M quill Z :=
  this ← Quill_logger_ctor "app_logger" "app.log";
  info this "Application started";;
  error this "An error occurred";;
  mret 0%Z.

(** ** What the calls are to log *)

Definition statement (c : call) : option record :=
  match c with
  | Set_log_level _ | Flush_log | Set_immediate_flush => None
  | Trace_l3 m => Some (TraceL3, m)
  | Trace_l2 m => Some (TraceL2, m)
  | Trace_l1 m => Some (TraceL1, m)
  | Debug_ m => Some (Debug, m)
  | Info_ m => Some (Info, m)
  | Warning_ m => Some (Warning, m)
  | Error_ m => Some (Error, m)
  | Critical_ m => Some (Critical, m)
  end.

(** The level in force, and the statements it lets through. *)
Fixpoint expected (level : LogLevel) (cs : list call) : LogLevel * list record :=
  match cs with
  | [] => (level, [])
  | Set_log_level level' :: cs => expected level' cs
  | c :: cs =>
      let '(last, rs) := expected level cs in
      match statement c with
      | Some r => (last, if (level_rank level <=? level_rank r.1)%nat then r :: rs else rs)
      | None => (last, rs)
      end
  end.

Definition levels_ok (cs : list call) : Prop :=
  Forall (λ c, match c with Set_log_level l => l ≠ Backtrace | _ => True end) cs.
End wrapper.
End Wrapper.

(** ** Lemmas *)

Import Wrapper Setup.

Section facts.
Context `{QuillLaws}.

(** What may be different between two views when one logger was worked with. *)
Record only_logger (l : logger) (v v' : qview sink logger) : Prop := {
  ol_levels l' : l' ≠ l → level_of v' l' = level_of v l';
  ol_records l' : l' ≠ l → records_of v' l' = records_of v l';
  ol_loggers n l' : loggers v !! n = Some l' → loggers v' !! n = Some l'
}.

Lemma only_logger_refl l v : only_logger l v v.
Proof. done. Qed.

Lemma only_logger_trans l v1 v2 v3 : only_logger l v1 v2 → only_logger l v2 v3 → only_logger l v1 v3.
Proof. intros [A1 A2 A3] [B1 B2 B3]. split; intros; [rewrite B1|rewrite B2|]; auto. Qed.

Lemma only_logger_level l lvl v : only_logger l v (with_level l lvl v).
Proof. split; intros; [by apply level_of_with_level_ne|done..]. Qed.

Lemma only_logger_record l r v : only_logger l v (with_record l r v).
Proof. split; intros; [done|by apply records_of_insert_ne|done]. Qed.

(** One call: the level and the statements of the logger move as [expected] says. *)
Definition moved (l : logger) (lvl : LogLevel) (rs : list record) (q q' : quill) : Prop :=
  level_of (abs q') l = lvl ∧ records_of (abs q') l = (records_of (abs q) l ++ rs)%list ∧
  only_logger l (abs q) (abs q') ∧ loggers (abs q') = loggers (abs q).

Lemma moved_none l q : moved l (level_of (abs q) l) [] q q.
Proof. split_and!; [done|by rewrite app_nil_r|apply only_logger_refl|done]. Qed.

Lemma LOG_moves l lvl m q :
  wp (LOG l lvl "{}" [m]) (λ _ q', moved l (level_of (abs q) l)
    (if (level_rank (level_of (abs q) l) <=? level_rank lvl)%nat then [(lvl, m)] else []) q q') q.
Proof.
  eapply wp_mono; [apply log_law|]. intros [] q' Hq. unfold moved. rewrite Hq, formatted_one. case_if.
  - rewrite records_of_insert. split_and!; [done|done|apply only_logger_record|done].
  - rewrite app_nil_r. split_and!; [done|done|apply only_logger_refl|done].
Qed.

Lemma member_moves this c q :
  levels_ok [c] →
  wp (member this c) (λ _ q', let '(lvl, rs) := expected (level_of (abs q) (l_ this)) [c] in
                              moved (l_ this) lvl rs q q') q.
Proof.
  intros Hok. unfold levels_ok in Hok. rewrite Forall_singleton in Hok.
  destruct c; cbn [member expected statement fst];
    try apply LOG_moves.
  - cbn in Hok. unfold q_set_log_level.
    eapply wp_mono; [exact (set_level_law _ _ _ Hok)|]. intros [] q' Hq. unfold moved. rewrite Hq.
    rewrite level_of_with_level, app_nil_r. split_and!; [done|done|apply only_logger_level|done].
  - eapply wp_mono; [apply flush_law|]. intros [] q' Hq. unfold moved. rewrite Hq. apply moved_none.
  - eapply wp_mono; [apply immediate_law|]. intros [] q' Hq. unfold moved. rewrite Hq. apply moved_none.
Qed.

Lemma expected_cons lvl c cs :
  expected lvl (c :: cs) =
  (let '(mid, rs) := expected lvl [c] in let '(last, rs') := expected mid cs in (last, rs ++ rs')%list).
Proof.
  destruct c; cbn; destruct (expected _ cs); try done; by case_if.
Qed.

Lemma members_move this cs : ∀ q,
  levels_ok cs →
  wp (members this cs) (λ _ q', let '(lvl, rs) := expected (level_of (abs q) (l_ this)) cs in
                                moved (l_ this) lvl rs q q') q.
Proof.
  induction cs as [|c cs IH]; intros q Hok.
  { apply wp_ret. apply moved_none. }
  apply Forall_cons in Hok as [Hc Hok]. rewrite expected_cons. cbn [members].
  apply wp_bind. eapply wp_mono; [apply member_moves; by apply Forall_singleton|].
  intros [] q1. destruct (expected _ [c]) as [mid rs]. intros (Hl & Hr & Ho & Hn).
  eapply wp_mono; [by apply IH|]. intros [] q2. rewrite Hl.
  destruct (expected mid cs) as [last rs']. intros (Hl' & Hr' & Ho' & Hn').
  split_and!; [done|by rewrite Hr', Hr, app_assoc|by eapply only_logger_trans|congruence].
Qed.

(** Two states with the same loggers, levels and statements. *)
Definition same_loggers (q q' : quill) : Prop :=
  loggers (abs q') = loggers (abs q) ∧ levels (abs q') = levels (abs q) ∧
  records (abs q') = records (abs q).

(** Looking a sink up, or making it, leaves the loggers alone. *)
Lemma sink_made k n cfg q :
  sink_available n (abs q) = true →
  wp (create_or_get_sink k n cfg) (λ _ q',
    same_loggers q q' ∧ is_Some (sinks (abs q') !! n)) q.
Proof.
  unfold sink_available. intros Ha. destruct (sinks (abs q) !! n) as [[k' s]|] eqn:Hs.
  - eapply wp_mono; [by eapply sink_known|]. intros s' q' [_ ?]. unfold same_loggers.
    replace (abs q'). rewrite Hs. naive_solver.
  - eapply wp_mono; [by apply sink_new|]. intros s' q' Hq. unfold same_loggers. rewrite Hq.
    cbn. rewrite lookup_insert_eq. naive_solver.
Qed.

(** The logger a name stands for, with its level and statements, after create_or_get_logger. *)
Definition logger_for (n : string) (l : logger) (q q' : quill) : Prop :=
  loggers (abs q') !! n = Some l ∧ records (abs q') = records (abs q) ∧ only_logger l (abs q) (abs q') ∧
  match loggers (abs q) !! n with
  | Some l0 => l0 = l ∧ level_of (abs q') l = level_of (abs q) l
  | None => level_of (abs q') l = Info ∧ records_of (abs q) l = [] ∧ ∀ n', loggers (abs q) !! n' ≠ Some l
  end.

Lemma logger_made n s f q :
  wp (create_or_get_logger n s f) (λ l q', logger_for n l q q') q.
Proof.
  unfold logger_for. destruct (loggers (abs q) !! n) as [l|] eqn:Hn.
  - eapply wp_mono; [by apply logger_known|]. intros l' q' [-> ->]. split_and!; try done.
  - eapply wp_mono; [by apply logger_new|]. intros l q' (Hf & Hr & ->).
    rewrite level_of_with_logger. split_and!; try done; [apply lookup_insert_eq|]. split; intros.
    + by apply level_of_with_level_ne.
    + done.
    + cbn. rewrite lookup_insert_ne; [done|congruence].
Qed.

Lemma logger_for_frame n l q q1 q' : same_loggers q q1 → logger_for n l q1 q' → logger_for n l q q'.
Proof.
  intros (Hn & Hl & Hr) (Hg & Hrec & [Ov Or On] & Hm).
  unfold logger_for, level_of, records_of in *. cbn in *. rewrite ?Hn, ?Hl, ?Hr in *.
  split_and!; [done|done|by split|done].
Qed.
End facts.

(** ** Properties *)

Section properties.
Context `{QuillLaws}.

Lemma Quill_logger_ctor_run name file q :
  sink_available file (abs q) = true →
  wp (Quill_logger_ctor name file) (λ this q',
    loggers (abs q') !! name = Some (l_ this) ∧ level_of (abs q') (l_ this) = Debug ∧
    records_of (abs q') (l_ this) =
      match loggers (abs q) !! name with Some l0 => records_of (abs q) l0 | None => [] end ∧
    only_logger (l_ this) (abs q) (abs q') ∧
    match loggers (abs q) !! name with
    | Some l0 => l0 = l_ this
    | None => ∀ n, loggers (abs q) !! n ≠ Some (l_ this)
    end) q.
Proof.
  intros Ha. apply wp_bind. eapply wp_mono; [apply backend_start_law|]. intros [] q1 H1.
  apply wp_bind. eapply wp_mono; [apply sink_made; by rewrite H1|]. intros s q2 [H2 _].
  apply wp_bind. eapply wp_mono; [apply logger_made|]. intros l q3 H3.
  apply (logger_for_frame _ _ q) in H3; [|unfold same_loggers in *; congruence].
  destruct H3 as (H3n & H3r & H3o & H3).
  apply wp_bind. eapply wp_mono; [by apply set_level_law|]. intros [] q4 H4.
  apply wp_ret. cbn [l_]. rewrite H4, level_of_with_level. cbn [loggers].
  change (records_of (with_level l Debug (abs q3)) l) with (records_of (abs q3) l).
  unfold records_of. rewrite H3r.
  destruct (loggers (abs q) !! name) as [l0|] eqn:Hn; naive_solver eauto using
    only_logger_trans, only_logger_level.
Qed.


Lemma wp_on_lib {A} (m : M quill A) (Q : A → process → Prop) p :
  wp m (λ a q, Q a (Process q (global_logger_a p))) (lib p) → wp (on_lib m) Q p.
Proof. unfold wp, on_lib. by destruct (m (lib p)). Qed.

Lemma setup_quill_run file p :
  sink_available file (abs (lib p)) = true →
  wp (setup_quill file) (λ _ p',
    ∃ l, global_logger_a p' = Some l ∧ logger_for "root" l (lib p) (lib p')) p.
Proof.
  intros Ha. unfold setup_quill.
  apply wp_bind, wp_on_lib. eapply wp_mono; [apply backend_start_law|]. intros [] q1 H1.
  apply wp_bind, wp_on_lib. eapply wp_mono; [apply sink_made; cbn; by rewrite H1|]. intros s q2 [H2 Hs].
  apply wp_bind, wp_on_lib. eapply wp_mono; [apply logger_made|]. intros l q3 H3.
  apply (logger_for_frame _ _ (lib p)) in H3; [|unfold same_loggers in *; cbn in *; congruence].
  apply wp_modify. eauto.
Qed.

(** setup_quill, which every program and every test calls: the first call of a process makes the
    logger "root"; every later one, whatever file it names, leaves global_logger_a at the same
    logger, with the level and the statements that logger has by then. *)
Lemma setup_quill_again file file' p :
  sink_available file (abs (lib p)) = true → can_open file' = true →
  wp (setup_quill file) (λ _ p1, ∃ l, global_logger_a p1 = Some l ∧
    wp (setup_quill file') (λ _ p2, global_logger_a p2 = Some l ∧
      level_of (abs (lib p2)) l = level_of (abs (lib p1)) l ∧
      records_of (abs (lib p2)) l = records_of (abs (lib p1)) l) p1) p.
Proof.
  intros Ha Ha'. eapply wp_mono; [by apply setup_quill_run|]. intros [] p1 (l & Hg & Hl).
  exists l. split; [done|]. eapply wp_mono.
  { apply setup_quill_run. unfold sink_available. by destruct (sinks _ !! file'). }
  intros [] p2 (l' & Hg' & Hn' & Hr' & _ & Hm). destruct Hl as (Hn & _).
  rewrite Hn in Hm. destruct Hm as [<- Hv]. unfold records_of. by rewrite Hr'.
Qed.

(** The example program logs its two messages and returns 0. *)
Lemma quill_main_run q :
  sink_available "app.log" (abs q) = true → loggers (abs q) !! "app_logger" = None →
  wp quill_main (λ r q', r = 0%Z ∧ ∃ l, loggers (abs q') !! "app_logger" = Some l ∧
    records_of (abs q') l = [(Info, "Application started"); (Error, "An error occurred")]) q.
Proof.
  intros Ha Hn. apply wp_bind. eapply wp_mono; [by apply Quill_logger_ctor_run|].
  intros this q1 (Hn1 & Hl & Hr & _). rewrite Hn in Hr.
  apply wp_bind. eapply wp_mono; [apply LOG_moves|]. intros [] q2 (Hl2 & Hr2 & _ & Hn2).
  apply wp_bind. eapply wp_mono; [apply LOG_moves|]. intros [] q3 (_ & Hr3 & _ & Hn3).
  apply wp_ret. split; [done|]. exists (l_ this). rewrite Hn3, Hn2, Hr3, Hr2, Hl2, Hl, Hr.
  by split.
Qed.
End properties.

(** ** A library that keeps its laws *)

(** A sink is its file's name, a logger a number; files in the directory "ro/" do not open. *)
Definition fresh_logger (v : qview string nat) : nat :=
  fresh (map_img (loggers v) ∪ dom (records v) : gset nat).

Definition model_quill : Quill := {|
  quill := qview string nat;
  sink := string;
  logger := nat;
  Backend_start := mret tt;
  create_or_get_sink k n _ := λ v,
    match sinks v !! n with
    | Some (_, s) => Ok s v
    | None => if String.prefix "ro/" n then Throw (runtime_error "fopen failed") v
              else Ok n (with_sink n k n v)
    end;
  create_or_get_logger n s _ := λ v,
    match loggers v !! n with
    | Some l => Ok l v
    | None => let l := fresh_logger v in Ok l (with_logger n l v)
    end;
  set_log_level l lvl := λ v, Ok tt (with_level l lvl v);
  flush_log _ := mret tt;
  set_immediate_flush _ := mret tt;
  LOG l lvl fmt args := λ v,
    Ok tt (if (level_rank (level_of v l) <=? level_rank lvl)%nat
           then with_record l (lvl, default fmt (head args)) v else v);
  formatted fmt args := default fmt (head args);
  can_open n := negb (String.prefix "ro/" n);
  abs v := v
|}.

Definition no_loggers : qview string nat := QView ∅ ∅ ∅ ∅.

#[global] Instance model_quill_laws : @QuillLaws model_quill.
Proof.
  split; cbn; try done.
  - intros n k s k' cfg q Hs. unfold wp. by rewrite Hs.
  - intros n k cfg q Hs Ho. unfold wp. apply negb_true_iff in Ho. by rewrite Hs, Ho.
  - intros n k cfg q Hs Ho. rewrite Hs. apply negb_false_iff in Ho. rewrite Ho. eauto.
  - intros n l s f q Hl. unfold wp. by rewrite Hl.
  - intros n s f q Hl. unfold wp. rewrite Hl.
    pose proof (is_fresh (map_img (loggers q) ∪ dom (records q) : gset nat)) as Hf.
    fold (fresh_logger q) in Hf. rewrite not_elem_of_union, not_elem_of_dom in Hf.
    destruct Hf as [Hi Hd]. split_and!; [|unfold records_of; cbn in Hd |- *; by rewrite Hd|done].
    intros n' Hn'. apply Hi. by eapply elem_of_map_img_2.
Qed.

(** ** Witness *)


(** Loggers are shared by name: a second wrapper for the same name puts Debug in force again. *)
Example second_wrapper_resets_level :
  wp (this ← @Quill_logger_ctor model_quill "app" "app.log";
      q_set_log_level this Critical;;
      Quill_logger_ctor "app" "other.log";;
      debug this "noise") (λ _ q, records q = {[0%nat := [(Debug, "noise")]]}) no_loggers.
Proof. vm_compute. reflexivity. Qed.
