(* ===== verification/Conformance.v ===== *)
(** The unit tests of the repository (src/test), run on the model.  A test case is a program that
    returns whether every REQUIRE of it held; each is evaluated here, so that the definitions of
    [Mempool], [Config], [Utility] and [UdpServer] are seen to agree with what the tests say of
    the code they model.  The memory is that of [bump], the environment and the configuration
    are the ones the tests name. *)

From Stdlib Require Import Ascii String.
From S2P Require Import Prelude CMem Libpool Chrono Config ConfigProps Format Utility Mempool.
From S2P Require Import BufferPool MempoolProps UdpServer UdpClient IoContext Main ServerLife ClientLife.
Local Open Scope Z_scope.

(** ** common_mempool_test.cpp *)

(** A test case: the pool is constructed, and destroyed when the case ends. *)
Definition mempool_case (pool_sz chunk_sz : Z) (body : M mstate bool) : M heap bool := λ h,
  match @Mempool_ctor (bump 1048576) pool_sz chunk_sz h with
  | Ok this h =>
      match (b ← body; Mempool_dtor 100;; mret b) (MState this h) with
      | Ok b s => Ok b (hp s)
      | Throw e s => Throw e (hp s)
      | UB u => UB u
      | OutOfFuel => OutOfFuel
      end
  | Throw e h => Throw e h
  | UB u => UB u
  | OutOfFuel => OutOfFuel
  end.

Definition expand (n : Z) : M mstate bool := @Mempool_expand (bump 1048576) 100 n.
Definition stats : M mstate Mempool_stats := Mempool_stats_ 100.

(** REQUIRE_THROWS *)
Definition throws {S A} (m : M S A) : M S bool := λ s,
  match m s with
  | Ok _ s => Ok false s
  | Throw _ s => Ok true s
  | UB u => UB u
  | OutOfFuel => OutOfFuel
  end.

(** The case passes, and leaves no block of memory behind. *)
Definition passes (c : M heap bool) : bool :=
  match c empty_heap with
  | Ok b h => b && bool_decide (blocks h = ∅)
  | _ => false
  end.

Definition constructor_stats : M heap bool := mempool_case 16 1024 (
  st ← stats;
  mret ((st_chunk_sz st =? 1024) && (st_pool_sz st =? 16) && (st_extra_sz st =? 0))).

Definition alloc_free : M heap bool := mempool_case 16 1024 (
  data ← Mempool_alloc;
  st ← stats;
  Mempool_free data;;
  st' ← stats;
  mret ((st_available st =? 15) && (st_available st' =? 16))).

Definition expand_case : M heap bool := mempool_case 16 1024 (
  st ← stats;
  status ← expand 5;
  st1 ← stats;
  expand 4;;
  st2 ← stats;
  mret ((st_pool_sz st =? 16) && status &&
        (st_pool_sz st1 =? 16) && (st_extra_sz st1 =? 5) && (st_available st1 =? 21) &&
        (st_pool_sz st2 =? 16) && (st_extra_sz st2 =? 9) && (st_available st2 =? 25))).

Definition alloc_exhausted : M heap bool := mempool_case 5 1024 (
  data1 ← Mempool_alloc; data2 ← Mempool_alloc; data3 ← Mempool_alloc; data4 ← Mempool_alloc;
  data5 ← Mempool_alloc;
  thrown ← throws Mempool_alloc;
  mret (negb (data5 =? NULL) && thrown)).

Example common_mempool_test :
  passes constructor_stats = true ∧ passes alloc_free = true ∧ passes expand_case = true ∧
  passes alloc_exhausted = true.
Proof. vm_compute. split_and!; reflexivity. Qed.

(** ** common_config_test.cpp *)

(** The values of a configuration file; a double is a decimal fraction. *)
Inductive tnode : Type :=
| NString (s : string)
| NInt (n : Z)
| NDouble (mantissa exponent : Z)
| NBool (b : bool)
| NDate (d : toml_date)
| NTime (t : toml_time).

Definition test_toml : Toml := {|
  node := tnode;
  table := list (string * tnode);
  table_get t k := snd <$> List.find (λ e, String.eqb e.1 k) t;
  node_get _ _ := None;
  at_path t k := snd <$> List.find (λ e, String.eqb e.1 k) t;
  as_date n := match n with NDate d => Some d | _ => None end;
  as_time n := match n with NTime t => Some t | _ => None end;
  as_date_time _ := None
|}.

(** value<T>() of a view. *)
Definition to_string (v : option tnode) := match v with Some (NString s) => Some s | _ => None end.
Definition to_int (v : option tnode) := match v with Some (NInt n) => Some n | _ => None end.
Definition to_double (v : option tnode) := match v with Some (NDouble m e) => Some (m, e) | _ => None end.
Definition to_bool (v : option tnode) := match v with Some (NBool b) => Some b | _ => None end.

(** What the test reads of unid.toml, found at the place for all users. *)
Definition test_parse (path : string) : string + list (string * tnode) :=
  if String.eqb path "/etc/unid/unid.toml" then
    inr [("title", NString "Unid Configuration"); ("intval", NInt 12); ("doubleval", NDouble 1234 (-2));
         ("booleanval", NBool true); ("ld1", NDate (TomlDate 1979 5 27)); ("lt1", NTime (TomlTime 7 32 0 0))]
  else inl "file not found".

(** REQUIRE(o == Some v), and REQUIRE(o == std::nullopt) with [None]. *)
Definition equals {A} `{EqDecision A} (o v : option A) : bool := bool_decide (o = v).

Definition get_as_case : M (@Config test_toml) bool :=
  title ← @get_as test_toml _ to_string "title";
  intval ← @get_as test_toml _ to_int "intval";
  intval' ← @get_as test_toml _ to_int "not_found";
  doubleval ← @get_as test_toml _ to_double "doubleval";
  doubleval' ← @get_as test_toml _ to_double "not_found";
  booleanval ← @get_as test_toml _ to_bool "booleanval";
  booleanval' ← @get_as test_toml _ to_bool "not_found";
  ymd ← @get_as_date test_toml "ld1";
  hms ← @get_as_time test_toml "lt1";
  mret (equals title (Some "Unid Configuration"%string) && equals intval (Some 12) && equals intval' None &&
        equals doubleval (Some (1234, -2)) && equals doubleval' None &&
        equals booleanval (Some true) && equals booleanval' None &&
        match ymd with Some (YMD y m d) => (y =? 1979) && (m =? 5) && (d =? 27) | None => false end &&
        match hms with Some (HMS _ h m s) => (h =? 7) && (m =? 32) && (s =? 0) | None => false end).

(** The object is constructed, which must not throw, and the case runs on it. *)
Definition config_case (m : M (@Config test_toml) bool) : bool :=
  match @Config_ctor test_toml (String.eqb "/etc/unid/unid.toml") None test_parse tt with
  | Ok c _ => match m c with Ok b _ => b | _ => false end
  | _ => false
  end.

Example common_config_test :
  config_case (mret true) = true ∧ config_case get_as_case = true.
Proof. split; reflexivity. Qed.

(** ** common_utility_test.cpp *)

Definition test_env (key : chars) : option chars :=
  if bool_decide (key = list_ascii_of_string "HOME") then Some (list_ascii_of_string "/home/msellers")
  else if bool_decide (key = list_ascii_of_string "HISTSIZE") then Some (list_ascii_of_string "1000")
  else None.

Definition env_string (key default : string) : chars :=
  get_environment_variable extract_string test_env (list_ascii_of_string key) []
    (list_ascii_of_string default).
Definition env_int (key : string) (default : Z) : Z :=
  get_environment_variable extract_int test_env (list_ascii_of_string key) [] default.

Definition utility_case : bool :=
  bool_decide (env_string "HOME" "Not home" = list_ascii_of_string "/home/msellers") &&
  bool_decide (env_string "NOT_DEFINED" "Not home" = list_ascii_of_string "Not home") &&
  (env_int "HISTSIZE" 1234 =? 1000) && (env_int "NOT_DEFINED" 1234 =? 1234).

Example common_utility_test : utility_case = true.
Proof. vm_compute. reflexivity. Qed.

(** ** server_network_udp_test.cpp *)

(** The pool of the test, then the server on port 12346, whose receive is pending; the thread is
    stopped and joined. *)
Definition test_program : list (action server) :=
  [Call (open_socket (λ _, true) 12346;; Udp_server_ctor (0, 12346)); StartThread; StopContext; JoinThread].

Definition server_case (ts : list (turn net_event)) : bool :=
  match @Mempool_ctor (bump 1048576) 16 1024 empty_heap with
  | Ok this h =>
      match stat (prun false ts (pinit (raw_server (MState this h)) test_program)) with
      | SReturned => true
      | _ => false
      end
  | _ => false
  end.

(** However often the other thread runs, before and after the stop: the case ends. *)
Example server_network_udp_test :
  forallb (λ n, server_case (concat (replicate n [TMain; TNet (NReceived (1, 2) [7])])
                             ++ concat (replicate 6 [TMain; TRet])))
    [0; 1; 2; 3; 4; 5]%nat = true.
Proof. vm_compute. reflexivity. Qed.

(** ** client_network_udp_test.cpp *)

Definition client_test_program : list (action client) :=
  [Call (Client.Udp_client_ctor (λ _ _, Some [(2130706433, 12346)]) true "127.0.0.1" "12346");
   StartThread; StopContext; JoinThread].

(** The first statement of the case after the pool is the constructor, which reads chunk_size_: the
    test itself is undefined, and cannot tell. *)
Example client_network_udp_test :
  match @Mempool_ctor (bump 1048576) 16 1024 empty_heap with
  | Ok this h =>
      stat (prun false [TMain] (pinit (Client.client_storage None (MState this h)) client_test_program))
  | _ => SRunning
  end = SUndefined.
Proof. vm_compute. reflexivity. Qed.
